(* ===== verification/_CoqProject ===== *)
-Q . S2P
Prelude.v
Std.v
Deps.v
Command.v
Errors.v
Aggregate.v
Proto.v
Event.v
Auth.v
EventStore.v
Client.v
Storage.v
Snapshot.v
Actor.v
Concurrent.v
Cursor.v
Projection.v
ProcessManager.v
Codec.v
LiveTypes.v
Store.v
Live.v
Locks.v
Shutdown.v
Builder.v
System.v
Counter.v
Demo.v
DemoApp.v
MockStore.v
UnitTests.v
EventFacts.v
ClientFacts.v
DiskFacts.v
ActorFacts.v
ConcurrentFacts.v
ProjectionFacts.v
ProcessManagerFacts.v
StoreFacts.v
CodecFacts.v
CounterFacts.v
BuilderFacts.v
LiveFacts.v
LocksFacts.v
LocksEnvelopes.v
LiveModes.v
ShutdownFacts.v
SystemFacts.v
AnswersFacts.v
TypeFacts.v
TestFacts.v
