(* ===== verification/Prelude.v ===== *)
(** * eventfold-es: a verification development

    eventfold-es is an event-sourcing library: aggregates decide commands and
    append the resulting events to per-instance streams of a gRPC event store
    (eventfold-db); projections and process managers consume the global log of
    all streams.  This library models the crate's Rust sources (src/src/*.rs)
    as executable functions and state machines and proves what they guarantee.

    ** How the program is put together

    An [AggregateStore] (store.rs) owns a client of the event store
    (client.rs, with auth.rs for bearer tokens), a cache of actor handles, the
    registered projections (projection.rs) and process managers
    (process_manager.rs) and, in live mode, a background loop (live.rs).  An
    actor (actor.rs) owns one aggregate instance: it folds the instance's
    stream into a state, starting from a snapshot on disk (snapshot.rs),
    decides commands with the application's [Aggregate::handle]
    (aggregate.rs), encodes the events (event.rs) and appends them under
    optimistic concurrency, re-reading and retrying on a conflict.
    Projections fold the log; process managers turn its events into command
    envelopes (command.rs), which the store routes to actors through its
    dispatchers or writes to a dead-letter file.  Both keep a checkpoint
    (state and cursor) on disk.  The live loop subscribes to the log once,
    fans every event out to all of them, dispatches what the process managers
    emit, publishes the position, and saves checkpoints on a timer, on
    reconnection and on shutdown.

    ** Files

    - [Prelude]: the [result] type (with [Panic] for a call that panics), its
      binds, 64-bit arithmetic, list lemmas.  [Std]: UTF-8, paths, io::Error,
      durations, and std::fs as the class [FileSystem] with its laws.  [Deps]:
      serde_json, uuid and tonic as classes with their documented laws.
    - [Command], [Errors], [Aggregate], [Proto], [Event], [Auth], [Storage],
      [Snapshot]: the source files of the same name (and eventfold.proto).
    - [EventStore]: the trait [EventStoreOps] of actor.rs and the subscription
      call, as classes, and the contract of an event store ([EventStoreSpec],
      [EventLogSpec]).  [Client]: client.rs over the stub [Grpc]; [ClientFacts]
      proves that the client is an instance of that contract.
    - [Actor]: actor.rs; [actor_step] is one turn of run_actor's loop,
      [execute_attempts] is execute_with_retry.  [Concurrent]: the same code,
      and the get of store.rs, suspended at every await, with the application's
      tasks, the mailboxes and the reply channels; [conc_next] is a step.
    - [Cursor]: the step that projections and process managers share, with its
      specification; [Projection], [ProcessManager]: their files.  [Codec]: the
      JSON in the files of [Snapshot], [Projection] and [ProcessManager], as the
      derived serialisers write it over the application's own state types.
    - [LiveTypes], [Store], [Live], [Shutdown], [Builder]: store.rs and live.rs.
      The state is the record [AggregateStore] (with the disk, the random
      source, the clock and the actor tasks it acts on) and, for the loop, the
      record [Live], which adds the shared cells of a [LiveHandle], the retry
      delay and the point where the loop is suspended.  [Shutdown] adds the
      callers of LiveHandle::shutdown and the join of the loop's task.
    - [Locks]: the same pull functions and live loop with the mutex of every
      runner, suspended at every lock; [lock_next] is a step.
    - [System]: one process as its users see it: calls on a store, the steps of
      its live loop, idle actors that stop, other writers, and restarts over the
      same files.
    - [Counter]: examples/counter.rs, its aggregate, its read model and main.
    - [Demo], [DemoApp]: concrete instances of every class, with their laws
      proved, and the application of the crate's own tests; the witnesses of
      the theorems run on them.
    - [MockStore]: the event store in memory of actor.rs's tests.  [UnitTests]:
      the tests of every source file as checks that evaluate on the instances of
      [Demo], [DemoApp] and [MockStore], under their own names.
    - [EventFacts], [ClientFacts], [DiskFacts], [ActorFacts],
      [ConcurrentFacts], [ProjectionFacts], [ProcessManagerFacts],
      [StoreFacts], [CodecFacts], [CounterFacts], [BuilderFacts], [LiveFacts],
      [LiveModes], [LocksFacts], [LocksEnvelopes], [ShutdownFacts],
      [SystemFacts], [AnswersFacts], [TypeFacts], [TestFacts]: the theorems.

    ** What the theorems show

    - Commands: an accepted command was decided on exactly the events that
      precede its own in the stream, at most one append is accepted however
      often the loop retries, an actor is at the replay of a prefix of its
      stream all its life, and only other writers make it give up
      ([ActorFacts]); through the store's cache, respawns and dispatchers too
      ([StoreFacts]).
    - Concurrency: in every interleaving of tasks, actors and other writers the
      stream of an instance is a serial execution of the accepted commands,
      every call gets the answer to its own message, and a message processed
      without interruption is [actor_step] ([ConcurrentFacts]).
    - The log: projections apply every decodable event once and in order,
      across failures and restarts ([ProjectionFacts]); process managers emit
      exactly the envelopes of the events they have passed
      ([ProcessManagerFacts]), and a complete run dispatches or dead-letters
      each ([StoreFacts]); the live loop keeps both in every reachable state,
      refines the uninterrupted function and backs off within bounds
      ([LiveFacts]), leaves a stream after a bounded number of turns and does
      with its events what the pull functions do ([LiveModes]), and stops for
      every caller that asks ([ShutdownFacts]).
    - The locks: in every interleaving of projection, live_projection,
      run_process_managers, dropped calls, other writers and the live loop, a
      runner has one holder at a time, and its queue empties within two turns of
      each owner in it, unless the loop waits for itself ([LocksFacts]); every
      envelope the process managers emit is routed once, in the hands of one
      task, or lost with a task that failed or was dropped ([LocksEnvelopes]).
    - The whole: one invariant of actors, runners and files survives every call,
      every step of the loop, every idle timeout, other writer and restart
      ([SystemFacts]); what execute, state, projection and live_projection
      answer in every state it holds of, up to which position of the log
      ([AnswersFacts]); in every reachable state each downcast succeeds
      ([TypeFacts]); opening a store establishes the invariants
      ([BuilderFacts]).
    - Codecs and files: what one component writes another reads back
      ([EventFacts], [DiskFacts]), but for a context's metadata that is [null]
      ([CommandContext_read_back]); the layout of the state files, and the lines
      of the dead-letter logs, which are the envelopes that a run could not
      deliver ([CodecFacts]).
    - The client implements the event store, and every request carries the
      token last written ([ClientFacts]).
    - The tests: the definitions here pass the crate's own unit tests
      ([unit_tests_pass]), a check of the model as much as of the code; what the
      tests' store answers to any number of conflicts ([mock_store_conflicts]),
      and that it accepts what the server rejects ([mock_is_no_event_store]).
    - What the code does not guarantee is stated as theorems as well: an actor
      that stops on an empty stream poisons its instance, and an identifier
      that ends with a slash shares a snapshot with another instance
      ([ActorFacts]); get can give one instance two actors
      ([get_race_two_actors]); envelopes are lost when a stream breaks off
      ([pm_catch_up_error_loses]), when a later process manager fails
      ([later_error_loses_earlier_envelopes]), and when a checkpoint is saved
      between fan-out and dispatch ([live_shutdown_loses_envelopes]) or by a
      second task before the first has dispatched
      ([concurrent_save_loses_envelopes]); the live loop and its callers can wait
      for each other for ever ([live_loop_deadlocks]); a position
      nobody listens to is not kept ([position_stale_without_receiver]); opening
      panics on a checkpoint that is not UTF-8; the example passes its
      assertions once ([main_passes_once]).

    ** Modelling choices

    - Other writers act between the calls on an event store: each call returns
      a new store, of which the contract only says that it extends the old one
      and how the result relates to a state in between.  The contract never
      promises that a call succeeds.
    - u64 values are [N]; additions wrap ([u64_add]), as in a release build; the
      example's i64 is a [Z] that wraps.  Durations are nanoseconds, with the
      overflow panic of [Duration].
    - The retry loop's fuel is the code's own bound ([MAX_RETRIES], 3); every
      other recursion is structural (streams are the finite lists of items they
      yield before they end, fail or are dropped).
    - There are four grains.  In [Actor] and [Store] a call runs without
      interruption, and a mailbox is the sequence of inputs the actor receives.
      In [Concurrent] actors and callers of one aggregate type are suspended at
      every await, and a step is what happens between two of them; a send waits
      while the mailbox is full.  In [Locks] the pull functions and the live loop
      are suspended at every lock of a runner, before and inside a catch-up and
      between two dispatches, each of which runs to its end; a Tokio mutex is its
      FIFO queue of owners.  In [System] a whole call is one step among
      those of the live loop, actors that stop, other writers and restarts.
    - The live loop's select! is a labelled transition system ([live_next]):
      the timer, the shutdown signal and the sleeps may happen between any two
      steps of the stream's future.  Fan-out of one event and dispatch of one
      envelope are single steps there; [Live], [Shutdown] and [System] take
      every lock at once, [Locks] does not.
    - An actor may be idle for ever or stop at any time.  In [System] it stops
      when its stream is not empty and its snapshot file is its own among those of
      the instances in use ([InUse]), which the claims about actors and snapshots
      are restricted to; without this they do not hold.
    - HashMap iteration (projections) is in the order of [gmap]; the code only
      takes a minimum and saves independent files in it.
    - Downcasts of trait objects are decisions on type identifiers, over
      families of aggregates, projections and process managers.
    - Writing a file either happens or fails with an effect the class
      [FileSystem] leaves open; rename is atomic.  Appending a dead letter is
      one append.

    ** Not modelled

    Logging, the tokio scheduler (any ready step may be next; no fairness), the
    generated gRPC code and its build script, the derived Debug and Clone
    implementations and their tests, JSON text below the level of values (its
    white space, the order of keys, keys that come twice) and the array form in
    which derived structs can be read too, two tasks that append to one
    dead-letter file at the same moment, what the example prints, and
    serialisers that panic inside the background save of checkpoints.

    ** Next

    The actors of [Concurrent] below the dispatches of [Locks]. *)
From stdpp Require Export base gmap strings list numbers option fin_maps.
From Stdlib Require Export NArith.

(** Rust's [Result<A, E>], with a third outcome for a call that panics
    ([expect], [unwrap], slice indexing, arithmetic the standard library
    checks).  A function that cannot panic never returns [Panic]; the lemmas
    about it say so where it matters. *)
Inductive result (A E : Type) : Type :=
| Ok (a : A)
| Err (e : E)
| Panic.
Arguments Ok {A E} a.
Arguments Err {A E} e.
Arguments Panic {A E}.

Declare Scope rust_scope.
Delimit Scope rust_scope with rust.
Open Scope rust_scope.

(** [r?]: continue with the value, or return the error (or the panic). *)
Definition result_bind {A B E} (r : result A E) (k : A → result B E) : result B E :=
  match r with
  | Ok a => k a
  | Err e => Err e
  | Panic => Panic
  end.

Notation "'let?' x ':=' r 'in' k" := (result_bind r (λ x, k))
  (at level 10, x pattern, r at level 100, k at level 200) : rust_scope.

(** [Result::map_err]. *)
Definition map_err {A E E'} (f : E → E') (r : result A E) : result A E' :=
  match r with
  | Ok a => Ok a
  | Err e => Err (f e)
  | Panic => Panic
  end.

(** [Option::expect] and [Result::expect]: the value, or a panic. *)
Definition expect {A E} (o : option A) : result A E :=
  match o with Some a => Ok a | None => Panic end.

(** [Result::ok]. *)
Definition result_ok {A E} (r : result A E) : option A :=
  match r with Ok a => Some a | _ => None end.

Definition is_ok {A E} (r : result A E) : bool :=
  match r with Ok _ => true | _ => false end.

(** [iter().map(f).collect::<Result<Vec<_>, _>>()], threading a state (here
    the generator of event identifiers) through the elements in order and
    stopping at the first failure. *)
Fixpoint try_map_state {St A B E} (f : St → A → St * result B E)
    (s : St) (l : list A) : St * result (list B) E :=
  match l with
  | [] => (s, Ok [])
  | x :: l' =>
      match f s x with
      | (s1, Ok y) =>
          match try_map_state f s1 l' with
          | (s2, Ok ys) => (s2, Ok (y :: ys))
          | (s2, Err e) => (s2, Err e)
          | (s2, Panic) => (s2, Panic)
          end
      | (s1, Err e) => (s1, Err e)
      | (s1, Panic) => (s1, Panic)
      end
  end.

(** ** 64-bit unsigned integers

    A [u64] is an [N] below [2^64].  [u64_add] and [u64_sub] are the
    operations of a release build, which wrap; a debug build panics on the same
    inputs. *)
Definition u64_MAX : N := 18446744073709551615.

Definition u64_add (a b : N) : N := ((a + b) mod 18446744073709551616)%N.

Definition u64_sub (a b : N) : N := ((a + (18446744073709551616 - b)) mod 18446744073709551616)%N.

(** [Option<u64>::map_or(0, |v| v + 1)]: the version to read from. *)
Definition next_version (v : option N) : N :=
  match v with Some n => u64_add n 1 | None => 0%N end.

(** ** Automation *)

Create HintDb rust.
Create Rewrite HintDb rust.

(** Case analysis on every [match] of the goal and the hypotheses, with the
    equations stdpp's [simplify_eq] can use. *)
Ltac break_match :=
  repeat (case_match; simplify_eq/=; try done).

(** Decompose the conjunctions and existentials of the context. *)
Ltac break_hyps :=
  repeat match goal with
  | H : _ ∧ _ |- _ => destruct H
  | H : ∃ _, _ |- _ => destruct H
  | H : _ * _ |- _ => destruct H
  end; simplify_eq/=.

(** ** Lemmas the components share *)

Section result.
Context {A B E : Type}.

Lemma result_bind_Ok (r : result A E) (k : A → result B E) b :
  result_bind r k = Ok b ↔ ∃ a, r = Ok a ∧ k a = Ok b.
Proof. split; [destruct r; naive_solver | naive_solver]. Qed.

Lemma map_err_Ok {E'} (f : E → E') (r : result A E) a :
  map_err f r = Ok a ↔ r = Ok a.
Proof. destruct r; naive_solver. Qed.

Lemma result_ok_Some (r : result A E) a : result_ok r = Some a ↔ r = Ok a.
Proof. destruct r; naive_solver. Qed.
End result.

#[export] Hint Rewrite @result_bind_Ok @map_err_Ok @result_ok_Some : rust.

Lemma try_map_state_Ok {St A B E} (f : St → A → St * result B E) l s s' ys :
  try_map_state f s l = (s', Ok ys) →
  Forall2 (λ x y, ∃ s1 s2, f s1 x = (s2, Ok y)) l ys.
Proof.
  revert s ys; induction l as [|x l IH]; intros s ys; simpl.
  { intros [= _ <-]. constructor. }
  destruct (f s x) as [s1 [y| |]] eqn:Hx; try done.
  destruct (try_map_state f s1 l) as [s2 [zs| |]] eqn:Hl; try done.
  intros [= <- <-]. constructor; [eauto | by eapply IH].
Qed.

Lemma u64_add_small a b : (a + b ≤ u64_MAX)%N → u64_add a b = (a + b)%N.
Proof. unfold u64_MAX, u64_add. intros. apply N.mod_small. lia. Qed.

Lemma u64_sub_small a b : (b ≤ a ≤ u64_MAX)%N → u64_sub a b = (a - b)%N.
Proof.
  unfold u64_MAX, u64_sub. intros.
  replace (a + (18446744073709551616 - b))%N with (a - b + 1 * 18446744073709551616)%N by lia.
  rewrite N.Div0.mod_add. apply N.mod_small. lia.
Qed.

Lemma u64_add_bound a b : (u64_add a b ≤ u64_MAX)%N.
Proof.
  unfold u64_MAX, u64_add.
  assert ((a + b) mod 18446744073709551616 < 18446744073709551616)%N by (apply N.mod_lt; lia).
  lia.
Qed.

Lemma u64_add_wraps : u64_add u64_MAX 1 = 0%N.
Proof. reflexivity. Qed.

#[export] Hint Resolve u64_add_bound : rust.

(** Two prefixes of one list with the same length are the same list. *)
Lemma prefix_length_eq {A} (l1 l2 l : list A) :
  l1 `prefix_of` l → l2 `prefix_of` l → length l1 = length l2 → l1 = l2.
Proof.
  intros [k1 ->] [k2 Hk] Hlen.
  assert (take (length l1) (l1 ++ k1) = take (length l1) (l2 ++ k2)) as Ht by congruence.
  rewrite take_app_length, Hlen, take_app_length in Ht. done.
Qed.

Lemma prefix_take_length {A} (l1 l : list A) :
  l1 `prefix_of` l → l1 = take (length l1) l.
Proof. intros [k ->]. by rewrite take_app_length. Qed.

(** [filter] when nothing, or everything, passes. *)
Section filter.
Context {A : Type} (P : A → Prop) `{!∀ x, Decision (P x)}.

Lemma filter_none (l : list A) : (∀ x, x ∈ l → ¬ P x) → filter P l = [].
Proof.
  intros HP. induction l as [|x l IH]; [done|].
  rewrite filter_cons_False by (apply HP; set_solver). apply IH. set_solver.
Qed.

Lemma filter_all (l : list A) : (∀ x, x ∈ l → P x) → filter P l = l.
Proof.
  intros HP. induction l as [|x l IH]; [done|].
  rewrite filter_cons_True by (apply HP; set_solver). f_equal. apply IH. set_solver.
Qed.
End filter.
