(* ===== verification/Std.v ===== *)
(** The parts of the Rust standard library the crate relies on: UTF-8 checking
    ([std::str::from_utf8]), [Path] and [PathBuf] operations as they act on
    Unix path strings, [io::Error], [Duration] arithmetic, and the file-system
    calls ([std::fs]) as a class [FileSystem] with the laws POSIX gives them. *)
From Stdlib Require Import Strings.Byte Strings.Ascii Strings.String.
From S2P Require Import Prelude.
Open Scope N_scope.

(** ** Bytes and UTF-8 *)

Abbreviation bytes := (list Byte.byte).

(** A continuation byte: [10xxxxxx]. *)
Definition utf8_cont (b : Byte.byte) : bool :=
  let x := Byte.to_N b in (128 <=? x) && (x <=? 191).

Definition in_range (lo hi : N) (b : Byte.byte) : bool :=
  let x := Byte.to_N b in (lo <=? x) && (x <=? hi).

(** Well-formed UTF-8: shortest form, no surrogates, at most [U+10FFFF]. *)
Fixpoint utf8_valid (l : bytes) : bool :=
  match l with
  | [] => true
  | b :: l1 =>
      if in_range 0 127 b then utf8_valid l1
      else if in_range 194 223 b then
        match l1 with
        | c1 :: l2 => utf8_cont c1 && utf8_valid l2
        | _ => false
        end
      else if in_range 224 239 b then
        match l1 with
        | c1 :: c2 :: l3 =>
            (if in_range 224 224 b then in_range 160 191 c1
             else if in_range 237 237 b then in_range 128 159 c1
             else utf8_cont c1) && utf8_cont c2 && utf8_valid l3
        | _ => false
        end
      else if in_range 240 244 b then
        match l1 with
        | c1 :: c2 :: c3 :: l4 =>
            (if in_range 240 240 b then in_range 144 191 c1
             else if in_range 244 244 b then in_range 128 143 c1
             else utf8_cont c1) && utf8_cont c2 && utf8_cont c3 && utf8_valid l4
        | _ => false
        end
      else false
  end.

(** [str::as_bytes]. *)
Definition as_bytes (s : string) : bytes := String.list_byte_of_string s.

(** [std::str::from_utf8(..).ok()]. *)
Definition from_utf8 (b : bytes) : option string :=
  if utf8_valid b then Some (String.string_of_list_byte b) else None.

(** [<[u8]>::is_empty], [str::is_empty]. *)
Definition bytes_is_empty (b : bytes) : bool :=
  match b with [] => true | _ => false end.

Definition str_is_empty (s : string) : bool :=
  match s with EmptyString => true | _ => false end.

(** A [str] between quotes, as [Debug] prints one without characters to escape. *)
Definition quoted (s : string) : string :=
  let quote := String "034" EmptyString in (quote ++ s ++ quote)%string.

(** ** Paths

    A path is its string; the operations are those of [std::path] on Unix. *)
Abbreviation path := string.

Definition starts_with_slash (s : string) : bool :=
  match s with
  | String c _ => Ascii.eqb c "/"%char
  | EmptyString => false
  end.

Fixpoint ends_with_slash (s : string) : bool :=
  match s with
  | EmptyString => false
  | String c EmptyString => Ascii.eqb c "/"%char
  | String _ s' => ends_with_slash s'
  end.

(** [Path::join]: an absolute right-hand side replaces the left one. *)
Definition join (p c : path) : path :=
  if starts_with_slash c then c
  else if str_is_empty p then c
  else if ends_with_slash p then (p ++ c)%string
  else (p ++ "/" ++ c)%string.

(** The text before and after the last occurrence of a character. *)
Fixpoint split_last (sep : ascii) (s : string) : option (string * string) :=
  match s with
  | EmptyString => None
  | String c s' =>
      match split_last sep s' with
      | Some (a, b) => Some (String c a, b)
      | None => if Ascii.eqb c sep then Some (EmptyString, s') else None
      end
  end.

(** [Path::parent] of a path that does not end in a separator. *)
Definition parent (p : path) : option path :=
  match split_last "/" p with
  | Some (EmptyString, f) => if str_is_empty f then None else Some "/"%string
  | Some (d, _) => Some d
  | None => if str_is_empty p then None else Some EmptyString
  end.

(** [Path::file_stem] of a file name: up to the last dot, unless that dot is
    the first character. *)
Definition file_stem (f : string) : string :=
  match split_last "." f with
  | Some (EmptyString, _) => f
  | Some (s, _) => s
  | None => f
  end.

(** [Path::with_extension] with a non-empty extension. *)
Definition with_extension (p : path) (ext : string) : path :=
  match split_last "/" p with
  | Some (d, f) => (d ++ "/" ++ file_stem f ++ "." ++ ext)%string
  | None => (file_stem p ++ "." ++ ext)%string
  end.

(** ** [std::io::Error] *)
Inductive ErrorKind :=
| NotFound
| AlreadyExists
| InvalidData
| Other
| Uncategorized (errno : N).

#[export] Instance ErrorKind_eq_dec : EqDecision ErrorKind.
Proof. solve_decision. Defined.

Record io_error := mk_io_error { kind : ErrorKind; message : string }.

Abbreviation io_result A := (result A io_error).

(** [io::Error::other]. *)
Definition io_other (msg : string) : io_error := mk_io_error Other msg.

(** ** [std::time::Duration], in nanoseconds *)
Definition DURATION_MAX : N := 18446744073709551615999999999.

Definition from_secs (s : N) : N := s * 1000000000.

(** [Duration * u32]: panics on overflow. *)
Definition duration_mul (d k : N) : result N unit :=
  if d * k <=? DURATION_MAX then Ok (d * k) else Panic.

(** ** The file system *)
Class FileSystem (F : Type) := {
  create_dir_all : F → path → F * io_result unit;
  fs_write : F → path → bytes → F * io_result unit;
  fs_rename : F → path → path → F * io_result unit;
  fs_read : F → path → io_result bytes;
  (** [OpenOptions::new().create(true).append(true).open(p)] and a write *)
  fs_append : F → path → bytes → F * io_result unit;
}.

(** What the calls promise.  [content f p] is the content of the file at [p].
    A failed write may leave anything at its own path; nothing else changes
    any other path, and a rename replaces its target in one step. *)
Class FileSystemLaws (F : Type) {FS : FileSystem F} := {
  content : F → path → option bytes;
  create_dir_all_content f p f' r q :
    create_dir_all f p = (f', r) → content f' q = content f q;
  fs_write_frame f p b f' r q :
    fs_write f p b = (f', r) → q ≠ p → content f' q = content f q;
  fs_write_ok f p b f' :
    fs_write f p b = (f', Ok ()) → content f' p = Some b;
  fs_rename_ok f p q b f' :
    fs_rename f p q = (f', Ok ()) → p ≠ q → content f p = Some b →
    content f' q = Some b ∧ content f' p = None;
  fs_rename_frame f p q f' r x :
    fs_rename f p q = (f', r) → x ≠ p → x ≠ q → content f' x = content f x;
  fs_rename_err f p q f' e x :
    fs_rename f p q = (f', Err e) → content f' x = content f x;
  fs_read_ok f p b : fs_read f p = Ok b → content f p = Some b;
  fs_read_not_found f p e :
    fs_read f p = Err e → kind e = NotFound → content f p = None;
  fs_append_frame f p b f' r q :
    fs_append f p b = (f', r) → q ≠ p → content f' q = content f q;
  fs_append_ok f p b f' :
    fs_append f p b = (f', Ok ()) →
    content f' p = Some (default [] (content f p) ++ b);
  fs_no_panic f p q b :
    (create_dir_all f p).2 ≠ Panic ∧ (fs_write f p b).2 ≠ Panic ∧
    (fs_rename f p q).2 ≠ Panic ∧ fs_read f p ≠ Panic ∧ (fs_append f p b).2 ≠ Panic;
}.

(** ** Lemmas *)

#[local] Arguments String.append !_ _ / : simpl nomatch.

Lemma from_utf8_as_bytes s t : from_utf8 (as_bytes s) = Some t → t = s.
Proof.
  unfold from_utf8, as_bytes. case_match; [|done].
  intros [= <-]. apply String.string_of_list_byte_of_string.
Qed.

Lemma from_utf8_Some b s :
  from_utf8 b = Some s ↔ utf8_valid b = true ∧ s = String.string_of_list_byte b.
Proof. unfold from_utf8. destruct (utf8_valid b); naive_solver. Qed.

(** ASCII text is UTF-8. *)
Lemma utf8_valid_ascii b :
  Forall (λ x, in_range 0 127 x = true) b → utf8_valid b = true.
Proof. induction 1 as [|x l Hx _ IH]; [done|]. simpl. by rewrite Hx. Qed.

Lemma split_last_app sep a b :
  split_last sep b = None → split_last sep (a ++ String sep b) = Some (a, b).
Proof.
  intros Hb. induction a as [|c a IH]; cbn.
  - by rewrite Hb, Ascii.eqb_refl.
  - by rewrite IH.
Qed.

Lemma ends_with_slash_app s :
  ends_with_slash s = true → ∃ s', s = (s' ++ "/")%string.
Proof.
  induction s as [|c s IH]; [done|]. simpl. destruct s as [|c' s].
  - intros ->%Ascii.eqb_eq. by exists EmptyString.
  - intros [s' Hs]%IH. exists (String c s'). cbn. by rewrite Hs.
Qed.

Lemma string_app_assoc (a b c : string) : ((a ++ b) ++ c = a ++ (b ++ c))%string.
Proof. induction a as [|x a IH]; cbn; by f_equal. Qed.

Lemma string_length_app (a b : string) :
  String.length (a ++ b) = (String.length a + String.length b)%nat.
Proof. induction a as [|x a IH]; cbn; [done|]. by f_equal. Qed.

Lemma string_app_inj_r (a b c : string) : (a ++ c = b ++ c)%string → a = b.
Proof.
  revert b; induction a as [|x a IH]; intros [|y b]; cbn; intros H; try done.
  - exfalso. apply (f_equal String.length) in H. cbn in H.
    rewrite string_length_app in H. lia.
  - exfalso. apply (f_equal String.length) in H. cbn in H.
    rewrite string_length_app in H. lia.
  - injection H as -> H. f_equal. by apply IH.
Qed.

(** Joining a plain file name, in the three cases of [join]. *)
Lemma join_cases d f :
  starts_with_slash f = false →
  (d = EmptyString ∧ join d f = f) ∨
  ∃ d', join d f = (d' ++ String "/" f)%string ∧
        (d = d' ∨ d = (d' ++ "/")%string).
Proof.
  intros Hf. unfold join. rewrite Hf. destruct d as [|c d]; [by left|right].
  cbn [str_is_empty]. destruct (ends_with_slash (String c d)) eqn:He.
  - destruct (ends_with_slash_app _ He) as [d' ->]. exists d'.
    rewrite string_app_assoc. eauto.
  - exists (String c d). eauto.
Qed.

Lemma join_parent d f :
  starts_with_slash f = false → split_last "/" f = None → f ≠ EmptyString →
  is_Some (parent (join d f)).
Proof.
  intros Hf Hs Hne. unfold parent.
  destruct (join_cases d f Hf) as [[-> ->]|[d' [-> _]]].
  - rewrite Hs. by destruct f.
  - rewrite split_last_app by done. destruct d'; [by destruct f|done].
Qed.

Lemma join_with_extension d f ext :
  starts_with_slash f = false → split_last "/" f = None →
  starts_with_slash (file_stem f ++ "." ++ ext) = false →
  with_extension (join d f) ext = join d (file_stem f ++ "." ++ ext).
Proof.
  intros Hf Hs Hg. unfold with_extension, join. rewrite Hf, Hg.
  destruct d as [|c d]; cbn [str_is_empty]; [by rewrite Hs|].
  destruct (ends_with_slash (String c d)) eqn:He.
  - destruct (ends_with_slash_app _ He) as [d' ->].
    rewrite !string_app_assoc. cbn [String.append].
    by rewrite split_last_app.
  - cbn [String.append]. change (String c (d ++ String "/" f))
      with ((String c d) ++ String "/" f)%string.
    by rewrite split_last_app.
Qed.

Lemma join_inj_r d f g :
  starts_with_slash f = false → starts_with_slash g = false →
  join d f = join d g → f = g.
Proof.
  intros Hf Hg. unfold join. rewrite Hf, Hg.
  destruct d as [|c d]; cbn [str_is_empty]; [done|].
  destruct (ends_with_slash (String c d)); intros H.
  - by apply (inj (String.append (String c d))) in H.
  - apply (inj (String.append (String c d))) in H. by injection H.
Qed.

(** Files of different names are different files, wherever they are. *)
Lemma join_file_inj d d' f g :
  split_last "/" f = None → split_last "/" g = None → join d f = join d' g → f = g.
Proof.
  assert (∀ x, split_last "/" x = None → starts_with_slash x = false) as Hrel.
  { intros [|c x]; [done|]. simpl. destruct (split_last "/" x) as [[]|]; [done|].
    by destruct (Ascii.eqb c "/"). }
  intros Hf Hg.
  destruct (join_cases d f (Hrel _ Hf)) as [[_ ->]|(x & -> & _)];
    destruct (join_cases d' g (Hrel _ Hg)) as [[_ ->]|(y & -> & _)]; [done|..];
    intros H%(f_equal (split_last "/")); rewrite ?split_last_app in H by done; congruence.
Qed.
