(* ===== verification/Deps.v ===== *)
(** The third-party code the crate calls, as parameters: [serde_json] values
    and serialisation, [uuid], [tonic]'s status and metadata types.  Each class
    lists only the operations the sources use; each [..Laws] class states the
    documented behaviour the theorems rely on.  Nothing here is a definition of
    that code: the file [Demo] instantiates the classes with concrete functions. *)
From S2P Require Import Prelude Std.
Open Scope N_scope.

(** ** serde_json *)
Class SerdeJson := {
  (** [serde_json::Value], and [serde_json::Map] behind [as_object] *)
  Value : Type;
  JsonMap : Type;
  (** [serde_json::Error] and its [Display] *)
  JsonError : Type;
  json_error_display : JsonError → string;
  Null : Value;
  is_null : Value → bool;
  as_str : Value → option string;
  as_object : Value → option JsonMap;
  map_get : JsonMap → string → option Value;
  (** a string value, and an object built from key/value pairs ([json!]) *)
  json_str : string → Value;
  json_obj : list (string * Value) → Value;
  (** a number that is a [u64], and [Value::as_u64] *)
  json_num : N → Value;
  as_u64 : Value → option N;
  (** the error of a derived [Deserialize] on a value of another shape; which
      field it names is not modelled *)
  data_error : JsonError;
  (** [serde_json::to_vec], its indented form (which [to_string_pretty] shares)
      and [serde_json::from_str], on values *)
  to_vec : Value → result bytes JsonError;
  to_vec_pretty : Value → result bytes JsonError;
  from_str : string → result Value JsonError;
}.

Section json.
Context {J : SerdeJson}.

(** [Value::get] with a string key. *)
Definition value_get (v : Value) (k : string) : option Value :=
  match as_object v with Some o => map_get o k | None => None end.

(** [unwrap_or_default] on serialised bytes. *)
Definition bytes_unwrap_or_default (r : result bytes JsonError) : bytes :=
  match r with Ok b => b | _ => [] end.

(** A [String] field that [serde] writes only when it is present. *)
Definition opt_field (k : string) (o : option string) : list (string * Value) :=
  match o with Some s => [(k, json_str s)] | None => [] end.

(** A derived [Deserialize] reads the fields of an object by their keys: a
    field that must be there, and an [Option], for which an absent key and a
    [null] are [None].  [None] of the outer option is the error; its text is
    not modelled. *)
Definition de_field {A} (de : Value → option A) (v : Value) (k : string) : option A :=
  value_get v k ≫= de.

Definition de_option {A} (de : Value → option A) (v : Value) (k : string) : option (option A) :=
  match value_get v k with
  | None => Some None
  | Some x => if is_null x then Some None else Some <$> de x
  end.
End json.

Class SerdeJsonLaws {J : SerdeJson} : Prop := {
  is_null_iff v : is_null v = true ↔ v = Null;
  as_str_json_str s : as_str (json_str s) = Some s;
  as_str_Null : as_str Null = None;
  as_object_json_obj l : is_Some (as_object (json_obj l));
  map_get_json_obj l o k :
    NoDup l.*1 → as_object (json_obj l) = Some o →
    map_get o k = (list_to_map l : gmap string Value) !! k;
  as_u64_json_num n : as_u64 (json_num n) = Some n;
  (** values serialise without error, to non-empty UTF-8 text that parses back *)
  to_vec_from_str v :
    ∃ b s, to_vec v = Ok b ∧ from_utf8 b = Some s ∧ s ≠ EmptyString ∧ from_str s = Ok v;
  to_vec_pretty_from_str v :
    ∃ b s, to_vec_pretty v = Ok b ∧ from_utf8 b = Some s ∧ s ≠ EmptyString ∧ from_str s = Ok v;
  (** the text of [to_vec] is one line: control characters are escaped *)
  to_vec_one_line v b : to_vec v = Ok b → Byte.x0a ∉ b;
  from_str_no_panic s : from_str s ≠ Panic;
}.

(** A type with derived [Serialize] and [Deserialize], as it is written to and
    read from files ([to_vec_pretty], [to_string_pretty], [from_slice],
    [from_str]). *)
Class Serde {J : SerdeJson} (T : Type) := {
  to_json_bytes : T → result bytes JsonError;
  from_json_bytes : bytes → result T JsonError;
}.

Class SerdeLaws {J : SerdeJson} (T : Type) {S : Serde T} : Prop := {
  serde_roundtrip (x : T) b : to_json_bytes x = Ok b → from_json_bytes b = Ok x;
  (** JSON text is UTF-8 *)
  serde_utf8 (x : T) b : to_json_bytes x = Ok b → utf8_valid b = true;
  serde_no_panic (x : T) b : to_json_bytes x ≠ Panic ∧ from_json_bytes b ≠ (Panic : result T _);
}.

(** ** uuid *)
Class UuidOps := {
  Uuid : Type;
  Uuid_eq_dec :: EqDecision Uuid;
  uuid_from_bytes : list N → Uuid;
  new_v5 : Uuid → bytes → Uuid;
  uuid_to_string : Uuid → string;
  parse_str : string → option Uuid;
  (** the random source behind [Uuid::new_v4] *)
  Rng : Type;
  new_v4 : Rng → Rng * Uuid;
}.

Class UuidLaws {U : UuidOps} : Prop := {
  parse_to_string u : parse_str (uuid_to_string u) = Some u;
}.

(** ** tonic *)
Class Tonic := {
  (** [tonic::Status], the two codes the crate tests, and [Display] *)
  Status : Type;
  code_is_failed_precondition : Status → bool;
  code_is_not_found : Status → bool;
  status_internal : string → Status;
  status_cancelled : string → Status;
  status_display : Status → string;
  (** [tonic::metadata::MetadataValue] and its parser *)
  MetadataValue : Type;
  parse_metadata_value : string → option MetadataValue;
}.

(** [Status::internal] and [Status::cancelled] have codes of their own. *)
Class TonicLaws {T : Tonic} : Prop := {
  status_internal_code m :
    code_is_failed_precondition (status_internal m) = false ∧
    code_is_not_found (status_internal m) = false;
  status_cancelled_code m :
    code_is_failed_precondition (status_cancelled m) = false ∧
    code_is_not_found (status_cancelled m) = false;
}.

(** ** Lemmas *)
Section json_lemmas.
Context {J : SerdeJson} {JL : SerdeJsonLaws}.

Lemma value_get_json_obj l k :
  NoDup l.*1 → value_get (json_obj l) k = (list_to_map l : gmap string Value) !! k.
Proof.
  intros Hnd. unfold value_get.
  destruct (as_object_json_obj l) as [o Ho]. rewrite Ho. by apply map_get_json_obj.
Qed.

Lemma is_null_Null : is_null Null = true.
Proof. by apply is_null_iff. Qed.

Lemma is_null_json_str s : is_null (json_str s) = false.
Proof.
  destruct (is_null _) eqn:H; [|done]. apply is_null_iff in H.
  pose proof (as_str_json_str s) as Hs. rewrite H, as_str_Null in Hs. done.
Qed.

(** An optional string reads back, whether [None] was written as [null] or
    left out. *)
Lemma de_option_string v k o :
  value_get v k = json_str <$> o ∨ value_get v k = Some (default Null (json_str <$> o)) →
  de_option as_str v k = Some o.
Proof.
  unfold de_option. destruct o as [s|]; intros [->| ->]; simpl;
    by rewrite ?is_null_json_str, ?is_null_Null, ?as_str_json_str.
Qed.
End json_lemmas.
