(* ===== verification/Command.v ===== *)
(** [src/command.rs]: the command context and the type-erased envelope, with
    their derived serialisation. *)
From S2P Require Import Prelude Std Deps.

Section command.
Context {J : SerdeJson}.

Record CommandContext := mk_CommandContext {
  actor : option string;
  correlation_id : option string;
  metadata : option Value;
  source_device : option string;
}.

(** [CommandContext::default()]. *)
Definition CommandContext_default : CommandContext :=
  mk_CommandContext None None None None.

Definition with_actor (c : CommandContext) (a : string) : CommandContext :=
  mk_CommandContext (Some a) (correlation_id c) (metadata c) (source_device c).

Definition with_correlation_id (c : CommandContext) (id : string) : CommandContext :=
  mk_CommandContext (actor c) (Some id) (metadata c) (source_device c).

Definition with_metadata (c : CommandContext) (meta : Value) : CommandContext :=
  mk_CommandContext (actor c) (correlation_id c) (Some meta) (source_device c).

Definition with_source_device (c : CommandContext) (device_id : string) : CommandContext :=
  mk_CommandContext (actor c) (correlation_id c) (metadata c) (Some device_id).

Record CommandEnvelope := mk_CommandEnvelope {
  env_aggregate_type : string;
  env_instance_id : string;
  env_command : Value;
  env_context : CommandContext;
}.

(** The derived [Serialize] and [Deserialize], as values: [source_device] alone
    is left out when it is [None].  Reading, the keys may come in any order,
    unknown ones are ignored, and an object is expected; the array of fields in
    order that serde accepts too is left out. *)
Definition CommandContext_to_value (c : CommandContext) : Value :=
  json_obj
    ([("actor", default Null (json_str <$> actor c));
      ("correlation_id", default Null (json_str <$> correlation_id c));
      ("metadata", default Null (metadata c))]
     ++ opt_field "source_device" (source_device c)).

Definition CommandContext_from_value (v : Value) : option CommandContext :=
  _ ← as_object v;
  actor ← de_option as_str v "actor";
  correlation_id ← de_option as_str v "correlation_id";
  metadata ← de_option Some v "metadata";
  source_device ← de_option as_str v "source_device";
  Some (mk_CommandContext actor correlation_id metadata source_device).

Definition CommandEnvelope_to_value (e : CommandEnvelope) : Value :=
  json_obj
    [("aggregate_type", json_str (env_aggregate_type e));
     ("instance_id", json_str (env_instance_id e));
     ("command", env_command e);
     ("context", CommandContext_to_value (env_context e))].

Definition CommandEnvelope_from_value (v : Value) : option CommandEnvelope :=
  _ ← as_object v;
  aggregate_type ← de_field as_str v "aggregate_type";
  instance_id ← de_field as_str v "instance_id";
  command ← de_field Some v "command";
  context ← de_field CommandContext_from_value v "context";
  Some (mk_CommandEnvelope aggregate_type instance_id command context).
End command.
