(* ===== verification/Errors.v ===== *)
(** [src/error.rs]: the error enums and their [Display] text. *)
From S2P Require Import Prelude Std Deps.

Section errors.
Context {J : SerdeJson} {T : Tonic}.

(** [ExecuteError<E>]. *)
Inductive ExecuteError (E : Type) : Type :=
| Domain (e : E)
| WrongExpectedVersion
| Io (e : io_error)
| Transport (s : Status)
| ActorGone.
Arguments Domain {E} e.
Arguments WrongExpectedVersion {E}.
Arguments Io {E} e.
Arguments Transport {E} s.
Arguments ActorGone {E}.

(** [StateError]. *)
Inductive StateError : Type :=
| StateIo (e : io_error)
| StateTransport (s : Status)
| StateActorGone.

(** [DispatchError]; declared and exported, built nowhere in the crate. *)
Inductive DispatchError : Type :=
| UnknownAggregateType (ty : string)
| UnknownCommand
| Deserialization (e : JsonError)
| Execution (msg : string)
| DispatchIo (e : io_error).

(** [Display for ExecuteError<E>]: [Domain] is transparent. *)
Definition execute_error_display {E} (show : E → string) (e : ExecuteError E) : string :=
  match e with
  | Domain d => show d
  | WrongExpectedVersion => "wrong expected version: retries exhausted"
  | Io e => "I/O error: " ++ message e
  | Transport s => "gRPC transport error: " ++ status_display s
  | ActorGone => "aggregate actor is no longer running"
  end.

Definition state_error_display (e : StateError) : string :=
  match e with
  | StateIo e => "I/O error: " ++ message e
  | StateTransport s => "gRPC transport error: " ++ status_display s
  | StateActorGone => "aggregate actor is no longer running"
  end.

Definition dispatch_error_display (e : DispatchError) : string :=
  match e with
  | UnknownAggregateType ty => "unknown aggregate type: " ++ ty
  | UnknownCommand => "no route registered for command type"
  | Deserialization e => "command deserialization failed: " ++ json_error_display e
  | Execution m => "command execution failed: " ++ m
  | DispatchIo e => "I/O error: " ++ message e
  end.
End errors.

Arguments Domain {T E} e.
Arguments WrongExpectedVersion {T E}.
Arguments Io {T E} e.
Arguments Transport {T E} s.
Arguments ActorGone {T E}.
