(* ===== verification/Aggregate.v ===== *)
(** [src/aggregate.rs]: the [Aggregate] trait, and the counter fixture the
    crate's tests use. *)
From S2P Require Import Prelude Std Deps.
Open Scope N_scope.

(** The trait.  [handle] may reject a command; [apply] is total.  Events are
    serialised to and from JSON values ([Serialize + DeserializeOwned]). *)
Class Aggregate {J : SerdeJson} (A : Type) := {
  AGGREGATE_TYPE : string;
  Command : Type;
  DomainEvent : Type;
  DomainError : Type;
  error_display : DomainError → string;
  agg_default : A;
  handle : A → Command → result (list DomainEvent) DomainError;
  apply : A → DomainEvent → A;
  event_to_value : DomainEvent → result Value JsonError;
  event_from_value : Value → result DomainEvent JsonError;
}.
Arguments AGGREGATE_TYPE {J} A {_}.
Arguments Command {J} A {_}.
Arguments DomainEvent {J} A {_}.
Arguments DomainError {J} A {_}.
Arguments agg_default {J} A {_}.

(** [A::Command: DeserializeOwned], what a dispatcher needs. *)
Class CommandDe {J : SerdeJson} (A : Type) {AG : Aggregate A} := {
  command_from_value : Value → result (Command A) JsonError;
}.

(** The convention for domain events: adjacently tagged
    ([#[serde(tag = "type", content = "data")]]).  A unit variant has no
    ["data"]; a variant whose content is [null] is read back without it. *)
Class AdjacentlyTagged {J : SerdeJson} (A : Type) {AG : Aggregate A} : Prop := {
  event_tagged (e : DomainEvent A) :
    ∃ t, (event_to_value e = Ok (json_obj [("type", json_str t)]) ∧
          event_from_value (json_obj [("type", json_str t)]) = Ok e) ∨
         ∃ d, event_to_value e = Ok (json_obj [("type", json_str t); ("data", d)]) ∧
              event_from_value
                (json_obj (("type", json_str t) :: if is_null d then [] else [("data", d)]))
              = Ok e;
}.

(** ** The fixture of [aggregate.rs::test_fixtures] *)
Module Fixture.
Record Counter := mk_Counter { value : N }.

Inductive CounterCommand := Increment | Decrement | Add (n : N).

Inductive CounterEvent := Incremented | Decremented | Added (amount : N).

Inductive CounterError := AlreadyZero.

Definition counter_error_display (e : CounterError) : string :=
  "cannot decrement: counter is already zero".

Definition counter_handle (c : Counter) (cmd : CounterCommand)
    : result (list CounterEvent) CounterError :=
  match cmd with
  | Increment => Ok [Incremented]
  | Decrement => if value c =? 0 then Err AlreadyZero else Ok [Decremented]
  | Add n => Ok [Added n]
  end.

(** [u64] arithmetic of a release build: [-= 1] wraps at zero. *)
Definition counter_apply (c : Counter) (e : CounterEvent) : Counter :=
  match e with
  | Incremented => mk_Counter (u64_add (value c) 1)
  | Decremented => mk_Counter (u64_add (value c) u64_MAX)
  | Added n => mk_Counter (u64_add (value c) n)
  end.
End Fixture.
