(* ===== verification/Proto.v ===== *)
(** [proto/eventfold.proto]: the wire messages the crate builds and reads, as
    [prost] generates them ([string] and [bytes] fields, [uint64] as [N], a
    [oneof] as an option of an inductive type). *)
From S2P Require Import Prelude Std.
Open Scope N_scope.

Record ProposedEvent := mk_ProposedEvent {
  pe_event_id : string;
  pe_event_type : string;
  pe_metadata : bytes;
  pe_payload : bytes;
}.

Record RecordedEvent := mk_RecordedEvent {
  re_event_id : string;
  re_stream_id : string;
  re_stream_version : N;
  re_global_position : N;
  re_event_type : string;
  re_metadata : bytes;
  re_payload : bytes;
  re_recorded_at : N;
}.

Record Empty := mk_Empty {}.

(** The [oneof]s of the file; an [Empty] payload is left out of the variant. *)
Inductive ExpectedVersionKind := KindAny | KindNoStream | KindExact (v : N).

Record ExpectedVersion := mk_ExpectedVersion { ev_kind : option ExpectedVersionKind }.

Record AppendRequest := mk_AppendRequest {
  ar_stream_id : string;
  ar_expected_version : option ExpectedVersion;
  ar_events : list ProposedEvent;
}.

Record AppendResponse := mk_AppendResponse {
  first_stream_version : N;
  last_stream_version : N;
  first_global_position : N;
  last_global_position : N;
}.

Record ReadStreamRequest := mk_ReadStreamRequest {
  rs_stream_id : string;
  rs_from_version : N;
  rs_max_count : N;
}.

Record ReadStreamResponse := mk_ReadStreamResponse { rsr_events : list RecordedEvent }.

Record ReadAllRequest := mk_ReadAllRequest {
  ra_from_position : N;
  ra_max_count : N;
}.

Record ReadAllResponse := mk_ReadAllResponse { rar_events : list RecordedEvent }.

Record SubscribeAllRequest := mk_SubscribeAllRequest { sa_from_position : N }.

Record SubscribeStreamRequest := mk_SubscribeStreamRequest {
  ss_stream_id : string;
  ss_from_version : N;
}.

Inductive SubscribeContent := Event (recorded : RecordedEvent) | CaughtUp.

Record SubscribeResponse := mk_SubscribeResponse { sr_content : option SubscribeContent }.

Record ListStreamsRequest := mk_ListStreamsRequest {}.

Record StreamInfo := mk_StreamInfo {
  si_stream_id : string;
  si_event_count : N;
  si_latest_version : N;
}.

Record ListStreamsResponse := mk_ListStreamsResponse { ls_streams : list StreamInfo }.

(** [service EventStore]: its methods, what each takes and what it answers; the
    subscriptions answer with a stream of messages. *)
Inductive EventStoreRpc :=
  RpcAppend | RpcReadStream | RpcReadAll | RpcSubscribeAll | RpcSubscribeStream | RpcListStreams.

Definition rpc_request (m : EventStoreRpc) : Type :=
  match m with
  | RpcAppend => AppendRequest
  | RpcReadStream => ReadStreamRequest
  | RpcReadAll => ReadAllRequest
  | RpcSubscribeAll => SubscribeAllRequest
  | RpcSubscribeStream => SubscribeStreamRequest
  | RpcListStreams => ListStreamsRequest
  end.

Definition rpc_response (m : EventStoreRpc) : Type :=
  match m with
  | RpcAppend => AppendResponse
  | RpcReadStream => ReadStreamResponse
  | RpcReadAll => ReadAllResponse
  | RpcSubscribeAll | RpcSubscribeStream => list SubscribeResponse
  | RpcListStreams => ListStreamsResponse
  end.
