(* ===== verification/Event.v ===== *)
(** [src/event.rs]: stream identifiers, event metadata, and the encoding and
    decoding of events. *)
From S2P Require Import Prelude Std Deps Command Aggregate Proto.
Open Scope N_scope.

Section event.
Context {J : SerdeJson} {U : UuidOps}.

(** [STREAM_NAMESPACE]. *)
Definition STREAM_NAMESPACE : Uuid :=
  uuid_from_bytes
    [0x9a; 0x1e; 0x7c; 0x3b; 0x4d; 0x2f; 0x4a; 0x8e;
     0xb5; 0x6c; 0x1f; 0x3d; 0x7e; 0x9a; 0x0b; 0xc4].

Definition stream_uuid (aggregate_type instance_id : string) : Uuid :=
  let name := (aggregate_type ++ "/" ++ instance_id)%string in
  new_v5 STREAM_NAMESPACE (as_bytes name).

Record EventMetadata := mk_EventMetadata {
  em_aggregate_type : string;
  em_instance_id : string;
  em_actor : option string;
  em_correlation_id : option string;
  em_source_device : option string;
}.

(** The derived [Serialize], with [skip_serializing_if = "Option::is_none"]
    on the three optional fields. *)
Definition EventMetadata_to_value (m : EventMetadata) : Value :=
  json_obj
    ([("aggregate_type", json_str (em_aggregate_type m));
      ("instance_id", json_str (em_instance_id m))]
     ++ opt_field "actor" (em_actor m)
     ++ opt_field "correlation_id" (em_correlation_id m)
     ++ opt_field "source_device" (em_source_device m)).

(** The derived [Deserialize]; see [CommandContext_from_value]. *)
Definition EventMetadata_from_value (v : Value) : option EventMetadata :=
  _ ← as_object v;
  aggregate_type ← de_field as_str v "aggregate_type";
  instance_id ← de_field as_str v "instance_id";
  actor ← de_option as_str v "actor";
  correlation_id ← de_option as_str v "correlation_id";
  source_device ← de_option as_str v "source_device";
  Some (mk_EventMetadata aggregate_type instance_id actor correlation_id source_device).

Record ProposedEventData := mk_ProposedEventData {
  pd_event_id : Uuid;
  pd_event_type : string;
  pd_payload : Value;
  pd_metadata : EventMetadata;
}.

Record StoredEvent := mk_StoredEvent {
  event_id : Uuid;
  stream_id : Uuid;
  aggregate_type : string;
  instance_id : string;
  stream_version : N;
  global_position : N;
  event_type : string;
  payload : Value;
  se_metadata : Value;
  recorded_at : N;
}.

(** [encode_domain_event]: serialise, take the tag and the content, stamp the
    metadata, draw a fresh identifier.  The two [expect]s and the indexing of
    ["type"] are the panics. *)
Definition encode_domain_event {A} {AG : Aggregate A} (ctx : CommandContext)
    (aggregate_type instance_id : string) (g : Rng) (event : DomainEvent A)
    : Rng * result ProposedEventData JsonError :=
  match event_to_value event with
  | Err e => (g, Err e)
  | Panic => (g, Panic)
  | Ok value =>
      match as_object value with
      | None => (g, Panic)
      | Some obj =>
          match map_get obj "type" ≫= as_str with
          | None => (g, Panic)
          | Some event_type =>
              let payload := default Null (map_get obj "data") in
              let metadata := mk_EventMetadata aggregate_type instance_id
                (actor ctx) (correlation_id ctx) (source_device ctx) in
              let '(g', id) := new_v4 g in
              (g', Ok (mk_ProposedEventData id event_type payload metadata))
          end
      end
  end.

(** A string field of the metadata that must be present and non-empty. *)
Definition metadata_str (v : Value) (k : string) : option string :=
  s ← value_get v k ≫= as_str;
  if str_is_empty s then None else Some s.

(** The payload bytes as JSON, [null] when there are none. *)
Definition decode_payload (b : bytes) : option Value :=
  if bytes_is_empty b then Some Null
  else s ← from_utf8 b; result_ok (from_str s).

Definition decode_stored_event (recorded : RecordedEvent) : option StoredEvent :=
  metadata_str_ ← from_utf8 (re_metadata recorded);
  metadata_value ← result_ok (from_str metadata_str_);
  aggregate_type ← metadata_str metadata_value "aggregate_type";
  instance_id ← metadata_str metadata_value "instance_id";
  event_id ← parse_str (re_event_id recorded);
  stream_id ← parse_str (re_stream_id recorded);
  payload ← decode_payload (re_payload recorded);
  Some (mk_StoredEvent event_id stream_id aggregate_type instance_id
          (re_stream_version recorded) (re_global_position recorded)
          (re_event_type recorded) payload metadata_value (re_recorded_at recorded)).

End event.
