(* ===== verification/Auth.v ===== *)
(** [src/auth.rs]: the interceptor that adds the bearer token to a request. *)
From S2P Require Import Prelude Std Deps.

Section auth.
Context {T : Tonic}.

(** The metadata map of a [tonic::Request]. *)
Abbreviation Headers := (gmap string MetadataValue).

(** [RwLock<String>]: its content, and whether a writer panicked holding it. *)
Record TokenLock := mk_TokenLock { token : string; poisoned : bool }.

(** [BearerInterceptor::call]: read the lock, leave the request alone when the
    token is empty, otherwise parse and insert the header value. *)
Definition call (l : TokenLock) (req : Headers) : result Headers Status :=
  if poisoned l then Panic
  else if str_is_empty (token l) then Ok req
  else match parse_metadata_value ("Bearer " ++ token l) with
       | Some value => Ok (<["authorization" := value]> req)
       | None => Err (status_internal "invalid token characters")
       end.
End auth.
