(* ===== verification/EventStore.v ===== *)
(** The event store as the crate's components see it: the [EventStoreOps] trait
    of [src/actor.rs] and the subscription call of the client, as classes, and
    the contract of an event store ([EventStoreSpec]) against which the actor,
    the projections and the live loop are proved.

    The state [S] holds everything behind a client: the connection and the
    server.  Other writers act between the calls: the contract lets a call
    observe any extension of what the previous call left. *)
From Stdlib Require Import Sorting.Sorted.
From S2P Require Import Prelude Std Deps Proto Command Event.
Open Scope N_scope.

(** [ExpectedVersionArg]. *)
Inductive ExpectedVersionArg := Any | NoStream | Exact (v : N).

#[export] Instance ExpectedVersionArg_eq_dec : EqDecision ExpectedVersionArg.
Proof. solve_decision. Defined.

Section store.
Context {J : SerdeJson} {U : UuidOps} {T : Tonic}.

(** One item of a subscription stream. *)
Abbreviation StreamItem := (result SubscribeResponse Status).

Class EventStoreOps (S : Type) := {
  append : S → Uuid → ExpectedVersionArg → list ProposedEventData →
           S * result AppendResponse Status;
  read_stream : S → Uuid → N → N → S * result (list RecordedEvent) Status;
}.

(** [EsClient::subscribe_all_from]; the items the stream yields are a list,
    which ends where the stream ends. *)
Class EventLogOps (S : Type) := {
  subscribe_all_from : S → N → S * result (list StreamItem) Status;
}.

(** The version check of an append. *)
Definition expected_ok (e : ExpectedVersionArg) (l : list RecordedEvent) : Prop :=
  match e with
  | Any => True
  | NoStream => l = []
  | Exact v => N.of_nat (length l) = v + 1
  end.

(** The events a subscription yields, up to the first error or to the end. *)
Fixpoint stream_events (items : list StreamItem) : list RecordedEvent :=
  match items with
  | Ok (mk_SubscribeResponse (Some (Event r))) :: l => r :: stream_events l
  | Ok _ :: l => stream_events l
  | _ => []
  end.

(** The events before the first [CaughtUp], if it comes before any error. *)
Fixpoint until_caught_up (items : list StreamItem) : option (list RecordedEvent) :=
  match items with
  | Ok (mk_SubscribeResponse (Some (Event r))) :: l => cons r <$> until_caught_up l
  | Ok (mk_SubscribeResponse (Some CaughtUp)) :: _ => Some []
  | Ok (mk_SubscribeResponse None) :: l => until_caught_up l
  | _ => None
  end.

(** A delivered event. *)
Definition event_item (r : RecordedEvent) : StreamItem :=
  Ok (mk_SubscribeResponse (Some (Event r))).

(** The part of the log from a position on, and the part below it. *)
Definition events_from (p : N) (l : list RecordedEvent) : list RecordedEvent :=
  filter (λ r, p ≤ re_global_position r) l.
Definition events_below (p : N) (l : list RecordedEvent) : list RecordedEvent :=
  filter (λ r, re_global_position r < p) l.
End store.

Section spec.
Context {J : SerdeJson} {U : UuidOps} {T : Tonic}.

(** Recorded events are the proposed ones, as they were put on the wire. *)
Context (to_wire : ProposedEventData → ProposedEvent).

Definition recorded_as (p : ProposedEvent) (r : RecordedEvent) : Prop :=
  re_event_id r = pe_event_id p ∧ re_event_type r = pe_event_type p ∧
  re_metadata r = pe_metadata p ∧ re_payload r = pe_payload p.

Class EventStoreSpec (S : Type) {ES : EventStoreOps S} := {
  (** the stream with an identifier, oldest event first *)
  stream_of : S → Uuid → list RecordedEvent;
  stream_versions s sid i r :
    stream_of s sid !! i = Some r → re_stream_version r = N.of_nat i;
  stream_bounded s sid : N.of_nat (length (stream_of s sid)) ≤ u64_MAX;
  append_grows s sid e evs s' r sid' :
    append s sid e evs = (s', r) → stream_of s sid' `prefix_of` stream_of s' sid';
  read_grows s sid from max s' r sid' :
    read_stream s sid from max = (s', r) → stream_of s sid' `prefix_of` stream_of s' sid';
  (** an accepted append found the stream at [mid], which the version check
      accepts, and put the events right behind it *)
  append_ok s sid e evs s' resp :
    append s sid e evs = (s', Ok resp) → evs ≠ [] →
    ∃ mid recs, stream_of s sid `prefix_of` mid ∧ expected_ok e mid ∧
      Forall2 recorded_as (to_wire <$> evs) recs ∧
      (mid ++ recs) `prefix_of` stream_of s' sid ∧
      last_stream_version resp + 1 = N.of_nat (length (mid ++ recs));
  (** a read returns the events from a version on, of some current state *)
  read_ok s sid from max s' evs :
    read_stream s sid from max = (s', Ok evs) →
    ∃ cur, stream_of s sid `prefix_of` cur ∧ cur `prefix_of` stream_of s' sid ∧
      evs = take (N.to_nat max) (drop (N.to_nat from) cur);
}.

(** A conflict is the verdict of the version check on some state in between. *)
Class EventStoreConflicts (S : Type) {ES : EventStoreOps S} {SS : EventStoreSpec S} : Prop := {
  append_conflict s sid e evs s' status :
    append s sid e evs = (s', Err status) → code_is_failed_precondition status = true →
    ∃ mid, stream_of s sid `prefix_of` mid ∧ mid `prefix_of` stream_of s' sid ∧
           ¬ expected_ok e mid;
}.

(** The global log: strictly increasing positions, append-only; a
    subscription from [p] yields, in order, events from [p] on. *)
Class EventLogSpec (S : Type) {EL : EventLogOps S} := {
  log_of : S → list RecordedEvent;
  log_sorted s : StronglySorted (λ a b, re_global_position a < re_global_position b) (log_of s);
  log_bounded s r : r ∈ log_of s → re_global_position r < u64_MAX;
  subscribe_grows s p s' r :
    subscribe_all_from s p = (s', r) → log_of s `prefix_of` log_of s';
  subscribe_ok s p s' items :
    subscribe_all_from s p = (s', Ok items) →
    stream_events items `prefix_of` events_from p (log_of s');
  (** [CaughtUp] comes behind every event that existed at the time of the call *)
  subscribe_caught_up s p s' items evs :
    subscribe_all_from s p = (s', Ok items) → until_caught_up items = Some evs →
    events_from p (log_of s) `prefix_of` evs;
}.

(** The log only grows under the calls on streams, too. *)
Class EventStoreLogSpec (S : Type) {ES : EventStoreOps S} {EL : EventLogOps S}
    {LS : EventLogSpec S} : Prop := {
  append_log_grows s sid e evs s' r :
    append s sid e evs = (s', r) → log_of s `prefix_of` log_of s';
  read_log_grows s sid from max s' r :
    read_stream s sid from max = (s', r) → log_of s `prefix_of` log_of s';
}.

(** And streams only grow under a subscription. *)
Class EventStreamLogSpec (S : Type) {ES : EventStoreOps S} {EL : EventLogOps S}
    {SS : EventStoreSpec S} : Prop := {
  subscribe_stream_grows s p s' r sid :
    subscribe_all_from s p = (s', r) → stream_of s sid `prefix_of` stream_of s' sid;
}.
End spec.

(** ** Lemmas on streams *)
Section streams.
Context {T : Tonic}.

Lemma stream_events_break l (items : list (result SubscribeResponse Status)) :
  stream_events ((event_item <$> l) ++ items) = l ++ stream_events items.
Proof. induction l as [|r l IH]; [done|]. simpl. f_equal. exact IH. Qed.

Lemma until_caught_up_break l (items : list (result SubscribeResponse Status)) :
  until_caught_up ((event_item <$> l) ++ items) = app l <$> until_caught_up items.
Proof.
  induction l as [|r l IH]; [by simpl; destruct (until_caught_up items)|].
  etrans; [exact (f_equal (fmap (cons r)) IH)|].
  by destruct (until_caught_up items).
Qed.
End streams.
