(* ===== verification/Client.v ===== *)
(** [src/client.rs]: the typed client over the generated gRPC stub.  The stub
    and the server behind it are the parameter [Grpc]; [GrpcSpec] states what
    the server documents, and the client is proved to be an event store in the
    sense of [EventStoreSpec] on top of it. *)
From Stdlib Require Import Sorting.Sorted.
From S2P Require Import Prelude Std Deps Proto Command Event Auth EventStore.
Open Scope N_scope.

Section client.
Context {J : SerdeJson} {U : UuidOps} {T : Tonic}.

(** The generated stub: one call per RPC used, with the request metadata. *)
Class Grpc (W : Type) := {
  rpc_append : W → gmap string MetadataValue → AppendRequest →
               W * result AppendResponse Status;
  rpc_read_stream : W → gmap string MetadataValue → ReadStreamRequest →
                    W * result (list RecordedEvent) Status;
  rpc_subscribe_all : W → gmap string MetadataValue → SubscribeAllRequest →
                      W * result (list (result SubscribeResponse Status)) Status;
}.

(** [ExpectedVersionArg::to_proto]. *)
Definition to_proto (e : ExpectedVersionArg) : ExpectedVersion :=
  let kind := match e with
              | Any => KindAny
              | NoStream => KindNoStream
              | Exact v => KindExact v
              end in
  mk_ExpectedVersion (Some kind).

Definition to_proto_event (data : ProposedEventData) : ProposedEvent :=
  let payload := bytes_unwrap_or_default (to_vec (pd_payload data)) in
  let metadata := bytes_unwrap_or_default
                    (to_vec (EventMetadata_to_value (pd_metadata data))) in
  mk_ProposedEvent (uuid_to_string (pd_event_id data)) (pd_event_type data)
    metadata payload.

(** [EsClientInner]: which transport the client uses. *)
Inductive EsClientInner := PlainClient | AuthClient.

Context {W : Type} {G : Grpc W}.

(** A client, the token cell it shares with the application, and the server. *)
Record EsClient := mk_EsClient {
  inner : EsClientInner;
  token_lock : TokenLock;
  server : W;
}.

(** [EsClient::connect] and [EsClient::connect_with_token], once the channel
    is established. *)
Definition connect (l : TokenLock) (w : W) : EsClient := mk_EsClient PlainClient l w.
Definition connect_with_token (l : TokenLock) (w : W) : EsClient := mk_EsClient AuthClient l w.

(** [fmt::Debug] of a client: [debug_struct] with one field, whose text, free of
    characters to escape, is printed between quotes. *)
Definition EsClient_debug (c : EsClient) : string :=
  let variant := match inner c with PlainClient => "Plain" | AuthClient => "Auth" end in
  ("EsClient { transport: " ++ quoted variant ++ " }")%string.

(** The application writes a new token into the lock. *)
Definition set_token (c : EsClient) (t : string) : EsClient :=
  mk_EsClient (inner c) (mk_TokenLock t (poisoned (token_lock c))) (server c).

Definition set_server (c : EsClient) (w : W) : EsClient :=
  mk_EsClient (inner c) (token_lock c) w.

(** One RPC: the authenticated transport runs the interceptor first, and its
    error is the call's error. *)
Definition send {R} (c : EsClient)
    (rpc : W → gmap string MetadataValue → W * result R Status)
    : EsClient * result R Status :=
  match (match inner c with PlainClient => Ok ∅ | AuthClient => call (token_lock c) ∅ end) with
  | Ok headers => let '(w, r) := rpc (server c) headers in (set_server c w, r)
  | Err e => (c, Err e)
  | Panic => (c, Panic)
  end.

Definition client_append (c : EsClient) (stream_id : Uuid) (expected : ExpectedVersionArg)
    (events : list ProposedEventData) : EsClient * result AppendResponse Status :=
  let proto_events := to_proto_event <$> events in
  let request := mk_AppendRequest (uuid_to_string stream_id)
                   (Some (to_proto expected)) proto_events in
  send c (λ w h, rpc_append w h request).

(** [EsClient::read_stream]: a stream never written to is an empty one. *)
Definition client_read_stream (c : EsClient) (stream_id : Uuid) (from_version max_count : N)
    : EsClient * result (list RecordedEvent) Status :=
  let request := mk_ReadStreamRequest (uuid_to_string stream_id) from_version max_count in
  let '(c', r) := send c (λ w h, rpc_read_stream w h request) in
  match r with
  | Ok events => (c', Ok events)
  | Err status => if code_is_not_found status then (c', Ok []) else (c', Err status)
  | Panic => (c', Panic)
  end.

Definition client_subscribe_all_from (c : EsClient) (from_position : N)
    : EsClient * result (list (result SubscribeResponse Status)) Status :=
  send c (λ w h, rpc_subscribe_all w h (mk_SubscribeAllRequest from_position)).

(** [impl EventStoreOps for EsClient]. *)
#[export] Instance EsClient_store : EventStoreOps EsClient :=
  {| append := client_append; read_stream := client_read_stream |}.
#[export] Instance EsClient_log : EventLogOps EsClient :=
  {| subscribe_all_from := client_subscribe_all_from |}.
End client.

(** ** What the server documents *)
Section grpc_spec.
Context {J : SerdeJson} {U : UuidOps} {T : Tonic}.

Definition kind_ok (e : option ExpectedVersion) (l : list RecordedEvent) : Prop :=
  match e with
  | Some (mk_ExpectedVersion (Some KindAny)) => True
  | Some (mk_ExpectedVersion (Some KindNoStream)) => l = []
  | Some (mk_ExpectedVersion (Some (KindExact v))) => N.of_nat (length l) = v + 1
  | _ => False
  end.

Class GrpcSpec (W : Type) {G : Grpc W} := {
  g_stream : W → string → list RecordedEvent;
  g_log : W → list RecordedEvent;
  g_versions w sid i r :
    g_stream w sid !! i = Some r → re_stream_version r = N.of_nat i;
  g_bounded w sid : N.of_nat (length (g_stream w sid)) ≤ u64_MAX;
  g_append_grows w h req w' r sid :
    rpc_append w h req = (w', r) → g_stream w sid `prefix_of` g_stream w' sid;
  g_read_grows w h req w' r sid :
    rpc_read_stream w h req = (w', r) → g_stream w sid `prefix_of` g_stream w' sid;
  g_append_log_grows w h req w' r :
    rpc_append w h req = (w', r) → g_log w `prefix_of` g_log w';
  g_read_log_grows w h req w' r :
    rpc_read_stream w h req = (w', r) → g_log w `prefix_of` g_log w';
  g_subscribe_stream_grows w h req w' r sid :
    rpc_subscribe_all w h req = (w', r) → g_stream w sid `prefix_of` g_stream w' sid;
  g_append_ok w h req w' resp :
    rpc_append w h req = (w', Ok resp) → ar_events req ≠ [] →
    ∃ mid recs, g_stream w (ar_stream_id req) `prefix_of` mid ∧
      kind_ok (ar_expected_version req) mid ∧
      Forall2 recorded_as (ar_events req) recs ∧
      (mid ++ recs) `prefix_of` g_stream w' (ar_stream_id req) ∧
      last_stream_version resp + 1 = N.of_nat (length (mid ++ recs));
  (** [FAILED_PRECONDITION] is the version check's, on some current state *)
  g_append_conflict w h req w' e :
    rpc_append w h req = (w', Err e) → code_is_failed_precondition e = true →
    ∃ mid, g_stream w (ar_stream_id req) `prefix_of` mid ∧
      mid `prefix_of` g_stream w' (ar_stream_id req) ∧ ¬ kind_ok (ar_expected_version req) mid;
  g_read_ok w h req w' evs :
    rpc_read_stream w h req = (w', Ok evs) →
    ∃ cur, g_stream w (rs_stream_id req) `prefix_of` cur ∧
      cur `prefix_of` g_stream w' (rs_stream_id req) ∧
      evs = take (N.to_nat (rs_max_count req)) (drop (N.to_nat (rs_from_version req)) cur);
  (** a stream that has never been written to is [NOT_FOUND] *)
  g_read_not_found w h req w' e :
    rpc_read_stream w h req = (w', Err e) → code_is_not_found e = true →
    g_stream w (rs_stream_id req) = [];
  g_log_sorted w :
    StronglySorted (λ a b, re_global_position a < re_global_position b) (g_log w);
  g_log_bounded w r : r ∈ g_log w → re_global_position r < u64_MAX;
  g_subscribe_grows w h req w' r :
    rpc_subscribe_all w h req = (w', r) → g_log w `prefix_of` g_log w';
  g_subscribe_ok w h req w' items :
    rpc_subscribe_all w h req = (w', Ok items) →
    stream_events items `prefix_of`
      events_from (sa_from_position req) (g_log w');
  g_subscribe_caught_up w h req w' items evs :
    rpc_subscribe_all w h req = (w', Ok items) → until_caught_up items = Some evs →
    events_from (sa_from_position req) (g_log w) `prefix_of` evs;
}.
End grpc_spec.
