(* ===== verification/Storage.v ===== *)
(** [src/storage.rs]: the layout of the local cache directory. *)
From S2P Require Import Prelude Std.

Record StreamLayout := mk_StreamLayout { base_dir : path }.

Definition layout_new (d : path) : StreamLayout := mk_StreamLayout d.
Definition snapshots_dir (l : StreamLayout) : path := join (base_dir l) "snapshots".
Definition projections_dir (l : StreamLayout) : path := join (base_dir l) "projections".
Definition process_managers_dir (l : StreamLayout) : path := join (base_dir l) "process_managers".
