(* ===== verification/Snapshot.v ===== *)
(** [src/snapshot.rs]: snapshots of an aggregate on disk; and the two-step
    atomic write (temporary file, then rename) that the checkpoints of
    [src/projection.rs] and [src/process_manager.rs] use in the same form. *)
From S2P Require Import Prelude Std Deps Aggregate.
Open Scope N_scope.

Record Snapshot (A : Type) := mk_Snapshot { snap_state : A; snap_version : N }.
Arguments mk_Snapshot {A} _ _.
Arguments snap_state {A} _.
Arguments snap_version {A} _.

Definition snapshot_path (base_dir : path) (aggregate_type instance_id : string) : path :=
  join (join (join (join base_dir "snapshots") aggregate_type) instance_id) "snapshot.json".

Section snapshot.
Context {J : SerdeJson} {F : Type} {FS : FileSystem F}.

(** [fs::write(tmp)] then [fs::rename(tmp, path)], each behind a [?]. *)
Definition write_then_rename (f : F) (tmp_path path : path) (json : bytes)
    : F * io_result unit :=
  match fs_write f tmp_path json with
  | (f1, Ok _) => fs_rename f1 tmp_path path
  | (f1, Err e) => (f1, Err e)
  | (f1, Panic) => (f1, Panic)
  end.

Context {A : Type} {AG : Aggregate A} {SA : Serde (Snapshot A)}.

Definition save_snapshot (f : F) (base_dir : path) (instance_id : string)
    (snapshot : Snapshot A) : F * io_result unit :=
  let path := snapshot_path base_dir (AGGREGATE_TYPE A) instance_id in
  match parent path with
  | None => (f, Panic)
  | Some dir =>
      match create_dir_all f dir with
      | (f1, Ok _) =>
          let tmp_path := with_extension path "json.tmp" in
          match to_json_bytes snapshot with
          | Ok json => write_then_rename f1 tmp_path path json
          | Err e => (f1, Err (mk_io_error InvalidData (json_error_display e)))
          | Panic => (f1, Panic)
          end
      | (f1, Err e) => (f1, Err e)
      | (f1, Panic) => (f1, Panic)
      end
  end.

(** A missing file and a file that does not parse are both a cache miss. *)
Definition load_snapshot (f : F) (base_dir : path) (instance_id : string)
    : io_result (option (Snapshot A)) :=
  let path := snapshot_path base_dir (AGGREGATE_TYPE A) instance_id in
  match fs_read f path with
  | Ok bytes =>
      match from_json_bytes bytes with
      | Ok snap => Ok (Some snap)
      | Err _ => Ok None
      | Panic => Panic
      end
  | Err e => if decide (kind e = NotFound) then Ok None else Err e
  | Panic => Panic
  end.
End snapshot.

(** ** Lemmas *)
Section lemmas.
Context {F : Type} {FS : FileSystem F} {FL : FileSystemLaws F}.

(** Whatever fails on the way, the target holds its old content or all of the
    new one; every path but the two is untouched. *)
Lemma write_then_rename_atomic f tmp p b f' r :
  tmp ≠ p → write_then_rename f tmp p b = (f', r) →
  (r = Ok () → content f' p = Some b) ∧
  (content f' p = content f p ∨ r = Ok () ∧ content f' p = Some b) ∧
  ∀ q, q ≠ tmp → q ≠ p → content f' q = content f q.
Proof.
  intros Hne. unfold write_then_rename.
  pose proof (λ b', fs_no_panic f tmp p b') as Hnp.
  destruct (fs_write f tmp b) as [f1 [[]|e|]] eqn:Hw; intros Hr.
  - assert (∀ q, q ≠ tmp → content f1 q = content f q) as Hf1
      by (intros; by eapply fs_write_frame).
    apply fs_write_ok in Hw.
    destruct r as [[]|e|].
    + destruct (fs_rename_ok _ _ _ _ _ Hr Hne Hw) as [Hp _].
      split; [done|split; [by right|]]. intros q Hq1 Hq2.
      rewrite (fs_rename_frame _ _ _ _ _ _ Hr) by done. by apply Hf1.
    + split; [done|split; [left|]].
      * rewrite (fs_rename_err _ _ _ _ _ p Hr). by apply Hf1.
      * intros q Hq1 Hq2. rewrite (fs_rename_err _ _ _ _ _ q Hr). by apply Hf1.
    + pose proof (fs_no_panic f1 tmp p b) as (_&_&Hn&_). by rewrite Hr in Hn.
  - injection Hr as <- <-. split; [done|]. split; [left|]; intros;
      by eapply fs_write_frame.
  - pose proof (Hnp b) as (_&Hn&_). by rewrite Hw in Hn.
Qed.

Lemma snapshot_path_parent d ty id : is_Some (parent (snapshot_path d ty id)).
Proof. by apply join_parent. Qed.

Lemma snapshot_tmp_path d ty id :
  with_extension (snapshot_path d ty id) "json.tmp" =
  join (join (join (join d "snapshots") ty) id) "snapshot.json.tmp".
Proof. by apply join_with_extension. Qed.

Lemma snapshot_tmp_ne d ty id :
  with_extension (snapshot_path d ty id) "json.tmp" ≠ snapshot_path d ty id.
Proof.
  rewrite snapshot_tmp_path. intros H. by apply join_inj_r in H.
Qed.

(** A dead-letter log is no snapshot. *)
Lemma snapshot_path_not_dead_letters base ty id dir :
  snapshot_path base ty id ≠ join dir "dead_letters.jsonl".
Proof.
  intros H%join_file_inj; done.
Qed.

(** Nor is a checkpoint, or the file beside it. *)
Lemma snapshot_path_not_checkpoint base ty id dir :
  snapshot_path base ty id ≠ join dir "checkpoint.json" ∧
  snapshot_path base ty id ≠ join dir "checkpoint.json.tmp".
Proof. split; intros H%join_file_inj; done. Qed.
End lemmas.

#[export] Hint Resolve snapshot_tmp_ne : rust.
