(* ===== verification/Actor.v ===== *)
(** [src/actor.rs]: the actor that owns an aggregate.  One definition per
    function; the actor loop is a step per input ([actor_step]) and its
    iteration over the inputs it receives ([run_actor]). *)
From S2P Require Import Prelude Std Deps Command Errors Aggregate Proto Event EventStore.
From S2P Require Import Snapshot.
Open Scope N_scope.

(** Maximum number of attempts of a command. *)
Definition MAX_RETRIES : nat := 3.

Section actor.
Context {J : SerdeJson} {U : UuidOps} {T : Tonic}.
Context {Store : Type} {ES : EventStoreOps Store} {F : Type} {FS : FileSystem F}.
Context {A : Type} {AG : Aggregate A} {SA : Serde (Snapshot A)}.

(** [ActorConfig] and [ActorContext], less the store, which is threaded. *)
Record ActorConfig := mk_ActorConfig { idle_timeout : N }.

Record ActorContext := mk_ActorContext {
  ac_stream_id : Uuid;
  ac_instance_id : string;
  ac_base_dir : path;
  ac_config : ActorConfig;
}.

(** The two mutable variables of the loop. *)
Record ActorState := mk_ActorState { st_state : A; st_version : option N }.

(** What the loop acts on: the event store, the disk, the random source. *)
Record ActorEnv := mk_ActorEnv { ae_store : Store; ae_fs : F; ae_rng : Rng }.

(** [ActorMessage], less the reply channels: replies are the loop's outputs. *)
Inductive ActorMessage :=
| Execute (cmd : Command A) (ctx : CommandContext)
| GetState
| Inject (proposed : ProposedEventData)
| Shutdown.

(** What [timeout(idle_timeout, rx.recv())] yields. *)
Inductive ActorInput :=
| Recv (msg : ActorMessage)
| ChannelClosed
| IdleElapsed.

Inductive Reply :=
| ReplyExecute (r : result (list (DomainEvent A)) (ExecuteError (DomainError A)))
| ReplyState (r : result A StateError)
| ReplyInject (r : result unit Status).

(** The tokio task: in its loop, returned, or unwound by a panic. *)
Inductive Task := Running (a : ActorState) | Exited | Crashed.

Definition decode_domain_event (recorded : RecordedEvent) : option (DomainEvent A) :=
  payload_str ← from_utf8 (re_payload recorded);
  payload_value ← (if str_is_empty payload_str then Some Null
                   else result_ok (from_str payload_str));
  let envelope :=
    if is_null payload_value
    then json_obj [("type", json_str (re_event_type recorded))]
    else json_obj [("type", json_str (re_event_type recorded)); ("data", payload_value)] in
  result_ok (event_from_value envelope).

(** The body of the three loops over events read back: apply what decodes,
    take the version of every event. *)
Definition fold_event (a : ActorState) (ev : RecordedEvent) : ActorState :=
  mk_ActorState
    (match decode_domain_event ev with
     | Some domain_event => apply (st_state a) domain_event
     | None => st_state a
     end)
    (Some (re_stream_version ev)).

Definition fold_events (a : ActorState) (evs : list RecordedEvent) : ActorState :=
  foldl fold_event a evs.

Definition expected_version (a : ActorState) : ExpectedVersionArg :=
  match st_version a with Some v => Exact v | None => NoStream end.

(** [execute_with_retry], [n] attempts left. *)
Fixpoint execute_attempts (n : nat) (s : Store) (g : Rng) (a : ActorState)
    (stream_id : Uuid) (instance_id : string) (cmd : Command A) (ctx : CommandContext)
    : Store * Rng * ActorState *
      result (list (DomainEvent A)) (ExecuteError (DomainError A)) :=
  match n with
  | O => (s, g, a, Err WrongExpectedVersion)
  | S n' =>
      match handle (st_state a) cmd with
      | Err e => (s, g, a, Err (Domain e))
      | Panic => (s, g, a, Panic)
      | Ok [] => (s, g, a, Ok [])
      | Ok domain_events =>
          match try_map_state
                  (encode_domain_event ctx (AGGREGATE_TYPE A) instance_id)
                  g domain_events with
          | (g1, Err e) => (s, g1, a, Err (Io (mk_io_error InvalidData (json_error_display e))))
          | (g1, Panic) => (s, g1, a, Panic)
          | (g1, Ok proposed) =>
              match append s stream_id (expected_version a) proposed with
              | (s1, Ok resp) =>
                  (s1, g1,
                   mk_ActorState (foldl apply (st_state a) domain_events)
                                 (Some (last_stream_version resp)),
                   Ok domain_events)
              | (s1, Err status) =>
                  if code_is_failed_precondition status then
                    match read_stream s1 stream_id (next_version (st_version a)) u64_MAX with
                    | (s2, Ok events) =>
                        execute_attempts n' s2 g1 (fold_events a events)
                          stream_id instance_id cmd ctx
                    | (s2, Err status) => (s2, g1, a, Err (Transport status))
                    | (s2, Panic) => (s2, g1, a, Panic)
                    end
                  else (s1, g1, a, Err (Transport status))
              | (s1, Panic) => (s1, g1, a, Panic)
              end
          end
      end
  end.

Definition execute_with_retry := execute_attempts MAX_RETRIES.

(** [save_snapshot_quietly]: the error is logged and dropped. *)
Definition save_snapshot_quietly (f : F) (base_dir : path) (instance_id : string)
    (state : A) (stream_version : N) : F * bool :=
  match save_snapshot f base_dir instance_id (mk_Snapshot state stream_version) with
  | (f', Panic) => (f', false)
  | (f', _) => (f', true)
  end.

(** The three exits of the loop save a snapshot at [stream_version.unwrap_or(0)]. *)
Definition shut_down (c : ActorContext) (e : ActorEnv) (a : ActorState)
    : ActorEnv * Task * option Reply :=
  let '(f, returned) :=
    save_snapshot_quietly (ae_fs e) (ac_base_dir c) (ac_instance_id c)
      (st_state a) (default 0 (st_version a)) in
  (mk_ActorEnv (ae_store e) f (ae_rng e), (if returned then Exited else Crashed), None).

(** [ActorMessage::Inject]: append unconditionally, then read back. *)
Definition inject (c : ActorContext) (s : Store) (a : ActorState) (proposed : ProposedEventData)
    : Store * option (ActorState * result unit Status) :=
  match append s (ac_stream_id c) Any [proposed] with
  | (s1, Ok _) =>
      match read_stream s1 (ac_stream_id c) (next_version (st_version a)) u64_MAX with
      | (s2, Ok events) => (s2, Some (fold_events a events, Ok ()))
      | (s2, Err _) => (s2, Some (a, Ok ()))
      | (s2, Panic) => (s2, None)
      end
  | (s1, Err status) => (s1, Some (a, Err status))
  | (s1, Panic) => (s1, None)
  end.

(** One iteration of [run_actor]'s loop. *)
Definition actor_step (c : ActorContext) (e : ActorEnv) (a : ActorState) (i : ActorInput)
    : ActorEnv * Task * option Reply :=
  match i with
  | Recv (Execute cmd ctx) =>
      let '(s, g, a', r) :=
        execute_with_retry (ae_store e) (ae_rng e) a (ac_stream_id c)
          (ac_instance_id c) cmd ctx in
      let e' := mk_ActorEnv s (ae_fs e) g in
      match r with
      | Panic => (e', Crashed, None)
      | _ => (e', Running a', Some (ReplyExecute r))
      end
  | Recv GetState => (e, Running a, Some (ReplyState (Ok (st_state a))))
  | Recv (Inject proposed) =>
      match inject c (ae_store e) a proposed with
      | (s, Some (a', r)) =>
          (mk_ActorEnv s (ae_fs e) (ae_rng e), Running a', Some (ReplyInject r))
      | (s, None) => (mk_ActorEnv s (ae_fs e) (ae_rng e), Crashed, None)
      end
  | Recv Shutdown | ChannelClosed | IdleElapsed => shut_down c e a
  end.

(** The loop over the inputs it receives; an input that comes after the task
    has stopped gets no reply. *)
Fixpoint run_actor (c : ActorContext) (e : ActorEnv) (t : Task) (inputs : list ActorInput)
    : ActorEnv * Task * list (option Reply) :=
  match inputs with
  | [] => (e, t, [])
  | i :: inputs' =>
      match t with
      | Running a =>
          let '(e1, t1, r) := actor_step c e a i in
          let '(e2, t2, rs) := run_actor c e1 t1 inputs' in
          (e2, t2, r :: rs)
      | _ =>
          let '(e2, t2, rs) := run_actor c e t inputs' in
          (e2, t2, None :: rs)
      end
  end.

(** [spawn_actor_with_store]: snapshot, then catch-up from behind it. *)
Definition spawn_actor_with_store (e : ActorEnv) (instance_id : string) (base_dir : path)
    (config : ActorConfig) : ActorEnv * result (ActorContext * ActorState) Status :=
  let stream_id := stream_uuid (AGGREGATE_TYPE A) instance_id in
  match load_snapshot (A := A) (ae_fs e) base_dir instance_id with
  | Err err => (e, Err (status_internal ("snapshot load error: " ++ message err)))
  | Panic => (e, Panic)
  | Ok snapshot =>
      let '(state, version, from_version) :=
        match snapshot with
        | Some snap => (snap_state snap, Some (snap_version snap), u64_add (snap_version snap) 1)
        | None => (agg_default A, None, 0)
        end in
      match read_stream (ae_store e) stream_id from_version u64_MAX with
      | (s, Ok events) =>
          (mk_ActorEnv s (ae_fs e) (ae_rng e),
           Ok (mk_ActorContext stream_id instance_id base_dir config,
               fold_events (mk_ActorState state version) events))
      | (s, Err status) => (mk_ActorEnv s (ae_fs e) (ae_rng e), Err status)
      | (s, Panic) => (mk_ActorEnv s (ae_fs e) (ae_rng e), Panic)
      end
  end.

(** [AggregateHandle]: send a message, await the reply.  The send fails when
    the task has stopped, the await when it stops without replying. *)
Definition send_message (c : ActorContext) (e : ActorEnv) (t : Task) (m : ActorMessage)
    : ActorEnv * Task * option Reply :=
  match t with
  | Running a => actor_step c e a (Recv m)
  | _ => (e, t, None)
  end.

Definition handle_execute (c : ActorContext) (e : ActorEnv) (t : Task)
    (cmd : Command A) (ctx : CommandContext)
    : ActorEnv * Task * result (list (DomainEvent A)) (ExecuteError (DomainError A)) :=
  match send_message c e t (Execute cmd ctx) with
  | (e', t', Some (ReplyExecute r)) => (e', t', r)
  | (e', t', _) => (e', t', Err ActorGone)
  end.

Definition handle_state (c : ActorContext) (e : ActorEnv) (t : Task)
    : ActorEnv * Task * result A StateError :=
  match send_message c e t GetState with
  | (e', t', Some (ReplyState r)) => (e', t', r)
  | (e', t', _) => (e', t', Err StateActorGone)
  end.

Definition inject_via_actor (c : ActorContext) (e : ActorEnv) (t : Task)
    (proposed : ProposedEventData) : ActorEnv * Task * result unit Status :=
  match send_message c e t (Inject proposed) with
  | (e', t', Some (ReplyInject r)) => (e', t', r)
  | (e', t', _) => (e', t', Err (status_cancelled "actor gone"))
  end.

Definition is_alive (t : Task) : bool :=
  match t with Running _ => true | _ => false end.
End actor.

Arguments ActorState {A}, A.
Arguments ActorEnv {U Store F}.
Arguments Task {A}, A.
Arguments ActorMessage {J U A AG}.
Arguments ActorInput {J U A AG}.
Arguments Reply {J T A AG}.
