(* ===== verification/Concurrent.v ===== *)
(** [src/actor.rs] and [AggregateStore::get] of [src/store.rs] under
    concurrency: tasks of the application that share one store, the actors they
    spawn, and the mailboxes between them.  A task is suspended at each
    [.await]; what it does between two of them is one step, and steps of
    different tasks interleave freely.  [Actor] and [Store] run the same code
    without interruption. *)
From S2P Require Import Prelude Std Deps Command Errors Aggregate Proto Event EventStore.
From S2P Require Import Snapshot Actor.
Open Scope N_scope.

(** [mpsc::channel::<ActorMessage<A>>(32)]. *)
Definition MAILBOX_CAPACITY : nat := 32.

Section concurrent.
Context {J : SerdeJson} {U : UuidOps} {T : Tonic}.
Context {Store : Type} {ES : EventStoreOps Store} {F : Type} {FS : FileSystem F}.
Context {A : Type} {AG : Aggregate A} {SA : Serde (Snapshot A)}.

Abbreviation ActorEnv := (ActorEnv (Store := Store) (F := F)).

(** ** The actor, suspended at its awaits *)

(** Where an actor task is: in [recv], in the append of a command (with the
    attempts left after it), in the read after a conflict, in the two calls of
    an injection, past its loop but not yet dropped, and gone.  A number names
    the reply channel of the message being processed. *)
Inductive Phase :=
| Receiving (a : ActorState A)
| Appending (a : ActorState A) (reply n : nat) (cmd : Command A) (ctx : CommandContext)
            (domain_events : list (DomainEvent A)) (proposed : list ProposedEventData)
| Rereading (a : ActorState A) (reply n : nat) (cmd : Command A) (ctx : CommandContext)
| InjectAppending (a : ActorState A) (reply : nat) (proposed : ProposedEventData)
| InjectReading (a : ActorState A) (reply : nat) (proposed : ProposedEventData)
| Closing
| Closed.

(** What a step of an actor does besides changing its phase. *)
Inductive Effect :=
| Silent
| Replies (reply : nat) (msg : ActorMessage) (r : Reply (A := A))
| Stops (v : option N).

(** The part of an attempt before its append: decide, then encode. *)
Definition begin_attempt (g : Rng) (a : ActorState A) (instance_id : string) (reply n : nat)
    (cmd : Command A) (ctx : CommandContext) : Rng * Phase * Effect :=
  let answer r := (Receiving a, Replies reply (Execute cmd ctx) (ReplyExecute r)) in
  match n with
  | O => let '(p, o) := answer (Err WrongExpectedVersion) in (g, p, o)
  | S n' =>
      match handle (st_state a) cmd with
      | Err e => let '(p, o) := answer (Err (Domain e)) in (g, p, o)
      | Panic => (g, Closed, Silent)
      | Ok [] => let '(p, o) := answer (Ok []) in (g, p, o)
      | Ok domain_events =>
          match try_map_state
                  (encode_domain_event ctx (AGGREGATE_TYPE A) instance_id)
                  g domain_events with
          | (g1, Ok proposed) => (g1, Appending a reply n' cmd ctx domain_events proposed, Silent)
          | (g1, Err e) =>
              let '(p, o) := answer (Err (Io (mk_io_error InvalidData (json_error_display e)))) in
              (g1, p, o)
          | (g1, Panic) => (g1, Closed, Silent)
          end
      end
  end.

(** The exits of the loop: a snapshot, then the end of the task. *)
Definition stop (c : ActorContext) (e : ActorEnv) (a : ActorState A) : ActorEnv * Phase * Effect :=
  match shut_down c e a with
  | (e', Exited, _) => (e', Closing, Stops (st_version a))
  | (e', _, _) => (e', Closed, Stops (st_version a))
  end.

(** A message is taken from the mailbox, up to the first await. *)
Definition take_message (c : ActorContext) (e : ActorEnv) (a : ActorState A) (reply : nat)
    (msg : ActorMessage) : ActorEnv * Phase * Effect :=
  match msg with
  | Execute cmd ctx =>
      let '(g, p, o) := begin_attempt (ae_rng e) a (ac_instance_id c) reply MAX_RETRIES cmd ctx in
      (mk_ActorEnv (ae_store e) (ae_fs e) g, p, o)
  | GetState => (e, Receiving a, Replies reply msg (ReplyState (Ok (st_state a))))
  | Inject proposed => (e, InjectAppending a reply proposed, Silent)
  | Shutdown => stop c e a
  end.

(** The rest of a message, from one await to the next. *)
Definition resume (c : ActorContext) (e : ActorEnv) (p : Phase) : option (ActorEnv * Phase * Effect) :=
  match p with
  | Appending a reply n cmd ctx domain_events proposed =>
      match append (ae_store e) (ac_stream_id c) (expected_version a) proposed with
      | (s, Ok resp) =>
          Some (mk_ActorEnv s (ae_fs e) (ae_rng e),
                Receiving (mk_ActorState (foldl apply (st_state a) domain_events)
                                         (Some (last_stream_version resp))),
                Replies reply (Execute cmd ctx) (ReplyExecute (Ok domain_events)))
      | (s, Err status) =>
          let e' := mk_ActorEnv s (ae_fs e) (ae_rng e) in
          if code_is_failed_precondition status then
            Some (e', Rereading a reply n cmd ctx, Silent)
          else
            Some (e', Receiving a,
                  Replies reply (Execute cmd ctx) (ReplyExecute (Err (Transport status))))
      | (s, Panic) => Some (mk_ActorEnv s (ae_fs e) (ae_rng e), Closed, Silent)
      end
  | Rereading a reply n cmd ctx =>
      match read_stream (ae_store e) (ac_stream_id c) (next_version (st_version a)) u64_MAX with
      | (s, Ok events) =>
          let '(g, p', o) :=
            begin_attempt (ae_rng e) (fold_events a events) (ac_instance_id c) reply n cmd ctx in
          Some (mk_ActorEnv s (ae_fs e) g, p', o)
      | (s, Err status) =>
          Some (mk_ActorEnv s (ae_fs e) (ae_rng e), Receiving a,
                Replies reply (Execute cmd ctx) (ReplyExecute (Err (Transport status))))
      | (s, Panic) => Some (mk_ActorEnv s (ae_fs e) (ae_rng e), Closed, Silent)
      end
  | InjectAppending a reply proposed =>
      match append (ae_store e) (ac_stream_id c) Any [proposed] with
      | (s, Ok _) =>
          Some (mk_ActorEnv s (ae_fs e) (ae_rng e), InjectReading a reply proposed, Silent)
      | (s, Err status) =>
          Some (mk_ActorEnv s (ae_fs e) (ae_rng e), Receiving a,
                Replies reply (Inject proposed) (ReplyInject (Err status)))
      | (s, Panic) => Some (mk_ActorEnv s (ae_fs e) (ae_rng e), Closed, Silent)
      end
  | InjectReading a reply proposed =>
      match read_stream (ae_store e) (ac_stream_id c) (next_version (st_version a)) u64_MAX with
      | (s, Panic) => Some (mk_ActorEnv s (ae_fs e) (ae_rng e), Closed, Silent)
      | (s, r) =>
          Some (mk_ActorEnv s (ae_fs e) (ae_rng e),
                Receiving (match r with Ok events => fold_events a events | _ => a end),
                Replies reply (Inject proposed) (ReplyInject (Ok ())))
      end
  | Closing => Some (e, Closed, Silent)
  | Receiving _ | Closed => None
  end.

(** The task of an actor and the channel it receives from. *)
Record ActorTask := mk_ActorTask {
  at_ctx : ActorContext;
  at_phase : Phase;
  at_mailbox : list (nat * ActorMessage);
}.

(** [Sender::is_closed]: the receiver is dropped at the end of the task. *)
Definition is_closed (x : ActorTask) : bool :=
  match at_phase x with Closed => true | _ => false end.

(** The task runs to its next await; messages left when it is gone are dropped. *)
Definition actor_turn (e : ActorEnv) (x : ActorTask) : option (ActorEnv * ActorTask * Effect) :=
  let next mailbox '(e', p, o) :=
    (e', mk_ActorTask (at_ctx x) p (match p with Closed => [] | _ => mailbox end), o) in
  match at_phase x, at_mailbox x with
  | Receiving a, (reply, msg) :: mailbox =>
      Some (next mailbox (take_message (at_ctx x) e a reply msg))
  | p, mailbox => next mailbox <$> resume (at_ctx x) e p
  end.

(** ** The tasks of the application *)

(** What a task does next: [get], a call through the handle it holds, cloning
    the handle of another task, dropping its own. *)
Inductive Op :=
| OpGet (id : string)
| OpSend (msg : ActorMessage (A := A))
| OpClone (k : nat)
| OpDrop.

(** Where it is suspended: nowhere, in the three awaits of the slow path of
    [get], in [send], or in the await of a reply. *)
Inductive TaskPc :=
| Ready
| Evicting (id : string)
| Spawning (id : string)
| Inserting (id : string) (n : nat)
| Sending (n : nat) (msg : ActorMessage (A := A))
| Awaiting (n reply : nat) (msg : ActorMessage (A := A)).

(** A task, and the handle (the sender of an actor's channel) it holds. *)
Record AppTask := mk_AppTask { tk_handle : option nat; tk_pc : TaskPc }.

(** The store's shared parts, the actors, the reply channels that were filled,
    and the tasks. *)
Record Conc := mk_Conc {
  cn_env : ActorEnv;
  cn_base_dir : path;
  cn_idle_timeout : N;
  cn_cache : gmap string nat;
  cn_actors : list ActorTask;
  cn_replies : gmap nat (Reply (A := A));
  cn_next_reply : nat;
  cn_tasks : list AppTask;
}.

(** What a run shows: an actor spawned, stopped, or replied; a call returned. *)
Inductive Observation :=
| Spawned (id : string)
| Stopped (id : string) (v : option N)
| Answered (id : string) (reply : nat) (msg : ActorMessage (A := A)) (r : Reply (A := A))
| Returned (k reply : nat) (msg : ActorMessage (A := A)) (r : option (Reply (A := A))).

Definition set_actors (s : Conc) (e : ActorEnv) (l : list ActorTask) : Conc :=
  mk_Conc e (cn_base_dir s) (cn_idle_timeout s) (cn_cache s) l (cn_replies s)
    (cn_next_reply s) (cn_tasks s).
Definition set_task (s : Conc) (k : nat) (t : AppTask) : Conc :=
  mk_Conc (cn_env s) (cn_base_dir s) (cn_idle_timeout s) (cn_cache s) (cn_actors s)
    (cn_replies s) (cn_next_reply s) (<[k := t]> (cn_tasks s)).
Definition set_conc_cache (s : Conc) (c : gmap string nat) : Conc :=
  mk_Conc (cn_env s) (cn_base_dir s) (cn_idle_timeout s) c (cn_actors s)
    (cn_replies s) (cn_next_reply s) (cn_tasks s).
Definition set_replies (s : Conc) (m : gmap nat (Reply (A := A))) (n : nat) : Conc :=
  mk_Conc (cn_env s) (cn_base_dir s) (cn_idle_timeout s) (cn_cache s) (cn_actors s)
    m n (cn_tasks s).

(** [is_alive] of a handle. *)
Definition sender_alive (s : Conc) (n : nat) : bool :=
  match cn_actors s !! n with Some x => negb (is_closed x) | None => false end.

(** The fast path of [get]. *)
Definition cached (s : Conc) (id : string) : option nat :=
  n ← cn_cache s !! id; if sender_alive s n then Some n else None.

(** A task that is not suspended begins an operation. *)
Definition begin_op (s : Conc) (k : nat) (t : AppTask) (op : Op) : option Conc :=
  match op with
  | OpGet id =>
      Some (set_task s k
              (match cached s id with
               | Some n => mk_AppTask (Some n) Ready
               | None => mk_AppTask (tk_handle t) (Evicting id)
               end))
  | OpSend msg => n ← tk_handle t; Some (set_task s k (mk_AppTask (tk_handle t) (Sending n msg)))
  | OpClone j =>
      t' ← cn_tasks s !! j; n ← tk_handle t'; Some (set_task s k (mk_AppTask (Some n) Ready))
  | OpDrop => Some (set_task s k (mk_AppTask None Ready))
  end.

(** A message that expects no reply ends the call when it is sent. *)
Definition after_send (n reply : nat) (msg : ActorMessage (A := A)) : TaskPc :=
  match msg with Shutdown => Ready | _ => Awaiting n reply msg end.

(** A suspended task runs to its next await. *)
Definition task_turn (s : Conc) (k : nat) (t : AppTask) : option (Conc * option Observation) :=
  let move s' pc := set_task s' k (mk_AppTask (tk_handle t) pc) in
  match tk_pc t with
  | Ready => None
  | Evicting id => Some (move (set_conc_cache s (delete id (cn_cache s))) (Spawning id), None)
  | Spawning id =>
      match spawn_actor_with_store (A := A) (cn_env s) id (cn_base_dir s)
              (mk_ActorConfig (cn_idle_timeout s)) with
      | (e, Ok (c, a)) =>
          Some (move (set_actors s e (cn_actors s ++ [mk_ActorTask c (Receiving a) []]))
                     (Inserting id (length (cn_actors s))), Some (Spawned id))
      | (e, _) => Some (move (set_actors s e (cn_actors s)) Ready, None)
      end
  | Inserting id n =>
      Some (set_task (set_conc_cache s (<[id := n]> (cn_cache s))) k (mk_AppTask (Some n) Ready),
            None)
  | Sending n msg =>
      match cn_actors s !! n with
      | Some x =>
          if is_closed x then
            Some (move s Ready, Some (Returned k (cn_next_reply s) msg None))
          else if decide (length (at_mailbox x) < MAILBOX_CAPACITY)%nat then
            let reply := cn_next_reply s in
            let x' := mk_ActorTask (at_ctx x) (at_phase x) (at_mailbox x ++ [(reply, msg)]) in
            Some (move (set_replies (set_actors s (cn_env s) (<[n := x']> (cn_actors s)))
                          (cn_replies s) (S reply))
                       (after_send n reply msg), None)
          else None
      | None => None
      end
  | Awaiting n reply msg =>
      match cn_replies s !! reply with
      | Some r => Some (move s Ready, Some (Returned k reply msg (Some r)))
      | None =>
          if sender_alive s n then None
          else Some (move s Ready, Some (Returned k reply msg None))
      end
  end.

(** ** The steps of the whole *)
Inductive ConcLabel :=
| NewTask
| Begin (k : nat) (op : Op)
| Turn (k : nat)
| Cancel (k : nat)
| ActorTurn (n : nat)
| IdleTimeout (n : nat)
| SendersGone (n : nat).

(** Some task, or the cache, holds a sender of the actor. *)
Definition holds (n : nat) (t : AppTask) : bool :=
  bool_decide (tk_handle t = Some n) ||
  match tk_pc t with Inserting _ n' => Nat.eqb n' n | Sending n' _ => Nat.eqb n' n | _ => false end.
Definition has_senders (s : Conc) (n : nat) : bool :=
  existsb (λ x, Nat.eqb x.2 n) (map_to_list (cn_cache s)) || existsb (holds n) (cn_tasks s).

(** The events an actor's step shows, and the reply channel it fills. *)
Definition with_effect (s : Conc) (x : ActorTask) (o : Effect) : Conc * option Observation :=
  match o with
  | Silent => (s, None)
  | Replies reply msg r =>
      (set_replies s (<[reply := r]> (cn_replies s)) (cn_next_reply s),
       Some (Answered (ac_instance_id (at_ctx x)) reply msg r))
  | Stops v => (s, Some (Stopped (ac_instance_id (at_ctx x)) v))
  end.

(** The actor leaves its loop, with nothing in its mailbox. *)
Definition leave (s : Conc) (n : nat) : option (Conc * option Observation) :=
  x ← cn_actors s !! n;
  match at_phase x, at_mailbox x with
  | Receiving a, [] =>
      let '(e, p, o) := stop (at_ctx x) (cn_env s) a in
      Some (with_effect (set_actors s e (<[n := mk_ActorTask (at_ctx x) p []]> (cn_actors s))) x o)
  | _, _ => None
  end.

Definition conc_next (s : Conc) (l : ConcLabel) : option (Conc * option Observation) :=
  match l with
  | NewTask =>
      Some (mk_Conc (cn_env s) (cn_base_dir s) (cn_idle_timeout s) (cn_cache s) (cn_actors s)
              (cn_replies s) (cn_next_reply s) (cn_tasks s ++ [mk_AppTask None Ready]), None)
  | Begin k op =>
      t ← cn_tasks s !! k;
      match tk_pc t with
      | Ready => s' ← begin_op s k t op; Some (s', None)
      | _ => None
      end
  | Turn k => t ← cn_tasks s !! k; task_turn s k t
  | Cancel k => t ← cn_tasks s !! k; Some (set_task s k (mk_AppTask (tk_handle t) Ready), None)
  | ActorTurn n =>
      x ← cn_actors s !! n;
      '(e, x', o) ← actor_turn (cn_env s) x;
      Some (with_effect (set_actors s e (<[n := x']> (cn_actors s))) x o)
  | IdleTimeout n => leave s n
  | SendersGone n => if has_senders s n then None else leave s n
  end.

(** A run along a list of steps, when nobody else writes. *)
Fixpoint conc_exec (s : Conc) (ls : list ConcLabel) : option (list Observation * Conc) :=
  match ls with
  | [] => Some ([], s)
  | l :: ls' =>
      '(s1, o) ← conc_next s l; '(h, s2) ← conc_exec s1 ls'; Some (option_list o ++ h, s2)
  end.

(** A run from one state to another with the events it shows; other writers
    change what is behind the client, as [extends] says, between any two steps. *)
Context (extends : Store → Store → Prop).

Definition set_env_store (s : Conc) (c : Store) : Conc :=
  set_actors s (mk_ActorEnv c (ae_fs (cn_env s)) (ae_rng (cn_env s))) (cn_actors s).

Inductive conc_trace (s0 : Conc) : list Observation → Conc → Prop :=
| trace_start : conc_trace s0 [] s0
| trace_step h s l s' o :
    conc_trace s0 h s → conc_next s l = Some (s', o) →
    conc_trace s0 (h ++ option_list o) s'
| trace_writer h s c :
    conc_trace s0 h s → extends (ae_store (cn_env s)) c →
    conc_trace s0 h (set_env_store s c).
End concurrent.

Arguments ActorTask {J U A AG}.
Arguments AppTask {J U A AG}.
Arguments Effect {J U T A AG}.
