(* ===== verification/Cursor.v ===== *)
(** Consuming the global log behind a cursor.

    [apply_recorded_event] (projections) and [react_recorded_event] (process
    managers) are the same step, up to what an event produces.  [cursor_event]
    is that step with a handler as a parameter, [consume] is its specification
    (every decodable event, in order, once), and [cursor_inv] ties the two: the
    state behind a cursor is what the log below the cursor produces.  The two
    components are proved to be instances, so the lemmas here serve both. *)
From Stdlib Require Import Sorting.Sorted.
From stdpp Require Import sorting.
From S2P Require Import Prelude Std Deps Proto Event EventStore.
Open Scope N_scope.

Section cursor.
Context {J : SerdeJson} {U : UuidOps}.
Context {X O : Type} (react : X → StoredEvent → X * list O).

Definition cursor_event (st : X * N) (recorded : RecordedEvent) : (X * N) * list O :=
  if re_global_position recorded <? st.2 then (st, [])
  else
    let next_position := u64_add (re_global_position recorded) 1 in
    match decode_stored_event recorded with
    | Some stored => let '(x, out) := react st.1 stored in ((x, next_position), out)
    | None => ((st.1, next_position), [])
    end.

Fixpoint cursor_run (st : X * N) (evs : list RecordedEvent) : (X * N) * list O :=
  match evs with
  | [] => (st, [])
  | r :: evs' =>
      let '(st1, o1) := cursor_event st r in
      let '(st2, o2) := cursor_run st1 evs' in
      (st2, o1 ++ o2)
  end.

(** Specification: react to every decodable event, in order, exactly once. *)
Definition consume_one (acc : X * list O) (r : RecordedEvent) : X * list O :=
  match decode_stored_event r with
  | Some stored => let '(x, out) := react acc.1 stored in (x, acc.2 ++ out)
  | None => acc
  end.

Definition consume (x0 : X) (l : list RecordedEvent) : X * list O :=
  foldl consume_one (x0, []) l.

(** A cursor is at the start or right behind some event of the log. *)
Definition cursor_placed (log : list RecordedEvent) (p : N) : Prop :=
  p = 0 ∨ ∃ r, r ∈ log ∧ p = re_global_position r + 1.

(** The state and the outputs so far are those of the log below the cursor. *)
Definition cursor_inv (x0 : X) (log : list RecordedEvent) (st : X * N) (out : list O) : Prop :=
  cursor_placed log st.2 ∧
  consume x0 (events_below st.2 log) = (st.1, out).

Abbreviation log_lt := (λ a b, re_global_position a < re_global_position b).

Definition log_ok (log : list RecordedEvent) : Prop :=
  StronglySorted log_lt log ∧ ∀ r, r ∈ log → re_global_position r < u64_MAX.

(** ** The log below a cursor *)

Lemma log_ok_app_inv l1 l2 : log_ok (l1 ++ l2) → log_ok l1 ∧ log_ok l2.
Proof.
  intros [Hs Hb]. apply StronglySorted_app in Hs as (_ & H1 & H2).
  split; (split; [done|]); set_solver.
Qed.

Lemma log_ok_prefix l1 l2 : log_ok l2 → l1 `prefix_of` l2 → log_ok l1.
Proof. intros Hl [k ->]. by apply log_ok_app_inv in Hl as [? _]. Qed.

Lemma log_lt_app l1 l2 a b :
  log_ok (l1 ++ l2) → a ∈ l1 → b ∈ l2 → re_global_position a < re_global_position b.
Proof. intros [Hs _] Ha Hb. apply StronglySorted_app in Hs as (H & _). by apply H. Qed.

Lemma log_ok_events_from p l : log_ok l → log_ok (events_from p l).
Proof.
  intros [Hs Hb]. split.
  - unfold events_from. clear Hb. induction Hs as [|a l Hs IH Hf]; [constructor|].
    rewrite filter_cons. case_decide; [|done]. constructor; [done|].
    rewrite Forall_forall in *. intros x [_ Hx]%list_elem_of_filter. by apply Hf.
  - intros x [_ Hx]%list_elem_of_filter. by apply Hb.
Qed.

(** The only event between a cursor and just behind [r] is [r]. *)
Lemma events_below_snoc l p r :
  log_ok l → r ∈ l → p ≤ re_global_position r →
  (∀ q, q ∈ l → re_global_position q < re_global_position r → re_global_position q < p) →
  events_below (re_global_position r + 1) l = events_below p l ++ [r].
Proof.
  intros Hok Hr Hp Hgap. apply list_elem_of_split in Hr as (l1 & l2 & ->).
  unfold events_below. rewrite !filter_app.
  pose proof (log_ok_app_inv _ _ Hok) as [_ Hok2].
  assert (∀ q, q ∈ l1 → re_global_position q < re_global_position r) as H1.
  { intros q Hq. eapply log_lt_app; [done..|set_solver]. }
  assert (∀ q, q ∈ l2 → re_global_position r < re_global_position q) as H2.
  { intros q Hq. apply (log_lt_app [r] l2); set_solver. }
  rewrite filter_cons_True, filter_cons_False by lia.
  rewrite !(filter_none _ l2) by (intros q Hq; specialize (H2 q Hq); lia).
  rewrite app_nil_r.
  rewrite !filter_all; [done|..]; intros q Hq; specialize (H1 q Hq); [|lia].
  apply Hgap; [set_solver|done].
Qed.

(** A cursor that is placed is not passed by events appended later. *)
Lemma events_below_grow l l' p :
  log_ok l' → l `prefix_of` l' → cursor_placed l p →
  events_below p l' = events_below p l.
Proof.
  intros Hok [k ->] Hp. unfold events_below.
  rewrite filter_app, (filter_none _ k), app_nil_r; [done|].
  intros q Hq. destruct Hp as [->|(r & Hr & ->)]; [lia|].
  pose proof (log_lt_app _ _ _ _ Hok Hr Hq). lia.
Qed.

(** What is below a cursor is an initial part of the log. *)
Lemma events_below_prefix p l : log_ok l → events_below p l `prefix_of` l.
Proof.
  intros [Hs _]. unfold events_below. induction Hs as [|a l Hs IH Hf]; [done|].
  rewrite filter_cons. case_decide; [by apply prefix_cons|].
  rewrite filter_none; [apply prefix_nil|].
  rewrite Forall_forall in Hf. intros x Hx%Hf. lia.
Qed.

Lemma cursor_inv_grow x0 l l' st out :
  log_ok l' → l `prefix_of` l' → cursor_inv x0 l st out → cursor_inv x0 l' st out.
Proof.
  intros Hok Hl [Hp Hc]. split.
  - destruct Hp as [?|(r & Hr & ?)]; [by left|right]. exists r. split; [|done].
    destruct Hl as [k ->]. set_solver.
  - by erewrite events_below_grow.
Qed.

Lemma cursor_inv_start x0 l : cursor_inv x0 l (x0, 0) [].
Proof.
  split; [by left|]. simpl. unfold events_below.
  rewrite filter_none; [done|]. intros; lia.
Qed.

(** ** The step *)

Lemma cursor_event_mono st r : re_global_position r < u64_MAX →
  st.2 ≤ (cursor_event st r).1.2.
Proof.
  intros Hr. unfold cursor_event.
  destruct (N.ltb_spec (re_global_position r) st.2); [simpl; lia|].
  rewrite u64_add_small by lia.
  destruct (decode_stored_event r); [destruct (react _ _)|]; simpl; lia.
Qed.

(** The next event of the log, with no gap before it, extends what was consumed. *)
Lemma cursor_event_inv x0 log st out r :
  log_ok log → r ∈ log → cursor_inv x0 log st out →
  (∀ q, q ∈ log → re_global_position q < re_global_position r →
        re_global_position q < st.2) →
  cursor_inv x0 log (cursor_event st r).1 (out ++ (cursor_event st r).2) ∧
  re_global_position r < (cursor_event st r).1.2.
Proof.
  intros Hok Hr [Hp Hc] Hgap. unfold cursor_event.
  pose proof (proj2 Hok r Hr) as Hb.
  destruct (N.ltb_spec (re_global_position r) st.2) as [Hlt|Hge].
  { simpl. rewrite app_nil_r. by split. }
  rewrite u64_add_small by lia.
  assert (consume x0 (events_below (re_global_position r + 1) log) =
          consume_one (st.1, out) r) as Hcons.
  { rewrite (events_below_snoc _ st.2) by done.
    unfold consume. rewrite foldl_app. simpl. unfold consume in Hc. by rewrite Hc. }
  unfold consume_one in Hcons. simpl in Hcons.
  destruct (decode_stored_event r) as [se|]; [destruct (react st.1 se) as [x o]|];
    simpl; (split; [split; [right; eauto|]|lia]); simpl; [done|].
  by rewrite app_nil_r.
Qed.

Lemma cursor_run_app st l1 l2 :
  cursor_run st (l1 ++ l2) =
  let '(st1, o1) := cursor_run st l1 in
  let '(st2, o2) := cursor_run st1 l2 in (st2, o1 ++ o2).
Proof.
  revert st; induction l1 as [|r l1 IH]; intros st; simpl.
  - by destruct (cursor_run st l2).
  - destruct (cursor_event st r) as [st1 o1]. rewrite IH.
    destruct (cursor_run st1 l1) as [st2 o2]. destruct (cursor_run st2 l2).
    by rewrite app_assoc.
Qed.

(** In a delivery without gaps, whatever the log has before the next event is
    below a cursor that has passed what was delivered so far. *)
Lemma delivered_gap log from p delivered r q :
  log_ok log → (delivered ++ [r]) `prefix_of` events_from from log → from ≤ p →
  (∀ d, d ∈ delivered → re_global_position d < p) →
  q ∈ log → re_global_position q < re_global_position r → re_global_position q < p.
Proof.
  intros Hok [k Hk] Hfrom Hd Hq Hqr.
  destruct (decide (from ≤ re_global_position q)) as [Hfq|]; [|lia].
  apply Hd. assert (q ∈ events_from from log) as Hq'.
  { unfold events_from. apply list_elem_of_filter. done. }
  pose proof (log_ok_events_from from log Hok) as Hok'.
  rewrite Hk in Hok', Hq'. rewrite <- app_assoc in Hok', Hq'.
  apply elem_of_app in Hq' as [|Hq']; [done|exfalso].
  apply log_ok_app_inv in Hok' as [_ Hok'].
  simpl in Hq'. apply elem_of_cons in Hq' as [->|Hq']; [lia|].
  assert (re_global_position r < re_global_position q)
    by (apply (log_lt_app [r] k); set_solver). lia.
Qed.

Lemma delivered_in_log from log delivered r :
  (delivered ++ [r]) `prefix_of` events_from from log → r ∈ log.
Proof.
  intros [k Hk]. assert (r ∈ events_from from log) as H by (rewrite Hk; set_solver).
  unfold events_from in H. by apply list_elem_of_filter in H as [_ ?].
Qed.

(** Delivering the log from any position at or below the cursor, up to any
    point, keeps the invariant: replayed events change nothing, new ones are
    consumed once, and the cursor ends behind every delivered event. *)
Lemma cursor_run_inv x0 log st out from evs st' o :
  log_ok log → cursor_inv x0 log st out → from ≤ st.2 →
  evs `prefix_of` events_from from log →
  cursor_run st evs = (st', o) →
  cursor_inv x0 log st' (out ++ o) ∧ st.2 ≤ st'.2 ∧
  ∀ r, r ∈ evs → re_global_position r < st'.2.
Proof.
  intros Hok Hinv Hfrom. revert st' o.
  induction evs as [|r evs IH] using rev_ind; intros st' o Hpre Hrun.
  { simpl in Hrun. simplify_eq. rewrite app_nil_r. split; [done|]. set_solver. }
  rewrite cursor_run_app in Hrun.
  destruct (cursor_run st evs) as [st1 o1] eqn:H1. simpl in Hrun.
  destruct (cursor_event st1 r) as [st2 o2] eqn:H2. simplify_eq.
  destruct (IH st1 o1) as (Hinv1 & Hle1 & Hall1); [by eapply prefix_app_l|done|].
  pose proof (delivered_in_log _ _ _ _ Hpre) as Hr.
  destruct (cursor_event_inv x0 log st1 (out ++ o1) r) as [Hinv2 Hlt]; [done..| |].
  { intros q Hq Hqr. eapply delivered_gap; [done|exact Hpre| |exact Hall1|done|done]. lia. }
  rewrite H2 in Hinv2, Hlt. simpl in *. rewrite app_assoc, app_nil_r.
  split; [done|]. pose proof (cursor_event_mono st1 r (proj2 Hok r Hr)) as Hm.
  rewrite H2 in Hm. simpl in Hm. split; [lia|].
  intros q [Hq|Hq%list_elem_of_singleton]%elem_of_app; [|by subst].
  specialize (Hall1 q Hq). lia.
Qed.
End cursor.

Arguments cursor_event : simpl never.
