(* ===== verification/Projection.v ===== *)
(** [src/projection.rs]: read models over the global log. *)
From S2P Require Import Prelude Std Deps Proto Event EventStore Snapshot Cursor.
Open Scope N_scope.

Section projection.
Context {J : SerdeJson} {U : UuidOps} {T : Tonic}.

(** The [Projection] trait. *)
Class Projection (P : Type) := {
  PROJ_NAME : string;
  proj_default : P;
  proj_apply : P → StoredEvent → P;
}.

Record ProjectionCheckpoint (P : Type) := mk_ProjectionCheckpoint {
  pc_state : P;
  pc_position : N;
}.
Arguments mk_ProjectionCheckpoint {P} _ _.
Arguments pc_state {P} _.
Arguments pc_position {P} _.

(** [ProjectionCheckpoint::default]. *)
Definition ProjectionCheckpoint_default {P} {PR : Projection P} : ProjectionCheckpoint P :=
  mk_ProjectionCheckpoint proj_default 0.

(** [std::fs::read_to_string]. *)
Definition read_to_string {F} {FS : FileSystem F} (f : F) (p : path) : io_result string :=
  match fs_read f p with
  | Ok b =>
      match from_utf8 b with
      | Some s => Ok s
      | None => Err (mk_io_error InvalidData "stream did not contain valid UTF-8")
      end
  | Err e => Err e
  | Panic => Panic
  end.

Context {F : Type} {FS : FileSystem F}.
Context {Store : Type} {EL : EventLogOps Store}.
Context {P : Type} {PR : Projection P} {SP : Serde (ProjectionCheckpoint P)}.

Definition save_checkpoint (f : F) (dir : path) (checkpoint : ProjectionCheckpoint P)
    : F * io_result unit :=
  match create_dir_all f dir with
  | (f1, Ok _) =>
      let path := join dir "checkpoint.json" in
      let tmp_path := join dir "checkpoint.json.tmp" in
      match to_json_bytes checkpoint with
      | Ok json => write_then_rename f1 tmp_path path json
      | Err e => (f1, Err (io_other (json_error_display e)))
      | Panic => (f1, Panic)
      end
  | (f1, Err e) => (f1, Err e)
  | (f1, Panic) => (f1, Panic)
  end.

Definition load_checkpoint (f : F) (dir : path) : io_result (option (ProjectionCheckpoint P)) :=
  let path := join dir "checkpoint.json" in
  match read_to_string f path with
  | Ok content =>
      match from_json_bytes (as_bytes content) with
      | Ok checkpoint => Ok (Some checkpoint)
      | Err _ => Ok None
      | Panic => Panic
      end
  | Err e => if decide (kind e = NotFound) then Ok None else Err e
  | Panic => Panic
  end.

(** [ProjectionRunner], less the client, which is threaded. *)
Record ProjectionRunner := mk_ProjectionRunner {
  pr_checkpoint : ProjectionCheckpoint P;
  pr_checkpoint_dir : path;
}.

(** [ProjectionRunner::new]. *)
Definition runner_new (f : F) (checkpoint_dir : path) : io_result ProjectionRunner :=
  let? checkpoint := load_checkpoint f checkpoint_dir in
  Ok (mk_ProjectionRunner (default ProjectionCheckpoint_default checkpoint) checkpoint_dir).

Definition apply_recorded_event (state : P) (last_global_position : N)
    (recorded : RecordedEvent) : P * N :=
  if re_global_position recorded <? last_global_position then (state, last_global_position)
  else
    let next_position := u64_add (re_global_position recorded) 1 in
    let state' := match decode_stored_event recorded with
                  | Some stored => proj_apply state stored
                  | None => state
                  end in
    (state', next_position).

(** The same on a checkpoint: [ProjectionCatchUp::apply_event]. *)
Definition apply_to_checkpoint (c : ProjectionCheckpoint P) (recorded : RecordedEvent)
    : ProjectionCheckpoint P :=
  let '(state, pos) := apply_recorded_event (pc_state c) (pc_position c) recorded in
  mk_ProjectionCheckpoint state pos.

(** [process_stream]: the checkpoint it leaves behind, on an error too. *)
Fixpoint process_stream (c : ProjectionCheckpoint P)
    (stream : list (result SubscribeResponse Status))
    : ProjectionCheckpoint P * io_result unit :=
  match stream with
  | [] => (c, Ok ())
  | Err e :: _ => (c, Err (io_other ("subscribe stream error: " ++ status_display e)))
  | Panic :: _ => (c, Panic)
  | Ok response :: stream' =>
      match sr_content response with
      | Some (Event recorded) => process_stream (apply_to_checkpoint c recorded) stream'
      | Some CaughtUp => (c, Ok ())
      | None => process_stream c stream'
      end
  end.

Definition runner_state (r : ProjectionRunner) : P := pc_state (pr_checkpoint r).
Definition runner_position (r : ProjectionRunner) : N := pc_position (pr_checkpoint r).

Definition runner_apply_event (r : ProjectionRunner) (recorded : RecordedEvent)
    : ProjectionRunner :=
  mk_ProjectionRunner (apply_to_checkpoint (pr_checkpoint r) recorded) (pr_checkpoint_dir r).

Definition runner_save (f : F) (r : ProjectionRunner) : F * io_result unit :=
  save_checkpoint f (pr_checkpoint_dir r) (pr_checkpoint r).

(** [ProjectionRunner::catch_up]: subscribe from the cursor, process, save. *)
Definition catch_up (s : Store) (f : F) (r : ProjectionRunner)
    : Store * F * ProjectionRunner * io_result unit :=
  match subscribe_all_from s (runner_position r) with
  | (s1, Err e) =>
      (s1, f, r, Err (io_other ("subscribe_all_from failed: " ++ status_display e)))
  | (s1, Panic) => (s1, f, r, Panic)
  | (s1, Ok stream) =>
      let '(c, res) := process_stream (pr_checkpoint r) stream in
      let r' := mk_ProjectionRunner c (pr_checkpoint_dir r) in
      match res with
      | Ok _ => let '(f1, saved) := runner_save f r' in (s1, f1, r', saved)
      | Err e => (s1, f, r', Err e)
      | Panic => (s1, f, r', Panic)
      end
  end.
End projection.

Arguments mk_ProjectionCheckpoint {P} _ _.
Arguments pc_state {P} _.
Arguments pc_position {P} _.
Arguments ProjectionRunner P : clear implicits.
Arguments mk_ProjectionRunner {P} _ _.
Arguments pr_checkpoint {P} _.
Arguments pr_checkpoint_dir {P} _.
Arguments PROJ_NAME {J U} P {_}.
Arguments proj_default {J U} P {_}.

(** ** Lemmas: a projection is an instance of [Cursor] *)
Section lemmas.
Context {J : SerdeJson} {U : UuidOps} {T : Tonic}.
Context {P : Type} {PR : Projection P}.

(** The handler of a projection: the new state, and nothing to dispatch. *)
Definition proj_react (p : P) (e : StoredEvent) : P * list unit := (proj_apply p e, []).

Definition ckpt_pair (c : ProjectionCheckpoint P) : P * N := (pc_state c, pc_position c).

Lemma apply_to_checkpoint_cursor c r :
  cursor_event proj_react (ckpt_pair c) r = (ckpt_pair (apply_to_checkpoint c r), []).
Proof.
  unfold apply_to_checkpoint, apply_recorded_event, cursor_event, ckpt_pair, proj_react.
  simpl. destruct (_ <? _); [done|]. by destruct (decode_stored_event r).
Qed.

(** The events a batch applies: those before [CaughtUp], an error or the end. *)
Fixpoint batch_events (stream : list (result SubscribeResponse Status)) : list RecordedEvent :=
  match stream with
  | Ok (mk_SubscribeResponse (Some (Event r))) :: l => r :: batch_events l
  | Ok (mk_SubscribeResponse None) :: l => batch_events l
  | _ => []
  end.

Lemma batch_events_prefix stream : batch_events stream `prefix_of` stream_events stream.
Proof.
  induction stream as [|[[[[r|]|]]| |] l IH]; simpl; try done.
  - by apply prefix_cons.
  - apply prefix_nil.
Qed.

Lemma batch_events_until stream evs :
  until_caught_up stream = Some evs → batch_events stream = evs.
Proof.
  revert evs; induction stream as [|[[[[r|]|]]| |] l IH]; intros evs; simpl; try done.
  - intros (evs' & Hu & ->)%fmap_Some. f_equal. by apply IH.
  - by intros [= <-].
  - apply IH.
Qed.

Lemma process_stream_cursor c stream c' r :
  process_stream c stream = (c', r) →
  cursor_run proj_react (ckpt_pair c) (batch_events stream) = (ckpt_pair c', []).
Proof.
  revert c; induction stream as [|[[[[ev|]|]]|e|] l IH]; intros c; simpl;
    try by intros [= <- <-].
  - intros H. rewrite apply_to_checkpoint_cursor.
    by rewrite (IH _ H).
  - apply IH.
Qed.

(** Saving and loading. *)
Context {F : Type} {FS : FileSystem F} {FL : FileSystemLaws F}.
Context {SP : Serde (ProjectionCheckpoint P)}.

Lemma checkpoint_tmp_ne dir : join dir "checkpoint.json.tmp" ≠ join dir "checkpoint.json".
Proof. intros H. by apply join_inj_r in H. Qed.
End lemmas.

#[export] Hint Resolve checkpoint_tmp_ne : rust.
