(* ===== verification/ProcessManager.v ===== *)
(** [src/process_manager.rs]: workflows that react to the global log with
    command envelopes, their checkpoints and the dead-letter log. *)
From Stdlib Require Import Strings.Ascii Strings.String.
From S2P Require Import Prelude Std Deps Command Proto Event EventStore Snapshot Cursor.
From S2P Require Import Projection.
Open Scope N_scope.

Section process_manager.
Context {J : SerdeJson} {U : UuidOps} {T : Tonic}.

(** The [ProcessManager] trait. *)
Class ProcessManager (PM : Type) := {
  PM_NAME : string;
  pm_default : PM;
  pm_react : PM → StoredEvent → PM * list CommandEnvelope;
}.

Record ProcessManagerCheckpoint (PM : Type) := mk_ProcessManagerCheckpoint {
  pmc_state : PM;
  pmc_position : N;
}.
Arguments mk_ProcessManagerCheckpoint {PM} _ _.
Arguments pmc_state {PM} _.
Arguments pmc_position {PM} _.

Definition ProcessManagerCheckpoint_default {PM} {PR : ProcessManager PM}
    : ProcessManagerCheckpoint PM :=
  mk_ProcessManagerCheckpoint pm_default 0.

(** [DeadLetterEntry] and [ProcessManagerReport]. *)
Record DeadLetterEntry := mk_DeadLetterEntry {
  dl_envelope : CommandEnvelope;
  dl_error : string;
  dl_ts : N;
}.

Record ProcessManagerReport := mk_ProcessManagerReport {
  dispatched : nat;
  dead_lettered : nat;
}.

Context {F : Type} {FS : FileSystem F}.
Context {Store : Type} {EL : EventLogOps Store}.

(** [append_dead_letter]; [clock] is [UNIX_EPOCH.elapsed()], [None] when the
    system clock is before the epoch. *)
Definition append_dead_letter {SD : Serde DeadLetterEntry} (f : F) (clock : option N)
    (path : path) (envelope : CommandEnvelope) (error : string) : F * io_result unit :=
  match clock with
  | None => (f, Panic)
  | Some ts =>
      match to_json_bytes (mk_DeadLetterEntry envelope error ts) with
      | Err e => (f, Err (io_other (json_error_display e)))
      | Panic => (f, Panic)
      | Ok json =>
          let '(f1, created) :=
            match parent path with
            | Some dir => create_dir_all f dir
            | None => (f, Ok ())
            end in
          match created with
          | Ok _ => fs_append f1 path (json ++ as_bytes (String "010" EmptyString))
          | Err e => (f1, Err e)
          | Panic => (f1, Panic)
          end
      end
  end.

Context {PM : Type} {PR : ProcessManager PM} {SP : Serde (ProcessManagerCheckpoint PM)}.

Definition save_pm_checkpoint (f : F) (dir : path) (checkpoint : ProcessManagerCheckpoint PM)
    : F * io_result unit :=
  match create_dir_all f dir with
  | (f1, Ok _) =>
      let path := join dir "checkpoint.json" in
      let tmp_path := join dir "checkpoint.json.tmp" in
      match to_json_bytes checkpoint with
      | Ok json => write_then_rename f1 tmp_path path json
      | Err e => (f1, Err (io_other (json_error_display e)))
      | Panic => (f1, Panic)
      end
  | (f1, Err e) => (f1, Err e)
  | (f1, Panic) => (f1, Panic)
  end.

Definition load_pm_checkpoint (f : F) (dir : path)
    : io_result (option (ProcessManagerCheckpoint PM)) :=
  let path := join dir "checkpoint.json" in
  match read_to_string f path with
  | Ok content =>
      match from_json_bytes (as_bytes content) with
      | Ok checkpoint => Ok (Some checkpoint)
      | Err _ => Ok None
      | Panic => Panic
      end
  | Err e => if decide (kind e = NotFound) then Ok None else Err e
  | Panic => Panic
  end.

(** [ProcessManagerRunner], less the client, which is threaded. *)
Record ProcessManagerRunner := mk_ProcessManagerRunner {
  pm_checkpoint : ProcessManagerCheckpoint PM;
  pm_checkpoint_dir : path;
}.

Definition pm_runner_new (f : F) (checkpoint_dir : path) : io_result ProcessManagerRunner :=
  let? checkpoint := load_pm_checkpoint f checkpoint_dir in
  Ok (mk_ProcessManagerRunner
        (default ProcessManagerCheckpoint_default checkpoint) checkpoint_dir).

Definition react_recorded_event (state : PM) (last_global_position : N)
    (recorded : RecordedEvent) : (PM * N) * list CommandEnvelope :=
  if re_global_position recorded <? last_global_position
  then ((state, last_global_position), [])
  else
    let next_position := u64_add (re_global_position recorded) 1 in
    let '(state', produced) :=
      match decode_stored_event recorded with
      | Some stored => pm_react state stored
      | None => (state, [])
      end in
    ((state', next_position), produced).

Definition react_to_checkpoint (c : ProcessManagerCheckpoint PM) (recorded : RecordedEvent)
    : ProcessManagerCheckpoint PM * list CommandEnvelope :=
  let '((state, pos), produced) :=
    react_recorded_event (pmc_state c) (pmc_position c) recorded in
  (mk_ProcessManagerCheckpoint state pos, produced).

(** [process_stream]: on an error the envelopes collected so far are dropped,
    the checkpoint keeps its progress. *)
Fixpoint pm_process_stream (c : ProcessManagerCheckpoint PM)
    (envelopes : list CommandEnvelope)
    (stream : list (result SubscribeResponse Status))
    : ProcessManagerCheckpoint PM * io_result (list CommandEnvelope) :=
  match stream with
  | [] => (c, Ok envelopes)
  | Err e :: _ => (c, Err (io_other ("subscribe stream error: " ++ status_display e)))
  | Panic :: _ => (c, Panic)
  | Ok response :: stream' =>
      match sr_content response with
      | Some (Event recorded) =>
          let '(c', produced) := react_to_checkpoint c recorded in
          pm_process_stream c' (envelopes ++ produced) stream'
      | Some CaughtUp => (c, Ok envelopes)
      | None => pm_process_stream c envelopes stream'
      end
  end.

Definition pm_state (r : ProcessManagerRunner) : PM := pmc_state (pm_checkpoint r).
Definition pm_position (r : ProcessManagerRunner) : N := pmc_position (pm_checkpoint r).
Definition pm_name (r : ProcessManagerRunner) : string := PM_NAME.
Definition dead_letter_path (r : ProcessManagerRunner) : path :=
  join (pm_checkpoint_dir r) "dead_letters.jsonl".

Definition pm_save (f : F) (r : ProcessManagerRunner) : F * io_result unit :=
  save_pm_checkpoint f (pm_checkpoint_dir r) (pm_checkpoint r).

(** [ProcessManagerCatchUp::react_event]. *)
Definition react_event (r : ProcessManagerRunner) (recorded : RecordedEvent)
    : ProcessManagerRunner * list CommandEnvelope :=
  let '(c, produced) := react_to_checkpoint (pm_checkpoint r) recorded in
  (mk_ProcessManagerRunner c (pm_checkpoint_dir r), produced).

(** [ProcessManagerRunner::catch_up]: nothing is saved. *)
Definition pm_catch_up (s : Store) (r : ProcessManagerRunner)
    : Store * ProcessManagerRunner * io_result (list CommandEnvelope) :=
  match subscribe_all_from s (pm_position r) with
  | (s1, Err e) =>
      (s1, r, Err (io_other ("subscribe_all_from failed: " ++ status_display e)))
  | (s1, Panic) => (s1, r, Panic)
  | (s1, Ok stream) =>
      let '(c, res) := pm_process_stream (pm_checkpoint r) [] stream in
      (s1, mk_ProcessManagerRunner c (pm_checkpoint_dir r), res)
  end.
End process_manager.

Arguments mk_ProcessManagerCheckpoint {PM} _ _.
Arguments pmc_state {PM} _.
Arguments pmc_position {PM} _.
Arguments ProcessManagerRunner PM : clear implicits.
Arguments mk_ProcessManagerRunner {PM} _ _.
Arguments pm_checkpoint {PM} _.
Arguments pm_checkpoint_dir {PM} _.
Arguments PM_NAME {J U} PM {_}.
Arguments pm_default {J U} PM {_}.

(** ** Lemmas: a process manager is an instance of [Cursor] *)
Section lemmas.
Context {J : SerdeJson} {U : UuidOps} {T : Tonic}.
Context {PM : Type} {PR : ProcessManager PM}.

Definition pm_ckpt_pair (c : ProcessManagerCheckpoint PM) : PM * N :=
  (pmc_state c, pmc_position c).

Lemma react_to_checkpoint_cursor c r :
  cursor_event pm_react (pm_ckpt_pair c) r =
  let '(c', o) := react_to_checkpoint c r in (pm_ckpt_pair c', o).
Proof.
  unfold react_to_checkpoint, react_recorded_event, cursor_event, pm_ckpt_pair.
  simpl. destruct (_ <? _); [done|].
  destruct (decode_stored_event r); [by destruct (pm_react _ _)|done].
Qed.

(** What a batch leaves behind, whether it ends well or not. *)
Lemma pm_process_stream_cursor c acc stream c' r :
  pm_process_stream c acc stream = (c', r) →
  ∃ o, cursor_run pm_react (pm_ckpt_pair c) (batch_events stream) = (pm_ckpt_pair c', o) ∧
       ∀ envs, r = Ok envs → envs = acc ++ o.
Proof.
  revert c acc; induction stream as [|[[[[ev|]|]]|e|] l IH]; intros c acc; simpl;
    try (intros [= <- <-]; exists []; split; [done|]; intros ? [=];
         by rewrite app_nil_r).
  - rewrite react_to_checkpoint_cursor.
    destruct (react_to_checkpoint c ev) as [c1 o1]. intros H.
    destruct (IH _ _ H) as (o & Hrun & Henv). rewrite Hrun.
    exists (o1 ++ o). split; [done|]. intros envs Hr.
    rewrite (Henv _ Hr). by rewrite app_assoc.
  - apply IH.
Qed.
End lemmas.
