(* ===== verification/Codec.v ===== *)
(** What the crate writes to its files, as JSON: the derived serialisation of
    [Snapshot] ([src/snapshot.rs]), of the checkpoints of projections and process
    managers ([src/projection.rs], [src/process_manager.rs]) and of a dead letter,
    over that of the application's own state types.  The other components are
    written against the class [Serde]; here are its instances, and a proof that
    they keep its laws. *)
From S2P Require Import Prelude Std Deps Command Event Snapshot Cursor Projection.
From S2P Require Import ProcessManager.
Open Scope N_scope.

Section codec.
Context {J : SerdeJson}.

(** An application's type with [Serialize] and [DeserializeOwned], as values. *)
Class ValueSerde (X : Type) := {
  to_value : X → result Value JsonError;
  from_value : Value → result X JsonError;
}.

Class ValueSerdeLaws (X : Type) {V : ValueSerde X} : Prop := {
  value_roundtrip (x : X) v : to_value x = Ok v → from_value v = Ok x;
  value_no_panic (x : X) v : to_value x ≠ Panic ∧ from_value v ≠ (Panic : result X _);
}.

(** A field by its key; the derived code reads no field twice, and a state type
    that is itself an [Option] and may be left out is not considered. *)
Definition from_field {X} (de : Value → result X JsonError) (v : Value) (k : string)
    : result X JsonError :=
  match value_get v k with Some x => de x | None => Err data_error end.

Definition from_option {X} (de : Value → option X) (v : Value) : result X JsonError :=
  match de v with Some x => Ok x | None => Err data_error end.

(** ** The persisted types *)

(** An object of a state and a number: [Snapshot], and both checkpoints. *)
Definition state_and_number_to_value {X} {V : ValueSerde X} (key : string) (x : X) (n : N)
    : result Value JsonError :=
  match to_value x with
  | Ok state => Ok (json_obj [("state", state); (key, json_num n)])
  | Err e => Err e
  | Panic => Panic
  end.

Definition state_and_number_from_value {X} {V : ValueSerde X} (key : string) (v : Value)
    : result (X * N) JsonError :=
  match from_field from_value v "state" with
  | Ok state =>
      match from_field (from_option as_u64) v key with
      | Ok n => Ok (state, n)
      | Err e => Err e
      | Panic => Panic
      end
  | Err e => Err e
  | Panic => Panic
  end.

Definition result_map {A B E} (f : A → B) (r : result A E) : result B E :=
  match r with Ok a => Ok (f a) | Err e => Err e | Panic => Panic end.

#[export] Instance Snapshot_value {A} {V : ValueSerde A} : ValueSerde (Snapshot A) := {|
  to_value s := state_and_number_to_value "stream_version" (snap_state s) (snap_version s);
  from_value v := result_map (λ x, mk_Snapshot x.1 x.2)
                    (state_and_number_from_value "stream_version" v);
|}.

#[export] Instance ProjectionCheckpoint_value {P} {V : ValueSerde P}
    : ValueSerde (ProjectionCheckpoint P) := {|
  to_value c := state_and_number_to_value "last_global_position" (pc_state c) (pc_position c);
  from_value v := result_map (λ x, mk_ProjectionCheckpoint x.1 x.2)
                    (state_and_number_from_value "last_global_position" v);
|}.

#[export] Instance ProcessManagerCheckpoint_value {PM} {V : ValueSerde PM}
    : ValueSerde (ProcessManagerCheckpoint PM) := {|
  to_value c := state_and_number_to_value "last_global_position" (pmc_state c) (pmc_position c);
  from_value v := result_map (λ x, mk_ProcessManagerCheckpoint x.1 x.2)
                    (state_and_number_from_value "last_global_position" v);
|}.

Definition DeadLetterEntry_to_value (e : DeadLetterEntry) : Value :=
  json_obj [("envelope", CommandEnvelope_to_value (dl_envelope e));
            ("error", json_str (dl_error e)); ("ts", json_num (dl_ts e))].

Definition DeadLetterEntry_from_value (v : Value) : option DeadLetterEntry :=
  _ ← as_object v;
  envelope ← de_field CommandEnvelope_from_value v "envelope";
  error ← de_field as_str v "error";
  ts ← de_field as_u64 v "ts";
  Some (mk_DeadLetterEntry envelope error ts).

#[export] Instance DeadLetterEntry_value : ValueSerde DeadLetterEntry := {|
  to_value e := Ok (DeadLetterEntry_to_value e);
  from_value := from_option DeadLetterEntry_from_value;
|}.

(** ** Text *)

(** [from_slice] and [from_str] behind the UTF-8 check, and [to_vec],
    [to_vec_pretty] or their [to_string] forms, through a value.  Text in which
    a key of one object comes twice, which a derived [Deserialize] rejects, is
    read like the value it parses to; nothing the crate writes is of that kind. *)
Definition from_text {X} {V : ValueSerde X} (b : bytes) : result X JsonError :=
  match from_utf8 b with
  | None => Err data_error
  | Some text =>
      match from_str text with
      | Ok v => from_value v
      | Err e => Err e
      | Panic => Panic
      end
  end.

Definition to_text (print : Value → result bytes JsonError) {X} {V : ValueSerde X} (x : X)
    : result bytes JsonError :=
  match to_value x with
  | Ok v => print v
  | Err e => Err e
  | Panic => Panic
  end.

(** Snapshots and checkpoints are written indented, dead letters in one line. *)
Definition pretty_serde {X} {V : ValueSerde X} : Serde X :=
  {| to_json_bytes := to_text to_vec_pretty; from_json_bytes := from_text |}.

#[export] Instance Snapshot_serde {A} {V : ValueSerde A} : Serde (Snapshot A) := pretty_serde.
#[export] Instance ProjectionCheckpoint_serde {P} {V : ValueSerde P} :
  Serde (ProjectionCheckpoint P) := pretty_serde.
#[export] Instance ProcessManagerCheckpoint_serde {PM} {V : ValueSerde PM} :
  Serde (ProcessManagerCheckpoint PM) := pretty_serde.
#[export] Instance DeadLetterEntry_serde : Serde DeadLetterEntry :=
  {| to_json_bytes := to_text to_vec; from_json_bytes := from_text |}.
End codec.

(** ** Laws *)
Section laws.
Context {J : SerdeJson} {JL : SerdeJsonLaws}.

Lemma state_and_number_roundtrip {X} {V : ValueSerde X} {VL : ValueSerdeLaws X} key (x : X) n v :
  key ≠ "state" → state_and_number_to_value key x n = Ok v →
  state_and_number_from_value key v = Ok (x, n).
Proof.
  intros Hk. unfold state_and_number_to_value, state_and_number_from_value, from_field.
  destruct (to_value x) as [w|e|] eqn:Hx; [|done..]. intros [= <-].
  rewrite !value_get_json_obj by (repeat constructor; set_solver).
  simpl. rewrite lookup_insert_eq, lookup_insert_ne, lookup_insert_eq by done.
  rewrite (value_roundtrip x w Hx). unfold from_option. by rewrite as_u64_json_num.
Qed.

Lemma state_and_number_no_panic {X} {V : ValueSerde X} {VL : ValueSerdeLaws X} key (x : X) n v :
  state_and_number_to_value key x n ≠ Panic ∧
  state_and_number_from_value key v ≠ (Panic : result (X * N) _).
Proof.
  destruct (value_no_panic x v) as [Hto _].
  assert (∀ v, from_value v ≠ (Panic : result X _)) as Hfrom by apply (value_no_panic x).
  unfold state_and_number_to_value, state_and_number_from_value, from_field, from_option.
  split; [by destruct (to_value x)|].
  destruct (value_get v "state") as [w|]; [|done]. specialize (Hfrom w).
  destruct (from_value w); [|done..]. by repeat case_match.
Qed.

Lemma result_map_no_panic {A B E} (f : A → B) (r : result A E) :
  r ≠ Panic → result_map f r ≠ Panic.
Proof. by destruct r. Qed.

#[local] Hint Resolve result_map_no_panic : core.

#[export] Instance Snapshot_value_laws {A} {V : ValueSerde A} {VL : ValueSerdeLaws A} :
  ValueSerdeLaws (Snapshot A).
Proof.
  split; simpl.
  - intros [x n] v ->%state_and_number_roundtrip; done.
  - intros x v. destruct (state_and_number_no_panic "stream_version" (snap_state x) (snap_version x) v).
    by auto.
Qed.

#[export] Instance ProjectionCheckpoint_value_laws {P} {V : ValueSerde P} {VL : ValueSerdeLaws P} :
  ValueSerdeLaws (ProjectionCheckpoint P).
Proof.
  split; simpl.
  - intros [x n] v ->%state_and_number_roundtrip; done.
  - intros x v. destruct (state_and_number_no_panic "last_global_position" (pc_state x) (pc_position x) v).
    by auto.
Qed.

#[export] Instance ProcessManagerCheckpoint_value_laws {PM} {V : ValueSerde PM}
    {VL : ValueSerdeLaws PM} : ValueSerdeLaws (ProcessManagerCheckpoint PM).
Proof.
  split; simpl.
  - intros [x n] v ->%state_and_number_roundtrip; done.
  - intros x v. destruct (state_and_number_no_panic "last_global_position" (pmc_state x) (pmc_position x) v).
    by auto.
Qed.

(** A printed value is UTF-8 and parses back. *)
Definition prints (print : Value → result bytes JsonError) : Prop :=
  ∀ v, ∃ b s, print v = Ok b ∧ from_utf8 b = Some s ∧ s ≠ EmptyString ∧ from_str s = Ok v.

Lemma from_text_print print (Hp : prints print) {X} {V : ValueSerde X} v b :
  print v = Ok b → from_text (X := X) b = from_value v.
Proof.
  intros Hb. destruct (Hp v) as (b' & s & Hb' & Hs & _ & Hf). unfold from_text.
  rewrite Hb in Hb'. simplify_eq. by rewrite Hs, Hf.
Qed.

(** Text through values keeps the laws of the values. *)
Lemma pretty_serde_laws {X} {V : ValueSerde X} {VL : ValueSerdeLaws X} :
  SerdeLaws (S := pretty_serde) X.
Proof.
  split; simpl; unfold to_text.
  - intros x b. destruct (to_value x) as [v|e|] eqn:Hv; [|done..]. intros Hb.
    rewrite (from_text_print _ to_vec_pretty_from_str v b Hb). by apply value_roundtrip.
  - intros x b. destruct (to_value x) as [v|e|]; [|done..].
    destruct (to_vec_pretty_from_str v) as (b' & s & -> & [Hu _]%from_utf8_Some & _).
    by intros [= <-].
  - intros x b. split.
    + pose proof (proj1 (value_no_panic x Null)).
      destruct (to_value x) as [v|e|]; [|done..].
      destruct (to_vec_pretty_from_str v) as (b' & s & -> & _). done.
    + unfold from_text. destruct (from_utf8 b) as [s|]; [|done].
      pose proof (from_str_no_panic s). destruct (from_str s) as [v|e|]; [|done..].
      apply (value_no_panic x).
Qed.

#[export] Instance Snapshot_serde_laws {A} {V : ValueSerde A} {VL : ValueSerdeLaws A} :
  SerdeLaws (Snapshot A) := pretty_serde_laws.
#[export] Instance ProjectionCheckpoint_serde_laws {P} {V : ValueSerde P} {VL : ValueSerdeLaws P} :
  SerdeLaws (ProjectionCheckpoint P) := pretty_serde_laws.
#[export] Instance ProcessManagerCheckpoint_serde_laws {PM} {V : ValueSerde PM}
    {VL : ValueSerdeLaws PM} : SerdeLaws (ProcessManagerCheckpoint PM) := pretty_serde_laws.
End laws.
