(* ===== verification/LiveTypes.v ===== *)
(** [src/live.rs], the types [src/store.rs] also uses: [LiveConfig] and the
    shared cells of a [LiveHandle]. *)
From S2P Require Import Prelude Std.
Open Scope N_scope.

Record LiveConfig := mk_LiveConfig {
  checkpoint_interval : N;
  reconnect_base_delay : N;
  reconnect_max_delay : N;
}.

(** [LiveConfig::default()]. *)
Definition LiveConfig_default : LiveConfig :=
  mk_LiveConfig (from_secs 5) (from_secs 1) (from_secs 30).

(** The cells a handle shares with the loop: the shutdown signal, the caught-up
    flag, the position the watch channel holds, and how many receivers the
    channel has. *)
Record LiveHandle := mk_LiveHandle {
  shutdown_signal : bool;
  caught_up : bool;
  position : N;
  receivers : N;
}.

(** What [start_live] creates; the receiver that comes with the channel is
    dropped when [start_live] returns. *)
Definition LiveHandle_new : LiveHandle := mk_LiveHandle false false 0 1.

Definition is_caught_up (h : LiveHandle) : bool := caught_up h.

(** [LiveHandle::subscribe]: one receiver more; it reads the current position. *)
Definition subscribe (h : LiveHandle) : LiveHandle :=
  mk_LiveHandle (shutdown_signal h) (caught_up h) (position h) (receivers h + 1).

Definition drop_receiver (h : LiveHandle) : LiveHandle :=
  mk_LiveHandle (shutdown_signal h) (caught_up h) (position h) (receivers h - 1).

(** [position_tx.send]: the channel keeps its old value when nobody receives. *)
Definition send_position (h : LiveHandle) (p : N) : LiveHandle :=
  if receivers h =? 0 then h
  else mk_LiveHandle (shutdown_signal h) (caught_up h) p (receivers h).

(** [caught_up.store(true)] and [shutdown_tx.send(true)]. *)
Definition set_caught_up (h : LiveHandle) : LiveHandle :=
  mk_LiveHandle (shutdown_signal h) true (position h) (receivers h).
Definition send_shutdown (h : LiveHandle) : LiveHandle :=
  mk_LiveHandle true (caught_up h) (position h) (receivers h).
