(* ===== verification/Store.v ===== *)
(** [src/store.rs]: the aggregate store.  The Rust types an application
    instantiates (aggregates, projections, process managers) are families
    indexed by a type identifier, so that the store's heterogeneous maps and
    their downcasts are the code's. *)
From S2P Require Import Prelude Std Deps Command Errors Aggregate Proto Event EventStore.
From S2P Require Import Snapshot Actor Cursor Projection ProcessManager LiveTypes.
Open Scope N_scope.

(** [DEFAULT_IDLE_TIMEOUT]: five minutes. *)
Definition DEFAULT_IDLE_TIMEOUT : N := from_secs 300.

(** [InjectOptions]. *)
Record InjectOptions := mk_InjectOptions { opt_run_process_managers : bool }.

(** [Box<dyn Any>]: a value with its type identifier, and [downcast]. *)
Definition downcast {I : Type} `{EqDecision I} {B : I → Type} (x : sigT B) (i : I)
    : option (B i) :=
  match decide (projT1 x = i) with
  | left e => Some (eq_rect (projT1 x) B (projT2 x) i e)
  | right _ => None
  end.

(** Which instances an application addresses.  Two identifiers may share a
    snapshot file ([snapshot_path] joins paths), so that what holds of instances
    whose actors stop and start again can only hold of some of them. *)
Class InUse (TypeId : Type) := in_use : TypeId → string → Prop.

Section store.
Context {J : SerdeJson} {U : UuidOps} {T : Tonic}.
Context {Store : Type} {ES : EventStoreOps Store} {EL : EventLogOps Store}.
Context {F : Type} {FS : FileSystem F} {SD : Serde DeadLetterEntry}.
Context {TypeId : Type} `{!EqDecision TypeId, !Countable TypeId}.
Context {Agg : TypeId → Type} {AG : ∀ t, Aggregate (Agg t)}.
Context {CD : ∀ t, CommandDe (Agg t)} {SA : ∀ t, Serde (Snapshot (Agg t))}.
Context {ProjId : Type} `{!EqDecision ProjId}.
Context {Proj : ProjId → Type} {PJ : ∀ p, Projection (Proj p)}.
Context {SP : ∀ p, Serde (ProjectionCheckpoint (Proj p))}.
Context {PmId : Type} {Pm : PmId → Type} {PMC : ∀ q, ProcessManager (Pm q)}.
Context {SM : ∀ q, Serde (ProcessManagerCheckpoint (Pm q))}.

(** [AggregateHandle<A>]: which task it sends to. *)
Record AggregateHandle (t : TypeId) := mk_AggregateHandle {
  h_task : N;
  h_ctx : ActorContext;
}.
Arguments mk_AggregateHandle {t} _ _.
Arguments h_task {t} _.
Arguments h_ctx {t} _.

Abbreviation AnyHandle := (sigT AggregateHandle).
Abbreviation AnyTask := (sigT (λ t : TypeId, Task (Agg t))).
Abbreviation AnyProjection := (sigT (λ p : ProjId, ProjectionRunner (Proj p))).
Abbreviation AnyPm := (sigT (λ q : PmId, ProcessManagerRunner (Pm q))).

(** [AggregateStore], with what it acts on: the event store behind the
    client, the disk, the random source, the clock and the actor tasks. *)
Record AggregateStore := mk_AggregateStore {
  client : Store;
  fs : F;
  rng : Rng;
  clock : option N;
  store_base_dir : path;
  cache : gmap (TypeId * string) AnyHandle;
  tasks : gmap N AnyTask;
  next_task : N;
  projections : gmap string AnyProjection;
  process_managers : list AnyPm;
  dispatchers : gmap string TypeId;
  store_idle_timeout : N;
  live_config : LiveConfig;
  live_handle : option LiveHandle;
}.

(** *** Updates *)
Definition set_env (w : AggregateStore) (e : ActorEnv) : AggregateStore :=
  mk_AggregateStore (ae_store e) (ae_fs e) (ae_rng e) (clock w) (store_base_dir w)
    (cache w) (tasks w) (next_task w) (projections w) (process_managers w)
    (dispatchers w) (store_idle_timeout w) (live_config w) (live_handle w).
Definition set_tasks (w : AggregateStore) (ts : gmap N AnyTask) (n : N) : AggregateStore :=
  mk_AggregateStore (client w) (fs w) (rng w) (clock w) (store_base_dir w)
    (cache w) ts n (projections w) (process_managers w)
    (dispatchers w) (store_idle_timeout w) (live_config w) (live_handle w).
Definition set_cache (w : AggregateStore) (c : gmap (TypeId * string) AnyHandle)
    : AggregateStore :=
  mk_AggregateStore (client w) (fs w) (rng w) (clock w) (store_base_dir w)
    c (tasks w) (next_task w) (projections w) (process_managers w)
    (dispatchers w) (store_idle_timeout w) (live_config w) (live_handle w).
Definition set_client (w : AggregateStore) (s : Store) : AggregateStore :=
  set_env w (mk_ActorEnv s (fs w) (rng w)).
Definition set_fs (w : AggregateStore) (f : F) : AggregateStore :=
  set_env w (mk_ActorEnv (client w) f (rng w)).
Definition set_projections (w : AggregateStore) (ps : gmap string AnyProjection)
    : AggregateStore :=
  mk_AggregateStore (client w) (fs w) (rng w) (clock w) (store_base_dir w)
    (cache w) (tasks w) (next_task w) ps (process_managers w)
    (dispatchers w) (store_idle_timeout w) (live_config w) (live_handle w).
Definition set_pms (w : AggregateStore) (pms : list AnyPm) : AggregateStore :=
  mk_AggregateStore (client w) (fs w) (rng w) (clock w) (store_base_dir w)
    (cache w) (tasks w) (next_task w) (projections w) pms
    (dispatchers w) (store_idle_timeout w) (live_config w) (live_handle w).
Definition set_live (w : AggregateStore) (h : option LiveHandle) : AggregateStore :=
  mk_AggregateStore (client w) (fs w) (rng w) (clock w) (store_base_dir w)
    (cache w) (tasks w) (next_task w) (projections w) (process_managers w)
    (dispatchers w) (store_idle_timeout w) (live_config w) h.

Definition env_of (w : AggregateStore) : ActorEnv := mk_ActorEnv (client w) (fs w) (rng w).

(** *** Handles *)

(** The task a handle sends to. *)
Definition task_of (w : AggregateStore) (t : TypeId) (h : AggregateHandle t) : Task (Agg t) :=
  match tasks w !! h_task h with
  | Some x => default Exited (downcast x t)
  | None => Exited
  end.

Definition handle_is_alive (w : AggregateStore) (t : TypeId) (h : AggregateHandle t) : bool :=
  is_alive (task_of w t h).

(** [get], the fast path: a cached handle of the right type that is alive. *)
Definition get_cached (w : AggregateStore) (t : TypeId) (id : string)
    : option (AggregateHandle t) :=
  match cache w !! (t, id) with
  | Some boxed =>
      match downcast boxed t with
      | Some handle => if handle_is_alive w t handle then Some handle else None
      | None => None
      end
  | None => None
  end.

(** [get], the slow path up to the spawned task. *)
Definition get_spawn (w : AggregateStore) (t : TypeId) (id : string)
    : AggregateStore * result (AggregateHandle t) Status :=
  let w1 := set_cache w (delete (t, id) (cache w)) in
  let config := mk_ActorConfig (store_idle_timeout w) in
  match spawn_actor_with_store (A := Agg t) (env_of w1) id (store_base_dir w) config with
  | (e, Err status) => (set_env w1 e, Err status)
  | (e, Panic) => (set_env w1 e, Panic)
  | (e, Ok (ctx, a)) =>
      let n := next_task w1 in
      let w2 := set_tasks (set_env w1 e)
                  (<[n := existT t (Running a)]> (tasks w1)) (n + 1) in
      (w2, Ok (mk_AggregateHandle n ctx))
  end.

Definition get (w : AggregateStore) (t : TypeId) (id : string)
    : AggregateStore * result (AggregateHandle t) Status :=
  match get_cached w t id with
  | Some handle => (w, Ok handle)
  | None =>
      match get_spawn w t id with
      | (w1, Ok handle) =>
          (set_cache w1 (<[(t, id) := existT t handle]> (cache w1)), Ok handle)
      | r => r
      end
  end.

(** [AggregateHandle::execute] on a task of the store. *)
Definition store_execute (w : AggregateStore) (t : TypeId) (h : AggregateHandle t)
    (cmd : Command (Agg t)) (ctx : CommandContext)
    : AggregateStore * result (list (DomainEvent (Agg t))) (ExecuteError (DomainError (Agg t))) :=
  let '(e, task, r) := handle_execute (h_ctx h) (env_of w) (task_of w t h) cmd ctx in
  (set_tasks (set_env w e) (<[h_task h := existT t task]> (tasks w)) (next_task w), r).

Definition store_state (w : AggregateStore) (t : TypeId) (h : AggregateHandle t)
    : result (Agg t) StateError :=
  (handle_state (h_ctx h) (env_of w) (task_of w t h)).2.

(** The idle timeout of a task fires. *)
Definition evict_idle (w : AggregateStore) (t : TypeId) (h : AggregateHandle t)
    : AggregateStore :=
  match task_of w t h with
  | Running a =>
      let '(e, task, _) := actor_step (h_ctx h) (env_of w) a IdleElapsed in
      set_tasks (set_env w e) (<[h_task h := existT t task]> (tasks w)) (next_task w)
  | _ => w
  end.

(** *** Dispatch *)

(** [TypedDispatcher<A>::dispatch]. *)
Definition dispatch (w : AggregateStore) (t : TypeId) (envelope : CommandEnvelope)
    : AggregateStore * io_result unit :=
  match command_from_value (env_command envelope) with
  | Err e =>
      (w, Err (io_other ("command deserialization failed: " ++ json_error_display e)))
  | Panic => (w, Panic)
  | Ok cmd =>
      match get w t (env_instance_id envelope) with
      | (w1, Err e) => (w1, Err (io_other ("actor spawn failed: " ++ status_display e)))
      | (w1, Panic) => (w1, Panic)
      | (w1, Ok handle) =>
          match store_execute w1 t handle cmd (env_context envelope) with
          | (w2, Ok _) => (w2, Ok ())
          | (w2, Err e) =>
              (w2, Err (io_other ("command execution failed: " ++
                                  execute_error_display error_display e)))
          | (w2, Panic) => (w2, Panic)
          end
      end
  end.

(** Route one envelope: [Ok None] when it was executed, [Ok (Some error)]
    when it has to be dead-lettered with that text. *)
Definition route (w : AggregateStore) (envelope : CommandEnvelope)
    : AggregateStore * result (option string) unit :=
  match dispatchers w !! env_aggregate_type envelope with
  | Some t =>
      match dispatch w t envelope with
      | (w1, Ok _) => (w1, Ok None)
      | (w1, Err e) => (w1, Ok (Some (message e)))
      | (w1, Panic) => (w1, Panic)
      end
  | None => (w, Ok (Some ("unknown aggregate type: " ++ env_aggregate_type envelope)%string))
  end.

Definition dead_letter (w : AggregateStore) (p : path) (envelope : CommandEnvelope)
    (error : string) : AggregateStore * io_result unit :=
  let '(f, r) := append_dead_letter (fs w) (clock w) p envelope error in (set_fs w f, r).

(** *** [run_process_managers] *)

(** Phase 1: catch every process manager up; the first error returns. *)
Fixpoint catch_up_all (s : Store) (pms : list AnyPm)
    : Store * list AnyPm * io_result (list (list CommandEnvelope * path)) :=
  match pms with
  | [] => (s, [], Ok [])
  | existT q pm :: pms' =>
      match pm_catch_up s pm with
      | (s1, pm1, Ok envelopes) =>
          let '(s2, pms2, r) := catch_up_all s1 pms' in
          (s2, existT q pm1 :: pms2,
           let? all_work := r in Ok ((envelopes, dead_letter_path pm1) :: all_work))
      | (s1, pm1, Err e) => (s1, existT q pm1 :: pms', Err e)
      | (s1, pm1, Panic) => (s1, existT q pm1 :: pms', Panic)
      end
  end.

(** Phase 2: the envelopes of one process manager, in order. *)
Fixpoint dispatch_envelopes (w : AggregateStore) (dead_letter_path : path)
    (envelopes : list CommandEnvelope) (report : ProcessManagerReport)
    : AggregateStore * io_result ProcessManagerReport :=
  match envelopes with
  | [] => (w, Ok report)
  | envelope :: envelopes' =>
      match route w envelope with
      | (w1, Ok None) =>
          dispatch_envelopes w1 dead_letter_path envelopes'
            (mk_ProcessManagerReport (dispatched report + 1) (dead_lettered report))
      | (w1, Ok (Some error)) =>
          match dead_letter w1 dead_letter_path envelope error with
          | (w2, Ok _) =>
              dispatch_envelopes w2 dead_letter_path envelopes'
                (mk_ProcessManagerReport (dispatched report) (dead_lettered report + 1))
          | (w2, Err e) => (w2, Err e)
          | (w2, Panic) => (w2, Panic)
          end
      | (w1, _) => (w1, Panic)
      end
  end.

Fixpoint dispatch_work (w : AggregateStore)
    (all_work : list (list CommandEnvelope * path)) (report : ProcessManagerReport)
    : AggregateStore * io_result ProcessManagerReport :=
  match all_work with
  | [] => (w, Ok report)
  | (envelopes, p) :: all_work' =>
      match dispatch_envelopes w p envelopes report with
      | (w1, Ok report1) => dispatch_work w1 all_work' report1
      | r => r
      end
  end.

(** Phase 3: save every checkpoint; the first error returns. *)
Fixpoint save_pms (f : F) (pms : list AnyPm) : F * io_result unit :=
  match pms with
  | [] => (f, Ok ())
  | existT q pm :: pms' =>
      match pm_save f pm with
      | (f1, Ok _) => save_pms f1 pms'
      | r => r
      end
  end.

Definition run_process_managers (w : AggregateStore)
    : AggregateStore * io_result ProcessManagerReport :=
  let '(s, pms, r) := catch_up_all (client w) (process_managers w) in
  let w1 := set_pms (set_client w s) pms in
  match r with
  | Err e => (w1, Err e)
  | Panic => (w1, Panic)
  | Ok all_work =>
      match dispatch_work w1 all_work (mk_ProcessManagerReport 0 0) with
      | (w2, Ok report) =>
          match save_pms (fs w2) (process_managers w2) with
          | (f, Ok _) => (set_fs w2 f, Ok report)
          | (f, Err e) => (set_fs w2 f, Err e)
          | (f, Panic) => (set_fs w2 f, Panic)
          end
      | r => r
      end
  end.

(** *** The other operations *)

Definition inject_event (w : AggregateStore) (t : TypeId) (instance_id : string)
    (proposed : ProposedEventData) (opts : InjectOptions)
    : AggregateStore * io_result unit :=
  let stream_id := stream_uuid (AGGREGATE_TYPE (Agg t)) instance_id in
  match append (client w) stream_id Any [proposed] with
  | (s, Err e) =>
      (set_client w s, Err (io_other ("gRPC append failed: " ++ status_display e)))
  | (s, Panic) => (set_client w s, Panic)
  | (s, Ok _) =>
      let w1 := set_client w s in
      if opt_run_process_managers opts then
        match run_process_managers w1 with
        | (w2, Ok _) => (w2, Ok ())
        | (w2, Err e) => (w2, Err e)
        | (w2, Panic) => (w2, Panic)
        end
      else (w1, Ok ())
  end.

(** [start_live]: the flag side; the loop itself is [Live.live_step]. *)
Definition start_live (w : AggregateStore) : AggregateStore * io_result LiveHandle :=
  match live_handle w with
  | Some _ => (w, Err (mk_io_error AlreadyExists "live subscription already started"))
  | None =>
      let handle := drop_receiver LiveHandle_new in
      (set_live w (Some handle), Ok handle)
  end.

Definition not_registered (p : ProjId) : io_error :=
  mk_io_error NotFound ("projection '" ++ PROJ_NAME (Proj p) ++ "' not registered").

(** [projection::<P>()]: catch up, then a clone of the state. *)
Definition projection (w : AggregateStore) (p : ProjId)
    : AggregateStore * io_result (Proj p) :=
  match projections w !! PROJ_NAME (Proj p) with
  | None => (w, Err (not_registered p))
  | Some (existT p' runner) =>
      let '(s, f, runner', r) := catch_up (client w) (fs w) runner in
      let w1 := set_projections (set_fs (set_client w s) f)
                  (<[PROJ_NAME (Proj p) := existT p' runner']> (projections w)) in
      match r with
      | Err e => (w1, Err e)
      | Panic => (w1, Panic)
      | Ok _ =>
          match downcast (B := λ p, Proj p) (existT p' (runner_state runner')) p with
          | Some state => (w1, Ok state)
          | None => (w1, Err (io_other "projection type mismatch"))
          end
      end
  end.

Definition live_projection (w : AggregateStore) (p : ProjId)
    : AggregateStore * io_result (Proj p) :=
  match live_handle w with
  | Some _ =>
      match projections w !! PROJ_NAME (Proj p) with
      | None => (w, Err (not_registered p))
      | Some (existT p' runner) =>
          match downcast (B := λ p, Proj p) (existT p' (runner_state runner)) p with
          | Some state => (w, Ok state)
          | None => (w, Err (io_other "projection type mismatch"))
          end
      end
  | None => projection w p
  end.
End store.
