(* ===== verification/Live.v ===== *)
(** [src/live.rs]: the live subscription loop.  [process_stream_with_dispatch]
    is the function as written, run without interruption; [live_next] is the
    whole loop as a labelled state machine, in which the checkpoint timer, the
    shutdown signal and the retry delays interleave with it as the [select!]s
    of [run_live_loop] allow. *)
From S2P Require Import Prelude Std Deps Command Errors Aggregate Proto Event EventStore.
From S2P Require Import Snapshot Actor Cursor Projection ProcessManager LiveTypes Store.
Open Scope N_scope.

Section live.
Context {J : SerdeJson} {U : UuidOps} {T : Tonic}.
Context {Store : Type} {ES : EventStoreOps Store} {EL : EventLogOps Store}.
Context {F : Type} {FS : FileSystem F} {SD : Serde DeadLetterEntry}.
Context {TypeId : Type} `{!EqDecision TypeId, !Countable TypeId}.
Context {Agg : TypeId → Type} {AG : ∀ t, Aggregate (Agg t)}.
Context {CD : ∀ t, CommandDe (Agg t)} {SA : ∀ t, Serde (Snapshot (Agg t))}.
Context {ProjId : Type} `{!EqDecision ProjId}.
Context {Proj : ProjId → Type} {PJ : ∀ p, Projection (Proj p)}.
Context {SP : ∀ p, Serde (ProjectionCheckpoint (Proj p))}.
Context {PmId : Type} {Pm : PmId → Type} {PMC : ∀ q, ProcessManager (Pm q)}.
Context {SM : ∀ q, Serde (ProcessManagerCheckpoint (Pm q))}.

Abbreviation World := (AggregateStore (Store := Store) (F := F) (TypeId := TypeId)
  (Agg := Agg) (ProjId := ProjId) (Proj := Proj) (PmId := PmId) (Pm := Pm)).
Abbreviation AnyProjection := (sigT (λ p : ProjId, ProjectionRunner (Proj p))).
Abbreviation AnyPm := (sigT (λ q : PmId, ProcessManagerRunner (Pm q))).

Inductive StreamOutcome := Ended | StreamError (e : io_error).

(** *** Checkpoints *)

Fixpoint save_projections (f : F) (l : list (string * AnyProjection)) : F :=
  match l with
  | [] => f
  | (_, existT p runner) :: l' => save_projections (runner_save f runner).1 l'
  end.

Fixpoint save_process_managers (f : F) (l : list AnyPm) : F :=
  match l with
  | [] => f
  | existT q pm :: l' => save_process_managers (pm_save f pm).1 l'
  end.

(** [save_all_checkpoints]: every runner, an error is logged and skipped. *)
Definition save_all_checkpoints (w : World) : World :=
  set_fs w (save_process_managers
              (save_projections (fs w) (map_to_list (projections w)))
              (process_managers w)).

Definition any_projection_position (x : AnyProjection) : N := runner_position (projT2 x).
Definition any_pm_position (x : AnyPm) : N := pm_position (projT2 x).

Definition min_global_position (w : World) : N :=
  let min_pos := foldl N.min u64_MAX
                   ((any_projection_position ∘ snd) <$> map_to_list (projections w)) in
  let min_pos := foldl N.min min_pos (any_pm_position <$> process_managers w) in
  if min_pos =? u64_MAX then 0 else min_pos.

(** *** One event *)

(** [ProjectionCatchUp::apply_event] behind the trait object. *)
Definition any_apply_event (recorded : RecordedEvent) (x : AnyProjection) : AnyProjection :=
  existT (P := λ p : ProjId, ProjectionRunner (Proj p)) (projT1 x)
    (runner_apply_event (projT2 x) recorded).

Definition fan_out_projections (w : World) (recorded : RecordedEvent) : World :=
  set_projections w (fmap (M := gmap string) (any_apply_event recorded) (projections w)).

(** Every process manager reacts; the non-empty batches of envelopes are kept
    with the dead-letter path of their process manager. *)
Fixpoint fan_out_pms (pms : list AnyPm) (recorded : RecordedEvent)
    : list AnyPm * list (list CommandEnvelope * path) :=
  match pms with
  | [] => ([], [])
  | existT q pm :: pms' =>
      let '(pm1, envelopes) := react_event pm recorded in
      let '(pms1, all_envelopes) := fan_out_pms pms' recorded in
      (existT q pm1 :: pms1,
       match envelopes with
       | [] => all_envelopes
       | _ => (envelopes, dead_letter_path pm1) :: all_envelopes
       end)
  end.

Definition fan_out (w : World) (recorded : RecordedEvent)
    : World * list (list CommandEnvelope * path) :=
  let w1 := fan_out_projections w recorded in
  let '(pms, all_envelopes) := fan_out_pms (process_managers w1) recorded in
  (set_pms w1 pms, all_envelopes).

(** The work list of the two nested dispatch loops, in their order. *)
Definition flatten_work (work : list (list CommandEnvelope * path))
    : list (CommandEnvelope * path) :=
  work ≫= λ '(envelopes, p), (λ envelope, (envelope, p)) <$> envelopes.

(** Dispatch one envelope; a dead letter that cannot be written is logged. *)
Definition live_dispatch (w : World) (work : CommandEnvelope * path) : World * result unit unit :=
  match route w work.1 with
  | (w1, Ok None) => (w1, Ok ())
  | (w1, Ok (Some error)) =>
      match dead_letter w1 work.2 work.1 error with
      | (w2, Panic) => (w2, Panic)
      | (w2, _) => (w2, Ok ())
      end
  | (w1, _) => (w1, Panic)
  end.

Fixpoint live_dispatch_all (w : World) (work : list (CommandEnvelope * path))
    : World * result unit unit :=
  match work with
  | [] => (w, Ok ())
  | e :: work' =>
      match live_dispatch w e with
      | (w1, Ok _) => live_dispatch_all w1 work'
      | r => r
      end
  end.

(** *** [process_stream_with_dispatch], uninterrupted *)
Fixpoint process_stream_with_dispatch (w : World) (cells : LiveHandle)
    (stream : list (result SubscribeResponse Status))
    : World * LiveHandle * io_result StreamOutcome :=
  match stream with
  | [] => (w, cells, Ok Ended)
  | Err e :: _ =>
      (w, cells, Ok (StreamError (io_other ("subscribe stream error: " ++ status_display e))))
  | Panic :: _ => (w, cells, Panic)
  | Ok response :: stream' =>
      match sr_content response with
      | Some (Event recorded) =>
          let '(w1, all_envelopes) := fan_out w recorded in
          match live_dispatch_all w1 (flatten_work all_envelopes) with
          | (w2, Ok _) =>
              process_stream_with_dispatch w2
                (send_position cells (re_global_position recorded)) stream'
          | (w2, _) => (w2, cells, Panic)
          end
      | Some CaughtUp =>
          process_stream_with_dispatch w (set_caught_up cells) stream'
      | None => process_stream_with_dispatch w cells stream'
      end
  end.

(** *** [run_live_loop] *)

(** Where the loop is suspended. *)
Inductive Pc :=
| Top
| SubscribeBackoff
| Reading (stream : list (result SubscribeResponse Status))
| Dispatching (recorded : RecordedEvent) (work : list (CommandEnvelope * path))
              (stream : list (result SubscribeResponse Status))
| ErrorBackoff
| Finished (r : io_result unit).

Record Live := mk_Live {
  lv_store : World;
  lv_cells : LiveHandle;
  lv_backoff : N;
  lv_pc : Pc;
}.

(** What can happen next: the loop's own future makes progress, the checkpoint
    interval ticks, the shutdown branch of a [select!] fires, a retry delay
    elapses, a caller sends the shutdown signal, subscribes to the position, or
    drops a receiver. *)
Inductive Label := LRun | LTick | LStop | LSleep | LSignal | LSubscribe | LUnsubscribe.

(** The loop as [start_live] spawns it; [tokio::time::interval] panics on a
    period of zero. *)
Definition live_init (w : World) : Live :=
  mk_Live w LiveHandle_new (reconnect_base_delay (live_config w))
    (if checkpoint_interval (live_config w) =? 0 then Finished Panic else Top).

Definition goto (s : Live) (pc : Pc) : Live :=
  mk_Live (lv_store s) (lv_cells s) (lv_backoff s) pc.
Definition with_store (s : Live) (w : World) : Live :=
  mk_Live w (lv_cells s) (lv_backoff s) (lv_pc s).
Definition saved (s : Live) : Live := with_store s (save_all_checkpoints (lv_store s)).

(** [(backoff_delay * 2).min(config.reconnect_max_delay)]. *)
Definition next_backoff (c : LiveConfig) (delay : N) : result N unit :=
  let? doubled := duration_mul delay 2 in
  Ok (N.min doubled (reconnect_max_delay c)).

Definition after_sleep (s : Live) : Live :=
  match next_backoff (live_config (lv_store s)) (lv_backoff s) with
  | Ok d => mk_Live (lv_store s) (lv_cells s) d Top
  | _ => goto s (Finished Panic)
  end.

(** The loop head: stop, or subscribe from the minimum position. *)
Definition step_top (s : Live) : Live :=
  if shutdown_signal (lv_cells s) then goto (saved s) (Finished (Ok ()))
  else
    match subscribe_all_from (client (lv_store s)) (min_global_position (lv_store s)) with
    | (c, Ok stream) => goto (with_store s (set_client (lv_store s) c)) (Reading stream)
    | (c, Err _) => goto (with_store s (set_client (lv_store s) c)) SubscribeBackoff
    | (c, Panic) => goto (with_store s (set_client (lv_store s) c)) (Finished Panic)
    end.

(** The stream future: the next item, or the end of the stream. *)
Definition step_reading (s : Live) (stream : list (result SubscribeResponse Status)) : Live :=
  match stream with
  | [] =>
      let s1 := saved s in
      let backoff := if caught_up (lv_cells s1)
                     then reconnect_base_delay (live_config (lv_store s1))
                     else lv_backoff s1 in
      mk_Live (lv_store s1) (lv_cells s1) backoff Top
  | Err _ :: _ => goto (saved s) ErrorBackoff
  | Panic :: _ => goto s (Finished Panic)
  | Ok response :: stream' =>
      match sr_content response with
      | Some (Event recorded) =>
          let '(w, all_envelopes) := fan_out (lv_store s) recorded in
          goto (with_store s w) (Dispatching recorded (flatten_work all_envelopes) stream')
      | Some CaughtUp =>
          mk_Live (lv_store s) (set_caught_up (lv_cells s)) (lv_backoff s) (Reading stream')
      | None => goto s (Reading stream')
      end
  end.

(** The stream future, while it dispatches: one envelope, or the publication
    of the position when there is none left. *)
Definition step_dispatching (s : Live) (recorded : RecordedEvent)
    (work : list (CommandEnvelope * path))
    (stream : list (result SubscribeResponse Status)) : Live :=
  match work with
  | [] =>
      mk_Live (lv_store s) (send_position (lv_cells s) (re_global_position recorded))
        (lv_backoff s) (Reading stream)
  | e :: work' =>
      match live_dispatch (lv_store s) e with
      | (w, Ok _) => goto (with_store s w) (Dispatching recorded work' stream)
      | (w, _) => goto (with_store s w) (Finished Panic)
      end
  end.

(** The caller's side of [LiveHandle]: the shutdown signal (lost when the loop,
    its only receiver, has returned), a new subscriber, and a dropped one. *)
Definition set_cells (s : Live) (h : LiveHandle) : Live :=
  mk_Live (lv_store s) h (lv_backoff s) (lv_pc s).
Definition signal_shutdown (s : Live) : Live :=
  match lv_pc s with
  | Finished _ => s
  | _ => set_cells s (send_shutdown (lv_cells s))
  end.

Definition live_next (s : Live) (l : Label) : option Live :=
  match l, lv_pc s with
  | LSignal, _ => Some (signal_shutdown s)
  | LSubscribe, _ => Some (set_cells s (subscribe (lv_cells s)))
  | LUnsubscribe, _ => Some (set_cells s (drop_receiver (lv_cells s)))
  | LRun, Top => Some (step_top s)
  | LRun, Reading stream => Some (step_reading s stream)
  | LRun, Dispatching recorded work stream => Some (step_dispatching s recorded work stream)
  | LSleep, (SubscribeBackoff | ErrorBackoff) => Some (after_sleep s)
  | LTick, (Reading _ | Dispatching _ _ _) => Some (saved s)
  | LStop, (SubscribeBackoff | Reading _ | Dispatching _ _ _) =>
      if shutdown_signal (lv_cells s) then Some (goto (saved s) (Finished (Ok ()))) else None
  | LStop, ErrorBackoff =>
      if shutdown_signal (lv_cells s) then Some (goto s (Finished (Ok ()))) else None
  | _, _ => None
  end.

(** The transition relation, and a run along a list of labels. *)
Definition live_step (s s' : Live) : Prop := ∃ l, live_next s l = Some s'.

Fixpoint live_run (s : Live) (ls : list Label) : option Live :=
  match ls with
  | [] => Some s
  | l :: ls' => match live_next s l with Some s' => live_run s' ls' | None => None end
  end.
End live.
