(* ===== verification/Locks.v ===== *)
(** The locks of [src/store.rs] and [src/live.rs].  Every projection and every
    process manager is behind a mutex of its own, which [projection],
    [live_projection], [run_process_managers] and the live loop take one at a
    time.  Here a call of the application and the live loop are suspended at
    every lock and between any two critical sections, and all of them interleave;
    [Store] and [Live] run the same code without interruption.

    A Tokio mutex is FIFO fair: it is a queue of owners, whose first element
    holds it.  A future that waits has its place in the queue whether it is
    polled or not; the branches of the [select!] in [run_live_loop] run while
    the stream's future is not polled.  The read-write locks around the two
    collections are taken for reading only, so that they never block. *)
From S2P Require Import Prelude Std Deps Command Errors Aggregate Proto Event EventStore.
From S2P Require Import Snapshot Actor Cursor Projection ProcessManager LiveTypes Store Live.
Open Scope N_scope.

(** Whose mutex: a projection, by its name, or a process manager, by its place. *)
Inductive Key := KProj (name : string) | KPm (i : nat).

#[export] Instance Key_eq_dec : EqDecision Key.
Proof. solve_decision. Defined.
#[export] Instance Key_countable : Countable Key.
Proof.
  refine (inj_countable' (λ k, match k with KProj n => inl n | KPm i => inr i end)
            (λ k, match k with inl n => KProj n | inr i => KPm i end) _). by intros [].
Defined.

(** Who waits for it or holds it: a call of the application, the stream's
    future in the live loop, or the loop's own body (its [select!] branches
    included). *)
Inductive Owner := OCall (k : nat) | OStream | OLoop.

#[export] Instance Owner_eq_dec : EqDecision Owner.
Proof. solve_decision. Defined.

Abbreviation Mutexes := (gmap Key (list Owner)).

Definition queue (m : Mutexes) (key : Key) : list Owner := default [] (m !! key).

(** [lock().await], up to the point where the future is suspended or has the
    lock: [queued] says whether it already has a place in the queue. *)
Inductive Attempt := Acquired | Enqueued | Blocked.
Definition attempt (m : Mutexes) (key : Key) (o : Owner) (queued : bool) : Attempt :=
  match queue m key with
  | [] => if queued then Blocked else Acquired
  | o' :: _ => if queued then if decide (o' = o) then Acquired else Blocked else Enqueued
  end.

Definition enqueue (m : Mutexes) (key : Key) (o : Owner) : Mutexes :=
  <[key := queue m key ++ [o]]> m.
Definition release (m : Mutexes) (key : Key) : Mutexes := <[key := tail (queue m key)]> m.

(** After a critical section without an await: the guard is dropped. *)
Definition passed (m : Mutexes) (key : Key) (queued : bool) : Mutexes :=
  if queued then release m key else m.

(** A future that is dropped leaves every queue. *)
Definition forget (o : Owner) (m : Mutexes) : Mutexes :=
  filter (λ o', o' ≠ o) <$> m.

Section locks.
Context {J : SerdeJson} {U : UuidOps} {T : Tonic}.
Context {Store : Type} {ES : EventStoreOps Store} {EL : EventLogOps Store}.
Context {F : Type} {FS : FileSystem F} {SD : Serde DeadLetterEntry}.
Context {TypeId : Type} `{!EqDecision TypeId, !Countable TypeId}.
Context {Agg : TypeId → Type} {AG : ∀ t, Aggregate (Agg t)}.
Context {CD : ∀ t, CommandDe (Agg t)} {SA : ∀ t, Serde (Snapshot (Agg t))}.
Context {ProjId : Type} `{!EqDecision ProjId}.
Context {Proj : ProjId → Type} {PJ : ∀ p, Projection (Proj p)}.
Context {SP : ∀ p, Serde (ProjectionCheckpoint (Proj p))}.
Context {PmId : Type} {Pm : PmId → Type} {PMC : ∀ q, ProcessManager (Pm q)}.
Context {SM : ∀ q, Serde (ProcessManagerCheckpoint (Pm q))}.

Abbreviation World := (AggregateStore (Store := Store) (F := F) (TypeId := TypeId)
  (Agg := Agg) (ProjId := ProjId) (Proj := Proj) (PmId := PmId) (Pm := Pm)).
Abbreviation AnyProjection := (sigT (λ p : ProjId, ProjectionRunner (Proj p))).
Abbreviation AnyPm := (sigT (λ q : PmId, ProcessManagerRunner (Pm q))).
Abbreviation Items := (list (result SubscribeResponse Status)).
Abbreviation Work := (list (CommandEnvelope * path)).

(** The runners in the order of the code's loops over them. *)
Definition all_keys (w : World) : list Key :=
  (KProj ∘ fst <$> map_to_list (projections w)) ++ (KPm <$> seq 0 (length (process_managers w))).

Definition position_of (w : World) (key : Key) : option N :=
  match key with
  | KProj name => any_projection_position <$> projections w !! name
  | KPm i => any_pm_position <$> process_managers w !! i
  end.

(** ** Critical sections *)

Definition set_pm (w : World) (i : nat) (x : AnyPm) : World :=
  set_pms w (<[i := x]> (process_managers w)).

(** Phase 1 of [run_process_managers], for one process manager. *)
Definition catch_up_one (w : World) (i : nat)
    : World * io_result (list CommandEnvelope * path) :=
  match process_managers w !! i with
  | Some (existT q pm) =>
      let '(s, pm1, r) := pm_catch_up (client w) pm in
      (set_pm (set_client w s) i (existT q pm1),
       let? envelopes := r in Ok (envelopes, dead_letter_path pm1))
  | None => (w, Panic)
  end.

(** [save] of one runner. *)
Definition save_one (w : World) (key : Key) : World * io_result unit :=
  match key with
  | KProj name =>
      match projections w !! name with
      | Some (existT _ runner) => let '(f, r) := runner_save (fs w) runner in (set_fs w f, r)
      | None => (w, Panic)
      end
  | KPm i =>
      match process_managers w !! i with
      | Some (existT _ pm) => let '(f, r) := pm_save (fs w) pm in (set_fs w f, r)
      | None => (w, Panic)
      end
  end.

(** The live loop's [apply_event] or [react_event] on one runner, with the
    envelopes of a process manager when there are any. *)
Definition fan_out_one (w : World) (key : Key) (recorded : RecordedEvent)
    : World * list (list CommandEnvelope * path) :=
  match key with
  | KProj name =>
      (set_projections w (alter (M := gmap string AnyProjection) (any_apply_event recorded) name (projections w)),
       [])
  | KPm i =>
      match process_managers w !! i with
      | Some (existT q pm) =>
          let '(pm1, envelopes) := react_event pm recorded in
          (set_pm w i (existT q pm1),
           match envelopes with [] => [] | _ => [(envelopes, dead_letter_path pm1)] end)
      | None => (w, [])
      end
  end.

(** One round of the dispatch loop of [run_process_managers]. *)
Definition dispatch_one (w : World) (work : CommandEnvelope * path) (report : ProcessManagerReport)
    : World * io_result ProcessManagerReport :=
  match route w work.1 with
  | (w1, Ok None) =>
      (w1, Ok (mk_ProcessManagerReport (dispatched report + 1) (dead_lettered report)))
  | (w1, Ok (Some error)) =>
      match dead_letter w1 work.2 work.1 error with
      | (w2, Ok _) =>
          (w2, Ok (mk_ProcessManagerReport (dispatched report) (dead_lettered report + 1)))
      | (w2, Err e) => (w2, Err e)
      | (w2, Panic) => (w2, Panic)
      end
  | (w1, _) => (w1, Panic)
  end.

(** ** A call of the application *)

Inductive Ask :=
| AskProjection (p : ProjId)
| AskLiveProjection (p : ProjId)
| AskProcessManagers.

(** What a call ended with; a call whose future was dropped, or that panicked,
    returned nothing. *)
Inductive Outcome :=
| ProjectionOutcome (p : ProjId) (r : io_result (Proj p))
| ReportOutcome (r : io_result ProcessManagerReport)
| Dropped.

(** Where it is: about to lock a projection, inside its catch-up, about to read
    it, about to lock the process manager [i], inside its catch-up, in the
    dispatch loop, about to save the checkpoint [i], over. *)
Inductive CallPc :=
| ProjectionLocking (p : ProjId) (queued : bool)
| ProjectionHolding (p : ProjId)
| StateLocking (p : ProjId) (queued : bool)
| CatchUpLocking (i : nat) (queued : bool) (all_work : list (list CommandEnvelope * path))
| CatchUpHolding (i : nat) (all_work : list (list CommandEnvelope * path))
| CallDispatching (work : Work) (report : ProcessManagerReport)
| SaveLocking (i : nat) (queued : bool) (report : ProcessManagerReport)
| Over (o : Outcome).

(** What a run shows: an envelope that was routed, envelopes that were dropped
    with the task that had them, a catch-up that failed. *)
Inductive LockEvent := Handled (e : CommandEnvelope) | Lost (l : list CommandEnvelope) | CatchUpFailed.

(** The start of a call, before its first lock. *)
Definition begin_call (w : World) (c : Ask) : CallPc :=
  let pull p :=
    match projections w !! PROJ_NAME (Proj p) with
    | Some _ => ProjectionLocking p false
    | None => Over (ProjectionOutcome p (Err (not_registered p)))
    end in
  match c with
  | AskProjection p => pull p
  | AskLiveProjection p =>
      match live_handle w with
      | Some _ =>
          match projections w !! PROJ_NAME (Proj p) with
          | Some _ => StateLocking p false
          | None => Over (ProjectionOutcome p (Err (not_registered p)))
          end
      | None => pull p
      end
  | AskProcessManagers => CatchUpLocking 0 false []
  end.

Definition panic_free {A} (o : Outcome) (r : io_result A) : Outcome :=
  match r with Panic => Dropped | _ => o end.

(** A call runs to its next lock, or to the end of the catch-up it is in.  The
    envelopes in hand go with it when it fails. *)
Definition call_turn (w : World) (m : Mutexes) (k : nat) (pc : CallPc)
    : option (World * Mutexes * CallPc * list LockEvent) :=
  match pc with
  | ProjectionLocking p queued =>
      let key := KProj (PROJ_NAME (Proj p)) in
      match attempt m key (OCall k) queued with
      | Acquired => Some (w, if queued then m else enqueue m key (OCall k), ProjectionHolding p, [])
      | Enqueued => Some (w, enqueue m key (OCall k), ProjectionLocking p true, [])
      | Blocked => None
      end
  | ProjectionHolding p =>
      let '(w1, r) := projection w p in
      Some (w1, release m (KProj (PROJ_NAME (Proj p))),
            Over (panic_free (ProjectionOutcome p r) r), [])
  | StateLocking p queued =>
      let key := KProj (PROJ_NAME (Proj p)) in
      match attempt m key (OCall k) queued with
      | Acquired =>
          Some (w, passed m key queued, Over (ProjectionOutcome p (live_projection w p).2), [])
      | Enqueued => Some (w, enqueue m key (OCall k), StateLocking p true, [])
      | Blocked => None
      end
  | CatchUpLocking i queued all_work =>
      if decide (i < length (process_managers w))%nat then
        match attempt m (KPm i) (OCall k) queued with
        | Acquired =>
            Some (w, if queued then m else enqueue m (KPm i) (OCall k), CatchUpHolding i all_work, [])
        | Enqueued => Some (w, enqueue m (KPm i) (OCall k), CatchUpLocking i true all_work, [])
        | Blocked => None
        end
      else Some (w, m, CallDispatching (flatten_work all_work) (mk_ProcessManagerReport 0 0), [])
  | CatchUpHolding i all_work =>
      match catch_up_one w i with
      | (w1, Ok work) =>
          Some (w1, release m (KPm i), CatchUpLocking (S i) false (all_work ++ [work]), [])
      | (w1, r) =>
          Some (w1, release m (KPm i),
                Over (match r with Err e => ReportOutcome (Err e) | _ => Dropped end),
                [CatchUpFailed; Lost (flatten_work all_work).*1])
      end
  | CallDispatching [] report => Some (w, m, SaveLocking 0 false report, [])
  | CallDispatching (e :: work) report =>
      match dispatch_one w e report with
      | (w1, Ok report1) => Some (w1, m, CallDispatching work report1, [Handled e.1])
      | (w1, r) =>
          Some (w1, m, Over (match r with Err x => ReportOutcome (Err x) | _ => Dropped end),
                [Handled e.1; Lost work.*1])
      end
  | SaveLocking i queued report =>
      if decide (i < length (process_managers w))%nat then
        match attempt m (KPm i) (OCall k) queued with
        | Acquired =>
            let '(w1, r) := save_one w (KPm i) in
            Some (w1, passed m (KPm i) queued,
                  match r with
                  | Ok _ => SaveLocking (S i) false report
                  | Err x => Over (ReportOutcome (Err x))
                  | Panic => Over Dropped
                  end, [])
        | Enqueued => Some (w, enqueue m (KPm i) (OCall k), SaveLocking i true report, [])
        | Blocked => None
        end
      else Some (w, m, Over (ReportOutcome (Ok report)), [])
  | Over _ => None
  end.

(** The future of a call is dropped when its catch-up has read [n] items: the
    runner keeps what it has consumed, nothing is saved. *)
Definition drop_in_catch_up (w : World) (pc : CallPc) (n : nat) : World :=
  match pc with
  | ProjectionHolding p =>
      match projections w !! PROJ_NAME (Proj p) with
      | Some (existT p' runner) =>
          match subscribe_all_from (client w) (runner_position runner) with
          | (s, Ok stream) =>
              let c := (process_stream (pr_checkpoint runner) (take n stream)).1 in
              let runner1 := mk_ProjectionRunner c (pr_checkpoint_dir runner) in
              set_projections (set_client w s)
                (<[PROJ_NAME (Proj p) :=
                     existT (P := λ p : ProjId, ProjectionRunner (Proj p)) p' runner1]> (projections w))
          | (s, _) => set_client w s
          end
      | None => w
      end
  | CatchUpHolding i _ =>
      match process_managers w !! i with
      | Some (existT q pm) =>
          match subscribe_all_from (client w) (pm_position pm) with
          | (s, Ok stream) =>
              let c := (pm_process_stream (pm_checkpoint pm) [] (take n stream)).1 in
              let pm1 := mk_ProcessManagerRunner c (pm_checkpoint_dir pm) in
              set_pm (set_client w s) i (existT q pm1)
          | (s, _) => set_client w s
          end
      | None => w
      end
  | _ => w
  end.

(** Its guard is dropped too, and its place in every queue. *)
Definition drop_call (w : World) (m : Mutexes) (k : nat) (pc : CallPc) (n : nat)
    : World * Mutexes :=
  (drop_in_catch_up w pc n, forget (OCall k) m).

(** The envelopes a call has in hand. *)
Definition call_pending (pc : CallPc) : list CommandEnvelope :=
  match pc with
  | CatchUpLocking _ _ all_work | CatchUpHolding _ all_work => (flatten_work all_work).*1
  | CallDispatching work _ => work.*1
  | _ => []
  end.
(** ** The live loop *)

(** Where the stream's future is: at the next item, in the fan-out of an event
    (the runners left, the envelopes so far), in the dispatch loop. *)
Inductive StreamPc :=
| SReading (stream : Items)
| SFanOut (recorded : RecordedEvent) (keys : list Key) (queued : bool)
          (work : list (list CommandEnvelope * path)) (stream : Items)
| SDispatching (recorded : RecordedEvent) (work : Work) (stream : Items).

(** What the loop does when its checkpoints are saved. *)
Inductive After := ThenReturn | ThenReconnect | ThenBackoff.

(** Where the loop is: at its head, computing the minimum position, in
    [subscribe_all_from], in the two retry delays, in the [select!] around the
    stream's future, with the branch that runs (the runners left to save, and
    whether it returns then), saving, over. *)
Inductive LoopPc :=
| LTop
| LMinimum (keys : list Key) (queued : bool) (min_pos : N)
| LSubscribing (from : N)
| LSubscribeBackoff
| LStreaming (sp : StreamPc) (branch : option (list Key * bool * bool))
| LSaving (keys : list Key) (queued : bool) (next : After)
| LErrorBackoff
| LFinished (r : io_result unit).

Record Locks := mk_Locks {
  lk_store : World;
  lk_cells : LiveHandle;
  lk_backoff : N;
  lk_mutexes : Mutexes;
  lk_loop : LoopPc;
  lk_calls : list CallPc;
}.

Definition stream_pending (sp : StreamPc) : list CommandEnvelope :=
  match sp with
  | SReading _ => []
  | SFanOut _ _ _ work _ => (flatten_work work).*1
  | SDispatching _ work _ => work.*1
  end.
Definition loop_pending (pc : LoopPc) : list CommandEnvelope :=
  match pc with LStreaming sp _ => stream_pending sp | _ => [] end.

(** The outcome of polling the stream's future: still in the stream, or out of
    it, to save and go on. *)
Inductive Polled := StillIn (sp : StreamPc) | Left (next : After) | Panicked.

Definition stream_turn (w : World) (cells : LiveHandle) (m : Mutexes) (sp : StreamPc)
    : option (World * LiveHandle * Mutexes * Polled * list LockEvent) :=
  match sp with
  | SReading [] => Some (w, cells, m, Left ThenReconnect, [])
  | SReading (Err _ :: _) => Some (w, cells, m, Left ThenBackoff, [])
  | SReading (Panic :: _) => Some (w, cells, m, Panicked, [])
  | SReading (Ok response :: stream) =>
      match sr_content response with
      | Some (Event recorded) =>
          Some (w, cells, m, StillIn (SFanOut recorded (all_keys w) false [] stream), [])
      | Some CaughtUp => Some (w, set_caught_up cells, m, StillIn (SReading stream), [])
      | None => Some (w, cells, m, StillIn (SReading stream), [])
      end
  | SFanOut recorded [] _ work stream =>
      Some (w, cells, m, StillIn (SDispatching recorded (flatten_work work) stream), [])
  | SFanOut recorded (key :: keys) queued work stream =>
      match attempt m key OStream queued with
      | Acquired =>
          let '(w1, new) := fan_out_one w key recorded in
          Some (w1, cells, passed m key queued,
                StillIn (SFanOut recorded keys false (work ++ new) stream), [])
      | Enqueued =>
          Some (w, cells, enqueue m key OStream,
                StillIn (SFanOut recorded (key :: keys) true work stream), [])
      | Blocked => None
      end
  | SDispatching recorded [] stream =>
      Some (w, send_position cells (re_global_position recorded), m, StillIn (SReading stream), [])
  | SDispatching recorded (e :: work) stream =>
      match live_dispatch w e with
      | (w1, Ok _) =>
          Some (w1, cells, m, StillIn (SDispatching recorded work stream), [Handled e.1])
      | (w1, _) => Some (w1, cells, m, Panicked, [Handled e.1; Lost work.*1])
      end
  end.

(** [save_all_checkpoints], one runner at a time; [inl] while it goes on. *)
Definition save_turn (w : World) (m : Mutexes) (keys : list Key) (queued : bool)
    : option (World * Mutexes * (list Key * bool + unit)) :=
  match keys with
  | [] => Some (w, m, inr ())
  | key :: keys' =>
      match attempt m key OLoop queued with
      | Acquired => Some ((save_one w key).1, passed m key queued, inl (keys', false))
      | Enqueued => Some (w, enqueue m key OLoop, inl (keys, true))
      | Blocked => None
      end
  end.

Definition set_loop (s : Locks) (w : World) (m : Mutexes) (pc : LoopPc) : Locks :=
  mk_Locks w (lk_cells s) (lk_backoff s) m pc (lk_calls s).

(** The loop goes on from its saved checkpoints. *)
Definition go_on (s : Locks) (w : World) (m : Mutexes) (next : After) : Locks :=
  match next with
  | ThenReturn => set_loop s w m (LFinished (Ok ()))
  | ThenReconnect =>
      mk_Locks w (lk_cells s)
        (if caught_up (lk_cells s) then reconnect_base_delay (live_config w) else lk_backoff s)
        m LTop (lk_calls s)
  | ThenBackoff => set_loop s w m LErrorBackoff
  end.

(** The loop's own body, up to its next await. *)
Definition loop_turn (s : Locks) : option (Locks * list LockEvent) :=
  let w := lk_store s in
  let m := lk_mutexes s in
  match lk_loop s with
  | LTop =>
      if shutdown_signal (lk_cells s) then Some (set_loop s w m (LSaving (all_keys w) false ThenReturn), [])
      else Some (set_loop s w m (LMinimum (all_keys w) false u64_MAX), [])
  | LMinimum [] _ min_pos =>
      Some (set_loop s w m (LSubscribing (if min_pos =? u64_MAX then 0 else min_pos)), [])
  | LMinimum (key :: keys) queued min_pos =>
      match attempt m key OLoop queued with
      | Acquired =>
          Some (set_loop s w (passed m key queued)
                  (LMinimum keys false (N.min min_pos (default 0 (position_of w key)))), [])
      | Enqueued => Some (set_loop s w (enqueue m key OLoop) (LMinimum (key :: keys) true min_pos), [])
      | Blocked => None
      end
  | LSubscribing from =>
      match subscribe_all_from (client w) from with
      | (c, Ok stream) =>
          Some (set_loop s (set_client w c) m (LStreaming (SReading stream) None), [])
      | (c, Err _) => Some (set_loop s (set_client w c) m LSubscribeBackoff, [])
      | (c, Panic) => Some (set_loop s (set_client w c) m (LFinished Panic), [])
      end
  | LStreaming sp (Some (keys, queued, returns)) =>
      match save_turn w m keys queued with
      | Some (w1, m1, inl (keys1, queued1)) =>
          Some (set_loop s w1 m1 (LStreaming sp (Some (keys1, queued1, returns))), [])
      | Some (w1, m1, inr _) =>
          if (returns : bool) then
            Some (set_loop s w1 (forget OStream m1) (LFinished (Ok ())), [Lost (stream_pending sp)])
          else Some (set_loop s w1 m1 (LStreaming sp None), [])
      | None => None
      end
  | LSaving keys queued next =>
      match save_turn w m keys queued with
      | Some (w1, m1, inl (keys1, queued1)) => Some (set_loop s w1 m1 (LSaving keys1 queued1 next), [])
      | Some (w1, m1, inr _) => Some (go_on s w1 m1 next, [])
      | None => None
      end
  | _ => None
  end.

(** The retry delay elapses. *)
Definition delay_elapsed (s : Locks) : Locks :=
  match next_backoff (live_config (lk_store s)) (lk_backoff s) with
  | Ok d => mk_Locks (lk_store s) (lk_cells s) d (lk_mutexes s) LTop (lk_calls s)
  | _ => set_loop s (lk_store s) (lk_mutexes s) (LFinished Panic)
  end.

(** ** The steps of the whole

    The stream's future is polled, the loop's body goes on, the checkpoint
    timer or the shutdown branch of the [select!] wins, a delay elapses, the
    shutdown signal is sent; a call begins, goes on, or is dropped. *)
Inductive LockLabel :=
| PollStream | LoopTurn | TimerTick | StopBranch | DelayElapsed | SendSignal
| NewCall (c : Ask) | CallTurn (k : nat) | DropCall (k n : nat).

Definition lock_next (s : Locks) (l : LockLabel) : option (Locks * list LockEvent) :=
  let w := lk_store s in
  let m := lk_mutexes s in
  match l with
  | PollStream =>
      match lk_loop s with
      | LStreaming sp None =>
          '(w1, cells, m1, polled, h) ← stream_turn w (lk_cells s) m sp;
          Some (mk_Locks w1 cells (lk_backoff s) m1
                  (match polled with
                   | StillIn sp1 => LStreaming sp1 None
                   | Left next => LSaving (all_keys w1) false next
                   | Panicked => LFinished Panic
                   end) (lk_calls s), h)
      | _ => None
      end
  | LoopTurn => loop_turn s
  | TimerTick =>
      match lk_loop s with
      | LStreaming sp None =>
          Some (set_loop s w m (LStreaming sp (Some (all_keys w, false, false))), [])
      | _ => None
      end
  | StopBranch =>
      if shutdown_signal (lk_cells s) then
        match lk_loop s with
        | LStreaming sp None =>
            Some (set_loop s w m (LStreaming sp (Some (all_keys w, false, true))), [])
        | LSubscribeBackoff => Some (set_loop s w m (LSaving (all_keys w) false ThenReturn), [])
        | LErrorBackoff => Some (set_loop s w m (LFinished (Ok ())), [])
        | _ => None
        end
      else None
  | DelayElapsed =>
      match lk_loop s with
      | LSubscribeBackoff | LErrorBackoff => Some (delay_elapsed s, [])
      | _ => None
      end
  | SendSignal =>
      Some (mk_Locks w (send_shutdown (lk_cells s)) (lk_backoff s) m (lk_loop s) (lk_calls s), [])
  | NewCall c =>
      Some (mk_Locks w (lk_cells s) (lk_backoff s) m (lk_loop s) (lk_calls s ++ [begin_call w c]), [])
  | CallTurn k =>
      pc ← lk_calls s !! k;
      '(w1, m1, pc1, h) ← call_turn w m k pc;
      Some (mk_Locks w1 (lk_cells s) (lk_backoff s) m1 (lk_loop s) (<[k := pc1]> (lk_calls s)), h)
  | DropCall k n =>
      pc ← lk_calls s !! k;
      match pc with
      | Over _ => None
      | _ =>
          let '(w1, m1) := drop_call w m k pc n in
          Some (mk_Locks w1 (lk_cells s) (lk_backoff s) m1 (lk_loop s)
                  (<[k := Over Dropped]> (lk_calls s)),
                match pc with
                | CatchUpHolding _ _ => [CatchUpFailed; Lost (call_pending pc)]
                | _ => [Lost (call_pending pc)]
                end)
      end
  end.

(** A run along a list of steps, when nobody else writes. *)
Fixpoint lock_run (s : Locks) (ls : list LockLabel) : option (list LockEvent * Locks) :=
  match ls with
  | [] => Some ([], s)
  | l :: ls' =>
      '(s1, h1) ← lock_next s l; '(h2, s2) ← lock_run s1 ls'; Some (h1 ++ h2, s2)
  end.

(** A run in which other writers change what is behind the client between any
    two steps. *)
Context (extends : Store → Store → Prop).

Definition set_lock_client (s : Locks) (c : Store) : Locks :=
  mk_Locks (set_client (lk_store s) c) (lk_cells s) (lk_backoff s) (lk_mutexes s)
    (lk_loop s) (lk_calls s).

Inductive lock_trace (s0 : Locks) : list LockEvent → Locks → Prop :=
| lock_trace_start : lock_trace s0 [] s0
| lock_trace_step h s l s' h' :
    lock_trace s0 h s → lock_next s l = Some (s', h') → lock_trace s0 (h ++ h') s'
| lock_trace_writer h s c :
    lock_trace s0 h s → extends (client (lk_store s)) c → lock_trace s0 h (set_lock_client s c).
End locks.
