(* ===== verification/Shutdown.v ===== *)
(** [src/live.rs], [LiveHandle::shutdown]: several callers, on clones of one
    handle, may ask the live loop to stop.  Each sends the signal, takes the
    task out of the handle if it is still there, and awaits it; a step of a call
    is what it does between two awaits.  The calls interleave with the loop, and
    a caller may drop its call. *)
From S2P Require Import Prelude Std Deps Command Errors Aggregate Proto Event EventStore.
From S2P Require Import Snapshot Actor Cursor Projection ProcessManager LiveTypes Store Live.
Open Scope N_scope.

Section shutdown.
Context {J : SerdeJson} {U : UuidOps} {T : Tonic}.
Context {Store : Type} {ES : EventStoreOps Store} {EL : EventLogOps Store}.
Context {F : Type} {FS : FileSystem F} {SD : Serde DeadLetterEntry}.
Context {TypeId : Type} `{!EqDecision TypeId, !Countable TypeId}.
Context {Agg : TypeId → Type} {AG : ∀ t, Aggregate (Agg t)}.
Context {CD : ∀ t, CommandDe (Agg t)} {SA : ∀ t, Serde (Snapshot (Agg t))}.
Context {ProjId : Type} `{!EqDecision ProjId}.
Context {Proj : ProjId → Type} {PJ : ∀ p, Projection (Proj p)}.
Context {SP : ∀ p, Serde (ProjectionCheckpoint (Proj p))}.
Context {PmId : Type} {Pm : PmId → Type} {PMC : ∀ q, ProcessManager (Pm q)}.
Context {SM : ∀ q, Serde (ProcessManagerCheckpoint (Pm q))}.

Abbreviation World := (AggregateStore (Store := Store) (F := F) (TypeId := TypeId)
  (Agg := Agg) (ProjId := ProjId) (Proj := Proj) (PmId := PmId) (Pm := Pm)).
Abbreviation Live := (Live (Store := Store) (F := F) (TypeId := TypeId)
  (Agg := Agg) (ProjId := ProjId) (Proj := Proj) (PmId := PmId) (Pm := Pm)).

(** Tokio's message for a task that panicked. *)
Context (join_error : string).

(** Awaiting the [JoinHandle]: ready when the task has ended. *)
Definition join_task (pc : Pc) : option (io_result unit) :=
  match pc with
  | Finished (Ok _) => Some (Ok ())
  | Finished (Err e) => Some (Err e)
  | Finished Panic => Some (Err (io_other ("live loop task panicked: " ++ join_error)))
  | _ => None
  end.

(** Where a call is: not begun, in [self.task.lock()], in the await of the task
    it took, and over; or its future was dropped. *)
Inductive ShutdownCall :=
| Signalling
| Locking
| Joining
| Returned (r : io_result unit)
| Dropped.

(** The loop, whether the handle still has the task, and the calls. *)
Record Handle := mk_Handle {
  hd_loop : Live;
  hd_task : bool;
  hd_calls : list ShutdownCall;
}.

(** [start_live]: the task is in the handle, nobody has called. *)
Definition handle_init (w : World) : Handle := mk_Handle (live_init w) true [].

(** A call runs to its next await. *)
Definition shutdown (h : Handle) (call : ShutdownCall) : option (Live * bool * ShutdownCall) :=
  match call with
  | Signalling => Some (signal_shutdown (hd_loop h), hd_task h, Locking)
  | Locking =>
      Some (hd_loop h, false, if hd_task h then Joining else Returned (Ok ()))
  | Joining => r ← join_task (lv_pc (hd_loop h)); Some (hd_loop h, hd_task h, Returned r)
  | Returned _ | Dropped => None
  end.

(** The loop makes a step (the signal is sent by the calls only), somebody
    calls, a call goes on, a call is dropped. *)
Inductive HandleLabel :=
| HLoop (l : Label)
| HCall
| HTurn (k : nat)
| HDrop (k : nat).

Definition handle_next (h : Handle) (l : HandleLabel) : option Handle :=
  match l with
  | HLoop LSignal => None
  | HLoop l => s ← live_next (hd_loop h) l; Some (mk_Handle s (hd_task h) (hd_calls h))
  | HCall => Some (mk_Handle (hd_loop h) (hd_task h) (hd_calls h ++ [Signalling]))
  | HTurn k =>
      call ← hd_calls h !! k;
      '(s, task, call') ← shutdown h call;
      Some (mk_Handle s task (<[k := call']> (hd_calls h)))
  | HDrop k =>
      call ← hd_calls h !! k;
      match call with
      | Returned _ => None
      | _ => Some (mk_Handle (hd_loop h) (hd_task h) (<[k := Dropped]> (hd_calls h)))
      end
  end.

Fixpoint handle_run (h : Handle) (ls : list HandleLabel) : option Handle :=
  match ls with
  | [] => Some h
  | l :: ls' => h' ← handle_next h l; handle_run h' ls'
  end.
End shutdown.
