(* ===== verification/Builder.v ===== *)
(** [src/store.rs], the [AggregateStoreBuilder]: what is registered, and how
    [open] turns it into a store.  Establishing the channel is [connect_to], a
    parameter ([tonic]); the fixed registries of a fresh store come from it. *)
From S2P Require Import Prelude Std Deps Command Errors Aggregate Proto Event EventStore Auth.
From S2P Require Import Snapshot Actor Cursor Projection ProcessManager LiveTypes Store.
Open Scope N_scope.

Section builder.
Context {J : SerdeJson} {U : UuidOps} {T : Tonic}.
Context {Store : Type} {ES : EventStoreOps Store} {EL : EventLogOps Store}.
Context {F : Type} {FS : FileSystem F} {SD : Serde DeadLetterEntry}.
Context {TypeId : Type} `{!EqDecision TypeId, !Countable TypeId}.
Context {Agg : TypeId → Type} {AG : ∀ t, Aggregate (Agg t)}.
Context {ProjId : Type} `{!EqDecision ProjId}.
Context {Proj : ProjId → Type} {PJ : ∀ p, Projection (Proj p)}.
Context {SP : ∀ p, Serde (ProjectionCheckpoint (Proj p))}.
Context {PmId : Type} {Pm : PmId → Type} {PMC : ∀ q, ProcessManager (Pm q)}.
Context {SM : ∀ q, Serde (ProcessManagerCheckpoint (Pm q))}.

Abbreviation AnyProjection := (sigT (λ p : ProjId, ProjectionRunner (Proj p))).
Abbreviation AnyPm := (sigT (λ q : PmId, ProcessManagerRunner (Pm q))).
Abbreviation World := (AggregateStore (Store := Store) (F := F) (TypeId := TypeId)
  (Agg := Agg) (ProjId := ProjId) (Proj := Proj) (PmId := PmId) (Pm := Pm)).

(** A factory is the type it builds a runner for. *)
Record AggregateStoreBuilder := mk_Builder {
  b_endpoint : option string;
  b_base_dir : option path;
  b_auth_token : option TokenLock;
  projection_factories : list (string * ProjId);
  process_manager_factories : list (string * PmId);
  dispatcher_factories : list (string * TypeId);
  b_idle_timeout : N;
  b_live_config : LiveConfig;
}.

Definition builder_new : AggregateStoreBuilder :=
  mk_Builder None None None [] [] [] DEFAULT_IDLE_TIMEOUT LiveConfig_default.

Definition endpoint (b : AggregateStoreBuilder) (url : string) : AggregateStoreBuilder :=
  mk_Builder (Some url) (b_base_dir b) (b_auth_token b) (projection_factories b)
    (process_manager_factories b) (dispatcher_factories b) (b_idle_timeout b) (b_live_config b).
Definition auth_token (b : AggregateStoreBuilder) (l : TokenLock) : AggregateStoreBuilder :=
  mk_Builder (b_endpoint b) (b_base_dir b) (Some l) (projection_factories b)
    (process_manager_factories b) (dispatcher_factories b) (b_idle_timeout b) (b_live_config b).
Definition builder_base_dir (b : AggregateStoreBuilder) (p : path) : AggregateStoreBuilder :=
  mk_Builder (b_endpoint b) (Some p) (b_auth_token b) (projection_factories b)
    (process_manager_factories b) (dispatcher_factories b) (b_idle_timeout b) (b_live_config b).
Definition with_aggregate_type (b : AggregateStoreBuilder) (t : TypeId) : AggregateStoreBuilder :=
  mk_Builder (b_endpoint b) (b_base_dir b) (b_auth_token b) (projection_factories b)
    (process_manager_factories b)
    (dispatcher_factories b ++ [(AGGREGATE_TYPE (Agg t), t)])
    (b_idle_timeout b) (b_live_config b).
Definition with_projection (b : AggregateStoreBuilder) (p : ProjId) : AggregateStoreBuilder :=
  mk_Builder (b_endpoint b) (b_base_dir b) (b_auth_token b)
    (projection_factories b ++ [(PROJ_NAME (Proj p), p)])
    (process_manager_factories b) (dispatcher_factories b) (b_idle_timeout b) (b_live_config b).
Definition with_process_manager (b : AggregateStoreBuilder) (q : PmId) : AggregateStoreBuilder :=
  mk_Builder (b_endpoint b) (b_base_dir b) (b_auth_token b) (projection_factories b)
    (process_manager_factories b ++ [(PM_NAME (Pm q), q)])
    (dispatcher_factories b) (b_idle_timeout b) (b_live_config b).
Definition with_idle_timeout (b : AggregateStoreBuilder) (d : N) : AggregateStoreBuilder :=
  mk_Builder (b_endpoint b) (b_base_dir b) (b_auth_token b) (projection_factories b)
    (process_manager_factories b) (dispatcher_factories b) d (b_live_config b).
Definition with_live_config (b : AggregateStoreBuilder) (c : LiveConfig) : AggregateStoreBuilder :=
  mk_Builder (b_endpoint b) (b_base_dir b) (b_auth_token b) (projection_factories b)
    (process_manager_factories b) (dispatcher_factories b) (b_idle_timeout b) c.

(** [Default::default]. *)
Definition builder_default : AggregateStoreBuilder := builder_new.

(** The builders a program can have: the fields are private, so one of these
    calls made it. *)
Inductive configured : AggregateStoreBuilder → Prop :=
| by_new : configured builder_new
| by_default : configured builder_default
| by_endpoint b url : configured b → configured (endpoint b url)
| by_auth_token b l : configured b → configured (auth_token b l)
| by_base_dir b p : configured b → configured (builder_base_dir b p)
| by_aggregate_type b t : configured b → configured (with_aggregate_type b t)
| by_projection b p : configured b → configured (with_projection b p)
| by_process_manager b q : configured b → configured (with_process_manager b q)
| by_idle_timeout b d : configured b → configured (with_idle_timeout b d)
| by_live_config b c : configured b → configured (with_live_config b c).

(** The factory closures: the checkpoint directory, and the runner. *)
Definition projection_factory (f : F) (base_dir : path) (p : ProjId)
    : io_result AnyProjection :=
  let? runner := runner_new (P := Proj p) f
                   (join (join base_dir "projections") (PROJ_NAME (Proj p))) in
  Ok (existT p runner).
Definition process_manager_factory (f : F) (base_dir : path) (q : PmId) : io_result AnyPm :=
  let? runner := pm_runner_new (PM := Pm q) f
                   (join (join base_dir "process_managers") (PM_NAME (Pm q))) in
  Ok (existT q runner).

(** The two initialisation loops: an [Err] hits the [expect]. *)
Fixpoint init_projections (f : F) (base_dir : path) (l : list (string * ProjId))
    (acc : gmap string AnyProjection) : option (gmap string AnyProjection) :=
  match l with
  | [] => Some acc
  | (name, p) :: l' =>
      match projection_factory f base_dir p with
      | Ok runner => init_projections f base_dir l' (<[name := runner]> acc)
      | _ => None
      end
  end.

Fixpoint init_process_managers (f : F) (base_dir : path) (l : list (string * PmId))
    : option (list AnyPm) :=
  match l with
  | [] => Some []
  | (_, q) :: l' =>
      match process_manager_factory f base_dir q with
      | Ok runner =>
          match init_process_managers f base_dir l' with
          | Some runners => Some (runner :: runners)
          | None => None
          end
      | _ => None
      end
  end.

Definition init_dispatchers (l : list (string * TypeId)) : gmap string TypeId :=
  foldl (λ m '(name, t), <[name := t]> m) ∅ l.

(** [open]: [connect_to endpoint token] is the connection ([connect] without
    a token, [connect_with_token] with one); [temp_dir] is the system's. *)
Definition open {TransportError : Type}
    (connect_to : string → option TokenLock → result Store TransportError)
    (temp_dir : path) (f : F) (g : Rng) (now : option N) (b : AggregateStoreBuilder)
    : result World TransportError :=
  let endpoint := default "http://127.0.0.1:2113" (b_endpoint b) in
  let? client := connect_to endpoint (b_auth_token b) in
  let base_dir := default (join temp_dir "eventfold-es") (b_base_dir b) in
  let? projections := expect (init_projections f base_dir (projection_factories b) ∅) in
  let? process_managers :=
    expect (init_process_managers f base_dir (process_manager_factories b)) in
  let dispatchers := init_dispatchers (dispatcher_factories b) in
  Ok (mk_AggregateStore client f g now base_dir ∅ ∅ 0 projections process_managers
        dispatchers (b_idle_timeout b) (b_live_config b) None).
End builder.
