(* ===== verification/System.v ===== *)
(** The system as its users see it: one process with an aggregate store, the
    calls an application makes on it ([src/store.rs], [src/actor.rs]), its live
    loop ([src/live.rs]), actors that stop when they are idle, other writers on
    the same event store, and restarts of the process.  A call is one step; the live loop's steps are those of
    [Live]; all of them interleave freely. *)
From S2P Require Import Prelude Std Deps Command Errors Aggregate Proto Event EventStore Auth.
From S2P Require Import Snapshot Actor Cursor Projection ProcessManager LiveTypes Store.
From S2P Require Import Live Builder.
Open Scope N_scope.

Section system.
Context {J : SerdeJson} {U : UuidOps} {T : Tonic}.
Context {Store : Type} {ES : EventStoreOps Store} {EL : EventLogOps Store}.
Context {F : Type} {FS : FileSystem F} {SD : Serde DeadLetterEntry}.
Context {TypeId : Type} `{!EqDecision TypeId, !Countable TypeId}.
Context {Agg : TypeId → Type} {AG : ∀ t, Aggregate (Agg t)}.
Context {CD : ∀ t, CommandDe (Agg t)} {SA : ∀ t, Serde (Snapshot (Agg t))}.
Context {ProjId : Type} `{!EqDecision ProjId}.
Context {Proj : ProjId → Type} {PJ : ∀ p, Projection (Proj p)}.
Context {SP : ∀ p, Serde (ProjectionCheckpoint (Proj p))}.
Context {PmId : Type} {Pm : PmId → Type} {PMC : ∀ q, ProcessManager (Pm q)}.
Context {SM : ∀ q, Serde (ProcessManagerCheckpoint (Pm q))}.

Abbreviation World := (AggregateStore (Store := Store) (F := F) (TypeId := TypeId)
  (Agg := Agg) (ProjId := ProjId) (Proj := Proj) (PmId := PmId) (Pm := Pm)).
Abbreviation Live := (Live (Store := Store) (F := F) (TypeId := TypeId)
  (Agg := Agg) (ProjId := ProjId) (Proj := Proj) (PmId := PmId) (Pm := Pm)).
Abbreviation Builder := (AggregateStoreBuilder (TypeId := TypeId) (ProjId := ProjId)
  (PmId := PmId)).

(** What an application calls: [get] and [execute], [get] and [state],
    [inject_event], [projection], [live_projection], [run_process_managers]. *)
Inductive Call :=
| CallExecute (t : TypeId) (id : string) (cmd : Command (Agg t)) (ctx : CommandContext)
| CallState (t : TypeId) (id : string)
| CallInject (t : TypeId) (id : string) (proposed : ProposedEventData) (opts : InjectOptions)
| CallProjection (p : ProjId)
| CallLiveProjection (p : ProjId)
| CallRunProcessManagers.

(** The store a call leaves behind. *)
Definition perform (w : World) (c : Call) : World :=
  match c with
  | CallExecute t id cmd ctx =>
      match get w t id with
      | (w1, Ok handle) => (store_execute w1 t handle cmd ctx).1
      | (w1, _) => w1
      end
  | CallState t id => (get w t id).1
  | CallInject t id proposed opts => (inject_event w t id proposed opts).1
  | CallProjection p => (projection w p).1
  | CallLiveProjection p => (live_projection w p).1
  | CallRunProcessManagers => (run_process_managers w).1
  end.

(** A store that is open and not live. *)
Definition not_live (w : World) : Live :=
  mk_Live w LiveHandle_new (reconnect_base_delay (live_config w)) (Finished (Ok ())).

(** The instances that stop and start again in the system: no instance in use
    has the snapshot file of the stopping one, unless it is that one. *)
Context {IN : InUse TypeId}.

Definition alone (base : path) (t : TypeId) (id : string) : Prop :=
  ∀ t' id', in_use t' id' →
    snapshot_path base (AGGREGATE_TYPE (Agg t')) id' =
    snapshot_path base (AGGREGATE_TYPE (Agg t)) id → t' = t ∧ id' = id.

(** The step relation.  An actor stops in order when its snapshot file is its
    own and its stream is not empty (see [snapshot_shared_between_instances] and
    [empty_stream_snapshot_poisons] for the two other cases).  [extends] says how other writers change what is behind
    a client. *)
Context (extends : Store → Store → Prop).

Inductive sys_step : Live → Live → Prop :=
| sys_call s c :
    sys_step s (with_store s (perform (lv_store s) c))
| sys_loop s l s' :
    live_next s l = Some s' → sys_step s s'
| sys_start_live s w handle :
    start_live (lv_store s) = (w, Ok handle) → sys_step s (live_init w)
| sys_idle s t id h :
    cache (lv_store s) !! (t, id) = Some (existT t h) →
    alone (store_base_dir (lv_store s)) t id →
    (∀ a, task_of (lv_store s) t h = Running a → is_Some (st_version a)) →
    sys_step s (with_store s (evict_idle (lv_store s) t h))
| sys_writer s c :
    extends (client (lv_store s)) c →
    sys_step s (with_store s (set_client (lv_store s) c))
| sys_restart {TransportError} connect_to temp_dir g now (b : Builder) s (w : World) :
    configured b →
    open (TransportError := TransportError) connect_to temp_dir (fs (lv_store s)) g now b = Ok w →
    extends (client (lv_store s)) (client w) →
    store_base_dir w = store_base_dir (lv_store s) →
    sys_step s (not_live w).
End system.
