(* ===== verification/Counter.v ===== *)
(** [examples/counter.rs]: the example program.  Its counter aggregate, its
    [TotalCounter] read model, and [main], which opens a store, sends commands
    to two counters, reads their states and the totals back and asserts them.
    The serde derives of its types are parameters. *)
From S2P Require Import Prelude Std Deps Command Errors Aggregate Proto Event EventStore Auth.
From S2P Require Import Snapshot Actor Cursor Projection ProcessManager LiveTypes Store.
From S2P Require Import Builder.
Open Scope Z_scope.

(** ** 64-bit signed integers

    An [i64] is a [Z] from [-2^63] to [2^63 - 1]; sums wrap, as in a release
    build. *)
Definition i64_MAX : Z := 9223372036854775807.
Definition i64_wrap (z : Z) : Z :=
  (z + 9223372036854775808) mod 18446744073709551616 - 9223372036854775808.

(** ** The aggregate *)
Module CounterExample.
Record Counter := mk_Counter { value : Z }.

Definition Counter_default : Counter := mk_Counter 0.

Inductive CounterCommand := Increment | Decrement | Reset.

Inductive CounterEvent := Incremented | Decremented | WasReset (previous : Z).

Inductive CounterError := AlreadyZero | NothingToReset.

Definition counter_error_display (e : CounterError) : string :=
  match e with
  | AlreadyZero => "counter is already zero, cannot decrement"
  | NothingToReset => "counter is already zero, nothing to reset"
  end.

Definition counter_handle (c : Counter) (cmd : CounterCommand)
    : result (list CounterEvent) CounterError :=
  match cmd with
  | Increment => Ok [Incremented]
  | Decrement => if value c <=? 0 then Err AlreadyZero else Ok [Decremented]
  | Reset => if value c =? 0 then Err NothingToReset else Ok [WasReset (value c)]
  end.

Definition counter_apply (c : Counter) (e : CounterEvent) : Counter :=
  match e with
  | Incremented => mk_Counter (i64_wrap (value c + 1))
  | Decremented => mk_Counter (i64_wrap (value c - 1))
  | WasReset _ => mk_Counter 0
  end.

(** ** The read model *)
Record TotalCounter := mk_TotalCounter {
  total_increments : N;
  total_decrements : N;
  total_resets : N;
}.

Definition TotalCounter_default : TotalCounter := mk_TotalCounter 0 0 0.

Definition total_apply {J : SerdeJson} {U : UuidOps} (t : TotalCounter) (event : StoredEvent) : TotalCounter :=
  if negb (String.eqb (aggregate_type event) "counter") then t
  else if String.eqb (event_type event) "Incremented" then
    mk_TotalCounter (u64_add (total_increments t) 1) (total_decrements t) (total_resets t)
  else if String.eqb (event_type event) "Decremented" then
    mk_TotalCounter (total_increments t) (u64_add (total_decrements t) 1) (total_resets t)
  else if String.eqb (event_type event) "WasReset" then
    mk_TotalCounter (total_increments t) (total_decrements t) (u64_add (total_resets t) 1)
  else t.
End CounterExample.
Import CounterExample.

Section example.
Context {J : SerdeJson} {U : UuidOps} {T : Tonic}.

(** [#[derive(Serialize, Deserialize)]] on [CounterEvent]. *)
Class CounterSerde := {
  example_event_to_value : CounterEvent → result Value JsonError;
  example_event_from_value : Value → result CounterEvent JsonError;
}.
Context {CS : CounterSerde}.

#[export] Instance Counter_aggregate : Aggregate Counter := {|
  AGGREGATE_TYPE := "counter";
  Command := CounterCommand;
  DomainEvent := CounterEvent;
  DomainError := CounterError;
  error_display := counter_error_display;
  agg_default := Counter_default;
  handle := counter_handle;
  apply := counter_apply;
  event_to_value := example_event_to_value;
  event_from_value := example_event_from_value;
|}.

#[export] Instance TotalCounter_projection : Projection TotalCounter := {|
  PROJ_NAME := "total-counter";
  proj_default := TotalCounter_default;
  proj_apply := total_apply;
|}.

(** ** [main] *)
Context {Store : Type} {ES : EventStoreOps Store} {EL : EventLogOps Store}.
Context {F : Type} {FS : FileSystem F} {SD : Serde DeadLetterEntry}.
Context {SC : Serde (Snapshot Counter)} {ST : Serde (ProjectionCheckpoint TotalCounter)}.

(** The one aggregate and the one projection of the program. *)
Definition ExAgg (_ : unit) : Type := Counter.
Definition ExProj (_ : unit) : Type := TotalCounter.
Definition ExPm (_ : Empty_set) : Type := unit.
#[export] Instance ExAgg_aggregate (t : unit) : Aggregate (ExAgg t) := Counter_aggregate.
#[export] Instance ExAgg_serde (t : unit) : Serde (Snapshot (ExAgg t)) := SC.
#[export] Instance ExProj_projection (p : unit) : Projection (ExProj p) := TotalCounter_projection.
#[export] Instance ExProj_serde (p : unit) : Serde (ProjectionCheckpoint (ExProj p)) := ST.
#[export] Instance ExPm_pm (q : Empty_set) : ProcessManager (ExPm q) := match q with end.
#[export] Instance ExPm_serde (q : Empty_set) : Serde (ProcessManagerCheckpoint (ExPm q)) :=
  match q with end.

Abbreviation World := (AggregateStore (Store := Store) (F := F) (TypeId := unit)
  (Agg := ExAgg) (ProjId := unit) (Proj := ExProj) (PmId := Empty_set) (Pm := ExPm)).

(** [Box<dyn std::error::Error>], by the call whose error it boxes. *)
Inductive MainError {TransportError : Type} :=
| TempDirError (e : io_error)
| OpenError (e : TransportError)
| GetError (e : Status)
| CommandError (e : ExecuteError CounterError)
| ReadError (e : StateError)
| ProjectionError (e : io_error).
Arguments MainError : clear implicits.

Section main.
Context {TransportError : Type}.
Abbreviation Main X := (World → World * result X (MainError TransportError)).

(** A call on the store whose error [?] boxes, and the sequence of two. *)
Definition boxed {X E} (box : E → MainError TransportError) (call : World → World * result X E)
    : Main X :=
  λ w, let '(w', r) := call w in (w', map_err box r).

Definition and_then {X Y} (m : Main X) (k : X → Main Y) : Main Y :=
  λ w,
    match m w with
    | (w', Ok x) => k x w'
    | (w', Err e) => (w', Err e)
    | (w', Panic) => (w', Panic)
    end.
Notation "x <~ m ;; k" := (and_then m (λ x, k)) (at level 100, m at next level, right associativity).

(** [assert_eq!] and [assert!]. *)
Definition assert_that (b : bool) : Main unit := λ w, (w, if b then Ok () else Panic).

Definition get_counter (id : string) : Main (AggregateHandle tt) :=
  boxed GetError (λ w, get w tt id).
Definition send_command (h : AggregateHandle tt) (cmd : CounterCommand) (ctx : CommandContext)
    : Main (list CounterEvent) :=
  boxed CommandError (λ w, store_execute w tt h cmd ctx).
Definition read_state (h : AggregateHandle tt) : Main Counter :=
  boxed ReadError (λ w, (w, store_state w tt h)).
Definition read_totals : Main TotalCounter :=
  boxed ProjectionError (λ w, projection w tt).

(** [main] after [open]. *)
Definition main_body : Main unit :=
  let ctx := with_actor CommandContext_default "example-runner" in
  alpha <~ get_counter "alpha" ;;
  _ <~ send_command alpha Increment ctx ;;
  _ <~ send_command alpha Increment ctx ;;
  _ <~ send_command alpha Increment ctx ;;
  beta <~ get_counter "beta" ;;
  _ <~ send_command beta Increment ctx ;;
  _ <~ send_command beta Decrement ctx ;;
  _ <~ send_command beta Increment ctx ;;
  _ <~ send_command alpha Reset ctx ;;
  alpha_state <~ read_state alpha ;;
  beta_state <~ read_state beta ;;
  totals <~ read_totals ;;
  _ <~ assert_that (value alpha_state =? 0) ;;
  _ <~ assert_that (value beta_state =? 1) ;;
  _ <~ assert_that (N.eqb (total_increments totals) 5) ;;
  _ <~ assert_that (N.eqb (total_decrements totals) 1) ;;
  assert_that (N.eqb (total_resets totals) 1).

Definition main_builder (tmp : path)
    : AggregateStoreBuilder (TypeId := unit) (ProjId := unit) (PmId := Empty_set) :=
  with_projection (Proj := ExProj)
    (builder_base_dir (endpoint builder_new "http://127.0.0.1:2113") tmp) tt.

(** The store [main] leaves behind, if it opened one, and what it returns. *)
Definition main (connect_to : string → option TokenLock → result Store TransportError)
    (tempdir : io_result path) (temp_dir : path) (f : F) (g : Rng) (now : option N)
    : option World * result unit (MainError TransportError) :=
  match tempdir with
  | Err e => (None, Err (TempDirError e))
  | Panic => (None, Panic)
  | Ok tmp =>
      match open (Agg := ExAgg) (Proj := ExProj) (Pm := ExPm)
              connect_to temp_dir f g now (main_builder tmp) with
      | Err e => (None, Err (OpenError e))
      | Panic => (None, Panic)
      | Ok store => let '(store', r) := main_body store in (Some store', r)
      end
  end.
End main.
End example.
