(* ===== verification/Demo.v ===== *)
(** Concrete instances of every parameter of the development, with proofs of
    their laws: a JSON-like value type with a printer and a parser, identifiers,
    statuses, an in-memory file system that can fail, and an in-memory event
    store in which other writers act between the calls.  They show that the
    classes can be inhabited and let the theorems be evaluated on concrete
    inputs; no theorem about the crate depends on them. *)
From Stdlib Require Import Strings.Byte Strings.Ascii Strings.String Sorting.Sorted.
From stdpp Require Import countable pretty sorting.
From S2P Require Import Prelude Std Deps Command Errors Aggregate Proto Event Auth EventStore.
From S2P Require Import Client Snapshot Actor Cursor Projection ProcessManager.
Open Scope N_scope.

(** ** Printing countable types as text *)
Fixpoint bits (p : positive) : bytes :=
  match p with
  | xH => []
  | xO p => "0"%byte :: bits p
  | xI p => "1"%byte :: bits p
  end.

Fixpoint unbits (b : bytes) : option positive :=
  match b with
  | [] => Some xH
  | c :: b => if Byte.eqb c "0"%byte then xO <$> unbits b
              else if Byte.eqb c "1"%byte then xI <$> unbits b else None
  end.

Definition print {A} `{Countable A} (x : A) : bytes := "v"%byte :: bits (encode x).
Definition scan {A} `{Countable A} (b : bytes) : option A :=
  match b with
  | c :: b => if Byte.eqb c "v"%byte then unbits b ≫= decode else None
  | [] => None
  end.

(** ** JSON values: [null], strings, numbers and objects *)
Abbreviation JValue := (gen_tree (option string + N)).

Definition j_num (n : N) : JValue := GenLeaf (inr n).

Fixpoint j_fields (l : list (string * JValue)) : list JValue :=
  match l with
  | [] => []
  | (k, v) :: l => GenLeaf (inl (Some k)) :: v :: j_fields l
  end.

Fixpoint j_lookup (l : list JValue) (k : string) : option JValue :=
  match l with
  | GenLeaf (inl (Some k')) :: v :: l => if decide (k' = k) then Some v else j_lookup l k
  | _ => None
  end.

#[export] Instance demo_json : SerdeJson := {|
  Value := JValue;
  JsonMap := list JValue;
  JsonError := string;
  json_error_display e := e;
  Null := GenLeaf (inl None);
  is_null v := match v with GenLeaf (inl None) => true | _ => false end;
  as_str v := match v with GenLeaf (inl (Some s)) => Some s | _ => None end;
  as_object v := match v with GenNode 1 l => Some l | _ => None end;
  map_get := j_lookup;
  json_str s := GenLeaf (inl (Some s));
  json_obj l := GenNode 1 (j_fields l);
  json_num := j_num;
  as_u64 v := match v with GenLeaf (inr n) => Some n | _ => None end;
  data_error := "invalid type";
  to_vec v := Ok (print v);
  to_vec_pretty v := Ok (print v);
  from_str s := match scan (as_bytes s) with Some v => Ok v | None => Err "expected value" end;
|}.

(** Files: the same printer, on any countable type. *)
Definition demo_serde (X : Type) `{Countable X} : Serde X := {|
  to_json_bytes x := Ok (print x);
  from_json_bytes b := match scan b with Some x => Ok x | None => Err "expected value" end;
|}.

(** ** Identifiers and statuses *)
#[export] Instance demo_uuid : UuidOps := {|
  Uuid := string;
  uuid_from_bytes _ := "ns";
  new_v5 ns b := (ns ++ ":" ++ String.string_of_list_byte b)%string;
  uuid_to_string u := String "u" u;
  parse_str s := match s with String "u" u => Some u | _ => None end;
  Rng := N;
  new_v4 g := (g + 1, pretty g);
|}.

Record DemoStatus := mk_DemoStatus { code : N; text : string }.

#[export] Instance demo_tonic : Tonic := {|
  Status := DemoStatus;
  code_is_failed_precondition s := code s =? 9;
  code_is_not_found s := code s =? 5;
  status_internal := mk_DemoStatus 13;
  status_cancelled := mk_DemoStatus 1;
  status_display := text;
  MetadataValue := string;
  parse_metadata_value s :=
    if forallb (in_range 32 126) (as_bytes s) then Some s else None;
|}.

(** ** A file system in memory *)
Record MemFs := mk_MemFs { files : gmap string bytes; faults : list bool }.

(** Each call takes the next entry of the fault schedule. *)
Definition with_fault (f : MemFs) (broken ok : gmap string bytes) : MemFs * io_result unit :=
  match faults f with
  | true :: l => (mk_MemFs broken l, Err (mk_io_error (Uncategorized 5) "I/O error"))
  | false :: l => (mk_MemFs ok l, Ok ())
  | [] => (mk_MemFs ok [], Ok ())
  end.

#[export] Instance MemFs_ops : FileSystem MemFs := {|
  create_dir_all f _ := with_fault f (files f) (files f);
  fs_write f p b := with_fault f (<[p := take 1 b]> (files f)) (<[p := b]> (files f));
  fs_rename f p q :=
    match files f !! p with
    | Some b => with_fault f (files f)
                  (if decide (p = q) then files f else <[q := b]> (delete p (files f)))
    | None => (f, Err (mk_io_error NotFound "no such file"))
    end;
  fs_read f p := match files f !! p with
                 | Some b => Ok b
                 | None => Err (mk_io_error NotFound "no such file")
                 end;
  fs_append f p b :=
    with_fault f (<[p := default [] (files f !! p) ++ take 1 b]> (files f))
                 (<[p := default [] (files f !! p) ++ b]> (files f));
|}.

(** ** An event store in memory *)
Inductive Interference :=
| Quiet
| OtherWrites (sid : string) (evs : list ProposedEvent)
| Unavailable
| BreaksAfter (k : nat).

Record RefDb := mk_RefDb { entries : list (string * ProposedEvent); schedule : list Interference }.

Definition cap : nat := 1000.

Definition count_in (sid : string) (l : list (string * ProposedEvent)) : nat :=
  length (filter (λ e, e.1 = sid) l).

Fixpoint record_from (before l : list (string * ProposedEvent)) : list RecordedEvent :=
  match l with
  | [] => []
  | (sid, p) :: l' =>
      mk_RecordedEvent (pe_event_id p) sid (N.of_nat (count_in sid before))
        (N.of_nat (length before)) (pe_event_type p) (pe_metadata p) (pe_payload p)
        1700000000000
      :: record_from (before ++ [(sid, p)]) l'
  end.

Definition db_log (w : RefDb) : list RecordedEvent := record_from [] (take cap (entries w)).
Definition db_stream (w : RefDb) (sid : string) : list RecordedEvent :=
  filter (λ r, re_stream_id r = sid) (db_log w).

Definition db_add (w : RefDb) (sid : string) (evs : list ProposedEvent) : option RefDb :=
  if decide (length (entries w) + length evs ≤ cap)%nat
  then Some (mk_RefDb (entries w ++ ((λ p, (sid, p)) <$> evs)) (schedule w))
  else None.

(** What happens before a call: another writer, an outage, or nothing. *)
Definition db_before (w : RefDb) : RefDb * Interference :=
  match schedule w with
  | [] => (w, Quiet)
  | OtherWrites sid evs :: l =>
      (default (mk_RefDb (entries w) l) (db_add (mk_RefDb (entries w) l) sid evs), Quiet)
  | i :: l => (mk_RefDb (entries w) l, i)
  end.

Definition unavailable : DemoStatus := mk_DemoStatus 14 "unavailable".

Definition db_kind_ok (e : option ExpectedVersion) (n : nat) : bool :=
  match e with
  | Some (mk_ExpectedVersion (Some KindAny)) => true
  | Some (mk_ExpectedVersion (Some KindNoStream)) => Nat.eqb n 0
  | Some (mk_ExpectedVersion (Some (KindExact v))) => N.of_nat n =? v + 1
  | _ => false
  end.

(** The items of a subscription: events, then one last item. *)
Definition db_items (l : list RecordedEvent) (last : result SubscribeResponse Status)
    : list (result SubscribeResponse Status) := (event_item <$> l) ++ [last].

#[export] Instance RefDb_grpc : Grpc RefDb := {|
  rpc_append w _ req :=
    match db_before w with
    | (w1, Unavailable) => (w1, Err unavailable)
    | (w1, _) =>
        let n := length (db_stream w1 (ar_stream_id req)) in
        if db_kind_ok (ar_expected_version req) n then
          match db_add w1 (ar_stream_id req) (ar_events req) with
          | Some w2 =>
              (w2, Ok (mk_AppendResponse (N.of_nat n) (N.of_nat (n + length (ar_events req)) - 1)
                         0 0))
          | None => (w1, Err (mk_DemoStatus 8 "full"))
          end
        else (w1, Err (mk_DemoStatus 9 "wrong expected version"))
    end;
  rpc_read_stream w _ req :=
    match db_before w with
    | (w1, Unavailable) => (w1, Err unavailable)
    | (w1, _) =>
        let l := db_stream w1 (rs_stream_id req) in
        if bool_decide (l = []) then (w1, Err (mk_DemoStatus 5 "no such stream"))
        else
          let window := drop (N.to_nat (rs_from_version req)) l in
          (w1, Ok (take (N.to_nat (N.min (rs_max_count req) (N.of_nat (length window)))) window))
    end;
  rpc_subscribe_all w _ req :=
    match db_before w with
    | (w1, Unavailable) => (w1, Err unavailable)
    | (w1, BreaksAfter k) =>
        (w1, Ok (db_items (take k (events_from (sa_from_position req) (db_log w1)))
                   (Err unavailable)))
    | (w1, _) =>
        (w1, Ok (db_items (events_from (sa_from_position req) (db_log w1))
                   (Ok (mk_SubscribeResponse (Some CaughtUp)))))
    end;
|}.

(** ** Their laws *)

Lemma unbits_bits p : unbits (bits p) = Some p.
Proof. induction p as [p IH|p IH|]; simpl; [..|done]; by rewrite IH. Qed.

Lemma scan_print {A} `{Countable A} (x : A) : scan (print x) = Some x.
Proof. unfold scan, print. simpl. rewrite unbits_bits. apply decode_encode. Qed.

Lemma print_one_line {A} `{Countable A} (x : A) : Byte.x0a ∉ print x.
Proof.
  unfold print. intros [[=]|Hb]%elem_of_cons. revert Hb.
  induction (encode x); simpl; [intros [[=]|?]%elem_of_cons; eauto..|]. by intros ?%elem_of_nil.
Qed.

Lemma print_ascii {A} `{Countable A} (x : A) : utf8_valid (print x) = true.
Proof.
  apply utf8_valid_ascii. unfold print. constructor; [done|].
  induction (encode x) as [p IH|p IH|]; simpl; repeat constructor; done.
Qed.

Lemma print_text {A} `{Countable A} (x : A) :
  ∃ s, from_utf8 (print x) = Some s ∧ s ≠ EmptyString ∧ as_bytes s = print x.
Proof.
  exists (String.string_of_list_byte (print x)). split; [|split].
  - apply from_utf8_Some. split; [apply print_ascii|done].
  - done.
  - apply String.list_byte_of_string_of_list_byte.
Qed.

Lemma j_lookup_fields l k :
  j_lookup (j_fields l) k = (list_to_map l : gmap string JValue) !! k.
Proof.
  induction l as [|[k' v] l IH]; simpl; [by rewrite lookup_empty|].
  rewrite lookup_insert, IH. done.
Qed.

#[export] Instance demo_json_laws : SerdeJsonLaws.
Proof.
  split; simpl.
  - intros [[[s|]|n]|n l]; naive_solver.
  - done.
  - done.
  - intros l. by eexists.
  - intros l o k _ [= <-]. apply j_lookup_fields.
  - done.
  - intros v. destruct (print_text v) as (s & Hs & Hne & Hb).
    exists (print v), s. rewrite Hb, scan_print. done.
  - intros v. destruct (print_text v) as (s & Hs & Hne & Hb).
    exists (print v), s. rewrite Hb, scan_print. done.
  - intros v b [= <-]. apply print_one_line.
  - intros s. by destruct (scan _).
Qed.

Lemma demo_serde_laws (X : Type) `{Countable X} : SerdeLaws (S := demo_serde X) X.
Proof.
  split; simpl.
  - intros x b [= <-]. by rewrite scan_print.
  - intros x b [= <-]. apply print_ascii.
  - intros x b. split; [done|]. by destruct (scan b).
Qed.

#[export] Instance demo_uuid_laws : UuidLaws.
Proof. by split. Qed.

#[export] Instance demo_tonic_laws : TonicLaws.
Proof. by split. Qed.

Lemma with_fault_files f broken ok f' r :
  with_fault f broken ok = (f', r) →
  (r = Ok () ∧ files f' = ok) ∨ (∃ e, r = Err e ∧ files f' = broken).
Proof. unfold with_fault. destruct (faults f) as [|[] l]; intros; simplify_eq/=; eauto. Qed.

Ltac solve_fault :=
  match goal with
  | H : with_fault _ _ _ = _ |- _ =>
      let Hf := fresh in
      apply with_fault_files in H as [[? Hf]|(?e & ? & Hf)]; simplify_eq; rewrite ?Hf
  end.

#[export] Instance MemFs_laws : FileSystemLaws MemFs.
Proof.
  refine {| content := λ f p, files f !! p |}; simpl.
  - intros. by solve_fault.
  - intros. by solve_fault; rewrite lookup_insert_ne.
  - intros. solve_fault. by rewrite lookup_insert_eq.
  - intros f p q b f' H Hne Hp. rewrite Hp in H. simpl in H.
    apply with_fault_files in H as [[_ ->]|(e & ? & _)]; [|done].
    rewrite decide_False by done. rewrite lookup_insert_eq, lookup_insert_ne by done.
    by rewrite lookup_delete_eq.
  - intros f p q f' r x H Hp Hq. destruct (files f !! p); [|by simplify_eq].
    solve_fault; [|done]. case_decide; [done|]. by rewrite lookup_insert_ne, lookup_delete_ne.
  - intros f p q f' e x H. destruct (files f !! p); [|by simplify_eq].
    by solve_fault.
  - intros f p b. by destruct (files f !! p); intros; simplify_eq.
  - intros f p e. destruct (files f !! p); intros; by simplify_eq.
  - intros. by solve_fault; rewrite lookup_insert_ne.
  - intros. solve_fault. by rewrite lookup_insert_eq.
  - intros f p q b.
    assert (∀ x y, (with_fault f x y).2 ≠ Panic) as Hf.
    { intros x y. unfold with_fault. by destruct (faults f) as [|[] l]. }
    repeat split; try apply Hf; destruct (files f !! p); simpl; try done; apply Hf.
Defined.

(** *** The event store *)

Lemma record_from_app b l1 l2 :
  record_from b (l1 ++ l2) = record_from b l1 ++ record_from (b ++ l1) l2.
Proof.
  revert b; induction l1 as [|[sid p] l1 IH]; intros b; simpl; [by rewrite app_nil_r|].
  rewrite IH. by rewrite <- app_assoc.
Qed.

Lemma count_in_app sid b sid' p :
  count_in sid (b ++ [(sid', p)]) =
  (count_in sid b + if decide (sid' = sid) then 1 else 0)%nat.
Proof.
  unfold count_in. rewrite filter_app, length_app. f_equal.
  rewrite filter_cons. simpl. by case_decide.
Qed.

(** The stream with an identifier is numbered from what came before. *)
Lemma record_from_stream sid b l i r :
  filter (λ r, re_stream_id r = sid) (record_from b l) !! i = Some r →
  re_stream_version r = N.of_nat (count_in sid b + i).
Proof.
  revert b i; induction l as [|[sid' p] l IH]; intros b i; simpl; [by rewrite filter_nil|].
  rewrite filter_cons. simpl. case_decide as Hs.
  - destruct i as [|i]; simpl.
    + intros [= <-]. simpl. subst. f_equal. lia.
    + intros H%IH. rewrite H, count_in_app, decide_True by done. f_equal. lia.
  - intros H%IH. rewrite H, count_in_app, decide_False by done. f_equal. lia.
Qed.

Lemma record_from_position b l r :
  r ∈ record_from b l →
  N.of_nat (length b) ≤ re_global_position r < N.of_nat (length b + length l).
Proof.
  revert b; induction l as [|[sid p] l IH]; intros b; simpl; [by intros ?%not_elem_of_nil|].
  intros [->|H%IH]%elem_of_cons; simpl; [lia|].
  rewrite length_app in H. simpl in H. lia.
Qed.

Lemma record_from_sorted b l :
  StronglySorted (λ a b, re_global_position a < re_global_position b) (record_from b l).
Proof.
  revert b; induction l as [|[sid p] l IH]; intros b; simpl; constructor; [apply IH|].
  apply Forall_forall. intros r H%record_from_position. simpl.
  rewrite length_app in H. simpl in H. lia.
Qed.

Lemma length_record_from b l : length (record_from b l) = length l.
Proof. revert b; induction l as [|[sid p] l IH]; intros b; simpl; [done|by rewrite IH]. Qed.

Lemma db_log_length w : (length (db_log w) ≤ cap)%nat.
Proof. unfold db_log. rewrite length_record_from, length_take. lia. Qed.

Lemma db_add_log w sid evs w' :
  db_add w sid evs = Some w' →
  ∃ recs, db_log w' = db_log w ++ recs ∧ Forall2 recorded_as evs recs ∧
          Forall (λ r, re_stream_id r = sid) recs ∧ schedule w' = schedule w.
Proof.
  unfold db_add, db_log. case_decide as Hlen; [|done]. intros [= <-]. simpl.
  rewrite !take_ge by (rewrite ?length_app, ?length_fmap; lia).
  rewrite record_from_app. eexists; split; [done|]. simpl. clear Hlen.
  generalize (entries w). induction evs as [|p evs IH]; intros b; simpl; [by repeat constructor|].
  destruct (IH (b ++ [(sid, p)])) as (H1 & H2 & _).
  split; [constructor; [by repeat split|done]|]. split; [by constructor|done].
Qed.

Lemma db_before_log w w' i : db_before w = (w', i) → db_log w `prefix_of` db_log w'.
Proof.
  unfold db_before. destruct (schedule w) as [|[|sid evs| |k] l]; intros [= <- <-]; try done.
  destruct (db_add (mk_RefDb (entries w) l) sid evs) as [w2|] eqn:Ha; simpl; [|done].
  apply db_add_log in Ha as (recs & -> & _). by apply prefix_app_r.
Qed.

Lemma db_stream_prefix w w' sid :
  db_log w `prefix_of` db_log w' → db_stream w sid `prefix_of` db_stream w' sid.
Proof. intros [k Hk]. unfold db_stream. rewrite Hk, filter_app. by apply prefix_app_r. Qed.

Lemma db_add_stream w sid evs w' :
  db_add w sid evs = Some w' →
  ∃ recs, db_stream w' sid = db_stream w sid ++ recs ∧ Forall2 recorded_as evs recs.
Proof.
  intros (recs & Hl & HF & Hs & _)%db_add_log. exists recs. split; [|done].
  unfold db_stream. rewrite Hl, filter_app. f_equal. apply filter_all.
  by rewrite Forall_forall in Hs.
Qed.

Lemma db_kind_ok_spec e l : db_kind_ok e (length l) = true ↔ kind_ok e l.
Proof.
  destruct e as [[[[| |v]|]]|]; simpl; try done.
  - rewrite Nat.eqb_eq. by destruct l.
  - by rewrite N.eqb_eq.
Qed.

Lemma db_items_events l x : stream_events (db_items l x) = l ++ stream_events [x].
Proof. apply stream_events_break. Qed.

Lemma db_items_until l x : until_caught_up (db_items l x) = app l <$> until_caught_up [x].
Proof. apply until_caught_up_break. Qed.

Lemma db_append_grows w h req w' r :
  rpc_append w h req = (w', r) → db_log w `prefix_of` db_log w'.
Proof.
  simpl. destruct (db_before w) as [w1 i] eqn:Hb. apply db_before_log in Hb.
  destruct i; [| | |]; intros H; try (by simplify_eq);
  (destruct (db_kind_ok _ _); [|by simplify_eq]);
  (destruct (db_add _ _ _) as [w2|] eqn:Ha; simplify_eq; [|done]);
  apply db_add_log in Ha as (recs & -> & _); by apply prefix_app_r.
Qed.

Lemma db_read_grows w h req w' r :
  rpc_read_stream w h req = (w', r) → db_log w `prefix_of` db_log w'.
Proof.
  simpl. destruct (db_before w) as [w1 i] eqn:Hb. apply db_before_log in Hb.
  destruct i; try case_bool_decide; intros; by simplify_eq.
Qed.

Lemma db_subscribe_grows w h req w' r :
  rpc_subscribe_all w h req = (w', r) → db_log w `prefix_of` db_log w'.
Proof.
  simpl. destruct (db_before w) as [w1 i] eqn:Hb. apply db_before_log in Hb.
  destruct i; intros; by simplify_eq.
Qed.

Lemma db_append_ok w h req w' resp :
  rpc_append w h req = (w', Ok resp) → ar_events req ≠ [] →
  ∃ mid recs, db_stream w (ar_stream_id req) `prefix_of` mid ∧
    kind_ok (ar_expected_version req) mid ∧ Forall2 recorded_as (ar_events req) recs ∧
    (mid ++ recs) `prefix_of` db_stream w' (ar_stream_id req) ∧
    last_stream_version resp + 1 = N.of_nat (length (mid ++ recs)).
Proof.
  simpl. destruct (db_before w) as [w1 i] eqn:Hb.
  intros H Hne. exists (db_stream w1 (ar_stream_id req)).
  assert (i ≠ Unavailable) as Hi by (by intros ->).
  replace (match i with Unavailable => (w1, Err unavailable) | _ => _ end)
    with (if db_kind_ok (ar_expected_version req) (length (db_stream w1 (ar_stream_id req)))
          then match db_add w1 (ar_stream_id req) (ar_events req) with
               | Some w2 => (w2, Ok (mk_AppendResponse
                   (N.of_nat (length (db_stream w1 (ar_stream_id req))))
                   (N.of_nat (length (db_stream w1 (ar_stream_id req)) +
                              length (ar_events req)) - 1) 0 0))
               | None => (w1, Err (mk_DemoStatus 8 "full"))
               end
          else (w1, Err (mk_DemoStatus 9 "wrong expected version"))) in H by (by destruct i).
  destruct (db_kind_ok _ _) eqn:Hk; [|done].
  destruct (db_add _ _ _) as [w2|] eqn:Ha; [|done]. simplify_eq. simpl.
  destruct (db_add_stream _ _ _ _ Ha) as (recs & Hs & HF). exists recs.
  split; [eapply db_stream_prefix, db_before_log; done|].
  split; [by apply db_kind_ok_spec|]. split; [done|]. rewrite <- Hs. split; [done|].
  rewrite Hs, length_app. apply Forall2_length in HF. rewrite <- HF.
  destruct (ar_events req); [done|]. simpl. lia.
Qed.

Lemma db_append_conflict w h req w' e :
  rpc_append w h req = (w', Err e) → code_is_failed_precondition e = true →
  ∃ mid, db_stream w (ar_stream_id req) `prefix_of` mid ∧
    mid `prefix_of` db_stream w' (ar_stream_id req) ∧ ¬ kind_ok (ar_expected_version req) mid.
Proof.
  simpl. destruct (db_before w) as [w1 i] eqn:Hb.
  apply db_before_log, (db_stream_prefix _ _ (ar_stream_id req)) in Hb.
  intros H He. exists (db_stream w1 (ar_stream_id req)). rewrite <- db_kind_ok_spec.
  destruct i; try (by simplify_eq);
    (destruct (db_kind_ok _ _) eqn:Hk; [destruct (db_add _ _ _)|]; by simplify_eq).
Qed.

Lemma db_read_ok w h req w' evs :
  rpc_read_stream w h req = (w', Ok evs) →
  ∃ cur, db_stream w (rs_stream_id req) `prefix_of` cur ∧
    cur `prefix_of` db_stream w' (rs_stream_id req) ∧
    evs = take (N.to_nat (rs_max_count req)) (drop (N.to_nat (rs_from_version req)) cur).
Proof.
  simpl. destruct (db_before w) as [w1 i] eqn:Hb. apply db_before_log in Hb.
  intros H. exists (db_stream w1 (rs_stream_id req)).
  split; [by apply db_stream_prefix|].
  destruct i; try case_bool_decide; simplify_eq; (split; [done|]);
    rewrite N2Nat.inj_min, Nat2N.id, <- take_take, (take_ge _ (length _)); done.
Qed.

#[export] Instance RefDb_spec : GrpcSpec RefDb.
Proof.
  refine {| g_stream := db_stream; g_log := db_log |}.
  - intros w sid i r H. apply record_from_stream in H. done.
  - intros w sid. unfold db_stream, u64_MAX.
    pose proof (length_filter (λ r, re_stream_id r = sid) (db_log w)).
    pose proof (db_log_length w). unfold cap in *. lia.
  - intros. by eapply db_stream_prefix, db_append_grows.
  - intros. by eapply db_stream_prefix, db_read_grows.
  - apply db_append_grows.
  - apply db_read_grows.
  - intros. by eapply db_stream_prefix, db_subscribe_grows.
  - apply db_append_ok.
  - apply db_append_conflict.
  - apply db_read_ok.
  - intros w h req w' e H. simpl in H. destruct (db_before w) as [w1 i] eqn:Hb.
    apply db_before_log, (db_stream_prefix _ _ (rs_stream_id req)) in Hb.
    intros He. destruct i; try case_bool_decide as Hn; simplify_eq; try done;
      rewrite Hn in Hb; by apply prefix_nil_inv in Hb.
  - intros w. apply record_from_sorted.
  - intros w r H. apply record_from_position in H. simpl in H.
    rewrite length_take in H. unfold cap, u64_MAX in *. lia.
  - apply db_subscribe_grows.
  - intros w h req w' items. cbn [rpc_subscribe_all RefDb_grpc]. destruct (db_before w) as [w1 i] eqn:Hb.
    destruct i; intros; simplify_eq; rewrite db_items_events; simpl; rewrite app_nil_r;
      try done. by apply prefix_take.
  - intros w h req w' items evs. cbn [rpc_subscribe_all RefDb_grpc]. destruct (db_before w) as [w1 i] eqn:Hb.
    apply db_before_log in Hb.
    assert (events_from (sa_from_position req) (db_log w) `prefix_of`
            events_from (sa_from_position req) (db_log w1)) as Hp.
    { destruct Hb as [k ->]. unfold events_from. rewrite filter_app. by apply prefix_app_r. }
    destruct i; intros; simplify_eq;
      match goal with H : until_caught_up _ = _ |- _ =>
        rewrite db_items_until in H; simpl in H; simplify_eq end;
      try rewrite app_nil_r; done.
Defined.
