(* ===== verification/DemoApp.v ===== *)
(** A concrete application over the instances of [Demo]: the counter aggregate,
    the event-counting projection and the echo saga of the crate's own tests,
    and a store that runs them. *)
From Stdlib Require Import Strings.Byte Strings.Ascii Strings.String.
From stdpp Require Import countable pretty.
From S2P Require Import Prelude Std Deps Command Errors Aggregate Proto Event Auth EventStore.
From S2P Require Import Client Snapshot Actor Cursor Projection ProcessManager Codec LiveTypes.
From S2P Require Import Store.
From S2P Require Import Live Builder Demo.
Import Fixture.
Open Scope N_scope.

(** ** The counter *)
Definition counter_event_to_value (e : CounterEvent) : result Value JsonError :=
  match e with
  | Incremented => Ok (json_obj [("type", json_str "Incremented")])
  | Decremented => Ok (json_obj [("type", json_str "Decremented")])
  | Added n => Ok (json_obj [("type", json_str "Added");
                             ("data", json_obj [("amount", j_num n)])])
  end.

Definition counter_event_from_value (v : Value) : result CounterEvent JsonError :=
  match value_get v "type" ≫= as_str with
  | Some ty =>
      if decide (ty = "Incremented") then Ok Incremented
      else if decide (ty = "Decremented") then Ok Decremented
      else if decide (ty = "Added") then
        match value_get v "data" with
        | Some d =>
            match value_get d "amount" with
            | Some (GenLeaf (inr n)) => Ok (Added n)
            | _ => Err "missing field amount"
            end
        | None => Err "missing field data"
        end
      else Err "unknown variant"
  | None => Err "missing field type"
  end.

Definition counter_aggregate (ty : string) : Aggregate Counter := {|
  AGGREGATE_TYPE := ty;
  Command := CounterCommand;
  DomainEvent := CounterEvent;
  DomainError := CounterError;
  error_display := counter_error_display;
  agg_default := mk_Counter 0;
  handle := counter_handle;
  apply := counter_apply;
  event_to_value := counter_event_to_value;
  event_from_value := counter_event_from_value;
|}.

(** Two aggregate types: the counter, and the saga's target, which is a counter
    that increments on every command and has no other. *)
Inductive DemoAgg := TCounter | TTarget.

#[export] Instance DemoAgg_eq_dec : EqDecision DemoAgg.
Proof. solve_decision. Defined.
#[export] Instance DemoAgg_countable : Countable DemoAgg.
Proof.
  refine (inj_countable' (λ t, match t with TCounter => true | TTarget => false end)
            (λ b, if b then TCounter else TTarget) _).
  by intros [].
Defined.

Definition DemoState (t : DemoAgg) : Type := Counter.

#[export] Instance demo_aggregates (t : DemoAgg) : Aggregate (DemoState t) :=
  counter_aggregate (match t with TCounter => "counter" | TTarget => "target" end).

#[export] Instance demo_commands (t : DemoAgg) : CommandDe (DemoState t) :=
  {| command_from_value v :=
       match value_get v "source_event_type" with
       | Some _ => Ok Increment
       | None => Err "unknown command"
       end |}.

#[export] Instance Counter_eq_dec : EqDecision Counter.
Proof. solve_decision. Defined.
#[export] Instance Snapshot_eq_dec {A} `{EqDecision A} : EqDecision (Snapshot A).
Proof. solve_decision. Defined.

(** A struct of one [u64], with derived serialisation. *)
Definition one_field {X} (key : string) (get : X → N) (make : N → X) : ValueSerde X := {|
  to_value x := Ok (json_obj [(key, json_num (get x))]);
  from_value v := result_map make (from_field (from_option as_u64) v key);
|}.

#[export] Instance Counter_value : ValueSerde Counter := one_field "value" value mk_Counter.
#[export] Instance demo_states (t : DemoAgg) : ValueSerde (DemoState t) := Counter_value.

(** ** The projection and the process manager *)
Record EventCounter := mk_EventCounter { count : N }.

Definition event_counter_apply (c : EventCounter) (_ : StoredEvent) : EventCounter :=
  mk_EventCounter (u64_add (count c) 1).

Definition DemoProj (_ : unit) : Type := EventCounter.
#[export] Instance event_counter (p : unit) : Projection (DemoProj p) :=
  {| PROJ_NAME := "event-counter";
     proj_default := mk_EventCounter 0;
     proj_apply := event_counter_apply |}.

Record EchoSaga := mk_EchoSaga { events_seen : N }.

Definition echo_react (s : EchoSaga) (event : StoredEvent) : EchoSaga * list CommandEnvelope :=
  if decide (aggregate_type event = "counter") then
    let s' := mk_EchoSaga (u64_add (events_seen s) 1) in
    (s', [mk_CommandEnvelope "target" (instance_id event)
            (json_obj [("source_event_type", json_str (event_type event))])
            (with_correlation_id CommandContext_default
               ("echo-" ++ pretty (events_seen s'))%string)])
  else (s, []).

Definition DemoPm (_ : unit) : Type := EchoSaga.
#[export] Instance echo_saga (q : unit) : ProcessManager (DemoPm q) :=
  {| PM_NAME := "echo-saga"; pm_default := mk_EchoSaga 0; pm_react := echo_react |}.

#[export] Instance EventCounter_eq_dec : EqDecision EventCounter.
Proof. solve_decision. Defined.
#[export] Instance ProjectionCheckpoint_eq_dec {P} `{EqDecision P} :
  EqDecision (ProjectionCheckpoint P).
Proof. solve_decision. Defined.
#[export] Instance EventCounter_value : ValueSerde EventCounter :=
  one_field "count" count mk_EventCounter.
#[export] Instance demo_proj_states (p : unit) : ValueSerde (DemoProj p) := EventCounter_value.

#[export] Instance EchoSaga_eq_dec : EqDecision EchoSaga.
Proof. solve_decision. Defined.
#[export] Instance PmCheckpoint_eq_dec {P} `{EqDecision P} :
  EqDecision (ProcessManagerCheckpoint P).
Proof. solve_decision. Defined.
#[export] Instance EchoSaga_value : ValueSerde EchoSaga :=
  one_field "events_seen" events_seen mk_EchoSaga.
#[export] Instance demo_pm_states (q : unit) : ValueSerde (DemoPm q) := EchoSaga_value.

(** ** A client and a store *)
Abbreviation DemoClient := (EsClient (W := RefDb)).

(** The client of a database with some entries and a schedule of interference. *)
Definition demo_client (l : list (string * ProposedEvent)) (i : list Interference) : DemoClient :=
  connect (mk_TokenLock EmptyString false) (mk_RefDb l i).

Definition demo_env (c : DemoClient) (f : MemFs) : ActorEnv := mk_ActorEnv c f 0.

(** The identifier of an instance's stream, as it is on the wire. *)
Definition demo_sid (ty id : string) : string := uuid_to_string (stream_uuid ty id).

(** An event some writer proposes for a counter. *)
Definition demo_proposed (id : string) (e : CounterEvent) (n : N) : ProposedEventData :=
  match encode_domain_event (AG := demo_aggregates TCounter)
          CommandContext_default "counter" id n e with
  | (_, Ok p) => p
  | _ => mk_ProposedEventData EmptyString EmptyString Null
           (mk_EventMetadata EmptyString EmptyString None None None)
  end.

Definition demo_entry (id : string) (e : CounterEvent) (n : N) : string * ProposedEvent :=
  (demo_sid "counter" id, to_proto_event (demo_proposed id e n)).

Abbreviation DemoStore := (AggregateStore (Store := DemoClient) (F := MemFs)
  (TypeId := DemoAgg) (Agg := DemoState) (ProjId := ()) (Proj := DemoProj)
  (PmId := ()) (Pm := DemoPm)).

Definition demo_builder (targets : list DemoAgg) : AggregateStoreBuilder :=
  foldl with_aggregate_type
    (with_process_manager (with_projection (builder_base_dir builder_new "/data") ()) ())
    targets.

Lemma demo_builder_configured targets : configured (demo_builder targets).
Proof.
  unfold demo_builder. set (b := with_process_manager _ _).
  assert (configured b) as Hb by (repeat constructor).
  clearbody b. revert b Hb; induction targets as [|t targets IH]; intros b Hb; simpl; [done|].
  apply IH. by constructor.
Qed.

Definition demo_open (c : DemoClient) (f : MemFs) (targets : list DemoAgg)
    : result DemoStore string :=
  open (λ _ _, Ok c) "/tmp" f 0 (Some 1700000000) (demo_builder targets).

Definition empty_fs : MemFs := mk_MemFs ∅ [].

(** The same store, written out. *)
Definition demo_store (c : DemoClient) (f : MemFs) (targets : list DemoAgg) : DemoStore :=
  match demo_open c f targets with
  | Ok w => w
  | _ => mk_AggregateStore c f 0 None "/data" ∅ ∅ 0 ∅ [] ∅ 0 LiveConfig_default None
  end.

(** ** Laws *)
#[export] Instance counter_tagged (t : DemoAgg) : AdjacentlyTagged (DemoState t).
Proof.
  split. intros [| |n].
  - exists "Incremented". left. by split.
  - exists "Decremented". left. by split.
  - exists "Added". right. eexists. by split.
Qed.

Lemma one_field_laws {X} key (get : X → N) make :
  (∀ x, make (get x) = x) → ValueSerdeLaws (V := one_field key get make) X.
Proof.
  intros Hm. split; simpl.
  - intros x v [= <-]. unfold from_field.
    change (GenNode 1 [GenLeaf (inl (Some key)); j_num (get x)])
      with (json_obj [(key, json_num (get x))]).
    rewrite value_get_json_obj by (repeat constructor; set_solver).
    simpl. rewrite lookup_insert_eq. simpl. by rewrite Hm.
  - intros x v. split; [done|]. unfold from_field, from_option. by repeat case_match.
Qed.

#[export] Instance Counter_value_laws : ValueSerdeLaws Counter.
Proof. apply one_field_laws. by intros []. Qed.
#[export] Instance demo_state_laws (t : DemoAgg) : ValueSerdeLaws (DemoState t) :=
  Counter_value_laws.
#[export] Instance EventCounter_value_laws : ValueSerdeLaws EventCounter.
Proof. apply one_field_laws. by intros []. Qed.
#[export] Instance demo_proj_laws (p : unit) : ValueSerdeLaws (DemoProj p) :=
  EventCounter_value_laws.
#[export] Instance EchoSaga_value_laws : ValueSerdeLaws EchoSaga.
Proof. apply one_field_laws. by intros []. Qed.
#[export] Instance demo_pm_laws (q : unit) : ValueSerdeLaws (DemoPm q) := EchoSaga_value_laws.

Example demo_open_runs :
  is_ok (demo_open (demo_client [] []) empty_fs [TCounter; TTarget]) = true.
Proof. vm_compute. reflexivity. Qed.

(** The instances of the demonstrations. *)
#[export] Instance demo_in_use : InUse DemoAgg := λ _ id, id = "c1"%string ∨ id = "t1"%string.
