(* ===== verification/MockStore.v ===== *)
(** [src/actor.rs], the [MockStore] of its tests: an event store of one stream in
    memory whose first appends fail with FAILED_PRECONDITION.  It is the second
    implementation of the trait [EventStoreOps] in the sources, beside the
    client; unlike the client it ignores the expected version and the stream. *)
From S2P Require Import Prelude Std Deps Command Errors Aggregate Proto Event EventStore.
From S2P Require Import Actor.
Open Scope N_scope.

Section mock.
Context {J : SerdeJson} {U : UuidOps} {T : Tonic}.

(** [tonic::Status::failed_precondition]. *)
Context (failed_precondition : string → Status).

(** [MockStoreInner] (its events, [precondition_failures_remaining],
    [next_version]); the clones of a [MockStore] share one. *)
Record MockStore := mk_MockStore {
  ms_events : list RecordedEvent;
  ms_failures : N;
  ms_next_version : N;
}.

Definition mock_new : MockStore := mk_MockStore [] 0 0.

Definition with_precondition_failures (n : N) : MockStore := mk_MockStore [] n 0.

Definition with_events (s : MockStore) (evs : list RecordedEvent) : MockStore :=
  mk_MockStore evs (ms_failures s)
    (match last evs with Some e => u64_add (re_stream_version e) 1 | None => 0 end).

(** The body of the loop of [append]. *)
Definition mock_record (stream_id : Uuid) (s : MockStore) (proposed : ProposedEventData)
    : MockStore :=
  let recorded := mk_RecordedEvent (uuid_to_string (pd_event_id proposed))
                    (uuid_to_string stream_id) (ms_next_version s)
                    (N.of_nat (length (ms_events s))) (pd_event_type proposed)
                    (bytes_unwrap_or_default (to_vec (EventMetadata_to_value (pd_metadata proposed))))
                    (bytes_unwrap_or_default (to_vec (pd_payload proposed))) 1700000000000 in
  mk_MockStore (ms_events s ++ [recorded]) (ms_failures s)
    (u64_add (ms_next_version s) 1).

Definition mock_append (s : MockStore) (stream_id : Uuid) (_ : ExpectedVersionArg)
    (evs : list ProposedEventData) : MockStore * result AppendResponse Status :=
  if 0 <? ms_failures s then
    (mk_MockStore (ms_events s) (ms_failures s - 1) (ms_next_version s),
     Err (failed_precondition "wrong expected version"))
  else
    let s1 := foldl (mock_record stream_id) s evs in
    (s1, Ok (mk_AppendResponse (u64_sub (ms_next_version s1) (N.of_nat (length evs)))
               (u64_sub (ms_next_version s1) 1) 0 0)).

Definition mock_read_stream (s : MockStore) (_ : Uuid) (from_version max_count : N)
    : MockStore * result (list RecordedEvent) Status :=
  let found := filter (λ e, from_version ≤ re_stream_version e) (ms_events s) in
  (s, Ok (take (N.to_nat (N.min max_count (N.of_nat (length found)))) found)).

Definition MockStore_ops : EventStoreOps MockStore :=
  {| append := mock_append; read_stream := mock_read_stream |}.
End mock.
