(* ===== verification/UnitTests.v ===== *)
(** The unit tests of the crate ([mod tests] of each source file) as executable
    checks on the model, over the concrete instances of [Demo] and [DemoApp]: a
    module per source file, a definition per test, under the test's name.  A test
    passes when it ends with [Some ()]; an [expect] or an assertion that fails
    ends it.

    JSON text that a test writes out is the text the instance prints for that
    value; where a test parses what it wrote and looks at a field, the check
    reads the value back and looks at the field.  The temporary directory of a
    test is an empty file system, and a client nobody answers is the lazy channel
    to a port without a server.  Tests of [Clone], [Debug], [Send] and [Sync], of
    the layout of serialised text, and the one that a generated type exists are
    left out. *)
From Stdlib Require Import Strings.Byte Strings.Ascii Strings.String.
From S2P Require Import Prelude Std Deps Command Errors Aggregate Proto Event Auth EventStore.
From S2P Require Import Client Storage Snapshot Actor Cursor Projection ProcessManager LiveTypes.
From S2P Require Import Store Live Shutdown Builder Codec Demo DemoApp MockStore.
Open Scope N_scope.

(** ** Assertions *)

Definition assert (b : bool) : option unit := if b then Some () else None.
Definition assert_eq {A} `{EqDecision A} (x y : A) : option unit := assert (bool_decide (x = y)).

(** [result.expect(..)] and [option.expect(..)], and [expect_err]. *)
Definition expect_ok {A E} (r : result A E) : option A := result_ok r.
Definition expect_err {A E} (r : result A E) : option E :=
  match r with Err e => Some e | _ => None end.

(** [assert!(x.is_none())]. *)
Definition assert_none {A} (o : option A) : option unit :=
  match o with None => Some () | Some _ => None end.

(** [str::contains]. *)
Definition contains (s sub : string) : bool :=
  match String.index 0 sub s with Some _ => true | None => false end.

#[local] Instance CounterEvent_eq_dec : EqDecision Fixture.CounterEvent.
Proof. solve_decision. Defined.

(** The text of a JSON value, and [b"{}"]. *)
Definition json_text (v : Value) : bytes := bytes_unwrap_or_default (to_vec v).
Definition empty_object : bytes := json_text (json_obj []).

(** A value serialised and parsed again. *)
Definition through_json (v : Value) : option Value :=
  text ← from_utf8 (json_text v); expect_ok (from_str text).

(** [serde_json::to_string] of a value with derived serialisation, and its
    [from_str], into the type or into a plain [Value]; indexing a [Value]. *)
Definition to_string {X} {V : ValueSerde X} (x : X) : option string :=
  text ← expect_ok (to_text to_vec x); from_utf8 text.
Definition parse_as {X} {V : ValueSerde X} (text : string) : option X :=
  expect_ok (from_text (as_bytes text)).
Definition index (v : Value) (k : string) : Value := default Null (value_get v k).

(** What cannot be parsed. *)
Definition garbage : bytes := as_bytes "not valid json!!!".

Definition tmp : path := "/tmp/test".

(** ** [src/aggregate.rs] *)
Module AggregateTests.
Import Fixture.

Definition handle_increment : option unit :=
  events ← expect_ok (counter_handle (mk_Counter 0) Increment);
  assert_eq events [Incremented].

Definition handle_decrement_nonzero : option unit :=
  events ← expect_ok (counter_handle (mk_Counter 5) Decrement);
  assert_eq events [Decremented].

Definition handle_decrement_at_zero : option unit :=
  err ← expect_err (counter_handle (mk_Counter 0) Decrement);
  match err with AlreadyZero => Some () end.

Definition handle_add : option unit :=
  events ← expect_ok (counter_handle (mk_Counter 0) (Add 5));
  assert_eq events [Added 5].

Definition apply_incremented : option unit :=
  assert_eq (value (counter_apply (mk_Counter 0) Incremented)) 1.

Definition apply_decremented : option unit :=
  assert_eq (value (counter_apply (mk_Counter 3) Decremented)) 2.

Definition apply_added : option unit :=
  assert_eq (value (counter_apply (mk_Counter 0) (Added 5))) 5.

Definition handle_then_apply_roundtrip : option unit :=
  events ← expect_ok (counter_handle (mk_Counter 0) Increment);
  assert_eq (value (foldl counter_apply (mk_Counter 0) events)) 1.

Definition all := [handle_increment; handle_decrement_nonzero; handle_decrement_at_zero;
  handle_add; apply_incremented; apply_decremented; apply_added; handle_then_apply_roundtrip].
End AggregateTests.

(** ** [src/auth.rs] *)
Module AuthTests.

Definition non_empty_token_inserts_bearer_header : option unit :=
  result ← expect_ok (call (mk_TokenLock "abc" false) ∅);
  value ← result !! "authorization";
  assert_eq value "Bearer abc"%string.

Definition empty_token_omits_authorization_header : option unit :=
  result ← expect_ok (call (mk_TokenLock EmptyString false) ∅);
  assert_eq (result !! "authorization") None.

Definition token_mutation_visible_on_next_call : option unit :=
  let lock := mk_TokenLock "abc" false in
  result ← expect_ok (call lock ∅);
  value ← result !! "authorization";
  _ ← assert_eq value "Bearer abc"%string;
  let lock := mk_TokenLock "xyz" (poisoned lock) in
  result ← expect_ok (call lock ∅);
  value ← result !! "authorization";
  assert_eq value "Bearer xyz"%string.

Definition all := [non_empty_token_inserts_bearer_header; empty_token_omits_authorization_header;
  token_mutation_visible_on_next_call].
End AuthTests.

(** ** [src/client.rs] *)
Module ClientTests.

Definition proposed (event_id : Uuid) (payload : Value) (actor : option string)
    : ProposedEventData :=
  mk_ProposedEventData event_id "Incremented" payload
    (mk_EventMetadata "counter" "c-1" actor None None).

Definition to_proto_event_roundtrip_payload_and_metadata : option unit :=
  let p := proposed (new_v4 0).2 (json_obj [("amount", j_num 42)]) (Some "user-1"%string) in
  let proto := to_proto_event p in
  _ ← assert_eq (pe_event_id proto) (uuid_to_string (pd_event_id p));
  _ ← assert_eq (pe_event_type proto) "Incremented"%string;
  payload_text ← from_utf8 (pe_payload proto);
  payload_decoded ← expect_ok (from_str payload_text);
  _ ← assert_eq payload_decoded (json_obj [("amount", j_num 42)]);
  meta_text ← from_utf8 (pe_metadata proto);
  meta_decoded ← expect_ok (from_str meta_text);
  _ ← assert_eq (metadata_str meta_decoded "aggregate_type") (Some "counter"%string);
  _ ← assert_eq (metadata_str meta_decoded "instance_id") (Some "c-1"%string);
  _ ← assert_eq (metadata_str meta_decoded "actor") (Some "user-1"%string);
  assert_eq (metadata_str meta_decoded "correlation_id") None.

Definition to_proto_event_null_payload_serializes_as_null : option unit :=
  let proto := to_proto_event (proposed (new_v4 0).2 Null None) in
  payload_text ← from_utf8 (pe_payload proto);
  payload_decoded ← expect_ok (from_str payload_text);
  assert_eq payload_decoded Null.

Definition expected_version_any_converts_to_proto : option unit :=
  match ev_kind (to_proto Any) with Some KindAny => Some () | _ => None end.

Definition expected_version_no_stream_converts_to_proto : option unit :=
  match ev_kind (to_proto NoStream) with Some KindNoStream => Some () | _ => None end.

Definition expected_version_exact_converts_to_proto : option unit :=
  match ev_kind (to_proto (Exact 5)) with Some (KindExact 5) => Some () | _ => None end.

(** A lazy channel to a server that is not there. *)
Definition lazy_channel : RefDb := mk_RefDb [] (replicate 8 Unavailable).

Definition mock_auth_client (token : string) : DemoClient :=
  connect_with_token (mk_TokenLock token false) lazy_channel.

(** [EsClient::is_auth] and [from_inner]. *)
Definition is_auth (c : DemoClient) : bool :=
  match inner c with AuthClient => true | PlainClient => false end.
Definition from_inner (w : RefDb) : DemoClient := connect (mk_TokenLock EmptyString false) w.

Definition from_inner_creates_plain_variant : option unit :=
  assert (negb (is_auth (from_inner lazy_channel))).

Definition connect_with_token_creates_auth_variant : option unit :=
  assert (is_auth (mock_auth_client "abc123")).

Definition connect_with_token_non_empty_token_injects_bearer_header : option unit :=
  result ← expect_ok (call (token_lock (mock_auth_client "abc123")) ∅);
  value ← result !! "authorization";
  assert_eq value "Bearer abc123"%string.

Definition connect_with_token_empty_token_omits_authorization : option unit :=
  result ← expect_ok (call (token_lock (mock_auth_client EmptyString)) ∅);
  assert_eq (result !! "authorization") None.

Definition es_client_debug_shows_transport_variant : option unit :=
  let client := from_inner lazy_channel in
  _ ← assert (contains (EsClient_debug client) "Plain");
  let auth_client := mock_auth_client "tok" in
  assert (contains (EsClient_debug auth_client) "Auth").

Definition all := [to_proto_event_roundtrip_payload_and_metadata;
  to_proto_event_null_payload_serializes_as_null; expected_version_any_converts_to_proto;
  expected_version_no_stream_converts_to_proto; expected_version_exact_converts_to_proto;
  from_inner_creates_plain_variant; connect_with_token_creates_auth_variant;
  connect_with_token_non_empty_token_injects_bearer_header;
  connect_with_token_empty_token_omits_authorization; es_client_debug_shows_transport_variant].
End ClientTests.

(** ** [src/command.rs] *)
Module CommandTests.

Definition default_context_has_no_fields_set : option unit :=
  let ctx := CommandContext_default in
  _ ← assert_eq (actor ctx) None;
  _ ← assert_eq (correlation_id ctx) None;
  _ ← assert_eq (metadata ctx) None;
  assert_eq (source_device ctx) None.

Definition builder_sets_actor : option unit :=
  assert_eq (actor (with_actor CommandContext_default "user-1")) (Some "user-1"%string).

Definition builder_sets_correlation_id : option unit :=
  assert_eq (correlation_id (with_correlation_id CommandContext_default "corr-99"))
    (Some "corr-99"%string).

Definition builder_sets_metadata : option unit :=
  let meta := json_obj [("key", json_str "value")] in
  assert_eq (metadata (with_metadata CommandContext_default meta)) (Some meta).

Definition builder_chains_all_fields : option unit :=
  let ctx := with_source_device
               (with_metadata
                  (with_correlation_id (with_actor CommandContext_default "admin") "req-abc")
                  (json_obj [("source", json_str "test")])) "phone-42" in
  _ ← assert_eq (actor ctx) (Some "admin"%string);
  _ ← assert_eq (correlation_id ctx) (Some "req-abc"%string);
  _ ← assert_eq (metadata ctx) (Some (json_obj [("source", json_str "test")]));
  assert_eq (source_device ctx) (Some "phone-42"%string).

Definition builder_sets_source_device : option unit :=
  assert_eq (source_device (with_source_device CommandContext_default "device-abc"))
    (Some "device-abc"%string).

Definition builder_accepts_string_owned : option unit :=
  let ctx := with_source_device
               (with_correlation_id (with_actor CommandContext_default "svc-payments") "id-007")
               "laptop-01" in
  _ ← assert_eq (actor ctx) (Some "svc-payments"%string);
  _ ← assert_eq (correlation_id ctx) (Some "id-007"%string);
  assert_eq (source_device ctx) (Some "laptop-01"%string).

Definition command_context_serde_roundtrip : option unit :=
  let ctx := with_source_device
               (with_metadata
                  (with_correlation_id (with_actor CommandContext_default "user-1") "corr-1")
                  (json_obj [("key", json_str "value")])) "device-xyz" in
  json ← through_json (CommandContext_to_value ctx);
  deserialized ← CommandContext_from_value json;
  _ ← assert_eq (actor deserialized) (actor ctx);
  _ ← assert_eq (correlation_id deserialized) (correlation_id ctx);
  _ ← assert_eq (metadata deserialized) (metadata ctx);
  assert_eq (source_device deserialized) (source_device ctx).

(** The key is absent from the object, not from the text. *)
Definition source_device_none_omitted_from_json : option unit :=
  json ← through_json (CommandContext_to_value (with_actor CommandContext_default "user-1"));
  assert_eq (value_get json "source_device") None.

Definition deserialize_legacy_json_without_source_device : option unit :=
  legacy ← through_json (json_obj [("actor", json_str "old-user");
                                   ("correlation_id", json_str "old-corr"); ("metadata", Null)]);
  ctx ← CommandContext_from_value legacy;
  _ ← assert_eq (actor ctx) (Some "old-user"%string);
  assert_eq (source_device ctx) None.

Definition command_envelope_serde_roundtrip : option unit :=
  let envelope := mk_CommandEnvelope "counter" "c-1" (json_obj [("type", json_str "Increment")])
                    (with_actor CommandContext_default "saga") in
  json ← through_json (CommandEnvelope_to_value envelope);
  deserialized ← CommandEnvelope_from_value json;
  _ ← assert_eq (env_aggregate_type deserialized) (env_aggregate_type envelope);
  _ ← assert_eq (env_instance_id deserialized) (env_instance_id envelope);
  _ ← assert_eq (env_command deserialized) (env_command envelope);
  assert_eq (actor (env_context deserialized)) (actor (env_context envelope)).

Definition all := [default_context_has_no_fields_set; builder_sets_actor;
  builder_sets_correlation_id; builder_sets_metadata; builder_chains_all_fields;
  builder_sets_source_device; builder_accepts_string_owned; command_context_serde_roundtrip;
  source_device_none_omitted_from_json; deserialize_legacy_json_without_source_device;
  command_envelope_serde_roundtrip].
End CommandTests.

(** ** [src/error.rs] *)
Module ErrorTests.

(** [TestDomainError]. *)
Definition display (e : ExecuteError unit) : string :=
  execute_error_display (λ _, "test domain error"%string) e.

Definition execute_error_domain_displays_inner : option unit :=
  assert_eq (display (Domain ())) "test domain error"%string.

Definition execute_error_wrong_expected_version_display_message : option unit :=
  assert_eq (display WrongExpectedVersion) "wrong expected version: retries exhausted"%string.

Definition execute_error_io_from_conversion : option unit :=
  let io_err := mk_io_error NotFound "file missing" in
  assert (contains (display (Io io_err)) "file missing").

Definition execute_error_actor_gone_display : option unit :=
  assert_eq (display ActorGone) "aggregate actor is no longer running"%string.

(** [PermissionDenied] is errno 13. *)
Definition state_error_io_from_conversion : option unit :=
  let io_err := mk_io_error (Uncategorized 13) "access denied" in
  assert (contains (state_error_display (StateIo io_err)) "access denied").

Definition state_error_actor_gone_display : option unit :=
  assert_eq (state_error_display StateActorGone) "aggregate actor is no longer running"%string.

Definition execute_error_wrong_expected_version_display : option unit :=
  assert (negb (str_is_empty (display WrongExpectedVersion))).

Definition execute_error_transport_display : option unit :=
  let msg := display (Transport (status_internal "boom")) in
  assert (contains msg "boom" || contains msg "gRPC").

Definition state_error_transport_display : option unit :=
  let msg := state_error_display (StateTransport (mk_DemoStatus 14 "server down")) in
  assert (contains msg "server down" || contains msg "gRPC").

Definition all := [execute_error_domain_displays_inner;
  execute_error_wrong_expected_version_display_message; execute_error_io_from_conversion;
  execute_error_actor_gone_display; state_error_io_from_conversion;
  state_error_actor_gone_display; execute_error_wrong_expected_version_display;
  execute_error_transport_display; state_error_transport_display].
End ErrorTests.

(** ** [src/event.rs] *)
Module EventTests.
Import Fixture.

Definition stream_uuid_is_deterministic : option unit :=
  assert_eq (stream_uuid "counter" "c-1") (stream_uuid "counter" "c-1").

Definition stream_uuid_differs_by_instance_id : option unit :=
  assert (bool_decide (stream_uuid "counter" "c-1" ≠ stream_uuid "counter" "c-2")).

Definition stream_uuid_differs_by_aggregate_type : option unit :=
  assert (bool_decide (stream_uuid "counter" "c-1" ≠ stream_uuid "order" "c-1")).

Definition event_metadata_skips_none_fields_in_serialization : option unit :=
  json ← through_json (EventMetadata_to_value (mk_EventMetadata "counter" "c-1" None None None));
  _ ← assert_eq (value_get json "actor") None;
  _ ← assert_eq (value_get json "correlation_id") None;
  _ ← assert_eq (value_get json "source_device") None;
  _ ← assert (bool_decide (is_Some (value_get json "aggregate_type")));
  assert (bool_decide (is_Some (value_get json "instance_id"))).

Definition event_metadata_includes_present_fields : option unit :=
  parsed ← through_json (EventMetadata_to_value
    (mk_EventMetadata "counter" "c-1" (Some "user-1") (Some "corr-1") (Some "dev-1")))%string;
  _ ← assert_eq (value_get parsed "actor") (Some (json_str "user-1"));
  _ ← assert_eq (value_get parsed "correlation_id") (Some (json_str "corr-1"));
  assert_eq (value_get parsed "source_device") (Some (json_str "dev-1")).

Definition event_metadata_serde_roundtrip : option unit :=
  let meta := mk_EventMetadata "order" "o-42" (Some "admin") None (Some "laptop") in
  json ← through_json (EventMetadata_to_value meta);
  roundtripped ← EventMetadata_from_value json;
  _ ← assert_eq (em_aggregate_type roundtripped) "order"%string;
  _ ← assert_eq (em_instance_id roundtripped) "o-42"%string;
  _ ← assert_eq (em_actor roundtripped) (Some "admin"%string);
  _ ← assert_eq (em_correlation_id roundtripped) None;
  assert_eq (em_source_device roundtripped) (Some "laptop"%string).

(** What every test of [encode_domain_event] does first. *)
Definition encode (e : CounterEvent) (ctx : CommandContext) : option ProposedEventData :=
  expect_ok (encode_domain_event (AG := demo_aggregates TCounter) ctx "counter" "c-1" 0 e).2.

Definition encode_incremented_produces_correct_event_type_and_metadata : option unit :=
  proposed ← encode Incremented CommandContext_default;
  _ ← assert_eq (pd_event_type proposed) "Incremented"%string;
  _ ← assert_eq (em_aggregate_type (pd_metadata proposed)) "counter"%string;
  _ ← assert_eq (em_instance_id (pd_metadata proposed)) "c-1"%string;
  assert_eq (pd_event_id proposed) (new_v4 0).2.

Definition encode_fieldless_variant_produces_empty_object_or_null_payload : option unit :=
  proposed ← encode Incremented CommandContext_default;
  assert (is_null (pd_payload proposed) || bool_decide (pd_payload proposed = json_obj [])).

Definition encode_variant_with_data_includes_payload : option unit :=
  proposed ← encode (Added 42) CommandContext_default;
  _ ← assert_eq (pd_event_type proposed) "Added"%string;
  assert_eq (value_get (pd_payload proposed) "amount") (Some (j_num 42)).

Definition encode_populates_all_optional_metadata_fields : option unit :=
  let ctx := with_source_device
               (with_correlation_id (with_actor CommandContext_default "u1") "c1") "d1" in
  proposed ← encode Incremented ctx;
  _ ← assert_eq (em_actor (pd_metadata proposed)) (Some "u1"%string);
  _ ← assert_eq (em_correlation_id (pd_metadata proposed)) (Some "c1"%string);
  assert_eq (em_source_device (pd_metadata proposed)) (Some "d1"%string).

Definition encode_omits_none_optional_metadata_fields : option unit :=
  proposed ← encode Incremented CommandContext_default;
  _ ← assert_eq (em_actor (pd_metadata proposed)) None;
  _ ← assert_eq (em_correlation_id (pd_metadata proposed)) None;
  assert_eq (em_source_device (pd_metadata proposed)) None.

Definition make_recorded_event_with_metadata (metadata : Value) : RecordedEvent :=
  mk_RecordedEvent (uuid_to_string (new_v4 0).2) (uuid_to_string (stream_uuid "counter" "c-1"))
    3 42 "Incremented" (json_text metadata) empty_object 1700000000000.

Definition decode_well_formed_recorded_event_returns_some : option unit :=
  let recorded := make_recorded_event_with_metadata
    (json_obj [("aggregate_type", json_str "counter"); ("instance_id", json_str "c-1");
               ("actor", json_str "u1")]) in
  stored ← decode_stored_event recorded;
  _ ← assert_eq (aggregate_type stored) "counter"%string;
  _ ← assert_eq (instance_id stored) "c-1"%string;
  _ ← assert_eq (stream_version stored) 3;
  _ ← assert_eq (global_position stored) 42;
  _ ← assert_eq (event_type stored) "Incremented"%string;
  _ ← assert_eq (recorded_at stored) 1700000000000;
  assert_eq (Some (stream_id stored)) (parse_str (uuid_to_string (stream_uuid "counter" "c-1"))).

Definition decode_empty_json_object_returns_none : option unit :=
  assert_none (decode_stored_event (make_recorded_event_with_metadata (json_obj []))).

Definition decode_invalid_json_returns_none : option unit :=
  let recorded := mk_RecordedEvent (uuid_to_string (new_v4 0).2) (uuid_to_string (new_v4 1).2)
                    0 0 "Test" [Byte.xff; Byte.xfe] [] 0 in
  assert_none (decode_stored_event recorded).

Definition decode_missing_instance_id_returns_none : option unit :=
  assert_none (decode_stored_event
    (make_recorded_event_with_metadata (json_obj [("aggregate_type", json_str "counter")]))).

Definition all := [stream_uuid_is_deterministic; stream_uuid_differs_by_instance_id;
  stream_uuid_differs_by_aggregate_type; event_metadata_skips_none_fields_in_serialization;
  event_metadata_includes_present_fields; event_metadata_serde_roundtrip;
  encode_incremented_produces_correct_event_type_and_metadata;
  encode_fieldless_variant_produces_empty_object_or_null_payload;
  encode_variant_with_data_includes_payload; encode_populates_all_optional_metadata_fields;
  encode_omits_none_optional_metadata_fields; decode_well_formed_recorded_event_returns_some;
  decode_empty_json_object_returns_none; decode_invalid_json_returns_none;
  decode_missing_instance_id_returns_none].
End EventTests.

(** ** [src/snapshot.rs] *)
Module SnapshotTests.
Import Fixture.

Abbreviation save := (save_snapshot (AG := demo_aggregates TCounter)).
Abbreviation load := (load_snapshot (AG := demo_aggregates TCounter)).

Definition snapshot_path_returns_expected_path : option unit :=
  assert_eq (snapshot_path "/data/myapp" "counter" "c-1")
    "/data/myapp/snapshots/counter/c-1/snapshot.json"%string.

Definition save_then_load_roundtrips : option unit :=
  let '(f, saved) := save empty_fs tmp "c-1" (mk_Snapshot (mk_Counter 42) 7) in
  _ ← expect_ok saved;
  loaded ← expect_ok (load f tmp "c-1");
  loaded ← loaded;
  _ ← assert_eq (value (snap_state loaded)) 42;
  assert_eq (snap_version loaded) 7.

Definition load_nonexistent_returns_none : option unit :=
  result ← expect_ok (load empty_fs tmp "no-such-id");
  assert_none result.

Definition load_corrupt_json_returns_none : option unit :=
  let '(f, written) := fs_write empty_fs (snapshot_path tmp "counter" "c-bad") garbage in
  _ ← expect_ok written;
  result ← expect_ok (load f tmp "c-bad");
  assert_none result.

Definition save_uses_atomic_temp_rename : option unit :=
  let '(f, saved) := save empty_fs tmp "c-atomic" (mk_Snapshot (mk_Counter 10) 3) in
  _ ← expect_ok saved;
  let final_path := snapshot_path tmp "counter" "c-atomic" in
  let tmp_path := with_extension final_path "json.tmp" in
  _ ← assert (bool_decide (is_Some (files f !! final_path)));
  assert_none (files f !! tmp_path).

Definition all := [snapshot_path_returns_expected_path; save_then_load_roundtrips;
  load_nonexistent_returns_none; load_corrupt_json_returns_none; save_uses_atomic_temp_rename].
End SnapshotTests.

(** ** [src/storage.rs] *)
Module StorageTests.

Definition base_dir_returns_root : option unit :=
  assert_eq (base_dir (layout_new tmp)) tmp.

Definition snapshots_dir_returns_base_dir_slash_snapshots : option unit :=
  assert_eq (snapshots_dir (layout_new tmp)) (join tmp "snapshots").

Definition projections_dir_returns_base_dir_slash_projections : option unit :=
  assert_eq (projections_dir (layout_new tmp)) (join tmp "projections").

Definition process_managers_dir_returns_base_dir_slash_process_managers : option unit :=
  assert_eq (process_managers_dir (layout_new tmp)) (join tmp "process_managers").

Definition all := [base_dir_returns_root; snapshots_dir_returns_base_dir_slash_snapshots;
  projections_dir_returns_base_dir_slash_projections;
  process_managers_dir_returns_base_dir_slash_process_managers].
End StorageTests.

(** ** Helpers the tests of [projection.rs], [process_manager.rs] and [live.rs]
    each declare again *)

Definition make_recorded_event (global_position stream_version : N) : RecordedEvent :=
  let metadata := json_obj [("aggregate_type", json_str "counter");
                            ("instance_id", json_str "c-1")] in
  mk_RecordedEvent (uuid_to_string (new_v4 global_position).2)
    (uuid_to_string (stream_uuid "counter" "c-1")) stream_version global_position
    "Incremented" (json_text metadata) empty_object 1700000000000.

Definition event_response (global_position stream_version : N) : result SubscribeResponse Status :=
  Ok (mk_SubscribeResponse (Some (Event (make_recorded_event global_position stream_version)))).

Definition caught_up_response : result SubscribeResponse Status :=
  Ok (mk_SubscribeResponse (Some CaughtUp)).

(** An event of another application: its metadata is [b"{}"]. *)
Definition foreign_event (global_position : N) : RecordedEvent :=
  mk_RecordedEvent (uuid_to_string (new_v4 0).2) (uuid_to_string (new_v4 1).2) 0 global_position
    "SomeEvent" empty_object empty_object 1700000000000.

Definition stored_counter_event : StoredEvent :=
  mk_StoredEvent (new_v4 0).2 (new_v4 1).2 "counter" "c-1" 0 0 "Incremented"
    (json_obj []) (json_obj []) 1700000000000.

(** ** [src/projection.rs] *)
Module ProjectionTests.

Abbreviation Checkpoint := (ProjectionCheckpoint EventCounter).
Abbreviation ck n p := (mk_ProjectionCheckpoint (mk_EventCounter n) p).
Abbreviation default_checkpoint := (ProjectionCheckpoint_default (PR := event_counter ())).
Abbreviation save_checkpoint := (save_checkpoint (P := EventCounter)).
Abbreviation load_checkpoint := (load_checkpoint (P := EventCounter)).
Abbreviation process_stream := (process_stream (PR := event_counter ())).
Abbreviation apply_recorded_event := (apply_recorded_event (PR := event_counter ())).
Abbreviation runner_new := (runner_new (PR := event_counter ())).
Abbreviation runner_apply_event := (runner_apply_event (PR := event_counter ())).

(** [assert_eq] on the state and on the position. *)
Definition assert_checkpoint (c : Checkpoint) (count position : N) : option unit :=
  _ ← assert_eq (DemoApp.count (pc_state c)) count; assert_eq (pc_position c) position.

Definition projection_trait_has_no_subscriptions_method : option unit :=
  let counter := proj_apply (Projection := event_counter ()) (mk_EventCounter 0) stored_counter_event in
  assert_eq (count counter) 1.

Definition checkpoint_default_has_position_zero : option unit :=
  assert_checkpoint default_checkpoint 0 0.

Definition checkpoint_serializes_with_last_global_position : option unit :=
  json ← to_string (ck 5 42);
  parsed ← expect_ok (from_str json);
  _ ← assert_eq (index (index parsed "state") "count") (json_num 5);
  assert_eq (index parsed "last_global_position") (json_num 42).

Definition checkpoint_serde_roundtrip : option unit :=
  json ← to_string (ck 7 99);
  loaded ← parse_as json;
  assert_checkpoint loaded 7 99.

Definition save_then_load_roundtrips : option unit :=
  let '(f, saved) := save_checkpoint empty_fs tmp (ck 7 99) in
  _ ← expect_ok saved;
  loaded ← expect_ok (load_checkpoint f tmp);
  loaded ← loaded;
  assert_checkpoint loaded 7 99.

Definition load_from_empty_dir_returns_none : option unit :=
  result ← expect_ok (load_checkpoint empty_fs tmp); assert_none result.

Definition corrupt_file_returns_none : option unit :=
  let '(f, written) := fs_write empty_fs (join tmp "checkpoint.json") garbage in
  _ ← expect_ok written;
  loaded ← expect_ok (load_checkpoint f tmp); assert_none loaded.

Definition save_creates_parent_dir : option unit :=
  let nested := join (join tmp "nested") "subdir" in
  let '(f, saved) := save_checkpoint empty_fs nested (ck 3 10) in
  _ ← expect_ok saved;
  loaded ← expect_ok (load_checkpoint f nested);
  loaded ← loaded;
  assert_checkpoint loaded 3 10.

Definition catch_up_fresh_checkpoint_with_two_events : option unit :=
  let stream := [event_response 0 0; event_response 1 1; caught_up_response] in
  let '(checkpoint, r) := process_stream default_checkpoint stream in
  _ ← expect_ok r; assert_checkpoint checkpoint 2 2.

Definition second_catch_up_with_only_caught_up_leaves_count_unchanged : option unit :=
  let '(checkpoint, r) := process_stream (ck 2 2) [caught_up_response] in
  _ ← expect_ok r; assert_checkpoint checkpoint 2 2.

Definition recorded_event_with_empty_metadata_is_skipped : option unit :=
  let stream := [Ok (mk_SubscribeResponse (Some (Event (foreign_event 5)))); caught_up_response] in
  let '(checkpoint, r) := process_stream default_checkpoint stream in
  _ ← expect_ok r; assert_checkpoint checkpoint 0 6.

Definition projection_catch_up_apply_event_decodes_and_advances_position : option unit :=
  runner ← expect_ok (runner_new empty_fs (join tmp "event-counter"));
  let catch_up := runner_apply_event runner (make_recorded_event 5 0) in
  _ ← assert_eq (runner_position catch_up) 6;
  assert_eq (count (runner_state catch_up)) 1.

Definition projection_catch_up_position_starts_at_zero : option unit :=
  runner ← expect_ok (runner_new empty_fs (join tmp "event-counter"));
  assert_eq (runner_position runner) 0.

Definition projection_catch_up_state_any_returns_cloned_state : option unit :=
  runner ← expect_ok (runner_new empty_fs (join tmp "event-counter"));
  let catch_up := runner_apply_event runner (make_recorded_event 0 0) in
  let catch_up := runner_apply_event catch_up (make_recorded_event 1 1) in
  assert_eq (count (runner_state catch_up)) 2.

Definition projection_catch_up_save_persists_checkpoint : option unit :=
  let checkpoint_dir := join tmp "event-counter" in
  runner ← expect_ok (runner_new empty_fs checkpoint_dir);
  let catch_up := runner_apply_event runner (make_recorded_event 0 0) in
  let '(f, saved) := runner_save empty_fs catch_up in
  _ ← expect_ok saved;
  loaded ← expect_ok (load_checkpoint f checkpoint_dir);
  loaded ← loaded;
  assert_checkpoint loaded 1 1.

Definition apply_recorded_event_skips_already_processed_positions : option unit :=
  let '(state, position) := apply_recorded_event (mk_EventCounter 0) 5 (make_recorded_event 3 3) in
  _ ← assert_eq (count state) 0;
  _ ← assert_eq position 5;
  let '(state, position) := apply_recorded_event state position (make_recorded_event 5 5) in
  _ ← assert_eq (count state) 1;
  _ ← assert_eq position 6;
  let '(state, position) := apply_recorded_event state position (make_recorded_event 10 10) in
  _ ← assert_eq (count state) 2;
  assert_eq position 11.

Definition checkpoint_save_load_roundtrip_via_process_stream : option unit :=
  let checkpoint_dir := join tmp "event-counter" in
  let stream := [event_response 0 0; event_response 1 1; caught_up_response] in
  let '(checkpoint, r) := process_stream default_checkpoint stream in
  _ ← expect_ok r;
  let '(f, saved) := save_checkpoint empty_fs checkpoint_dir checkpoint in
  _ ← expect_ok saved;
  loaded ← expect_ok (load_checkpoint f checkpoint_dir);
  loaded ← loaded;
  assert_checkpoint loaded 2 2.

Definition all := [projection_trait_has_no_subscriptions_method;
  checkpoint_serializes_with_last_global_position;
  checkpoint_default_has_position_zero; checkpoint_serde_roundtrip; save_then_load_roundtrips;
  load_from_empty_dir_returns_none; corrupt_file_returns_none; save_creates_parent_dir;
  catch_up_fresh_checkpoint_with_two_events;
  second_catch_up_with_only_caught_up_leaves_count_unchanged;
  recorded_event_with_empty_metadata_is_skipped;
  projection_catch_up_apply_event_decodes_and_advances_position;
  projection_catch_up_position_starts_at_zero;
  projection_catch_up_state_any_returns_cloned_state;
  projection_catch_up_save_persists_checkpoint;
  apply_recorded_event_skips_already_processed_positions;
  checkpoint_save_load_roundtrip_via_process_stream].
End ProjectionTests.

(** ** [src/process_manager.rs] *)
Module ProcessManagerTests.

Abbreviation Checkpoint := (ProcessManagerCheckpoint EchoSaga).
Abbreviation ck n p := (mk_ProcessManagerCheckpoint (mk_EchoSaga n) p).
Abbreviation default_checkpoint := (ProcessManagerCheckpoint_default (PR := echo_saga ())).
Abbreviation save_pm_checkpoint := (save_pm_checkpoint (PM := EchoSaga)).
Abbreviation load_pm_checkpoint := (load_pm_checkpoint (PM := EchoSaga)).
Abbreviation react_recorded_event := (react_recorded_event (PR := echo_saga ())).
Abbreviation react_event := (react_event (PR := echo_saga ())).

(** [process_stream] collects the envelopes from none. *)
Definition process_stream (c : Checkpoint) (stream : list (result SubscribeResponse Status)) :=
  pm_process_stream (PR := echo_saga ()) c [] stream.
Definition new_runner := pm_runner_new (PR := echo_saga ()) empty_fs (join tmp "echo-saga").

Definition assert_checkpoint (c : Checkpoint) (seen position : N) : option unit :=
  _ ← assert_eq (events_seen (pmc_state c)) seen; assert_eq (pmc_position c) position.

Definition process_manager_trait_has_no_subscriptions_method : option unit :=
  let '(saga, envelopes) := echo_react (mk_EchoSaga 0) stored_counter_event in
  _ ← assert_eq (length envelopes) 1%nat;
  e ← envelopes !! 0%nat;
  _ ← assert_eq (env_aggregate_type e) "target"%string;
  _ ← assert_eq (env_instance_id e) "c-1"%string;
  _ ← assert_eq (value_get (env_command e) "source_event_type") (Some (json_str "Incremented"));
  assert_eq (events_seen saga) 1.

Definition checkpoint_serialization_roundtrip : option unit :=
  json ← to_string (ck 5 42);
  parsed ← expect_ok (from_str json);
  _ ← assert_eq (index (index parsed "state") "events_seen") (json_num 5);
  _ ← assert_eq (index parsed "last_global_position") (json_num 42);
  loaded ← parse_as json;
  assert_checkpoint loaded 5 42.

Definition checkpoint_default_has_position_zero : option unit :=
  assert_checkpoint default_checkpoint 0 0.

Definition save_then_load_roundtrips : option unit :=
  let '(f, saved) := save_pm_checkpoint empty_fs tmp (ck 7 99) in
  _ ← expect_ok saved;
  loaded ← expect_ok (load_pm_checkpoint f tmp);
  loaded ← loaded;
  assert_checkpoint loaded 7 99.

Definition load_from_empty_dir_returns_none : option unit :=
  result ← expect_ok (load_pm_checkpoint empty_fs tmp); assert_none result.

Definition corrupt_file_returns_none : option unit :=
  let '(f, written) := fs_write empty_fs (join tmp "checkpoint.json") garbage in
  _ ← expect_ok written;
  loaded ← expect_ok (load_pm_checkpoint f tmp); assert_none loaded.

Definition catch_up_with_one_valid_event_returns_one_envelope : option unit :=
  let '(checkpoint, r) := process_stream default_checkpoint [event_response 0 0; caught_up_response] in
  envelopes ← expect_ok r;
  _ ← assert_eq (length envelopes) 1%nat;
  e ← envelopes !! 0%nat;
  _ ← assert_eq (env_aggregate_type e) "target"%string;
  _ ← assert_eq (env_instance_id e) "c-1"%string;
  assert_checkpoint checkpoint 1 1.

Definition second_catch_up_with_saved_checkpoint_returns_empty : option unit :=
  let '(checkpoint, r) := process_stream default_checkpoint [event_response 0 0; caught_up_response] in
  envelopes ← expect_ok r;
  _ ← assert_eq (length envelopes) 1%nat;
  let '(checkpoint, r) := process_stream checkpoint [caught_up_response] in
  envelopes ← expect_ok r;
  _ ← assert_eq (length envelopes) 0%nat;
  assert_checkpoint checkpoint 1 1.

Definition non_es_events_skipped_returns_empty : option unit :=
  let stream := [Ok (mk_SubscribeResponse (Some (Event (foreign_event 5)))); caught_up_response] in
  let '(checkpoint, r) := process_stream default_checkpoint stream in
  envelopes ← expect_ok r;
  _ ← assert_eq (length envelopes) 0%nat;
  assert_checkpoint checkpoint 0 6.

Definition pm_catch_up_react_event_decodes_and_advances_position : option unit :=
  runner ← expect_ok new_runner;
  let '(catch_up, envelopes) := react_event runner (make_recorded_event 5 0) in
  _ ← assert_eq (length envelopes) 1%nat;
  e ← envelopes !! 0%nat;
  _ ← assert_eq (env_aggregate_type e) "target"%string;
  assert_eq (pm_position catch_up) 6.

Definition pm_catch_up_position_starts_at_zero : option unit :=
  runner ← expect_ok new_runner; assert_eq (pm_position runner) 0.

Definition pm_catch_up_react_event_skips_non_es_events : option unit :=
  runner ← expect_ok new_runner;
  let '(catch_up, envelopes) := react_event runner (foreign_event 3) in
  _ ← assert_eq (length envelopes) 0%nat;
  assert_eq (pm_position catch_up) 4.

Definition react_recorded_event_skips_already_processed_positions : option unit :=
  let '((state, position), envelopes) :=
    react_recorded_event (mk_EchoSaga 0) 5 (make_recorded_event 3 3) in
  _ ← assert_eq (length envelopes) 0%nat;
  _ ← assert_eq (events_seen state) 0;
  _ ← assert_eq position 5;
  let '((state, position), envelopes) :=
    react_recorded_event state position (make_recorded_event 5 5) in
  _ ← assert_eq (length envelopes) 1%nat;
  _ ← assert_eq (events_seen state) 1;
  _ ← assert_eq position 6;
  let '((state, position), envelopes) :=
    react_recorded_event state position (make_recorded_event 10 10) in
  _ ← assert_eq (length envelopes) 1%nat;
  _ ← assert_eq (events_seen state) 2;
  assert_eq position 11.

(** The text of the file without its last character, the line feed. *)
Definition trimmed (b : bytes) : bytes := take (length b - 1) b.

Definition dead_letter_append_creates_readable_jsonl : option unit :=
  let path := join tmp "dead_letters.jsonl" in
  let envelope := mk_CommandEnvelope "target" "t-1" (json_obj [("action", json_str "test")])
                    CommandContext_default in
  let '(f, appended) := append_dead_letter empty_fs (Some 1700000000) path envelope "test error" in
  _ ← expect_ok appended;
  contents ← expect_ok (fs_read f path);
  text ← from_utf8 (trimmed contents);
  entry ← parse_as (X := DeadLetterEntry) text;
  _ ← assert_eq (dl_error entry) "test error"%string;
  assert_eq (env_aggregate_type (dl_envelope entry)) "target"%string.

Definition all := [process_manager_trait_has_no_subscriptions_method;
  checkpoint_serialization_roundtrip; checkpoint_default_has_position_zero;
  save_then_load_roundtrips; load_from_empty_dir_returns_none; corrupt_file_returns_none;
  catch_up_with_one_valid_event_returns_one_envelope;
  second_catch_up_with_saved_checkpoint_returns_empty; non_es_events_skipped_returns_empty;
  pm_catch_up_react_event_decodes_and_advances_position; pm_catch_up_position_starts_at_zero;
  pm_catch_up_react_event_skips_non_es_events;
  react_recorded_event_skips_already_processed_positions;
  dead_letter_append_creates_readable_jsonl].
End ProcessManagerTests.

(** ** [src/actor.rs] *)
Module ActorTests.
Import Fixture.

(** The mock store with tonic's FAILED_PRECONDITION. *)
#[local] Instance mock_ops : EventStoreOps MockStore := MockStore_ops (mk_DemoStatus 9).

Abbreviation Env := (ActorEnv (Store := MockStore) (F := MemFs)).

Definition test_config : ActorConfig := mk_ActorConfig (from_secs (u64_MAX / 2)).

(** [spawn_test_actor]. *)
Definition spawn_test_actor (f : MemFs) (store : MockStore) (instance_id : string)
    : Env * option (ActorContext * ActorState (DemoState TCounter)) :=
  let '(e, r) := spawn_actor_with_store (A := DemoState TCounter) (mk_ActorEnv store f 0)
                   instance_id tmp test_config in
  (e, expect_ok r).

Definition three_precondition_failures_returns_wrong_expected_version : option unit :=
  let '(e, spawned) := spawn_test_actor empty_fs (with_precondition_failures 3) "c-fail" in
  '(c, a) ← spawned;
  match (handle_execute c e (Running a) Increment CommandContext_default).2 with
  | Err WrongExpectedVersion => Some ()
  | _ => None
  end.

Definition execute_then_shutdown_saves_snapshot : option unit :=
  let '(e, spawned) := spawn_test_actor empty_fs mock_new "c-snap" in
  '(c, a) ← spawned;
  let '(e, task, r) := handle_execute c e (Running a) Increment CommandContext_default in
  _ ← expect_ok r;
  let '(e, task, _) := send_message c e task Shutdown in
  snap ← expect_ok (load_snapshot (A := DemoState TCounter) (ae_fs e) tmp "c-snap");
  snap ← snap;
  _ ← assert_eq (snap_version snap) 0;
  assert_eq (value (snap_state snap)) 1.

Definition extra_event : RecordedEvent :=
  let metadata := json_obj [("aggregate_type", json_str "counter");
                            ("instance_id", json_str "c-catchup")] in
  mk_RecordedEvent (uuid_to_string (new_v4 0).2)
    (uuid_to_string (stream_uuid "counter" "c-catchup")) 3 3 "Incremented"
    (json_text metadata) (json_text Null) 1700000000000.

Definition spawn_with_snapshot_catches_up_from_server : option unit :=
  let '(f, saved) := save_snapshot (A := DemoState TCounter) empty_fs tmp "c-catchup"
                       (mk_Snapshot (mk_Counter 2) 2) in
  _ ← expect_ok saved;
  let '(e, spawned) := spawn_test_actor f (with_events mock_new [extra_event]) "c-catchup" in
  '(c, a) ← spawned;
  state ← expect_ok (handle_state (A := DemoState TCounter) c e (Running a)).2;
  assert_eq (value state) 3.

Definition all := [three_precondition_failures_returns_wrong_expected_version;
  execute_then_shutdown_saves_snapshot; spawn_with_snapshot_catches_up_from_server].
End ActorTests.

(** ** [src/store.rs] *)
Module StoreTests.

(** The projections the tests declare: they count, under a name of their own. *)
Inductive TestProjection := TestCounter | FallbackCounter | ProjTestCounter | ProjTestCounter2.
#[local] Instance TestProjection_eq_dec : EqDecision TestProjection.
Proof. solve_decision. Defined.
Definition TestProj (_ : TestProjection) : Type := EventCounter.
#[local] Instance test_projections (p : TestProjection) : Projection (TestProj p) :=
  {| PROJ_NAME := match p with
                  | TestCounter => "test-counter"
                  | FallbackCounter => "fallback-counter"
                  | ProjTestCounter => "proj-test-counter"
                  | ProjTestCounter2 => "proj-test-counter2"
                  end;
     proj_default := mk_EventCounter 0;
     proj_apply := event_counter_apply |}.
#[local] Instance test_projection_value (p : TestProjection) :
  ValueSerde (TestProj p) := EventCounter_value.

Abbreviation TestStore := (AggregateStore (Store := DemoClient) (F := MemFs)
  (TypeId := DemoAgg) (Agg := DemoState) (ProjId := TestProjection) (Proj := TestProj)
  (PmId := ()) (Pm := DemoPm)).

Definition mock_client : DemoClient := ClientTests.from_inner ClientTests.lazy_channel.

Definition mock_store_with_live_config (live_config : LiveConfig) : TestStore :=
  mk_AggregateStore mock_client empty_fs 0 (Some 1700000000) tmp ∅ ∅ 0 ∅ [] ∅
    DEFAULT_IDLE_TIMEOUT live_config None.

Definition mock_store : TestStore := mock_store_with_live_config LiveConfig_default.

(** [handle.shutdown().await] beside the loop [start_live] has spawned: the call
    sends the signal and takes the task, the loop sees the signal, the call joins
    the task. *)
Definition shutdown_result (w : TestStore) : option (io_result unit) :=
  h ← handle_run "panic" (handle_init w) [HCall; HTurn 0; HTurn 0; HLoop LRun; HTurn 0];
  match hd_calls h with [Returned r] => Some r | _ => None end.

Definition start_live_twice_returns_already_exists_error : option unit :=
  let '(store, result) := start_live mock_store in
  _ ← expect_ok result;
  err ← expect_err (start_live store).2;
  _ ← assert_eq (kind err) AlreadyExists;
  r ← shutdown_result store;
  expect_ok r.

(** A handle placed in the store's mutex by hand. *)
Definition live_mode : LiveHandle := mk_LiveHandle false true 0 0.

Definition live_projection_returns_state_when_live_active : option unit :=
  let checkpoint_dir := join (join tmp "projections") "test-counter" in
  runner ← expect_ok (runner_new (P := TestProj TestCounter) empty_fs checkpoint_dir);
  let runner := runner_apply_event runner (make_recorded_event 0 0) in
  let runner := runner_apply_event runner (make_recorded_event 1 1) in
  let runner := runner_apply_event runner (make_recorded_event 2 2) in
  let store :=
    set_live (set_projections mock_store
      {[ "test-counter" :=
           existT (P := λ p, ProjectionRunner (TestProj p)) TestCounter runner ]}) (Some live_mode) in
  state ← expect_ok (live_projection store TestCounter).2;
  assert_eq (count state) 3.

Definition live_projection_falls_back_when_not_live : option unit :=
  err ← expect_err (live_projection mock_store FallbackCounter).2;
  assert_eq (kind err) NotFound.

Definition projection_works_when_live_mode_active : option unit :=
  err ← expect_err (projection (set_live mock_store (Some live_mode)) ProjTestCounter).2;
  assert_eq (kind err) NotFound.

Definition projection_works_when_live_mode_not_active : option unit :=
  err ← expect_err (projection mock_store ProjTestCounter2).2;
  assert_eq (kind err) NotFound.

(** Nobody listens on port 1. *)
Definition builder_connect_returns_err_when_no_server : option unit :=
  let connect_to (endpoint : string) (_ : option TokenLock) : result DemoClient string :=
    if bool_decide (endpoint = "http://127.0.0.1:1"%string) then Err "connection refused"
    else Ok mock_client in
  err ← expect_err (open (F := MemFs) (Proj := TestProj) (Pm := DemoPm) (Agg := DemoState)
                      connect_to tmp empty_fs 0 (Some 1700000000)
                      (endpoint builder_new "http://127.0.0.1:1"));
  Some ().

Definition builder_stores_custom_live_config : option unit :=
  let custom := mk_LiveConfig (from_secs 42) 500000000 (from_secs 60) in
  let store := mock_store_with_live_config custom in
  _ ← assert_eq (checkpoint_interval (live_config store)) (from_secs 42);
  _ ← assert_eq (reconnect_base_delay (live_config store)) 500000000;
  assert_eq (reconnect_max_delay (live_config store)) (from_secs 60).

Definition builder_default_live_config : option unit :=
  let default := LiveConfig_default in
  _ ← assert_eq (checkpoint_interval (live_config mock_store)) (checkpoint_interval default);
  _ ← assert_eq (reconnect_base_delay (live_config mock_store)) (reconnect_base_delay default);
  assert_eq (reconnect_max_delay (live_config mock_store)) (reconnect_max_delay default).

Definition start_live_returns_ok_handle : option unit :=
  let '(store, result) := start_live mock_store in
  _ ← expect_ok result;
  r ← shutdown_result store;
  expect_ok r.

Abbreviation new_builder := (builder_new (TypeId := DemoAgg) (ProjId := TestProjection) (PmId := ())).

Definition builder_without_auth_token_has_none : option unit :=
  assert_none (b_auth_token new_builder).

Definition builder_with_auth_token_has_some : option unit :=
  _ ← b_auth_token (auth_token new_builder (mk_TokenLock "tok" false)); Some ().

(** The cache holds a handle whose channel has a receiver, which nobody reads. *)
Definition cached_store : TestStore :=
  let ctx := mk_ActorContext (stream_uuid "counter" "c-1") "c-1" tmp
               (mk_ActorConfig DEFAULT_IDLE_TIMEOUT) in
  let task := Running (mk_ActorState (A := DemoState TCounter) (Fixture.mk_Counter 0) None) in
  let handle := mk_AggregateHandle TCounter 0 ctx in
  set_cache (set_tasks mock_store (<[0 := existT TCounter task]> ∅) 1)
    (<[(TCounter, "c-1"%string) := existT TCounter handle]> ∅).

Definition get_twice_returns_cached_alive_handles : option unit :=
  let '(store, r1) := get cached_store TCounter "c-1" in
  h1 ← expect_ok r1;
  _ ← assert (handle_is_alive store TCounter h1);
  let '(store, r2) := get store TCounter "c-1" in
  h2 ← expect_ok r2;
  assert (handle_is_alive store TCounter h2).

Definition all := [start_live_twice_returns_already_exists_error;
  live_projection_returns_state_when_live_active; live_projection_falls_back_when_not_live;
  projection_works_when_live_mode_active; projection_works_when_live_mode_not_active;
  builder_connect_returns_err_when_no_server; builder_stores_custom_live_config;
  builder_default_live_config; start_live_returns_ok_handle;
  builder_without_auth_token_has_none; builder_with_auth_token_has_some;
  get_twice_returns_cached_alive_handles].
End StoreTests.

(** ** [src/live.rs] *)
Module LiveTests.

Definition live_config_default_values : option unit :=
  let config := LiveConfig_default in
  _ ← assert_eq (checkpoint_interval config) (from_secs 5);
  _ ← assert_eq (reconnect_base_delay config) (from_secs 1);
  assert_eq (reconnect_max_delay config) (from_secs 30).

(** The cells of a handle built by hand; [receivers] are alive. *)
Definition new_cells (receivers : N) : LiveHandle := mk_LiveHandle false false 0 receivers.

Definition is_caught_up_returns_false_initially : option unit :=
  assert (negb (is_caught_up (new_cells 0))).

Definition is_caught_up_returns_true_after_flag_set : option unit :=
  assert (is_caught_up (set_caught_up (new_cells 0))).

Definition mock_client : DemoClient := ClientTests.from_inner ClientTests.lazy_channel.

(** A store that is nothing but its runners. *)
Definition mock_store (projections : gmap string (sigT (λ p : (), ProjectionRunner (DemoProj p))))
    (process_managers : list (sigT (λ q : (), ProcessManagerRunner (DemoPm q)))) : DemoStore :=
  mk_AggregateStore mock_client empty_fs 0 (Some 1700000000) tmp ∅ ∅ 0 projections
    process_managers ∅ (from_secs 300) LiveConfig_default None.

(** A handle whose task, if it has one, ends with [r] and the store [w]. *)
Definition handle_with_task (w : DemoStore) (task : bool) (r : io_result unit) : Handle :=
  mk_Handle (mk_Live w (new_cells 0) 0 (Finished r)) task [].

Definition shutdown_with_no_task_returns_ok : option unit :=
  h ← handle_run "panic" (handle_with_task (mock_store ∅ []) false (Ok ())) [HCall; HTurn 0; HTurn 0];
  match hd_calls h with [Returned r] => expect_ok r | _ => None end.

Definition subscribe_returns_receiver_with_initial_value_zero : option unit :=
  assert_eq (position (subscribe (new_cells 1))) 0.

Definition subscribe_multiple_times_returns_independent_receivers : option unit :=
  let cells := subscribe (subscribe (new_cells 1)) in
  _ ← assert_eq (position cells) 0;
  let cells := send_position cells 42 in
  assert_eq (position cells) 42.

(** A clone of a handle has the same cells. *)
Definition subscribe_on_cloned_handle_shares_same_channel : option unit :=
  let cells := new_cells 1 in
  let cells := subscribe cells in
  _ ← assert_eq (position cells) 0;
  let cells := send_position cells 99 in
  assert_eq (position cells) 99.

Definition shutdown_twice_returns_ok : option unit :=
  h ← handle_run "panic" (handle_with_task (mock_store ∅ []) true (Ok ()))
        [HCall; HTurn 0; HTurn 0; HTurn 0; HCall; HTurn 1; HTurn 1];
  match hd_calls h with
  | [Returned first; Returned second] => _ ← expect_ok first; expect_ok second
  | _ => None
  end.

(** [expect] on the two runners, then the store with them. *)
Definition event_counter_runner : option (ProjectionRunner (DemoProj ())) :=
  expect_ok (runner_new (P := DemoProj ()) empty_fs (join (join tmp "projections") "event-counter")).

Definition mock_store_with_projection : option DemoStore :=
  runner ← event_counter_runner;
  Some (mock_store {[ "event-counter"%string :=
                        existT (P := λ p : (), ProjectionRunner (DemoProj p)) () runner ]} []).

Definition mock_store_with_projection_and_pm : option DemoStore :=
  runner ← event_counter_runner;
  pm_runner ← expect_ok (pm_runner_new (PM := DemoPm ()) empty_fs
                           (join (join tmp "process_managers") "echo-saga"));
  Some (mock_store {[ "event-counter"%string :=
                        existT (P := λ p : (), ProjectionRunner (DemoProj p)) () runner ]}
          [existT (P := λ q : (), ProcessManagerRunner (DemoPm q)) () pm_runner]).

Abbreviation two_events := [event_response 0 0; event_response 1 1; caught_up_response].

(** The state of the projection, downcast, and its count. *)
Definition projection_count (store : DemoStore) : option N :=
  match projections store !! "event-counter"%string with
  | Some runner => Some (count (runner_state (projT2 runner)))
  | None => None
  end.

(** The checkpoint file of the projection, parsed. *)
Definition saved_checkpoint (f : MemFs) : option Value :=
  contents ← expect_ok (fs_read f (join (join (join tmp "projections") "event-counter") "checkpoint.json"));
  text ← from_utf8 contents;
  expect_ok (from_str text).

Definition live_loop_processes_events_and_fans_out_to_projections : option unit :=
  store ← mock_store_with_projection;
  let '(store, cells, r) := process_stream_with_dispatch store (new_cells 0) two_events in
  _ ← expect_ok r;
  _ ← assert (caught_up cells);
  n ← projection_count store;
  assert_eq n 2.

Definition live_loop_dispatches_pm_envelopes_dead_letters_unknown_type : option unit :=
  store ← mock_store_with_projection_and_pm;
  let '(store, _, r) := process_stream_with_dispatch store (new_cells 0)
                          [event_response 0 0; caught_up_response] in
  _ ← expect_ok r;
  let dead_letter_path :=
    join (join (join tmp "process_managers") "echo-saga") "dead_letters.jsonl" in
  contents ← expect_ok (fs_read (fs store) dead_letter_path);
  text ← from_utf8 (ProcessManagerTests.trimmed contents);
  entry ← parse_as (X := DeadLetterEntry) text;
  assert (contains (dl_error entry) "unknown aggregate type: target").

Definition live_loop_saves_checkpoints_on_shutdown : option unit :=
  store ← mock_store_with_projection;
  let '(store, _, r) := process_stream_with_dispatch store (new_cells 0) two_events in
  _ ← expect_ok r;
  parsed ← saved_checkpoint (fs (save_all_checkpoints store));
  _ ← assert_eq (index parsed "last_global_position") (json_num 2);
  assert_eq (index (index parsed "state") "count") (json_num 2).

Definition min_global_position_with_no_projections_returns_zero : option unit :=
  assert_eq (min_global_position (mock_store ∅ [])) 0.

Definition min_global_position_returns_min_of_projections_and_pms : option unit :=
  store ← mock_store_with_projection_and_pm;
  _ ← assert_eq (min_global_position store) 0;
  let '(store, _, r) := process_stream_with_dispatch store (new_cells 0) two_events in
  _ ← expect_ok r;
  assert_eq (min_global_position store) 2.

Definition backoff_respects_live_config_values : option unit :=
  let config := mk_LiveConfig (from_secs 1) 100000000 300000000 in
  let delay := reconnect_base_delay config in
  _ ← assert_eq delay 100000000;
  delay ← expect_ok (next_backoff config delay);
  _ ← assert_eq delay 200000000;
  delay ← expect_ok (next_backoff config delay);
  _ ← assert_eq delay 300000000;
  delay ← expect_ok (next_backoff config delay);
  assert_eq delay 300000000.

Definition stream_error_returns_stream_outcome_error : option unit :=
  store ← mock_store_with_projection;
  let '(store, _, r) := process_stream_with_dispatch store (new_cells 0)
                          [event_response 0 0; Err (status_internal "connection lost")] in
  result ← expect_ok r;
  match result with
  | StreamError _ => n ← projection_count store; assert_eq n 1
  | Ended => None
  end.

Definition process_stream_sends_position_after_each_event : option unit :=
  store ← mock_store_with_projection;
  let '(_, cells, r) := process_stream_with_dispatch store (new_cells 1) two_events in
  _ ← expect_ok r;
  assert_eq (position cells) 1.

Definition run_live_loop_shutdown_saves_checkpoints : option unit :=
  store ← mock_store_with_projection;
  let '(store, _, r) := process_stream_with_dispatch store (new_cells 0)
                          [event_response 0 0; caught_up_response] in
  _ ← expect_ok r;
  let handle := handle_with_task (save_all_checkpoints store) true (Ok ()) in
  h ← handle_run "panic" handle [HCall; HTurn 0; HTurn 0; HTurn 0];
  _ ← match hd_calls h with [Returned r] => expect_ok r | _ => None end;
  parsed ← saved_checkpoint (fs (lv_store (hd_loop h)));
  assert_eq (index parsed "last_global_position") (json_num 1).

Definition all := [live_config_default_values; is_caught_up_returns_false_initially;
  is_caught_up_returns_true_after_flag_set; shutdown_with_no_task_returns_ok;
  subscribe_returns_receiver_with_initial_value_zero;
  subscribe_multiple_times_returns_independent_receivers;
  subscribe_on_cloned_handle_shares_same_channel; shutdown_twice_returns_ok;
  live_loop_processes_events_and_fans_out_to_projections;
  live_loop_dispatches_pm_envelopes_dead_letters_unknown_type;
  live_loop_saves_checkpoints_on_shutdown; min_global_position_with_no_projections_returns_zero;
  min_global_position_returns_min_of_projections_and_pms; backoff_respects_live_config_values;
  stream_error_returns_stream_outcome_error; process_stream_sends_position_after_each_event;
  run_live_loop_shutdown_saves_checkpoints].
End LiveTests.

(** ** [src/lib.rs] *)
Module LibTests.

Definition proto_proposed_event_is_accessible : option unit :=
  let event := mk_ProposedEvent "test-id" "TestEvent" [] [] in
  _ ← assert_eq (pe_event_id event) "test-id"%string;
  assert_eq (pe_event_type event) "TestEvent"%string.

Definition proto_recorded_event_is_accessible : option unit :=
  let event := mk_RecordedEvent "evt-1" "stream-1" 0 42 "Incremented" [] [] 1700000000000 in
  _ ← assert_eq (re_global_position event) 42;
  assert_eq (re_recorded_at event) 1700000000000.

Definition proto_append_request_is_accessible : option unit :=
  let req := mk_AppendRequest "stream-1" None [] in
  _ ← assert_eq (ar_stream_id req) "stream-1"%string;
  assert (match ar_events req with [] => true | _ => false end).

Definition proto_expected_version_exact_variant : option unit :=
  let ev := mk_ExpectedVersion (Some (KindExact 5)) in
  assert (match ev_kind ev with Some (KindExact 5) => true | _ => false end).

Definition proto_subscribe_response_variants : option unit :=
  let caught_up := mk_SubscribeResponse (Some CaughtUp) in
  assert (match sr_content caught_up with Some CaughtUp => true | _ => false end).

Definition proto_list_streams_response_is_accessible : option unit :=
  let resp := mk_ListStreamsResponse [] in
  assert (match ls_streams resp with [] => true | _ => false end).

Definition all := [proto_proposed_event_is_accessible; proto_recorded_event_is_accessible;
  proto_append_request_is_accessible; proto_expected_version_exact_variant;
  proto_subscribe_response_variants; proto_list_streams_response_is_accessible].
End LibTests.

(** Every test. *)
Definition unit_tests : list (option unit) :=
  AggregateTests.all ++ AuthTests.all ++ ClientTests.all ++ CommandTests.all ++ ErrorTests.all ++
  EventTests.all ++ SnapshotTests.all ++ StorageTests.all ++ ProjectionTests.all ++
  ProcessManagerTests.all ++ ActorTests.all ++ StoreTests.all ++ LiveTests.all ++ LibTests.all.

Definition passes (t : option unit) : bool := match t with Some _ => true | None => false end.
