(* ===== verification/EventFacts.v ===== *)
(** Theorems about [Event] and the codec of [Actor]: what is encoded is what is
    decoded, what the metadata carries, and when two instances share a stream. *)
From Stdlib Require Import Strings.Ascii Strings.String.
From S2P Require Import Prelude Std Deps Command Aggregate Proto Event EventStore Client Actor.
From S2P Require Import Codec Demo DemoApp.
Open Scope N_scope.

Section events.
Context {J : SerdeJson} {JL : SerdeJsonLaws} {U : UuidOps} {T : Tonic}.

(** ** Lemmas *)

Lemma result_ok_to_vec v :
  ∃ s, from_utf8 (bytes_unwrap_or_default (to_vec v)) = Some s ∧ s ≠ EmptyString ∧
       from_str s = Ok v.
Proof. destruct (to_vec_from_str v) as (b & s & -> & ? & ? & ?). eauto. Qed.

Lemma str_is_empty_false s : s ≠ EmptyString → str_is_empty s = false.
Proof. by destruct s. Qed.

Lemma from_utf8_nil : from_utf8 [] = Some EmptyString.
Proof. by apply from_utf8_Some. Qed.

Lemma decode_payload_to_vec v :
  decode_payload (bytes_unwrap_or_default (to_vec v)) = Some v.
Proof.
  destruct (result_ok_to_vec v) as (s & Hs & Hne & Hp). unfold decode_payload.
  destruct (bytes_unwrap_or_default _) as [|x b] eqn:Hb; simpl.
  - rewrite from_utf8_nil in Hs. by simplify_eq.
  - rewrite Hs. simpl. by rewrite Hp.
Qed.

(** The keys of the metadata object are distinct, whatever is absent. *)
Lemma EventMetadata_get m k :
  value_get (EventMetadata_to_value m) k =
  if decide (k = "aggregate_type") then Some (json_str (em_aggregate_type m))
  else if decide (k = "instance_id") then Some (json_str (em_instance_id m))
  else if decide (k = "actor") then json_str <$> em_actor m
  else if decide (k = "correlation_id") then json_str <$> em_correlation_id m
  else if decide (k = "source_device") then json_str <$> em_source_device m
  else None.
Proof.
  unfold EventMetadata_to_value. rewrite value_get_json_obj.
  - destruct m as [ty id [a|] [c|] [d|]]; simpl;
      rewrite ?lookup_insert, ?lookup_empty; repeat (case_decide; simplify_eq; try done).
  - destruct m as [ty id [a|] [c|] [d|]]; simpl; repeat constructor; set_solver.
Qed.

(** ** Derived serialisation *)

Lemma as_object_is_Some l : as_object (json_obj l) = None → False.
Proof. destruct (as_object_json_obj l) as [o ->]. done. Qed.

Lemma EventMetadata_roundtrip m : EventMetadata_from_value (EventMetadata_to_value m) = Some m.
Proof.
  unfold EventMetadata_from_value, de_field.
  destruct (as_object _) eqn:Ho; [|by apply as_object_is_Some in Ho].
  simpl. erewrite !de_option_string by (left; by rewrite EventMetadata_get).
  rewrite !EventMetadata_get. simpl. rewrite !as_str_json_str. by destruct m.
Qed.

Lemma CommandContext_get c k :
  value_get (CommandContext_to_value c) k =
  if decide (k = "actor") then Some (default Null (json_str <$> actor c))
  else if decide (k = "correlation_id") then Some (default Null (json_str <$> correlation_id c))
  else if decide (k = "metadata") then Some (default Null (metadata c))
  else if decide (k = "source_device") then json_str <$> source_device c
  else None.
Proof.
  unfold CommandContext_to_value. rewrite value_get_json_obj.
  - destruct c as [a i m [d|]]; simpl;
      rewrite ?lookup_insert, ?lookup_empty; repeat (case_decide; simplify_eq; try done).
  - destruct c as [a i m [d|]]; simpl; repeat constructor; set_solver.
Qed.

(** A context reads back as it was written, but for a metadata value that is
    [null]: that is written like no metadata, and reads back as none. *)
Definition read_back_context (c : CommandContext) : CommandContext :=
  mk_CommandContext (actor c) (correlation_id c)
    (m ← metadata c; if is_null m then None else Some m) (source_device c).

Lemma CommandContext_read_back c :
  CommandContext_from_value (CommandContext_to_value c) = Some (read_back_context c).
Proof.
  unfold CommandContext_from_value.
  destruct (as_object _) eqn:Ho; [|by apply as_object_is_Some in Ho].
  simpl. rewrite (de_option_string _ "actor" (actor c)) by (right; by rewrite CommandContext_get).
  rewrite (de_option_string _ "correlation_id" (correlation_id c))
    by (right; by rewrite CommandContext_get).
  rewrite (de_option_string _ "source_device" (source_device c))
    by (left; by rewrite CommandContext_get).
  unfold de_option at 1. rewrite CommandContext_get. simpl. unfold read_back_context.
  destruct (metadata c) as [m|]; simpl; [|by rewrite is_null_Null].
  by destruct (is_null m).
Qed.

Lemma CommandEnvelope_get e k :
  value_get (CommandEnvelope_to_value e) k =
  if decide (k = "aggregate_type") then Some (json_str (env_aggregate_type e))
  else if decide (k = "instance_id") then Some (json_str (env_instance_id e))
  else if decide (k = "command") then Some (env_command e)
  else if decide (k = "context") then Some (CommandContext_to_value (env_context e))
  else None.
Proof.
  unfold CommandEnvelope_to_value. rewrite value_get_json_obj.
  - simpl. rewrite ?lookup_insert, ?lookup_empty. repeat (case_decide; simplify_eq; try done).
  - simpl. repeat constructor; set_solver.
Qed.

Definition read_back_envelope (e : CommandEnvelope) : CommandEnvelope :=
  mk_CommandEnvelope (env_aggregate_type e) (env_instance_id e) (env_command e)
    (read_back_context (env_context e)).

Lemma CommandEnvelope_read_back e :
  CommandEnvelope_from_value (CommandEnvelope_to_value e) = Some (read_back_envelope e).
Proof.
  unfold CommandEnvelope_from_value, de_field.
  destruct (as_object _) eqn:Ho; [|by apply as_object_is_Some in Ho].
  simpl. rewrite !CommandEnvelope_get. simpl.
  by rewrite !as_str_json_str, CommandContext_read_back.
Qed.

(** Only a metadata value that is [null] does not read back as it was. *)
Lemma read_back_envelope_id e :
  read_back_envelope e = e ↔ metadata (env_context e) ≠ Some Null.
Proof.
  destruct e as [ty id cmd [a i [m|] d]]; unfold read_back_envelope, read_back_context;
    simpl; [|done].
  destruct (is_null m) eqn:Hm; split; intros H; try (by apply is_null_iff in Hm; subst);
    [|done]. intros [= ->]. by rewrite is_null_Null in Hm.
Qed.

Lemma metadata_str_get v k s :
  value_get v k = Some (json_str s) → s ≠ EmptyString → metadata_str v k = Some s.
Proof.
  intros Hv Hs. unfold metadata_str. rewrite Hv. simpl.
  rewrite as_str_json_str. simpl. by rewrite str_is_empty_false.
Qed.

Lemma metadata_str_Some v k s :
  metadata_str v k = Some s ↔ value_get v k ≫= as_str = Some s ∧ s ≠ EmptyString.
Proof.
  unfold metadata_str. destruct (value_get v k ≫= as_str) as [[|c t]|]; simpl; naive_solver.
Qed.

Lemma decode_payload_is_Some b :
  is_Some (decode_payload b) ↔
  b = [] ∨ ∃ pt pv, from_utf8 b = Some pt ∧ from_str pt = Ok pv.
Proof.
  unfold decode_payload, is_Some. destruct b as [|x b]; simpl; [naive_solver|].
  setoid_rewrite bind_Some. setoid_rewrite result_ok_Some. naive_solver.
Qed.

Lemma EventMetadata_strings m :
  em_aggregate_type m ≠ EmptyString → em_instance_id m ≠ EmptyString →
  metadata_str (EventMetadata_to_value m) "aggregate_type" = Some (em_aggregate_type m) ∧
  metadata_str (EventMetadata_to_value m) "instance_id" = Some (em_instance_id m).
Proof.
  intros. split; (apply metadata_str_get; [rewrite EventMetadata_get; reflexivity|done]).
Qed.

Context {A : Type} {AG : Aggregate A}.

Lemma map_get_fields l o k :
  as_object (json_obj l) = Some o → NoDup l.*1 →
  map_get o k = (list_to_map l : gmap string Value) !! k.
Proof. intros. by apply map_get_json_obj. Qed.

(** What [encode_domain_event] produces, in terms of the serialised event. *)
Lemma encode_domain_event_Ok ctx ty id g (e : DomainEvent A) g' p :
  encode_domain_event ctx ty id g e = (g', Ok p) →
  ∃ value obj, event_to_value e = Ok value ∧ as_object value = Some obj ∧
    map_get obj "type" ≫= as_str = Some (pd_event_type p) ∧
    pd_payload p = default Null (map_get obj "data") ∧
    pd_metadata p =
      mk_EventMetadata ty id (actor ctx) (correlation_id ctx) (source_device ctx).
Proof.
  unfold encode_domain_event. destruct (event_to_value e) as [value| |]; try done.
  destruct (as_object value) as [obj|] eqn:Ho; [|done].
  destruct (map_get obj "type" ≫= as_str) eqn:Ht; [|done].
  destruct (new_v4 g) as [g1 uid]. intros; simplify_eq/=. eauto 10.
Qed.

Lemma decode_encode_domain_event `{!AdjacentlyTagged A} ctx ty id g (e : DomainEvent A) g' p r :
  encode_domain_event ctx ty id g e = (g', Ok p) → recorded_as (to_proto_event p) r →
  decode_domain_event (A := A) r = Some e.
Proof.
  intros (v & o & Hv & Ho & Ht & Hp & _)%encode_domain_event_Ok (_ & Hty & _ & Hpl).
  unfold decode_domain_event. rewrite Hty, Hpl. simpl.
  destruct (result_ok_to_vec (pd_payload p)) as (s & -> & Hs & Hj). simpl.
  rewrite (str_is_empty_false s), Hj by done. simpl.
  destruct (event_tagged e) as [t [[Hv' He]|[d [Hv' He]]]];
    rewrite Hv in Hv'; injection Hv' as ->;
    (rewrite !(map_get_fields _ _ _ Ho) in Ht; rewrite !(map_get_fields _ _ _ Ho) in Hp;
       [|repeat constructor; set_solver..]); simpl in *;
    rewrite lookup_insert_eq in Ht; simpl in Ht; rewrite as_str_json_str in Ht;
    rewrite lookup_insert_ne in Hp by done; simplify_eq/=.
  - rewrite lookup_empty in Hp. simpl in Hp. by rewrite Hp, is_null_Null, He.
  - rewrite lookup_insert_eq in Hp. simpl in Hp. rewrite Hp.
    destruct (is_null d); by rewrite He.
Qed.

(** ** Theorems *)
Context {UL : UuidLaws}.


(** The decoder is defensive and exact.  A recorded event decodes iff its
    metadata is UTF-8 JSON with non-empty string fields ["aggregate_type"] and
    ["instance_id"], both identifiers parse, and the payload is empty or
    UTF-8 JSON; every other event is skipped, none of them is a panic. *)
Lemma decode_stored_event_iff (r : RecordedEvent) :
  is_Some (decode_stored_event r) ↔
  ∃ text v ty id, from_utf8 (re_metadata r) = Some text ∧ from_str text = Ok v ∧
    value_get v "aggregate_type" ≫= as_str = Some ty ∧ ty ≠ EmptyString ∧
    value_get v "instance_id" ≫= as_str = Some id ∧ id ≠ EmptyString ∧
    is_Some (parse_str (re_event_id r)) ∧ is_Some (parse_str (re_stream_id r)) ∧
    (re_payload r = [] ∨
     ∃ pt pv, from_utf8 (re_payload r) = Some pt ∧ from_str pt = Ok pv).
Proof.
  setoid_rewrite <- decode_payload_is_Some. unfold decode_stored_event. split.
  - intros [ev (text & Ht & (v & Hv & (ty & [Hty Hty0]%metadata_str_Some &
      (id & [Hid Hid0]%metadata_str_Some & (u1 & Hu1 & (u2 & Hu2 & (p & Hp & _)%bind_Some
      )%bind_Some)%bind_Some)%bind_Some)%bind_Some)%bind_Some)%bind_Some].
    exists text, v, ty, id. apply result_ok_Some in Hv. by eauto 15.
  - intros (text & v & ty & id & Ht & Hv & Hty & Hty0 & Hid & Hid0 & [u1 Hu1] & [u2 Hu2] & [p Hp]).
    rewrite Ht. simpl. rewrite Hv. simpl.
    rewrite (proj2 (metadata_str_Some v "aggregate_type" ty) (conj Hty Hty0)).
    simpl. rewrite (proj2 (metadata_str_Some v "instance_id" id) (conj Hid Hid0)).
    simpl. rewrite Hu1. simpl. rewrite Hu2. simpl. rewrite Hp. simpl. eauto.
Qed.


(** The metadata an event carries: the instance, and exactly those of
    actor, correlation identifier and source device that the command context
    has; an absent one has no key.  Nothing else is written: the context's own
    [metadata] value is not forwarded. *)
Lemma encoded_metadata ctx ty id g (e : DomainEvent A) g' p
    (Henc : encode_domain_event ctx ty id g e = (g', Ok p)) :
  let get := value_get (EventMetadata_to_value (pd_metadata p)) in
  get "aggregate_type" = Some (json_str ty) ∧
  get "instance_id" = Some (json_str id) ∧
  get "actor" = json_str <$> actor ctx ∧
  get "correlation_id" = json_str <$> correlation_id ctx ∧
  get "source_device" = json_str <$> source_device ctx ∧
  ∀ k, k ∉ ["aggregate_type"; "instance_id"; "actor"; "correlation_id"; "source_device"] →
       get k = None.
Proof.
  apply encode_domain_event_Ok in Henc as (_ & _ & _ & _ & _ & _ & ->).
  simpl. repeat split; try (rewrite EventMetadata_get; reflexivity).
  intros k Hk. rewrite EventMetadata_get.
  repeat (case_decide; [exfalso; subst; set_solver|]). done.
Qed.
End events.

(** ** Stream identifiers *)
Section stream_ids.
Context {U : UuidOps}.

Lemma slash_split a b c d :
  split_last "/" a = None → split_last "/" c = None →
  (a ++ "/" ++ b = c ++ "/" ++ d)%string → a = c ∧ b = d.
Proof.
  revert c; induction a as [|x a IH]; intros [|y c]; cbn.
  - intros _ _ [= H]. done.
  - intros _ Hc [= Hy _]. exfalso. subst y.
    destruct (split_last "/" c) as [[]|]; [done|]. by rewrite Ascii.eqb_refl in Hc.
  - intros Ha _ [= Hx _]. exfalso. subst x.
    destruct (split_last "/" a) as [[]|]; [done|]. by rewrite Ascii.eqb_refl in Ha.
  - intros Ha Hc [= Hx H]. subst y. destruct (split_last "/" a) as [[]|] eqn:Ha'; [done|].
    destruct (split_last "/" c) as [[]|] eqn:Hc'; [done|].
    destruct (IH c) as [-> ->]; done.
Qed.

(** Instances do not share streams.  Where version-5 identifiers do not
    collide on names, two instances whose aggregate types contain no ["/"] get
    the same stream only when type and identifier are the same.  The
    restriction is needed: the name is the two parts joined by ["/"], so a
    slash may move from the type to the identifier. *)
Lemma stream_uuid_injective
    (Hv5 : ∀ b1 b2, new_v5 STREAM_NAMESPACE b1 = new_v5 STREAM_NAMESPACE b2 → b1 = b2) :
  (∀ ty id ty' id', split_last "/" ty = None → split_last "/" ty' = None →
     stream_uuid ty id = stream_uuid ty' id' → ty = ty' ∧ id = id') ∧
  ∀ a b c, stream_uuid (a ++ "/" ++ b) c = stream_uuid a (b ++ "/" ++ c).
Proof.
  split.
  - intros ty id ty' id' H1 H2 H%Hv5. apply slash_split; try done.
    apply (f_equal String.string_of_list_byte) in H. unfold as_bytes in H.
    by rewrite !String.string_of_list_byte_of_string in H.
  - intros a b c. unfold stream_uuid. by rewrite !string_app_assoc.
Qed.
End stream_ids.

(** ** Witnesses *)

(** A recorded event as the reference database records it. *)
Definition demo_recorded (p : ProposedEventData) : RecordedEvent :=
  mk_RecordedEvent (pe_event_id (to_proto_event p)) (demo_sid "counter" "c1") 0 7
    (pe_event_type (to_proto_event p)) (pe_metadata (to_proto_event p))
    (pe_payload (to_proto_event p)) 1700000000000.

Lemma demo_recorded_as p : recorded_as (to_proto_event p) (demo_recorded p).
Proof. done. Qed.



