(* ===== verification/ClientFacts.v ===== *)
(** Theorems about [Client] and [Auth]: over a server that keeps its promises
    the client is an event store and an event log in the sense of [EventStore]
    (the instances every other component is used with), what a read of a stream
    that was never written to gives, and which requests carry a token. *)
From Stdlib Require Import Strings.Ascii Strings.String Sorting.Sorted.
From S2P Require Import Prelude Std Deps Command Aggregate Proto Event Auth EventStore Client.
From S2P Require Import Codec Demo DemoApp.
Open Scope N_scope.

Section client_facts.
Context {J : SerdeJson} {U : UuidOps} {T : Tonic} {TL : TonicLaws}.
Context {W : Type} {G : Grpc W}.

(** ** Lemmas *)

(** A call either fails in the interceptor, and reaches nothing, or it is one
    call of the server. *)
Lemma send_cases {R} (c c' : EsClient)
    (rpc : W → gmap string MetadataValue → W * result R Status) r :
  send c rpc = (c', r) →
  (c' = c ∧ (r = Panic ∨ r = Err (status_internal "invalid token characters"))) ∨
  ∃ h w, rpc (server c) h = (w, r) ∧ c' = set_server c w.
Proof.
  unfold send, call. destruct (inner c); [|destruct (poisoned _)]; [|naive_solver|].
  - destruct (rpc (server c) ∅) as [w r'] eqn:Hr. intros [= <- <-]. right. eauto.
  - destruct (str_is_empty _);
      [|destruct (parse_metadata_value _); [|naive_solver]];
      destruct (rpc (server c) _) as [w r'] eqn:Hr; intros [= <- <-]; right; eauto.
Qed.

Lemma client_read_cases (c c' : EsClient) sid from max r :
  client_read_stream c sid from max = (c', r) →
  (c' = c ∧ (r = Panic ∨ r = Err (status_internal "invalid token characters"))) ∨
  ∃ h w r0, rpc_read_stream (server c) h
              (mk_ReadStreamRequest (uuid_to_string sid) from max) = (w, r0) ∧
    c' = set_server c w ∧
    (r = r0 ∧ (∀ e, r = Err e → code_is_not_found e = false) ∨
     ∃ e, r0 = Err e ∧ code_is_not_found e = true ∧ r = Ok []).
Proof.
  unfold client_read_stream. destruct (send _ _) as [c1 r1] eqn:Hs.
  intros Hr. apply send_cases in Hs as [[-> Hs]|(h & w & Hw & ->)].
  - left. destruct Hs as [->| ->]; simplify_eq; [by auto|].
    rewrite (proj2 (status_internal_code _)) in Hr. simplify_eq. auto.
  - right. exists h, w, r1. split; [done|].
    destruct r1 as [|e|]; [|destruct (code_is_not_found e) eqn:He|]; simplify_eq;
      (split; [done|]); [left|right; eauto|left|left]; naive_solver.
Qed.

Context {GS : GrpcSpec W}.

Lemma kind_ok_to_proto e l : kind_ok (Some (to_proto e)) l ↔ expected_ok e l.
Proof. by destruct e. Qed.

#[export] Instance EsClient_spec : EventStoreSpec to_proto_event (EsClient (W := W)).
Proof.
  refine {| stream_of c sid := g_stream (server c) (uuid_to_string sid) |}.
  - intros c sid. apply g_versions.
  - intros c sid. apply g_bounded.
  - intros c sid e evs c' r sid' [[-> _]|(h & w & Hw & ->)]%send_cases; [done|].
    by eapply g_append_grows.
  - intros c sid from max c' r sid' [[-> _]|(h & w & r0 & Hw & -> & _)]%client_read_cases;
      [done|]. by eapply g_read_grows.
  - intros c sid e evs c' resp [[_ [?|?]]|(h & w & Hw & ->)]%send_cases Hne; [done..|].
    eapply g_append_ok in Hw as (mid & recs & H1 & H2 & H3 & H4 & H5); [|by destruct evs].
    exists mid, recs. by rewrite <- kind_ok_to_proto.
  - intros c sid from max c' evs
      [[_ [?|?]]|(h & w & r0 & Hw & -> & [[<- _]|(e & -> & He & [= ->])])]%client_read_cases;
      [done..| |].
    + by eapply g_read_ok in Hw.
    + pose proof (g_read_not_found _ _ _ _ _ Hw He) as Hn. simpl in Hn.
      exists []. rewrite Hn. split; [done|]. split; [apply prefix_nil|].
      by rewrite drop_nil, take_nil.
Defined.

#[export] Instance EsClient_conflicts :
  EventStoreConflicts to_proto_event (EsClient (W := W)).
Proof.
  split. intros c sid e evs c' status [[_ [?|[= ->]]]|(h & w & Hw & ->)]%send_cases Hf; [done| |].
  - by rewrite (proj1 (status_internal_code _)) in Hf.
  - destruct (g_append_conflict _ _ _ _ _ Hw Hf) as (mid & H1 & H2 & H3).
    exists mid. by rewrite <- kind_ok_to_proto.
Qed.

#[export] Instance EsClient_log_spec : EventLogSpec (EsClient (W := W)).
Proof.
  refine {| log_of c := g_log (server c) |}.
  - intros c. apply g_log_sorted.
  - intros c. apply g_log_bounded.
  - intros c p c' r [[-> _]|(h & w & Hw & ->)]%send_cases; [done|].
    by eapply g_subscribe_grows.
  - intros c p c' items [[_ [?|?]]|(h & w & Hw & ->)]%send_cases; [done..|].
    by eapply g_subscribe_ok in Hw.
  - intros c p c' items evs [[_ [?|?]]|(h & w & Hw & ->)]%send_cases Hu; [done..|].
    by eapply g_subscribe_caught_up in Hw.
Defined.

#[export] Instance EsClient_store_log : EventStoreLogSpec (EsClient (W := W)).
Proof.
  split.
  - intros c sid e evs c' r [[-> _]|(h & w & Hw & ->)]%send_cases; [done|].
    by eapply g_append_log_grows.
  - intros c sid from max c' r [[-> _]|(h & w & r0 & Hw & -> & _)]%client_read_cases; [done|].
    by eapply g_read_log_grows.
Qed.

#[export] Instance EsClient_stream_log : EventStreamLogSpec to_proto_event (EsClient (W := W)).
Proof.
  split. intros c p c' r sid [[-> _]|(h & w & Hw & ->)]%send_cases; [done|].
  by eapply g_subscribe_stream_grows.
Qed.

(** ** Theorems *)


(** [read_stream] maps the server's [NOT_FOUND] to the empty stream: the
    client never reports it, whatever the interceptor or the server answer,
    and the server's every other answer is passed on. *)
Lemma client_read_not_found (c c' : EsClient (W := W)) sid from max r
    (Hread : client_read_stream c sid from max = (c', r)) :
  (∀ e, r = Err e → code_is_not_found e = false) ∧
  ∀ h w r0, inner c = PlainClient → h = ∅ →
    rpc_read_stream (server c) h (mk_ReadStreamRequest (uuid_to_string sid) from max) = (w, r0) →
    server c' = w ∧
    r = match r0 with Err e => if code_is_not_found e then Ok [] else r0 | _ => r0 end.
Proof.
  split.
  - intros e ->. apply client_read_cases in Hread as
      [[_ [?|[= ->]]]|(h & w & r0 & _ & _ & [[_ He]|(e' & _ & _ & ?)])]; [done| |by apply He|done].
    apply status_internal_code.
  - intros h w r0 Hi -> Hr. unfold client_read_stream, send in Hread. rewrite Hi, Hr in Hread.
    destruct r0; [..|]; try case_match; by simplify_eq.
Qed.

(** The token in the lock at the time of a call is the one the call
    carries.  After the application writes [t], an authenticated request goes
    out without a header when [t] is empty, with [authorization: Bearer t]
    (and its other headers unchanged) when that is a header value, and is not
    sent at all otherwise: the caller gets an internal status and the server
    is not reached. *)
Lemma bearer_token {R} (c c' : EsClient (W := W)) t
    (rpc : W → gmap string MetadataValue → W * result R Status) r
    (Hinner : inner c = AuthClient) (Hlock : poisoned (token_lock c) = false)
    (Hsend : send (set_token c t) rpc = (c', r)) :
  (t = EmptyString ∧ rpc (server c) ∅ = (server c', r)) ∨
  (t ≠ EmptyString ∧ ∃ v, parse_metadata_value ("Bearer " ++ t) = Some v ∧
     rpc (server c) {[ "authorization" := v ]} = (server c', r)) ∨
  (t ≠ EmptyString ∧ parse_metadata_value ("Bearer " ++ t) = None ∧
     server c' = server c ∧ r = Err (status_internal "invalid token characters")).
Proof.
  unfold send, set_token, call in Hsend. simpl in Hsend. rewrite Hinner, Hlock in Hsend.
  destruct t as [|x t]; simpl in Hsend.
  - left. destruct (rpc (server c) ∅) eqn:Hr. by simplify_eq.
  - destruct (parse_metadata_value _) as [v|] eqn:Hp; right; [left|right].
    + split; [done|]. exists v. split; [done|].
      rewrite <- insert_empty. destruct (rpc (server c) _) eqn:Hr. by simplify_eq.
    + by simplify_eq.
Qed.
End client_facts.

(** ** The token of every request *)
Section tokens.
Context {J : SerdeJson} {U : UuidOps} {T : Tonic} {TL : TonicLaws}.
Context {W : Type} {G : Grpc W}.

(** The server behind a recorder of the headers of every request it gets. *)
Record Recorder := mk_Recorder { behind : W; received : list (gmap string MetadataValue) }.

Definition recorded {R} (h : gmap string MetadataValue) (w : Recorder)
    (r : W * result R Status) : Recorder * result R Status :=
  (mk_Recorder r.1 (received w ++ [h]), r.2).

#[export] Instance recorder_grpc : Grpc Recorder := {|
  rpc_append w h req := recorded h w (rpc_append (behind w) h req);
  rpc_read_stream w h req := recorded h w (rpc_read_stream (behind w) h req);
  rpc_subscribe_all w h req := recorded h w (rpc_subscribe_all (behind w) h req);
|}.

(** What the application does with a client and with the lock it gave to it; a
    writer that panics while it holds the lock poisons it. *)
Inductive Use :=
  | WriteToken (t : string)
  | PanicInWriter
  | UseAppend (stream_id : Uuid) (expected : ExpectedVersionArg) (events : list ProposedEventData)
  | UseRead (stream_id : Uuid) (from_version max_count : N)
  | UseSubscribe (from_position : N).

(** The error or the panic of a call, if it has one. *)
Definition failed {R} (r : result R Status) : result unit Status :=
  match r with Ok _ => Ok () | Err e => Err e | Panic => Panic end.

Definition use (c : EsClient (W := Recorder)) (u : Use)
    : EsClient (W := Recorder) * option (result unit Status) :=
  match u with
  | WriteToken t => (set_token c t, None)
  | PanicInWriter =>
      (mk_EsClient (inner c) (mk_TokenLock (token (token_lock c)) true) (server c), None)
  | UseAppend sid e events =>
      let '(c', r) := client_append c sid e events in (c', Some (failed r))
  | UseRead sid from max =>
      let '(c', r) := client_read_stream c sid from max in (c', Some (failed r))
  | UseSubscribe p =>
      let '(c', r) := client_subscribe_all_from c p in (c', Some (failed r))
  end.

Fixpoint use_all (c : EsClient (W := Recorder)) (us : list Use)
    : EsClient (W := Recorder) * list (result unit Status) :=
  match us with
  | [] => (c, [])
  | u :: us =>
      let '(c1, r) := use c u in
      let '(c2, rs) := use_all c1 us in
      (c2, option_list r ++ rs)
  end.

(** What a call goes out with under a token, if it goes out. *)
Definition header_for (t : string) : option (gmap string MetadataValue) :=
  if str_is_empty t then Some ∅
  else (λ v, {[ "authorization" := v ]}) <$> parse_metadata_value ("Bearer " ++ t).

(** The headers of the requests in the order of the calls, and which calls are
    refused, from the uses alone: [lock] is the last token written, [None] once
    the lock is poisoned. *)
Fixpoint sent_with (lock : option string) (us : list Use)
    : list (gmap string MetadataValue) * list (option (result unit Status)) :=
  match us with
  | [] => ([], [])
  | WriteToken t :: us => sent_with ((λ _, t) <$> lock) us
  | PanicInWriter :: us => sent_with None us
  | _ :: us =>
      let '(hs, rs) := sent_with lock us in
      match lock with
      | None => (hs, Some Panic :: rs)
      | Some t =>
          match header_for t with
          | Some h => (h :: hs, None :: rs)
          | None => (hs, Some (Err (status_internal "invalid token characters")) :: rs)
          end
      end
  end.

(** The lock as [sent_with] sees it. *)
Definition lock_content (l : TokenLock) : option string :=
  if poisoned l then None else Some (token l).

(** A call of the recording server: it notes the headers and nothing else. *)
Definition notes {R} (rpc : Recorder → gmap string MetadataValue → Recorder * result R Status) :=
  ∀ w h, received (rpc w h).1 = received w ++ [h].

(** One call under the lock. *)
Lemma send_token {R} (c c' : EsClient (W := Recorder)) rpc (r : result R Status) :
  inner c = AuthClient → notes rpc → send c rpc = (c', r) →
  inner c' = AuthClient ∧ token_lock c' = token_lock c ∧
  match lock_content (token_lock c) with
  | None => received (server c') = received (server c) ∧ r = Panic
  | Some t =>
      match header_for t with
      | Some h => received (server c') = received (server c) ++ [h]
      | None => received (server c') = received (server c) ∧
                r = Err (status_internal "invalid token characters")
      end
  end.
Proof.
  intros Hi Hn. unfold send, call, lock_content, header_for. rewrite Hi.
  destruct (poisoned (token_lock c)); [by intros [= <- <-]|].
  destruct (str_is_empty (token (token_lock c))).
  - specialize (Hn (server c) ∅). destruct (rpc (server c) ∅) as [w r0]. by intros [= <- <-].
  - destruct (parse_metadata_value _) as [v|]; simpl; [|by intros [= <- <-]].
    rewrite insert_empty. specialize (Hn (server c) {[ "authorization" := v ]}).
    destruct (rpc (server c) _) as [w r0]. by intros [= <- <-].
Qed.

(** An answer as it must be, where that is known. *)
Definition answers (x : option (result unit Status)) (r : result unit Status) : Prop :=
  match x with Some r' => r = r' | None => True end.

Definition is_call (u : Use) : bool :=
  match u with WriteToken _ | PanicInWriter => false | _ => true end.

Lemma sent_with_call lock u us :
  is_call u = true →
  sent_with lock (u :: us) =
  let '(hs, rs) := sent_with lock us in
  match lock with
  | None => (hs, Some Panic :: rs)
  | Some t =>
      match header_for t with
      | Some h => (h :: hs, None :: rs)
      | None => (hs, Some (Err (status_internal "invalid token characters")) :: rs)
      end
  end.
Proof. by destruct u. Qed.

(** Every call is one request of the stub; reading turns "not found" into an
    empty stream, and touches no other answer. *)
Lemma use_send c c' u r :
  is_call u = true → use c u = (c', r) →
  ∃ R rpc (r0 : result R Status), notes rpc ∧ send c rpc = (c', r0) ∧
    ∃ r', r = Some r' ∧
      (r' = failed r0 ∨ ∃ e, r0 = Err e ∧ code_is_not_found e = true).
Proof.
  intros Hu Huse. destruct u as [t| |sid e events|sid from max|p]; [done..| | |]; simpl in Huse.
  - destruct (client_append c sid e events) as [c1 r0] eqn:Hs. simplify_eq.
    eexists _, _, r0. split; [|split; [exact Hs|by eauto]]. done.
  - unfold client_read_stream in Huse.
    destruct (send c _) as [c1 r0] eqn:Hs.
    assert (c1 = c') as ->
      by (destruct r0 as [x|e|]; [|destruct (code_is_not_found e)|]; by simplify_eq/=).
    eexists _, _, r0. split; [|split; [exact Hs|]]; [done|].
    destruct r0 as [x|e|]; [|destruct (code_is_not_found e) eqn:Hc|]; simplify_eq/=;
      eexists; (split; [done|]); eauto.
  - destruct (client_subscribe_all_from c p) as [c1 r0] eqn:Hs. simplify_eq.
    eexists _, _, r0. split; [|split; [exact Hs|by eauto]]. done.
Qed.

(** One call on an authenticated client. *)
Lemma use_token c c' u r :
  inner c = AuthClient → is_call u = true → use c u = (c', r) →
  inner c' = AuthClient ∧ token_lock c' = token_lock c ∧ ∃ r', r = Some r' ∧
  match lock_content (token_lock c) with
  | None => received (server c') = received (server c) ∧ r' = Panic
  | Some t =>
      match header_for t with
      | Some h => received (server c') = received (server c) ++ [h]
      | None => received (server c') = received (server c) ∧
                r' = Err (status_internal "invalid token characters")
      end
  end.
Proof.
  intros Hi Hu (R & rpc & r0 & Hn & Hs & r' & -> & Hr)%use_send; [|done].
  apply send_token in Hs as (H1 & H2 & H3); [|done..].
  split_and!; [done..|]. exists r'. split; [done|].
  destruct (lock_content _) as [t|]; [destruct (header_for t); [done|]|];
    destruct H3 as [H3 ->]; (split; [done|]); destruct Hr as [->|(e & [= <-] & He)]; try done.
  by rewrite (proj2 (status_internal_code _)) in He.
Qed.

(** A plain client's request has no header. *)
Lemma use_plain c c' u r :
  inner c = PlainClient → is_call u = true → use c u = (c', r) →
  inner c' = PlainClient ∧ is_Some r ∧ received (server c') = received (server c) ++ [∅].
Proof.
  intros Hi Hu (R & rpc & r0 & Hn & Hs & r' & -> & _)%use_send; [|done].
  unfold send in Hs. rewrite Hi in Hs. specialize (Hn (server c) ∅).
  destruct (rpc (server c) ∅) as [w r1]. simplify_eq/=. by eauto.
Qed.

(** C23: the token that every request carries.  Whatever calls an application makes
    on an authenticated client, with writes into the lock between them, the
    server receives, in the order of the calls, one request for each call made
    under a usable token, with the header of the token last written (and none
    for the empty one); a call under a token that is not a header value is
    answered with an internal error and not sent, and after a panic of a writer
    every call panics.  A plain client sends no header at all. *)
Theorem requests_carry_token (c c' : EsClient (W := Recorder)) us rs
    (Huse : use_all c us = (c', rs)) :
  (inner c = AuthClient →
     let sent := sent_with (lock_content (token_lock c)) us in
     received (server c') = received (server c) ++ sent.1 ∧ Forall2 answers sent.2 rs) ∧
  (inner c = PlainClient →
     received (server c') = received (server c) ++ replicate (length rs) ∅).
Proof.
  revert c rs Huse; induction us as [|u us IH]; intros c rs.
  { intros [= <- <-]. simpl. rewrite app_nil_r. split; [|done]. intros _. split; [done|constructor]. }
  simpl use_all.
  destruct (use c u) as [c1 r] eqn:Hu. destruct (use_all c1 us) as [c2 rs2] eqn:Hus.
  intros [= <- <-]. destruct (IH _ _ Hus) as [Hauth Hplain].
  destruct (is_call u) eqn:Hcall; (split; intros Hi; [cbv zeta|]).
  - destruct (use_token _ _ _ _ Hi Hcall Hu) as (H1 & H2 & r' & -> & H3).
    destruct (Hauth H1) as [Hrec Hans]. rewrite H2 in Hrec, Hans.
    rewrite Hrec, sent_with_call by done.
    destruct (sent_with (lock_content (token_lock c)) us) as [hs xs].
    destruct (lock_content (token_lock c)) as [t|]; [destruct (header_for t)|]; simpl in *;
      [rewrite H3, <- app_assoc|destruct H3 as [-> ->]..];
      (split; [done|by constructor]).
  - destruct (use_plain _ _ _ _ Hi Hcall Hu) as (H1 & [r' ->] & H2).
    by rewrite (Hplain H1), H2, <- app_assoc.
  - destruct u; [| |done..]; simplify_eq/=;
      [unfold lock_content in *; simpl in *; destruct (poisoned (token_lock c))|]; by apply Hauth.
  - destruct u; [| |done..]; simplify_eq/=; by apply Hplain.
Qed.
End tokens.

(** ** Witnesses *)



(** Two tokens, one that is no header value, none at all, and a poisoned lock. *)
Definition demo_uses : list Use :=
  [UseSubscribe 0; WriteToken "second"; UseRead (stream_uuid "counter" "c1") 0 10;
   WriteToken (String "010" EmptyString); UseSubscribe 0;
   WriteToken EmptyString; UseAppend (stream_uuid "counter" "c1") Any [];
   PanicInWriter; UseSubscribe 0].

Lemma requests_carry_token_witness :
  let c := connect_with_token (mk_TokenLock "first" false) (mk_Recorder (mk_RefDb [] []) []) in
  let '(c', rs) := use_all c demo_uses in
  received (server c') =
    [{[ "authorization" := "Bearer first"%string ]}; {[ "authorization" := "Bearer second"%string ]}; ∅] ∧
  Forall2 answers
    [None; None; Some (Err (status_internal "invalid token characters")); None; Some Panic] rs.
Proof.
  intros c. destruct (use_all c demo_uses) as [c' rs] eqn:H.
  exact (proj1 (requests_carry_token c c' demo_uses rs H) eq_refl).
Defined.
