(* ===== verification/DiskFacts.v ===== *)
(** Theorems about what is kept on disk: snapshots ([Snapshot]), projection and
    process-manager checkpoints ([Projection], [ProcessManager]) and dead
    letters.  Saving is all or nothing, loading reads back what was saved. *)
From Stdlib Require Import Strings.Ascii Strings.String.
From S2P Require Import Prelude Std Deps Command Aggregate Proto Event EventStore Snapshot.
From S2P Require Import Projection ProcessManager Codec Demo DemoApp.
Open Scope N_scope.

Section disk.
Context {J : SerdeJson} {F : Type} {FS : FileSystem F} {FL : FileSystemLaws F}.

(** ** Lemmas *)

Lemma fs_no_panics f p q b :
  (create_dir_all f p).2 ≠ Panic ∧ (fs_write f p b).2 ≠ Panic ∧
  (fs_rename f p q).2 ≠ Panic ∧ fs_read f p ≠ Panic ∧ (fs_append f p b).2 ≠ Panic.
Proof. apply fs_no_panic. Qed.

Lemma write_then_rename_no_panic f tmp p b : (write_then_rename f tmp p b).2 ≠ Panic.
Proof.
  unfold write_then_rename. pose proof (fs_no_panics f tmp p b) as (_ & Hw & _).
  destruct (fs_write f tmp b) as [f1 [[]|e|]]; [|done..].
  apply (fs_no_panics f1 tmp p b).
Qed.

(** Serialise, write aside, rename: the common tail of the three saves, with
    the error a serialisation failure becomes. *)
Definition save_tail {X} `{!Serde X} (mk : JsonError → io_error) (f : F) (dir tmp p : path)
    (x : X) : F * io_result unit :=
  match create_dir_all f dir with
  | (f1, Ok _) =>
      match to_json_bytes x with
      | Ok json => write_then_rename f1 tmp p json
      | Err e => (f1, Err (mk e))
      | Panic => (f1, Panic)
      end
  | (f1, Err e) => (f1, Err e)
  | (f1, Panic) => (f1, Panic)
  end.

(** What a save promises about the file system. *)
Definition saved_atomically {X} `{!Serde X} (tmp p : path) (x : X) (f f' : F)
    (r : io_result unit) : Prop :=
  r ≠ Panic ∧
  (r = Ok () → ∃ json, to_json_bytes x = Ok json ∧ content f' p = Some json) ∧
  (content f' p = content f p ∨ r = Ok ()) ∧
  ∀ q, q ≠ tmp → q ≠ p → content f' q = content f q.

Lemma save_tail_atomic {X} `{!Serde X, !SerdeLaws X} mk f dir tmp p (x : X) f' r :
  tmp ≠ p → save_tail mk f dir tmp p x = (f', r) → saved_atomically tmp p x f f' r.
Proof.
  intros Hne. unfold save_tail.
  pose proof (fs_no_panics f dir dir []) as (Hc & _).
  destruct (create_dir_all f dir) as [f1 [[]|e|]] eqn:Hd; [| |done];
    pose proof (λ q, create_dir_all_content _ _ _ _ q Hd) as Hf1.
  - pose proof (serde_no_panic x []) as [Hs _].
    destruct (to_json_bytes x) as [json|e|] eqn:Hj; [| |done].
    + intros Hw. pose proof (write_then_rename_no_panic f1 tmp p json) as Hp.
      rewrite Hw in Hp. apply write_then_rename_atomic in Hw as (H1 & H2 & H3); [|done].
      split; [done|]. split; [eauto|]. rewrite <- Hf1. split; [naive_solver|].
      intros. rewrite <- Hf1. by apply H3.
    + intros [= <- <-]. split_and!; [done|done|by left|done].
  - intros [= <- <-]. split_and!; [done|done|by left|done].
Qed.

(** What was saved reads back, unless the read itself fails. *)
Lemma read_saved {X} `{!Serde X, !SerdeLaws X} f p (x : X) json r :
  to_json_bytes x = Ok json → content f p = Some json → fs_read f p = r →
  (r = Ok json ∧ from_json_bytes json = Ok x) ∨ ∃ e, r = Err e ∧ kind e ≠ NotFound.
Proof.
  intros Hj Hc Hr. destruct r as [b|e|].
  - left. apply fs_read_ok in Hr. simplify_eq. split; [done|]. by apply serde_roundtrip.
  - right. exists e. split; [done|]. intros He.
    apply fs_read_not_found in Hr; [|done]. by simplify_eq.
  - by destruct (fs_no_panics f p p []) as (_ & _ & _ & ? & _).
Qed.

Lemma as_bytes_from_utf8 b s : from_utf8 b = Some s → as_bytes s = b.
Proof.
  intros [_ ->]%from_utf8_Some. apply String.list_byte_of_string_of_list_byte.
Qed.

Lemma read_to_string_saved {X} `{!Serde X, !SerdeLaws X} f p (x : X) json :
  to_json_bytes x = Ok json → content f p = Some json →
  (∃ text, read_to_string f p = Ok text ∧ from_json_bytes (as_bytes text) = Ok x) ∨
  ∃ e, read_to_string f p = Err e ∧ kind e ≠ NotFound.
Proof.
  intros Hj Hc. unfold read_to_string.
  destruct (read_saved f p x json _ Hj Hc eq_refl) as [[-> Hx]|(e & -> & He)]; [|by eauto].
  left. rewrite (proj2 (from_utf8_Some json _)) by (split; [by eapply serde_utf8|done]).
  eexists. split; [done|]. by rewrite String.list_byte_of_string_of_list_byte.
Qed.
End disk.

(** ** Snapshots *)
(** ** A trailing slash is lost when paths are joined *)
Lemma ends_with_slash_r a b :
  b ≠ EmptyString → ends_with_slash (a ++ b) = ends_with_slash b.
Proof.
  intros Hb. induction a as [|c a IH]; [done|].
  change (ends_with_slash (String c (a ++ b)) = ends_with_slash b). rewrite <- IH.
  assert (a ++ b ≠ EmptyString)%string as Hne by (by destruct a).
  by destruct (a ++ b)%string.
Qed.

Lemma join_slash d c :
  c ≠ EmptyString → ends_with_slash c = false →
  join d (c ++ "/") = (join d c ++ "/")%string ∧ join d c ≠ EmptyString ∧
  ends_with_slash (join d c) = false.
Proof.
  intros Hc Hs. unfold join.
  assert (starts_with_slash (c ++ "/") = starts_with_slash c) as -> by (by destruct c).
  destruct (starts_with_slash c); [done|]. destruct (str_is_empty d); [done|].
  assert (∀ x y : string, y ≠ EmptyString → (x ++ y)%string ≠ EmptyString) as Hne
    by (intros [|? ?] y Hy; done).
  destruct (ends_with_slash d); rewrite ?string_app_assoc; (split; [done|]); split;
    rewrite ?ends_with_slash_r; auto.
Qed.

(** Two instances with one snapshot file. *)
Lemma snapshot_path_trailing_slash base ty id :
  id ≠ EmptyString → ends_with_slash id = false →
  snapshot_path base ty (id ++ "/") = snapshot_path base ty id.
Proof.
  intros Hne Hs. unfold snapshot_path. set (d := join (join base "snapshots") ty).
  destruct (join_slash d id Hne Hs) as (-> & Hn & He). unfold join at 1 3. cbn [starts_with_slash].
  rewrite ends_with_slash_r by done. rewrite He.
  assert (str_is_empty (join d id ++ "/") = false) as -> by (by destruct (join d id)).
  assert (str_is_empty (join d id) = false) as -> by (by destruct (join d id)).
  by rewrite string_app_assoc.
Qed.

Section snapshots.
Context {J : SerdeJson} {F : Type} {FS : FileSystem F} {FL : FileSystemLaws F}.
Context {A : Type} {AG : Aggregate A} {SA : Serde (Snapshot A)} {SL : SerdeLaws (Snapshot A)}.

Abbreviation the_path base id := (snapshot_path base (AGGREGATE_TYPE A) id).
Abbreviation the_tmp base id := (with_extension (the_path base id) "json.tmp").

Lemma save_snapshot_atomic f base id (snap : Snapshot A) f' r :
  save_snapshot f base id snap = (f', r) →
  saved_atomically (the_tmp base id) (the_path base id) snap f f' r.
Proof.
  unfold save_snapshot.
  destruct (snapshot_path_parent base (AGGREGATE_TYPE A) id) as [dir ->]. intros Hs.
  eapply (save_tail_atomic _ f dir); [apply snapshot_tmp_ne|exact Hs].
Qed.

(** Saving a snapshot is all or nothing.  Whatever step fails, and it never
    panics, the instance's snapshot file afterwards holds its old content or,
    when the save reports success, the complete new snapshot; no other file
    than it and its temporary neighbour is touched. *)
Lemma snapshot_save_atomic f base id (snap : Snapshot A) f' r
    (Hsave : save_snapshot f base id snap = (f', r)) :
  r ≠ Panic ∧
  (r = Ok () → ∃ json, to_json_bytes snap = Ok json ∧ content f' (the_path base id) = Some json) ∧
  (r ≠ Ok () → content f' (the_path base id) = content f (the_path base id)) ∧
  ∀ q, q ≠ the_tmp base id → q ≠ the_path base id → content f' q = content f q.
Proof. apply save_snapshot_atomic in Hsave as (H1 & H2 & H3 & H4). naive_solver. Qed.

(** A saved snapshot loads back unchanged unless reading the file fails;
    and loading never fails on account of what the file holds: without a file,
    and with one that is not a snapshot, the answer is "no snapshot". *)
Lemma snapshot_roundtrip f base id (snap : Snapshot A) f'
    (Hsave : save_snapshot f base id snap = (f', Ok ())) :
  (load_snapshot f' base id = Ok (Some snap) ∨
   ∃ e, load_snapshot (A := A) f' base id = Err e ∧
        fs_read f' (the_path base id) = Err e ∧ kind e ≠ NotFound) ∧
  ∀ g e, (fs_read g (the_path base id) = Err e ∧ kind e = NotFound ∨
          ∃ b je, fs_read g (the_path base id) = Ok b ∧
                  (from_json_bytes b : result (Snapshot A) JsonError) = Err je) →
    load_snapshot (A := A) g base id = Ok None.
Proof.
  split.
  - apply save_snapshot_atomic in Hsave as (_ & Hok & _).
    destruct (Hok eq_refl) as (json & Hj & Hc). unfold load_snapshot.
    destruct (read_saved f' _ snap json _ Hj Hc eq_refl) as [[-> ->]|(e & -> & He)]; [by left|].
    right. exists e. by rewrite decide_False.
  - unfold load_snapshot. intros g e [[-> He]|(b & je & -> & ->)]; [|done].
    by rewrite decide_True.
Qed.
End snapshots.

(** ** Checkpoints *)
Section checkpoints.
Context {J : SerdeJson} {U : UuidOps} {T : Tonic}.
Context {F : Type} {FS : FileSystem F} {FL : FileSystemLaws F}.
Context {P : Type} {PR : Projection P}.
Context {SP : Serde (ProjectionCheckpoint P)} {SL : SerdeLaws (ProjectionCheckpoint P)}.
Context {PM : Type} {PMC : ProcessManager PM}.
Context {SM : Serde (ProcessManagerCheckpoint PM)} {SML : SerdeLaws (ProcessManagerCheckpoint PM)}.

Abbreviation file dir := (join dir "checkpoint.json").
Abbreviation file_tmp dir := (join dir "checkpoint.json.tmp").

Lemma runner_save_atomic f (r : ProjectionRunner P) f' res :
  runner_save f r = (f', res) →
  saved_atomically (file_tmp (pr_checkpoint_dir r)) (file (pr_checkpoint_dir r))
    (pr_checkpoint r) f f' res.
Proof. by apply save_tail_atomic, checkpoint_tmp_ne. Qed.

Lemma pm_save_atomic f (r : ProcessManagerRunner PM) f' res :
  pm_save f r = (f', res) →
  saved_atomically (file_tmp (pm_checkpoint_dir r)) (file (pm_checkpoint_dir r))
    (pm_checkpoint r) f f' res.
Proof. by apply save_tail_atomic, checkpoint_tmp_ne. Qed.

(** A saved runner is what a restart finds, unless the file cannot be read. *)
Lemma runner_restart f (r : ProjectionRunner P) f' :
  runner_save f r = (f', Ok ()) →
  runner_new f' (pr_checkpoint_dir r) = Ok r ∨
  ∃ e, runner_new (P := P) f' (pr_checkpoint_dir r) = Err e ∧ kind e ≠ NotFound.
Proof.
  intros (_ & Hok & _)%runner_save_atomic. destruct (Hok eq_refl) as (json & Hj & Hc).
  unfold runner_new, load_checkpoint.
  destruct (read_to_string_saved f' _ _ json Hj Hc) as [(t & -> & Ht)|(e & -> & He)].
  - rewrite Ht. left. by destruct r.
  - rewrite decide_False by done. right. by exists e.
Qed.

Lemma pm_restart f (m : ProcessManagerRunner PM) f' :
  pm_save f m = (f', Ok ()) →
  pm_runner_new f' (pm_checkpoint_dir m) = Ok m ∨
  ∃ e, pm_runner_new (PM := PM) f' (pm_checkpoint_dir m) = Err e ∧ kind e ≠ NotFound.
Proof.
  intros (_ & Hok & _)%pm_save_atomic. destruct (Hok eq_refl) as (json & Hj & Hc).
  unfold pm_runner_new, load_pm_checkpoint.
  destruct (read_to_string_saved f' _ _ json Hj Hc) as [(t & -> & Ht)|(e & -> & He)].
  - rewrite Ht. left. by destruct m.
  - rewrite decide_False by done. right. by exists e.
Qed.

(** Checkpoints survive a restart, those of projections and those of process
    managers.  After a successful save a new runner over the same directory is
    the saved runner, state and position, unless the file cannot be read; and a
    save that fails anywhere leaves the previous checkpoint file as it was. *)
Lemma checkpoint_restart f (r : ProjectionRunner P) f1 res1 (m : ProcessManagerRunner PM) f2 res2
    (Hproj : runner_save f r = (f1, res1)) (Hpm : pm_save f m = (f2, res2)) :
  (res1 = Ok () → runner_new f1 (pr_checkpoint_dir r) = Ok r ∨
     ∃ e, runner_new (P := P) f1 (pr_checkpoint_dir r) = Err e ∧ kind e ≠ NotFound) ∧
  (res1 ≠ Ok () →
     content f1 (file (pr_checkpoint_dir r)) = content f (file (pr_checkpoint_dir r))) ∧
  (res2 = Ok () → pm_runner_new f2 (pm_checkpoint_dir m) = Ok m ∨
     ∃ e, pm_runner_new (PM := PM) f2 (pm_checkpoint_dir m) = Err e ∧ kind e ≠ NotFound) ∧
  (res2 ≠ Ok () →
     content f2 (file (pm_checkpoint_dir m)) = content f (file (pm_checkpoint_dir m))).
Proof.
  pose proof Hproj as (_ & _ & Hor1 & _)%runner_save_atomic.
  pose proof Hpm as (_ & _ & Hor2 & _)%pm_save_atomic.
  split_and!; [intros ->; by eapply runner_restart|naive_solver
              |intros ->; by eapply pm_restart|naive_solver].
Qed.

(** What a projection starts from.  Without a checkpoint file, and with
    one whose text is not a checkpoint, the runner starts over at position 0;
    a file that is not UTF-8, although just as corrupt, is an error instead. *)
Lemma projection_checkpoint_corrupt f dir :
  (∀ e, fs_read f (file dir) = Err e → kind e = NotFound →
     runner_new f dir = Ok (mk_ProjectionRunner (mk_ProjectionCheckpoint (proj_default P) 0) dir)) ∧
  (∀ b text e, fs_read f (file dir) = Ok b → from_utf8 b = Some text →
     (from_json_bytes b : result (ProjectionCheckpoint P) JsonError) = Err e →
     runner_new f dir = Ok (mk_ProjectionRunner (mk_ProjectionCheckpoint (proj_default P) 0) dir)) ∧
  (∀ b, fs_read f (file dir) = Ok b → from_utf8 b = None →
     ∃ e, runner_new (P := P) f dir = Err e ∧ kind e = InvalidData).
Proof.
  unfold runner_new, load_checkpoint, read_to_string. split_and!.
  - intros e -> He. by rewrite decide_True.
  - intros b text e -> Ht He. rewrite Ht. by rewrite (as_bytes_from_utf8 _ _ Ht), He.
  - intros b -> ->. rewrite decide_False by done. eexists. split; [done|done].
Qed.

(** Writing a dead letter changes no other file. *)
Lemma append_dead_letter_frame `{!Serde DeadLetterEntry} f now p envelope error f' r q :
  append_dead_letter f now p envelope error = (f', r) → q ≠ p → content f' q = content f q.
Proof.
  intros Hdl Hq. destruct now as [now|]; [|by simpl in Hdl; simplify_eq].
  unfold append_dead_letter in Hdl.
  destruct (to_json_bytes _); [|by simplify_eq..].
  destruct (match parent p with Some d => _ | None => _ end) as [f1 c] eqn:Hc.
  assert (content f1 q = content f q) as <-.
  { destruct (parent p); [by eapply create_dir_all_content|by simplify_eq]. }
  destruct c as [[]|e|]; [|by simplify_eq..]. by eapply fs_append_frame.
Qed.

(** A dead letter is added behind what the log already holds, as one line,
    and no other file changes; when the entry does not serialise the log is
    unchanged too. *)
Lemma dead_letter_appended `{!Serde DeadLetterEntry} f now p envelope error f' r
    (Happ : append_dead_letter f (Some now) p envelope error = (f', r)) :
  (∀ q, q ≠ p → content f' q = content f q) ∧
  (r = Ok () → ∃ json, to_json_bytes (mk_DeadLetterEntry envelope error now) = Ok json ∧
     content f' p = Some (default [] (content f p) ++ json ++ [Byte.x0a])) ∧
  (∀ e, to_json_bytes (mk_DeadLetterEntry envelope error now) = Err e → content f' p = content f p).
Proof.
  unfold append_dead_letter in Happ.
  destruct (to_json_bytes _) as [json|e|]; [|by simplify_eq..].
  assert (∃ f1 c, (match parent p with Some dir => create_dir_all f dir | None => (f, Ok ()) end)
                  = (f1, c) ∧ ∀ q, content f1 q = content f q) as (f1 & c & Hc & Hf1).
  { destruct (parent p) as [dir|]; [|by eauto].
    destruct (create_dir_all f dir) as [f1 c] eqn:Hd. exists f1, c. split; [done|].
    intros q. by eapply create_dir_all_content. }
  rewrite Hc in Happ. destruct c as [[]|e|]; [|simplify_eq; naive_solver..].
  split_and!; [|intros ->|done].
  - intros q Hq. rewrite <- Hf1. by eapply fs_append_frame.
  - exists json. split; [done|]. apply fs_append_ok in Happ. by rewrite <- Hf1.
Qed.
End checkpoints.
