(* ===== verification/ActorFacts.v ===== *)
(** Theorems about [Actor] and [Snapshot]: an actor's state is always the
    replay of a prefix of its stream, a command is decided on exactly the
    events that precede the ones it appends, the retry loop is bounded and
    never appends twice, and what the snapshot adds to and takes from this. *)
From S2P Require Import Prelude Std Deps Command Errors Aggregate Proto Event EventStore.
From S2P Require Import Client Snapshot Actor Codec Demo DemoApp EventFacts ClientFacts DiskFacts.
Open Scope N_scope.

Section replay.
Context {J : SerdeJson} {U : UuidOps} {T : Tonic}.
Context {Store : Type} {ES : EventStoreOps Store} {SS : EventStoreSpec to_proto_event Store}.
Context {A : Type} {AG : Aggregate A}.

(** The state a list of recorded events replays to. *)
Definition replay (l : list RecordedEvent) : ActorState A :=
  fold_events (mk_ActorState (agg_default A) None) l.

(** The actor's invariant: it is at some prefix [l] of its stream. *)
Definition actor_at (s : Store) (sid : Uuid) (l : list RecordedEvent) (a : ActorState A) : Prop :=
  l `prefix_of` stream_of to_proto_event s sid ∧ a = replay l.

Definition actor_ok (s : Store) (sid : Uuid) (a : ActorState A) : Prop :=
  ∃ l, actor_at s sid l a.

(** ** Lemmas *)

Lemma replay_app l1 l2 : replay (l1 ++ l2) = fold_events (replay l1) l2.
Proof. apply foldl_app. Qed.

Lemma stream_prefix_versions s sid l i r :
  l `prefix_of` stream_of to_proto_event s sid → l !! i = Some r →
  re_stream_version r = N.of_nat i.
Proof. intros Hl Hi. eapply (stream_versions to_proto_event), prefix_lookup_Some; done. Qed.

Lemma stream_prefix_bounded s sid l :
  l `prefix_of` stream_of to_proto_event s sid → N.of_nat (length l) ≤ u64_MAX.
Proof.
  intros Hl%prefix_length. pose proof (stream_bounded to_proto_event s sid). lia.
Qed.

(** The version of an actor counts the events behind it. *)
Lemma replay_version s sid l :
  l `prefix_of` stream_of to_proto_event s sid →
  st_version (replay l) =
  match l with [] => None | _ => Some (N.of_nat (length l) - 1) end.
Proof.
  intros Hl. destruct l as [|r l _] using rev_ind; [done|].
  rewrite replay_app. cbn. f_equal.
  erewrite (stream_prefix_versions _ _ _ (length l)); [|done|by apply list_lookup_middle].
  rewrite length_app. destruct (l ++ [r]) eqn:Hlr; [by destruct l|]. simpl. f_equal. lia.
Qed.

Lemma replay_next_version s sid l :
  l `prefix_of` stream_of to_proto_event s sid →
  next_version (st_version (replay l)) = N.of_nat (length l).
Proof.
  intros Hl. rewrite (replay_version s sid) by done.
  pose proof (stream_prefix_bounded _ _ _ Hl). destruct l; [done|].
  simpl in *. rewrite u64_add_small; lia.
Qed.

(** The version check of an append pins the stream down to [l]. *)
Lemma expected_ok_replay s sid l mid :
  l `prefix_of` stream_of to_proto_event s sid → l `prefix_of` mid →
  expected_ok (expected_version (replay l)) mid → mid = l.
Proof.
  intros Hl Hm. unfold expected_version. rewrite (replay_version s sid) by done.
  destruct l as [|r l]; simpl; [done|]. intros Hlen. symmetry.
  apply (prefix_length_eq _ _ mid); [done..|]. simpl. lia.
Qed.

(** Reading from the actor's version on yields exactly what it has not seen. *)
Lemma read_catches_up s sid l s' evs :
  l `prefix_of` stream_of to_proto_event s sid →
  read_stream s sid (N.of_nat (length l)) u64_MAX = (s', Ok evs) →
  (l ++ evs) `prefix_of` stream_of to_proto_event s' sid.
Proof.
  intros Hl (cur & Hc1 & Hc2 & ->)%(read_ok to_proto_event).
  pose proof (stream_prefix_bounded _ _ _ Hc2) as Hb.
  rewrite take_ge, Nat2N.id by (rewrite length_drop; lia).
  assert (l `prefix_of` cur) as [k ->] by (by etrans).
  by rewrite drop_app_length.
Qed.

Lemma actor_ok_grow s s' sid a :
  stream_of to_proto_event s sid `prefix_of` stream_of to_proto_event s' sid →
  actor_ok s sid a → actor_ok s' sid a.
Proof. intros H (l & Hl & ->). exists l. split; [by etrans|done]. Qed.
End replay.

Section execute.
Context {J : SerdeJson} {JL : SerdeJsonLaws} {U : UuidOps} {T : Tonic}.
Context {Store : Type} {ES : EventStoreOps Store} {SS : EventStoreSpec to_proto_event Store}.
Context {A : Type} {AG : Aggregate A} {AT : AdjacentlyTagged A}.
Abbreviation stream := (stream_of to_proto_event).

(** Recorded events that read back as the given domain events. *)
Definition reads_back (es : list (DomainEvent A)) (recs : list RecordedEvent) : Prop :=
  Forall2 (λ e r, decode_domain_event (A := A) r = Some e) es recs.

Lemma fold_events_reads_back (a : ActorState A) es recs :
  reads_back es recs → st_state (fold_events a recs) = foldl apply (st_state a) es.
Proof.
  intros H. revert a. induction H as [|e r es recs He _ IH]; intros a; [done|].
  simpl. rewrite IH. simpl. by rewrite He.
Qed.

Lemma encoded_reads_back ctx ty id g g' (es : list (DomainEvent A)) proposed recs :
  try_map_state (encode_domain_event ctx ty id) g es = (g', Ok proposed) →
  Forall2 recorded_as (to_proto_event <$> proposed) recs → reads_back es recs.
Proof.
  intros Henc%try_map_state_Ok Hrec. revert recs Hrec.
  induction Henc as [|e p es ps (s1 & s2 & He) _ IH]; intros recs Hrec;
    inversion Hrec; subst; constructor; [|by apply IH].
  by eapply decode_encode_domain_event.
Qed.

(** An accepted append: the stream was the actor's prefix, and the new
    state is the replay of the prefix with the recorded events behind it. *)
Lemma append_decided s sid l ctx ty id g g' (es : list (DomainEvent A)) proposed s' resp :
  l `prefix_of` stream s sid → es ≠ [] →
  try_map_state (encode_domain_event ctx ty id) g es = (g', Ok proposed) →
  append s sid (expected_version (replay (A := A) l)) proposed = (s', Ok resp) →
  stream s sid = l ∧
  ∃ recs, reads_back es recs ∧ (l ++ recs) `prefix_of` stream s' sid ∧
    mk_ActorState (foldl apply (st_state (replay (A := A) l)) es)
      (Some (last_stream_version resp)) = replay (l ++ recs).
Proof.
  intros Hl Hes Henc Happ.
  pose proof (try_map_state_Ok _ _ _ _ _ Henc) as Hlen%Forall2_length.
  apply (append_ok to_proto_event) in Happ as (mid & recs & Hm & He & Hr & Hs & Hv);
    [|by destruct es, proposed].
  apply (expected_ok_replay s sid) in He as ->; [|done|by etrans].
  split; [by apply (anti_symm prefix)|].
  exists recs. pose proof (encoded_reads_back _ _ _ _ _ _ _ _ Henc Hr) as Hback.
  split; [done|]. split; [done|].
  apply (replay_version (A := A)) in Hs. rewrite (replay_app l recs) in *.
  pose proof (fold_events_reads_back (replay l) _ _ Hback) as Hst.
  destruct (fold_events (replay l) recs) as [st v]; simpl in *. subst. f_equal.
  destruct (l ++ recs) eqn:Hlr.
  - apply app_eq_nil in Hlr as [_ ->]. by inversion Hback; subst.
  - f_equal. simpl in *. lia.
Qed.

(** What an execution means, for each outcome: a prefix [l] of the stream, at
    or behind the one the actor was at, on which the command was decided. *)
Definition decided (s' : Store) (sid : Uuid) (l0 : list RecordedEvent) (cmd : Command A)
    (a' : ActorState A) (r : result (list (DomainEvent A)) (ExecuteError (DomainError A)))
    : Prop :=
  ∃ l, l0 `prefix_of` l ∧ l `prefix_of` stream s' sid ∧
    match r with
    | Ok es => handle (st_state (replay l)) cmd = Ok es ∧
        ∃ recs, reads_back es recs ∧ (l ++ recs) `prefix_of` stream s' sid ∧
                a' = replay (l ++ recs)
    | Err (Domain e) => handle (st_state (replay l)) cmd = Err e ∧ a' = replay l
    | _ => a' = replay l
    end.

Lemma decided_mono s' sid l0 l1 cmd a' r :
  l0 `prefix_of` l1 → decided s' sid l1 cmd a' r → decided s' sid l0 cmd a' r.
Proof. intros ? (l & ? & H). exists l. split; [by etrans|done]. Qed.

Lemma execute_attempts_decided n s g l sid id cmd ctx s' g' a' r :
  l `prefix_of` stream s sid →
  execute_attempts n s g (replay l) sid id cmd ctx = (s', g', a', r) →
  stream s sid `prefix_of` stream s' sid ∧ decided s' sid l cmd a' r.
Proof.
  revert s g l; induction n as [|n IH]; intros s g l Hl; simpl.
  { intros; simplify_eq. split; [done|]. by exists l. }
  destruct (handle _ cmd) as [es|e|] eqn:Hh; [|intros; simplify_eq; split; [done|by exists l]..].
  destruct es as [|e0 es0].
  { intros; simplify_eq. split; [done|]. exists l. split_and!; [done..|].
    exists []. rewrite app_nil_r. split_and!; [constructor|done..]. }
  set (es := e0 :: es0) in *.
  destruct (try_map_state _ g es) as [g1 [proposed|e|]] eqn:Henc;
    [|intros; simplify_eq; split; [done|by exists l]..].
  destruct (append s sid _ proposed) as [s1 ar] eqn:Happ.
  pose proof (append_grows to_proto_event _ _ _ _ _ _ sid Happ) as Hg1.
  assert (l `prefix_of` stream s1 sid) as Hl1 by (by etrans).
  destruct ar as [resp|status|]; [| |intros; simplify_eq; split; [done|by exists l]].
  { intros; simplify_eq. split; [done|]. exists l. split_and!; [done..|].
    by eapply (append_decided s sid l _ _ _ _ _ es proposed). }
  destruct (code_is_failed_precondition status);
    [|intros; simplify_eq; split; [done|by exists l]].
  rewrite (replay_next_version s1 sid) by done.
  destruct (read_stream s1 sid _ u64_MAX) as [s2 rr] eqn:Hread.
  pose proof (read_grows to_proto_event _ _ _ _ _ _ sid Hread) as Hg2.
  destruct rr as [events|e|];
    [|intros; simplify_eq; split; [by etrans|exists l; split_and!; [done|by etrans|done]]..].
  apply read_catches_up in Hread; [|done]. rewrite <- replay_app. intros Hex.
  apply IH in Hex as [Hg3 Hd]; [|done]. split; [by do 2 (etrans; [done|])|].
  eapply decided_mono; [|done]. by apply prefix_app_r.
Qed.

(** ** Executing a command *)

(** C1: optimistic concurrency, as a linearisation point.  Whatever other
    writers append while the command runs, a command that succeeds was decided
    by [handle] on the state of some prefix [l'] of the stream, not older than
    the one the actor was at, and its events stand in the stream immediately
    behind [l']: no foreign event is between the decision and its effect.  The
    actor is left at the end of its own events. *)
Theorem execute_linearizable s sid l (a : ActorState A) g id cmd ctx s' g' a' es
    (Hat : actor_at s sid l a)
    (Hex : execute_with_retry s g a sid id cmd ctx = (s', g', a', Ok es)) :
  ∃ l' recs, l `prefix_of` l' ∧ handle (st_state (replay l')) cmd = Ok es ∧
    reads_back es recs ∧ actor_at s' sid (l' ++ recs) a'.
Proof.
  destruct Hat as [Hl ->].
  apply execute_attempts_decided in Hex as [_ (l' & H1 & _ & H3 & recs & H4 & H5 & H6)]; [|done].
  exists l', recs. done.
Qed.

(** A command that fails leaves the actor usable: whatever the error (or
    panic), its state is still the replay of a prefix of the stream, not older
    than before; and a domain error is the verdict of [handle] on exactly the
    state the actor is left with. *)
Lemma execute_error_keeps_state s sid l (a : ActorState A) g id cmd ctx s' g' a' r
    (Hat : actor_at s sid l a)
    (Hex : execute_with_retry s g a sid id cmd ctx = (s', g', a', r))
    (Herr : ∀ es, r ≠ Ok es) :
  ∃ l', l `prefix_of` l' ∧ actor_at s' sid l' a' ∧
    ∀ e, r = Err (Domain e) → handle (st_state a') cmd = Err e.
Proof.
  destruct Hat as [Hl ->].
  apply execute_attempts_decided in Hex as [_ (l' & H1 & H2 & H3)]; [|done].
  exists l'. split; [done|].
  destruct r as [es|[e| | | |]|]; [by destruct (Herr es)|destruct H3 as [H3 ->]|subst..];
    (split; [by split|]); naive_solver.
Qed.

Lemma actor_ok_execute s sid (a : ActorState A) g id cmd ctx s' g' a' r :
  actor_ok s sid a → execute_with_retry s g a sid id cmd ctx = (s', g', a', r) →
  actor_ok s' sid a'.
Proof.
  intros (l & Hl & ->) Hex.
  apply execute_attempts_decided in Hex as [_ (l' & H1 & H2 & H3)]; [|done].
  destruct r as [es|[e| | | |]|]; [destruct H3 as (_ & recs & _ & H4 & ->)|..];
    [by eexists|destruct H3 as [_ H3]|..]; by exists l'.
Qed.
End execute.

(** ** Running out of attempts *)
Section starved.
Context {J : SerdeJson} {U : UuidOps} {T : Tonic}.
Context {Store : Type} {ES : EventStoreOps Store} {SS : EventStoreSpec to_proto_event Store}.
Context {CF : EventStoreConflicts to_proto_event Store}.
Context {A : Type} {AG : Aggregate A}.
Abbreviation stream := (stream_of to_proto_event).

(** A stream behind [l] that the version check refuses is longer. *)
Lemma conflict_longer s sid l mid :
  l `prefix_of` stream s sid → l `prefix_of` mid →
  ¬ expected_ok (expected_version (replay (A := A) l)) mid → (length l < length mid)%nat.
Proof.
  intros Hl [k ->]. unfold expected_version. rewrite (replay_version s sid) by done.
  destruct l as [|r l]; simpl.
  - intros Hne. destruct k; [done|simpl; lia].
  - rewrite length_app. intros Hne. destruct k; [|simpl; lia].
    destruct Hne. simpl. lia.
Qed.

(** A read misses nothing that was there before it. *)
Lemma read_sees s sid l s' evs :
  l `prefix_of` stream s sid →
  read_stream s sid (N.of_nat (length l)) u64_MAX = (s', Ok evs) →
  stream s sid `prefix_of` l ++ evs.
Proof.
  intros Hl (cur & Hc1 & Hc2 & ->)%(read_ok to_proto_event).
  pose proof (stream_prefix_bounded _ _ _ Hc2) as Hb.
  rewrite take_ge, Nat2N.id by (rewrite length_drop; lia).
  assert (l `prefix_of` cur) as [k ->] by (by etrans). by rewrite drop_app_length.
Qed.

Lemma execute_attempts_starved n s g l sid id cmd ctx s' g' (a' : ActorState A) :
  l `prefix_of` stream s sid →
  execute_attempts n s g (replay l) sid id cmd ctx = (s', g', a', Err WrongExpectedVersion) →
  ∃ l', l `prefix_of` l' ∧ actor_at s' sid l' a' ∧ (length l + n ≤ length l')%nat.
Proof.
  revert s g l; induction n as [|n IH]; intros s g l Hl; simpl.
  { intros; simplify_eq. exists l. split_and!; [done|done|lia]. }
  destruct (handle _ cmd) as [[|e0 es]|e|]; [done| |done..].
  destruct (try_map_state _ g _) as [g1 [proposed|e|]]; [|done..].
  destruct (append s sid _ proposed) as [s1 [resp|status|]] eqn:Happ; [done| |done].
  destruct (code_is_failed_precondition status) eqn:Hf; [|done].
  destruct (append_conflict to_proto_event _ _ _ _ _ _ Happ Hf) as (mid & Hm1 & Hm2 & Hno).
  apply (conflict_longer s sid) in Hno; [|done|by etrans].
  assert (l `prefix_of` stream s1 sid) as Hl1 by (etrans; [exact Hl|by etrans]).
  rewrite (replay_next_version s1 sid) by done.
  destruct (read_stream s1 sid _ u64_MAX) as [s2 [events|e|]] eqn:Hread; [|done..].
  pose proof (read_sees _ _ _ _ _ Hl1 Hread) as Hsee.
  apply read_catches_up in Hread; [|done]. rewrite <- replay_app. intros Hex.
  apply IH in Hex as (l' & H1 & H2 & H3); [|done]. exists l'. split_and!; [|done|].
  - etrans; [|exact H1]. by apply prefix_app_r.
  - apply prefix_length in Hm2, Hsee. lia.
Qed.

(** C31: only writers can starve a command.  When [execute] gives up with
    [WrongExpectedVersion], at least three events that the actor had not seen
    were on the stream by the end, one for each attempt, none of them its own;
    and the actor has caught up with them.  So a command to whose stream at
    most two unseen events come while it runs never gives up this way. *)
Theorem retries_exhausted_by_writers s sid l (a : ActorState A) g id cmd ctx s' g' a'
    (Hat : actor_at s sid l a)
    (Hex : execute_with_retry s g a sid id cmd ctx = (s', g', a', Err WrongExpectedVersion)) :
  ∃ l', l `prefix_of` l' ∧ actor_at s' sid l' a' ∧
    (length l + 3 ≤ length l')%nat ∧ (length l + 3 ≤ length (stream s' sid))%nat.
Proof.
  destruct Hat as [Hl ->].
  apply execute_attempts_starved in Hex as (l' & H1 & H2 & H3); [|done].
  exists l'. split_and!; [done..|]. pose proof (prefix_length _ _ (proj1 H2)). unfold MAX_RETRIES in H3. lia.
Qed.
End starved.

(** Whatever both calls preserve, an execution preserves. *)
Section execute_rel.
Context {J : SerdeJson} {U : UuidOps} {T : Tonic}.
Context {Store : Type} {ES : EventStoreOps Store}.
Context {A : Type} {AG : Aggregate A}.
Context (R : Store → Store → Prop) `{!PreOrder R}.
Context (Rappend : ∀ s sid e evs s' r, append s sid e evs = (s', r) → R s s').
Context (Rread : ∀ s sid from max s' r, read_stream s sid from max = (s', r) → R s s').

Lemma execute_attempts_rel n s g (a : ActorState A) sid id cmd ctx s' g' a' r :
  execute_attempts n s g a sid id cmd ctx = (s', g', a', r) → R s s'.
Proof using All.
  revert s g a; induction n as [|n IH]; intros s g a; simpl; [by intros; simplify_eq|].
  destruct (handle _ cmd) as [[|e0 es]|e|]; [by intros; simplify_eq| |by intros; simplify_eq..].
  destruct (try_map_state _ g _) as [g1 [proposed|e|]]; [|by intros; simplify_eq..].
  destruct (append s sid _ proposed) as [s1 ar] eqn:Happ. apply Rappend in Happ.
  destruct ar as [resp|status|]; [by intros; simplify_eq| |by intros; simplify_eq].
  destruct (code_is_failed_precondition status); [|by intros; simplify_eq].
  destruct (read_stream s1 sid _ u64_MAX) as [s2 rr] eqn:Hread. apply Rread in Hread.
  destruct rr as [events|e|]; [|intros; simplify_eq; by etrans..].
  intros Hex%IH. by do 2 (etrans; [done|]).
Qed.

(** One message, or the end of the task. *)
Lemma actor_step_rel `{!FileSystem F, !Serde (Snapshot A)} c (e e' : ActorEnv) (a : ActorState A)
    i (t : Task A) r :
  actor_step c e a i = (e', t, r) → R (ae_store e) (ae_store e').
Proof using All.
  assert (shut_down c e a = (e', t, r) → R (ae_store e) (ae_store e')) as Hshut.
  { unfold shut_down. destruct (save_snapshot_quietly _ _ _ _ _). by intros; simplify_eq. }
  destruct i as [[cmd ctx| |proposed|]| |]; simpl; [| | |done..].
  - destruct (execute_with_retry _ _ _ _ _ _ _) as [[[s g] a1] res] eqn:Hex.
    apply execute_attempts_rel in Hex. by destruct res; intros; simplify_eq.
  - by intros; simplify_eq.
  - unfold inject. destruct (append _ _ _ _) as [s1 ar] eqn:Happ. apply Rappend in Happ.
    destruct ar as [resp|status|]; [|by intros; simplify_eq..].
    destruct (read_stream s1 _ _ _) as [s2 rr] eqn:Hread. apply Rread in Hread.
    destruct rr; intros; simplify_eq; by etrans.
Qed.
End execute_rel.

(** ** The calls an execution makes *)
Section traced.
Context {J : SerdeJson} {U : UuidOps} {T : Tonic}.
Context {Store : Type} {ES : EventStoreOps Store}.
Context {A : Type} {AG : Aggregate A}.

(** An event store that records the calls made to it. *)
Inductive Call := CAppend (accepted : bool) | CRead.

Record Traced := mk_Traced { tr_store : Store; tr_calls : list Call }.

#[local] Instance Traced_store : EventStoreOps Traced := {|
  append t sid e evs :=
    let '(s, r) := append (tr_store t) sid e evs in
    (mk_Traced s (tr_calls t ++ [CAppend (is_ok r)]), r);
  read_stream t sid from max :=
    let '(s, r) := read_stream (tr_store t) sid from max in
    (mk_Traced s (tr_calls t ++ [CRead]), r);
|}.

Fixpoint accepted (calls : list Call) : nat :=
  match calls with
  | [] => 0
  | CAppend true :: l => Datatypes.S (accepted l)
  | _ :: l => accepted l
  end.
Fixpoint appends (calls : list Call) : nat :=
  match calls with
  | [] => 0
  | CAppend _ :: l => Datatypes.S (appends l)
  | CRead :: l => appends l
  end.

(** Rejected append, then read: one conflict. *)
Fixpoint conflicts (n : nat) : list Call :=
  match n with O => [] | Datatypes.S n => CAppend false :: CRead :: conflicts n end.

Definition executed_one (r : result (list (DomainEvent A)) (ExecuteError (DomainError A))) : nat :=
  match r with Ok (_ :: _) => 1 | _ => 0 end.

(** The calls an execution may make, with [n] attempts. *)
Definition calls_ok (n : nat) (t t' : Traced)
    (r : result (list (DomainEvent A)) (ExecuteError (DomainError A))) : Prop :=
  ∃ calls, tr_calls t' = tr_calls t ++ calls ∧ (appends calls ≤ n)%nat ∧
    accepted calls = executed_one r ∧ (r = Err WrongExpectedVersion → calls = conflicts n).

Lemma calls_ok_none n t r :
  executed_one r = 0%nat → (r = Err WrongExpectedVersion → n = 0%nat) → calls_ok n t t r.
Proof.
  intros H1 H2. exists []. rewrite app_nil_r. split_and!; [done|simpl; lia|done|].
  intros H. by rewrite (H2 H).
Qed.

Lemma calls_ok_append n t s (b : bool) r :
  executed_one r = (if b then 1 else 0)%nat → r ≠ Err WrongExpectedVersion →
  calls_ok (Datatypes.S n) t (mk_Traced s (tr_calls t ++ [CAppend b])) r.
Proof.
  intros H1 H2. exists [CAppend b]. split_and!; [done|cbn; lia|by destruct b|done].
Qed.

Lemma calls_ok_conflict n t t' s r :
  calls_ok n (mk_Traced s ((tr_calls t ++ [CAppend false]) ++ [CRead])) t' r →
  calls_ok (Datatypes.S n) t t' r.
Proof.
  intros (calls & H1 & H2 & H3 & H4). exists (CAppend false :: CRead :: calls).
  rewrite H1. simpl. rewrite <- !app_assoc. split_and!; [done|cbn in *; lia|done|].
  intros H. by rewrite (H4 H).
Qed.

Lemma execute_attempts_calls n (t t' : Traced) g (a : ActorState A) sid id cmd ctx g' a' r :
  execute_attempts n t g a sid id cmd ctx = (t', g', a', r) → calls_ok n t t' r.
Proof.
  revert t g a; induction n as [|n IH]; intros t g a; simpl.
  { intros; simplify_eq. by apply calls_ok_none. }
  destruct (handle _ cmd) as [[|e0 es]|e|];
    [intros; simplify_eq; by apply calls_ok_none| |intros; simplify_eq; by apply calls_ok_none..].
  destruct (try_map_state _ g _) as [g1 [proposed|e|]];
    [|intros; simplify_eq; by apply calls_ok_none..].
  destruct (append (tr_store t) sid _ proposed) as [s1 [resp|status|]]; simpl;
    [intros; simplify_eq; by apply calls_ok_append| |
     intros; simplify_eq; by apply calls_ok_append].
  destruct (code_is_failed_precondition status);
    [|intros; simplify_eq; by apply calls_ok_append].
  destruct (read_stream s1 sid _ u64_MAX) as [s2 [events|e|]]; simpl.
  - intros Hex%IH. by eapply calls_ok_conflict.
  - intros; simplify_eq. exists [CAppend false; CRead]. simpl. rewrite <- app_assoc.
    split_and!; [done|cbn; lia|done..].
  - intros; simplify_eq. exists [CAppend false; CRead]. simpl. rewrite <- app_assoc.
    split_and!; [done|cbn; lia|done..].
Qed.

(** C17: the retry loop is bounded and appends at most once.  Of any event
    store, an execution makes at most three appends; exactly one of them is
    accepted when the command succeeds with events, and none otherwise, so a
    retry never duplicates events; [WrongExpectedVersion] is reported exactly
    after three rounds of a rejected append and a read; and a command that
    decides nothing, or is rejected at once, makes no call at all. *)
Theorem execute_appends_once (t t' : Traced) g (a : ActorState A) sid id cmd ctx g' a' r
    (Hex : execute_with_retry t g a sid id cmd ctx = (t', g', a', r)) :
  ∃ calls, tr_calls t' = tr_calls t ++ calls ∧ (appends calls ≤ MAX_RETRIES)%nat ∧
    accepted calls = match r with Ok (_ :: _) => 1%nat | _ => 0%nat end ∧
    (r = Err WrongExpectedVersion →
     calls = [CAppend false; CRead; CAppend false; CRead; CAppend false; CRead]) ∧
    ((∀ e es, handle (st_state a) cmd ≠ Ok (e :: es)) → calls = []).
Proof.
  destruct (execute_attempts_calls _ _ _ _ _ _ _ _ _ _ _ _ Hex) as (calls & H1 & H2 & H3 & H4).
  exists calls. split_and!; [done..|]. intros Hh.
  unfold execute_with_retry, MAX_RETRIES in Hex. simpl in Hex.
  destruct (handle (st_state a) cmd) as [[|e es]|e|]; [..|]; simplify_eq;
    try (by apply app_nil_inv in H1); [|by destruct (Hh e es)|..];
    (rewrite <- (app_nil_r (tr_calls t')) in H1 at 1; by apply app_inv_head in H1).
Qed.
End traced.

(** ** Spawning, stopping, and a whole life *)
Section lifetime.
Context {J : SerdeJson} {JL : SerdeJsonLaws} {U : UuidOps} {T : Tonic}.
Context {Store : Type} {ES : EventStoreOps Store} {SS : EventStoreSpec to_proto_event Store}.
Context {F : Type} {FS : FileSystem F} {FL : FileSystemLaws F}.
Context {A : Type} {AG : Aggregate A} {AT : AdjacentlyTagged A}.
Context {SA : Serde (Snapshot A)} {SL : SerdeLaws (Snapshot A)}.
Abbreviation stream := (stream_of to_proto_event).

(** The snapshot file of an instance, where it holds a snapshot, holds the
    replay of a non-empty prefix of the stream. *)
Definition snapshot_ok (s : Store) (f : F) (base : path) (id : string) : Prop :=
  ∀ b snap, content f (snapshot_path base (AGGREGATE_TYPE A) id) = Some b →
    from_json_bytes b = Ok snap →
    ∃ l, l `prefix_of` stream s (stream_uuid (AGGREGATE_TYPE A) id) ∧
         replay l = mk_ActorState (snap_state snap) (Some (snap_version snap)).

(** An environment in which an instance may be spawned. *)
Definition env_ok (e : ActorEnv) (base : path) (id : string) : Prop :=
  snapshot_ok (ae_store e) (ae_fs e) base id.

(** The context [spawn_actor_with_store] builds. *)
Definition ctx_ok (c : ActorContext) : Prop :=
  ac_stream_id c = stream_uuid (AGGREGATE_TYPE A) (ac_instance_id c).

Lemma snapshot_ok_grow s s' f base id :
  stream s (stream_uuid (AGGREGATE_TYPE A) id) `prefix_of`
    stream s' (stream_uuid (AGGREGATE_TYPE A) id) →
  snapshot_ok s f base id → snapshot_ok s' f base id.
Proof.
  intros Hg Hs b snap H1 H2. destruct (Hs b snap H1 H2) as (l & Hl & Hr).
  exists l. split; [by etrans|done].
Qed.

Lemma load_snapshot_ok s f base id snap :
  snapshot_ok s f base id → load_snapshot f base id = Ok (Some snap) →
  ∃ l, l `prefix_of` stream s (stream_uuid (AGGREGATE_TYPE A) id) ∧
       replay l = mk_ActorState (snap_state snap) (Some (snap_version snap)).
Proof.
  unfold load_snapshot. intros Hs H.
  destruct (fs_read f _) as [b|e|] eqn:Hr; [|by case_decide|done].
  destruct (from_json_bytes b) as [snap'|e|] eqn:Hb; simplify_eq.
  apply fs_read_ok in Hr. by eapply Hs.
Qed.

Lemma spawn_context e base id config e' c (a : ActorState A) :
  spawn_actor_with_store e id base config = (e', Ok (c, a)) →
  c = mk_ActorContext (stream_uuid (AGGREGATE_TYPE A) id) id base config.
Proof.
  unfold spawn_actor_with_store. destruct (load_snapshot _ _ _) as [osnap|err|]; [|done..].
  destruct (match osnap with Some _ => _ | None => _ end) as [[st v] from].
  destruct (read_stream _ _ _ _) as [s [events|status|]]; intros; by simplify_eq.
Qed.

Lemma spawn_prefix e base id config e' c (a : ActorState A) :
  env_ok e base id → spawn_actor_with_store e id base config = (e', Ok (c, a)) →
  actor_ok (ae_store e') (ac_stream_id c) a ∧ env_ok e' base id ∧ ctx_ok c ∧
  c = mk_ActorContext (stream_uuid (AGGREGATE_TYPE A) id) id base config.
Proof.
  unfold spawn_actor_with_store. intros He.
  destruct (load_snapshot (ae_fs e) base id) as [osnap|err|] eqn:Hload; [|done..].
  set (sid := stream_uuid (AGGREGATE_TYPE A) id) in *.
  assert (∃ l, l `prefix_of` stream (ae_store e) sid ∧
    match osnap with
    | Some snap => (snap_state snap, Some (snap_version snap), u64_add (snap_version snap) 1)
    | None => (agg_default A, None, 0)
    end = (st_state (replay (A := A) l), st_version (replay (A := A) l),
           next_version (st_version (replay (A := A) l)))) as (l & Hl & Hm).
  { destruct osnap as [snap|].
    - destruct (load_snapshot_ok _ _ _ _ _ He Hload) as (l & Hl & Hr).
      exists l. by rewrite Hr.
    - exists []. split; [apply prefix_nil|done]. }
  rewrite Hm, (replay_next_version _ _ _ Hl).
  destruct (read_stream (ae_store e) sid _ _) as [s [events|status|]] eqn:Hread;
    intros; simplify_eq; simpl.
  pose proof (read_grows to_proto_event _ _ _ _ _ _ sid Hread) as Hg.
  split_and!; [|by eapply snapshot_ok_grow|done|done].
  exists (l ++ events). split; [by eapply read_catches_up|].
  rewrite replay_app. by destruct (replay l).
Qed.

(** A save at a known version keeps the snapshot file honest. *)
Lemma shut_down_snapshot_ok c e (a : ActorState A) e' t r :
  ctx_ok c → actor_ok (ae_store e) (ac_stream_id c) a → is_Some (st_version a) →
  env_ok e (ac_base_dir c) (ac_instance_id c) → shut_down c e a = (e', t, r) →
  env_ok e' (ac_base_dir c) (ac_instance_id c).
Proof.
  intros Hc (l & Hl & Ha) [v Hv] He. unfold shut_down, save_snapshot_quietly.
  destruct (save_snapshot _ _ _ _) as [f res] eqn:Hs. rewrite Hv in Hs. simpl in Hs.
  intros Hd. assert (ae_store e' = ae_store e ∧ ae_fs e' = f) as [He1 He2]
    by (destruct res; by simplify_eq).
  apply save_snapshot_atomic in Hs as (_ & Hok & Hor & _).
  intros b snap Hb Hj. rewrite He1, He2 in *.
  destruct Hor as [Hold| ->]; [rewrite Hold in Hb; by eapply He|].
  destruct (Hok eq_refl) as (json & Hjs & Hcon). apply serde_roundtrip in Hjs.
  rewrite Hb in Hcon. simplify_eq. exists l. rewrite <- Hc. split; [done|].
  rewrite Hjs in Hj. simplify_eq/=. destruct (replay l). simpl in *. by subst.
Qed.

(** *** One step *)

Lemma decided_prefix s' sid l cmd (a' : ActorState A) r :
  decided s' sid l cmd a' r → ∃ l', l `prefix_of` l' ∧ actor_at s' sid l' a'.
Proof.
  intros (l' & H1 & H2 & H3).
  destruct r as [es|[e| | | |]|]; [|destruct H3 as [_ H3]|..];
    [|by exists l'..]. destruct H3 as (_ & recs & _ & H4 & ->).
  exists (l' ++ recs). split; [by apply prefix_app_r|done].
Qed.

Lemma inject_ok c s l (a : ActorState A) proposed s' o :
  actor_at s (ac_stream_id c) l a → inject c s a proposed = (s', o) →
  stream s (ac_stream_id c) `prefix_of` stream s' (ac_stream_id c) ∧
  ∀ a' r, o = Some (a', r) →
    (∃ l', l `prefix_of` l' ∧ actor_at s' (ac_stream_id c) l' a' ∧
      (r = Ok () → ∃ rec, recorded_as (to_proto_event proposed) rec ∧
         rec ∈ stream s' (ac_stream_id c) ∧ (rec ∈ l' ∨ a' = a))).
Proof.
  intros [Hl ->]. unfold inject. set (sid := ac_stream_id c) in *.
  destruct (append s sid Any [proposed]) as [s1 ar] eqn:Happ.
  pose proof (append_grows to_proto_event _ _ _ _ _ _ sid Happ) as Hg1.
  destruct ar as [resp|status|];
    [|intros; simplify_eq; split; [done|intros; simplify_eq; exists l;
        split_and!; [done|split; [by etrans|done]|done]]
     |intros; simplify_eq; split; [done|intros; simplify_eq]].
  apply (append_ok to_proto_event) in Happ as (mid & recs & Hm & _ & Hrec & Hs & _); [|done].
  apply Forall2_cons_inv_l in Hrec as (rec & recs' & Hrec & _ & ->).
  assert (rec ∈ mid ++ rec :: recs') as Hin by set_solver.
  rewrite (replay_next_version s sid) by done.
  destruct (read_stream s1 sid _ u64_MAX) as [s2 rr] eqn:Hread.
  pose proof (read_grows to_proto_event _ _ _ _ _ _ sid Hread) as Hg2.
  assert (rec ∈ stream s2 sid) as Hin2.
  { eapply elem_of_prefix, (PreOrder_Transitive _ _ _ Hs Hg2). done. }
  destruct rr as [events|status|]; intros; simplify_eq;
    (split; [by etrans|]); intros; simplify_eq.
  - assert (l `prefix_of` stream s1 sid) as Hl1 by (by etrans).
    pose proof (read_catches_up s1 sid l s' events Hl1 Hread) as Hle.
    exists (l ++ events). split_and!; [by apply prefix_app_r| |].
    + split; [done|]. by rewrite replay_app.
    + intros _. exists rec. split_and!; [done|done|left].
      apply (read_ok to_proto_event) in Hread as (cur & Hc1 & Hc2 & Hev).
      pose proof (stream_prefix_bounded _ _ _ Hc2) as Hb.
      rewrite take_ge, Nat2N.id in Hev by (rewrite length_drop; lia).
      assert (l `prefix_of` cur) as [k ->] by (by etrans).
      rewrite drop_app_length in Hev. subst.
      eapply elem_of_prefix, (PreOrder_Transitive _ _ _ Hs Hc1). done.
  - exists l. split_and!; [done|split; [by do 2 etrans|done]|].
    intros _. exists rec. auto.
Qed.

(** What a successful reply to an input promises about the stream. *)
Definition reply_ok (s : Store) (sid : Uuid) (i : ActorInput) (r : option (Reply (A := A)))
    : Prop :=
  match i, r with
  | Recv (Execute cmd _), Some (ReplyExecute (Ok es)) =>
      ∃ l recs, handle (st_state (replay l)) cmd = Ok es ∧ reads_back es recs ∧
                (l ++ recs) `prefix_of` stream s sid
  | Recv GetState, Some (ReplyState (Ok state)) =>
      ∃ l, l `prefix_of` stream s sid ∧ state = st_state (replay l)
  | Recv (Inject proposed), Some (ReplyInject (Ok _)) =>
      ∃ rec, recorded_as (to_proto_event proposed) rec ∧ rec ∈ stream s sid
  | _, _ => True
  end.

Lemma reply_ok_grow s s' sid i r :
  stream s sid `prefix_of` stream s' sid → reply_ok s sid i r → reply_ok s' sid i r.
Proof.
  intros Hg. destruct i as [[cmd ctx| |proposed|]| |], r as [[[es|e|]|[st|e|]|[[]|e|]]|];
    try done; simpl.
  - intros (l & recs & H1 & H2 & H3). exists l, recs. split_and!; [done..|by etrans].
  - intros (l & H1 & H2). exists l. split; [by etrans|done].
  - intros (rec & H1 & H2). exists rec. split; [done|]. by eapply elem_of_prefix.
Qed.

(** One iteration of the loop, whatever the input. *)
Lemma actor_step_ok c e l (a : ActorState A) i e' t r :
  ctx_ok c → actor_at (ae_store e) (ac_stream_id c) l a → actor_step c e a i = (e', t, r) →
  stream (ae_store e) (ac_stream_id c) `prefix_of` stream (ae_store e') (ac_stream_id c) ∧
  (∀ a', t = Running a' →
     ∃ l', l `prefix_of` l' ∧ actor_at (ae_store e') (ac_stream_id c) l' a') ∧
  (is_Some (st_version a) → env_ok e (ac_base_dir c) (ac_instance_id c) →
     env_ok e' (ac_base_dir c) (ac_instance_id c)) ∧
  reply_ok (ae_store e') (ac_stream_id c) i r.
Proof.
  intros Hc Hat Hstep.
  assert (shut_down c e a = (e', t, r) →
    stream (ae_store e) (ac_stream_id c) `prefix_of` stream (ae_store e') (ac_stream_id c) ∧
    (∀ a', t ≠ Running a') ∧ r = None) as Hshut.
  { unfold shut_down, save_snapshot_quietly. intros.
    destruct (save_snapshot _ _ _ _) as [f [[]|x|]]; by simplify_eq. }
  assert (∀ s, ae_store e' = s → ae_fs e' = ae_fs e →
    stream (ae_store e) (ac_stream_id c) `prefix_of` stream s (ac_stream_id c) →
    env_ok e (ac_base_dir c) (ac_instance_id c) →
    env_ok e' (ac_base_dir c) (ac_instance_id c)) as Henv.
  { unfold env_ok. intros s -> -> Hg. apply snapshot_ok_grow. by rewrite <- Hc. }
  assert (Hok : actor_ok (ae_store e) (ac_stream_id c) a) by by exists l.
  destruct i as [[cmd ctx| |proposed|]| |]; simpl in Hstep;
    try (destruct (Hshut Hstep) as (H1 & H2 & ->); split_and!;
         [done|intros a' Ha'; by destruct (H2 a')| |done];
         intros; by eapply shut_down_snapshot_ok).
  - destruct (execute_with_retry _ _ _ _ _ _ _) as [[[s g] a1] res] eqn:Hex.
    destruct Hat as [Hl ->].
    apply execute_attempts_decided in Hex as [Hg Hd]; [|done].
    assert (ae_store e' = s ∧ ae_fs e' = ae_fs e) as [He1 He2]
      by (destruct res; by simplify_eq). rewrite He1.
    split_and!; [done| |intros _; by apply (Henv s)|].
    + intros a' ->. assert (a' = a1) as -> by (destruct res; by simplify_eq).
      by eapply decided_prefix.
    + destruct res as [es| |]; simplify_eq; [|done..]. simpl.
      destruct Hd as (l' & _ & _ & Hh & recs & Hb & Hs & _). by exists l', recs.
  - simplify_eq. split_and!; [done| |done|].
    + intros a' [= ->]. by exists l.
    + simpl. destruct Hat as [Hl ->]. by exists l.
  - destruct (inject _ _ _ _) as [s o] eqn:Hinj.
    apply (inject_ok c _ l) in Hinj as [Hg Ho]; [|done].
    assert (ae_store e' = s ∧ ae_fs e' = ae_fs e) as [He1 He2]
      by (destruct o as [[]|]; by simplify_eq). rewrite He1.
    split_and!; [done| |intros _; by apply (Henv s)|].
    + intros a' ->. destruct o as [[a1 res]|]; simplify_eq.
      destruct (Ho _ _ eq_refl) as (l' & H1 & H2 & _). by exists l'.
    + destruct o as [[a1 res]|]; simplify_eq; [|done].
      destruct (Ho _ _ eq_refl) as (l' & _ & _ & H3). destruct res as [[]|e1|]; [|done..].
      destruct (H3 eq_refl) as (rec & ? & ? & _). by exists rec.
Qed.

Lemma actor_at_version s sid l (a : ActorState A) :
  actor_at s sid l a → is_Some (st_version a) ↔ l ≠ [].
Proof.
  intros [Hl ->]. rewrite (replay_version _ _ _ Hl).
  destruct l; split; [by intros []|done|done|by eauto].
Qed.

Lemma run_actor_stopped c e (t : Task A) inputs :
  is_alive t = false → run_actor c e t inputs = (e, t, replicate (length inputs) None).
Proof.
  intros Ht. induction inputs as [|i inputs IH]; [done|]. simpl.
  destruct t; [done|..]; by rewrite IH.
Qed.

Lemma run_actor_ok c inputs e (t : Task A) e' t' rs :
  ctx_ok c → run_actor c e t inputs = (e', t', rs) →
  (∀ a, t = Running a → actor_ok (ae_store e) (ac_stream_id c) a) →
  stream (ae_store e) (ac_stream_id c) `prefix_of` stream (ae_store e') (ac_stream_id c) ∧
  (∀ a, t' = Running a → actor_ok (ae_store e') (ac_stream_id c) a) ∧
  Forall2 (reply_ok (ae_store e') (ac_stream_id c)) inputs rs ∧
  ((∀ a, t = Running a → is_Some (st_version a)) →
   env_ok e (ac_base_dir c) (ac_instance_id c) →
   env_ok e' (ac_base_dir c) (ac_instance_id c)).
Proof.
  intros Hc. revert e t e' t' rs.
  induction inputs as [|i inputs IH]; intros e t e' t' rs Hrun Hok.
  { simpl in Hrun. simplify_eq. done. }
  destruct (is_alive t) eqn:Halive; [destruct t as [a| |]; [|done..]|].
  - simpl in Hrun. destruct (actor_step c e a i) as [[e1 t1] r] eqn:Hs.
    destruct (run_actor c e1 t1 inputs) as [[e2 t2] rs'] eqn:Hr. simplify_eq.
    destruct (Hok a eq_refl) as (l & Hat).
    pose proof (actor_at_version _ _ _ _ Hat) as Hv.
    apply (actor_step_ok c e l a) in Hs as (Hg & H1 & H2 & H3); [|done..].
    apply IH in Hr as (Hg' & H1' & H3' & H2').
    + split_and!; [by etrans|done|constructor; [by eapply reply_ok_grow|done]|].
      intros Hsome He. pose proof (Hsome a eq_refl) as Ha. apply H2'; [|by apply H2].
      intros a' Ht. destruct (H1 a' Ht) as (l' & Hl' & Hat').
      apply (actor_at_version _ _ _ _ Hat'). intros ->.
      apply prefix_nil_inv in Hl'. by apply Hv in Ha.
    + intros a' Ht. destruct (H1 a' Ht) as (l' & _ & Hat'). by exists l'.
  - rewrite run_actor_stopped in Hrun by done. simplify_eq. split_and!; [done|done| |done].
    apply Forall2_replicate_r; [done|]. apply Forall_forall. intros i' _.
    by destruct i' as [[| | |]| |].
Qed.

(** C5: the life of an actor.  Spawned over an honest snapshot file (or none),
    and given any sequence of commands, reads, injections and stops, while
    other writers append at any time, a running actor is always at the replay
    of a prefix of its stream; every acknowledged command was decided on such
    a replay and its events are in the stream right behind it; every state it
    reports is a replay; every acknowledged injection is in the stream; and
    when it was spawned on a non-empty stream, the snapshot file it leaves
    behind is honest again, so the next actor starts from the same invariant. *)
Theorem actor_lifetime e base id config e1 c (a : ActorState A) inputs e2 t rs
    (Hsnap : env_ok e base id)
    (Hspawn : spawn_actor_with_store e id base config = (e1, Ok (c, a)))
    (Hrun : run_actor c e1 (Running a) inputs = (e2, t, rs)) :
  (∀ a', t = Running a' → actor_ok (ae_store e2) (ac_stream_id c) a') ∧
  Forall2 (reply_ok (ae_store e2) (ac_stream_id c)) inputs rs ∧
  (is_Some (st_version a) → env_ok e2 base id).
Proof.
  apply spawn_prefix in Hspawn as (Hok & He1 & Hc & ->); [|done].
  apply run_actor_ok in Hrun as (_ & H1 & H2 & H3); [|done|by intros ? [= <-]].
  split_and!; [done..|]. intros Hv. apply H3; [by intros ? [= <-]|done].
Qed.

(** An injected event is appended whatever the version of the stream, and
    the actor that injected it sees it: when the append is acknowledged, the
    event is in the stream and, unless the read-back failed (the actor is then
    unchanged), among the events the actor has applied. *)
Lemma inject_applied c s (a a' : ActorState A) proposed s' r
    (Hok : actor_ok s (ac_stream_id c) a)
    (Hinj : inject c s a proposed = (s', Some (a', r))) :
  ∃ l', actor_at s' (ac_stream_id c) l' a' ∧
    (r = Ok () → ∃ rec, recorded_as (to_proto_event proposed) rec ∧
       rec ∈ stream s' (ac_stream_id c) ∧ (rec ∈ l' ∨ a' = a)).
Proof.
  destruct Hok as [l Hl]. eapply inject_ok in Hinj as [_ Ho]; [|done].
  destruct (Ho _ _ eq_refl) as (l' & _ & H1 & H2). by exists l'.
Qed.

(** Once an actor has stopped, by request, because its channel closed, by
    idling or by a panic, it answers nothing and touches nothing: every later
    message is dropped, and its handle reports [ActorGone]. *)
Lemma stopped_actor_is_gone c e (t : Task A) inputs cmd ctx proposed
    (Hstopped : is_alive t = false) :
  run_actor c e t inputs = (e, t, replicate (length inputs) None) ∧
  handle_execute c e t cmd ctx = (e, t, Err ActorGone) ∧
  handle_state c e t = (e, t, Err StateActorGone) ∧
  inject_via_actor c e t proposed = (e, t, Err (status_cancelled "actor gone")).
Proof.
  split; [by apply run_actor_stopped|]. by destruct t.
Qed.

(** *** A snapshot of an actor that has seen no event *)

Lemma fold_events_version (a : ActorState A) evs :
  is_Some (st_version a) → is_Some (st_version (fold_events a evs)).
Proof.
  revert a; induction evs as [|ev evs IH]; intros a Ha; simpl; [done|]. apply IH. by eexists.
Qed.

(** An actor that holds a version can only append behind a foreign event. *)
Lemma execute_attempts_behind n s g (a : ActorState A) sid id cmd ctx s' g' a' e es :
  is_Some (st_version a) →
  execute_attempts n s g a sid id cmd ctx = (s', g', a', Ok (e :: es)) →
  (2 ≤ length (stream s' sid))%nat.
Proof.
  revert s g a; induction n as [|n IH]; intros s g a Ha; simpl; [done|].
  destruct (handle _ cmd) as [[|e0 es0]|?|]; [done| |done..].
  destruct (try_map_state _ g _) as [g1 [proposed|?|]] eqn:Henc; [|done..].
  apply try_map_state_Ok, Forall2_length in Henc.
  destruct (append s sid _ proposed) as [s1 [resp|status|]] eqn:Happ; [| |done].
  - intros [= <- _ _ _ _]. destruct Ha as [v Hv].
    apply (append_ok to_proto_event) in Happ as (mid & recs & _ & He & Hr & Hs & _);
      [|by destruct proposed].
    apply prefix_length in Hs. apply Forall2_length in Hr.
    unfold expected_version in He. rewrite Hv in He. simpl in He.
    rewrite length_app in Hs. rewrite length_fmap in Hr. simpl in Henc. lia.
  - destruct (code_is_failed_precondition status); [|done].
    destruct (read_stream s1 sid _ u64_MAX) as [s2 [events|?|]]; [|done..].
    apply IH. by apply fold_events_version.
Qed.

(** A snapshot that was saved, and can be read, is the one that is loaded. *)
Lemma load_saved_snapshot f base id (snap : Snapshot A) f' :
  save_snapshot f base id snap = (f', Ok ()) → is_ok (load_snapshot (A := A) f' base id) = true →
  load_snapshot f' base id = Ok (Some snap).
Proof.
  intros Hs Hread. apply save_snapshot_atomic in Hs as (_ & Hok & _).
  destruct (Hok eq_refl) as (json & Hj & Hc). unfold load_snapshot in *.
  destruct (read_saved f' _ _ json _ Hj Hc eq_refl) as [[-> ->]|(x & Hx & Hne)]; [done|].
  by rewrite Hx, decide_False in Hread.
Qed.

(** An actor spawned from a snapshot on a stream without events. *)
Lemma spawn_behind_snapshot e base id config snap e1 c1 (a1 : ActorState A) :
  load_snapshot (ae_fs e) base id = Ok (Some snap) →
  spawn_actor_with_store e id base config = (e1, Ok (c1, a1)) →
  stream (ae_store e1) (stream_uuid (AGGREGATE_TYPE A) id) = [] →
  a1 = mk_ActorState (snap_state snap) (Some (snap_version snap)) ∧
  c1 = mk_ActorContext (stream_uuid (AGGREGATE_TYPE A) id) id base config.
Proof.
  intros Hload Hspawn Hempty. unfold spawn_actor_with_store in Hspawn. simpl in Hspawn.
  rewrite Hload in Hspawn. simpl in Hspawn.
  destruct (read_stream (ae_store e) _ _ _) as [s [events|status|]] eqn:Hr; simplify_eq/=.
  apply (read_ok to_proto_event) in Hr as (cur & _ & Hcur & ->).
  rewrite Hempty in Hcur. apply prefix_nil_inv in Hcur as ->.
  rewrite drop_nil, take_nil. done.
Qed.


End lifetime.

(** ** Witnesses *)

(** A fresh counter actor, whose first append loses against another writer. *)
Definition contended : DemoClient :=
  demo_client [] [OtherWrites (demo_sid "counter" "c1")
                    [to_proto_event (demo_proposed "c1" Fixture.Incremented 9)]].
Abbreviation demo_replay := (replay (AG := demo_aggregates TCounter)).
Abbreviation fresh := (demo_replay []).
Abbreviation counter_stream := (stream_uuid "counter" "c1").

Lemma fresh_at (c : DemoClient) : actor_at c counter_stream [] fresh.
Proof. split; [apply prefix_nil|done]. Qed.

Lemma execute_linearizable_witness :
  match execute_with_retry contended 0 fresh counter_stream "c1" (Fixture.Add 5)
          CommandContext_default with
  | (s', _, a', Ok es) =>
      (a' = mk_ActorState (Fixture.mk_Counter 6) (Some 1) ∧ es = [Fixture.Added 5]) ∧
      ∃ l' recs, [] `prefix_of` l' ∧ handle (Aggregate := demo_aggregates TCounter) (st_state (demo_replay l')) (Fixture.Add 5)
          = Ok es ∧
        reads_back (AG := demo_aggregates TCounter) es recs ∧ actor_at s' counter_stream (l' ++ recs) a'
  | _ => False
  end.
Proof.
  destruct (execute_with_retry _ _ _ _ _ _ _) as [[[s' g'] a'] [es|e|]] eqn:H;
    [|vm_compute in H; discriminate..].
  split.
  - vm_compute in H. injection H as _ _ <- <-. done.
  - exact (execute_linearizable contended counter_stream [] fresh 0 "c1" (Fixture.Add 5)
             CommandContext_default s' g' a' es (fresh_at _) H).
Defined.

(** A command that loses to three other writers in turn. *)
Definition starving : DemoClient :=
  let w n := OtherWrites (demo_sid "counter" "c1")
               [to_proto_event (demo_proposed "c1" Fixture.Incremented n)] in
  demo_client [] [w 1; Quiet; w 2; Quiet; w 3].

Lemma retries_exhausted_by_writers_witness :
  match execute_with_retry starving 0 fresh counter_stream "c1" Fixture.Increment
          CommandContext_default with
  | (s', _, a', Err WrongExpectedVersion) =>
      ∃ l', actor_at s' counter_stream l' a' ∧ (3 ≤ length l')%nat
  | _ => False
  end.
Proof.
  destruct (execute_with_retry _ _ _ _ _ _ _) as [[[s' g'] a'] [es|[e| |e|st|]|]] eqn:H;
    [vm_compute in H; discriminate|vm_compute in H; discriminate| |vm_compute in H; discriminate..].
  destruct (retries_exhausted_by_writers (U := demo_uuid) (AG := demo_aggregates TCounter) starving counter_stream [] fresh 0 "c1" Fixture.Increment
              CommandContext_default s' g' a' (fresh_at _) H) as (l' & _ & H1 & H2 & _).
  exists l'. exact (conj H1 H2).
Defined.

Lemma execute_appends_once_witness :
  match execute_with_retry (ES := Traced_store) (mk_Traced contended []) 0 fresh counter_stream "c1" (Fixture.Add 5)
          CommandContext_default with
  | (t', _, _, r) =>
      tr_calls t' = [CAppend false; CRead; CAppend true] ∧
      ∃ calls, tr_calls t' = [] ++ calls ∧ (appends calls ≤ MAX_RETRIES)%nat
  end.
Proof.
  destruct (execute_with_retry _ _ _ _ _ _ _) as [[[t' g'] a'] r] eqn:H.
  split; [vm_compute in H; by injection H as <- _ _ _|].
  destruct (execute_appends_once (U := demo_uuid) (AG := demo_aggregates TCounter) (mk_Traced contended []) t' 0 fresh counter_stream "c1"
              (Fixture.Add 5) CommandContext_default g' a' r H) as (calls & H1 & H2 & _).
  exists calls. exact (conj H1 H2).
Defined.

Lemma empty_env_ok (c : DemoClient) :
  env_ok (AG := demo_aggregates TCounter) (demo_env c empty_fs) "/data" "c1".
Proof. intros b snap H. vm_compute in H. discriminate. Qed.

(** Three messages to a counter that is spawned while another writer is active. *)
Definition demo_inputs : list (ActorInput (AG := demo_aggregates TCounter)) :=
  [Recv (Execute (Fixture.Add 5) CommandContext_default); Recv GetState; IdleElapsed].
Abbreviation spawn_counter e :=
  (spawn_actor_with_store (AG := demo_aggregates TCounter) e "c1" "/data" (mk_ActorConfig 60)).

Lemma actor_lifetime_witness :
  match spawn_counter (demo_env contended empty_fs) with
  | (e1, Ok (c, a)) =>
      nth_error (run_actor c e1 (Running a) demo_inputs).2 1
        = Some (Some (ReplyState (Ok (Fixture.mk_Counter 6)))) ∧
      env_ok (AG := demo_aggregates TCounter)
        (run_actor c e1 (Running a) demo_inputs).1.1 "/data" "c1"
  | _ => False
  end.
Proof.
  assert (match spawn_counter (demo_env contended empty_fs) with
          | (e1, Ok (c, a)) =>
              is_Some (st_version a) ∧
              nth_error (run_actor c e1 (Running a) demo_inputs).2 1
                = Some (Some (ReplyState (Ok (Fixture.mk_Counter 6))))
          | _ => False
          end) as Hrun by (vm_compute; eauto).
  destruct (spawn_counter _) as [e1 [[c a]|e|]] eqn:H1; [|destruct Hrun..].
  destruct Hrun as [Hv Hr]. split; [exact Hr|].
  destruct (run_actor c e1 (Running a) demo_inputs) as [[e2 t] rs] eqn:H2.
  exact (proj2 (proj2 (actor_lifetime (AG := demo_aggregates TCounter)
           (demo_env contended empty_fs) "/data" "c1" (mk_ActorConfig 60)
           e1 c a demo_inputs e2 t rs (empty_env_ok _) H1 H2)) Hv).
Defined.

(** A counter spawned on an empty stream, stopped, and spawned again. *)
Definition quiet : DemoClient := demo_client [] [].

Definition poisoned_fs : MemFs :=
  (save_snapshot (AG := demo_aggregates TCounter) empty_fs "/data" "c1"
     (mk_Snapshot (st_state fresh) 0)).1.


(** The counter "c1" has seen one event and stopped; "c1/" is spawned. *)
Definition shared_fs : MemFs :=
  (save_snapshot (AG := demo_aggregates TCounter) empty_fs "/data" "c1"
     (mk_Snapshot (Fixture.mk_Counter 7) 0)).1.

