(* ===== verification/ConcurrentFacts.v ===== *)
(** Theorems about [Concurrent]: whatever the interleaving of the application's
    tasks, the actors and other writers, each instance's stream is a serial
    execution of the commands that were accepted, every reply goes to the call
    it answers, and a message processed without interruption is [actor_step]. *)
From stdpp Require Import relations.
From S2P Require Import Prelude Std Deps Command Errors Aggregate Proto Event EventStore.
From S2P Require Import Client Snapshot Actor Concurrent Codec Demo DemoApp EventFacts ClientFacts.
From S2P Require Import DiskFacts ActorFacts.
Open Scope N_scope.

Section serial.
Context {J : SerdeJson} {U : UuidOps} {T : Tonic}.
Context {A : Type} {AG : Aggregate A}.

(** A stream that is a serial execution: each accepted command was decided on
    everything before it, its events stand right behind that, and between the
    commands other writers may have put events. *)
Inductive serial : list (Command A * list (DomainEvent A)) → list RecordedEvent → Prop :=
| serial_nil : serial [] []
| serial_foreign h l k : serial h l → serial h (l ++ k)
| serial_accept h l cmd es recs :
    serial h l → handle (st_state (replay l)) cmd = Ok es → reads_back es recs →
    serial (h ++ [(cmd, es)]) (l ++ recs).

Lemma serial_foreigners l : serial [] l.
Proof. apply (serial_foreign [] []), serial_nil. Qed.

Lemma serial_grow h l l' : l `prefix_of` l' → serial h l → serial h l'.
Proof. intros [k ->]. apply serial_foreign. Qed.

(** The commands that were accepted with events, among replies. *)
Definition accepted_reply (msg : ActorMessage (A := A)) (r : Reply (A := A))
    : list (Command A * list (DomainEvent A)) :=
  match msg, r with
  | Execute cmd _, ReplyExecute (Ok ((_ :: _) as es)) => [(cmd, es)]
  | _, _ => []
  end.

Definition accepted_in (id : string) (o : Observation (A := A))
    : list (Command A * list (DomainEvent A)) :=
  match o with
  | Answered id' _ msg r => if decide (id' = id) then accepted_reply msg r else []
  | _ => []
  end.

Definition accepted_of (id : string) (h : list (Observation (A := A))) := h ≫= accepted_in id.

Lemma accepted_of_snoc id h o :
  accepted_of id (h ++ option_list (Some o)) = accepted_of id h ++ accepted_in id o.
Proof. unfold accepted_of. rewrite bind_app. simpl. by rewrite app_nil_r. Qed.
End serial.

#[local] Arguments begin_attempt : simpl never.

(** ** One actor *)
Section actor_turn.
Context {J : SerdeJson} {JL : SerdeJsonLaws} {U : UuidOps} {T : Tonic}.
Context {Store : Type} {ES : EventStoreOps Store} {SS : EventStoreSpec to_proto_event Store}.
Context {F : Type} {FS : FileSystem F} {FL : FileSystemLaws F}.
Context {A : Type} {AG : Aggregate A} {AT : AdjacentlyTagged A}.
Context {SA : Serde (Snapshot A)} {SL : SerdeLaws (Snapshot A)}.
Abbreviation stream := (stream_of to_proto_event).
Abbreviation ActorEnv := (ActorEnv (Store := Store) (F := F)).
Implicit Types (c : ActorContext) (e : ActorEnv) (p : Phase (A := A)) (o : Effect (A := A)).

(** Every stream only grows. *)
Definition grows (s s' : Store) : Prop := ∀ sid, stream s sid `prefix_of` stream s' sid.

#[export] Instance grows_preorder : PreOrder grows.
Proof. split; [by intros s sid|]. intros s1 s2 s3 H1 H2 sid. etrans; [apply H1|apply H2]. Qed.

Lemma grows_append s sid x evs s' r : append s sid x evs = (s', r) → grows s s'.
Proof. intros H sid'. by eapply append_grows. Qed.
Lemma grows_read s sid from max s' r : read_stream s sid from max = (s', r) → grows s s'.
Proof. intros H sid'. by eapply read_grows. Qed.
Hint Resolve grows_append grows_read : core.

(** Where an actor is: at the replay of a prefix of its stream and, when it is
    about to append, with what [handle] decided there, encoded. *)
Definition phase_ok (s : Store) (sid : Uuid) (id : string) (p : Phase (A := A)) : Prop :=
  match p with
  | Receiving a | Rereading a _ _ _ _ | InjectAppending a _ _ => actor_ok s sid a
  | Appending a _ _ cmd ctx es proposed =>
      actor_ok s sid a ∧ handle (st_state a) cmd = Ok es ∧ es ≠ [] ∧
      ∃ g g', try_map_state (encode_domain_event ctx (AGGREGATE_TYPE A) id) g es
                = (g', Ok proposed)
  | InjectReading a _ proposed =>
      actor_ok s sid a ∧ ∃ rec, recorded_as (to_proto_event proposed) rec ∧ rec ∈ stream s sid
  | Closing | Closed => True
  end.

Lemma phase_ok_grow s s' sid id p : grows s s' → phase_ok s sid id p → phase_ok s' sid id p.
Proof.
  intros Hg. specialize (Hg sid).
  destruct p; simpl; [by apply actor_ok_grow| |by apply actor_ok_grow..| |done|done].
  - intros [H1 H2]. split; [by eapply actor_ok_grow|done].
  - intros [H1 (rec & H2 & H3)]. split; [by eapply actor_ok_grow|].
    exists rec. split; [done|]. by eapply elem_of_prefix.
Qed.

(** What a step owes for what it shows. *)
Definition effect_ok (s s' : Store) (sid : Uuid) (o : Effect (A := A)) : Prop :=
  match o with
  | Replies _ msg r =>
      reply_ok s' sid (Recv msg) (Some r) ∧
      ∀ h, serial h (stream s sid) → serial (h ++ accepted_reply msg r) (stream s' sid)
  | _ => True
  end.

(** The files over a step: only a stop writes, and only the snapshot of its own
    instance, honestly when the actor has seen an event. *)
Definition disk_frame c e e' (o : Effect (A := A)) : Prop :=
  match o with
  | Stops _ =>
      ∀ id', snapshot_path (ac_base_dir c) (AGGREGATE_TYPE A) id' ≠
             snapshot_path (ac_base_dir c) (AGGREGATE_TYPE A) (ac_instance_id c) →
        content (ae_fs e') (snapshot_path (ac_base_dir c) (AGGREGATE_TYPE A) id') =
        content (ae_fs e) (snapshot_path (ac_base_dir c) (AGGREGATE_TYPE A) id')
  | _ => ae_fs e' = ae_fs e
  end.

Definition disk_ok c e e' (o : Effect (A := A)) : Prop :=
  match o with
  | Stops v =>
      is_Some v → env_ok (A := A) e (ac_base_dir c) (ac_instance_id c) →
      env_ok (A := A) e' (ac_base_dir c) (ac_instance_id c)
  | _ => True
  end.

(** What a step of an actor does to what it shares with others. *)
Record turn_frame c e e' (o : Effect (A := A)) : Prop := {
  tf_grows : grows (ae_store e) (ae_store e');
  tf_disk : disk_frame c e e' o;
}.

(** A step of an actor. *)
Record turn_ok c e e' (p' : Phase (A := A)) (o : Effect (A := A)) : Prop := {
  tn_phase : phase_ok (ae_store e') (ac_stream_id c) (ac_instance_id c) p';
  tn_effect : effect_ok (ae_store e) (ae_store e') (ac_stream_id c) o;
  tn_disk : disk_ok c e e' o;
}.

(** A reply that accepts nothing owes its stream nothing. *)
Lemma effect_ok_plain s s' sid reply msg r :
  grows s s' → reply_ok s' sid (Recv msg) (Some r) → accepted_reply msg r = [] →
  effect_ok s s' sid (Replies reply msg r).
Proof.
  intros Hg Hr Ha. split; [done|]. intros h. rewrite Ha, app_nil_r. by apply serial_grow.
Qed.

(** *** What is shared *)

Lemma begin_attempt_silent g a id reply n cmd ctx g' p o :
  begin_attempt g a id reply n cmd ctx = (g', p, o) →
  (∀ c e e', disk_ok c e e' o) ∧
  ∀ c e s' r, grows (ae_store e) s' → turn_frame c e (mk_ActorEnv s' (ae_fs e) r) o.
Proof.
  unfold begin_attempt. destruct n as [|n]; [by intros; simplify_eq|].
  destruct (handle _ cmd) as [[|e0 es0]|err|]; [by intros; simplify_eq| |by intros; simplify_eq..].
  by destruct (try_map_state _ g _) as [g1 [proposed|err|]]; intros; simplify_eq.
Qed.

Lemma stop_frame c e a e' p o : stop c e a = (e', p, o) → turn_frame c e e' o.
Proof.
  unfold stop, shut_down, save_snapshot_quietly.
  destruct (save_snapshot _ _ _ _) as [f res] eqn:Hsave.
  apply save_snapshot_atomic in Hsave as (_ & _ & _ & Hfr).
  destruct res; intros; simplify_eq; (split; [done|]); intros id' Hne; (apply Hfr; [|done]);
    rewrite snapshot_tmp_path; by intros ?%join_file_inj.
Qed.

Lemma take_message_frame c e a reply msg e' p o :
  take_message c e a reply msg = (e', p, o) → turn_frame c e e' o.
Proof.
  destruct msg as [cmd ctx| |proposed|]; simpl; [|by intros; simplify_eq..|apply stop_frame].
  destruct (begin_attempt _ _ _ _ _ _ _) as [[g p1] o1] eqn:Hb. intros; simplify_eq.
  by apply begin_attempt_silent in Hb as [_ H]; apply H.
Qed.

Lemma resume_frame c e p e' p' o : resume c e p = Some (e', p', o) → turn_frame c e e' o.
Proof.
  destruct p as [|a reply n cmd ctx es proposed|a reply n cmd ctx|a reply proposed|a reply proposed| |];
    simpl; [done|..|by intros; simplify_eq|done].
  - destruct (append _ _ _ _) as [s [resp|st|]] eqn:H; apply grows_append in H;
      [|destruct (code_is_failed_precondition st)|]; by intros; simplify_eq.
  - destruct (read_stream _ _ _ _) as [s [evs|st|]] eqn:H; apply grows_read in H;
      [|by intros; simplify_eq..].
    destruct (begin_attempt _ _ _ _ _ _ _) as [[g p1] o1] eqn:Hb. intros; simplify_eq.
    by apply begin_attempt_silent in Hb as [_ Hb]; apply Hb.
  - destruct (append _ _ _ _) as [s [resp|st|]] eqn:H; apply grows_append in H;
      by intros; simplify_eq.
  - destruct (read_stream _ _ _ _) as [s [evs|st|]] eqn:H; apply grows_read in H;
      by intros; simplify_eq.
Qed.

(** *** What is owed *)

Lemma begin_attempt_ok s sid g a id reply n cmd ctx g' p o :
  actor_ok s sid a → begin_attempt g a id reply n cmd ctx = (g', p, o) →
  phase_ok s sid id p ∧ ∀ s0, grows s0 s → effect_ok s0 s sid o.
Proof.
  intros Hok. unfold begin_attempt.
  destruct n as [|n].
  { intros; simplify_eq. split; [done|]. intros. by apply effect_ok_plain. }
  destruct (handle _ cmd) as [es|err|] eqn:Hh;
    [|intros; simplify_eq; (split; [done|]); intros; by apply effect_ok_plain
     |by intros; simplify_eq].
  destruct es as [|e0 es0].
  { intros; simplify_eq. split; [done|]. intros. apply effect_ok_plain; [done| |done].
    destruct Hok as (l & Hl & ->). exists l, []. rewrite app_nil_r.
    split_and!; [done|constructor|done]. }
  destruct (try_map_state _ g _) as [g1 [proposed|err|]] eqn:Henc; intros; simplify_eq;
    [|split; [done|]; intros; by apply effect_ok_plain|done].
  split; [|done]. simpl. split_and!; [done..|by eauto].
Qed.

Lemma stop_ok c e a e' p o :
  ctx_ok (A := A) c → actor_ok (ae_store e) (ac_stream_id c) a → stop c e a = (e', p, o) →
  turn_ok c e e' p o.
Proof.
  intros Hc Hok. unfold stop. destruct (shut_down c e a) as [[e1 t] r] eqn:Hs.
  assert (is_Some (st_version a) → env_ok (A := A) e (ac_base_dir c) (ac_instance_id c) →
          env_ok (A := A) e1 (ac_base_dir c) (ac_instance_id c)) as Hd.
  { intros Hv He. exact (shut_down_snapshot_ok c e a e1 t r Hc Hok Hv He Hs). }
  destruct t; intros; simplify_eq; by split.
Qed.

Lemma take_message_ok c e a reply msg e' p o :
  ctx_ok (A := A) c → actor_ok (ae_store e) (ac_stream_id c) a →
  take_message c e a reply msg = (e', p, o) → turn_ok c e e' p o.
Proof.
  intros Hc Hok. destruct msg as [cmd ctx| |proposed|]; simpl.
  - destruct (begin_attempt _ _ _ _ _ _ _) as [[g p1] o1] eqn:Hb. intros; simplify_eq.
    pose proof (begin_attempt_silent _ _ _ _ _ _ _ _ _ _ Hb) as [Hd _].
    apply (begin_attempt_ok (ae_store e) (ac_stream_id c)) in Hb as [H1 H3]; [|done].
    split; simpl; [done|by apply H3|apply Hd].
  - intros; simplify_eq. split; [done| |done]. apply effect_ok_plain; [done| |done].
    destruct Hok as (l & Hl & ->). by exists l.
  - intros; simplify_eq. by split.
  - by apply stop_ok.
Qed.

#[local] Arguments effect_ok : simpl never.
#[local] Ltac turn := split; simpl; [|try exact I|done]; try exact I.

(** What an actor reads back brings it forward. *)
Lemma actor_ok_read s sid (a : ActorState A) s' evs :
  actor_ok s sid a → read_stream s sid (next_version (st_version a)) u64_MAX = (s', Ok evs) →
  actor_ok s' sid (fold_events a evs).
Proof.
  intros (l & Hl & ->). rewrite (replay_next_version _ _ _ Hl). intros H.
  exists (l ++ evs). split; [by eapply read_catches_up|by rewrite replay_app].
Qed.

(** An accepted append is the serialisation point of its command. *)
Lemma append_accepted c e a reply cmd ctx es proposed g g' s resp :
  actor_ok (ae_store e) (ac_stream_id c) a → handle (st_state a) cmd = Ok es → es ≠ [] →
  try_map_state (encode_domain_event ctx (AGGREGATE_TYPE A) (ac_instance_id c)) g es
    = (g', Ok proposed) →
  append (ae_store e) (ac_stream_id c) (expected_version a) proposed = (s, Ok resp) →
  turn_ok c e (mk_ActorEnv s (ae_fs e) (ae_rng e))
    (Receiving (mk_ActorState (foldl apply (st_state a) es) (Some (last_stream_version resp))))
    (Replies reply (Execute cmd ctx) (ReplyExecute (Ok es))).
Proof.
  intros (l & Hl & ->) Hh Hne Henc Happ. pose proof (grows_append _ _ _ _ _ _ Happ) as Hg.
  destruct (append_decided _ _ l _ _ _ _ _ es _ _ _ Hl Hne Henc Happ)
    as (Hcur & recs & Hback & Hs & Hst).
  split; simpl; [| |done].
  - exists (l ++ recs). split; [done|exact Hst].
  - split; [by exists l, recs|]. intros h. simpl. rewrite Hcur. intros Hser.
    destruct es as [|e0 es]; [done|]. eapply serial_grow; [exact Hs|].
    by apply serial_accept.
Qed.

(** The actor goes on from an await. *)
Lemma resume_ok c e p e' p' o :
  phase_ok (ae_store e) (ac_stream_id c) (ac_instance_id c) p →
  resume c e p = Some (e', p', o) → turn_ok c e e' p' o.
Proof.
  intros Hok Hres. pose proof (tf_grows _ _ _ _ (resume_frame _ _ _ _ _ _ Hres)) as Hg.
  revert Hok Hres.
  destruct p as [|a reply n cmd ctx es proposed|a reply n cmd ctx|a reply proposed|a reply proposed| |];
    simpl; [done|..|by intros; simplify_eq|done].
  - intros (Hok & Hh & Hne & g & g' & Henc).
    destruct (append _ _ _ _) as [s [resp|st|]] eqn:H; [| |intros; simplify_eq; by turn].
    + intros; simplify_eq. by eapply append_accepted.
    + destruct (code_is_failed_precondition st); intros; simplify_eq; turn;
        [by apply (actor_ok_grow _ _ _ _ (Hg _))..|by apply effect_ok_plain].
  - intros Hok. destruct (read_stream _ _ _ _) as [s [evs|st|]] eqn:H;
      [| |intros; simplify_eq; by turn].
    + pose proof (actor_ok_read _ _ _ _ _ Hok H) as Hok1.
      destruct (begin_attempt _ _ _ _ _ _ _) as [[g p1] o1] eqn:Hb. intros; simplify_eq.
      pose proof (begin_attempt_silent _ _ _ _ _ _ _ _ _ _ Hb) as [Hd _].
      apply (begin_attempt_ok s (ac_stream_id c)) in Hb as [H1 H3]; [|done].
      split; simpl; [done|by apply H3|apply Hd].
    + intros; simplify_eq. turn; [by apply (actor_ok_grow _ _ _ _ (Hg _))|by apply effect_ok_plain].
  - intros Hok. destruct (append _ _ _ _) as [s [resp|st|]] eqn:H;
      intros; simplify_eq; turn; [| |by apply effect_ok_plain].
    + split; [by apply (actor_ok_grow _ _ _ _ (Hg _))|].
      apply (append_ok to_proto_event) in H as (mid & recs & _ & _ & Hrec & Hs & _); [|done].
      apply Forall2_cons_inv_l in Hrec as (rec & recs' & Hrec & _ & ->).
      exists rec. split; [done|]. eapply elem_of_prefix; [|exact Hs]. set_solver.
    + by apply (actor_ok_grow _ _ _ _ (Hg _)).
  - intros [Hok (rec & Hrec & Hin)].
    destruct (read_stream _ _ _ _) as [s rr] eqn:H.
    assert (rec ∈ stream s (ac_stream_id c)) as Hin'.
    { eapply elem_of_prefix; [exact Hin|]. apply (grows_read _ _ _ _ _ _ H). }
    destruct rr as [evs|st|]; intros; simplify_eq; turn;
      try (apply effect_ok_plain; [done| |done]; by exists rec).
    + by eapply actor_ok_read.
    + by apply (actor_ok_grow _ _ _ _ (Hg _)).
Qed.

(** *** The task *)
Definition ctx_at (base : path) c : Prop :=
  ac_stream_id c = stream_uuid (AGGREGATE_TYPE A) (ac_instance_id c) ∧ ac_base_dir c = base.

(** The task takes a message, or goes on with one. *)
Lemma actor_turn_cases e (x : ActorTask) e' x' o :
  actor_turn e x = Some (e', x', o) →
  at_ctx x' = at_ctx x ∧
  ((∃ a reply msg, at_phase x = Receiving a ∧
      take_message (at_ctx x) e a reply msg = (e', at_phase x', o)) ∨
   resume (at_ctx x) e (at_phase x) = Some (e', at_phase x', o)).
Proof.
  unfold actor_turn. destruct x as [c p mailbox]; simpl.
  assert (∀ mb, (λ '(e', p, o), (e', mk_ActorTask c p (match p with Closed => [] | _ => mb end), o))
            <$> resume c e p = Some (e', x', o) →
          at_ctx x' = c ∧ resume c e p = Some (e', at_phase x', o)) as Hres.
  { intros mb. destruct (resume c e p) as [[[e1 p1] o1]|]; intros; by simplify_eq/=. }
  destruct p as [a|? ? ? ? ? ? ?|? ? ? ? ?|? ? ?|? ? ?| |];
    [|by intros [? ?]%(Hres mailbox); auto..].
  destruct mailbox as [|[reply msg] mailbox]; [by intros [? ?]%(Hres [])|].
  destruct (take_message c e a reply msg) as [[e1 p1] o1] eqn:Ht. intros; simplify_eq/=.
  split; [done|]. left. eauto 6.
Qed.

Lemma actor_turn_frame e (x : ActorTask) e' x' o :
  actor_turn e x = Some (e', x', o) → at_ctx x' = at_ctx x ∧ turn_frame (at_ctx x) e e' o.
Proof.
  intros [Hc [(a & reply & msg & _ & H)|H]]%actor_turn_cases; (split; [done|]);
    [by eapply take_message_frame|by eapply resume_frame].
Qed.

Lemma actor_turn_ok base e (x : ActorTask) e' x' o :
  ctx_at base (at_ctx x) →
  phase_ok (ae_store e) (ac_stream_id (at_ctx x)) (ac_instance_id (at_ctx x)) (at_phase x) →
  actor_turn e x = Some (e', x', o) → turn_ok (at_ctx x) e e' (at_phase x') o.
Proof.
  intros [Hc _] Hok [_ [(a & reply & msg & Hp & H)|H]]%actor_turn_cases; [|by eapply resume_ok].
  rewrite Hp in Hok. by eapply take_message_ok.
Qed.
End actor_turn.

(** ** The whole *)
Section conc.
Context {J : SerdeJson} {JL : SerdeJsonLaws} {U : UuidOps} {T : Tonic}.
Context {Store : Type} {ES : EventStoreOps Store} {SS : EventStoreSpec to_proto_event Store}.
Context {F : Type} {FS : FileSystem F} {FL : FileSystemLaws F}.
Context {A : Type} {AG : Aggregate A} {AT : AdjacentlyTagged A}.
Context {SA : Serde (Snapshot A)} {SL : SerdeLaws (Snapshot A)}.
Abbreviation stream := (stream_of to_proto_event).
Abbreviation Conc := (Conc (Store := Store) (F := F) (A := A)).
Abbreviation store_of s := (ae_store (cn_env s)).
Abbreviation the_stream id := (stream_uuid (AGGREGATE_TYPE A) id).
Implicit Types (s : Conc) (h : list (Observation (A := A))) (x : ActorTask (A := A)).

(** What other writers do to a store. *)
Definition conc_run := conc_trace (A := A) (F := F) grows.

(** Nobody else's snapshot is in the instance's file, and no actor of the
    instance stops before it has seen an event. *)
Definition undisturbed (base : path) (id : string) h : Prop :=
  ∀ id' v, Stopped id' v ∈ h →
    snapshot_path base (AGGREGATE_TYPE A) id' = snapshot_path base (AGGREGATE_TYPE A) id →
    id' = id ∧ is_Some v.

Record conc_ok (base : path) (id : string) h s : Prop := {
  co_base : cn_base_dir s = base;
  co_ctx : ∀ n x, cn_actors s !! n = Some x → ctx_at (A := A) base (at_ctx x);
  co_phase : ∀ n x, cn_actors s !! n = Some x → ac_instance_id (at_ctx x) = id →
    phase_ok (store_of s) (the_stream id) id (at_phase x);
  co_disk : env_ok (A := A) (cn_env s) base id;
  co_serial : serial (accepted_of id h) (stream (store_of s) (the_stream id));
  co_replies : ∀ reply msg r, Answered id reply msg r ∈ h →
    reply_ok (store_of s) (the_stream id) (Recv msg) (Some r);
}.

(** Steps that change neither the environment nor the phase of any actor. *)
Definition same_actors s s' : Prop :=
  cn_base_dir s' = cn_base_dir s ∧ cn_env s' = cn_env s ∧
  ∀ n x', cn_actors s' !! n = Some x' →
    ∃ x, cn_actors s !! n = Some x ∧ at_ctx x' = at_ctx x ∧ at_phase x' = at_phase x.

Definition plain (o : option (Observation (A := A))) : Prop :=
  match o with Some (Stopped _ _) | Some (Answered _ _ _ _) => False | _ => True end.

(** How a step acts: on none of this, by a spawn, or through one actor. *)
Inductive acts s s' : option (Observation (A := A)) → Prop :=
| acts_plain o : same_actors s s' → plain o → acts s s' o
| acts_spawn e r id o l :
    spawn_actor_with_store (A := A) (cn_env s) id (cn_base_dir s)
      (mk_ActorConfig (cn_idle_timeout s)) = (e, r) →
    cn_base_dir s' = cn_base_dir s → cn_env s' = e → cn_actors s' = cn_actors s ++ l →
    l = match r with Ok (c, a) => [mk_ActorTask c (Receiving a) []] | _ => [] end →
    plain o → acts s s' o
| acts_actor n x x' e o eff :
    cn_actors s !! n = Some x →
    (actor_turn (cn_env s) x = Some (e, x', eff) ∨
     ∃ a, at_phase x = Receiving a ∧ stop (at_ctx x) (cn_env s) a = (e, at_phase x', eff) ∧
          at_ctx x' = at_ctx x) →
    cn_base_dir s' = cn_base_dir s → cn_env s' = e → cn_actors s' = <[n := x']> (cn_actors s) →
    o = match eff with
        | Silent => None
        | Replies reply msg r => Some (Answered (ac_instance_id (at_ctx x)) reply msg r)
        | Stops v => Some (Stopped (ac_instance_id (at_ctx x)) v)
        end →
    acts s s' o.

Lemma same_actors_eq s s' :
  cn_base_dir s' = cn_base_dir s → cn_env s' = cn_env s → cn_actors s' = cn_actors s →
  same_actors s s'.
Proof. intros H1 H2 H3. split_and!; [done..|]. rewrite H3. eauto. Qed.

Lemma begin_op_same s k t op s' : begin_op s k t op = Some s' → same_actors s s'.
Proof.
  destruct op as [id|msg|j|]; simpl; intros H.
  - simplify_eq. by apply same_actors_eq.
  - apply bind_Some in H as (n & _ & H). simplify_eq. by apply same_actors_eq.
  - apply bind_Some in H as (t' & _ & H). apply bind_Some in H as (n & _ & H). simplify_eq.
    by apply same_actors_eq.
  - simplify_eq. by apply same_actors_eq.
Qed.

Lemma task_turn_acts s k t s' o : task_turn s k t = Some (s', o) → acts s s' o.
Proof.
  unfold task_turn. destruct (tk_pc t) as [|id|id|id n|n msg|n reply msg].
  - done.
  - intros; simplify_eq. apply acts_plain; [by apply same_actors_eq|done].
  - destruct (spawn_actor_with_store _ _ _ _) as [e r] eqn:Hs.
    destruct r as [[c a]|st|]; intros; simplify_eq;
      eapply acts_spawn; try exact Hs; try done; by rewrite app_nil_r.
  - intros; simplify_eq. apply acts_plain; [by apply same_actors_eq|done].
  - destruct (cn_actors s !! n) as [x|] eqn:Hx; [|done].
    destruct (is_closed x).
    { intros; simplify_eq. apply acts_plain; [by apply same_actors_eq|done]. }
    case_decide; [|done]. intros; simplify_eq. apply acts_plain; [|done].
    split_and!; [done..|]. simpl. intros n' x'. destruct (decide (n' = n)) as [->|Hne].
    + rewrite list_lookup_insert_eq by (by eapply lookup_lt_Some). intros [= <-]. by exists x.
    + rewrite list_lookup_insert_ne by done. eauto.
  - destruct (cn_replies s !! reply) as [r|]; [|destruct (sender_alive s n); [done|]];
      intros; simplify_eq; (apply acts_plain; [by apply same_actors_eq|done]).
Qed.

Lemma leave_acts s n s' o : leave s n = Some (s', o) → acts s s' o.
Proof.
  unfold leave. intros H. apply bind_Some in H as (x & Hx & H).
  destruct (at_phase x) as [a|? ? ? ? ? ? ?|? ? ? ? ?|? ? ?|? ? ?| |] eqn:Hp; try done.
  destruct (at_mailbox x); [|done].
  destruct (stop (at_ctx x) (cn_env s) a) as [[e p] eff] eqn:Hs.
  destruct eff; simplify_eq/=;
    (eapply (acts_actor _ _ n x (mk_ActorTask (at_ctx x) p []) e);
     [done|right; by exists a|done..]).
Qed.

Lemma conc_next_acts s l s' o : conc_next s l = Some (s', o) → acts s s' o.
Proof.
  destruct l as [|k op|k|k|n|n|n]; simpl; intros H.
  - simplify_eq. apply acts_plain; [by apply same_actors_eq|done].
  - apply bind_Some in H as (t & _ & H). destruct (tk_pc t); try done.
    apply bind_Some in H as (s1 & Hb & H). simplify_eq.
    apply acts_plain; [by eapply begin_op_same|done].
  - apply bind_Some in H as (t & _ & H). by eapply task_turn_acts.
  - apply bind_Some in H as (t & _ & H). simplify_eq.
    apply acts_plain; [by apply same_actors_eq|done].
  - apply bind_Some in H as (x & Hx & H). apply bind_Some in H as ([[e x'] eff] & Ht & H).
    destruct eff; simplify_eq/=;
      (eapply (acts_actor _ _ n x x' e); [done|by left|done..]).
  - by eapply leave_acts.
  - destruct (has_senders s n); [done|]. by eapply leave_acts.
Qed.

(** *** Preservation *)

Lemma env_ok_grow (e e' : ActorEnv (Store := Store) (F := F)) base id :
  grows (ae_store e) (ae_store e') → ae_fs e' = ae_fs e → env_ok (A := A) e base id →
  env_ok (A := A) e' base id.
Proof. intros Hg Hf. unfold env_ok. rewrite Hf. apply snapshot_ok_grow, Hg. Qed.

Lemma accepted_plain id h o : plain o → accepted_of id (h ++ option_list o) = accepted_of id h.
Proof.
  intros Ho. destruct o as [o|]; [|by rewrite app_nil_r].
  rewrite accepted_of_snoc. destruct o; simpl in *; try done; by rewrite app_nil_r.
Qed.

Lemma answered_plain id reply msg r h o :
  plain o → Answered id reply msg r ∈ h ++ option_list o → Answered id reply msg r ∈ h.
Proof. intros Ho [?|H]%elem_of_app; [done|]. destruct o as [[]|]; set_solver. Qed.

Lemma conc_ok_quiet base id h s s' o :
  conc_ok base id h s → plain o → cn_base_dir s' = cn_base_dir s →
  grows (store_of s) (store_of s') → ae_fs (cn_env s') = ae_fs (cn_env s) →
  (∀ n x', cn_actors s' !! n = Some x' →
     (∃ x, cn_actors s !! n = Some x ∧ at_ctx x' = at_ctx x ∧ at_phase x' = at_phase x) ∨
     ctx_at (A := A) base (at_ctx x') ∧
     (ac_instance_id (at_ctx x') = id →
        phase_ok (store_of s') (the_stream id) id (at_phase x'))) →
  conc_ok base id (h ++ option_list o) s'.
Proof.
  intros [H1 H2 H3 H4 H5 H6] Ho Hb Hg Hf Ha. split.
  - by rewrite Hb.
  - intros n x' [(x & Hx & -> & _)|[? _]]%Ha; [by eapply H2|done].
  - intros n x' [(x & Hx & -> & ->)|[_ H]]%Ha; [|done].
    intros Hid. by eapply phase_ok_grow, H3.
  - by eapply env_ok_grow.
  - rewrite accepted_plain by done. by eapply serial_grow; [apply Hg|].
  - intros reply msg r Hin%answered_plain; [|done]. eapply reply_ok_grow; [apply Hg|].
    by eapply H6.
Qed.

Lemma conc_spawn_env e id base config e' (r : result (ActorContext * ActorState A) Status) :
  spawn_actor_with_store (Store := Store) (F := F) e id base config = (e', r) →
  grows (ae_store e) (ae_store e') ∧ ae_fs e' = ae_fs e ∧
  ∀ c a, r = Ok (c, a) →
    c = mk_ActorContext (stream_uuid (AGGREGATE_TYPE A) id) id base config.
Proof.
  unfold spawn_actor_with_store.
  destruct (load_snapshot (A := A) _ _ _) as [snap|err|]; [|by intros; simplify_eq..].
  destruct (match snap with Some _ => _ | None => _ end) as [[st v] from].
  destruct (read_stream _ _ _ _) as [s [evs|st'|]] eqn:Hr; intros; simplify_eq;
    (split; [by eapply grows_read|]); split; try done; by intros; simplify_eq.
Qed.

(** The step of one actor: what it owes, if it is the instance's, and otherwise
    that it leaves the instance alone. *)
Definition act s n x (e : ActorEnv (Store := Store) (F := F)) x' (eff : Effect (A := A)) : Prop :=
  cn_actors s !! n = Some x ∧
  (actor_turn (cn_env s) x = Some (e, x', eff) ∨
   ∃ a, at_phase x = Receiving a ∧ stop (at_ctx x) (cn_env s) a = (e, at_phase x', eff) ∧
        at_ctx x' = at_ctx x).

Lemma act_frame s n x e x' eff :
  act s n x e x' eff → at_ctx x' = at_ctx x ∧ turn_frame (at_ctx x) (cn_env s) e eff.
Proof.
  intros [_ [H|(a & _ & H & ->)]]; [by eapply actor_turn_frame|].
  split; [done|]. by eapply stop_frame.
Qed.

Lemma act_ok base id h s n x e x' eff :
  conc_ok base id h s → act s n x e x' eff → ac_instance_id (at_ctx x) = id →
  turn_ok (at_ctx x) (cn_env s) e (at_phase x') eff.
Proof.
  intros Hok [Hx Hact] Hid. pose proof (co_ctx _ _ _ _ Hok _ _ Hx) as Hc.
  pose proof (co_phase _ _ _ _ Hok _ _ Hx Hid) as Hp. rewrite <- Hid, <- (proj1 Hc) in Hp.
  destruct Hact as [H|(a & Hr & H & _)]; [by eapply actor_turn_ok|].
  rewrite Hr in Hp. eapply stop_ok; [apply Hc|exact Hp|exact H].
Qed.

Lemma act_disk base id h s n x e x' eff o :
  conc_ok base id h s → act s n x e x' eff →
  o = match eff with
      | Silent => None
      | Replies reply msg r => Some (Answered (ac_instance_id (at_ctx x)) reply msg r)
      | Stops v => Some (Stopped (ac_instance_id (at_ctx x)) v)
      end →
  undisturbed base id (h ++ option_list o) → env_ok (A := A) e base id.
Proof.
  intros Hok Hact -> Hund. pose proof (act_frame _ _ _ _ _ _ Hact) as [_ [Hg Hf]].
  pose proof (co_ctx _ _ _ _ Hok _ _ (proj1 Hact)) as [_ Hb].
  destruct eff as [|reply msg r|v]; simpl in Hf; [by eapply env_ok_grow, Hok..|].
  destruct (decide (snapshot_path base (AGGREGATE_TYPE A) (ac_instance_id (at_ctx x)) =
                    snapshot_path base (AGGREGATE_TYPE A) id)) as [Heq|Hne].
  - destruct (Hund (ac_instance_id (at_ctx x)) v) as [Hid Hv]; [set_solver|done|].
    pose proof (tn_disk _ _ _ _ _ (act_ok _ _ _ _ _ _ _ _ _ Hok Hact Hid) Hv) as Hd.
    rewrite Hb, Hid in Hd. apply Hd, Hok.
  - intros b snap Hc Hj. rewrite <- Hb in Hc, Hne. rewrite Hf in Hc by done. rewrite Hb in Hc.
    by eapply snapshot_ok_grow; [apply Hg|apply (co_disk _ _ _ _ Hok)|..].
Qed.

Lemma act_history base id h s n x e x' eff o :
  conc_ok base id h s → act s n x e x' eff →
  o = match eff with
      | Silent => None
      | Replies reply msg r => Some (Answered (ac_instance_id (at_ctx x)) reply msg r)
      | Stops v => Some (Stopped (ac_instance_id (at_ctx x)) v)
      end →
  serial (accepted_of id (h ++ option_list o)) (stream (ae_store e) (the_stream id)) ∧
  ∀ reply msg r, Answered id reply msg r ∈ h ++ option_list o →
    reply_ok (ae_store e) (the_stream id) (Recv msg) (Some r).
Proof.
  intros Hok Hact ->. pose proof (act_frame _ _ _ _ _ _ Hact) as [_ [Hg _]].
  pose proof (co_serial _ _ _ _ Hok) as Hser.
  assert (∀ reply msg r, Answered id reply msg r ∈ h →
    reply_ok (ae_store e) (the_stream id) (Recv msg) (Some r)) as Hold.
  { intros reply msg r Hin. eapply reply_ok_grow; [apply Hg|]. by eapply co_replies. }
  assert (serial (accepted_of id h) (stream (ae_store e) (the_stream id))) as Hser'
    by (eapply serial_grow; [apply Hg|done]).
  destruct eff as [|reply msg r|v];
    [by rewrite app_nil_r| |].
  2: { rewrite accepted_of_snoc, app_nil_r. split; [done|set_solver]. }
  rewrite accepted_of_snoc. cbn [accepted_in].
  case_decide as Hid; [|rewrite app_nil_r; split; [done|set_solver]].
  pose proof (tn_effect _ _ _ _ _ (act_ok _ _ _ _ _ _ _ _ _ Hok Hact Hid)) as [Hr Hs].
  rewrite (proj1 (co_ctx _ _ _ _ Hok _ _ (proj1 Hact))), Hid in Hr, Hs.
  split; [by apply Hs|]. intros reply' msg' r' [?|?%list_elem_of_singleton]%elem_of_app; [eauto|].
  by simplify_eq.
Qed.

Lemma conc_ok_acts base id h s s' o :
  conc_ok base id h s → undisturbed base id (h ++ option_list o) → acts s s' o →
  conc_ok base id (h ++ option_list o) s'.
Proof.
  intros Hok Hund Hacts. revert Hund.
  destruct Hacts as [o (Hb & He & Ha) Hp|e r id' o l Hs Hb He Ha Hl Hp|n x x' e o eff Hx Hact Hb He Ha Ho];
    intros Hund.
  - apply (conc_ok_quiet base id h s); [done..|by rewrite He|by rewrite He|].
    intros n x' Hx. left. by apply Ha.
  - pose proof (conc_spawn_env _ _ _ _ _ _ Hs) as (Hg & Hf & Hc). rewrite <- He in Hg, Hf.
    apply (conc_ok_quiet base id h s); [done..|]. intros n x'. rewrite Ha.
    intros [Hx|[_ Hx]]%lookup_app_Some; [left; by exists x'|right].
    destruct r as [[c a]| |]; [|by rewrite Hl in Hx..].
    rewrite Hl in Hx. apply list_lookup_singleton_Some in Hx as [_ <-].
    specialize (Hc c a eq_refl) as ->. rewrite (co_base _ _ _ _ Hok). split; [by split|].
    simpl. intros ->. rewrite (co_base _ _ _ _ Hok) in Hs.
    apply spawn_prefix in Hs as (Hat & _); [|by apply Hok]. by rewrite He.
  - assert (act s n x e x' eff) as Hact' by by split.
    pose proof (act_frame _ _ _ _ _ _ Hact') as [Hcx [Hg _]].
    destruct (act_history _ _ _ _ _ _ _ _ _ _ Hok Hact' Ho) as [Hser Hrep].
    assert (∀ n' y, cn_actors s' !! n' = Some y →
              n' = n ∧ y = x' ∨ cn_actors s !! n' = Some y) as Hlook.
    { intros n' y. rewrite Ha. intros [(-> & -> & _)|[_ ?]]%list_lookup_insert_Some; auto. }
    pose proof (act_disk _ _ _ _ _ _ _ _ _ _ Hok Hact' Ho Hund) as Hd.
    split; rewrite ?He; [by rewrite Hb; apply Hok| | |done..].
    + intros n' y [[-> ->]|Hy]%Hlook; [rewrite Hcx|]; by eapply co_ctx.
    + intros n' y [[-> ->]|Hy]%Hlook Hid.
      * rewrite Hcx in Hid. pose proof (tn_phase _ _ _ _ _ (act_ok _ _ _ _ _ _ _ _ _ Hok Hact' Hid)) as H.
        rewrite (proj1 (co_ctx _ _ _ _ Hok _ _ Hx)), Hid in H. done.
      * eapply phase_ok_grow; [exact Hg|]. by eapply co_phase.
Qed.

Lemma undisturbed_app base id h1 h2 : undisturbed base id (h1 ++ h2) → undisturbed base id h1.
Proof. intros H id' v Hin. apply H. set_solver. Qed.

Lemma conc_trace_ok base id s0 h s :
  conc_ok base id [] s0 → conc_run s0 h s → undisturbed base id h → conc_ok base id h s.
Proof.
  intros H0 Hrun. induction Hrun as [|h s l s' o Hrun IH Hnext|h s c Hrun IH Hc]; intros Hund.
  - done.
  - eapply conc_ok_acts; [|done|by eapply conc_next_acts].
    by eapply IH, undisturbed_app.
  - specialize (IH Hund). rewrite <- (app_nil_r h).
    apply (conc_ok_quiet base id h s (set_env_store s c) None); [done..|]. eauto.
Qed.

End conc.
(** ** Reply channels *)
Section replies.
Context {J : SerdeJson} {U : UuidOps} {T : Tonic}.
Context {Store : Type} {ES : EventStoreOps Store} {F : Type} {FS : FileSystem F}.
Context {A : Type} {AG : Aggregate A} {SA : Serde (Snapshot A)}.
Abbreviation Conc := (Conc (Store := Store) (F := F) (A := A)).
Implicit Types (s : Conc) (h : list (Observation (A := A))) (x : ActorTask (A := A)).
Implicit Types (e : ActorEnv (Store := Store) (F := F)).

(** The messages an actor has yet to answer: the one it processes, and those
    in its mailbox. *)
Definition in_phase (p : Phase (A := A)) : list (nat * ActorMessage (A := A)) :=
  match p with
  | Appending _ reply _ cmd ctx _ _ | Rereading _ reply _ cmd ctx => [(reply, Execute cmd ctx)]
  | InjectAppending _ reply proposed | InjectReading _ reply proposed =>
      [(reply, Inject proposed)]
  | Receiving _ | Closing | Closed => []
  end.

Definition pending x : list (nat * ActorMessage (A := A)) := in_phase (at_phase x) ++ at_mailbox x.

(** A step of an actor answers the first of them, or drops some. *)
Definition pending_step x x' (o : Effect (A := A)) : Prop :=
  match o with
  | Replies reply msg _ => pending x = (reply, msg) :: pending x'
  | _ => pending x' `suffix_of` pending x
  end.

Lemma begin_attempt_pending g a id reply n cmd ctx g' p o :
  begin_attempt g a id reply n cmd ctx = (g', p, o) →
  match o with
  | Replies reply' msg _ => reply' = reply ∧ msg = Execute cmd ctx ∧ p = Receiving a
  | _ => p = Closed ∨ in_phase p = [(reply, Execute cmd ctx)]
  end.
Proof.
  unfold begin_attempt. destruct n as [|n]; [by intros; simplify_eq|].
  destruct (handle _ cmd) as [[|e0 es0]|err|]; [by intros; simplify_eq| |by intros; simplify_eq|
    by intros; simplify_eq; left].
  destruct (try_map_state _ g _) as [g1 [proposed|err|]]; intros; simplify_eq; auto.
Qed.

Lemma suffix_cons_self {X} (y : X) l : l `suffix_of` y :: l.
Proof. by exists [y]. Qed.
Hint Resolve suffix_cons_self suffix_nil : core.

Lemma take_message_pending c e a reply msg e' p o mailbox :
  take_message c e a reply msg = (e', p, o) →
  pending_step (mk_ActorTask c (Receiving a) ((reply, msg) :: mailbox))
    (mk_ActorTask c p (match p with Closed => [] | _ => mailbox end)) o.
Proof.
  unfold pending_step, pending. destruct msg as [cmd ctx| |proposed|]; simpl.
  - destruct (begin_attempt _ _ _ _ _ _ _) as [[g p1] o1] eqn:Hb.
    apply begin_attempt_pending in Hb. intros; simplify_eq.
    destruct o as [|reply' msg r|v]; [|by destruct Hb as (-> & -> & ->)|];
      (destruct Hb as [->|Hb]; [by apply suffix_nil|]);
      destruct p; simplify_eq/=; done.
  - by intros; simplify_eq.
  - by intros; simplify_eq.
  - unfold stop. destruct (shut_down c e a) as [[e1 t] r].
    destruct t; intros; simplify_eq; auto.
Qed.

Lemma resume_pending c e p e' p' o mailbox :
  resume c e p = Some (e', p', o) →
  pending_step (mk_ActorTask c p mailbox)
    (mk_ActorTask c p' (match p' with Closed => [] | _ => mailbox end)) o.
Proof.
  unfold pending_step, pending.
  destruct p as [|a reply n cmd ctx es proposed|a reply n cmd ctx|a reply proposed|a reply proposed| |];
    simpl; [done|..|by intros; simplify_eq/=|done].
  - destruct (append _ _ _ _) as [s [resp|st|]];
      [|destruct (code_is_failed_precondition st)|]; by intros; simplify_eq/=.
  - destruct (read_stream _ _ _ _) as [s [evs|st|]]; [|by intros; simplify_eq/=..].
    destruct (begin_attempt _ _ _ _ _ _ _) as [[g p1] o1] eqn:Hb.
    apply begin_attempt_pending in Hb. intros; simplify_eq.
    destruct o as [|reply' msg r|v]; [|by destruct Hb as (-> & -> & ->)|];
      (destruct Hb as [->|Hb]; [by apply suffix_nil|]); destruct p'; simplify_eq/=; done.
  - destruct (append _ _ _ _) as [s [resp|st|]]; by intros; simplify_eq/=.
  - destruct (read_stream _ _ _ _) as [s [evs|st|]]; by intros; simplify_eq/=.
Qed.

Lemma actor_turn_pending e x e' x' o : actor_turn e x = Some (e', x', o) → pending_step x x' o.
Proof.
  unfold actor_turn. destruct x as [c p mailbox]; simpl.
  assert (∀ mb, (λ '(e', p, o), (e', mk_ActorTask c p (match p with Closed => [] | _ => mb end), o))
            <$> resume c e p = Some (e', x', o) → pending_step (mk_ActorTask c p mb) x' o) as Hres.
  { intros mb. destruct (resume c e p) as [[[e1 p1] o1]|] eqn:Hr; intros; simplify_eq/=.
    by eapply resume_pending. }
  destruct p as [a|? ? ? ? ? ? ?|? ? ? ? ?|? ? ?|? ? ?| |]; try apply (Hres mailbox).
  destruct mailbox as [|[reply msg] mailbox]; [apply (Hres [])|].
  destruct (take_message c e a reply msg) as [[e1 p1] o1] eqn:Ht. intros; simplify_eq/=.
  by eapply take_message_pending.
Qed.

(** *** The invariant *)

Definition answered_in (o : Observation (A := A)) : list nat :=
  match o with Answered _ reply _ _ => [reply] | _ => [] end.
Definition answered h : list nat := h ≫= answered_in.

Lemma elem_of_answered k h : k ∈ answered h ↔ ∃ id msg r, Answered id k msg r ∈ h.
Proof.
  unfold answered. rewrite list_elem_of_bind. split.
  - intros ([| |id reply msg r|] & Hin & Ho); simpl in Hin; set_solver.
  - intros (id & msg & r & H). exists (Answered id k msg r). set_solver.
Qed.

Definition is_answer (o : Observation (A := A)) : bool :=
  match o with Answered _ _ _ _ => true | _ => false end.

Lemma answered_plain_app h o :
  (∀ y, o = Some y → is_answer y = false) → answered (h ++ option_list o) = answered h.
Proof.
  intros Ho. destruct o as [x|]; [|by rewrite app_nil_r].
  unfold answered. rewrite bind_app. specialize (Ho x eq_refl).
  destruct x; simpl in *; try done; by rewrite app_nil_r.
Qed.

(** Every reply channel belongs to one message: it is pending with one actor
    or answered, once, and its receiver awaits that message. *)
Record replies_ok h s : Prop := {
  ro_nodup n x : cn_actors s !! n = Some x → NoDup (pending x).*1;
  ro_apart n x n' x' k : cn_actors s !! n = Some x → cn_actors s !! n' = Some x' →
    k ∈ (pending x).*1 → k ∈ (pending x').*1 → n = n';
  ro_pending n x k : cn_actors s !! n = Some x → k ∈ (pending x).*1 →
    (k < cn_next_reply s)%nat ∧ k ∉ answered h;
  ro_answered : NoDup (answered h);
  ro_bound k : k ∈ answered h → (k < cn_next_reply s)%nat;
  ro_filled k r : cn_replies s !! k = Some r → ∃ id msg, Answered id k msg r ∈ h;
  ro_awaiting i t n k msg : cn_tasks s !! i = Some t → tk_pc t = Awaiting n k msg →
    (k < cn_next_reply s)%nat ∧
    (∀ m x msg', cn_actors s !! m = Some x → (k, msg') ∈ pending x → msg' = msg) ∧
    ∀ id msg' r, Answered id k msg' r ∈ h → msg' = msg;
  ro_returned i k msg r : Returned i k msg (Some r) ∈ h → ∃ id, Answered id k msg r ∈ h;
}.

(** Steps that leave the channels alone. *)
Record same_channels s s' : Prop := {
  sc_next : cn_next_reply s' = cn_next_reply s;
  sc_actors n x' : cn_actors s' !! n = Some x' →
    pending x' = [] ∨ ∃ x, cn_actors s !! n = Some x ∧ pending x' = pending x;
  sc_replies : cn_replies s' = cn_replies s;
  sc_tasks i t' n k msg : cn_tasks s' !! i = Some t' → tk_pc t' = Awaiting n k msg →
    ∃ t, cn_tasks s !! i = Some t ∧ tk_pc t = Awaiting n k msg;
}.

Lemma replies_ok_same h s s' o :
  replies_ok h s → same_channels s s' → (∀ y, o = Some y → is_answer y = false) →
  (∀ i k msg r, o = Some (Returned i k msg (Some r)) → ∃ id, Answered id k msg r ∈ h) →
  replies_ok (h ++ option_list o) s'.
Proof.
  intros [H1 H2 H3 H4 H5 H6 H7 H8] [C1 C2 C3 C4] Ho Hret.
  assert (∀ id k msg r, Answered id k msg r ∈ h ++ option_list o → Answered id k msg r ∈ h) as Hin.
  { intros id k msg r [?|Hx]%elem_of_app; [done|]. destruct o as [x|]; [|set_solver].
    specialize (Ho x eq_refl). destruct x; set_solver. }
  split; rewrite ?answered_plain_app by done; rewrite ?C1, ?C3; [| | |done|done| | |].
  - intros n x [->|(y & Hy & ->)]%C2; [constructor|by eapply H1].
  - intros n x n' x' k [->|(y & Hy & ->)]%C2 [->|(y' & Hy' & ->)]%C2; [set_solver..|].
    by eapply H2.
  - intros n x k [->|(y & Hy & ->)]%C2; [set_solver|by eapply H3].
  - intros k r (id & msg & ?)%H6. exists id, msg. set_solver.
  - intros i t n k msg Ht Hpc. destruct (C4 _ _ _ _ _ Ht Hpc) as (t0 & Ht0 & Hpc0).
    destruct (H7 _ _ _ _ _ Ht0 Hpc0) as (B1 & B2 & B3). split_and!; [done| |eauto].
    intros m x msg' [->|(y & Hy & ->)]%C2; [set_solver|by eapply B2].
  - intros i k msg r [Hx|Hx]%elem_of_app.
    + destruct (H8 _ _ _ _ Hx) as [id ?]. exists id. set_solver.
    + destruct (Hret i k msg r) as [id ?]; [destruct o; set_solver|]. exists id. set_solver.
Qed.

(** The task of a suspended call moves to a state that awaits nothing. *)
Lemma same_channels_task s i t :
  (∀ n k msg, tk_pc t ≠ Awaiting n k msg) → same_channels s (set_task s i t).
Proof.
  intros Ht. split; [done| |done|].
  - intros n x Hx. right. by exists x.
  - intros i' t' n k msg. simpl.
    intros [(-> & -> & _)|[_ ?]]%list_lookup_insert_Some; [by intros ?%Ht|eauto].
Qed.

Lemma pending_snoc c p mailbox y :
  pending (mk_ActorTask c p (mailbox ++ [y])) = pending (mk_ActorTask c p mailbox) ++ [y].
Proof. unfold pending. simpl. by rewrite app_assoc. Qed.

(** A message is put into a mailbox, with a new channel. *)
Lemma replies_ok_send h s i n x msg hd :
  replies_ok h s → cn_actors s !! n = Some x →
  let reply := cn_next_reply s in
  let x' := mk_ActorTask (at_ctx x) (at_phase x) (at_mailbox x ++ [(reply, msg)]) in
  replies_ok h
    (set_task (set_replies (set_actors s (cn_env s) (<[n := x']> (cn_actors s)))
                 (cn_replies s) (S reply))
       i (mk_AppTask hd (after_send n reply msg))).
Proof.
  intros [H1 H2 H3 H4 H5 H6 H7 H8] Hx reply x'.
  assert (pending x' = pending x ++ [(reply, msg)]) as Hp.
  { unfold x'. rewrite pending_snoc. by destruct x. }
  assert (∀ m y, <[n := x']> (cn_actors s) !! m = Some y →
    ∃ y0, cn_actors s !! m = Some y0 ∧
      (pending y = pending y0 ∨ m = n ∧ pending y = pending y0 ++ [(reply, msg)])) as Hlook.
  { intros m y [(-> & <- & _)|[_ ?]]%list_lookup_insert_Some; [exists x|exists y]; auto. }
  assert (∀ m y k, cn_actors s !! m = Some y → k ∈ (pending y).*1 → k ≠ reply) as Hnew.
  { intros m y k Hy Hk ->. destruct (H3 _ _ _ Hy Hk). lia. }
  split; simpl; [| | |done| | | |done].
  - intros m y (y0 & Hy0 & [->|[-> ->]])%Hlook; [by eapply H1|].
    rewrite fmap_app. apply NoDup_app. split_and!; [by eapply H1| |apply NoDup_singleton].
    intros k Hk. simpl. intros ->%list_elem_of_singleton. by eapply Hnew.
  - intros m y m' y' k (y0 & Hy0 & Hc)%Hlook (y0' & Hy0' & Hc')%Hlook Hk Hk'.
    destruct Hc as [Hc|[-> Hc]], Hc' as [Hc'|[-> Hc']]; rewrite Hc in Hk; rewrite Hc' in Hk';
      rewrite ?fmap_app, ?elem_of_app in *; simpl in *;
      rewrite ?list_elem_of_singleton in *; [by eapply H2|..|done].
    + destruct Hk' as [?| ->]; [by eapply H2|]. by destruct (Hnew _ _ _ Hy0 Hk).
    + destruct Hk as [?| ->]; [by eapply H2|]. by destruct (Hnew _ _ _ Hy0' Hk').
  - intros m y k (y0 & Hy0 & [->|[-> ->]])%Hlook Hk.
    + destruct (H3 _ _ _ Hy0 Hk). split; [lia|done].
    + rewrite fmap_app, elem_of_app in Hk. destruct Hk as [Hk| ->%list_elem_of_singleton].
      * destruct (H3 _ _ _ Hy0 Hk). split; [lia|done].
      * split; [simpl; lia|]. intros ?%H5. unfold reply in *. simpl in *. lia.
  - intros k ?%H5. lia.
  - done.
  - intros j t m k msg' Ht Hpc.
    assert ((m = n ∧ k = reply ∧ msg' = msg) ∨
            ∃ t, cn_tasks s !! j = Some t ∧ tk_pc t = Awaiting m k msg') as Hcase.
    { apply list_lookup_insert_Some in Ht as [(-> & <- & _)|[_ Ht]]; [left|right; by exists t].
      unfold after_send in Hpc. simpl in Hpc. destruct msg; by simplify_eq. }
    destruct Hcase as [(-> & -> & ->)|(t0 & Ht0 & Hpc0)].
    + split_and!; [lia| |].
      * intros m' y msg' (y0 & Hy0 & [->|[-> ->]])%Hlook Hin.
        { destruct (Hnew _ _ reply Hy0); [|done]. by apply (list_elem_of_fmap_2 fst) in Hin. }
        apply elem_of_app in Hin as [Hin|Hin%list_elem_of_singleton]; [|congruence].
        destruct (Hnew _ _ reply Hy0); [|done]. by apply (list_elem_of_fmap_2 fst) in Hin.
      * intros id msg' r Hin. assert (reply ∈ answered h) as Hb%H5
          by (apply elem_of_answered; eauto). unfold reply in Hb. lia.
    + destruct (H7 _ _ _ _ _ Ht0 Hpc0) as (B1 & B2 & B3). split_and!; [lia| |done].
      intros m' y msg'' (y0 & Hy0 & [->|[-> ->]])%Hlook Hin; [by eapply B2|].
      apply elem_of_app in Hin as [Hin|Hin%list_elem_of_singleton]; [by eapply B2|].
      injection Hin as -> _. unfold reply in B1. lia.
Qed.

(** What is pending after a step of an actor was pending before; an answered
    message no longer is. *)
Lemma pending_step_suffix x x' o : pending_step x x' o → pending x' `suffix_of` pending x.
Proof. destruct o; simpl; [done| |done]. intros ->. by exists [(reply, msg)]. Qed.

Definition shown x (o : Effect (A := A)) : option (Observation (A := A)) :=
  match o with
  | Silent => None
  | Replies reply msg r => Some (Answered (ac_instance_id (at_ctx x)) reply msg r)
  | Stops v => Some (Stopped (ac_instance_id (at_ctx x)) v)
  end.

Lemma answered_shown h x o :
  answered (h ++ option_list (shown x o)) =
  answered h ++ match o with Replies reply _ _ => [reply] | _ => [] end.
Proof. unfold answered. rewrite bind_app. f_equal. by destruct o. Qed.

Lemma suffix_keys {X Y} (l l' : list (X * Y)) k :
  l `suffix_of` l' → k ∈ l.*1 → k ∈ l'.*1.
Proof. intros [l0 ->]. rewrite fmap_app. set_solver. Qed.

Lemma suffix_keys_NoDup {X Y} (l l' : list (X * Y)) :
  l `suffix_of` l' → NoDup l'.*1 → NoDup l.*1.
Proof. intros [l0 ->]. rewrite fmap_app. by intros (_ & _ & ?)%NoDup_app. Qed.

Lemma suffix_elem {X} (l l' : list X) y : l `suffix_of` l' → y ∈ l → y ∈ l'.
Proof. intros [l0 ->]. set_solver. Qed.

(** What is pending with each actor after a step of actor [n]. *)
Lemma turn_lookup s n x x' o :
  cn_actors s !! n = Some x → pending_step x x' o →
  ∀ m y, <[n := x']> (cn_actors s) !! m = Some y →
    ∃ y0, cn_actors s !! m = Some y0 ∧ pending y `suffix_of` pending y0 ∧
          (m = n ∧ y0 = x ∧ y = x' ∨ m ≠ n).
Proof.
  intros Hx Hs%pending_step_suffix m y [(-> & <- & _)|[? ?]]%list_lookup_insert_Some;
    [exists x|exists y]; auto 6.
Qed.

(** The message that is answered was pending with its actor and no longer is,
    with this actor or any other. *)
Lemma turn_answered h s n x x' reply msg r :
  replies_ok h s → cn_actors s !! n = Some x → pending_step x x' (Replies reply msg r) →
  (reply, msg) ∈ pending x ∧ (reply < cn_next_reply s)%nat ∧ (reply ∉ answered h) ∧
  ∀ m y, <[n := x']> (cn_actors s) !! m = Some y → reply ∉ (pending y).*1.
Proof.
  intros Hok Hx Hstep. pose proof (turn_lookup _ _ _ _ _ Hx Hstep) as Hlook. simpl in Hstep.
  pose proof (ro_nodup _ _ Hok _ _ Hx) as Hnd. rewrite Hstep in Hnd.
  apply NoDup_cons in Hnd as [Hnin _].
  assert ((reply, msg) ∈ pending x) as Hin by (rewrite Hstep; left).
  pose proof (list_elem_of_fmap_2 fst _ _ Hin) as Hk. simpl in Hk.
  destruct (ro_pending _ _ Hok _ _ _ Hx Hk). split_and!; [done..|].
  intros m y (y0 & Hy0 & Hs & [(-> & -> & ->)|Hne])%Hlook Hy; [done|].
  apply Hne. by eapply (ro_apart _ _ Hok); [exact Hy0|exact Hx|by eapply suffix_keys|].
Qed.

Lemma replies_ok_turn h s n x x' e o s' :
  replies_ok h s → cn_actors s !! n = Some x → pending_step x x' o →
  cn_actors s' = <[n := x']> (cn_actors s) → cn_next_reply s' = cn_next_reply s →
  cn_tasks s' = cn_tasks s →
  cn_replies s' = match o with
                  | Replies reply _ r => <[reply := r]> (cn_replies s)
                  | _ => cn_replies s
                  end →
  replies_ok (h ++ option_list (shown x o)) s'.
Proof.
  intros Hok Hx Hstep Ea En Et Er. pose proof (turn_lookup _ _ _ _ _ Hx Hstep) as Hlook.
  pose proof (λ reply msg r (E : o = Replies reply msg r),
    turn_answered h s n x x' reply msg r Hok Hx (eq_rect o (pending_step x x') Hstep _ E)) as Hans.
  assert (∀ id k msg r, Answered id k msg r ∈ h ++ option_list (shown x o) →
    Answered id k msg r ∈ h ∨ o = Replies k msg r) as Hold.
  { intros id k msg r [?|Hin]%elem_of_app; [by left|right].
    destruct o; simpl in Hin; set_solver. }
  split; rewrite ?Ea, ?En, ?Et, ?answered_shown.
  - intros m y (y0 & Hy0 & Hs & _)%Hlook. eapply suffix_keys_NoDup; [done|by eapply ro_nodup].
  - intros m y m' y' k (y0 & Hy0 & Hs & _)%Hlook (y0' & Hy0' & Hs' & _)%Hlook Hk Hk'.
    eapply (ro_apart _ _ Hok); [exact Hy0|exact Hy0'|by eapply suffix_keys..].
  - intros m y k Hy Hk. destruct (Hlook _ _ Hy) as (y0 & Hy0 & Hs & _).
    destruct (ro_pending _ _ Hok m y0 k Hy0 (suffix_keys _ _ _ Hs Hk)). split; [done|].
    destruct o as [|reply msg r|v]; rewrite ?app_nil_r; [done| |done].
    destruct (Hans _ _ _ eq_refl) as (_ & _ & _ & Hno). specialize (Hno _ _ Hy). set_solver.
  - destruct o as [|reply msg r|v]; rewrite ?app_nil_r; [by eapply ro_answered| |by eapply ro_answered].
    destruct (Hans _ _ _ eq_refl) as (_ & _ & Hn & _). apply NoDup_app.
    split_and!; [by eapply ro_answered|set_solver|apply NoDup_singleton].
  - intros k [?|Hk]%elem_of_app; [by eapply ro_bound|].
    destruct o as [|reply msg r|v]; [set_solver| |set_solver].
    apply list_elem_of_singleton in Hk as ->. by destruct (Hans _ _ _ eq_refl) as (_ & ? & _).
  - intros k r. rewrite Er. destruct o as [|reply msg r'|v].
    1,3: intros (id & msg & ?)%(ro_filled _ _ Hok); exists id, msg; set_solver.
    intros [[<- <-]|[_ (id & msg' & ?)%(ro_filled _ _ Hok)]]%lookup_insert_Some;
      [exists (ac_instance_id (at_ctx x)), msg|exists id, msg']; set_solver.
  - intros i t m k msg Ht Hpc. destruct (ro_awaiting _ _ Hok _ _ _ _ _ Ht Hpc) as (B1 & B2 & B3).
    split_and!; [done| |].
    + intros m' y msg' (y0 & Hy0 & Hs & _)%Hlook Hin. eapply B2; [exact Hy0|by eapply suffix_elem].
    + intros id msg' r [Hin|Ho]%Hold; [by eapply B3|].
      destruct (Hans _ _ _ Ho) as (Hin & _). by eapply B2.
  - intros i k msg r [Hin|Hin]%elem_of_app.
    + destruct (ro_returned _ _ Hok _ _ _ _ Hin) as [id ?]. exists id. set_solver.
    + destruct o; simpl in Hin; set_solver.
Qed.

(** A step of an actor, as [with_effect] records it. *)
Lemma replies_ok_effect h s n x x' e o s' shown_o :
  replies_ok h s → cn_actors s !! n = Some x → pending_step x x' o →
  with_effect (set_actors s e (<[n := x']> (cn_actors s))) x o = (s', shown_o) →
  replies_ok (h ++ option_list shown_o) s'.
Proof.
  intros Hok Hx Hstep Heff. assert (shown_o = shown x o) as -> by (destruct o; by simplify_eq/=).
  eapply replies_ok_turn; [done..| | | |]; destruct o; by simplify_eq/=.
Qed.

Lemma stop_effect c e a e' p o :
  stop c e a = (e', p, o) → o = Stops (st_version a) ∧ (p = Closing ∨ p = Closed).
Proof.
  unfold stop. destruct (shut_down c e a) as [[e1 t] r].
  destruct t; intros; simplify_eq; auto.
Qed.

Lemma replies_ok_leave h s n s' o :
  replies_ok h s → leave s n = Some (s', o) → replies_ok (h ++ option_list o) s'.
Proof.
  unfold leave. intros Hok H. apply bind_Some in H as (x & Hx & H).
  destruct (at_phase x) as [a|? ? ? ? ? ? ?|? ? ? ? ?|? ? ?|? ? ?| |] eqn:Hp; try done.
  destruct (at_mailbox x) eqn:Hm; [|done].
  destruct (stop (at_ctx x) (cn_env s) a) as [[e p] eff] eqn:Hs. simplify_eq.
  apply stop_effect in Hs as [-> Hp'].
  eapply replies_ok_effect; [done|done| |done]. unfold pending_step, pending.
  destruct Hp' as [->| ->]; apply suffix_nil.
Qed.

Lemma begin_op_channels s k t op s' : begin_op s k t op = Some s' → same_channels s s'.
Proof.
  destruct op as [id|msg|j|]; simpl; intros H.
  - simplify_eq. apply same_channels_task. by destruct (cached s id).
  - apply bind_Some in H as (n & _ & H). simplify_eq. by apply same_channels_task.
  - apply bind_Some in H as (t' & _ & H). apply bind_Some in H as (n & _ & H). simplify_eq.
    by apply same_channels_task.
  - simplify_eq. by apply same_channels_task.
Qed.

Lemma replies_ok_task h s k t s' o :
  replies_ok h s → cn_tasks s !! k = Some t → task_turn s k t = Some (s', o) →
  replies_ok (h ++ option_list o) s'.
Proof.
  intros Hok Ht. unfold task_turn.
  assert (∀ s1 t', same_channels s s1 → (∀ n k' msg, tk_pc t' ≠ Awaiting n k' msg) →
    same_channels s (set_task s1 k t')) as Htask.
  { intros s1 t' [C1 C2 C3 C4] Hn. split; [done..|].
    intros i t2 n k' msg. simpl.
    intros [(-> & -> & _)|[_ ?]]%list_lookup_insert_Some; [by intros ?%Hn|by eapply C4]. }
  assert (same_channels s s) as Hrefl by (split; [done| |done|]; eauto).
  assert (∀ c, same_channels s (set_conc_cache s c)) as Hcache
    by (intros c; split; [done| |done|]; simpl; eauto).
  destruct (tk_pc t) as [|id|id|id n|n msg|n reply msg] eqn:Hpc; [done|..].
  - intros; simplify_eq. by apply (replies_ok_same h s); [|apply Htask|..].
  - destruct (spawn_actor_with_store _ _ _ _) as [e r].
    assert (∀ l, (∀ x, x ∈ l → pending x = []) →
      same_channels s (set_actors s e (cn_actors s ++ l))) as Hact.
    { intros l Hl. split; [done| |done|eauto].
      intros n x. simpl. intros [Hx|[_ Hx]]%lookup_app_Some; [right; by exists x|left].
      apply Hl. by eapply list_elem_of_lookup_2. }
    destruct r as [[c a]|st|]; intros; simplify_eq;
      (apply (replies_ok_same h s); [done| |by intros ? [= <-]|done]);
      (apply Htask; [|done]); [|rewrite <- (app_nil_r (cn_actors s))..];
      apply Hact; set_solver.
  - intros; simplify_eq. by apply (replies_ok_same h s); [|apply Htask|..].
  - destruct (cn_actors s !! n) as [x|] eqn:Hx; [|done].
    destruct (is_closed x).
    { intros; simplify_eq. apply (replies_ok_same h s); [done| |by intros ? [= <-]|done].
      by apply Htask. }
    case_decide; [|done]. intros; simplify_eq. rewrite app_nil_r.
    by apply replies_ok_send.
  - destruct (cn_replies s !! reply) as [r|] eqn:Hr.
    + intros; simplify_eq. apply (replies_ok_same h s); [done|by apply Htask|by intros ? [= <-]|].
      intros i k' msg' r' [= <- <- <- <-].
      destruct (ro_filled _ _ Hok _ _ Hr) as (id & msg' & Hin). exists id.
      destruct (ro_awaiting _ _ Hok _ _ _ _ _ Ht Hpc) as (_ & _ & Hm).
      by rewrite (Hm _ _ _ Hin) in Hin.
    + destruct (sender_alive s n); [done|]. intros; simplify_eq.
      apply (replies_ok_same h s); [done|by apply Htask|by intros ? [= <-]|done].
Qed.

Lemma conc_next_replies_ok h s l s' o :
  replies_ok h s → conc_next s l = Some (s', o) → replies_ok (h ++ option_list o) s'.
Proof.
  intros Hok. destruct l as [|k op|k|k|n|n|n]; simpl; intros H.
  - simplify_eq. apply (replies_ok_same h s); [done| |done|done].
    split; [done| |done|]; [intros n x Hx; right; by exists x|].
    intros i t n k msg. simpl. intros [?|[_ Ht]]%lookup_app_Some; [eauto|].
    apply list_lookup_singleton_Some in Ht as [_ <-]. done.
  - apply bind_Some in H as (t & _ & H). destruct (tk_pc t); try done.
    apply bind_Some in H as (s1 & Hb & H). simplify_eq.
    apply (replies_ok_same h s); [done|by eapply begin_op_channels|done|done].
  - apply bind_Some in H as (t & Ht & H). by eapply replies_ok_task.
  - apply bind_Some in H as (t & _ & H). simplify_eq.
    apply (replies_ok_same h s); [done| |done|done]. by apply same_channels_task.
  - apply bind_Some in H as (x & Hx & H). apply bind_Some in H as ([[e x'] eff] & Ht & H).
    apply actor_turn_pending in Ht. simplify_eq. by eapply replies_ok_effect.
  - by eapply replies_ok_leave.
  - destruct (has_senders s n); [done|]. by eapply replies_ok_leave.
Qed.

Lemma conc_trace_replies_ok extends h s0 s :
  cn_actors s0 = [] → cn_replies s0 = ∅ → cn_tasks s0 = [] →
  conc_trace extends s0 h s → replies_ok h s.
Proof.
  intros Ha Hr Ht Hrun. induction Hrun as [|h s l s' o Hrun IH Hnext|h s c Hrun IH Hc].
  - split; rewrite ?Ha, ?Hr, ?Ht; try done; [constructor|set_solver..].
  - by eapply conc_next_replies_ok.
  - rewrite <- (app_nil_r h). apply (replies_ok_same h s _ None); [done| |done|done].
    split; [done| |done|eauto]. intros n x Hx. right. by exists x.
Qed.

Lemma answered_unique h id k msg r id' msg' r' :
  NoDup (answered h) → Answered id k msg r ∈ h → Answered id' k msg' r' ∈ h →
  (id', msg', r') = (id, msg, r).
Proof.
  intros Hnd Hin (h1 & h2 & ->)%list_elem_of_split.
  unfold answered in Hnd. rewrite bind_app in Hnd. simpl in Hnd.
  apply NoDup_app in Hnd as (_ & Hd & [Hn _]%NoDup_cons).
  apply elem_of_app in Hin as [Hin|[?|Hin]%elem_of_cons]; [|by simplify_eq|]; exfalso.
  - apply (Hd k); [|by left]. apply elem_of_answered. eauto.
  - apply Hn. apply elem_of_answered. eauto.
Qed.

(** C6: a call gets the answer to its own message, and no message is processed
    twice.  In every interleaving, cancelled calls included, each reply channel
    is filled at most once; what a call returns is what an actor answered to
    that very message; so a command that returned [Ok] is exactly one of the
    accepted commands of its instance. *)
Theorem calls_answered_once extends s0 h s i k msg r
    (Hactors : cn_actors s0 = []) (Hreplies : cn_replies s0 = ∅) (Htasks : cn_tasks s0 = [])
    (Hrun : conc_trace extends s0 h s) (Hret : Returned i k msg (Some r) ∈ h) :
  NoDup (answered h) ∧
  ∃ id, Answered id k msg r ∈ h ∧
    ∀ id' msg' r', Answered id' k msg' r' ∈ h → (id', msg', r') = (id, msg, r).
Proof.
  pose proof (conc_trace_replies_ok _ _ _ _ Hactors Hreplies Htasks Hrun) as Hok.
  split; [by eapply ro_answered|].
  destruct (ro_returned _ _ Hok _ _ _ _ Hret) as [id Hin]. exists id. split; [done|].
  intros id' msg' r' Hin'. eapply answered_unique; [by eapply ro_answered|done..].
Qed.

Lemma conc_exec_trace extends s0 h0 s ls h s' :
  conc_trace extends s0 h0 s → conc_exec s ls = Some (h, s') →
  conc_trace extends s0 (h0 ++ h) s'.
Proof.
  revert h0 s h; induction ls as [|l ls IH]; intros h0 s h Htr; simpl.
  { intros; simplify_eq. by rewrite app_nil_r. }
  intros H. apply bind_Some in H as ([s1 o] & Hn & H). apply bind_Some in H as ([h1 s2] & Hx & H).
  simplify_eq. rewrite app_assoc. eapply IH; [|done]. by eapply trace_step.
Qed.
End replies.

(** ** The interleaved code is the sequential code *)
Section refines.
Context {J : SerdeJson} {U : UuidOps} {T : Tonic}.
Context {Store : Type} {ES : EventStoreOps Store} {F : Type} {FS : FileSystem F}.
Context {A : Type} {AG : Aggregate A} {SA : Serde (Snapshot A)}.
Abbreviation ActorEnv := (ActorEnv (Store := Store) (F := F)).

(** An actor resumed until it answers, stops or panics, at most [n] times. *)
Fixpoint finish (n : nat) (c : ActorContext) (st : ActorEnv * Phase (A := A) * Effect (A := A))
    : ActorEnv * Phase (A := A) * Effect (A := A) :=
  match n, st with
  | S n', (e, p, Silent) =>
      match resume c e p with Some st' => finish n' c st' | None => st end
  | _, _ => st
  end.

(** How the outcome of [actor_step] shows in a suspended actor. *)
Definition turn_outcome (reply : nat) (msg : ActorMessage (A := A)) (a : ActorState A)
    (t : ActorEnv * Task A * option (Reply (A := A)))
    : ActorEnv * Phase (A := A) * Effect (A := A) :=
  match t with
  | (e, Running a', Some r) => (e, Receiving a', Replies reply msg r)
  | (e, Running a', None) => (e, Receiving a', Silent)
  | (e, Exited, _) => (e, Closing, Stops (st_version a))
  | (e, Crashed, _) => (e, Closed, match msg with Shutdown => Stops (st_version a) | _ => Silent end)
  end.

Lemma finish_closed n c e : finish n c (e, Closed, Silent) = (e, Closed, Silent).
Proof. by destruct n. Qed.

(** The outcome of an execution, as a phase and an effect. *)
Definition execute_outcome (reply : nat) (cmd : Command A) (ctx : CommandContext) (f : F)
    (t : Store * Rng * ActorState A *
         result (list (DomainEvent A)) (ExecuteError (DomainError A)))
    : ActorEnv * Phase (A := A) * Effect (A := A) :=
  let '(s, g, a, r) := t in
  (mk_ActorEnv s f g,
   match r with Panic => Closed | _ => Receiving a end,
   match r with Panic => Silent | _ => Replies reply (Execute cmd ctx) (ReplyExecute r) end).

Lemma execute_attempts_finish n s f g a c reply cmd ctx :
  (let '(g', p, o) := begin_attempt g a (ac_instance_id c) reply n cmd ctx in
   finish (2 * n) c (mk_ActorEnv s f g', p, o)) =
  execute_outcome reply cmd ctx f
    (execute_attempts n s g a (ac_stream_id c) (ac_instance_id c) cmd ctx).
Proof.
  revert s g a; induction n as [|n IH]; intros s g a; [done|].
  unfold begin_attempt; simpl execute_attempts.
  destruct (handle (st_state a) cmd) as [[|e0 es0]|err|]; [done| |done..].
  destruct (try_map_state _ g _) as [g1 [proposed|err|]]; [|done..].
  replace (2 * S n)%nat with (S (S (2 * n))) by lia.
  cbn [finish resume ae_store ae_fs ae_rng].
  destruct (append s _ _ _) as [s1 [resp|st|]]; [done| |done].
  destruct (code_is_failed_precondition st); [|done].
  cbn [finish resume ae_store ae_fs ae_rng].
  destruct (read_stream s1 _ _ _) as [s2 [events|st2|]]; cbn [ae_fs ae_rng].
  - rewrite <- IH. by destruct (begin_attempt g1 _ _ _ _ _ _) as [[g2 p2] o2].
  - by destruct (2 * n)%nat.
  - by rewrite finish_closed.
Qed.

(** C16: suspending changes nothing.  An actor that processes a message with no
    other task in between, from its mailbox through all its awaits, ends where
    the uninterrupted loop body ends, after at most six resumptions: the same
    event store, files and random source, the same state, the same reply. *)
Theorem turn_refines_step c e a reply msg :
  finish (2 * MAX_RETRIES) c (take_message c e a reply msg) =
  turn_outcome reply msg a (actor_step c e a (Recv msg)).
Proof.
  destruct msg as [cmd ctx| |proposed|]; unfold take_message, actor_step.
  - pose proof (execute_attempts_finish MAX_RETRIES (ae_store e) (ae_fs e) (ae_rng e) a c
                  reply cmd ctx) as H.
    destruct (begin_attempt _ _ _ _ _ _ _) as [[g p] o]. rewrite H.
    unfold execute_with_retry.
    by destruct (execute_attempts _ _ _ _ _ _ _ _) as [[[s1 g1] a1] [es|err|]].
  - done.
  - unfold inject. cbn. destruct (append _ _ _ _) as [s1 [resp|st|]]; cbn; [|done..].
    by destruct (read_stream s1 _ _ _) as [s2 [events|st|]].
  - unfold stop, shut_down.
    by destruct (save_snapshot_quietly _ _ _ _ _) as [f []].
Qed.
End refines.

(** ** Witnesses *)

Abbreviation DemoConc := (Conc (Store := DemoClient) (F := MemFs) (A := DemoState TCounter)).

Definition demo_conc : DemoConc :=
  mk_Conc (demo_env (demo_client [] []) empty_fs) "/data" 60 ∅ [] ∅ 0 [].

(** Two tasks get the same instance at once and so spawn two actors; both send
    an increment, the appends race, and the loser reads and retries. *)
Definition race_labels : list (ConcLabel (A := DemoState TCounter)) :=
  [NewTask; NewTask; Begin 0 (OpGet "c1"); Begin 1 (OpGet "c1"); Turn 0; Turn 1; Turn 0; Turn 1;
   Turn 0; Turn 1; Begin 0 (OpSend (Execute Fixture.Increment CommandContext_default));
   Begin 1 (OpSend (Execute (Fixture.Add 5) CommandContext_default)); Turn 0; Turn 1;
   ActorTurn 0; ActorTurn 1; ActorTurn 1; ActorTurn 0; ActorTurn 0; ActorTurn 0; Turn 0; Turn 1].

Definition race : option (list (Observation (A := DemoState TCounter)) * DemoConc) :=
  conc_exec demo_conc race_labels.

(** What a task was told, and the state of an actor in its loop. *)
Definition returned_ok (o : Observation (A := DemoState TCounter))
    : option (nat * list Fixture.CounterEvent) :=
  match o with
  | Returned k _ _ (Some (ReplyExecute (Ok es))) => Some (k, es)
  | _ => None
  end.
Definition in_loop (p : Phase (A := DemoState TCounter)) : option Fixture.Counter :=
  match p with Receiving a => Some (st_state a) | _ => None end.

Lemma race_trace extends h s : race = Some (h, s) → conc_trace extends demo_conc h s.
Proof. exact (conc_exec_trace extends demo_conc [] demo_conc race_labels h s (trace_start _ _)). Qed.

(** C37: one instance can have two actors.  When two tasks call [get] for an
    instance at the same time, both may find no actor and spawn one; only the
    later entry stays in the cache, both handles stay alive, and both accept
    commands.  The theorem above says that the stream is serial nevertheless;
    but the actors' states differ, and the one behind answers [state] with a
    replay that lacks an event its own process has already acknowledged. *)
Theorem get_race_two_actors :
  match race with
  | Some (h, s) =>
      conc_run demo_conc h s ∧
      cn_cache s !! "c1" = Some 1%nat ∧
      (λ x, ac_instance_id (at_ctx x)) <$> cn_actors s = ["c1"; "c1"] ∧
      sender_alive s 0 = true ∧ sender_alive s 1 = true ∧
      omap returned_ok h = [(0%nat, [Fixture.Incremented]); (1%nat, [Fixture.Added 5])] ∧
      (λ x, in_loop (at_phase x)) <$> cn_actors s =
        [Some (Fixture.mk_Counter 6); Some (Fixture.mk_Counter 5)] ∧
      st_state (replay (AG := demo_aggregates TCounter)
        (stream_of to_proto_event (ae_store (cn_env s)) (stream_uuid "counter" "c1")))
        = Fixture.mk_Counter 6
  | None => False
  end.
Proof.
  assert (match race with
          | Some (h, s) =>
              cn_cache s !! "c1" = Some 1%nat ∧
              (λ x, ac_instance_id (at_ctx x)) <$> cn_actors s = ["c1"; "c1"] ∧
              sender_alive s 0 = true ∧ sender_alive s 1 = true ∧
              omap returned_ok h = [(0%nat, [Fixture.Incremented]); (1%nat, [Fixture.Added 5])] ∧
              (λ x, in_loop (at_phase x)) <$> cn_actors s =
                [Some (Fixture.mk_Counter 6); Some (Fixture.mk_Counter 5)] ∧
              st_state (replay (AG := demo_aggregates TCounter)
                (stream_of to_proto_event (ae_store (cn_env s)) (stream_uuid "counter" "c1")))
                = Fixture.mk_Counter 6
          | None => False
          end) as Hrun by (vm_compute; repeat split).
  destruct race as [[h s]|] eqn:Hrace; [|destruct Hrun].
  exact (conj (race_trace _ _ _ Hrace) Hrun).
Qed.


Lemma calls_answered_once_witness :
  match race with
  | Some (h, s) =>
      NoDup (answered h) ∧
      ∃ id, Answered id 0 (Execute Fixture.Increment CommandContext_default)
              (ReplyExecute (Ok [Fixture.Incremented])) ∈ h
  | None => False
  end.
Proof.
  assert (match race with
          | Some (h, s) => nth_error h 4 = Some (Returned 0 0
              (Execute Fixture.Increment CommandContext_default)
              (Some (ReplyExecute (Ok [Fixture.Incremented]))))
          | None => False
          end) as Hrun by (vm_compute; reflexivity).
  destruct race as [[h s]|] eqn:Hrace; [|destruct Hrun].
  destruct (calls_answered_once (AG := demo_aggregates TCounter) (λ _ _, True)
              demo_conc h s 0 0 _ _ eq_refl eq_refl eq_refl (race_trace _ _ _ Hrace)
              (proj2 (list_elem_of_In _ _) (nth_error_In _ _ Hrun))) as [Hnd (id & Hin & _)].
  split; [exact Hnd|]. exists id. exact Hin.
Defined.
