(* ===== verification/ProjectionFacts.v ===== *)
(** Theorems about [Projection]: a projection's state is the fold of its handler
    over the decodable events below its cursor, each exactly once and in order,
    through catch-ups, replays, stream errors and restarts. *)
From S2P Require Import Prelude Std Deps Command Aggregate Proto Event EventStore Client.
From S2P Require Import Snapshot Cursor Projection Codec Demo DemoApp EventFacts ClientFacts.
From S2P Require Import DiskFacts.
Open Scope N_scope.

Section projection_facts.
Context {J : SerdeJson} {U : UuidOps} {T : Tonic}.
Context {Store : Type} {EL : EventLogOps Store} {LS : EventLogSpec Store}.
Context {F : Type} {FS : FileSystem F} {FL : FileSystemLaws F}.
Context {P : Type} {PR : Projection P}.
Context {SP : Serde (ProjectionCheckpoint P)} {SL : SerdeLaws (ProjectionCheckpoint P)}.

(** The specification of a read model: fold the handler over a log. *)
Definition project_one (state : P) (r : RecordedEvent) : P :=
  match decode_stored_event r with Some e => proj_apply state e | None => state end.
Definition project (log : list RecordedEvent) : P := foldl project_one (proj_default P) log.

(** A checkpoint is right for a log: its cursor stands behind an event of it
    (or at the start), and its state is the projection of what is below. *)
Definition checkpoint_ok (log : list RecordedEvent) (c : ProjectionCheckpoint P) : Prop :=
  cursor_placed log (pc_position c) ∧ pc_state c = project (events_below (pc_position c) log).

(** The checkpoint file, where it holds a checkpoint, holds a right one. *)
Definition checkpoint_file_ok (log : list RecordedEvent) (f : F) (dir : path) : Prop :=
  ∀ b c, content f (join dir "checkpoint.json") = Some b → from_json_bytes b = Ok c →
    checkpoint_ok log c.

(** ** Lemmas *)

Lemma log_of_ok s : log_ok (log_of s).
Proof. split; [apply log_sorted|apply log_bounded]. Qed.

Lemma consume_project x out log :
  foldl (consume_one (proj_react (P := P))) (x, out) log = (foldl project_one x log, out).
Proof.
  revert x; induction log as [|r log IH]; intros x; [done|]. simpl.
  unfold consume_one at 2, project_one at 2. simpl.
  destruct (decode_stored_event r); simpl; [rewrite app_nil_r|]; apply IH.
Qed.

Lemma checkpoint_ok_cursor log c :
  checkpoint_ok log c ↔ cursor_inv proj_react (proj_default P) log (ckpt_pair c) [].
Proof.
  unfold checkpoint_ok, cursor_inv, consume, project. simpl. rewrite consume_project.
  split; intros [H1 H2]; (split; [done|]); [by rewrite H2|by injection H2].
Qed.

Lemma checkpoint_ok_grow log log' c :
  log_ok log' → log `prefix_of` log' → checkpoint_ok log c → checkpoint_ok log' c.
Proof. rewrite !checkpoint_ok_cursor. apply cursor_inv_grow. Qed.

Lemma checkpoint_ok_start log : checkpoint_ok log (mk_ProjectionCheckpoint (proj_default P) 0).
Proof. rewrite checkpoint_ok_cursor. apply cursor_inv_start. Qed.

(** What one delivered batch does to a right checkpoint. *)
Lemma process_stream_ok s c from stream c' res :
  checkpoint_ok (log_of s) c → from ≤ pc_position c →
  stream_events stream `prefix_of` events_from from (log_of s) →
  process_stream c stream = (c', res) →
  checkpoint_ok (log_of s) c' ∧ pc_position c ≤ pc_position c' ∧
  ∀ r, r ∈ batch_events stream → re_global_position r < pc_position c'.
Proof.
  intros Hc%checkpoint_ok_cursor Hfrom Hev Hp%process_stream_cursor.
  eapply cursor_run_inv in Hp as (H1 & H2 & H3);
    [|apply (log_of_ok s)|exact Hc|exact Hfrom|etrans; [apply batch_events_prefix|done]].
  split; [by apply checkpoint_ok_cursor|done].
Qed.

Lemma catch_up_cases s f (r : ProjectionRunner P) s' f' r' res :
  catch_up s f r = (s', f', r', res) →
  pr_checkpoint_dir r' = pr_checkpoint_dir r ∧
  ((f' = f ∧ r' = r ∧ res ≠ Ok () ∧ ∃ x, subscribe_all_from s (runner_position r) = (s', x)) ∨
   ∃ stream c pres, subscribe_all_from s (runner_position r) = (s', Ok stream) ∧
     process_stream (pr_checkpoint r) stream = (c, pres) ∧
     r' = mk_ProjectionRunner c (pr_checkpoint_dir r) ∧
     ((f' = f ∧ res ≠ Ok ()) ∨ pres = Ok () ∧ runner_save f r' = (f', res))).
Proof.
  unfold catch_up. destruct (subscribe_all_from s _) as [s1 [stream|e|]] eqn:Hs.
  - destruct (process_stream _ stream) as [c pres] eqn:Hp.
    destruct pres as [[]|e|].
    + destruct (runner_save f _) as [f1 sv] eqn:Hv. intros [= <- <- <- <-].
      split; [done|right]. exists stream, c, (Ok ()). split_and!; auto.
    + intros [= <- <- <- <-]. split; [done|right]. exists stream, c, (Err e). split_and!; auto.
    + intros [= <- <- <- <-]. split; [done|right]. exists stream, c, Panic. split_and!; auto.
  - intros [= <- <- <- <-]. split; [done|left]. split_and!; by eauto.
  - intros [= <- <- <- <-]. split; [done|left]. split_and!; by eauto.
Qed.

(** ** Theorems *)

Lemma catch_up_checkpoint_ok s f (r : ProjectionRunner P) s' f' r' res :
  checkpoint_ok (log_of s) (pr_checkpoint r) → catch_up s f r = (s', f', r', res) →
  checkpoint_ok (log_of s') (pr_checkpoint r') ∧ log_of s `prefix_of` log_of s' ∧
  runner_position r ≤ runner_position r'.
Proof.
  intros Hok. intros [_ [(-> & -> & _ & x & Hs)|(stream & c & pres & Hs & Hp & -> & _)]]%catch_up_cases;
    pose proof (subscribe_grows _ _ _ _ Hs) as Hg;
    apply (checkpoint_ok_grow _ _ _ (log_of_ok s') Hg) in Hok; [done|].
  eapply process_stream_ok in Hp as (H1 & H2 & _);
    [|exact Hok|reflexivity|by eapply subscribe_ok]. done.
Qed.

(** C14: exactly once, in order.  If a projection's state is the fold of its
    handler over the decodable events below its cursor, it still is after any
    catch-up, on the log as it then stands; also when the subscription fails,
    the stream breaks off, or the checkpoint cannot be saved.  The cursor never
    moves back. *)
Theorem catch_up_exactly_once s f (r : ProjectionRunner P) s' f' r' res
    (Hok : checkpoint_ok (log_of s) (pr_checkpoint r))
    (Hup : catch_up s f r = (s', f', r', res)) :
  checkpoint_ok (log_of s') (pr_checkpoint r') ∧ runner_position r ≤ runner_position r' ∧
  pr_checkpoint_dir r' = pr_checkpoint_dir r.
Proof.
  destruct (catch_up_checkpoint_ok _ _ _ _ _ _ _ Hok Hup) as (H1 & _ & H2).
  split_and!; [done..|]. by eapply catch_up_cases.
Qed.

Lemma catch_up_seen s f (r : ProjectionRunner P) s' f' r' items evs :
  checkpoint_ok (log_of s) (pr_checkpoint r) →
  subscribe_all_from s (runner_position r) = (s', Ok items) →
  until_caught_up items = Some evs → catch_up s f r = (s', f', r', Ok ()) →
  (∀ ev, ev ∈ log_of s → re_global_position ev < runner_position r') ∧
  log_of s `prefix_of` events_below (runner_position r') (log_of s') ∧
  runner_state r' = project (events_below (runner_position r') (log_of s')).
Proof.
  intros Hok Hsub Hcu Hup.
  apply catch_up_cases in Hup as
    [_ [(_ & _ & ? & _)|(stream & c & pres & Hs & Hp & -> & _)]]; [done|].
  rewrite Hsub in Hs. simplify_eq.
  pose proof (subscribe_grows _ _ _ _ Hsub) as Hg.
  apply (checkpoint_ok_grow _ _ _ (log_of_ok s') Hg) in Hok.
  eapply process_stream_ok in Hp as (H1 & H2 & H3);
    [|exact Hok|reflexivity|by eapply subscribe_ok].
  rewrite (batch_events_until _ _ Hcu) in H3.
  pose proof (subscribe_caught_up _ _ _ _ _ Hsub Hcu) as Hall.
  assert (∀ ev, ev ∈ log_of s → re_global_position ev < pc_position c) as Hlt.
  { intros ev Hev. destruct (decide (runner_position r ≤ re_global_position ev)).
    - apply H3. eapply elem_of_prefix; [|done]. unfold events_from.
      by apply list_elem_of_filter.
    - unfold runner_position in *. lia. }
  split; [done|]. destruct H1 as [_ H1]. split; [|done].
  destruct Hg as [k ->]. unfold events_below. rewrite filter_app.
  rewrite (filter_all _ (log_of s)) by done. by apply prefix_app_r.
Qed.

(** Completeness.  When the subscription delivers its [CaughtUp] marker,
    the catch-up has applied every event that was in the log when it was
    called; with [catch_up_exactly_once], the projection is that of a log that
    contains all of them. *)
Lemma catch_up_complete s f (r : ProjectionRunner P) s' f' r' items evs
    (Hok : checkpoint_ok (log_of s) (pr_checkpoint r))
    (Hsub : subscribe_all_from s (runner_position r) = (s', Ok items))
    (Hcu : until_caught_up items = Some evs)
    (Hup : catch_up s f r = (s', f', r', Ok ())) :
  (∀ ev, ev ∈ log_of s → re_global_position ev < runner_position r') ∧
  ∃ seen, log_of s `prefix_of` seen ∧ seen `prefix_of` log_of s' ∧
    runner_state r' = project seen.
Proof.
  destruct (catch_up_seen _ _ _ _ _ _ _ _ Hok Hsub Hcu Hup) as (H1 & H2 & H3).
  split; [done|]. eexists. split_and!; [exact H2| |exact H3].
  apply events_below_prefix, log_of_ok.
Qed.

Lemma runner_new_ok log f dir r :
  checkpoint_file_ok log f dir → runner_new f dir = Ok r → checkpoint_ok log (pr_checkpoint r).
Proof.
  intros Hf. unfold runner_new, load_checkpoint, read_to_string.
  destruct (fs_read f _) as [b|e|] eqn:Hr; simpl; [| |done].
  - destruct (from_utf8 b) as [text|] eqn:Ht; simpl; [|done].
    rewrite (as_bytes_from_utf8 _ _ Ht).
    destruct (from_json_bytes b) as [c|e|] eqn:Hj; simpl; [| |done]; intros [= <-].
    + by eapply Hf; [apply fs_read_ok|].
    + apply checkpoint_ok_start.
  - case_decide; simpl; [|done]. intros [= <-]. apply checkpoint_ok_start.
Qed.

Lemma checkpoint_file_ok_grow log log' f dir :
  log_ok log' → log `prefix_of` log' →
  checkpoint_file_ok log f dir → checkpoint_file_ok log' f dir.
Proof. intros ?? H b c Hb Hj. eapply checkpoint_ok_grow; [done..|by eapply H]. Qed.

Lemma runner_save_file_ok log f (r : ProjectionRunner P) f' res :
  checkpoint_ok log (pr_checkpoint r) → checkpoint_file_ok log f (pr_checkpoint_dir r) →
  runner_save f r = (f', res) → checkpoint_file_ok log f' (pr_checkpoint_dir r).
Proof.
  intros Hr Hf (_ & Hok & Hor & _)%runner_save_atomic b c Hb Hj.
  destruct Hor as [Hold|H]; [rewrite Hold in Hb; by eapply Hf|].
  destruct (Hok H) as (json & Hjs & Hc). apply serde_roundtrip in Hjs.
  rewrite Hb in Hc. simplify_eq. rewrite Hj in Hjs. by simplify_eq.
Qed.

(** C29: restarts.  Whatever happens during a catch-up, the checkpoint file
    afterwards holds a right checkpoint if it holds any; so a runner created
    from the disk at any later time, after a crash at any point, starts from a
    state and a cursor that agree, and repeats or misses no event. *)
Theorem projection_crash_safe s f (r : ProjectionRunner P) s' f' r' res
    (Hok : checkpoint_ok (log_of s) (pr_checkpoint r))
    (Hfile : checkpoint_file_ok (log_of s) f (pr_checkpoint_dir r))
    (Hup : catch_up s f r = (s', f', r', res)) :
  checkpoint_file_ok (log_of s') f' (pr_checkpoint_dir r) ∧
  ∀ restarted, runner_new f' (pr_checkpoint_dir r) = Ok restarted →
    checkpoint_ok (log_of s') (pr_checkpoint restarted).
Proof.
  assert (checkpoint_file_ok (log_of s') f' (pr_checkpoint_dir r)) as H;
    [|by split; [|intros; eapply runner_new_ok]].
  apply catch_up_cases in Hup as
    [Hd [(-> & -> & _ & x & Hs)|(stream & c & pres & Hs & Hp & -> & Hf)]];
    pose proof (subscribe_grows _ _ _ _ Hs) as Hg;
    apply (checkpoint_file_ok_grow _ _ _ _ (log_of_ok s') Hg) in Hfile; [done|].
  destruct Hf as [[-> _]|[_ Hsave]]; [done|].
  apply (checkpoint_ok_grow _ _ _ (log_of_ok s') Hg) in Hok.
  eapply process_stream_ok in Hp as (H1 & _);
    [|exact Hok|reflexivity|by eapply subscribe_ok].
  by eapply (runner_save_file_ok _ f (mk_ProjectionRunner c (pr_checkpoint_dir r))).
Qed.

(** The cursor arithmetic.  An event below the cursor changes nothing; any
    other moves the cursor right behind it, except at the last position a
    [u64] has, where the addition of a release build wraps and the projection
    starts over at 0. *)
Lemma apply_event_cursor (r : ProjectionRunner P) ev
    (Hcur : runner_position r ≤ u64_MAX) (Hev : re_global_position ev ≤ u64_MAX) :
  (re_global_position ev < runner_position r → runner_apply_event r ev = r) ∧
  (runner_position r ≤ re_global_position ev →
     runner_state (runner_apply_event r ev) = project_one (runner_state r) ev ∧
     runner_position (runner_apply_event r ev) =
       if decide (re_global_position ev = u64_MAX) then 0 else re_global_position ev + 1).
Proof.
  unfold runner_apply_event, apply_to_checkpoint, apply_recorded_event, runner_position,
    runner_state in *. split; intros H.
  - rewrite (proj2 (N.ltb_lt _ _) H). by destruct r as [[]].
  - rewrite (proj2 (N.ltb_ge _ _) H). simpl. split; [done|].
    case_decide as Hd; [by rewrite Hd|]. apply u64_add_small. lia.
Qed.
End projection_facts.

(** ** Witnesses *)

(** Two counter events; the subscription breaks after the first, then works. *)
Definition two_events (i : list Interference) : DemoClient :=
  demo_client [demo_entry "c1" Fixture.Incremented 0; demo_entry "c1" (Fixture.Added 2) 1] i.

Abbreviation new_runner :=
  (mk_ProjectionRunner (P := DemoProj ()) (mk_ProjectionCheckpoint (mk_EventCounter 0) 0) "/p").

Lemma new_runner_ok log : checkpoint_ok (PR := event_counter ()) log (pr_checkpoint new_runner).
Proof. apply (checkpoint_ok_start (PR := event_counter ())). Qed.

Lemma catch_up_exactly_once_witness :
  match catch_up (two_events [BreaksAfter 1]) empty_fs new_runner with
  | (s', _, r', Err _) => checkpoint_ok (log_of s') (pr_checkpoint r') ∧
                          runner_position r' = 1 ∧ count (runner_state r') = 1
  | _ => False
  end.
Proof.
  assert (match catch_up (two_events [BreaksAfter 1]) empty_fs new_runner with
          | (s', _, r', Err _) => runner_position r' = 1 ∧ count (runner_state r') = 1
          | _ => False
          end) as Hrun by (vm_compute; split; reflexivity).
  destruct (catch_up _ _ _) as [[[s' f'] r'] [[]|e|]] eqn:H; [done| |done].
  split; [|exact Hrun].
  exact (proj1 (catch_up_exactly_once (two_events [BreaksAfter 1]) empty_fs new_runner
                  s' f' r' (Err e) (new_runner_ok _) H)).
Defined.

Lemma projection_crash_safe_witness :
  match catch_up (two_events []) empty_fs new_runner with
  | (s', f', _, _) => checkpoint_file_ok (PR := event_counter ()) (log_of s') f' "/p"
  end.
Proof.
  destruct (catch_up _ _ _) as [[[s' f'] r'] res] eqn:H.
  refine (proj1 (projection_crash_safe (two_events []) empty_fs new_runner s' f' r' res
                   (new_runner_ok _) _ H)).
  intros b c Hb. vm_compute in Hb. discriminate.
Defined.
