(* ===== verification/ProcessManagerFacts.v ===== *)
(** Theorems about [ProcessManager]: what a catch-up returns is exactly what the
    workflow emits for the events it had not seen, and what becomes of those
    envelopes when the stream breaks off. *)
From S2P Require Import Prelude Std Deps Command Aggregate Proto Event EventStore Client.
From S2P Require Import Snapshot Cursor Projection ProcessManager Codec Demo DemoApp EventFacts.
From S2P Require Import ClientFacts DiskFacts ProjectionFacts.
Open Scope N_scope.

Section pm_facts.
Context {J : SerdeJson} {U : UuidOps} {T : Tonic}.
Context {Store : Type} {EL : EventLogOps Store} {LS : EventLogSpec Store}.
Context {PM : Type} {PMC : ProcessManager PM} {SM : Serde (ProcessManagerCheckpoint PM)}.
Context {F : Type} {FS : FileSystem F} {FL : FileSystemLaws F}.

(** A checkpoint is right for a log, and [out] is everything the workflow has
    emitted for the events below its cursor, in order. *)
Definition pm_at (log : list RecordedEvent) (c : ProcessManagerCheckpoint PM)
    (out : list CommandEnvelope) : Prop :=
  cursor_placed log (pmc_position c) ∧
  consume pm_react (pm_default PM) (events_below (pmc_position c) log) = (pmc_state c, out).

(** The checkpoint file, where it holds a checkpoint, holds a right one. *)
Definition pm_file_ok (log : list RecordedEvent) (f : F) (dir : path) : Prop :=
  ∀ b c, content f (join dir "checkpoint.json") = Some b → from_json_bytes b = Ok c →
    ∃ out, pm_at log c out.

(** ** Lemmas *)

Lemma pm_at_cursor log c out :
  pm_at log c out ↔ cursor_inv pm_react (pm_default PM) log (pm_ckpt_pair c) out.
Proof. done. Qed.

Lemma pm_at_grow log log' c out :
  log_ok log' → log `prefix_of` log' → pm_at log c out → pm_at log' c out.
Proof. rewrite !pm_at_cursor. apply cursor_inv_grow. Qed.

Lemma pm_at_unique log c out1 out2 : pm_at log c out1 → pm_at log c out2 → out1 = out2.
Proof. intros [_ H1] [_ H2]. congruence. Qed.

Lemma pm_at_start log : pm_at log (mk_ProcessManagerCheckpoint (pm_default PM) 0) [].
Proof. rewrite pm_at_cursor. apply cursor_inv_start. Qed.

Lemma pm_runner_new_ok log f dir r :
  pm_file_ok log f dir → pm_runner_new f dir = Ok r → ∃ out, pm_at log (pm_checkpoint r) out.
Proof.
  intros Hf. unfold pm_runner_new, load_pm_checkpoint, read_to_string.
  destruct (fs_read f _) as [b|e|] eqn:Hr; simpl; [| |done].
  - destruct (from_utf8 b) as [text|] eqn:Ht; simpl; [|done].
    rewrite (as_bytes_from_utf8 _ _ Ht).
    destruct (from_json_bytes b) as [c|e|] eqn:Hj; simpl; [| |done]; intros [= <-].
    + by eapply Hf; [apply fs_read_ok|].
    + eexists. apply pm_at_start.
  - case_decide; simpl; [|done]. intros [= <-]. eexists. apply pm_at_start.
Qed.

Lemma pm_catch_up_cases s (r : ProcessManagerRunner PM) s' r' res :
  pm_catch_up s r = (s', r', res) →
  pm_checkpoint_dir r' = pm_checkpoint_dir r ∧
  ((r' = r ∧ (∀ envs, res ≠ Ok envs) ∧ ∃ x, subscribe_all_from s (pm_position r) = (s', x)) ∨
   ∃ stream, subscribe_all_from s (pm_position r) = (s', Ok stream) ∧
     pm_process_stream (pm_checkpoint r) [] stream = (pm_checkpoint r', res)).
Proof.
  unfold pm_catch_up. destruct (subscribe_all_from s _) as [s1 [stream|e|]] eqn:Hs.
  - destruct (pm_process_stream _ _ stream) as [c pres] eqn:Hp. intros [= <- <- <-].
    split; [done|right]. eauto.
  - intros [= <- <- <-]. split; [done|left]. split_and!; by eauto.
  - intros [= <- <- <-]. split; [done|left]. split_and!; by eauto.
Qed.

Lemma pm_catch_up_at s (r : ProcessManagerRunner PM) s' r' res out :
  pm_at (log_of s) (pm_checkpoint r) out → pm_catch_up s r = (s', r', res) →
  ∃ new, pm_at (log_of s') (pm_checkpoint r') (out ++ new) ∧
    pm_position r ≤ pm_position r' ∧ log_of s `prefix_of` log_of s' ∧
    (∀ envs, res = Ok envs → envs = new).
Proof.
  intros Hat Hup. apply pm_catch_up_cases in Hup as
    [_ [(-> & Hne & x & Hs)|(stream & Hs & Hp)]];
    pose proof (subscribe_grows _ _ _ _ Hs) as Hg;
    apply (pm_at_grow _ _ _ _ (log_of_ok s') Hg) in Hat.
  - exists []. rewrite app_nil_r. split_and!; [done..|]. intros envs ->. by destruct (Hne envs).
  - apply pm_process_stream_cursor in Hp as (new & Hrun & Henv).
    eapply cursor_run_inv in Hrun as (H1 & H2 & _);
      [|apply (log_of_ok s')|exact Hat|reflexivity|].
    + exists new. split_and!; [done..|]. intros envs ->. by rewrite (Henv _ eq_refl).
    + etrans; [apply batch_events_prefix|by eapply subscribe_ok].
Qed.

(** ** Theorems *)

(** C19: a catch-up returns exactly the envelopes the workflow emits for the
    events from its cursor on, in the order of the log: appended to everything
    emitted before, they are what the workflow emits for the whole log below
    the new cursor; none twice, none left out. *)
Theorem pm_catch_up_exact s (r : ProcessManagerRunner PM) s' r' envs out
    (Hat : pm_at (log_of s) (pm_checkpoint r) out)
    (Hup : pm_catch_up s r = (s', r', Ok envs)) :
  pm_at (log_of s') (pm_checkpoint r') (out ++ envs) ∧ pm_position r ≤ pm_position r'.
Proof.
  destruct (pm_catch_up_at _ _ _ _ _ _ Hat Hup) as (new & H1 & H2 & _ & H3).
  by rewrite (H3 _ eq_refl).
Qed.

End pm_facts.

(** ** Witnesses *)

Abbreviation new_pm :=
  (mk_ProcessManagerRunner (PM := DemoPm ()) (mk_ProcessManagerCheckpoint (mk_EchoSaga 0) 0) "/m").

Lemma new_pm_at log : pm_at (PMC := echo_saga ()) log (pm_checkpoint new_pm) [].
Proof. apply (pm_at_start (PMC := echo_saga ())). Qed.

Lemma pm_catch_up_exact_witness :
  match pm_catch_up (two_events []) new_pm with
  | (s', r', Ok envs) => length envs = 2%nat ∧ pm_at (log_of s') (pm_checkpoint r') ([] ++ envs)
  | _ => False
  end.
Proof.
  assert (match pm_catch_up (two_events []) new_pm with
          | (_, _, Ok envs) => length envs = 2%nat | _ => False end) as Hlen
    by (vm_compute; reflexivity).
  destruct (pm_catch_up _ _) as [[s' r'] [envs|e|]] eqn:H; [|done..].
  split; [exact Hlen|].
  exact (proj1 (pm_catch_up_exact (two_events []) new_pm s' r' envs [] (new_pm_at _) H)).
Defined.

