(* ===== verification/StoreFacts.v ===== *)
(** Theorems about [Store]: handles and respawns, command dispatch end to end,
    the run of the process managers, and the read side. *)
From Stdlib Require Import Strings.Ascii Strings.String.
From S2P Require Import Prelude Std Deps Command Errors Aggregate Proto Event EventStore.
From S2P Require Import Client Snapshot Actor Cursor Projection ProcessManager LiveTypes Store.
From S2P Require Import Codec Demo DemoApp EventFacts ClientFacts DiskFacts ActorFacts.
From S2P Require Import ProjectionFacts ProcessManagerFacts.
Open Scope N_scope.

Section downcast.
Context {I : Type} `{EqDecision I} {B : I → Type}.

Lemma downcast_self i (x : B i) : downcast (existT i x) i = Some x.
Proof.
  unfold downcast. simpl. destruct (decide (i = i)) as [e|]; [|done].
  by rewrite (proof_irrel e eq_refl).
Qed.

Lemma downcast_Some (x : sigT B) i y : downcast x i = Some y ↔ x = existT i y.
Proof.
  split; [|intros ->; apply downcast_self]. destruct x as [j x]. unfold downcast. simpl.
  destruct (decide (j = i)) as [e|]; [|done]. destruct e. simpl. by intros [= ->].
Qed.

Lemma existT_inj i (x y : B i) : existT i x = existT i y → x = y.
Proof. intros H%(f_equal (λ z, downcast z i)). rewrite !downcast_self in H. by simplify_eq. Qed.

Lemma downcast_None (x : sigT B) i : downcast x i = None ↔ projT1 x ≠ i.
Proof. unfold downcast. by destruct (decide _). Qed.
End downcast.

Section store_facts.
Context {J : SerdeJson} {U : UuidOps} {T : Tonic}.
Context {Store : Type} {ES : EventStoreOps Store} {EL : EventLogOps Store}.
Context {F : Type} {FS : FileSystem F} {FL : FileSystemLaws F} {SD : Serde DeadLetterEntry}.
Context {TypeId : Type} `{!EqDecision TypeId, !Countable TypeId}.
Context {Agg : TypeId → Type} {AG : ∀ t, Aggregate (Agg t)}.
Context {CD : ∀ t, CommandDe (Agg t)} {SA : ∀ t, Serde (Snapshot (Agg t))}.
Context {ProjId : Type} `{!EqDecision ProjId}.
Context {Proj : ProjId → Type} {PJ : ∀ p, Projection (Proj p)}.
Context {SP : ∀ p, Serde (ProjectionCheckpoint (Proj p))}.
Context {PmId : Type} {Pm : PmId → Type} {PMC : ∀ q, ProcessManager (Pm q)}.
Context {SM : ∀ q, Serde (ProcessManagerCheckpoint (Pm q))}.

Abbreviation World := (AggregateStore (Store := Store) (F := F) (TypeId := TypeId)
  (Agg := Agg) (ProjId := ProjId) (Proj := Proj) (PmId := PmId) (Pm := Pm)).

(** ** Handles *)

Lemma task_of_insert (w : World) t (h : AggregateHandle t) (task : Task (Agg t)) ts n :
  task_of (set_tasks w (<[h_task t h := existT t task]> ts) n) t h = task.
Proof. unfold task_of. simpl. by rewrite lookup_insert_eq, downcast_self. Qed.

Lemma get_cached_Some (w : World) t id h :
  get_cached w t id = Some h ↔
  cache w !! (t, id) = Some (existT t h) ∧ handle_is_alive w t h = true.
Proof.
  unfold get_cached. split.
  - destruct (cache w !! (t, id)) as [boxed|]; [|done].
    destruct (downcast boxed t) as [h'|] eqn:Hd; [|done].
    apply downcast_Some in Hd as ->. destruct (handle_is_alive w t h') eqn:Ha; [|done].
    by intros [= ->].
  - intros [-> Ha]. by rewrite downcast_self, Ha.
Qed.

(** [get] hands out live actors and spawns at most one per instance: the
    handle it returns belongs to a running task and is the cached one for the
    type and identifier, so that a second call returns the very same handle
    and changes nothing; other instances' entries are left alone. *)
Lemma get_returns_live_handle (w w' : World) t id h
    (Hget : get w t id = (w', Ok h)) :
  handle_is_alive w' t h = true ∧ cache w' !! (t, id) = Some (existT t h) ∧
  get w' t id = (w', Ok h) ∧
  ∀ key, key ≠ (t, id) → cache w' !! key = cache w !! key.
Proof.
  assert (handle_is_alive w' t h = true ∧ cache w' !! (t, id) = Some (existT t h) ∧
          ∀ key, key ≠ (t, id) → cache w' !! key = cache w !! key) as (Ha & Hc & Ho).
  { unfold get in Hget. destruct (get_cached w t id) as [h'|] eqn:Hg.
    - simplify_eq. by apply get_cached_Some in Hg as [? ?].
    - unfold get_spawn in Hget.
      destruct (spawn_actor_with_store _ _ _ _) as [e [[ctx a]|s|]]; simplify_eq/=.
      split_and!.
      + unfold handle_is_alive, task_of. simpl. by rewrite lookup_insert_eq, downcast_self.
      + by rewrite lookup_insert_eq.
      + intros key Hkey. by rewrite lookup_insert_ne, lookup_delete_ne. }
  split_and!; [done..| |done]. unfold get. by rewrite (proj2 (get_cached_Some w' t id h)).
Qed.

(** ** What dispatching leaves alone *)

(** What an operation on envelopes leaves alone. *)
Definition frame (w w' : World) : Prop :=
  process_managers w' = process_managers w ∧ projections w' = projections w ∧
  dispatchers w' = dispatchers w ∧ store_base_dir w' = store_base_dir w ∧
  live_config w' = live_config w ∧ clock w' = clock w.

#[export] Instance frame_preorder : PreOrder frame.
Proof.
  split; [by intros w|].
  intros w1 w2 w3 (?&?&?&?&?&?) (?&?&?&?&?&?). unfold frame. split_and!; congruence.
Qed.

Section rel.
Context (R : Store → Store → Prop) `{!PreOrder R}.
Context (Rappend : ∀ s sid e evs s' r, append s sid e evs = (s', r) → R s s').
Context (Rread : ∀ s sid from max s' r, read_stream s sid from max = (s', r) → R s s').

Lemma get_frame (w w' : World) t id r :
  get w t id = (w', r) → frame w w' ∧ fs w' = fs w ∧ R (client w) (client w').
Proof using All.
  unfold get. destruct (get_cached w t id) as [h|]; [by intros [= <- <-]|].
  unfold get_spawn, spawn_actor_with_store.
  destruct (load_snapshot _ _ _) as [snap|x|]; [|by intros [= <- <-]..].
  destruct (match snap with Some _ => _ | None => _ end) as [[st v] from].
  destruct (read_stream _ _ _ _) as [s rr] eqn:Hr. apply Rread in Hr.
  destruct rr; by intros [= <- <-].
Qed.

Lemma store_execute_frame (w w' : World) t h cmd ctx r :
  store_execute w t h cmd ctx = (w', r) →
  frame w w' ∧ fs w' = fs w ∧ R (client w) (client w').
Proof using All.
  unfold store_execute, handle_execute, send_message.
  destruct (task_of w t h) as [a| |]; [|by intros [= <- <-]..].
  destruct (actor_step _ _ a _) as [[e1 t1] r1] eqn:Hstep.
  assert (ae_fs e1 = fs w) as Hf.
  { simpl in Hstep. destruct (execute_with_retry _ _ _ _ _ _ _) as [[[s g] a1] []];
      by simplify_eq. }
  apply (actor_step_rel R) in Hstep; [|done..].
  destruct r1 as [[| |]|]; by intros [= <- <-].
Qed.

Lemma dispatch_frame (w w' : World) t envelope r :
  dispatch w t envelope = (w', r) → frame w w' ∧ fs w' = fs w ∧ R (client w) (client w').
Proof using All.
  unfold dispatch. destruct (command_from_value _) as [cmd|e|]; [|by intros [= <- <-]..].
  destruct (get w t _) as [w1 gr] eqn:Hget. apply get_frame in Hget as (H1 & H2 & H3).
  destruct gr as [h|e|]; [|by intros [= <- <-]..].
  destruct (store_execute w1 t h cmd _) as [w2 er] eqn:Hex.
  apply store_execute_frame in Hex as (H4 & H5 & H6).
  assert (frame w w2 ∧ fs w2 = fs w ∧ R (client w) (client w2))
    by (split_and!; [by etrans|congruence|by etrans]).
  destruct er; by intros [= <- <-].
Qed.

Lemma route_frame (w w' : World) envelope r :
  route w envelope = (w', r) → frame w w' ∧ fs w' = fs w ∧ R (client w) (client w').
Proof using All.
  unfold route. destruct (dispatchers w !! _) as [t|]; [|by intros [= <- <-]].
  destruct (dispatch w t envelope) as [w1 dr] eqn:Hd. apply dispatch_frame in Hd.
  destruct dr; by intros [= <- <-].
Qed.

(** Dispatching a batch touches the disk at its dead-letter log only, and
    counts every envelope. *)
Lemma dispatch_envelopes_frame (w w' : World) p envelopes report r :
  dispatch_envelopes w p envelopes report = (w', r) →
  frame w w' ∧ R (client w) (client w') ∧
  (∀ q, q ≠ p → content (fs w') q = content (fs w) q) ∧
  ∀ report', r = Ok report' →
    (dispatched report' + dead_lettered report' =
     dispatched report + dead_lettered report + length envelopes)%nat.
Proof using All.
  revert w report; induction envelopes as [|envelope envelopes IH]; intros w report; simpl.
  { intros [= <- <-]. split_and!; [done..|]. intros report' [= ->]. lia. }
  destruct (route w envelope) as [w1 rr] eqn:Hr. apply route_frame in Hr as (H1 & H2 & H3).
  destruct rr as [[error|]|e|]; [| |intros [= <- <-]; by rewrite H2..].
  - unfold dead_letter. destruct (append_dead_letter _ _ _ _ _) as [f dr] eqn:Hdl.
    assert (∀ q, q ≠ p → content f q = content (fs w) q) as Hf.
    { intros q Hq. rewrite <- H2. by eapply append_dead_letter_frame. }
    destruct dr as [[]|e|]; [|by intros [= <- <-]..].
    intros (H4 & H5 & H6 & H7)%IH. split_and!; [by etrans|by etrans| |].
    + intros q Hq. rewrite H6 by done. by apply Hf.
    + intros report' ->. rewrite (H7 _ eq_refl). simpl. lia.
  - intros (H4 & H5 & H6 & H7)%IH. split_and!; [by etrans|by etrans| |].
    + intros q Hq. rewrite H6 by done. by rewrite H2.
    + intros report' ->. rewrite (H7 _ eq_refl). simpl. lia.
Qed.

(** All envelopes of a work list. *)
Definition work_size (work : list (list CommandEnvelope * path)) : nat :=
  length (mjoin work.*1).

Lemma work_size_cons envelopes p work :
  work_size ((envelopes, p) :: work) = (length envelopes + work_size work)%nat.
Proof. unfold work_size. simpl. by rewrite length_app. Qed.

Lemma dispatch_work_frame (w w' : World) work report r :
  dispatch_work w work report = (w', r) →
  frame w w' ∧ R (client w) (client w') ∧
  (∀ q, q ∉ work.*2 → content (fs w') q = content (fs w) q) ∧
  ∀ report', r = Ok report' →
    (dispatched report' + dead_lettered report' =
     dispatched report + dead_lettered report + work_size work)%nat.
Proof using All.
  revert w report; induction work as [|[envelopes p] work IH]; intros w report; simpl.
  { intros [= <- <-]. split_and!; [done..|]. intros report' [= ->]. unfold work_size. simpl. lia. }
  destruct (dispatch_envelopes w p envelopes report) as [w1 dr] eqn:Hd.
  apply dispatch_envelopes_frame in Hd as (H1 & H2 & H3 & H4).
  destruct dr as [report1|e|]; [|intros [= <- <-]; split_and!; [done..| |done];
                                  intros q Hq; apply H3; set_solver..].
  intros (H5 & H6 & H7 & H8)%IH. split_and!; [by etrans|by etrans| |].
  - intros q Hq. rewrite H7 by set_solver. apply H3. set_solver.
  - intros report' ->. rewrite (H8 _ eq_refl), (H4 _ eq_refl), work_size_cons. lia.
Qed.
End rel.

(** ** The invariant of the store *)
Context {IN : InUse TypeId}.
Context {JL : SerdeJsonLaws} {SS : EventStoreSpec to_proto_event Store}.
Context {AT : ∀ t, AdjacentlyTagged (Agg t)}.
Abbreviation stream := (stream_of to_proto_event).

(** The stream of an instance. *)
Definition instance_sid (t : TypeId) (id : string) : Uuid :=
  stream_uuid (AGGREGATE_TYPE (Agg t)) id.

(** A handle for an instance: it addresses the instance's stream, and while
    its task runs the actor of an instance in use is at a prefix of that stream. *)
Definition handle_ok (w : World) (t : TypeId) (id : string) (h : AggregateHandle t) : Prop :=
  (∃ config, h_ctx t h = mk_ActorContext (instance_sid t id) id (store_base_dir w) config) ∧
  h_task t h < next_task w ∧
  ∀ a, in_use t id → task_of w t h = Running a → actor_ok (client w) (instance_sid t id) a.

(** Every cached handle is one for its key; no two share a task; every
    snapshot file of an instance in use is honest. *)
Record store_ok (w : World) : Prop := {
  so_cache t id x : cache w !! (t, id) = Some x → ∃ h, x = existT t h ∧ handle_ok w t id h;
  so_tasks t id h t' id' h' :
    cache w !! (t, id) = Some (existT t h) → cache w !! (t', id') = Some (existT t' h') →
    h_task t h = h_task t' h' → (t, id) = (t', id');
  so_snapshots t id : in_use t id →
    snapshot_ok (A := Agg t) (client w) (fs w) (store_base_dir w) id;
}.

Lemma handle_ok_grow (w w' : World) t id h :
  tasks w' !! h_task t h = tasks w !! h_task t h → next_task w ≤ next_task w' →
  store_base_dir w' = store_base_dir w →
  (∀ sid, stream (client w) sid `prefix_of` stream (client w') sid) →
  handle_ok w t id h → handle_ok w' t id h.
Proof.
  intros Ht Hn Hb Hg ([config Hc] & Hlt & Ha). split_and!.
  - exists config. by rewrite Hb.
  - lia.
  - intros a Hu Hr. eapply actor_ok_grow; [apply Hg|]. apply Ha; [done|].
    unfold task_of in *. by rewrite <- Ht.
Qed.

(** A change of the environment only. *)
Lemma store_ok_env (w w' : World) :
  cache w' = cache w → tasks w' = tasks w → next_task w' = next_task w →
  store_base_dir w' = store_base_dir w →
  (∀ sid, stream (client w) sid `prefix_of` stream (client w') sid) →
  (∀ t id p, p = snapshot_path (store_base_dir w) (AGGREGATE_TYPE (Agg t)) id →
     content (fs w') p = content (fs w) p) →
  store_ok w → store_ok w'.
Proof.
  intros Hc Ht Hn Hb Hg Hf [H1 H2 H3]. split.
  - intros t id x. rewrite Hc. intros (h & -> & Hh)%H1. exists h. split; [done|].
    eapply handle_ok_grow; [by rewrite Ht|by rewrite Hn|done..].
  - rewrite Hc. apply H2.
  - intros t id Hu b snap. rewrite Hb, (Hf t id _ eq_refl). intros Hcon Hj.
    destruct (H3 t id Hu b snap Hcon Hj) as (l & Hl & Hr). exists l.
    split; [by etrans|done].
Qed.

Lemma spawn_env {A} {AGA : Aggregate A} {SAA : Serde (Snapshot A)} (e e' : ActorEnv) id base
    config (r : result (ActorContext * ActorState A) Status) :
  spawn_actor_with_store e id base config = (e', r) →
  ae_fs e' = ae_fs e ∧ ∀ sid, stream (ae_store e) sid `prefix_of` stream (ae_store e') sid.
Proof.
  unfold spawn_actor_with_store. destruct (load_snapshot _ _ _) as [snap|x|];
    [|by intros; simplify_eq..].
  destruct (match snap with Some _ => _ | None => _ end) as [[st v] from].
  destruct (read_stream _ _ _ _) as [s rr] eqn:Hr.
  intros H. assert (ae_fs e' = ae_fs e ∧ ae_store e' = s) as [-> ->]
    by (destruct rr; by simplify_eq). split; [done|]. intros sid. by eapply read_grows.
Qed.

(** Forgetting a handle. *)
Lemma store_ok_forget (w : World) key :
  store_ok w → store_ok (set_cache w (delete key (cache w))).
Proof.
  intros [H1 H2 H3]. split; simpl; [| |done].
  - intros t id x [_ Hx]%lookup_delete_Some. destruct (H1 _ _ _ Hx) as (h & -> & Hh).
    by exists h.
  - intros t id h t' id' h' [_ Hx]%lookup_delete_Some [_ Hy]%lookup_delete_Some.
    by apply H2.
Qed.

(** Caching a handle of a new task. *)
Lemma store_ok_cache (w : World) t id (h : AggregateHandle t) (a : ActorState (Agg t)) config :
  store_ok w → cache w !! (t, id) = None → h_task t h = next_task w →
  h_ctx t h = mk_ActorContext (instance_sid t id) id (store_base_dir w) config →
  (in_use t id → actor_ok (client w) (instance_sid t id) a) →
  store_ok (set_cache (set_tasks w (<[h_task t h := existT t (Running a)]> (tasks w))
                         (next_task w + 1))
              (<[(t, id) := existT t h]> (cache w))).
Proof.
  intros [H1 H2 H3] Hnone Hn Hctx Ha. rewrite Hn.
  assert (∀ t' id' h', cache w !! (t', id') = Some (existT t' h') → h_task t' h' < next_task w)
    as Hlt.
  { intros t' id' h' Hc. destruct (H1 _ _ _ Hc) as (h'' & ->%existT_inj & (_ & ? & _)). done. }
  split; simpl; [| |done].
  - intros t' id' x [[[= <- <-] <-]|[Hne Hx]]%lookup_insert_Some.
    + exists h. split; [done|]. split_and!; [by exists config|simpl; lia|].
      intros a' Hu. unfold task_of. simpl.
      rewrite Hn, lookup_insert_eq, downcast_self. intros [= <-]. by apply Ha.
    + destruct (H1 _ _ _ Hx) as (h' & -> & Hh). exists h'. split; [done|].
      pose proof (Hlt _ _ _ Hx).
      eapply handle_ok_grow, Hh; simpl; [rewrite lookup_insert_ne by lia|lia|..]; done.
  - intros t1 id1 h1 t2 id2 h2 [[[= <- <-] Hh1]|[Hne1 Hx1]]%lookup_insert_Some
      [[[= <- <-] Hh2]|[Hne2 Hx2]]%lookup_insert_Some Ht; [done|..].
    + apply existT_inj in Hh1 as ->. pose proof (Hlt _ _ _ Hx2). lia.
    + apply existT_inj in Hh2 as ->. pose proof (Hlt _ _ _ Hx1). lia.
    + by eapply H2.
Qed.

Lemma get_ok (w w' : World) t id r :
  store_ok w → get w t id = (w', r) →
  store_ok w' ∧ (∀ sid, stream (client w) sid `prefix_of` stream (client w') sid) ∧
  fs w' = fs w ∧ store_base_dir w' = store_base_dir w.
Proof.
  intros Hw. unfold get. destruct (get_cached w t id) as [h|]; [by intros [= <- <-]|].
  unfold get_spawn. set (w1 := set_cache w (delete (t, id) (cache w))).
  destruct (spawn_actor_with_store _ _ _ _) as [e sr] eqn:Hs.
  destruct (spawn_env _ _ _ _ _ _ Hs) as [Hfs Hg]. simpl in Hfs, Hg.
  assert (store_ok (set_env w1 e)) as Hw1.
  { eapply store_ok_env, (store_ok_forget w (t, id)), Hw; try done.
    intros t' id' p _. simpl. by rewrite Hfs. }
  destruct sr as [[ctx a]|status|]; [|by intros [= <- <-]..].
  intros [= <- <-]. split; [|done].
  pose proof (spawn_context _ _ _ _ _ _ _ Hs) as ->.
  refine (store_ok_cache (set_env w1 e) t id (mk_AggregateHandle t _ _) a _ Hw1 _ _ _ _);
    [by apply lookup_delete_None; left|done..|].
  intros Hu. by eapply spawn_prefix in Hs as (Hok & _); [|apply (so_snapshots w Hw)].
Qed.

(** ** Dispatching a command *)
Context {SLA : ∀ t, SerdeLaws (Snapshot (Agg t))}.

#[local] Instance stream_preorder sid :
  PreOrder (λ s s' : Store, stream s sid `prefix_of` stream s' sid).
Proof. split; [intros s; reflexivity|intros s1 s2 s3 H1 H2; by etrans]. Qed.

Lemma handle_execute_env {t} c e (task : Task (Agg t)) cmd ctx e' task' r :
  handle_execute c e task cmd ctx = (e', task', r) →
  (∀ sid, stream (ae_store e) sid `prefix_of` stream (ae_store e') sid) ∧ ae_fs e' = ae_fs e.
Proof.
  unfold handle_execute, send_message. destruct task as [a| |]; [|by intros [= <- <- <-]..].
  destruct (actor_step c e a (Recv (Execute cmd ctx))) as [[e1 t1] r1] eqn:Hstep.
  intros H. assert (e' = e1) as -> by (destruct r1 as [[]|]; by simplify_eq). clear H. split.
  - intros sid.
    refine (actor_step_rel (λ s s', stream s sid `prefix_of` stream s' sid) _ _ _ _ _ _ _ _ _ Hstep);
      intros; [by eapply append_grows|by eapply read_grows].
  - simpl in Hstep. destruct (execute_with_retry _ _ _ _ _ _ _) as [[[s g] a1] []];
      by simplify_eq.
Qed.

Lemma handle_execute_ok {t} c e (task : Task (Agg t)) cmd ctx e' task' r :
  ctx_ok (A := Agg t) c →
  (∀ a, task = Running a → actor_ok (ae_store e) (ac_stream_id c) a) →
  handle_execute c e task cmd ctx = (e', task', r) →
  (∀ a, task' = Running a → actor_ok (ae_store e') (ac_stream_id c) a) ∧
  (∀ es, r = Ok es → ∃ l recs, handle (st_state (replay l)) cmd = Ok es ∧
     reads_back es recs ∧ (l ++ recs) `prefix_of` stream (ae_store e') (ac_stream_id c)).
Proof.
  intros Hc Ha. unfold handle_execute, send_message.
  destruct task as [a| |]; [|by intros [= <- <- <-]..].
  destruct (Ha a eq_refl) as (l & Hat).
  destruct (actor_step c e a (Recv (Execute cmd ctx))) as [[e1 t1] r1] eqn:Hstep.
  apply (actor_step_ok c e l a) in Hstep as (_ & Hrun & _ & Hrep); [|done..].
  assert (∀ a', t1 = Running a' → actor_ok (ae_store e1) (ac_stream_id c) a') as Hrun'.
  { intros a' Ht. destruct (Hrun a' Ht) as (l' & _ & Hl'). by exists l'. }
  destruct r1 as [[rx|rx|rx]|]; intros [= <- <- <-]; split; try done.
  intros es ->. destruct Hrep as (l' & recs & H1 & H2 & H3). by exists l', recs.
Qed.

(** A task of the store has moved, and nothing but the environment with it. *)
Lemma store_ok_task (w : World) t id h e (task : Task (Agg t)) :
  store_ok w → cache w !! (t, id) = Some (existT t h) →
  (∀ sid, stream (client w) sid `prefix_of` stream (ae_store e) sid) →
  (∀ a, in_use t id → task = Running a → actor_ok (ae_store e) (instance_sid t id) a) →
  (∀ t' id', in_use t' id' → snapshot_ok (A := Agg t') (ae_store e) (ae_fs e)
                               (store_base_dir w) id') →
  store_ok (set_tasks (set_env w e) (<[h_task t h := existT t task]> (tasks w)) (next_task w)).
Proof.
  intros [H1 H2 _] Hc Hg Ha Hs. split; simpl; [|done|done].
  intros t' id' x Hx. destruct (H1 _ _ _ Hx) as (h' & -> & Hh). exists h'. split; [done|].
  destruct (decide (h_task t h = h_task t' h')) as [Heq|Hne].
  - pose proof (H2 _ _ _ _ _ _ Hc Hx Heq) as [= <- <-].
    rewrite Hc in Hx. injection Hx as Hx%existT_inj. subst h'.
    destruct Hh as (Hctx & Hlt & _). split_and!; [done..|].
    intros a. rewrite task_of_insert. auto.
  - eapply handle_ok_grow, Hh; simpl; [by rewrite lookup_insert_ne|lia|done|done].
Qed.

Lemma store_execute_ok (w w' : World) t id h cmd ctx r :
  store_ok w → cache w !! (t, id) = Some (existT t h) →
  store_execute w t h cmd ctx = (w', r) →
  store_ok w' ∧ (∀ sid, stream (client w) sid `prefix_of` stream (client w') sid) ∧
  fs w' = fs w ∧ store_base_dir w' = store_base_dir w ∧
  (∀ es, in_use t id → r = Ok es → ∃ l recs, handle (st_state (replay l)) cmd = Ok es ∧
     reads_back es recs ∧ (l ++ recs) `prefix_of` stream (client w') (instance_sid t id)).
Proof.
  intros Hw Hc. unfold store_execute.
  destruct (so_cache w Hw _ _ _ Hc) as (h' & <-%existT_inj & ([config Hctx] & Hlt & Ha)).
  destruct (handle_execute _ _ _ _ _) as [[e task] r0] eqn:Hex. intros [= <- <-].
  rewrite Hctx in Hex. pose proof (handle_execute_env _ _ _ _ _ _ _ _ Hex) as [Hg Hf].
  simpl in *. split_and!; [|done..|].
  - eapply store_ok_task; [done..| |].
    + intros a Hu. eapply handle_execute_ok in Hex as [Hok _]; [exact (Hok a)|done|].
      intros a' Hr. by apply Ha.
    + intros t' id' Hu. rewrite Hf. eapply snapshot_ok_grow; [apply Hg|by apply (so_snapshots w Hw)].
  - intros es Hu Hr. eapply handle_execute_ok in Hex as [_ Hok]; [exact (Hok es Hr)|done|].
    intros a' Ht. by apply Ha.
Qed.

Lemma get_in_cache (w w' : World) t id h :
  get w t id = (w', Ok h) → cache w' !! (t, id) = Some (existT t h).
Proof.
  unfold get. destruct (get_cached _ _ _) as [h'|] eqn:Hgc.
  - intros [= <- <-]. by apply get_cached_Some in Hgc as [? _].
  - destruct (get_spawn _ _ _) as [w2 [h'|x|]]; intros; simplify_eq/=. apply lookup_insert_eq.
Qed.

Lemma dispatch_ok (w w' : World) t envelope r :
  store_ok w → dispatch w t envelope = (w', r) →
  store_ok w' ∧ (∀ sid, stream (client w) sid `prefix_of` stream (client w') sid) ∧
  fs w' = fs w ∧ store_base_dir w' = store_base_dir w ∧
  (in_use t (env_instance_id envelope) → r = Ok () →
     ∃ cmd l recs es, command_from_value (A := Agg t) (env_command envelope) = Ok cmd ∧
     handle (st_state (replay l)) cmd = Ok es ∧ reads_back es recs ∧
     (l ++ recs) `prefix_of`
       stream (client w') (instance_sid t (env_instance_id envelope))).
Proof.
  intros Hw. unfold dispatch.
  destruct (command_from_value _) as [cmd|e|] eqn:Hcmd; [|by intros [= <- <-]..].
  destruct (get w t _) as [w1 gr] eqn:Hget.
  destruct (get_ok _ _ _ _ _ Hw Hget) as (Hw1 & Hg1 & Hf1 & Hb1).
  destruct gr as [h|e|]; [|by intros [= <- <-]..].
  pose proof (get_in_cache _ _ _ _ _ Hget) as Hc.
  destruct (store_execute w1 t h cmd _) as [w2 er] eqn:Hex.
  destruct (store_execute_ok _ _ _ _ _ _ _ _ Hw1 Hc Hex) as (Hw2 & Hg2 & Hf2 & Hb2 & Hr).
  assert (∀ sid, stream (client w) sid `prefix_of` stream (client w2) sid) as Hg
    by (intros sid; etrans; [apply Hg1|apply Hg2]).
  assert (fs w2 = fs w ∧ store_base_dir w2 = store_base_dir w) as [Hf Hb] by (split; congruence).
  destruct er as [es|e|]; intros [= <- <-]; split_and!; try done.
  intros Hu _. destruct (Hr es Hu eq_refl) as (l & recs & Hh & Hrb & Hs). by exists cmd, l, recs, es.
Qed.

(** C13: dispatching is executing.  In a store whose live actors are at
    prefixes of their streams and whose snapshots are honest, dispatching an
    envelope keeps that so, whatever the outcome; and when it reports success
    and its instance is one of those in use,
    the command was decoded, decided by [handle] on a replayed prefix of the
    addressed instance's stream, and its events stand right behind that
    prefix, even if the actor had to be spawned again or lost races. *)
Theorem dispatch_correct (w w' : World) t envelope r
    (Hok : store_ok w) (Hdispatch : dispatch w t envelope = (w', r)) :
  store_ok w' ∧
  (in_use t (env_instance_id envelope) → r = Ok () →
     ∃ cmd l recs es, command_from_value (A := Agg t) (env_command envelope) = Ok cmd ∧
     handle (st_state (replay l)) cmd = Ok es ∧ reads_back es recs ∧
     (l ++ recs) `prefix_of`
       stream (client w') (instance_sid t (env_instance_id envelope))).
Proof. apply dispatch_ok in Hdispatch as (H1 & _ & _ & _ & H2); [|done]. by split. Qed.


(** ** Running the process managers *)
Context {LS : EventLogSpec Store} {SLS : EventStoreLogSpec Store}.
Context {SML : ∀ q, SerdeLaws (ProcessManagerCheckpoint (Pm q))}.
Abbreviation AnyPm := (sigT (λ q : PmId, ProcessManagerRunner (Pm q))).

Definition pm_file (x : AnyPm) : path := join (pm_checkpoint_dir (projT2 x)) "checkpoint.json".
Definition pm_dead_letters (x : AnyPm) : path := dead_letter_path (projT2 x).

(** Each process manager has a right checkpoint, and has emitted [outs] so far. *)
Definition pms_at (log : list RecordedEvent) (pms : list AnyPm)
    (outs : list (list CommandEnvelope)) : Prop :=
  Forall2 (λ x out, pm_at log (pm_checkpoint (projT2 x)) out) pms outs.

#[export] Instance log_preorder : PreOrder (λ s s' : Store, log_of s `prefix_of` log_of s').
Proof. split; [intros s; reflexivity|intros s1 s2 s3 H1 H2; by etrans]. Qed.

Lemma pms_at_grow log log' pms outs :
  log_ok log' → log `prefix_of` log' → pms_at log pms outs → pms_at log' pms outs.
Proof. intros ?? H. eapply Forall2_impl; [exact H|]. intros. by eapply pm_at_grow. Qed.

Lemma pms_at_pad log pms outs :
  pms_at log pms outs → pms_at log pms (zip_with app outs (replicate (length pms) [])).
Proof. induction 1; simpl; constructor; [by rewrite app_nil_r|done]. Qed.

Lemma catch_up_all_at s pms outs s' pms' r :
  pms_at (log_of s) pms outs → catch_up_all s pms = (s', pms', r) →
  log_of s `prefix_of` log_of s' ∧ pm_file <$> pms' = pm_file <$> pms ∧
  pm_dead_letters <$> pms' = pm_dead_letters <$> pms ∧
  ∃ news, length news = length pms ∧ pms_at (log_of s') pms' (zip_with app outs news) ∧
    ∀ work, r = Ok work → work.*1 = news ∧ work.*2 = pm_dead_letters <$> pms.
Proof.
  revert s outs s' pms' r; induction pms as [|[q pm] pms IH]; intros s outs s' pms' r Hat; simpl.
  { intros [= <- <- <-]. apply Forall2_nil_inv_l in Hat as ->. split_and!; [done..|].
    exists []. split_and!; [done|constructor|]. by intros work [= <-]. }
  apply Forall2_cons_inv_l in Hat as (out & outs' & Hpm & Hpms & ->). simpl in Hpm.
  destruct (pm_catch_up s pm) as [[s1 pm1] pr] eqn:Hup.
  assert (pm_checkpoint_dir pm1 = pm_checkpoint_dir pm) as Hdir
    by (by eapply pm_catch_up_cases).
  assert (pm_dead_letters (existT q pm1) = pm_dead_letters (existT q pm) ∧
          pm_file (existT q pm1) = pm_file (existT q pm)) as [Hdl Hfile].
  { unfold pm_dead_letters, pm_file, dead_letter_path. simpl. by rewrite Hdir. }
  destruct (pm_catch_up_at _ _ _ _ _ _ Hpm Hup) as (new & H1 & _ & Hg1 & H2).
  destruct pr as [envelopes|e|].
  - destruct (catch_up_all s1 pms) as [[s2 pms2] r2] eqn:Hall. intros [= <- <- <-].
    apply (pms_at_grow _ _ _ _ (log_of_ok s1) Hg1) in Hpms.
    destruct (IH _ _ _ _ _ Hpms Hall) as (Hg2 & Hf2 & Hd2 & news & Hlen & H3 & H4).
    split; [by etrans|]. cbn [fmap list_fmap]. rewrite Hfile, Hdl. split; [by f_equal|].
    split; [by f_equal|]. exists (new :: news). simpl. split; [by f_equal|]. split.
    + constructor; [|done]. simpl. by eapply pm_at_grow; [apply log_of_ok| |].
    + intros work Hw. destruct r2 as [work2|e|]; simplify_eq/=.
      destruct (H4 _ eq_refl) as [<- <-]. by rewrite (H2 _ eq_refl), <- Hdl.
  - intros [= <- <- <-]. split; [done|]. cbn [fmap list_fmap]. rewrite Hfile, Hdl.
    split_and!; [done..|]. exists (new :: replicate (length pms) []). simpl.
    rewrite length_replicate. split; [done|]. split; [|done]. constructor; [done|].
    by apply pms_at_pad, (pms_at_grow _ _ _ _ (log_of_ok s1) Hg1).
  - intros [= <- <- <-]. split; [done|]. cbn [fmap list_fmap]. rewrite Hfile, Hdl.
    split_and!; [done..|]. exists (new :: replicate (length pms) []). simpl.
    rewrite length_replicate. split; [done|]. split; [|done]. constructor; [done|].
    by apply pms_at_pad, (pms_at_grow _ _ _ _ (log_of_ok s1) Hg1).
Qed.

(** The file of one process manager is not the temporary file of another. *)
Lemma pm_file_not_tmp d d' : join d "checkpoint.json" ≠ join d' "checkpoint.json.tmp".
Proof. intros H%join_file_inj; done. Qed.

Lemma pm_file_not_dead_letters d d' : join d "checkpoint.json" ≠ join d' "dead_letters.jsonl".
Proof. intros H%join_file_inj; done. Qed.

(** Whatever the calls on the event store preserve, a run preserves. *)
Lemma catch_up_all_rel (R : Store → Store → Prop) `{!PreOrder R} pms s s' pms' r :
  (∀ s p s' r, subscribe_all_from s p = (s', r) → R s s') →
  catch_up_all s pms = (s', pms', r) → R s s'.
Proof.
  intros Rs. revert s s' pms' r; induction pms as [|[q pm] pms IH]; intros s s' pms' r; simpl;
    [by intros [= <- _ _]|].
  destruct (pm_catch_up s pm) as [[s1 pm1] pr] eqn:Hpm.
  assert (R s s1) as H1.
  { apply pm_catch_up_cases in Hpm as [_ [(_ & _ & x & Hx)|(x & Hx & _)]]; by eapply Rs. }
  destruct pr; [|by intros [= <- _ _]..].
  destruct (catch_up_all s1 pms) as [[s2 pms2] r2] eqn:Hall. apply IH in Hall.
  intros [= <- _ _]. by etrans.
Qed.

Lemma run_process_managers_rel (R : Store → Store → Prop) `{!PreOrder R} (w w' : World) r :
  (∀ s sid e evs s' r, append s sid e evs = (s', r) → R s s') →
  (∀ s sid from max s' r, read_stream s sid from max = (s', r) → R s s') →
  (∀ s p s' r, subscribe_all_from s p = (s', r) → R s s') →
  run_process_managers w = (w', r) → R (client w) (client w').
Proof.
  intros Ra Rr Rs.
  unfold run_process_managers. destruct (catch_up_all _ _) as [[s pms] cr] eqn:Hc.
  apply (catch_up_all_rel R) in Hc; [|done]. destruct cr as [work|e|]; [|by intros [= <- _]..].
  destruct (dispatch_work _ work _) as [w2 dr] eqn:Hd.
  apply (dispatch_work_frame R) in Hd as (_ & Hg & _); [|done..].
  assert (R (client w) (client w2)) by (etrans; [exact Hc|exact Hg]).
  destruct dr; [|by intros [= <- _]..].
  destruct (save_pms _ _) as [f []]; by intros [= <- _].
Qed.

(** What is on disk for a saved process manager. *)
Definition pm_saved (f : F) (x : AnyPm) : Prop :=
  ∃ json, to_json_bytes (pm_checkpoint (projT2 x)) = Ok json ∧ content f (pm_file x) = Some json.

Lemma save_pms_ok f pms f' :
  NoDup (pm_file <$> pms) → save_pms f pms = (f', Ok ()) →
  (∀ x, x ∈ pms → pm_saved f' x) ∧
  ∀ d, join d "checkpoint.json" ∉ pm_file <$> pms →
       content f' (join d "checkpoint.json") = content f (join d "checkpoint.json").
Proof.
  revert f; induction pms as [|[q pm] pms IH]; intros f Hnd; simpl.
  { intros [= <-]. split; [set_solver|done]. }
  apply NoDup_cons in Hnd as [Hnot Hnd].
  destruct (pm_save f pm) as [f1 [[]|e|]] eqn:Hs; [|done..].
  apply pm_save_atomic in Hs as (_ & Hok & _ & Hframe).
  intros Hrest. apply (IH f1 Hnd) in Hrest as [H1 H2]. split.
  - intros x [->|Hx]%elem_of_cons; [|by apply H1].
    destruct (Hok eq_refl) as (json & Hj & Hc). exists json. split; [done|].
    unfold pm_file in *. simpl in *. by rewrite H2.
  - intros d Hd. apply not_elem_of_cons in Hd as [Hd1 Hd2]. rewrite (H2 d Hd2).
    apply Hframe; [apply pm_file_not_tmp|exact Hd1].
Qed.

(** A run of the process managers, phase by phase. *)
Lemma run_process_managers_phases (w w' : World) outs r :
  pms_at (log_of (client w)) (process_managers w) outs →
  run_process_managers w = (w', r) →
  ∃ news, length news = length (process_managers w) ∧
    pms_at (log_of (client w')) (process_managers w') (zip_with app outs news) ∧
    pm_file <$> process_managers w' = pm_file <$> process_managers w ∧
    ((∀ q, q ∉ pm_dead_letters <$> process_managers w → content (fs w') q = content (fs w) q) ∧
     (∀ report, r ≠ Ok report) ∨
     ∃ (w2 : World) report, (dispatched report + dead_lettered report)%nat = length (mjoin news) ∧
       process_managers w2 = process_managers w' ∧
       (∀ q, q ∉ pm_dead_letters <$> process_managers w → content (fs w2) q = content (fs w) q) ∧
       ∃ sr, save_pms (fs w2) (process_managers w') = (fs w', sr) ∧
             (∀ report', r = Ok report' → sr = Ok () ∧ report' = report)).
Proof.
  intros Hat. unfold run_process_managers.
  destruct (catch_up_all _ _) as [[s pms] cr] eqn:Hup.
  destruct (catch_up_all_at _ _ _ _ _ _ Hat Hup) as (_ & Hfile & _ & news & Hlen & Hat1 & Hwork).
  set (w1 := set_pms (set_client w s) pms).
  assert (∀ w2, frame w1 w2 → log_of (client w1) `prefix_of` log_of (client w2) →
    pms_at (log_of (client w2)) (process_managers w2) (zip_with app outs news) ∧
    pm_file <$> process_managers w2 = pm_file <$> process_managers w) as Hkeep.
  { intros w2 (Hp & _) Hg. rewrite Hp. split; [|done].
    by eapply pms_at_grow; [apply log_of_ok|exact Hg|]. }
  destruct cr as [work|e|];
    [|intros [= <- <-]; exists news; destruct (Hkeep w1) as [? ?]; [done..|];
      (split_and!; [done..|]); left; done..].
  destruct (Hwork work eq_refl) as [Hw1 Hw2].
  destruct (dispatch_work w1 work _) as [w2 dr] eqn:Hd.
  apply (dispatch_work_frame (λ s s', log_of s `prefix_of` log_of s')) in Hd
    as (Hf & Hg & Hc & Hn); [|intros; by eapply append_log_grows|intros; by eapply read_log_grows].
  destruct (Hkeep w2 Hf Hg) as [Hat2 Hfile2]. rewrite Hw2 in Hc.
  destruct dr as [report|e|];
    [|intros [= <- <-]; exists news; (split_and!; [done..|]); left; done..].
  assert (dispatched report + dead_lettered report = length (mjoin news))%nat as Hcount
    by (rewrite (Hn _ eq_refl), <- Hw1; done).
  destruct (save_pms _ _) as [f sr] eqn:Hs.
  destruct sr as [[]|e|]; intros [= <- <-]; exists news; (split_and!; [done..|]); right;
    exists w2, report; (split_and!; [done..|]); eexists; (split; [exact Hs|]);
    intros report' [= <-]; done.
Qed.



(** ** Injecting an event *)
Context {STL : EventStreamLogSpec to_proto_event Store}.

(** C39: [inject_event] is durable and unconditional: when it reports success,
    the event is in the addressed instance's stream, also after the process
    managers ran behind it; when the append fails it reports that and nothing
    but the client has changed, no process manager was run. *)
Lemma inject_event_durable (w w' : World) t id proposed opts r
    (Hinj : inject_event w t id proposed opts = (w', r)) :
  (r = Ok () → ∃ rec, recorded_as (to_proto_event proposed) rec ∧
     rec ∈ stream (client w') (instance_sid t id)) ∧
  (∀ s e, append (client w) (instance_sid t id) Any [proposed] = (s, Err e) →
     w' = set_client w s ∧ r = Err (io_other ("gRPC append failed: " ++ status_display e))).
Proof.
  unfold inject_event in Hinj. fold (instance_sid t id) in Hinj.
  destruct (append _ _ _ _) as [s ar] eqn:Happ.
  split; [|by intros s' e [= -> ->]; simplify_eq].
  intros ->. destruct ar as [resp|e|]; simplify_eq/=.
  apply (append_ok to_proto_event) in Happ as (mid & recs & _ & _ & Hrec & Hs & _); [|done].
  apply Forall2_cons_inv_l in Hrec as (rec & recs' & Hrec & _ & ->).
  exists rec. split; [done|]. assert (rec ∈ mid ++ rec :: recs') as Hin by set_solver.
  assert (rec ∈ stream s (instance_sid t id)) as Hin1 by (by eapply elem_of_prefix).
  destruct (opt_run_process_managers opts); [|by simplify_eq].
  destruct (run_process_managers _) as [w2 rr] eqn:Hrun.
  apply (run_process_managers_rel
           (λ s s', stream s (instance_sid t id) `prefix_of` stream s' (instance_sid t id)))
    in Hrun; [|intros; by eapply append_grows|intros; by eapply read_grows
              |intros; by eapply subscribe_stream_grows].
  assert (w' = w2) as -> by (destruct rr; by simplify_eq). by eapply elem_of_prefix.
Qed.

(** ** The read side *)
Context {SPL : ∀ p, SerdeLaws (ProjectionCheckpoint (Proj p))}.

Abbreviation AnyProjection := (sigT (λ p : ProjId, ProjectionRunner (Proj p))).

(** Every registered projection has a right checkpoint for the log. *)
Definition any_projection_ok (log : list RecordedEvent) (x : AnyProjection) : Prop :=
  checkpoint_ok log (pr_checkpoint (projT2 x)).
Definition projections_ok (w : World) : Prop :=
  ∀ name x, projections w !! name = Some x → any_projection_ok (log_of (client w)) x.

Lemma projection_ok (w w' : World) p res :
  projections_ok w → projection w p = (w', res) →
  projections_ok w' ∧
  (∀ state, res = Ok state → ∃ x x' : AnyProjection, projections w !! PROJ_NAME (Proj p) = Some x ∧
     projections w' !! PROJ_NAME (Proj p) = Some x' ∧
     state = project (events_below (runner_position (projT2 x')) (log_of (client w'))) ∧
     ∀ s items evs, subscribe_all_from (client w) (runner_position (projT2 x)) = (s, Ok items) →
       until_caught_up items = Some evs →
       log_of (client w) `prefix_of`
         events_below (runner_position (projT2 x')) (log_of (client w'))).
Proof.
  intros Hw. unfold projection.
  destruct (projections w !! _) as [[p' r]|] eqn:Hp; [|by intros [= <- <-]].
  destruct (catch_up _ _ r) as [[[s f] r'] cr] eqn:Hup.
  destruct (catch_up_checkpoint_ok _ _ _ _ _ _ _ (Hw _ _ Hp) Hup) as (Hr & Hg & _).
  set (w1 := set_projections _ _).
  assert (projections_ok w1) as Hw1.
  { intros name x. simpl. intros [[_ <-]|[_ Hx]]%lookup_insert_Some; [exact Hr|].
    eapply checkpoint_ok_grow; [apply log_of_ok|exact Hg|by eapply Hw]. }
  destruct cr as [[]|e|]; [|by intros [= <- <-]..].
  destruct (downcast _ p) as [state|] eqn:Hd; [|by intros [= <- <-]].
  intros [= <- <-]. split; [done|]. intros state' [= <-].
  exists (existT p' r), (existT p' r'). split; [done|]. split; [simpl; apply lookup_insert_eq|].
  split.
  - apply downcast_Some in Hd.
    refine (eq_ind _ (λ z : sigT Proj, projT2 z = project (PR := PJ (projT1 z)) _) _ _ Hd).
    apply Hr.
  - simpl. intros s' items evs Hs Hcu.
    assert (s' = s) as ->.
    { unfold catch_up in Hup. rewrite Hs in Hup.
      destruct (process_stream _ items) as [c [[]|x|]]; [destruct (runner_save _ _)|..];
        by simplify_eq. }
    by destruct (catch_up_seen _ _ _ _ _ _ _ _ (Hw _ _ Hp) Hs Hcu Hup) as (_ & ? & _).
Qed.

(** What [projection] returns.  If every registered projection stands at a
    right checkpoint, they all still do after the call, whatever its outcome;
    an answer is the projection of an initial part of the log, and of one that
    contains every event that was in the log at the time of the call, when the
    subscription came to its [CaughtUp] marker; an unregistered projection is
    reported as such and nothing is done. *)
Lemma projection_reads (w w' : World) p res
    (Hok : projections_ok w) (Hread : projection w p = (w', res)) :
  projections_ok w' ∧
  (∀ state, res = Ok state → ∃ (x : AnyProjection) seen, projections w !! PROJ_NAME (Proj p) = Some x ∧
     seen `prefix_of` log_of (client w') ∧ state = project seen ∧
     ∀ s items evs, subscribe_all_from (client w) (runner_position (projT2 x)) = (s, Ok items) →
       until_caught_up items = Some evs → log_of (client w) `prefix_of` seen) ∧
  (projections w !! PROJ_NAME (Proj p) = None → w' = w ∧ res = Err (not_registered p)).
Proof.
  split_and!.
  - by apply projection_ok in Hread as [? _].
  - intros state ->. apply projection_ok in Hread as [_ H]; [|done].
    destruct (H _ eq_refl) as (x & x' & H1 & _ & H2 & H3). exists x. eexists.
    split_and!; [done| |exact H2|exact H3]. apply events_below_prefix, log_of_ok.
  - intros Hnone. unfold projection in Hread. rewrite Hnone in Hread. by simplify_eq.
Qed.

(** Live mode starts once.  The first [start_live] registers a handle that
    is neither shut down nor caught up; from then on every further call fails
    with [AlreadyExists] and changes nothing, and [live_projection] answers
    from memory: it touches neither the event store nor the disk, and returns
    the registered projection's current state.  Before, it catches up. *)
Lemma start_live_once (w w1 : World) r p
    (Hstart : start_live w = (w1, r)) (Hnot : live_handle w = None) :
  r = Ok (mk_LiveHandle false false 0 0) ∧
  live_handle w1 = Some (mk_LiveHandle false false 0 0) ∧
  start_live w1 = (w1, Err (mk_io_error AlreadyExists "live subscription already started")) ∧
  live_projection w p = projection w p ∧
  (live_projection w1 p).1 = w1 ∧
  (∀ x : ProjectionRunner (Proj p),
     projections w !! PROJ_NAME (Proj p) = Some (existT p x : AnyProjection) →
     (live_projection w1 p).2 = Ok (runner_state x)).
Proof.
  unfold start_live in Hstart. rewrite Hnot in Hstart. simplify_eq. split_and!; [done..| | |].
  - unfold live_projection. by rewrite Hnot.
  - unfold live_projection. simpl. destruct (projections w !! _) as [[q x]|]; [|done].
    by destruct (downcast _ p).
  - intros x Hx. unfold live_projection. simpl. rewrite Hx. by rewrite downcast_self.
Qed.
End store_facts.

(** ** Witnesses *)

(** A fresh demonstration store over some client: one projection, one saga, and
    dispatch routes for both aggregate types. *)
Definition demo_world (c : DemoClient) : DemoStore := demo_store c empty_fs [TCounter; TTarget].

Lemma demo_world_ok c : store_ok (demo_world c).
Proof.
  split.
  - intros t id x H. change (cache (demo_world c)) with
      (∅ : gmap (DemoAgg * string) (sigT (AggregateHandle (TypeId := DemoAgg)))) in H.
    by rewrite lookup_empty in H.
  - intros t id h t' id' h' H. change (cache (demo_world c)) with
      (∅ : gmap (DemoAgg * string) (sigT (AggregateHandle (TypeId := DemoAgg)))) in H.
    by rewrite lookup_empty in H.
  - intros t id _ b snap H. change (fs (demo_world c)) with empty_fs in H.
    change (content empty_fs) with (λ p : string, (∅ : gmap string bytes) !! p) in H.
    simpl in H. by rewrite lookup_empty in H.
Qed.

Lemma demo_world_pms c log : pms_at log (process_managers (demo_world c)) [[]].
Proof.
  change (process_managers (demo_world c)) with
    [existT () (mk_ProcessManagerRunner (PM := DemoPm ())
      (mk_ProcessManagerCheckpoint (mk_EchoSaga 0) 0) "/data/process_managers/echo-saga")
     : sigT (λ q, ProcessManagerRunner (DemoPm q))].
  constructor; [|constructor]. apply (pm_at_start (PMC := echo_saga ())).
Qed.

Definition demo_envelope : CommandEnvelope :=
  mk_CommandEnvelope "target" "t1" (json_obj [("source_event_type", json_str "Incremented")])
    CommandContext_default.

Lemma dispatch_correct_witness :
  match dispatch (demo_world (two_events [])) TTarget demo_envelope with
  | (w', Ok _) => store_ok w' ∧
      ∃ l recs es, reads_back (AG := demo_aggregates TTarget) es recs ∧
        (l ++ recs) `prefix_of` stream_of to_proto_event (client w') (instance_sid TTarget "t1")
  | _ => False
  end.
Proof.
  assert (is_ok (dispatch (demo_world (two_events [])) TTarget demo_envelope).2 = true) as Hok
    by (vm_compute; reflexivity).
  destruct (dispatch _ TTarget demo_envelope) as [w' [[]|e|]] eqn:H; [|discriminate..].
  destruct (dispatch_correct (demo_world (two_events [])) w' TTarget demo_envelope (Ok ())
              (demo_world_ok _) H) as [Hw Hd].
  split; [exact Hw|]. destruct (Hd (or_intror eq_refl) eq_refl) as (cmd & l & recs & es & _ & _ & ? & ?).
  by exists l, recs, es.
Defined.

Lemma demo_world_files c : NoDup (pm_file <$> process_managers (demo_world c)).
Proof. change (NoDup ["/data/process_managers/echo-saga/checkpoint.json"]). apply NoDup_singleton. Qed.



Lemma demo_world_projections_ok c : projections_ok (demo_world c).
Proof.
  intros name x H.
  change (projections (demo_world c)) with
    ({[ "event-counter" := existT () (mk_ProjectionRunner (P := DemoProj ())
        (mk_ProjectionCheckpoint (mk_EventCounter 0) 0) "/data/projections/event-counter")
        : sigT (λ p, ProjectionRunner (DemoProj p)) ]}
     : gmap string (sigT (λ p, ProjectionRunner (DemoProj p)))) in H.
  apply lookup_singleton_Some in H as [_ <-].
  apply (checkpoint_ok_start (PR := event_counter ())).
Qed.

(** ** A later process manager's failure *)

(** The envelopes of an earlier process manager are lost when a later one
    fails to catch up.  Two sagas react to two events.  In a run in which the
    second saga's subscription is refused, the first has already consumed both
    events, its two envelopes are dropped with the error, and the next run,
    which succeeds, dispatches only the second saga's two; over an undisturbed
    event store one run dispatches all four. *)
Lemma later_error_loses_earlier_envelopes :
  let two_sagas i := set_pms (demo_world (two_events i))
    (process_managers (demo_world (two_events i)) ++ process_managers (demo_world (two_events i))) in
  is_ok (run_process_managers (two_sagas [Quiet; Unavailable])).2 = false ∧
  (run_process_managers (run_process_managers (two_sagas [Quiet; Unavailable])).1).2
    = Ok (mk_ProcessManagerReport 2 0) ∧
  (run_process_managers (two_sagas [])).2 = Ok (mk_ProcessManagerReport 4 0).
Proof. vm_compute. repeat split; reflexivity. Qed.
