(* ===== verification/CodecFacts.v ===== *)
(** Theorems about what is on disk as JSON ([Codec]): the layout of snapshots and
    checkpoints, and the dead-letter logs, read line by line. *)
From Stdlib Require Import Strings.Byte Strings.Ascii Strings.String.
From S2P Require Import Prelude Std Deps Command Errors Aggregate Proto Event EventStore.
From S2P Require Import Client Snapshot Actor Cursor Projection ProcessManager Codec LiveTypes.
From S2P Require Import Store Builder Demo DemoApp EventFacts ClientFacts DiskFacts ActorFacts.
From S2P Require Import ProjectionFacts ProcessManagerFacts StoreFacts.
Open Scope N_scope.

(** ** Lines *)

#[local] Instance byte_eq_dec : EqDecision byte := Byte.byte_eq_dec.

(** The lines of a text, as [str::lines] gives them for text without carriage
    returns: a last line feed ends a line and starts none. *)
Fixpoint lines (b : bytes) : list bytes :=
  match b with
  | [] => []
  | c :: b =>
      if decide (c = Byte.x0a) then [] :: lines b
      else match lines b with
           | [] => [[c]]
           | l :: ls => (c :: l) :: ls
           end
  end.

(** Nothing, or text that ends its last line. *)
Definition whole_lines (b : bytes) : Prop := b = [] ∨ last b = Some Byte.x0a.

Lemma lines_one l : Byte.x0a ∉ l → lines (l ++ [Byte.x0a]) = [l].
Proof.
  induction l as [|c l IH]; [done|]. intros Hl. simpl.
  rewrite decide_False by set_solver. by rewrite IH by set_solver.
Qed.

Lemma lines_app b l :
  whole_lines b → Byte.x0a ∉ l → lines (b ++ l ++ [Byte.x0a]) = lines b ++ [l].
Proof.
  intros Hw Hl. destruct Hw as [->|Hw]; [by apply lines_one|].
  assert (∃ b', b = b' ++ [Byte.x0a]) as [b' ->] by by apply last_Some.
  clear Hw. induction b' as [|c b' IH]; simpl.
  - f_equal. by apply lines_one.
  - rewrite IH. case_decide; [done|]. destruct (lines (b' ++ [Byte.x0a])) eqn:Hb; [|done].
    exfalso. revert Hb. clear. destruct b' as [|c b']; [done|]. simpl.
    case_decide; [done|]. by destruct (lines _).
Qed.

Lemma whole_lines_app b l : whole_lines (b ++ l ++ [Byte.x0a]).
Proof. right. by rewrite app_assoc, last_snoc. Qed.

Lemma mapM_snoc {A B} (f : A → option B) l x :
  mapM f (l ++ [x]) = ys ← mapM f l; y ← f x; Some (ys ++ [y]).
Proof.
  induction l as [|z l IH]; simpl.
  - by destruct (f x).
  - rewrite IH. destruct (f z); [|done]. simpl. destruct (mapM f l); [|done]. simpl.
    by destruct (f x).
Qed.

(** ** Dead letters *)
Section dead_letters.
Context {J : SerdeJson} {JL : SerdeJsonLaws}.

(** The entries of a log, one to a line. *)
Definition read_log (b : bytes) : option (list DeadLetterEntry) :=
  mapM (λ l, result_ok (from_json_bytes (T := DeadLetterEntry) l)) (lines b).

Definition read_back_entry (e : DeadLetterEntry) : DeadLetterEntry :=
  mk_DeadLetterEntry (read_back_envelope (dl_envelope e)) (dl_error e) (dl_ts e).

Lemma DeadLetterEntry_get e k :
  value_get (DeadLetterEntry_to_value e) k =
  if decide (k = "envelope") then Some (CommandEnvelope_to_value (dl_envelope e))
  else if decide (k = "error") then Some (json_str (dl_error e))
  else if decide (k = "ts") then Some (json_num (dl_ts e)) else None.
Proof.
  unfold DeadLetterEntry_to_value. rewrite value_get_json_obj.
  - simpl. rewrite ?lookup_insert, ?lookup_empty. repeat (case_decide; simplify_eq; try done).
  - simpl. repeat constructor; set_solver.
Qed.

(** An entry is written on one line, and reads back. *)
Lemma DeadLetterEntry_line e b :
  to_json_bytes e = Ok b →
  (Byte.x0a ∉ b) ∧ from_json_bytes (T := DeadLetterEntry) b = Ok (read_back_entry e).
Proof.
  simpl. unfold to_text. simpl. intros Hb. split; [by eapply to_vec_one_line|].
  rewrite (from_text_print _ to_vec_from_str _ _ Hb). simpl.
  unfold from_option, DeadLetterEntry_from_value, de_field.
  destruct (as_object _) eqn:Ho; [|by apply as_object_is_Some in Ho].
  simpl. rewrite !DeadLetterEntry_get. simpl.
  by rewrite CommandEnvelope_read_back, as_str_json_str, as_u64_json_num.
Qed.

Lemma DeadLetterEntry_writes e :
  ∃ b, to_json_bytes e = Ok b.
Proof.
  simpl. unfold to_text. simpl.
  destruct (to_vec_from_str (DeadLetterEntry_to_value e)) as (b & s & Hb & _). by exists b.
Qed.

(** A log that has grown by some entries. *)
Definition log_grows (b b' : bytes) (dead : list DeadLetterEntry) : Prop :=
  whole_lines b →
  whole_lines b' ∧ read_log b' = (λ old, old ++ (read_back_entry <$> dead)) <$> (read_log b).

Lemma log_grows_nil b : log_grows b b [].
Proof. split; [done|]. destruct (read_log b); simpl; [by rewrite app_nil_r|done]. Qed.

Lemma log_grows_one b e json :
  to_json_bytes e = Ok json → log_grows b (b ++ json ++ [Byte.x0a]) [e].
Proof.
  intros [Hl Hr]%DeadLetterEntry_line Hb. split; [apply whole_lines_app|].
  unfold read_log. rewrite lines_app by done. rewrite mapM_snoc. simpl in *. rewrite Hr. simpl.
  by destruct (mapM _ _).
Qed.

Lemma log_grows_trans b1 b2 b3 l1 l2 :
  log_grows b1 b2 l1 → log_grows b2 b3 l2 → log_grows b1 b3 (l1 ++ l2).
Proof.
  intros H1 H2 [Hw2 Hr2]%H1. destruct (H2 Hw2) as [Hw3 Hr3]. split; [done|].
  rewrite Hr3, Hr2. destruct (read_log b1); simpl; [|done].
  by rewrite fmap_app, app_assoc.
Qed.
End dead_letters.

(** ** The logs of a run of the process managers *)
Section run.
Context {J : SerdeJson} {JL : SerdeJsonLaws} {U : UuidOps} {T : Tonic}.
Context {Store : Type} {ES : EventStoreOps Store} {EL : EventLogOps Store}.
Context {LS : EventLogSpec Store} {SS : EventStoreSpec to_proto_event Store}.
Context {SLS : EventStoreLogSpec Store}.
Context {F : Type} {FS : FileSystem F} {FL : FileSystemLaws F}.
Context {TypeId : Type} `{!EqDecision TypeId, !Countable TypeId}.
Context {Agg : TypeId → Type} {AG : ∀ t, Aggregate (Agg t)}.
Context {CD : ∀ t, CommandDe (Agg t)} {SA : ∀ t, Serde (Snapshot (Agg t))}.
Context {ProjId : Type} `{!EqDecision ProjId}.
Context {Proj : ProjId → Type} {PJ : ∀ p, Projection (Proj p)}.
Context {SP : ∀ p, Serde (ProjectionCheckpoint (Proj p))}.
Context {PmId : Type} {Pm : PmId → Type} {PMC : ∀ q, ProcessManager (Pm q)}.
Context {SM : ∀ q, Serde (ProcessManagerCheckpoint (Pm q))}.
Context {SML : ∀ q, SerdeLaws (ProcessManagerCheckpoint (Pm q))}.

Abbreviation World := (AggregateStore (Store := Store) (F := F) (TypeId := TypeId)
  (Agg := Agg) (ProjId := ProjId) (Proj := Proj) (PmId := PmId) (Pm := Pm)).

(** What a log holds: a missing file is an empty log. *)
Definition log_at (w : World) (p : path) : bytes := default [] (content (fs w) p).

(** The entries that went to one log. *)
Definition entries_at (p : path) (dead : list (path * DeadLetterEntry)) : list DeadLetterEntry :=
  (filter (λ x, x.1 = p) dead).*2.

Lemma entries_at_app p l1 l2 : entries_at p (l1 ++ l2) = entries_at p l1 ++ entries_at p l2.
Proof. unfold entries_at. by rewrite filter_app, fmap_app. Qed.

(** Same configuration. *)
Definition configured_like (w w1 : World) : Prop :=
  dispatchers w1 = dispatchers w ∧ store_base_dir w1 = store_base_dir w ∧ clock w1 = clock w.

Lemma configured_like_frame (w w1 : World) : frame w w1 → configured_like w w1.
Proof. intros (_ & _ & ? & ? & _ & ?). done. Qed.

(** An entry of a store like [w]: the routing of its envelope failed with its
    error, and it carries the time of the clock. *)
Definition rejected_by (w : World) (d : DeadLetterEntry) : Prop :=
  clock w = Some (dl_ts d) ∧
  ∃ w1, configured_like w w1 ∧ (route w1 (dl_envelope d)).2 = Ok (Some (dl_error d)).

Lemma rejected_by_like (w w' : World) d :
  configured_like w w' → rejected_by w' d → rejected_by w d.
Proof.
  intros (H1 & H2 & H3) (Hc & w1 & (H4 & H5 & H6) & Hr). split; [by rewrite <- H3|].
  exists w1. split; [|done]. split_and!; congruence.
Qed.

(** The envelopes under the log of the process manager that emitted them. *)
Definition addressed (work : list (list CommandEnvelope * path)) : list (path * CommandEnvelope) :=
  work ≫= λ x, pair x.2 <$> x.1.

(** What a stretch of dispatching put into the logs. *)
Record dispatch_logs (w w' : World) (sent : list (path * CommandEnvelope))
    (n : nat) (dead : list (path * DeadLetterEntry)) : Prop := {
  dg_frame : frame w w';
  dg_count : n = length dead;
  dg_sent : (prod_map id dl_envelope <$> dead) `sublist_of` sent;
  dg_rejected : Forall (λ x, rejected_by w x.2) dead;
  dg_logs p : log_grows (log_at w p) (log_at w' p) (entries_at p dead);
}.

Lemma dispatch_logs_nil (w w' : World) sent :
  frame w w' → fs w' = fs w → dispatch_logs w w' sent 0 [].
Proof.
  intros Hf Hfs. split; [done|done|apply sublist_nil_l|constructor|].
  intros p. unfold log_at. rewrite Hfs. apply log_grows_nil.
Qed.

Lemma dispatch_logs_app (w1 w2 w3 : World) s1 s2 n1 n2 d1 d2 :
  dispatch_logs w1 w2 s1 n1 d1 → dispatch_logs w2 w3 s2 n2 d2 →
  dispatch_logs w1 w3 (s1 ++ s2) (n1 + n2) (d1 ++ d2).
Proof.
  intros [F1 C1 S1 R1 L1] [F2 C2 S2 R2 L2]. split.
  - by etrans.
  - rewrite length_app. lia.
  - rewrite fmap_app. by apply sublist_app.
  - apply Forall_app. split; [done|]. eapply Forall_impl; [exact R2|].
    intros x. by apply rejected_by_like, configured_like_frame.
  - intros p. rewrite entries_at_app. by eapply log_grows_trans.
Qed.

(** Routing leaves the disk alone. *)
Lemma route_keeps (w w' : World) e r : route w e = (w', r) → frame w w' ∧ fs w' = fs w.
Proof.
  assert (PreOrder (λ _ _ : Store, True)) by done.
  intros Hr. apply (route_frame (λ _ _, True)) in Hr; [naive_solver|done..].
Qed.

(** One dead letter. *)
Lemma dead_letter_logs (w w1 w2 : World) p e error :
  route w e = (w1, Ok (Some error)) → dead_letter w1 p e error = (w2, Ok ()) →
  ∃ ts, dispatch_logs w w2 [(p, e)] 1 [(p, mk_DeadLetterEntry e error ts)].
Proof.
  intros Hr Hd. destruct (route_keeps _ _ _ _ Hr) as [Hf Hfs].
  unfold dead_letter in Hd. destruct (append_dead_letter _ _ _ _ _) as [f dr] eqn:Ha. simplify_eq.
  destruct (clock w1) as [ts|] eqn:Hc; [|done]. exists ts.
  apply dead_letter_appended in Ha as (Hother & Hok & _).
  destruct (Hok eq_refl) as (json & Hj & Hp). split; simpl.
  - exact Hf.
  - done.
  - done.
  - constructor; [|done]. split; simpl; [by rewrite <- Hc; symmetry; apply Hf|].
    exists w. split; [done|]. by rewrite Hr.
  - intros q. unfold log_at, entries_at. simpl. rewrite <- Hfs. destruct (decide (p = q)) as [<-|Hq].
    + rewrite filter_cons_True by done. rewrite Hp. by apply log_grows_one.
    + rewrite filter_cons_False by done. rewrite Hother by done. apply log_grows_nil.
Qed.

Lemma dispatch_envelopes_logs (w w' : World) p envelopes report report' :
  dispatch_envelopes w p envelopes report = (w', Ok report') →
  ∃ n dead, dispatch_logs w w' (pair p <$> envelopes) n dead ∧
    dead_lettered report' = (dead_lettered report + n)%nat.
Proof.
  revert w report; induction envelopes as [|e envelopes IH]; intros w report; simpl.
  { intros [= <- <-]. exists 0%nat, []. split; [by apply dispatch_logs_nil|lia]. }
  destruct (route w e) as [w1 rr] eqn:Hr. destruct rr as [[error|]|x|]; [| |done..].
  - destruct (dead_letter w1 p e error) as [w2 [[]|x|]] eqn:Hd; [|done..].
    destruct (dead_letter_logs _ _ _ _ _ _ Hr Hd) as (ts & H1).
    intros (n & dead & H2 & Hn)%IH. eexists _, _.
    split; [exact (dispatch_logs_app _ _ _ _ _ _ _ _ _ H1 H2)|]. simpl in Hn. lia.
  - destruct (route_keeps _ _ _ _ Hr) as [Hf Hfs].
    intros (n & dead & H2 & Hn)%IH. eexists _, _.
    split; [exact (dispatch_logs_app _ _ _ _ _ _ _ _ _ (dispatch_logs_nil _ _ [(p, e)] Hf Hfs) H2)|].
    done.
Qed.

Lemma dispatch_work_logs (w w' : World) work report report' :
  dispatch_work w work report = (w', Ok report') →
  ∃ n dead, dispatch_logs w w' (addressed work) n dead ∧
    dead_lettered report' = (dead_lettered report + n)%nat.
Proof.
  revert w report; induction work as [|[envelopes p] work IH]; intros w report; simpl.
  { intros [= <- <-]. exists 0%nat, []. split; [by apply dispatch_logs_nil|lia]. }
  destruct (dispatch_envelopes w p envelopes report) as [w1 [report1|x|]] eqn:Hd; [|done..].
  apply dispatch_envelopes_logs in Hd as (n1 & d1 & H1 & Hn1).
  intros (n2 & d2 & H2 & Hn2)%IH. eexists _, _.
  split; [exact (dispatch_logs_app _ _ _ _ _ _ _ _ _ H1 H2)|]. lia.
Qed.

(** Saving checkpoints leaves the logs alone. *)
Lemma save_pms_logs (f f' : F) (pms : list (sigT (λ q : PmId, ProcessManagerRunner (Pm q)))) d r :
  save_pms f pms = (f', r) →
  content f' (join d "dead_letters.jsonl") = content f (join d "dead_letters.jsonl").
Proof.
  revert f; induction pms as [|[q pm] pms IH]; intros f; simpl; [by intros [= <- _]|].
  destruct (pm_save f pm) as [f1 sr] eqn:Hs.
  apply pm_save_atomic in Hs as (_ & _ & _ & Hframe).
  assert (content f1 (join d "dead_letters.jsonl") = content f (join d "dead_letters.jsonl")) as <-.
  { apply Hframe; by intros H%join_file_inj. }
  destruct sr as [[]|e|]; [apply IH|by intros [= <- _]..].
Qed.

(** C12: the dead-letter logs record what a run could not deliver.  When a run of the
    process managers succeeds, having emitted [news], there are entries, as many
    as the report counts, for some of those envelopes in order, each with the
    error its routing gave and the time of the clock; and every log, if it was
    whole lines of JSON, is so still and reads back as before with its own
    entries behind. *)
Theorem dead_letters_logged (w w' : World) outs report
    (Hat : pms_at (log_of (client w)) (process_managers w) outs)
    (Hrun : run_process_managers w = (w', Ok report)) :
  ∃ news dead,
    pms_at (log_of (client w')) (process_managers w') (zip_with app outs news) ∧
    length news = length (process_managers w) ∧
    dead_lettered report = length dead ∧
    (dispatched report + dead_lettered report)%nat = length (mjoin news) ∧
    (prod_map id dl_envelope <$> dead) `sublist_of`
      addressed (zip news (pm_dead_letters <$> process_managers w)) ∧
    Forall (λ x, rejected_by w x.2) dead ∧
    ∀ x, x ∈ process_managers w →
      log_grows (log_at w (pm_dead_letters x)) (log_at w' (pm_dead_letters x))
        (entries_at (pm_dead_letters x) dead).
Proof.
  unfold run_process_managers in Hrun.
  destruct (catch_up_all _ _) as [[s pms] cr] eqn:Hup.
  destruct (catch_up_all_at _ _ _ _ _ _ Hat Hup) as (_ & _ & Hdl & news & Hlen & Hat1 & Hwork).
  destruct cr as [work|e|]; [|done..]. destruct (Hwork work eq_refl) as [Hw1 Hw2].
  set (w1 := set_pms (set_client w s) pms) in *.
  destruct (dispatch_work w1 work _) as [w2 [report2|e|]] eqn:Hd; [|done..].
  pose proof Hd as (n & dead & Hlogs & Hn)%dispatch_work_logs.
  apply (dispatch_work_frame (λ s s', log_of s `prefix_of` log_of s')) in Hd
    as (Hf & Hg & _ & Hcount); [|intros; by eapply append_log_grows|intros; by eapply read_log_grows].
  destruct (save_pms _ _) as [f [[]|e|]] eqn:Hs; [|done..]. injection Hrun as <- <-.
  destruct Hlogs as [_ -> Hsent Hrej Hlog]. simpl in Hn.
  exists news, dead. split_and!; [|done|done| | | |].
  - simpl. destruct Hf as (-> & _). by eapply pms_at_grow; [apply log_of_ok|exact Hg|].
  - rewrite (Hcount _ eq_refl), <- Hw1. done.
  - by rewrite <- Hw1, <- Hw2, zip_fst_snd.
  - eapply Forall_impl; [exact Hrej|]. intros x. by apply rejected_by_like.
  - intros x _. specialize (Hlog (pm_dead_letters x)). unfold log_at in *. simpl.
    unfold pm_dead_letters, dead_letter_path in *. by rewrite (save_pms_logs _ _ _ _ _ Hs).
Qed.
End run.

(** ** The layout of the other files *)
Section layout.
Context {J : SerdeJson} {JL : SerdeJsonLaws} {U : UuidOps} {T : Tonic}.
Context {F : Type} {FS : FileSystem F} {FL : FileSystemLaws F}.

(** The text of a file is an object with a state and a number, and no other key. *)
Definition holds_object {X} {V : ValueSerde X} (f : F) (p : path) (key : string) (x : X) (n : N)
    : Prop :=
  ∃ b text v state, content f p = Some b ∧ from_utf8 b = Some text ∧ from_str text = Ok v ∧
    to_value x = Ok state ∧ value_get v "state" = Some state ∧
    (value_get v key ≫= as_u64) = Some n ∧
    ∀ k, k ≠ "state" → k ≠ key → value_get v k = None.

(** The text that can be read from a file is an object with at least these keys. *)
Definition gives_object {X} {V : ValueSerde X} (f : F) (p : path) (key : string) (x : X) (n : N)
    : Prop :=
  ∃ b text v state, fs_read f p = Ok b ∧ from_utf8 b = Some text ∧ from_str text = Ok v ∧
    value_get v "state" = Some state ∧ from_value state = Ok x ∧
    (value_get v key ≫= as_u64) = Some n.

(** Text of an object with a state and a number reads back as these. *)
Lemma from_text_object {X Y} {V : ValueSerde X} {W : ValueSerde Y} key (mk : X → N → Y)
    b text v state (x : X) n :
  (∀ v, from_value v = result_map (λ x, mk x.1 x.2) (state_and_number_from_value key v)) →
  from_utf8 b = Some text → from_str text = Ok v →
  value_get v "state" = Some state → from_value state = Ok x →
  (value_get v key ≫= as_u64) = Some n →
  from_text b = Ok (mk x n).
Proof.
  intros HW Hb Ht Hs Hx Hn. unfold from_text. rewrite Hb, Ht, HW.
  unfold state_and_number_from_value, from_field, from_option. rewrite Hs, Hx.
  destruct (value_get v key); [|done]. simpl in Hn. by rewrite Hn.
Qed.

(** What serialises to an object is an object in the file. *)
Lemma saved_object {X Y} {V : ValueSerde X} (W : ValueSerde Y) key (y : Y) (x : X) n f p b :
  key ≠ "state" → to_value y = state_and_number_to_value key x n →
  to_json_bytes (Serde := pretty_serde) y = Ok b → content f p = Some b →
  holds_object f p key x n.
Proof.
  intros Hk Hy Hb Hc. simpl in Hb. unfold to_text in Hb. rewrite Hy in Hb.
  unfold state_and_number_to_value in Hb. destruct (to_value x) as [state| |] eqn:Hx; [|done..].
  destruct (to_vec_pretty_from_str (json_obj [("state", state); (key, json_num n)]))
    as (b' & text & Hb' & Hu & _ & Ht).
  rewrite Hb in Hb'. injection Hb' as <-.
  exists b, text, (json_obj [("state", state); (key, json_num n)]), state.
  assert (∀ k, value_get (json_obj [("state", state); (key, json_num n)]) k =
    if decide (k = "state") then Some state
    else if decide (k = key) then Some (json_num n) else None) as Hget.
  { intros k. rewrite value_get_json_obj by (repeat constructor; set_solver). simpl.
    rewrite ?lookup_insert, ?lookup_empty. repeat (case_decide; simplify_eq; try done). }
  split_and!; [done..| | |].
  - rewrite Hget. by rewrite decide_True.
  - rewrite Hget, decide_False, decide_True by done. simpl. apply as_u64_json_num.
  - intros k H1 H2. by rewrite Hget, !decide_False.
Qed.

Context {A : Type} {AG : Aggregate A} {VA : ValueSerde A} {VAL : ValueSerdeLaws A}.
Context {P : Type} {PJ : Projection P} {VP : ValueSerde P} {VPL : ValueSerdeLaws P}.
Context {PM : Type} {PMC : ProcessManager PM} {VM : ValueSerde PM} {VML : ValueSerdeLaws PM}.

Abbreviation checkpoint_file dir := (join dir "checkpoint.json").

(** A save of [x] and [n] to the file [p]: what it leaves, and what loading gives. *)
Definition survives {X Y} {V : ValueSerde X} (f f' : F) (p : path) (key : string) (x : X) (n : N)
    (res : io_result unit) (loaded : io_result Y) (saved : Y) : Prop :=
  (res = Ok () → holds_object f' p key x n ∧
     (loaded = Ok saved ∨ ∃ e, loaded = Err e ∧ kind e ≠ NotFound)) ∧
  (res ≠ Ok () → content f' p = content f p).

(** C28: the three kinds of state file have the layout that other programs rely
    on, and survive a restart.  A successful save leaves a JSON object whose keys
    are exactly [state], the application's value, and [stream_version] or
    [last_global_position], and loading gives back what was saved, unless the
    file cannot be read; a failed save leaves the old file.  And whatever wrote
    it, however it is laid out and with whatever other keys (none of them twice),
    a file that is such an object is taken for that state and number. *)
Theorem persisted_layout f f' base id (snap : Snapshot A)
    (r : ProjectionRunner P) (m : ProcessManagerRunner PM) res :
  (save_snapshot f base id snap = (f', res) →
     survives f f' (snapshot_path base (AGGREGATE_TYPE A) id) "stream_version"
       (snap_state snap) (snap_version snap) res (load_snapshot f' base id) (Some snap)) ∧
  (runner_save f r = (f', res) →
     survives f f' (checkpoint_file (pr_checkpoint_dir r)) "last_global_position"
       (pc_state (pr_checkpoint r)) (pc_position (pr_checkpoint r)) res
       (runner_new f' (pr_checkpoint_dir r)) r) ∧
  (pm_save f m = (f', res) →
     survives f f' (checkpoint_file (pm_checkpoint_dir m)) "last_global_position"
       (pmc_state (pm_checkpoint m)) (pmc_position (pm_checkpoint m)) res
       (pm_runner_new f' (pm_checkpoint_dir m)) m) ∧
  (∀ (x : A) n,
     gives_object f (snapshot_path base (AGGREGATE_TYPE A) id) "stream_version" x n →
     load_snapshot f base id = Ok (Some (mk_Snapshot x n))) ∧
  (∀ dir (x : P) n, gives_object f (checkpoint_file dir) "last_global_position" x n →
     runner_new f dir = Ok (mk_ProjectionRunner (mk_ProjectionCheckpoint x n) dir)) ∧
  (∀ dir (x : PM) n, gives_object f (checkpoint_file dir) "last_global_position" x n →
     pm_runner_new f dir = Ok (mk_ProcessManagerRunner (mk_ProcessManagerCheckpoint x n) dir)).
Proof.
  split_and!.
  - intros Hs. pose proof Hs as (_ & Hok & Hor & _)%save_snapshot_atomic.
    split; [intros ->|naive_solver]. destruct (Hok eq_refl) as (json & Hj & Hc).
    split; [by apply (saved_object Snapshot_value _ snap
      (snap_state snap) (snap_version snap)) with json|].
    destruct (proj1 (snapshot_roundtrip _ _ _ _ _ Hs)) as [?|(e & ? & _ & ?)];
      [by left|right; by exists e].
  - intros Hs. pose proof Hs as (_ & Hok & Hor & _)%runner_save_atomic.
    split; [intros ->|naive_solver]. destruct (Hok eq_refl) as (json & Hj & Hc).
    split; [by apply (saved_object ProjectionCheckpoint_value _ (pr_checkpoint r)
      (pc_state (pr_checkpoint r)) (pc_position (pr_checkpoint r))) with json|
     by eapply runner_restart].
  - intros Hs. pose proof Hs as (_ & Hok & Hor & _)%pm_save_atomic.
    split; [intros ->|naive_solver]. destruct (Hok eq_refl) as (json & Hj & Hc).
    split; [by apply (saved_object ProcessManagerCheckpoint_value _ (pm_checkpoint m)
      (pmc_state (pm_checkpoint m)) (pmc_position (pm_checkpoint m))) with json|
     by eapply pm_restart].
  - intros x n (b & text & v & state & Hr & Hb & Ht & Hs & Hx & Hn).
    unfold load_snapshot. rewrite Hr. simpl.
    by rewrite (from_text_object "stream_version" mk_Snapshot b text v state x n).
  - intros dir x n (b & text & v & state & Hr & Hb & Ht & Hs & Hx & Hn).
    unfold runner_new, load_checkpoint, read_to_string. rewrite Hr, Hb. simpl.
    rewrite (as_bytes_from_utf8 _ _ Hb).
    by rewrite (from_text_object "last_global_position" mk_ProjectionCheckpoint b text v state x n).
  - intros dir x n (b & text & v & state & Hr & Hb & Ht & Hs & Hx & Hn).
    unfold pm_runner_new, load_pm_checkpoint, read_to_string. rewrite Hr, Hb. simpl.
    rewrite (as_bytes_from_utf8 _ _ Hb).
    by rewrite (from_text_object "last_global_position" mk_ProcessManagerCheckpoint b text v state x n).
Qed.
End layout.

(** ** Witnesses *)

Abbreviation demo_runner :=
  (mk_ProjectionRunner (P := DemoProj ()) (mk_ProjectionCheckpoint (mk_EventCounter 4) 9) "/p").

Abbreviation demo_pm_runner :=
  (mk_ProcessManagerRunner (PM := DemoPm ()) (mk_ProcessManagerCheckpoint (mk_EchoSaga 4) 9) "/m").

Abbreviation echo_log := "/data/process_managers/echo-saga/dead_letters.jsonl"%string.

(** A store in which nothing handles the envelopes the process manager emits. *)
Definition undeliverable : DemoStore := demo_store (two_events []) empty_fs [TCounter].

Lemma undeliverable_pms log : pms_at log (process_managers undeliverable) [[]].
Proof.
  change (process_managers undeliverable) with (process_managers (demo_world (two_events []))).
  apply demo_world_pms.
Qed.

(** Both envelopes of the run are in the log afterwards, and read back. *)
Lemma dead_letters_logged_witness :
  match run_process_managers undeliverable with
  | (w', Ok report) =>
      report = mk_ProcessManagerReport 0 2 ∧
      ∃ dead, read_log (log_at w' echo_log) = Some (read_back_entry <$> entries_at echo_log dead) ∧
              length dead = 2%nat
  | _ => False
  end.
Proof.
  assert (match run_process_managers undeliverable with
          | (_, Ok report) => report = mk_ProcessManagerReport 0 2 | _ => False end) as Hrun
    by (vm_compute; reflexivity).
  destruct (run_process_managers _) as [w' [report|e|]] eqn:H; [|done..].
  split; [exact Hrun|].
  destruct (dead_letters_logged undeliverable w' [[]] report (undeliverable_pms _) H)
    as (news & dead & _ & _ & Hn & _ & _ & _ & Hlog).
  exists dead.
  assert (∃ x, x ∈ process_managers undeliverable ∧ pm_dead_letters x = echo_log) as (x & Hx & Hp)
    by (eexists; split; [apply list_elem_of_here|vm_compute; reflexivity]).
  specialize (Hlog x Hx). rewrite Hp in Hlog. destruct (Hlog (or_introl eq_refl)) as [_ Hr].
  split; [exact Hr|]. rewrite Hrun in Hn. exact (eq_sym Hn).
Defined.

(** A projection's checkpoint is saved, and found again. *)
Lemma persisted_layout_witness :
  match runner_save empty_fs demo_runner with
  | (f, Ok _) =>
      holds_object f "/p/checkpoint.json" "last_global_position" (mk_EventCounter 4) 9 ∧
      (runner_new f "/p" = Ok demo_runner ∨
       ∃ e, runner_new (P := DemoProj ()) f "/p" = Err e ∧ kind e ≠ NotFound)
  | _ => False
  end.
Proof.
  destruct (runner_save empty_fs demo_runner) as [f [[]|e|]] eqn:H;
    [|vm_compute in H; discriminate..].
  exact (proj1 (proj1 (proj2 (persisted_layout (AG := demo_aggregates TCounter)
    empty_fs f "/b" "c" (mk_Snapshot (Fixture.mk_Counter 0) 0)
    demo_runner demo_pm_runner (Ok ()))) H) eq_refl).
Defined.
