(* ===== verification/CounterFacts.v ===== *)
(** Theorems about [Counter]: the example's counter stays in range, its read
    model counts events, and its [main] passes its own assertions once. *)
From Stdlib Require Import Strings.String.
From stdpp Require Import countable.
From S2P Require Import Prelude Std Deps Command Errors Aggregate Proto Event EventStore Auth.
From S2P Require Import Client Snapshot Actor Cursor Projection ProcessManager LiveTypes Store.
From S2P Require Import Builder Counter Codec Demo DemoApp EventFacts ClientFacts DiskFacts.
From S2P Require Import ActorFacts ProjectionFacts ProcessManagerFacts StoreFacts.
Import CounterExample.
Open Scope Z_scope.

(** ** The aggregate *)

Lemma i64_wrap_small z : - 9223372036854775808 ≤ z ≤ i64_MAX → i64_wrap z = z.
Proof. unfold i64_wrap, i64_MAX. intros. rewrite Z.mod_small; lia. Qed.

(** The states of a counter that is only changed by its own commands, with the
    number of commands it has accepted. *)
Inductive accepts : nat → Counter → Prop :=
| accepts_none : accepts 0 Counter_default
| accepts_one n c cmd es :
    accepts n c → counter_handle c cmd = Ok es →
    accepts (S n) (foldl counter_apply c es).

(** The counter's arithmetic is exact.  However many commands it has
    accepted, up to [2^63 - 1], its value lies between zero and their number, so
    no [+= 1] or [-= 1] ever overflows; it is never negative; a decrement is
    accepted exactly above zero and a reset exactly off zero, recording the
    value it clears. *)
Lemma counter_in_range n c
    (Hacc : accepts n c) (Hn : Z.of_nat n ≤ i64_MAX) :
  0 ≤ value c ≤ Z.of_nat n ∧
  (counter_handle c Decrement = Ok [Decremented] ↔ 0 < value c) ∧
  (∀ es, counter_handle c Reset = Ok es ↔ 0 < value c ∧ es = [WasReset (value c)]) ∧
  (value c < i64_MAX → value (counter_apply c Incremented) = value c + 1) ∧
  (0 < value c → value (counter_apply c Decremented) = value c - 1).
Proof.
  assert (0 ≤ value c ≤ Z.of_nat n) as Hrange.
  { revert Hn. induction Hacc as [|n c cmd es Hacc IH Hh]; intros Hn; [done|].
    assert (0 ≤ value c ≤ Z.of_nat n) as Hc by (apply IH; lia). clear IH.
    destruct cmd; simpl in Hh; [|case_match|case_match]; simplify_eq/=;
      rewrite ?i64_wrap_small by (unfold i64_MAX in *; lia); lia. }
  split; [done|]. unfold counter_handle, counter_apply; simpl.
  split_and!; [|intros es|intros; apply i64_wrap_small; unfold i64_MAX in *; lia..].
  - destruct (Z.leb_spec (value c) 0); split; [done|lia|done|done].
  - destruct (Z.eqb_spec (value c) 0); split; [done|lia| |by intros [_ ->]].
    intros [= <-]. split; [lia|done].
Qed.

(** ** The read model *)
Section totals.
Context {J : SerdeJson} {U : UuidOps} {T : Tonic}.

(** The decodable events of a log with aggregate type ["counter"] and a given
    event type. *)
Definition is_counter_event (ty : string) (r : RecordedEvent) : bool :=
  match decode_stored_event r with
  | Some e => String.eqb (aggregate_type e) "counter" && String.eqb (event_type e) ty
  | None => false
  end.

Definition count_events (ty : string) (log : list RecordedEvent) : N :=
  N.of_nat (length (filter (λ r, is_counter_event ty r = true) log)).

(** Counting, as the read model's fields can hold it. *)
Definition counted (log : list RecordedEvent) : TotalCounter :=
  let wrap n := (n mod 18446744073709551616)%N in
  mk_TotalCounter (wrap (count_events "Incremented" log))
    (wrap (count_events "Decremented" log)) (wrap (count_events "WasReset" log)).

Lemma count_events_snoc ty log r :
  (count_events ty (log ++ [r]) mod 18446744073709551616)%N =
  (if is_counter_event ty r
   then u64_add (count_events ty log mod 18446744073709551616) 1
   else (count_events ty log mod 18446744073709551616))%N.
Proof.
  unfold count_events, u64_add. rewrite filter_app, length_app, filter_cons, filter_nil.
  destruct (is_counter_event ty r); simpl.
  - rewrite N.Div0.add_mod_idemp_l. f_equal. lia.
  - f_equal. lia.
Qed.

(** What one event adds. *)
Lemma project_total_one t r :
  project_one t r =
  mk_TotalCounter
    (if is_counter_event "Incremented" r then u64_add (total_increments t) 1
     else total_increments t)
    (if is_counter_event "Decremented" r then u64_add (total_decrements t) 1
     else total_decrements t)
    (if is_counter_event "WasReset" r then u64_add (total_resets t) 1
     else total_resets t).
Proof.
  unfold project_one, is_counter_event. destruct (decode_stored_event r) as [e|]; [|by destruct t].
  cbn [proj_apply TotalCounter_projection]. unfold total_apply.
  destruct (String.eqb (aggregate_type e) "counter"); cbn [negb andb]; [|by destruct t].
  destruct (String.eqb_spec (event_type e) "Incremented") as [H1|H1]; [by rewrite H1|].
  destruct (String.eqb_spec (event_type e) "Decremented") as [H2|H2]; [by rewrite H2|].
  destruct (String.eqb_spec (event_type e) "WasReset") as [H3|H3]; [done|by destruct t].
Qed.

Lemma project_totals log : project (P := TotalCounter) log = counted log.
Proof.
  induction log as [|r log IH] using rev_ind; [done|].
  unfold project in *. rewrite foldl_app, IH. simpl. rewrite project_total_one.
  unfold counted; simpl. by rewrite !count_events_snoc.
Qed.
End totals.

Section totals_read.
Context {J : SerdeJson} {U : UuidOps} {T : Tonic} {CS : CounterSerde}.
Context {Store : Type} {ES : EventStoreOps Store} {EL : EventLogOps Store}.
Context {LS : EventLogSpec Store}.
Context {F : Type} {FS : FileSystem F} {FL : FileSystemLaws F} {SD : Serde DeadLetterEntry}.
Context {SC : Serde (Snapshot Counter)}.
Context {ST : Serde (ProjectionCheckpoint TotalCounter)}.
Context {SL : SerdeLaws (ProjectionCheckpoint TotalCounter)}.
Abbreviation World := (AggregateStore (Store := Store) (F := F) (TypeId := unit)
  (Agg := ExAgg) (ProjId := unit) (Proj := ExProj) (PmId := Empty_set) (Pm := ExPm)).

(** The totals are counts.  If the registered read model stands at a right
    checkpoint, the totals [projection] answers are the numbers of the counter
    events of each type, other aggregates' and undecodable events aside, in an
    initial part of the log (modulo [2^64]); of the whole log there was at the
    time of the call, when the subscription reached its [CaughtUp] marker. *)
Lemma totals_count (w w' : World) totals
    (Hok : projections_ok w) (Hread : read_totals (TransportError := unit) w = (w', Ok totals)) :
  ∃ (x : sigT (λ p : unit, ProjectionRunner (ExProj p))) seen,
    projections w !! "total-counter" = Some x ∧
    seen `prefix_of` log_of (client w') ∧ totals = counted seen ∧
    ∀ s items evs, subscribe_all_from (client w) (runner_position (projT2 x)) = (s, Ok items) →
      until_caught_up items = Some evs → log_of (client w) `prefix_of` seen.
Proof.
  unfold read_totals, boxed in Hread.
  destruct (projection w tt) as [w1 r] eqn:Hp. injection Hread as -> Hr.
  apply map_err_Ok in Hr as ->.
  apply projection_ok in Hp as [_ H]; [|done].
  destruct (H _ eq_refl) as (x & x' & H1 & _ & H2 & H3).
  exists x. eexists. split_and!; [exact H1| | |exact H3].
  - apply events_below_prefix, log_of_ok.
  - rewrite H2. apply project_totals.
Qed.
End totals_read.

(** ** The program, run *)

#[export] Instance demo_counter_serde : CounterSerde := {|
  example_event_to_value e :=
    Ok (json_obj (match e with
                  | Incremented => [("type", json_str "Incremented")]
                  | Decremented => [("type", json_str "Decremented")]
                  | WasReset n => [("type", json_str "WasReset");
                                   ("data", json_obj [("previous", j_num (Z.to_N n))])]
                  end));
  example_event_from_value v :=
    match value_get v "type" ≫= as_str, (value_get v "data" ≫= λ d, value_get d "previous") with
    | Some ty, Some (GenLeaf (inr n)) =>
        if String.eqb ty "WasReset" then Ok (WasReset (Z.of_N n)) else Err "unknown variant"
    | Some ty, _ =>
        if String.eqb ty "Incremented" then Ok Incremented
        else if String.eqb ty "Decremented" then Ok Decremented else Err "unknown variant"
    | None, _ => Err "missing field type"
    end;
|}.

#[export] Instance ExCounter_eq_dec : EqDecision Counter.
Proof. solve_decision. Defined.
#[export] Instance ExCounter_countable : Countable Counter.
Proof. refine (inj_countable' value mk_Counter _). by intros []. Defined.
#[export] Instance TotalCounter_eq_dec : EqDecision TotalCounter.
Proof. solve_decision. Defined.
#[export] Instance TotalCounter_countable : Countable TotalCounter.
Proof.
  refine (inj_countable' (λ t, (total_increments t, total_decrements t, total_resets t))
            (λ '(i, d, r), mk_TotalCounter i d r) _). by intros [].
Defined.
#[export] Instance ex_snapshot_countable : Countable (Snapshot Counter).
Proof.
  refine (inj_countable' (λ s, (snap_state s, snap_version s)) (λ p, mk_Snapshot p.1 p.2) _).
  by intros [].
Defined.
#[export] Instance ex_totals_countable : Countable (ProjectionCheckpoint TotalCounter).
Proof.
  refine (inj_countable' (λ c, (pc_state c, pc_position c))
            (λ p, mk_ProjectionCheckpoint p.1 p.2) _).
  by intros [].
Defined.
(** The files of the example by an encoding of their own: its counter is signed,
    and the values of [Demo] hold no negative number. *)
#[export] Instance ex_snapshot_serde : Serde (Snapshot Counter) := demo_serde _.
#[export] Instance ex_totals_serde : Serde (ProjectionCheckpoint TotalCounter) := demo_serde _.
#[export] Instance ex_totals_laws : SerdeLaws (ProjectionCheckpoint TotalCounter) :=
  demo_serde_laws _.

(** The program against a server with some events, on an empty directory. *)
Definition run_main (entries : list (string * ProposedEvent)) (i : list Interference) :=
  main (TransportError := string) (λ _ _, Ok (demo_client entries i)) (Ok "/tmp/counter")
    "/tmp" empty_fs 0%N (Some 1700000000%N).

(** The events a server holds after the program. *)
Definition left_behind {X} (r : option (AggregateStore (Store := DemoClient) (F := MemFs)
    (TypeId := unit) (Agg := ExAgg) (ProjId := unit) (Proj := ExProj)
    (PmId := Empty_set) (Pm := ExPm)) * X) : list (string * ProposedEvent) :=
  match r.1 with Some w => entries (server (client w)) | None => [] end.

