(* ===== verification/BuilderFacts.v ===== *)
(** Theorems about [Builder]: a store that opens satisfies the invariants the
    rest of the development starts from, and when opening does not return. *)
From Stdlib Require Import Strings.Byte.
From S2P Require Import Prelude Std Deps Command Errors Aggregate Proto Event EventStore Auth.
From S2P Require Import Client Snapshot Actor Cursor Projection ProcessManager LiveTypes Store.
From S2P Require Import Builder Codec Demo DemoApp EventFacts ClientFacts DiskFacts ActorFacts.
From S2P Require Import ProjectionFacts ProcessManagerFacts StoreFacts.
Open Scope N_scope.

Section builder_facts.
Context {J : SerdeJson} {U : UuidOps} {T : Tonic}.
Context {Store : Type} {ES : EventStoreOps Store} {EL : EventLogOps Store}.
Context {SS : EventStoreSpec to_proto_event Store} {LS : EventLogSpec Store}.
Context {F : Type} {FS : FileSystem F} {FL : FileSystemLaws F}.
Context {TypeId : Type} `{!EqDecision TypeId, !Countable TypeId}.
Context {Agg : TypeId → Type} {AG : ∀ t, Aggregate (Agg t)}.
Context {SA : ∀ t, Serde (Snapshot (Agg t))}.
Context {ProjId : Type} `{!EqDecision ProjId}.
Context {Proj : ProjId → Type} {PJ : ∀ p, Projection (Proj p)}.
Context {SP : ∀ p, Serde (ProjectionCheckpoint (Proj p))}.
Context {PmId : Type} {Pm : PmId → Type} {PMC : ∀ q, ProcessManager (Pm q)}.
Context {SM : ∀ q, Serde (ProcessManagerCheckpoint (Pm q))}.
Context {TransportError : Type}.
Context {IN : InUse TypeId}.

Abbreviation AnyProjection := (sigT (λ p : ProjId, ProjectionRunner (Proj p))).
Abbreviation World := (AggregateStore (Store := Store) (F := F) (TypeId := TypeId)
  (Agg := Agg) (ProjId := ProjId) (Proj := Proj) (PmId := PmId) (Pm := Pm)).
Abbreviation Builder := (AggregateStoreBuilder (TypeId := TypeId) (ProjId := ProjId)
  (PmId := PmId)).

(** Where a builder puts its files, and where each component's are. *)
Definition open_dir (temp_dir : path) (b : Builder) : path :=
  default (join temp_dir "eventfold-es") (b_base_dir b).
Definition projection_dir (base : path) (p : ProjId) : path :=
  join (join base "projections") (PROJ_NAME (Proj p)).
Definition process_manager_dir (base : path) (q : PmId) : path :=
  join (join base "process_managers") (PM_NAME (Pm q)).

(** Every runner keeps its checkpoint where [open] put it. *)
Definition placed (w : World) : Prop :=
  (∀ name x, projections w !! name = Some x →
     pr_checkpoint_dir (projT2 x) = projection_dir (store_base_dir w) (projT1 x)) ∧
  (∀ x, x ∈ process_managers w →
     pm_checkpoint_dir (projT2 x) = process_manager_dir (store_base_dir w) (projT1 x)).

(** Every checkpoint file under a base directory is right. *)
Definition files_ok (log : list RecordedEvent) (f : F) (base : path) : Prop :=
  (∀ p, checkpoint_file_ok (P := Proj p) log f (projection_dir base p)) ∧
  (∀ q, pm_file_ok (PM := Pm q) log f (process_manager_dir base q)).

(** ** Lemmas *)

(** A later registration replaces an earlier one of the same name. *)
Lemma init_dispatchers_last (l : list (string * TypeId)) :
  init_dispatchers l = list_to_map (reverse l).
Proof.
  unfold init_dispatchers. induction l as [|[name t] l IH] using rev_ind; [done|].
  rewrite foldl_app, reverse_app. simpl. by rewrite IH.
Qed.

Lemma init_projections_ok log f base l (acc m : gmap string AnyProjection) :
  (∀ p, checkpoint_file_ok (P := Proj p) log f (projection_dir base p)) →
  (∀ name x, acc !! name = Some x → any_projection_ok log x) →
  init_projections f base l acc = Some m →
  (∀ name x, m !! name = Some x → any_projection_ok log x) ∧
  dom m = dom acc ∪ list_to_set l.*1.
Proof.
  intros Hf. revert acc; induction l as [|[name p] l IH]; intros acc Hacc; simpl.
  { intros [= <-]. split; [done|set_solver]. }
  unfold projection_factory. destruct (runner_new f _) as [r|e|] eqn:Hr; simpl; [|done..].
  intros Hm. apply IH in Hm as [H1 H2].
  - split; [done|]. rewrite H2, dom_insert_L. set_solver.
  - intros name' x [[_ <-]|[_ Hx]]%lookup_insert_Some; [|by eapply Hacc].
    by eapply runner_new_ok.
Qed.

Lemma init_process_managers_ok log f base l pms :
  (∀ q, pm_file_ok (PM := Pm q) log f (process_manager_dir base q)) →
  init_process_managers f base l = Some pms →
  ∃ outs, pms_at log pms outs ∧ (projT1 <$> pms) = l.*2.
Proof.
  intros Hf. revert pms; induction l as [|[name q] l IH]; intros pms; simpl.
  { intros [= <-]. exists []. split; [constructor|done]. }
  unfold process_manager_factory. destruct (pm_runner_new f _) as [r|e|] eqn:Hr; simpl; [|done..].
  destruct (init_process_managers f base l) as [pms'|]; [|done]. intros [= <-].
  destruct (IH pms' eq_refl) as (outs & H1 & H2).
  apply (pm_runner_new_ok log) in Hr as [out Hout]; [|apply Hf].
  exists (out :: outs). split; [by constructor|]. cbn. by f_equal.
Qed.

Lemma init_projections_placed f base l (acc m : gmap string AnyProjection) :
  (∀ name x, acc !! name = Some x →
     pr_checkpoint_dir (projT2 x) = projection_dir base (projT1 x)) →
  init_projections f base l acc = Some m →
  ∀ name x, m !! name = Some x → pr_checkpoint_dir (projT2 x) = projection_dir base (projT1 x).
Proof.
  revert acc; induction l as [|[name p] l IH]; intros acc Hacc; simpl; [by intros [= <-]|].
  unfold projection_factory, runner_new.
  destruct (load_checkpoint f _) as [c|e|]; simpl; [|done..].
  intros Hm. refine (IH _ _ Hm).
  intros name' x [[_ <-]|[_ Hx]]%lookup_insert_Some; [done|by eapply Hacc].
Qed.

Lemma init_process_managers_placed f base l pms :
  init_process_managers f base l = Some pms →
  ∀ x, x ∈ pms → pm_checkpoint_dir (projT2 x) = process_manager_dir base (projT1 x).
Proof.
  revert pms; induction l as [|[name q] l IH]; intros pms; simpl; [intros [= <-]; set_solver|].
  unfold process_manager_factory, pm_runner_new.
  destruct (load_pm_checkpoint f _) as [c|e|]; simpl; [|done..].
  destruct (init_process_managers f base l) as [pms'|]; [|done]. intros [= <-].
  intros x [->|Hx]%elem_of_cons; [done|by apply (IH _ eq_refl)].
Qed.

(** What [open] builds. *)
Lemma open_Ok connect_to temp_dir f g now (b : Builder) (w : World) :
  open (TransportError := TransportError) connect_to temp_dir f g now b = Ok w →
  connect_to (default "http://127.0.0.1:2113" (b_endpoint b)) (b_auth_token b) = Ok (client w) ∧
  store_base_dir w = open_dir temp_dir b ∧ fs w = f ∧ cache w = ∅ ∧ live_handle w = None ∧
  init_projections f (open_dir temp_dir b) (projection_factories b) ∅ = Some (projections w) ∧
  init_process_managers f (open_dir temp_dir b) (process_manager_factories b)
    = Some (process_managers w) ∧
  dispatchers w = init_dispatchers (dispatcher_factories b).
Proof.
  unfold open. destruct (connect_to _ _) as [c|e|]; simpl; [|done..].
  fold (open_dir temp_dir b).
  destruct (init_projections _ _ _ _) as [ps|]; simpl; [|done].
  destruct (init_process_managers _ _ _) as [pms|]; simpl; [|done].
  by intros [= <-].
Qed.

Lemma open_store_ok connect_to temp_dir f g now (b : Builder) (w : World) :
  open (TransportError := TransportError) connect_to temp_dir f g now b = Ok w →
  (∀ t id, in_use t id → snapshot_ok (A := Agg t) (client w) f (open_dir temp_dir b) id) → store_ok w.
Proof.
  intros (_ & Hb & Hf & Hc & _)%open_Ok Hsnap. split.
  - intros t id x. by rewrite Hc, lookup_empty.
  - intros t id h t' id' h'. by rewrite Hc, lookup_empty.
  - intros t id Hu. rewrite Hb, Hf. by apply Hsnap.
Qed.

Lemma init_projections_fails f base l (acc : gmap string AnyProjection) name p :
  (name, p) ∈ l → (∀ x, projection_factory f base p ≠ Ok x) →
  init_projections f base l acc = None.
Proof.
  intros Hin Hf. revert acc. induction l as [|[name' p'] l IH]; intros acc; [set_solver|].
  simpl. apply elem_of_cons in Hin as [[= <- <-]|Hin].
  - destruct (projection_factory f base p) as [x|e|] eqn:Hp; [by destruct (Hf x)|done..].
  - destruct (projection_factory f base p'); [by apply IH|done..].
Qed.

(** ** Theorems *)

(** C30: opening establishes the invariants.  If the snapshots of the
    instances in use and the checkpoint files under the base directory are
    honest, a store that opens has the store invariant of [StoreFacts],
    projections at right checkpoints and process managers at right checkpoints,
    one of each per registration; it has no cached actor and is not live; and for each aggregate type the
    last registration is the route. *)
Theorem open_establishes connect_to temp_dir f g now (b : Builder) (w : World)
    (Hopen : open (TransportError := TransportError) connect_to temp_dir f g now b = Ok w)
    (Hsnap : ∀ t id, in_use t id → snapshot_ok (A := Agg t) (client w) f (open_dir temp_dir b) id)
    (Hproj : ∀ p, checkpoint_file_ok (P := Proj p) (log_of (client w)) f
                    (projection_dir (open_dir temp_dir b) p))
    (Hpm : ∀ q, pm_file_ok (PM := Pm q) (log_of (client w)) f
                  (process_manager_dir (open_dir temp_dir b) q)) :
  store_ok w ∧ projections_ok w ∧
  (∃ outs, pms_at (log_of (client w)) (process_managers w) outs) ∧
  dom (projections w) = list_to_set (projection_factories b).*1 ∧
  projT1 <$> process_managers w = (process_manager_factories b).*2 ∧
  dispatchers w = list_to_map (reverse (dispatcher_factories b)) ∧
  live_handle w = None.
Proof.
  pose proof (open_store_ok _ _ _ _ _ _ _ Hopen Hsnap) as Hok.
  apply open_Ok in Hopen as (_ & _ & _ & _ & Hl & Hps & Hpms & Hd).
  apply (init_projections_ok (log_of (client w))) in Hps as [H1 H2];
    [|done|by intros name x; rewrite lookup_empty].
  apply (init_process_managers_ok (log_of (client w))) in Hpms as (outs & H3 & H4); [|done].
  split_and!; [done|exact H1|by exists outs|rewrite H2; set_solver|done| |done].
  rewrite Hd. apply init_dispatchers_last.
Qed.

(** Opening panics on a checkpoint file that is not UTF-8.  Although the
    checkpoint is only a cache, such a file of any registered projection stops
    the application: [open] neither rebuilds the projection nor returns an
    error, it panics. *)
Lemma open_panics_on_corrupt_checkpoint connect_to temp_dir f g now (b : Builder) c name p bytes
    (Hconnect : connect_to (default "http://127.0.0.1:2113" (b_endpoint b)) (b_auth_token b) = Ok c)
    (Hreg : (name, p) ∈ projection_factories b)
    (Hfile : fs_read f (join (projection_dir (open_dir temp_dir b) p) "checkpoint.json") = Ok bytes)
    (Hcorrupt : from_utf8 bytes = None) :
  open (TransportError := TransportError) (Agg := Agg) (Proj := Proj) (Pm := Pm) (Store := Store)
    connect_to temp_dir f g now b = Panic.
Proof.
  unfold open. rewrite Hconnect. simpl. fold (open_dir temp_dir b).
  rewrite (init_projections_fails _ _ _ _ name p); [done|done|].
  intros x. unfold projection_factory, runner_new, load_checkpoint, read_to_string.
  fold (projection_dir (open_dir temp_dir b) p). rewrite Hfile, Hcorrupt. done.
Qed.
End builder_facts.

(** ** Witnesses *)

Lemma empty_fs_content p b : content empty_fs p = Some b → False.
Proof. intros H. change ((∅ : gmap string bytes) !! p = Some b) in H. by rewrite lookup_empty in H. Qed.

Lemma open_establishes_witness :
  match demo_open (two_events []) empty_fs [TCounter; TTarget] with
  | Ok w => store_ok w ∧ dom (projections w) = {[ "event-counter" ]}
  | _ => False
  end.
Proof.
  assert (is_ok (demo_open (two_events []) empty_fs [TCounter; TTarget]) = true) as Hok
    by (vm_compute; reflexivity).
  destruct (demo_open _ _ _) as [w|e|] eqn:H; [|discriminate..].
  destruct (open_establishes _ _ _ _ _ _ w H) as (H1 & _ & _ & H2 & _).
  - intros t id _ b snap Hb. destruct (empty_fs_content _ _ Hb).
  - intros p b c Hb. destruct (empty_fs_content _ _ Hb).
  - intros q b c Hb. destruct (empty_fs_content _ _ Hb).
  - split; [exact H1|]. rewrite H2. reflexivity.
Defined.
