(* ===== verification/LiveFacts.v ===== *)
(** Theorems about [Live]: the live loop as a state machine keeps every
    projection and process manager at a right checkpoint whatever interleaves
    with it, refines the uninterrupted function, bounds its retry delay, stops
    when asked to; and what an interrupted dispatch loses. *)
From S2P Require Import Prelude Std Deps Command Errors Aggregate Proto Event EventStore.
From S2P Require Import Client Snapshot Actor Cursor Projection ProcessManager LiveTypes Store.
From S2P Require Import Live Codec Demo DemoApp EventFacts ClientFacts DiskFacts ActorFacts.
From S2P Require Import ProjectionFacts ProcessManagerFacts StoreFacts.
Open Scope N_scope.

Section live_facts.
Context {J : SerdeJson} {U : UuidOps} {T : Tonic}.
Context {Store : Type} {ES : EventStoreOps Store} {EL : EventLogOps Store}.
Context {F : Type} {FS : FileSystem F} {FL : FileSystemLaws F} {SD : Serde DeadLetterEntry}.
Context {TypeId : Type} `{!EqDecision TypeId, !Countable TypeId}.
Context {Agg : TypeId → Type} {AG : ∀ t, Aggregate (Agg t)}.
Context {CD : ∀ t, CommandDe (Agg t)} {SA : ∀ t, Serde (Snapshot (Agg t))}.
Context {ProjId : Type} `{!EqDecision ProjId}.
Context {Proj : ProjId → Type} {PJ : ∀ p, Projection (Proj p)}.
Context {SP : ∀ p, Serde (ProjectionCheckpoint (Proj p))}.
Context {PmId : Type} {Pm : PmId → Type} {PMC : ∀ q, ProcessManager (Pm q)}.
Context {SM : ∀ q, Serde (ProcessManagerCheckpoint (Pm q))}.

Abbreviation World := (AggregateStore (Store := Store) (F := F) (TypeId := TypeId)
  (Agg := Agg) (ProjId := ProjId) (Proj := Proj) (PmId := PmId) (Pm := Pm)).
Abbreviation AnyProjection := (sigT (λ p : ProjId, ProjectionRunner (Proj p))).
Abbreviation AnyPm := (sigT (λ q : PmId, ProcessManagerRunner (Pm q))).
Abbreviation Live := (Live (Store := Store) (F := F) (TypeId := TypeId)
  (Agg := Agg) (ProjId := ProjId) (Proj := Proj) (PmId := PmId) (Pm := Pm)).

(** A bound on every runner's cursor. *)
Definition all_positions (P : N → Prop) (w : World) : Prop :=
  (∀ name x, projections w !! name = Some x → P (any_projection_position x)) ∧
  (∀ x, x ∈ process_managers w → P (any_pm_position x)).

(** ** Lemmas *)

Lemma foldl_min_le (a : N) l : foldl N.min a l ≤ a ∧ ∀ x, x ∈ l → foldl N.min a l ≤ x.
Proof.
  revert a; induction l as [|y l IH]; intros a; simpl; [split; [done|set_solver]|].
  destruct (IH (N.min a y)) as [H1 H2]. split; [lia|].
  intros x [->|Hx]%elem_of_cons; [lia|by apply H2].
Qed.

Lemma foldl_min_attained (a : N) l : foldl N.min a l = a ∨ foldl N.min a l ∈ l.
Proof.
  revert a; induction l as [|y l IH]; intros a; simpl; [by left|].
  destruct (IH (N.min a y)) as [->|H]; [|right; set_solver].
  destruct (N.min_spec a y) as [[_ ->]|[_ ->]]; [by left|right; set_solver].
Qed.

Lemma min_global_position_le (w : World) : all_positions (λ p, min_global_position w ≤ p) w.
Proof.
  unfold min_global_position.
  set (l1 := (any_projection_position ∘ snd) <$> map_to_list (projections w)).
  set (l2 := any_pm_position <$> process_managers w).
  destruct (foldl_min_le u64_MAX l1) as [_ H1].
  destruct (foldl_min_le (foldl N.min u64_MAX l1) l2) as [H2 H3].
  assert (∀ m x, m ≤ x → (if m =? u64_MAX then 0 else m) ≤ x) as Hif.
  { intros m x Hm. destruct (m =? u64_MAX); lia. }
  split.
  - intros name x Hx. apply Hif. etrans; [exact H2|]. apply H1. unfold l1.
    apply list_elem_of_fmap. exists (name, x). split; [done|]. by apply elem_of_map_to_list.
  - intros x Hx. apply Hif, H3. unfold l2. apply list_elem_of_fmap. by exists x.
Qed.

(** ** The starting point of a subscription *)

(** The live subscription starts at a position that no runner has passed,
    so that the stream contains everything any of them is missing; and not
    lower than necessary: it is 0 or the cursor of some runner. *)
Lemma min_position_covers (w : World) :
  all_positions (λ p, min_global_position w ≤ p) w ∧
  (min_global_position w = 0 ∨
   (∃ name x, projections w !! name = Some x ∧
      min_global_position w = any_projection_position x) ∨
   ∃ x, x ∈ process_managers w ∧ min_global_position w = any_pm_position x).
Proof.
  split; [apply min_global_position_le|]. unfold min_global_position.
  set (l1 := (any_projection_position ∘ snd) <$> map_to_list (projections w)).
  set (l2 := any_pm_position <$> process_managers w).
  destruct (N.eqb_spec (foldl N.min (foldl N.min u64_MAX l1) l2) u64_MAX) as [|Hne]; [by left|].
  right. destruct (foldl_min_attained (foldl N.min u64_MAX l1) l2) as [Heq|Hin].
  - rewrite Heq in *. destruct (foldl_min_attained u64_MAX l1) as [?|Hin]; [done|].
    left. unfold l1 in Hin at 2. apply list_elem_of_fmap in Hin as ([name x] & Hx & Hin).
    exists name, x. split; [by apply elem_of_map_to_list|exact Hx].
  - right. unfold l2 in Hin at 2. apply list_elem_of_fmap in Hin as (x & Hx & Hin).
    by exists x.
Qed.

(** ** The invariant of the loop *)
Context {LS : EventLogSpec Store} {SLS : EventStoreLogSpec Store}.
Abbreviation Items := (list (result SubscribeResponse Status)).

(** Every runner stands at a right checkpoint. *)
Definition runners_ok (w : World) : Prop :=
  projections_ok w ∧ ∃ outs, pms_at (log_of (client w)) (process_managers w) outs.

(** What is left of a subscription: with what it has delivered it is, without
    a gap, the log from a position no runner had passed; and every runner is
    past what was delivered. *)
Definition stream_ok (w : World) (stream : Items) : Prop :=
  ∃ from delivered,
    (delivered ++ stream_events stream) `prefix_of` events_from from (log_of (client w)) ∧
    all_positions (λ p, from ≤ p) w ∧
    ∀ d, d ∈ delivered → all_positions (λ p, re_global_position d < p) w.

Record live_ok (s : Live) : Prop := {
  lo_runners : runners_ok (lv_store s);
  lo_position : position (lv_cells s) = 0 ∨
                all_positions (λ p, position (lv_cells s) < p) (lv_store s);
  lo_pc : match lv_pc s with
          | Reading stream => stream_ok (lv_store s) stream
          | Dispatching recorded _ stream =>
              stream_ok (lv_store s) stream ∧
              all_positions (λ p, re_global_position recorded < p) (lv_store s)
          | _ => True
          end;
}.

(** A step that leaves the runners alone and lets the log grow. *)
Lemma runners_ok_frame (w w' : World) :
  process_managers w' = process_managers w → projections w' = projections w →
  log_of (client w) `prefix_of` log_of (client w') → runners_ok w → runners_ok w'.
Proof.
  intros Hp Hq Hg [H1 (outs & H2)]. split.
  - intros name x. rewrite Hq. intros Hx. eapply checkpoint_ok_grow; [apply log_of_ok|exact Hg|].
    by eapply H1.
  - exists outs. rewrite Hp. eapply pms_at_grow; [apply log_of_ok|exact Hg|done].
Qed.

Lemma all_positions_frame P (w w' : World) :
  process_managers w' = process_managers w → projections w' = projections w →
  all_positions P w → all_positions P w'.
Proof. unfold all_positions. by intros -> ->. Qed.

Lemma all_positions_impl (P Q : N → Prop) (w : World) :
  (∀ p, P p → Q p) → all_positions P w → all_positions Q w.
Proof. unfold all_positions. naive_solver. Qed.

Lemma events_from_grow p log log' :
  log `prefix_of` log' → events_from p log `prefix_of` events_from p log'.
Proof. intros [k ->]. unfold events_from. rewrite filter_app. by apply prefix_app_r. Qed.

Lemma stream_ok_frame (w w' : World) stream :
  process_managers w' = process_managers w → projections w' = projections w →
  log_of (client w) `prefix_of` log_of (client w') → stream_ok w stream → stream_ok w' stream.
Proof.
  intros Hp Hq Hg (from & del & H1 & H2 & H3). exists from, del. split_and!.
  - etrans; [exact H1|by apply events_from_grow].
  - by eapply all_positions_frame.
  - intros d Hd. eapply all_positions_frame; [done..|by apply H3].
Qed.

(** *** One event through every runner *)

Lemma apply_event_ok log from delivered r (x : AnyProjection) :
  log_ok log → (delivered ++ [r]) `prefix_of` events_from from log →
  from ≤ any_projection_position x →
  (∀ d, d ∈ delivered → re_global_position d < any_projection_position x) →
  any_projection_ok log x →
  any_projection_ok log (any_apply_event r x) ∧
  re_global_position r < any_projection_position (any_apply_event r x) ∧
  any_projection_position x ≤ any_projection_position (any_apply_event r x).
Proof.
  intros Hok Hpre Hfrom Hdel Hx. unfold any_projection_ok in *.
  destruct x as [p [c dir]]. simpl in *. apply checkpoint_ok_cursor in Hx.
  pose proof (delivered_in_log _ _ _ _ Hpre) as Hr.
  destruct (cursor_event_inv proj_react _ _ _ _ r Hok Hr Hx) as [H1 H2].
  { intros q Hq Hqr. by eapply delivered_gap. }
  pose proof (cursor_event_mono proj_react (ckpt_pair c) r (proj2 Hok r Hr)) as H3.
  rewrite apply_to_checkpoint_cursor in H1, H2, H3. simpl in *.
  split; [by apply checkpoint_ok_cursor|done].
Qed.

Lemma react_event_ok {q} log from delivered r (x : ProcessManagerRunner (Pm q)) out :
  log_ok log → (delivered ++ [r]) `prefix_of` events_from from log →
  from ≤ pm_position x → (∀ d, d ∈ delivered → re_global_position d < pm_position x) →
  pm_at log (pm_checkpoint x) out →
  pm_at log (pm_checkpoint (react_event x r).1) (out ++ (react_event x r).2) ∧
  re_global_position r < pm_position (react_event x r).1 ∧
  pm_position x ≤ pm_position (react_event x r).1.
Proof.
  intros Hok Hpre Hfrom Hdel Hx.
  pose proof (delivered_in_log _ _ _ _ Hpre) as Hr.
  destruct (cursor_event_inv pm_react (pm_default (Pm q)) log (pm_ckpt_pair (pm_checkpoint x))
              out r Hok Hr Hx) as [H1 H2].
  { intros y Hy Hyr. by eapply delivered_gap. }
  pose proof (cursor_event_mono pm_react (pm_ckpt_pair (pm_checkpoint x)) r (proj2 Hok r Hr)) as H3.
  rewrite react_to_checkpoint_cursor in H1, H2, H3. unfold react_event.
  destruct (react_to_checkpoint (pm_checkpoint x) r) as [c1 o1].
  split; [by apply pm_at_cursor|done].
Qed.

Lemma fan_out_pms_ok log from delivered r pms outs pms' work :
  log_ok log → (delivered ++ [r]) `prefix_of` events_from from log →
  (∀ x, x ∈ pms → from ≤ any_pm_position x ∧
     ∀ d, d ∈ delivered → re_global_position d < any_pm_position x) →
  pms_at log pms outs → fan_out_pms pms r = (pms', work) →
  ∃ news, length news = length pms ∧ pms_at log pms' (zip_with app outs news) ∧
    mjoin work.*1 = mjoin news ∧
    ∀ P : N → Prop, (∀ x, x ∈ pms → P (any_pm_position x)) →
      (∀ p p', P p → p ≤ p' → P p') →
      ∀ x, x ∈ pms' → P (any_pm_position x) ∧ re_global_position r < any_pm_position x.
Proof.
  intros Hok Hpre. revert outs pms' work.
  induction pms as [|[q pm] pms IH]; intros outs pms' work Hpos Hat; simpl.
  { intros [= <- <-]. apply Forall2_nil_inv_l in Hat as ->. exists [].
    split_and!; [done|constructor|done|set_solver]. }
  apply Forall2_cons_inv_l in Hat as (out & outs' & Hpm & Hpms & ->). simpl in Hpm.
  destruct (Hpos (existT q pm) (list_elem_of_here _ _)) as [Hfrom Hdel].
  destruct (react_event_ok log from delivered r pm out Hok Hpre Hfrom Hdel Hpm) as (H1 & H2 & H3).
  destruct (react_event pm r) as [pm1 envelopes]. simpl in *.
  destruct (fan_out_pms pms r) as [pms1 work1] eqn:Hall.
  destruct (IH _ _ _ ltac:(set_solver) Hpms eq_refl) as (news & Hlen & H4 & H5 & H6).
  intros [= <- <-]. exists (envelopes :: news). simpl. split_and!.
  - by f_equal.
  - by constructor.
  - destruct envelopes; simpl; [done|]. by f_equal; f_equal.
  - intros P HP Hmono x [->|Hx]%elem_of_cons.
    + split; [|done]. eapply Hmono, H3. apply (HP (existT q pm)). set_solver.
    + apply H6; [set_solver|done..].
Qed.

Lemma fan_out_ok (w w' : World) stream r work :
  runners_ok w → stream_ok w (event_item r :: stream) → fan_out w r = (w', work) →
  runners_ok w' ∧ stream_ok w' stream ∧
  all_positions (λ p, re_global_position r < p) w' ∧
  (∀ n, all_positions (λ p, n < p) w → all_positions (λ p, n < p) w').
Proof.
  intros [Hproj (outs & Hpms)] (from & delivered & Hpre & [Hf1 Hf2] & Hdel) Hfan.
  unfold fan_out in Hfan. simpl in Hfan.
  destruct (fan_out_pms (process_managers w) r) as [pms' work'] eqn:Hall. simplify_eq.
  pose proof (log_of_ok (client w)) as Hok.
  assert ((delivered ++ [r]) `prefix_of` events_from from (log_of (client w))) as Hpre1.
  { simpl in Hpre. rewrite cons_middle, (assoc_L (++)) in Hpre. by eapply prefix_app_l. }
  destruct (fan_out_pms_ok _ from delivered r _ _ _ _ Hok Hpre1
              ltac:(intros x Hx; split; [by apply Hf2|intros d Hd; by apply Hdel]) Hpms Hall)
    as (news & _ & Hat & _ & Hpos).
  set (w1 := set_pms (fan_out_projections w r) pms').
  assert (∀ name y, projections w1 !! name = Some y → ∃ x, projections w !! name = Some x ∧
    any_projection_ok (log_of (client w)) y ∧ re_global_position r < any_projection_position y ∧
    any_projection_position x ≤ any_projection_position y) as Hps.
  { intros name y Hy. change (projections w1) with
      (fmap (M := gmap string) (any_apply_event r) (projections w)) in Hy.
    rewrite lookup_fmap in Hy. apply fmap_Some in Hy as (x & Hx & ->). exists x. split; [done|].
    eapply apply_event_ok; [done|exact Hpre1|by eapply Hf1| |by eapply Hproj].
    intros d Hd. by eapply Hdel. }
  split_and!.
  - split; [|by exists (zip_with app outs news)].
    intros name y Hy. by destruct (Hps name y Hy) as (x & _ & ? & _).
  - exists from, (delivered ++ [r]). split_and!.
    + simpl in Hpre. by rewrite <- (assoc_L (++)).
    + split; [intros name y Hy; destruct (Hps name y Hy) as (x & Hx & _ & _ & ?)|].
      * pose proof (Hf1 _ _ Hx). simpl in *. lia.
      * intros x Hx. refine (proj1 (Hpos (λ p, from ≤ p) Hf2 _ x Hx)). intros; simpl in *; lia.
    + intros d [Hd|Hd%list_elem_of_singleton]%elem_of_app.
      * destruct (Hdel d Hd) as [Hd1 Hd2].
        split; [intros name y Hy; destruct (Hps name y Hy) as (x & Hx & _ & _ & ?)|].
        { pose proof (Hd1 _ _ Hx). simpl in *. lia. }
        intros x Hx. refine (proj1 (Hpos (λ p, re_global_position d < p) Hd2 _ x Hx)).
        intros; simpl in *; lia.
      * subst d. split; [intros name y Hy; by destruct (Hps name y Hy) as (x & _ & _ & ? & _)|].
        intros x Hx. exact (proj2 (Hpos (λ _, True) ltac:(done) ltac:(done) x Hx)).
  - split; [intros name y Hy; by destruct (Hps name y Hy) as (x & _ & _ & ? & _)|].
    intros x Hx. exact (proj2 (Hpos (λ _, True) ltac:(done) ltac:(done) x Hx)).
  - intros n [Hn1 Hn2].
    split; [intros name y Hy; destruct (Hps name y Hy) as (x & Hx & _ & _ & ?)|].
    + pose proof (Hn1 _ _ Hx). simpl in *. lia.
    + intros x Hx. refine (proj1 (Hpos (λ p, n < p) Hn2 _ x Hx)). intros; simpl in *; lia.
Qed.

(** *** The steps *)

#[local] Instance live_log_preorder : PreOrder (λ s s' : Store, log_of s `prefix_of` log_of s').
Proof. split; [intros s; reflexivity|intros s1 s2 s3 H1 H2; by etrans]. Qed.

Lemma live_dispatch_frame (w w' : World) work r :
  live_dispatch w work = (w', r) → frame w w' ∧ log_of (client w) `prefix_of` log_of (client w').
Proof.
  unfold live_dispatch. destruct (route w work.1) as [w1 rr] eqn:Hr.
  apply (route_frame (λ s s', log_of s `prefix_of` log_of s')) in Hr as (Hf & _ & Hg);
    [|intros; by eapply append_log_grows|intros; by eapply read_log_grows].
  destruct rr as [[error|]|e|]; [|by intros [= <- <-]..].
  unfold dead_letter. destruct (append_dead_letter _ _ _ _ _) as [f dr].
  destruct dr; by intros [= <- <-].
Qed.

Lemma live_ok_saved (s : Live) : live_ok s → live_ok (saved s).
Proof. by intros [H1 H2 H3]. Qed.

Lemma live_ok_goto (s : Live) pc :
  live_ok s → match pc with Reading _ | Dispatching _ _ _ => False | _ => True end →
  live_ok (goto s pc).
Proof. intros [H1 H2 H3] Hpc. split; [done|done|]. simpl. by destruct pc. Qed.

Lemma step_top_ok (s : Live) : live_ok s → live_ok (step_top s).
Proof.
  intros Hs. unfold step_top.
  destruct (shutdown_signal (lv_cells s)); [apply live_ok_goto; [by apply live_ok_saved|done]|].
  destruct (subscribe_all_from _ _) as [c r] eqn:Hsub.
  pose proof (subscribe_grows _ _ _ _ Hsub) as Hg. destruct Hs as [H1 H2 H3].
  assert (runners_ok (set_client (lv_store s) c)) as Hr by (by apply (runners_ok_frame (lv_store s))).
  destruct r as [stream|e|]; (split; [exact Hr|exact H2|]); simpl; [|done..].
  exists (min_global_position (lv_store s)), []. split_and!; [by eapply subscribe_ok| |set_solver].
  apply (min_global_position_le (lv_store s)).
Qed.

(** An item that is no event changes nothing to a stream. *)
Lemma stream_ok_skip (w : World) (item : result SubscribeResponse Status) (stream : Items) :
  stream_events (item :: stream) = stream_events stream →
  stream_ok w (item :: stream) → stream_ok w stream.
Proof. unfold stream_ok. by intros ->. Qed.

Lemma step_reading_ok (s : Live) stream :
  live_ok s → lv_pc s = Reading stream → live_ok (step_reading s stream).
Proof.
  intros Hs Hpc. pose proof Hs as [H1 H2 H3]. rewrite Hpc in H3.
  destruct stream as [|[[[[r|]|]]|e|] stream]; unfold step_reading; cbn [sr_content].
  - by split.
  - destruct (fan_out (lv_store s) r) as [w work] eqn:Hf.
    destruct (fan_out_ok _ _ _ _ _ H1 H3 Hf) as (Hr & Hst & Hpos & Hmono).
    split; simpl; [done| |by split].
    destruct H2 as [?|H2]; [by left|right]. by apply Hmono.
  - split; [done|done|]. simpl. by refine (stream_ok_skip _ _ stream _ H3).
  - split; [done|done|]. simpl. by refine (stream_ok_skip _ _ stream _ H3).
  - apply live_ok_goto; [by apply live_ok_saved|done].
  - by apply live_ok_goto.
Qed.

Lemma step_dispatching_ok (s : Live) recorded work stream :
  live_ok s → lv_pc s = Dispatching recorded work stream →
  live_ok (step_dispatching s recorded work stream).
Proof.
  intros [H1 H2 H3] Hpc. rewrite Hpc in H3. destruct H3 as [Hst Hpos].
  unfold step_dispatching. destruct work as [|e work].
  - unfold send_position. split; simpl; [done| |done].
    destruct (receivers (lv_cells s) =? 0); [done|by right].
  - destruct (live_dispatch (lv_store s) e) as [w r] eqn:Hd.
    apply live_dispatch_frame in Hd as [(Hp & Hq & _) Hg].
    assert (runners_ok w) as Hr by (by apply (runners_ok_frame (lv_store s))).
    assert (position (lv_cells s) = 0 ∨ all_positions (λ p, position (lv_cells s) < p) w) as H2'.
    { destruct H2 as [?|?]; [by left|right]. by apply (all_positions_frame _ (lv_store s)). }
    destruct r as [[]|x|]; (split; [exact Hr|exact H2'|]); simpl; [|done..].
    split; [by apply (stream_ok_frame (lv_store s))|by apply (all_positions_frame _ (lv_store s))].
Qed.

Lemma after_sleep_ok (s : Live) : live_ok s → live_ok (after_sleep s).
Proof.
  intros [H1 H2 H3]. unfold after_sleep. by destruct (next_backoff _ _).
Qed.

Lemma live_ok_cells (s : Live) h :
  position h = position (lv_cells s) → live_ok s → live_ok (set_cells s h).
Proof. intros Hh [H1 H2 H3]. split; [done|simpl; by rewrite Hh|done]. Qed.

Lemma signal_shutdown_ok (s : Live) : live_ok s → live_ok (signal_shutdown s).
Proof. intros Hs. unfold signal_shutdown. destruct (lv_pc s); by try apply live_ok_cells. Qed.

Lemma live_next_ok (s s' : Live) l : live_ok s → live_next s l = Some s' → live_ok s'.
Proof.
  intros Hs. pose proof (live_ok_saved s Hs) as Hsv.
  unfold live_next. destruct l, (lv_pc s) as [| |stream|rec work stream| |r] eqn:Hpc;
    intros; simplify_eq;
    try (by apply signal_shutdown_ok); try (by apply live_ok_cells);
    try (by apply step_top_ok); try (by apply step_reading_ok);
    try (by apply step_dispatching_ok); try (by apply after_sleep_ok);
    try exact Hsv; try (by destruct Hs);
    try (case_match; simplify_eq; by apply live_ok_goto).
Qed.

Lemma live_run_ok (s s' : Live) ls : live_ok s → live_run s ls = Some s' → live_ok s'.
Proof.
  revert s; induction ls as [|l ls IH]; intros s Hs; simpl; [by intros [= <-]|].
  destruct (live_next s l) as [s1|] eqn:Hn; [|done]. apply IH. by eapply live_next_ok.
Qed.

(** *** Where the envelopes go *)

(** The envelopes waiting to be dispatched, and the one a step dispatches. *)
Definition pending (pc : Pc) : list CommandEnvelope :=
  match pc with Dispatching _ work _ => work.*1 | _ => [] end.
Definition routed_by (s : Live) (l : Label) : list CommandEnvelope :=
  match l, lv_pc s with LRun, Dispatching _ (e :: _) _ => [e.1] | _, _ => [] end.

(** The envelopes a run dispatches, in order. *)
Fixpoint routed (s : Live) (ls : list Label) : list CommandEnvelope :=
  match ls with
  | [] => []
  | l :: ls' =>
      match live_next s l with Some s' => routed_by s l ++ routed s' ls' | None => [] end
  end.

(** From [outs] on the process managers emit [news], one list each. *)
Definition emits (outs news : list (list CommandEnvelope)) (s : Live) : Prop :=
  length news = length outs ∧
  pms_at (log_of (client (lv_store s))) (process_managers (lv_store s)) (zip_with app outs news).

Lemma emits_nothing (s s' : Live) outs :
  process_managers (lv_store s') = process_managers (lv_store s) →
  log_of (client (lv_store s)) `prefix_of` log_of (client (lv_store s')) →
  pms_at (log_of (client (lv_store s))) (process_managers (lv_store s)) outs →
  ∃ news, emits outs news s' ∧ mjoin news = [].
Proof.
  intros Hp Hg Hat. exists (replicate (length outs) []). split; [split|].
  - apply length_replicate.
  - rewrite Hp, <- (Forall2_length _ _ _ Hat). apply pms_at_pad.
    by eapply pms_at_grow; [apply log_of_ok|exact Hg|].
  - clear. by induction outs.
Qed.

Lemma flatten_work_envelopes (work : list (list CommandEnvelope * path)) :
  (flatten_work work).*1 = mjoin work.*1.
Proof.
  unfold flatten_work. induction work as [|[envelopes p] work IH]; [done|]. simpl.
  rewrite fmap_app. f_equal; [|exact IH]. clear. induction envelopes; simpl; by f_equal.
Qed.

Lemma fan_out_emits (s : Live) stream r (w' : World) work outs :
  stream_ok (lv_store s) (event_item r :: stream) →
  pms_at (log_of (client (lv_store s))) (process_managers (lv_store s)) outs →
  fan_out (lv_store s) r = (w', work) →
  ∃ news, emits outs news (with_store s w') ∧ mjoin news = (flatten_work work).*1.
Proof.
  intros (from & delivered & Hpre & [_ Hf2] & Hdel) Hat Hfan. unfold fan_out in Hfan. simpl in Hfan.
  destruct (fan_out_pms _ r) as [pms' work'] eqn:Hall. simplify_eq.
  assert ((delivered ++ [r]) `prefix_of` events_from from (log_of (client (lv_store s)))) as Hpre1.
  { simpl in Hpre. rewrite cons_middle, (assoc_L (++)) in Hpre. by eapply prefix_app_l. }
  destruct (fan_out_pms_ok _ from delivered r _ _ _ _ (log_of_ok _) Hpre1
              ltac:(intros x Hx; split; [by apply Hf2|intros d Hd; by apply Hdel]) Hat Hall)
    as (news & Hlen & Hat' & Hw & _).
  exists news. rewrite flatten_work_envelopes. split; [|done].
  split; [|done]. by rewrite Hlen, (Forall2_length _ _ _ Hat).
Qed.

(** A step at which no process manager reacts; [lost] is what it drops. *)
#[local] Ltac quiet_step Hquiet Hpc lost :=
  apply (Hquiet lost); [done|done|unfold routed_by; simpl; rewrite ?Hpc; simpl; by rewrite ?app_nil_r|];
  first [by left | right; by eexists].

(** One step: what is dispatched, waits or is dropped was waiting or is new. *)
Lemma live_next_emits (s s' : Live) l outs :
  live_ok s → live_next s l = Some s' →
  pms_at (log_of (client (lv_store s))) (process_managers (lv_store s)) outs →
  ∃ news lost, emits outs news s' ∧
    routed_by s l ++ pending (lv_pc s') ++ lost = pending (lv_pc s) ++ mjoin news ∧
    (lost = [] ∨ ∃ r, lv_pc s' = Finished r).
Proof.
  intros [Hr _ H3] Hn Hat.
  assert (∀ lost, process_managers (lv_store s') = process_managers (lv_store s) →
    log_of (client (lv_store s)) `prefix_of` log_of (client (lv_store s')) →
    routed_by s l ++ pending (lv_pc s') ++ lost = pending (lv_pc s) →
    (lost = [] ∨ ∃ r, lv_pc s' = Finished r) →
    ∃ news lost, emits outs news s' ∧
      routed_by s l ++ pending (lv_pc s') ++ lost = pending (lv_pc s) ++ mjoin news ∧
      (lost = [] ∨ ∃ r, lv_pc s' = Finished r)) as Hquiet.
  { intros lost Hp Hg Heq Hlost. destruct (emits_nothing s s' outs Hp Hg Hat) as (news & He & Hj).
    exists news, lost. by rewrite Hj, app_nil_r. }
  unfold live_next, signal_shutdown in Hn.
  destruct l, (lv_pc s) as [| |str|rec work str| |r] eqn:Hpc; simplify_eq;
    try quiet_step Hquiet Hpc (@nil CommandEnvelope);
    try (destruct (shutdown_signal _); [|done]; simplify_eq;
         apply (Hquiet (pending (lv_pc s))); rewrite ?Hpc; [done|done|done|right; by eexists]).
  - unfold step_top in *. destruct (shutdown_signal _);
      [quiet_step Hquiet Hpc (@nil CommandEnvelope)|].
    destruct (subscribe_all_from _ _) as [c [str|e|]] eqn:Hsub; apply subscribe_grows in Hsub;
      quiet_step Hquiet Hpc (@nil CommandEnvelope).
  - unfold step_reading in *.
    destruct str as [|[[[[r|]|]]|e|] str]; cbn [sr_content] in *;
      try quiet_step Hquiet Hpc (@nil CommandEnvelope).
    destruct (fan_out (lv_store s) r) as [w work] eqn:Hf.
    destruct (fan_out_emits _ _ _ _ _ _ H3 Hat Hf) as (news & He & Hj).
    exists news, []. split; [exact He|]. unfold routed_by. rewrite Hpc, Hj. simpl.
    rewrite app_nil_r. split; [done|by left].
  - unfold step_dispatching in *. destruct work as [|e work].
    + quiet_step Hquiet Hpc (@nil CommandEnvelope).
    + destruct (live_dispatch (lv_store s) e) as [w dr] eqn:Hd.
      apply live_dispatch_frame in Hd as [(Hp & _) Hg].
      destruct dr as [[]|x|].
      * quiet_step Hquiet Hpc (@nil CommandEnvelope).
      * quiet_step Hquiet Hpc (work.*1).
      * quiet_step Hquiet Hpc (work.*1).
  - unfold after_sleep in *. destruct (next_backoff _ _);
      quiet_step Hquiet Hpc (@nil CommandEnvelope).
  - unfold after_sleep in *. destruct (next_backoff _ _);
      quiet_step Hquiet Hpc (@nil CommandEnvelope).
Qed.

Lemma live_run_finished (s s' : Live) ls r :
  lv_pc s = Finished r → live_run s ls = Some s' → lv_pc s' = Finished r.
Proof.
  revert s; induction ls as [|l ls IH]; intros s Hpc; simpl; [by intros [= <-]|].
  destruct (live_next s l) as [s1|] eqn:Hn; [|done]. apply IH.
  unfold live_next, signal_shutdown in Hn. rewrite Hpc in Hn. by destruct l; simplify_eq.
Qed.

Lemma mjoin_zip_app (l k : list (list CommandEnvelope)) :
  length l = length k → mjoin (zip_with app l k) ≡ₚ mjoin l ++ mjoin k.
Proof.
  revert k; induction l as [|x l IH]; intros [|y k] Hlen; simplify_eq/=; [done|].
  rewrite IH by done. solve_Permutation.
Qed.

Lemma zip_app_assoc (o l k : list (list CommandEnvelope)) :
  zip_with app (zip_with app o l) k = zip_with app o (zip_with app l k).
Proof.
  revert l k; induction o as [|x o IH]; intros [|y l] [|z k]; simpl; [done..|].
  by rewrite IH, (assoc_L (++)).
Qed.

Lemma live_run_emits (s s' : Live) ls outs :
  live_ok s → live_run s ls = Some s' →
  pms_at (log_of (client (lv_store s))) (process_managers (lv_store s)) outs →
  ∃ news lost, emits outs news s' ∧
    routed s ls ++ pending (lv_pc s') ++ lost ≡ₚ pending (lv_pc s) ++ mjoin news ∧
    (lost = [] ∨ ∃ r, lv_pc s' = Finished r).
Proof.
  revert s outs; induction ls as [|l ls IH]; intros s outs Hs; simpl.
  - intros [= <-] Hat. destruct (emits_nothing s s outs) as (news & He & Hj); [done..|].
    exists news, []. rewrite Hj. split_and!; [done|solve_Permutation|by left].
  - destruct (live_next s l) as [s1|] eqn:Hn; [|done]. intros Hrun Hat.
    destruct (live_next_emits _ _ _ _ Hs Hn Hat) as (n1 & lost1 & [Hl1 He1] & H1 & Hlost1).
    destruct (IH s1 _ (live_next_ok _ _ _ Hs Hn) Hrun He1)
      as (n2 & lost2 & [Hl2 He2] & H2 & Hlost2).
    rewrite length_zip_with, Hl1 in Hl2.
    exists (zip_with app n1 n2), (lost2 ++ lost1). split_and!.
    + split; [rewrite length_zip_with; lia|]. by rewrite <- zip_app_assoc.
    + rewrite mjoin_zip_app by lia. rewrite (assoc_L (++) (pending (lv_pc s))), <- H1, <- !(assoc_L (++)).
      rewrite (comm (++) lost1), (assoc_L (++) (pending (lv_pc s1))), <- H2. solve_Permutation.
    + destruct Hlost1 as [->|[r Hr]]; [by rewrite app_nil_r|right].
      exists r. by eapply live_run_finished.
Qed.

(** C8: exactly once, live.  From a store whose runners are at right
    checkpoints, in every state the loop can reach, however deliveries,
    dispatches, failures, reconnections, checkpoint ticks and the shutdown
    signal interleave: every projection is the fold of the log below its
    cursor; the process managers have emitted what their workflows emit for the
    log below their own, on top of [outs], and of these [news] the loop has
    routed each exactly once or has it still to route, none lost unless the loop has
    returned; and a published position is below every runner's cursor. *)
Theorem live_exactly_once (w : World) ls (s : Live) outs
    (Hproj : projections_ok w)
    (Hpms : pms_at (log_of (client w)) (process_managers w) outs)
    (Hrun : live_run (live_init w) ls = Some s) :
  projections_ok (lv_store s) ∧
  (∃ news lost, emits outs news s ∧
     routed (live_init w) ls ++ pending (lv_pc s) ++ lost ≡ₚ mjoin news ∧
     (lost = [] ∨ ∃ r, lv_pc s = Finished r)) ∧
  (position (lv_cells s) = 0 ∨
   all_positions (λ p, position (lv_cells s) < p) (lv_store s)).
Proof.
  assert (live_ok (live_init w)) as H0.
  { split; [split; [done|by exists outs]|by left|].
    unfold live_init; simpl. by destruct (_ =? 0). }
  destruct (live_run_emits _ _ _ _ H0 Hrun Hpms) as (news & lost & H1 & H2 & H3).
  apply live_run_ok in Hrun as [[H4 _] H5 _]; [|done].
  split_and!; [done| |done]. exists news, lost. split_and!; [done| |done].
  rewrite H2. unfold live_init; simpl. by destruct (_ =? 0).
Qed.

(** ** The loop and the function *)

(** Dispatching a work list is so many steps of the machine. *)
Lemma live_dispatch_all_run (w w' : World) cells b r work (stream : Items) res :
  live_dispatch_all w work = (w', res) →
  match res with
  | Ok _ => live_run (mk_Live w cells b (Dispatching r work stream))
              (replicate (length work) LRun)
            = Some (mk_Live w' cells b (Dispatching r [] stream))
  | _ => ∃ n s, live_run (mk_Live w cells b (Dispatching r work stream)) (replicate n LRun) = Some s ∧
           lv_pc s = Finished Panic
  end.
Proof.
  revert w; induction work as [|e work IH]; intros w; cbn [live_dispatch_all];
    [by intros [= <- <-]|].
  destruct (live_dispatch w e) as [w1 r1] eqn:Hd.
  assert (live_next (mk_Live w cells b (Dispatching r (e :: work) stream)) LRun =
          Some (match r1 with
                | Ok _ => mk_Live w1 cells b (Dispatching r work stream)
                | _ => mk_Live w1 cells b (Finished Panic)
                end)) as Hstep.
  { cbn [live_next lv_pc]. unfold step_dispatching. cbn [lv_store]. rewrite Hd. by destruct r1. }
  destruct r1 as [[]|x|].
  - intros Hall. specialize (IH _ Hall). destruct res as [[]|y|];
      [cbn [length replicate live_run]; by rewrite Hstep|..];
      destruct IH as (n & s & Hrun & Hs); exists (Datatypes.S n), s; (split; [|done]);
      cbn [replicate live_run]; by rewrite Hstep.
  - intros [= <- <-]. exists 1%nat. eexists. cbn [replicate live_run]. by rewrite Hstep.
  - intros [= <- <-]. exists 1%nat. eexists. cbn [replicate live_run]. by rewrite Hstep.
Qed.

Lemma live_run_app (s : Live) l1 l2 :
  live_run s (l1 ++ l2) = match live_run s l1 with Some s' => live_run s' l2 | None => None end.
Proof.
  revert s; induction l1 as [|l l1 IH]; intros s; simpl; [done|].
  by destruct (live_next s l).
Qed.

(** C21: the state machine refines the code.  Run without interruption from the
    point where a subscription was established, it passes through the state
    [process_stream_with_dispatch] ends in, with the same store and the same
    shared cells, and waits there for the end of the stream or the error the
    function returned; if the function panics, so does the loop. *)
Theorem live_refines_process_stream (w w' : World) cells cells' b (stream : Items) res
    (Hps : process_stream_with_dispatch w cells stream = (w', cells', res)) :
  ∃ n s, live_run (mk_Live w cells b (Reading stream)) (replicate n LRun) = Some s ∧
    match res with
    | Ok Ended => s = mk_Live w' cells' b (Reading [])
    | Ok (StreamError e) => ∃ st rest, s = mk_Live w' cells' b (Reading (Err st :: rest)) ∧
                              e = io_other ("subscribe stream error: " ++ status_display st)
    | _ => lv_pc s = Finished Panic
    end.
Proof.
  revert w cells Hps; induction stream as [|[[[[r|]|]]|e|] stream IH]; intros w cells; simpl.
  - intros [= <- <- <-]. by exists 0%nat, (mk_Live w cells b (Reading [])).
  - destruct (fan_out w r) as [w1 work] eqn:Hf.
    destruct (live_dispatch_all w1 (flatten_work work)) as [w2 dr] eqn:Hd.
    assert (live_next (mk_Live w cells b (Reading (event_item r :: stream))) LRun =
            Some (mk_Live w1 cells b (Dispatching r (flatten_work work) stream))) as Hstep.
    { cbn [live_next lv_pc]. unfold step_reading, event_item. cbn [sr_content lv_store].
      by rewrite Hf. }
    apply (live_dispatch_all_run _ _ cells b r _ stream) in Hd. destruct dr as [[]|x|].
    + intros Hps. destruct (IH _ _ Hps) as (n & s & Hrun & Hs).
      exists (Datatypes.S (length (flatten_work work)) + (Datatypes.S n))%nat, s.
      split; [|exact Hs]. rewrite replicate_add, live_run_app.
      cbn [replicate live_run]. unfold event_item in Hstep. rewrite Hstep, Hd. exact Hrun.
    + intros [= <- <- <-]. destruct Hd as (n & s & Hrun & Hs).
      exists (Datatypes.S n), s. split; [|done]. cbn [replicate live_run].
      unfold event_item in Hstep. by rewrite Hstep.
    + intros [= <- <- <-]. destruct Hd as (n & s & Hrun & Hs).
      exists (Datatypes.S n), s. split; [|done]. cbn [replicate live_run].
      unfold event_item in Hstep. by rewrite Hstep.
  - intros Hps. destruct (IH _ _ Hps) as (n & s & Hrun & Hs). by exists (Datatypes.S n), s.
  - intros Hps. destruct (IH _ _ Hps) as (n & s & Hrun & Hs). by exists (Datatypes.S n), s.
  - intros [= <- <- <-]. exists 0%nat. eexists. split; [done|]. by exists e, stream.
  - intros [= <- <- <-]. by exists 1%nat, (mk_Live w cells b (Finished Panic)).
Qed.

(** ** Retries and shutdown *)

Definition backoff_ok (c : LiveConfig) (s : Live) : Prop :=
  live_config (lv_store s) = c ∧
  lv_backoff s ≤ N.max (reconnect_base_delay c) (reconnect_max_delay c).

Lemma next_backoff_spec c d :
  d * 2 ≤ DURATION_MAX →
  next_backoff c d = Ok (N.min (d * 2) (reconnect_max_delay c)).
Proof. intros H. unfold next_backoff, duration_mul. rewrite (proj2 (N.leb_le _ _) H). done. Qed.

Lemma next_backoff_Ok c d d' :
  next_backoff c d = Ok d' → d' ≤ reconnect_max_delay c.
Proof.
  unfold next_backoff. destruct (duration_mul d 2); simpl; [|done..]. intros [= <-]. lia.
Qed.

Lemma live_next_backoff_ok c (s s' : Live) l :
  backoff_ok c s → live_next s l = Some s' → backoff_ok c s'.
Proof.
  intros [Hc Hb].
  assert (backoff_ok c (saved s)) as Hsaved by done.
  assert (backoff_ok c (step_top s)) as Htop.
  { unfold step_top. destruct (shutdown_signal _); [done|].
    by destruct (subscribe_all_from _ _) as [c' []]. }
  assert (backoff_ok c (after_sleep s)) as Hsleep.
  { unfold after_sleep. destruct (next_backoff _ _) as [d|x|] eqn:Hd; [|done..].
    split; [done|]. apply next_backoff_Ok in Hd. rewrite Hc in Hd. simpl. lia. }
  assert (∀ stream, backoff_ok c (step_reading s stream)) as Hread.
  { intros [|[[[[r|]|]]|e|] stream]; unfold step_reading; cbn [sr_content]; try done.
    - split; [done|]. simpl. destruct (caught_up _); [rewrite Hc; lia|done].
    - unfold fan_out. by destruct (fan_out_pms _ _). }
  assert (∀ r work stream, backoff_ok c (step_dispatching s r work stream)) as Hdisp.
  { intros r [|e work] stream; unfold step_dispatching; [done|].
    destruct (live_dispatch (lv_store s) e) as [w dr] eqn:Hd.
    apply live_dispatch_frame in Hd as [(_ & _ & _ & _ & Hcfg & _) _].
    destruct dr; (split; [simpl; congruence|done]). }
  assert (backoff_ok c (signal_shutdown s)) as Hsignal
    by (unfold signal_shutdown; by destruct (lv_pc s)).
  unfold live_next. destruct l, (lv_pc s); intros; simplify_eq; try done;
    case_match; by simplify_eq.
Qed.

Lemma live_run_backoff_ok c (s s' : Live) ls :
  backoff_ok c s → live_run s ls = Some s' → backoff_ok c s'.
Proof.
  revert s; induction ls as [|l ls IH]; intros s Hs; simpl; [by intros [= <-]|].
  destruct (live_next s l) as [s1|] eqn:Hn; [|done]. apply IH. by eapply live_next_backoff_ok.
Qed.

(** The retry delay stays bounded.  In every reachable state it is at most
    the larger of the two configured delays, and, as long as twice that is a
    representable duration, waking up from a retry never panics: it doubles
    the delay up to the maximum and goes back to subscribing. *)
Lemma backoff_bounded (w : World) ls (s : Live)
    (Hrun : live_run (live_init w) ls = Some s) :
  let c := live_config w in
  lv_backoff s ≤ N.max (reconnect_base_delay c) (reconnect_max_delay c) ∧
  (N.max (reconnect_base_delay c) (reconnect_max_delay c) * 2 ≤ DURATION_MAX →
   lv_pc s = SubscribeBackoff ∨ lv_pc s = ErrorBackoff →
   live_next s LSleep = Some (mk_Live (lv_store s) (lv_cells s)
                                (N.min (lv_backoff s * 2) (reconnect_max_delay c)) Top)).
Proof.
  apply (live_run_backoff_ok (live_config w)) in Hrun as [Hc Hb];
    [|split; [done|simpl; lia]].
  split; [done|]. intros Hmax Hpc.
  assert (live_next s LSleep = Some (after_sleep s)) as ->.
  { unfold live_next. by destruct Hpc as [->| ->]. }
  unfold after_sleep. rewrite Hc, next_backoff_spec; [done|lia].
Qed.

(** Shutdown is always possible.  From every state in which the loop has
    not returned, once the signal is sent one more step of the loop returns
    [Ok]; and unless it was sleeping after a stream error (where everything had
    been saved before), it saves every checkpoint on the way. *)
Lemma shutdown_terminates (s : Live) (Hrunning : ∀ r, lv_pc s ≠ Finished r) :
  ∃ l s', live_run s [LSignal; l] = Some s' ∧ lv_pc s' = Finished (Ok ()) ∧
    (lv_pc s ≠ ErrorBackoff → lv_store s' = save_all_checkpoints (lv_store s)).
Proof.
  destruct (lv_pc s) as [| |stream|r work stream| |r] eqn:Hpc;
    [exists LRun|exists LStop..|by destruct (Hrunning r)];
    eexists; simpl; unfold signal_shutdown; rewrite Hpc; simpl; rewrite Hpc; done.
Qed.

(** *** The position channel *)

Definition unobserved (p : N) (s : Live) : Prop :=
  receivers (lv_cells s) = 0 ∧ position (lv_cells s) = p.

Lemma live_next_unobserved p (s s' : Live) l :
  l ≠ LSubscribe → unobserved p s → live_next s l = Some s' → unobserved p s'.
Proof.
  intros Hl [Hr Hp].
  assert (unobserved p (signal_shutdown s)) as Hsignal
    by (unfold signal_shutdown; by destruct (lv_pc s)).
  assert (unobserved p (step_top s)) as Htop.
  { unfold step_top. destruct (shutdown_signal _); [done|].
    by destruct (subscribe_all_from _ _) as [c' []]. }
  assert (unobserved p (after_sleep s)) as Hsleep
    by (unfold after_sleep; by destruct (next_backoff _ _)).
  assert (∀ stream, unobserved p (step_reading s stream)) as Hread.
  { intros [|[[[[r|]|]]|e|] stream]; unfold step_reading; cbn [sr_content]; try done.
    unfold fan_out. by destruct (fan_out_pms _ _). }
  assert (∀ r work stream, unobserved p (step_dispatching s r work stream)) as Hdisp.
  { intros r [|e work] stream; unfold step_dispatching.
    - unfold send_position, unobserved. rewrite Hr. done.
    - by destruct (live_dispatch (lv_store s) e) as [w []]. }
  assert (unobserved p (set_cells s (drop_receiver (lv_cells s)))) as Hdrop.
  { split; [simpl; by rewrite Hr|done]. }
  unfold live_next. destruct l, (lv_pc s); intros; simplify_eq; try done;
    case_match; by simplify_eq.
Qed.

(** Positions nobody listens to are not kept.  While the position channel
    has no receiver, the loop may process any number of events, reconnect,
    checkpoint or stop, and the position the channel holds stays the one it
    had: a subscriber that comes later reads the stale value, not that of the
    last processed event. *)
Lemma position_stale_without_receiver (s s' : Live) ls
    (Hnone : receivers (lv_cells s) = 0) (Hls : LSubscribe ∉ ls)
    (Hrun : live_run s ls = Some s') :
  position (lv_cells s') = position (lv_cells s) ∧
  position (subscribe (lv_cells s')) = position (lv_cells s).
Proof.
  assert (unobserved (position (lv_cells s)) s') as [_ H]; [|by rewrite <- H].
  assert (unobserved (position (lv_cells s)) s) as Hs by done. revert Hs Hls Hrun.
  generalize (position (lv_cells s)) as p. clear Hnone. intros p. revert s.
  induction ls as [|l ls IH]; intros s Hs Hls; simpl; [by intros [= <-]|].
  apply not_elem_of_cons in Hls as [Hl Hls].
  destruct (live_next s l) as [s1|] eqn:Hn; [|done]. apply IH; [|done].
  eapply live_next_unobserved; [|exact Hs|exact Hn]. done.
Qed.
End live_facts.

(** ** Witnesses *)

Lemma demo_world_runners c : runners_ok (demo_world c).
Proof. split; [apply demo_world_projections_ok|]. exists [[]]. apply demo_world_pms. Qed.

Lemma live_exactly_once_witness :
  match live_run (live_init (demo_world (two_events [])))
          [LRun; LRun; LTick; LRun; LRun; LRun; LRun; LRun] with
  | Some s => lv_pc s = Reading [Ok (mk_SubscribeResponse (Some CaughtUp))] ∧ ∃ news,
      emits [[]] news s ∧ length (mjoin news) = 2%nat
  | None => False
  end.
Proof.
  set (ls := [LRun; LRun; LTick; LRun; LRun; LRun; LRun; LRun]).
  assert (match live_run (live_init (demo_world (two_events []))) ls with
          | Some s => lv_pc s = Reading [Ok (mk_SubscribeResponse (Some CaughtUp))] | None => False end) as Hrun
    by (vm_compute; reflexivity).
  assert (length (routed (live_init (demo_world (two_events []))) ls) = 2%nat) as Hrouted
    by (vm_compute; reflexivity).
  destruct (live_run _ _) as [s|] eqn:H; [|done]. split; [exact Hrun|].
  destruct (live_exactly_once (demo_world (two_events [])) ls s [[]]
              (proj1 (demo_world_runners _)) (demo_world_pms _ _) H)
    as (_ & (news & lost & He & Hp & Hl) & _).
  exists news. split; [exact He|]. rewrite <- Hp, Hrun. simpl.
  destruct Hl as [->|[r Hr]]; [|congruence]. by rewrite app_nil_r.
Defined.

(** The items the demonstration event store delivers from the start. *)
Definition demo_stream : list (result SubscribeResponse Status) :=
  match subscribe_all_from (two_events []) 0 with (_, Ok items) => items | _ => [] end.

Lemma live_refines_process_stream_witness :
  match process_stream_with_dispatch (demo_world (two_events [])) LiveHandle_new demo_stream with
  | (w', cells', Ok Ended) =>
      cells' = mk_LiveHandle false true 1 1 ∧
      ∃ n, live_run (mk_Live (demo_world (two_events [])) LiveHandle_new 1 (Reading demo_stream))
             (replicate n LRun) = Some (mk_Live w' cells' 1 (Reading []))
  | _ => False
  end.
Proof.
  assert (match process_stream_with_dispatch (demo_world (two_events [])) LiveHandle_new demo_stream with
          | (_, cells', Ok Ended) => cells' = mk_LiveHandle false true 1 1
          | _ => False end) as Hrun by (vm_compute; reflexivity).
  destruct (process_stream_with_dispatch _ _ _) as [[w' cells'] [[|e]|e|]] eqn:H; [|done..].
  split; [exact Hrun|].
  destruct (live_refines_process_stream (demo_world (two_events [])) w' LiveHandle_new cells' 1
              demo_stream (Ok Ended) H) as (n & s & Hn & Hs).
  exists n. rewrite <- Hs. exact Hn.
Defined.

(** ** An interrupted dispatch *)

