(* ===== verification/LocksFacts.v ===== *)
(** Theorems about [Locks]: who can be waiting for whom, the one way in which
    the live loop and its callers can wait for each other for ever, and what
    becomes of the envelopes when the pull functions and the live loop share the
    process managers. *)
From S2P Require Import Prelude Std Deps Command Errors Aggregate Proto Event EventStore.
From S2P Require Import Client Snapshot Actor Cursor Projection ProcessManager LiveTypes Store.
From S2P Require Import Live Locks Codec Demo DemoApp EventFacts ClientFacts DiskFacts ActorFacts.
From S2P Require Import ProjectionFacts ProcessManagerFacts StoreFacts LiveFacts.
Open Scope N_scope.

#[local] Arguments save_one : simpl never.
#[local] Arguments fan_out_one : simpl never.

(** ** Queues *)

(** [seat] says in whose queue an owner is, [hold] whose mutex it holds across
    an await. *)
Record fits (m : Mutexes) (seat hold : Owner → option Key) : Prop := {
  fits_seat key o : o ∈ queue m key ↔ seat o = Some key;
  fits_nodup key : NoDup (queue m key);
  fits_hold key o : hold o = Some key → head (queue m key) = Some o;
}.

Definition seat_at (seat : Owner → option Key) (o : Owner) (x : option Key) : Owner → option Key :=
  λ o', if decide (o' = o) then x else seat o'.

Lemma seat_at_self seat o x : seat_at seat o x o = x.
Proof. unfold seat_at. by rewrite decide_True. Qed.

Lemma queue_enqueue m key o key' :
  queue (enqueue m key o) key' = if decide (key' = key) then queue m key ++ [o] else queue m key'.
Proof.
  unfold enqueue, queue at 1. case_decide as H; [subst; by rewrite lookup_insert_eq|].
  by rewrite lookup_insert_ne.
Qed.

Lemma queue_release m key key' :
  queue (release m key) key' = if decide (key' = key) then tail (queue m key) else queue m key'.
Proof.
  unfold release, queue at 1. case_decide as H; [subst; by rewrite lookup_insert_eq|].
  by rewrite lookup_insert_ne.
Qed.

Lemma queue_forget o m key : queue (forget o m) key = filter (λ o', o' ≠ o) (queue m key).
Proof. unfold forget, queue. rewrite lookup_fmap. by destruct (m !! key). Qed.

Lemma fits_ext m seat hold seat' hold' :
  (∀ o, seat' o = seat o) → (∀ o, hold' o = hold o) → fits m seat hold → fits m seat' hold'.
Proof.
  intros Hs Hh [H1 H2 H3]. split; [|done|].
  - intros key o. by rewrite Hs.
  - intros key o. rewrite Hh. apply H3.
Qed.

Lemma fits_enqueue m seat hold key o x :
  fits m seat hold → seat o = None → hold o = None →
  (x = None ∨ x = Some key ∧ queue m key = []) →
  fits (enqueue m key o) (seat_at seat o (Some key)) (seat_at hold o x).
Proof.
  intros [H1 H2 H3] Hs Hh Hx. unfold seat_at. split.
  - intros key' o'. rewrite queue_enqueue.
    destruct (decide (key' = key)) as [->|Hne].
    + rewrite elem_of_app, list_elem_of_singleton, H1.
      destruct (decide (o' = o)) as [->|Ho]; [by rewrite Hs; naive_solver|naive_solver].
    + rewrite H1. destruct (decide (o' = o)) as [->|Ho]; [rewrite Hs; naive_solver|done].
  - intros key'. rewrite queue_enqueue. case_decide; [|done]. subst.
    apply NoDup_app. split_and!; [done| |apply NoDup_singleton].
    intros o' Ho' ->%list_elem_of_singleton. apply H1 in Ho'. congruence.
  - intros key' o'. rewrite queue_enqueue. destruct (decide (o' = o)) as [->|Ho].
    + intros ->. destruct Hx as [?|[[= ->] Hq]]; [done|]. by rewrite decide_True, Hq.
    + intros Hk%H3. case_decide; [subst|done]. destruct (queue m key); [done|by simplify_eq/=].
Qed.

Lemma fits_release m seat hold key o :
  fits m seat hold → head (queue m key) = Some o →
  fits (release m key) (seat_at seat o None) (seat_at hold o None).
Proof.
  intros [H1 H2 H3] Hq. destruct (queue m key) as [|o1 q] eqn:Hqk; [done|]. simplify_eq/=.
  pose proof (H2 key) as Hnd. rewrite Hqk in Hnd. apply NoDup_cons in Hnd as [Hni Hnd].
  unfold seat_at. split.
  - intros key' o'. rewrite queue_release, Hqk. simpl.
    pose proof (H1 key) as Hk. rewrite Hqk in Hk.
    assert (seat o = Some key) as Hso by (apply Hk; left).
    destruct (decide (key' = key)) as [->|Hne], (decide (o' = o)) as [->|Ho].
    + by split.
    + rewrite <-Hk, elem_of_cons. split; [by right|by intros [|]].
    + rewrite H1. split; congruence.
    + apply H1.
  - intros key'. rewrite queue_release, Hqk. by case_decide.
  - intros key' o'. rewrite queue_release, Hqk. destruct (decide (o' = o)); [done|].
    intros Hk%H3. case_decide; [subst|done]. rewrite Hqk in Hk. by simplify_eq/=.
Qed.

Lemma fits_forget m seat hold o :
  fits m seat hold → fits (forget o m) (seat_at seat o None) (seat_at hold o None).
Proof.
  intros [H1 H2 H3]. unfold seat_at. split.
  - intros key o'. rewrite queue_forget, list_elem_of_filter, H1.
    destruct (decide (o' = o)); naive_solver.
  - intros key. rewrite queue_forget. by apply NoDup_filter.
  - intros key o'. rewrite queue_forget. destruct (decide (o' = o)); [done|]. intros Hk%H3.
    destruct (queue m key) as [|o1 q]; [done|]. simplify_eq/=. by rewrite filter_cons_True.
Qed.

(** What an attempt says of the queue. *)
Lemma attempt_cases (m : Mutexes) key o queued :
  match attempt m key o queued with
  | Acquired => if queued then head (queue m key) = Some o else queue m key = []
  | Enqueued => queued = false ∧ queue m key ≠ []
  | Blocked => queued = true ∧ head (queue m key) ≠ Some o
  end.
Proof.
  unfold attempt. destruct (queue m key) as [|o' q], queued; simpl; try done.
  case_decide; subst; [done|]. split; [done|congruence].
Qed.

(** The three ways an attempt goes, and the section that follows. *)
Lemma fits_passed m seat hold key o (queued : bool) :
  fits m seat hold → seat o = (if queued then Some key else None) → hold o = None →
  attempt m key o queued = Acquired →
  fits (passed m key queued) (seat_at seat o None) (seat_at hold o None).
Proof.
  intros Hf Hs Hh Ha. pose proof (attempt_cases m key o queued) as Hc. rewrite Ha in Hc.
  unfold passed. destruct queued; [by apply fits_release|].
  eapply fits_ext, Hf; intros o'; unfold seat_at; by case_decide; subst.
Qed.

Lemma fits_entered m seat hold key o (queued : bool) :
  fits m seat hold → seat o = (if queued then Some key else None) → hold o = None →
  attempt m key o queued = Acquired →
  fits (if queued then m else enqueue m key o) (seat_at seat o (Some key))
    (seat_at hold o (Some key)).
Proof.
  intros Hf Hs Hh Ha. pose proof (attempt_cases m key o queued) as Hc. rewrite Ha in Hc.
  destruct queued; [|apply fits_enqueue; auto].
  destruct Hf as [H1 H2 H3]. unfold seat_at. split; [|done|].
  - intros key' o'. rewrite H1. case_decide; [subst; by rewrite Hs|done].
  - intros key' o'. case_decide; [intros [= ->]; by subst|apply H3].
Qed.

Lemma fits_waits m seat hold key o (queued : bool) :
  fits m seat hold → seat o = (if queued then Some key else None) → hold o = None →
  attempt m key o queued = Enqueued →
  fits (enqueue m key o) (seat_at seat o (Some key)) (seat_at hold o None).
Proof.
  intros Hf Hs Hh Ha. pose proof (attempt_cases m key o queued) as Hc. rewrite Ha in Hc.
  destruct Hc as [-> _]. apply fits_enqueue; auto.
Qed.

Section locks_facts.
Context {J : SerdeJson} {U : UuidOps} {T : Tonic}.
Context {Store : Type} {ES : EventStoreOps Store} {EL : EventLogOps Store}.
Context {F : Type} {FS : FileSystem F} {FL : FileSystemLaws F} {SD : Serde DeadLetterEntry}.
Context {TypeId : Type} `{!EqDecision TypeId, !Countable TypeId}.
Context {Agg : TypeId → Type} {AG : ∀ t, Aggregate (Agg t)}.
Context {CD : ∀ t, CommandDe (Agg t)} {SA : ∀ t, Serde (Snapshot (Agg t))}.
Context {ProjId : Type} `{!EqDecision ProjId}.
Context {Proj : ProjId → Type} {PJ : ∀ p, Projection (Proj p)}.
Context {SP : ∀ p, Serde (ProjectionCheckpoint (Proj p))}.
Context {PmId : Type} {Pm : PmId → Type} {PMC : ∀ q, ProcessManager (Pm q)}.
Context {SM : ∀ q, Serde (ProcessManagerCheckpoint (Pm q))}.

Abbreviation World := (AggregateStore (Store := Store) (F := F) (TypeId := TypeId)
  (Agg := Agg) (ProjId := ProjId) (Proj := Proj) (PmId := PmId) (Pm := Pm)).
Abbreviation Locks := (Locks (Store := Store) (F := F) (TypeId := TypeId)
  (Agg := Agg) (ProjId := ProjId) (Proj := Proj) (PmId := PmId) (Pm := Pm)).
Abbreviation CallPc := (CallPc (Proj := Proj)).

(** ** Who sits where *)

(** The mutex a call waits for or holds; the one it holds across an await. *)
Definition call_key (pc : CallPc) : option Key :=
  match pc with
  | ProjectionLocking p true | ProjectionHolding p | StateLocking p true =>
      Some (KProj (PROJ_NAME (Proj p)))
  | CatchUpLocking i true _ | CatchUpHolding i _ | SaveLocking i true _ => Some (KPm i)
  | _ => None
  end.
Definition call_holds (pc : CallPc) : option Key :=
  match pc with
  | ProjectionHolding p => Some (KProj (PROJ_NAME (Proj p)))
  | CatchUpHolding i _ => Some (KPm i)
  | _ => None
  end.
Definition stream_key (sp : StreamPc) : option Key :=
  match sp with SFanOut _ keys true _ _ => head keys | _ => None end.
Definition loop_key (pc : LoopPc) : option Key :=
  match pc with
  | LMinimum keys true _ | LStreaming _ (Some (keys, true, _)) | LSaving keys true _ => head keys
  | _ => None
  end.

Definition seat (pc : LoopPc) (calls : list CallPc) (o : Owner) : option Key :=
  match o with
  | OCall k => calls !! k ≫= call_key
  | OStream => match pc with LStreaming sp _ => stream_key sp | _ => None end
  | OLoop => loop_key pc
  end.
Definition hold (calls : list CallPc) (o : Owner) : option Key :=
  match o with OCall k => calls !! k ≫= call_holds | _ => None end.

(** The process manager of a call in [CatchUpLocking], [CatchUpHolding] or
    [SaveLocking] exists. *)
Definition in_range (w : World) (pc : CallPc) : Prop :=
  match call_key pc with Some (KPm i) => (i < length (process_managers w))%nat | _ => True end.

Record seated (s : Locks) : Prop := {
  se_fits : fits (lk_mutexes s) (seat (lk_loop s) (lk_calls s)) (hold (lk_calls s));
  se_range k pc : lk_calls s !! k = Some pc → in_range (lk_store s) pc;
}.

Lemma call_holds_key pc key : call_holds pc = Some key → call_key pc = Some key.
Proof. by destruct pc. Qed.

(** ** Process managers come and go with nobody *)

Definition same_count (w w' : World) : Prop :=
  length (process_managers w') = length (process_managers w).

#[local] Instance no_relation : PreOrder (λ _ _ : Store, True).
Proof. by split. Qed.

Lemma frame_same_count (w w' : World) : frame w w' → same_count w w'.
Proof. by intros (Hp & _); unfold same_count; rewrite Hp. Qed.

Lemma dead_letter_frame (w w' : World) p e x r : dead_letter w p e x = (w', r) → frame w w'.
Proof. unfold dead_letter. destruct (append_dead_letter _ _ _ _ _). by intros [= <- <-]. Qed.

Lemma dispatch_one_frame_of (R : Store → Store → Prop) `{!PreOrder R} (w w' : World) e report r :
  (∀ s sid x evs s' r, append s sid x evs = (s', r) → R s s') →
  (∀ s sid from max s' r, read_stream s sid from max = (s', r) → R s s') →
  dispatch_one w e report = (w', r) → frame w w' ∧ R (client w) (client w').
Proof.
  intros Ha Hr. unfold dispatch_one. destruct (route w e.1) as [w1 rr] eqn:Hroute.
  apply (route_frame R) in Hroute as (Hf & _ & Hg); [|done..].
  destruct rr as [[error|]|x|]; [|by intros [= <- <-]..].
  unfold dead_letter. destruct (append_dead_letter _ _ _ _ _) as [f [|x|]]; by intros [= <- <-].
Qed.

Lemma live_dispatch_frame_of (R : Store → Store → Prop) `{!PreOrder R} (w w' : World) e r :
  (∀ s sid x evs s' r, append s sid x evs = (s', r) → R s s') →
  (∀ s sid from max s' r, read_stream s sid from max = (s', r) → R s s') →
  live_dispatch w e = (w', r) → frame w w' ∧ R (client w) (client w').
Proof.
  intros Ha Hr. unfold live_dispatch. destruct (route w e.1) as [w1 rr] eqn:Hroute.
  apply (route_frame R) in Hroute as (Hf & _ & Hg); [|done..].
  destruct rr as [[error|]|x|]; [|by intros [= <- <-]..].
  unfold dead_letter. destruct (append_dead_letter _ _ _ _ _) as [f [|x|]]; by intros [= <- <-].
Qed.

Lemma projection_same_count (w w' : World) p r : projection w p = (w', r) → same_count w w'.
Proof.
  unfold projection. destruct (projections w !! _) as [[p' x]|]; [|by intros [= <- <-]].
  destruct (catch_up _ _ x) as [[[s f] x'] [[]|e|]]; [destruct (downcast _ p)|..];
    by intros [= <- <-].
Qed.

Lemma set_pm_same_count (w : World) s i x : same_count w (set_pm (set_client w s) i x).
Proof. apply length_insert. Qed.

Lemma catch_up_one_same_count (w w' : World) i r : catch_up_one w i = (w', r) → same_count w w'.
Proof.
  unfold catch_up_one. destruct (process_managers w !! i) as [[q pm]|]; [|by intros [= <- <-]].
  destruct (pm_catch_up _ pm) as [[s pm1] pr]. intros [= <- _]. apply set_pm_same_count.
Qed.

Lemma save_one_frame (w w' : World) key r :
  save_one w key = (w', r) → frame w w' ∧ client w' = client w.
Proof.
  unfold save_one. destruct key as [name|i].
  - destruct (projections w !! name) as [[p x]|]; [|by intros [= <- <-]].
    destruct (runner_save _ x) as [f fr]. by intros [= <- <-].
  - destruct (process_managers w !! i) as [[q x]|]; [|by intros [= <- <-]].
    destruct (pm_save _ x) as [f fr]. by intros [= <- <-].
Qed.

Lemma fan_out_one_same_count (w w' : World) key r new :
  fan_out_one w key r = (w', new) → same_count w w'.
Proof.
  unfold fan_out_one. destruct key as [name|i]; [by intros [= <- <-]|].
  destruct (process_managers w !! i) as [[q pm]|]; [|by intros [= <- <-]].
  destruct (react_event pm r) as [pm1 envelopes]. intros [= <- _]. apply length_insert.
Qed.

Lemma drop_in_catch_up_same_count (w : World) (pc : CallPc) n :
  same_count w (drop_in_catch_up w pc n).
Proof.
  destruct pc; simpl; try done.
  - destruct (projections w !! _) as [[p' x]|]; [|done].
    by destruct (subscribe_all_from _ _) as [s [str|e|]].
  - destruct (process_managers w !! _) as [[q x]|]; [|done].
    destruct (subscribe_all_from _ _) as [s [str|e|]]; [apply set_pm_same_count|done..].
Qed.

Lemma same_count_range (w w' : World) pc : same_count w w' → in_range w pc → in_range w' pc.
Proof. unfold in_range. intros ->. done. Qed.

(** ** The steps keep everybody in his seat *)

(** A call that was suspended at a lock goes through it: to where it holds the
    mutex, past its critical section, or into the queue. *)
Lemma call_turn_fits (w w' : World) m m' seat hold k pc pc' h :
  fits m seat hold → seat (OCall k) = call_key pc → hold (OCall k) = call_holds pc →
  in_range w pc → call_turn w m k pc = Some (w', m', pc', h) →
  fits m' (seat_at seat (OCall k) (call_key pc')) (seat_at hold (OCall k) (call_holds pc')) ∧
  same_count w w' ∧ in_range w' pc'.
Proof.
  intros Hf Hs Hh Hr.
  assert (∀ x y, seat (OCall k) = x → hold (OCall k) = y →
                 fits m (seat_at seat (OCall k) x) (seat_at hold (OCall k) y)) as Hstay.
  { intros x y <- <-. eapply fits_ext, Hf; intros o; unfold seat_at; by case_decide; subst. }
  assert (∀ key, call_holds pc = Some key →
                 fits (release m key) (seat_at seat (OCall k) None) (seat_at hold (OCall k) None))
    as Hrel.
  { intros key Hk. apply fits_release; [done|]. apply (fits_hold _ _ _ Hf). by rewrite Hh. }
  destruct pc as [p queued|p|p queued|i queued work|i work|work report|i queued report|o];
    simpl in *; try done.
  - destruct (attempt m _ _ queued) eqn:Ha; intros; simplify_eq; (split; [|done]); simpl.
    + by eapply fits_entered; [..|exact Ha]; [|destruct queued|].
    + by eapply fits_waits; [..|exact Ha]; [|destruct queued|].
  - destruct (projection w p) as [w1 r] eqn:Hp. intros; simplify_eq.
    split; [by apply Hrel|]. split; [by eapply projection_same_count|done].
  - destruct (attempt m _ _ queued) eqn:Ha; intros; simplify_eq; (split; [|done]); simpl.
    + by eapply fits_passed; [..|exact Ha]; [|destruct queued|].
    + by eapply fits_waits; [..|exact Ha]; [|destruct queued|].
  - case_decide as Hi.
    + destruct (attempt m _ _ queued) eqn:Ha; intros; simplify_eq; (split; [|done]); simpl.
      * by eapply fits_entered; [..|exact Ha]; [|destruct queued|].
      * by eapply fits_waits; [..|exact Ha]; [|destruct queued|].
    + intros; simplify_eq. destruct queued; [by unfold in_range in Hr|]. by split; [apply Hstay|].
  - destruct (catch_up_one w i) as [w1 r] eqn:Hc. apply catch_up_one_same_count in Hc.
    destruct r as [x|e|]; intros; simplify_eq; (split; [by apply Hrel|done]).
  - destruct work as [|e work]; [intros; simplify_eq; by split; [apply Hstay|]|].
    destruct (dispatch_one w e report) as [w1 r] eqn:Hd.
    apply (dispatch_one_frame_of (λ _ _, True)) in Hd as [Hd%frame_same_count _]; [|done..].
    destruct r; intros; simplify_eq; by split; [apply Hstay|].
  - case_decide as Hi.
    + destruct (attempt m _ _ queued) eqn:Ha; [|intros; simplify_eq|done].
      * destruct (save_one w (KPm i)) as [w1 r] eqn:Hsv.
        apply save_one_frame in Hsv as [Hsv%frame_same_count _].
        intros; simplify_eq. split; [|split; [done|by destruct r]].
        destruct r; (eapply fits_passed; [..|exact Ha]); by try destruct queued.
      * split; [|done]. by eapply fits_waits; [..|exact Ha]; [|destruct queued|].
    + intros; simplify_eq. destruct queued; [by unfold in_range in Hr|]. by split; [apply Hstay|].
Qed.

Lemma stream_turn_fits (w w' : World) cells cells' m m' seat hold sp polled h :
  fits m seat hold → seat OStream = stream_key sp → hold OStream = None →
  stream_turn w cells m sp = Some (w', cells', m', polled, h) →
  fits m' (seat_at seat OStream (match polled with StillIn sp' => stream_key sp' | _ => None end))
    hold ∧
  same_count w w'.
Proof.
  intros Hf Hs Hh.
  assert (∀ m1 seat1, fits m1 seat1 (seat_at hold OStream None) → fits m1 seat1 hold) as Hhold.
  { intros m1 seat1. apply fits_ext; [done|]. intros o. unfold seat_at. by case_decide; subst. }
  assert (seat OStream = None → fits m (seat_at seat OStream None) hold) as Hstay.
  { intros H0. eapply fits_ext, Hf; [|done]. intros o; unfold seat_at; by case_decide; subst. }
  destruct sp as [[|[[[[r|]|]]|e|] str]|r [|key keys] queued work str|r [|e work] str]; simpl;
    try (intros; simplify_eq; split; [apply Hstay; by try destruct queued|done]).
  - destruct (attempt m key OStream queued) eqn:Ha; [| |done].
    + destruct (fan_out_one w key r) as [w1 new] eqn:Hfan. intros; simplify_eq.
      split; [|by eapply fan_out_one_same_count].
      apply Hhold. by eapply fits_passed; [..|exact Ha]; [|destruct queued|].
    + intros; simplify_eq. split; [|done].
      apply Hhold. by eapply fits_waits; [..|exact Ha]; [|destruct queued|].
  - destruct (live_dispatch w e) as [w1 r1] eqn:Hd.
    apply (live_dispatch_frame_of (λ _ _, True)) in Hd as [Hd%frame_same_count _]; [|done..].
    destruct r1; intros; simplify_eq; by split; [apply Hstay|].
Qed.

(** One step of a save, of the minimum, of anything that goes from runner to
    runner in the loop's own body. *)
Lemma save_turn_fits (w w' : World) m m' seat hold keys queued out :
  fits m seat hold → hold OLoop = None →
  seat OLoop = (if queued : bool then head keys else None) →
  save_turn w m keys queued = Some (w', m', out) →
  fits m' (seat_at seat OLoop
             (match out with inl (keys', true) => head keys' | _ => None end)) hold ∧
  same_count w w'.
Proof.
  intros Hf Hh Hs.
  assert (∀ m1 seat1, fits m1 seat1 (seat_at hold OLoop None) → fits m1 seat1 hold) as Hhold.
  { intros m1 seat1. apply fits_ext; [done|]. intros o. unfold seat_at. by case_decide; subst. }
  destruct keys as [|key keys]; simpl.
  { intros; simplify_eq. split; [|done]. eapply fits_ext, Hf; [|done].
    intros o; unfold seat_at; case_decide; [subst; by rewrite Hs; destruct queued|done]. }
  destruct (attempt m key OLoop queued) eqn:Ha; [| |done].
  - destruct (save_one w key) as [w1 r] eqn:Hsv. intros; simplify_eq/=.
    apply save_one_frame in Hsv as [Hsv%frame_same_count _]. split; [|done]. apply Hhold.
    eapply fits_passed; [..|exact Ha]; by try destruct queued.
  - intros; simplify_eq. split; [|done]. apply Hhold.
    by eapply fits_waits; [..|exact Ha]; [|destruct queued|].
Qed.

Lemma fits_reseat m seat hold seat' :
  (∀ o, seat' o = seat o) → fits m seat hold → fits m seat' hold.
Proof. intros H. by apply fits_ext. Qed.

Lemma calls_range (s : Locks) (w' : World) :
  seated s → same_count (lk_store s) w' →
  ∀ k pc, lk_calls s !! k = Some pc → in_range w' pc.
Proof. intros [_ H] Hc k pc Hk. eapply same_count_range; [exact Hc|by eapply H]. Qed.

Lemma loop_turn_seated (s s' : Locks) h : seated s → loop_turn s = Some (s', h) → seated s'.
Proof.
  intros Hs. pose proof Hs as [Hf Hr]. unfold loop_turn.
  set (w := lk_store s) in *. set (m := lk_mutexes s) in *.
  assert (∀ keys queued w1 m1 out, loop_key (lk_loop s) =
            (if queued : bool then head keys else None) →
          save_turn w m keys queued = Some (w1, m1, out) →
          fits m1 (seat_at (seat (lk_loop s) (lk_calls s)) OLoop
             (match out with inl (keys', true) => head keys' | _ => None end)) (hold (lk_calls s)) ∧
          ∀ k pc, lk_calls s !! k = Some pc → in_range w1 pc) as Hsave.
  { intros keys queued w1 m1 out Hk Hst.
    destruct (save_turn_fits _ _ _ _ _ _ _ _ _ Hf eq_refl Hk Hst) as [H1 H2].
    split; [exact H1|by apply calls_range]. }
  destruct (lk_loop s) as [|[|key keys] queued acc|from| |sp [[[keys queued] returns]|]
                           |keys queued next| |r] eqn:Hpc; try done.
  - destruct (shutdown_signal (lk_cells s)); intros; simplify_eq; (split; [|exact Hr]);
      (eapply fits_reseat; [|exact Hf]); by intros [].
  - intros; simplify_eq. split; [|exact Hr]. eapply fits_reseat; [|exact Hf].
    intros []; by destruct queued.
  - destruct (attempt m key OLoop queued) eqn:Ha; [| |done]; intros; simplify_eq; (split; [|exact Hr]);
      (eapply fits_ext; [| |first [eapply (fits_passed m)|eapply (fits_waits m)];
                              [exact Hf| | |exact Ha]; [by destruct queued|done]]);
      intros []; simpl; unfold seat_at; done.
  - destruct (subscribe_all_from _ _) as [c [str|e|]]; intros; simplify_eq;
      (split; [eapply fits_reseat; [|exact Hf]; by intros []|exact Hr]).
  - destruct (save_turn w m keys queued) as [[[w1 m1] [[keys1 queued1]|]]|] eqn:Hst; [| |done].
    + intros; simplify_eq. apply Hsave in Hst as [H1 H2]; [|by destruct queued].
      split; [|exact H2]. eapply fits_reseat; [|exact H1]. intros []; simpl; try done.
    + apply Hsave in Hst as [H1 H2]; [|by destruct queued].
      destruct returns; intros; simplify_eq; (split; [|exact H2]).
      * apply (fits_forget _ _ _ OStream) in H1.
        eapply fits_ext; [| |exact H1]; intros []; unfold seat_at; done.
      * eapply fits_reseat; [|exact H1]. by intros [].
  - destruct (save_turn w m keys queued) as [[[w1 m1] [[keys1 queued1]|]]|] eqn:Hst; [| |done];
      intros; simplify_eq; (apply Hsave in Hst as [H1 H2]; [|by destruct keys]).
    + split; [|exact H2]. eapply fits_reseat; [|exact H1]. by intros [].
    + destruct next; (split; [|exact H2]); (eapply fits_reseat; [|exact H1]); by intros [].
Qed.

Lemma begin_call_key (w : World) c : call_key (begin_call w c) = None ∧ call_holds (begin_call w c) = None.
Proof.
  destruct c; simpl; [| |done]; repeat case_match; done.
Qed.

Lemma insert_call_seat lc (calls : list CallPc) k pc o :
  (k < length calls)%nat →
  seat lc (<[k := pc]> calls) o = seat_at (seat lc calls) (OCall k) (call_key pc) o.
Proof.
  intros Hk. unfold seat_at. destruct o as [k'| |]; simpl; try done.
  destruct (decide (k' = k)) as [->|Hne].
  - by rewrite list_lookup_insert_eq, decide_True.
  - rewrite list_lookup_insert_ne by done. by rewrite decide_False by congruence.
Qed.

Lemma insert_call_hold (calls : list CallPc) k pc o :
  (k < length calls)%nat →
  hold (<[k := pc]> calls) o = seat_at (hold calls) (OCall k) (call_holds pc) o.
Proof.
  intros Hk. unfold seat_at. destruct o as [k'| |]; simpl; try done.
  destruct (decide (k' = k)) as [->|Hne].
  - by rewrite list_lookup_insert_eq, decide_True.
  - rewrite list_lookup_insert_ne by done. by rewrite decide_False by congruence.
Qed.

(** A call goes to another place, and everybody is in his seat. *)
Lemma seated_insert (s : Locks) (w1 : World) m1 k pc pc1 cells b lc :
  seated s → lk_calls s !! k = Some pc → lk_loop s = lc → same_count (lk_store s) w1 →
  in_range w1 pc1 →
  fits m1 (seat_at (seat lc (lk_calls s)) (OCall k) (call_key pc1))
    (seat_at (hold (lk_calls s)) (OCall k) (call_holds pc1)) →
  seated (mk_Locks w1 cells b m1 lc (<[k := pc1]> (lk_calls s))).
Proof.
  intros Hs Hk <- Hc Hr Hf. pose proof (lookup_lt_Some _ _ _ Hk) as Hlt. split; simpl.
  - eapply fits_ext, Hf; intros o; [by apply insert_call_seat|by apply insert_call_hold].
  - intros k' pc' Hk'. apply list_lookup_insert_Some in Hk' as [(-> & <- & _)|[_ Hk']]; [done|].
    by eapply calls_range.
Qed.

Lemma lock_next_seated (s s' : Locks) l h : seated s → lock_next s l = Some (s', h) → seated s'.
Proof.
  intros Hs. pose proof Hs as [Hf Hr]. destruct l as [| | | | | |c|k|k n]; simpl.
  - destruct (lk_loop s) as [| | | |sp []| | |] eqn:Hpc; try done.
    destruct (stream_turn _ _ _ sp) as [[[[[w1 cells] m1] polled] h1]|] eqn:Hst; [|done].
    intros; simplify_eq/=.
    eapply stream_turn_fits in Hst as [H1 H2]; [|exact Hf|done..].
    split; [|exact (calls_range s w1 Hs H2)]. simpl.
    eapply fits_reseat; [|exact H1]. intros []; destruct polled; try done; by destruct sp0.
  - by apply loop_turn_seated.
  - destruct (lk_loop s) as [| | | |sp []| | |] eqn:Hpc; try done. intros; simplify_eq.
    split; [|exact Hr]. eapply fits_reseat, Hf. by intros [].
  - destruct (shutdown_signal _); [|done].
    destruct (lk_loop s) as [| | | |sp []| | |] eqn:Hpc; try done; intros; simplify_eq;
      (split; [|exact Hr]); (eapply fits_reseat, Hf); by intros [].
  - destruct (lk_loop s) eqn:Hpc; try done; intros; simplify_eq; unfold delay_elapsed;
      case_match; (split; [|exact Hr]); (eapply fits_reseat, Hf); by intros [].
  - intros; simplify_eq. by split.
  - intros; simplify_eq. destruct (begin_call_key (lk_store s) c) as [Hk Hh]. split; simpl.
    + eapply fits_ext, Hf; (intros [k| |]; [|done..]); simpl;
        (destruct (decide (k < length (lk_calls s))%nat);
         [by rewrite lookup_app_l|rewrite lookup_app_r by lia]);
        rewrite (lookup_ge_None_2 (lk_calls s) k) by lia;
        (destruct (k - _)%nat as [|[]]; [|done..]); done.
    + intros k pc. rewrite lookup_snoc_Some. intros [[_ H]|[_ <-]]; [by eapply Hr|].
      unfold in_range. by rewrite Hk.
  - destruct (lk_calls s !! k) as [pc|] eqn:Hk; [|done]. simpl.
    destruct (call_turn _ _ k pc) as [[[[w1 m1] pc1] h1]|] eqn:Hct; [|done]. intros; simplify_eq/=.
    assert (seat (lk_loop s) (lk_calls s) (OCall k) = call_key pc) as Hse by (simpl; by rewrite Hk).
    assert (hold (lk_calls s) (OCall k) = call_holds pc) as Hho by (simpl; by rewrite Hk).
    destruct (call_turn_fits _ _ _ _ _ _ _ _ _ _ Hf Hse Hho (Hr _ _ Hk) Hct) as (H1 & H2 & H3).
    by eapply seated_insert.
  - destruct (lk_calls s !! k) as [pc|] eqn:Hk; [|done]. intros Hd.
    assert (s' = mk_Locks (drop_in_catch_up (lk_store s) pc n) (lk_cells s) (lk_backoff s)
              (forget (OCall k) (lk_mutexes s)) (lk_loop s) (<[k := Over Dropped]> (lk_calls s)))
      as -> by (by destruct pc; simplify_eq/=).
    eapply seated_insert; [done|exact Hk|done|apply drop_in_catch_up_same_count|done|].
    by apply fits_forget.
Qed.

(** The live loop before its first turn, the application before its first call. *)
Definition lock_start (w : World) (cells : LiveHandle) (b : N) : Locks :=
  mk_Locks w cells b ∅ LTop [].

Lemma lock_start_seated w cells b : seated (lock_start w cells b).
Proof.
  split; [|done]. split; simpl; unfold queue; intros key; rewrite lookup_empty; simpl.
  - intros []; split; done || by intros ?%elem_of_nil.
  - constructor.
  - intros []; done.
Qed.

Lemma lock_trace_seated R (s0 s : Locks) h : seated s0 → lock_trace R s0 h s → seated s.
Proof.
  intros H0. induction 1 as [|h s l s' h' _ IH Hn|h s c _ IH]; [done|by eapply lock_next_seated|].
  destruct IH as [Hf Hr]. by split.
Qed.

(** ** The first in a queue *)

Definition turn_of (o : Owner) : LockLabel (ProjId := ProjId) :=
  match o with OCall k => CallTurn k | OStream => PollStream | OLoop => LoopTurn end.

(** A branch of the [select!] runs: the stream's future is not polled. *)
Definition branch_runs (pc : LoopPc) : bool :=
  match pc with LStreaming _ (Some _) => true | _ => false end.

Lemma attempt_head (m : Mutexes) key o : head (queue m key) = Some o → attempt m key o true = Acquired.
Proof.
  unfold attempt. destruct (queue m key); [done|]. intros [= ->]. by rewrite decide_True.
Qed.

(** Its turn: it releases the mutex, or it goes into its catch-up and has it
    from now on. *)
Definition moves_on (s s' : Locks) (key : Key) (o : Owner) : Prop :=
  lk_mutexes s' = release (lk_mutexes s) key ∨
  lk_mutexes s' = lk_mutexes s ∧ hold (lk_calls s) o = None ∧ hold (lk_calls s') o = Some key.

Lemma call_head_turn (s : Locks) key k :
  seated s → head (queue (lk_mutexes s) key) = Some (OCall k) →
  ∃ s' h, lock_next s (CallTurn k) = Some (s', h) ∧ moves_on s s' key (OCall k) ∧
    branch_runs (lk_loop s') = branch_runs (lk_loop s).
Proof.
  intros [Hf Hr] Hh.
  assert (seat (lk_loop s) (lk_calls s) (OCall k) = Some key) as Hk.
  { apply (fits_seat _ _ _ Hf). by apply head_Some_elem_of. }
  apply (attempt_head _ _ _) in Hh as Ha. simpl in Hk. unfold moves_on. simpl.
  destruct (lk_calls s !! k) as [pc|] eqn:Hpc; [|done]. simpl in *.
  pose proof (lookup_lt_Some _ _ _ Hpc) as Hlt. specialize (Hr _ _ Hpc). unfold in_range in Hr.
  destruct pc as [p []|p|p []|i [] work|i work|work report|i [] report|o]; simplify_eq/=.
  - rewrite Ha. do 2 eexists. split; [reflexivity|]. split; [right|done]. simpl.
    by rewrite list_lookup_insert_eq.
  - destruct (projection (lk_store s) p) as [w1 r]. do 2 eexists. by split; [|split; [left|]].
  - rewrite Ha. do 2 eexists. by split; [|split; [left|]].
  - rewrite decide_True by done. rewrite Ha. do 2 eexists. split; [reflexivity|].
    split; [right|done]. simpl. by rewrite list_lookup_insert_eq.
  - destruct (catch_up_one (lk_store s) i) as [w1 [x|e|]]; do 2 eexists; by split; [|split; [left|]].
  - rewrite decide_True by done. rewrite Ha. destruct (save_one _ _) as [w1 r].
    do 2 eexists. by split; [|split; [left|]].
Qed.

Lemma head_turn (s : Locks) key o :
  seated s → head (queue (lk_mutexes s) key) = Some o →
  o ≠ OStream ∨ branch_runs (lk_loop s) = false →
  ∃ s' h, lock_next s (turn_of o) = Some (s', h) ∧ moves_on s s' key o ∧
    branch_runs (lk_loop s') = branch_runs (lk_loop s).
Proof.
  intros Hs Hh Hb. destruct o as [k| |]; [by apply call_head_turn|..];
    pose proof Hs as [Hf _];
    pose proof (proj1 (fits_seat _ _ _ Hf key _) (head_Some_elem_of _ _ Hh)) as Hk;
    apply attempt_head in Hh as Ha; simpl in Hk; unfold moves_on; simpl.
  - destruct Hb as [|Hb]; [done|]. destruct (lk_loop s) as [| | | |sp []| | |] eqn:Hpc; try done.
    destruct sp as [|r [|key' keys] [] work str|]; simplify_eq/=. rewrite Ha.
    destruct (fan_out_one _ key r) as [w1 new]. do 2 eexists. by split; [|split; [left|]].
  - unfold loop_turn. destruct (lk_loop s) as [|[|key' keys] [] acc|from| |sp [[[keys []] returns]|]
                           |keys [] next| |r] eqn:Hpc; simplify_eq/=; [rewrite Ha|..].
    + do 2 eexists. by split; [|split; [left|]].
    + destruct keys as [|key' keys]; simplify_eq/=. rewrite Ha. simpl.
      do 2 eexists. by split; [|split; [left|]].
    + destruct keys as [|key' keys]; simplify_eq/=. rewrite Ha. simpl.
      do 2 eexists. by split; [|split; [left|]].
Qed.

Lemma lock_next_run (s s1 s2 : Locks) l ls h1 h2 :
  lock_next s l = Some (s1, h1) → lock_run s1 ls = Some (h2, s2) →
  lock_run s (l :: ls) = Some (h1 ++ h2, s2).
Proof. intros H1 H2. simpl. rewrite H1. simpl. by rewrite H2. Qed.

(** One or two turns, and the first in the queue is gone. *)
Lemma head_leaves (s : Locks) key o :
  seated s → head (queue (lk_mutexes s) key) = Some o →
  o ≠ OStream ∨ branch_runs (lk_loop s) = false →
  ∃ ls h s', lock_run s ls = Some (h, s') ∧ (length ls ≤ 2)%nat ∧ Forall (.= turn_of o) ls ∧
    queue (lk_mutexes s') key = tail (queue (lk_mutexes s) key) ∧ seated s' ∧
    branch_runs (lk_loop s') = branch_runs (lk_loop s).
Proof.
  intros Hs Hh Hb. destruct (head_turn s key o Hs Hh Hb) as (s1 & h1 & Hn1 & Hm1 & Hb1).
  pose proof (lock_next_seated _ _ _ _ Hs Hn1) as Hs1.
  assert (∀ m, queue (release m key) key = tail (queue m key)) as Hrel.
  { intros m. by rewrite queue_release, decide_True. }
  destruct Hm1 as [Hm1|(Hm1 & _ & Hh1)].
  - exists [turn_of o], (h1 ++ []), s1. split_and!; [|simpl; lia|by constructor| |done..].
    + by eapply lock_next_run.
    + by rewrite Hm1.
  - rewrite <-Hm1 in Hh. rewrite <-Hb1 in Hb.
    destruct (head_turn s1 key o Hs1 Hh Hb) as (s2 & h2 & Hn2 & Hm2 & Hb2).
    destruct Hm2 as [Hm2|(_ & Hh2 & _)]; [|congruence].
    exists [turn_of o; turn_of o], (h1 ++ h2 ++ []), s2. split_and!.
    + eapply lock_next_run; [done|]. by eapply lock_next_run.
    + simpl; lia.
    + by repeat constructor.
    + by rewrite Hm2, Hrel, Hm1.
    + by eapply lock_next_seated.
    + by rewrite Hb2.
Qed.

Lemma lock_run_app (s s1 s2 : Locks) ls1 ls2 h1 h2 :
  lock_run s ls1 = Some (h1, s1) → lock_run s1 ls2 = Some (h2, s2) →
  lock_run s (ls1 ++ ls2) = Some (h1 ++ h2, s2).
Proof.
  revert s h1. induction ls1 as [|l ls1 IH]; simpl; intros s h1; [by intros [= <- <-]|].
  destruct (lock_next s l) as [[s' h']|]; simpl; [|done].
  destruct (lock_run s' ls1) as [[h'' s'']|] eqn:Hr; simpl; [|done]. intros [= <- <-] H2.
  rewrite (IH s' h'' Hr H2). simpl. by rewrite app_assoc.
Qed.

Lemma queue_drains (q : list Owner) (s : Locks) key :
  seated s → queue (lk_mutexes s) key = q → OStream ∉ q ∨ branch_runs (lk_loop s) = false →
  ∃ ls h s', lock_run s ls = Some (h, s') ∧ (length ls ≤ 2 * length q)%nat ∧
    queue (lk_mutexes s') key = [] ∧ Forall (λ l, ∃ o, o ∈ q ∧ l = turn_of o) ls.
Proof.
  revert s. induction q as [|o q IH]; intros s Hs Hq Hb.
  { exists [], [], s. by split_and!. }
  destruct (head_leaves s key o Hs) as (ls1 & h1 & s1 & Hr1 & Hl1 & Hf1 & Hq1 & Hs1 & Hb1).
  { by rewrite Hq. }
  { destruct Hb as [Hb|Hb]; [left|by right]. intros ->. by destruct Hb; left. }
  rewrite Hq in Hq1.
  destruct (IH s1 Hs1 Hq1) as (ls2 & h2 & s2 & Hr2 & Hl2 & Hq2 & Hf2).
  { rewrite Hb1. destruct Hb as [Hb|Hb]; [left; set_solver|by right]. }
  exists (ls1 ++ ls2), (h1 ++ h2), s2. split_and!; [by eapply lock_run_app| |done|].
  - rewrite length_app. simpl. lia.
  - apply Forall_app. split; eapply Forall_impl; [exact Hf1| |exact Hf2|]; simpl.
    + intros l ->. exists o. split; [left|done].
    + intros l (o' & Ho' & ->). exists o'. by split; [right|].
Qed.

(** C9: nobody waits for a runner in vain, but for one case.  In every state
    that the calls of the application and the live loop can reach, whatever their
    interleaving, whatever calls were dropped and whatever other writers did: the
    turns of those in the queue of a runner's mutex, at most two for each, empty
    it, unless the live loop's stream is in the queue while a branch of the
    loop's [select!] runs. *)
Theorem lock_queue_drains (R : Store → Store → Prop) w cells b h (s : Locks) key
    (Hreach : lock_trace R (lock_start w cells b) h s)
    (Hcase : OStream ∉ queue (lk_mutexes s) key ∨ branch_runs (lk_loop s) = false) :
  ∃ ls h' s', lock_run s ls = Some (h', s') ∧
    (length ls ≤ 2 * length (queue (lk_mutexes s) key))%nat ∧
    queue (lk_mutexes s') key = [] ∧
    Forall (λ l, ∃ o, o ∈ queue (lk_mutexes s) key ∧ l = turn_of o) ls.
Proof.
  eapply queue_drains; [|done|done]. eapply lock_trace_seated, Hreach. apply lock_start_seated.
Qed.

Lemma call_blocked (w : World) m k pc :
  call_turn w m k pc = None →
  (∃ o, pc = Over o) ∨ ∃ key, call_key pc = Some key ∧ head (queue m key) ≠ Some (OCall k).
Proof.
  assert (∀ key queued, attempt m key (OCall k) queued = Blocked →
            (if queued then Some key else None) = Some key ∧ head (queue m key) ≠ Some (OCall k)) as Hb.
  { intros key queued Ha. pose proof (attempt_cases m key (OCall k) queued) as Hc.
    rewrite Ha in Hc. by destruct Hc as [-> Hc]. }
  destruct pc as [p queued|p|p queued|i queued work|i work|[|e work] report|i queued report|o]; simpl;
    [..|by left; eexists]; repeat case_match; try done; intros _; right; subst;
    match goal with H : attempt _ ?key _ ?queued = Blocked |- _ =>
      destruct (Hb _ _ H) as [? ?]; exists key; by destruct queued
    end.
Qed.

(** C32: the mutexes exclude, and only they block.  In every reachable state at
    most one call is inside the catch-up of a runner, and no other call's attempt
    to lock that runner, nor the live loop's, succeeds meanwhile; and a call that
    has begun, is not over and cannot take a step has its place in exactly one
    queue, behind another owner. *)
Theorem runner_locks_exclude (R : Store → Store → Prop) w cells b h (s : Locks) k pc
    (Hreach : lock_trace R (lock_start w cells b) h s) (Hk : lk_calls s !! k = Some pc) :
  (∀ key, call_holds pc = Some key →
     (∀ k' pc', lk_calls s !! k' = Some pc' → call_holds pc' = Some key → k' = k) ∧
     (∀ o queued, o ≠ OCall k → attempt (lk_mutexes s) key o queued ≠ Acquired)) ∧
  (lock_next s (CallTurn k) = None →
     (∃ o, pc = Over o) ∨
     ∃ key o, head (queue (lk_mutexes s) key) = Some o ∧ o ≠ OCall k ∧
       ∀ key', OCall k ∈ queue (lk_mutexes s) key' ↔ key' = key).
Proof.
  assert (seated s) as [Hf _] by (eapply lock_trace_seated, Hreach; apply lock_start_seated).
  assert (∀ k' pc' key, lk_calls s !! k' = Some pc' → call_holds pc' = Some key →
            head (queue (lk_mutexes s) key) = Some (OCall k')) as Hhold.
  { intros k' pc' key Hk' Hh. apply (fits_hold _ _ _ Hf). simpl. by rewrite Hk'. }
  split.
  - intros key Hh. pose proof (Hhold k pc key Hk Hh) as Hq. split.
    + intros k' pc' Hk' Hh'. pose proof (Hhold k' pc' key Hk' Hh'). congruence.
    + intros o queued Ho Ha. pose proof (attempt_cases (lk_mutexes s) key o queued) as Hc.
      rewrite Ha in Hc. destruct queued; [congruence|by rewrite Hc in Hq].
  - simpl. rewrite Hk. simpl. destruct (call_turn _ _ k pc) as [[[[??]?]?]|] eqn:Hct; [done|].
    intros _. apply call_blocked in Hct as [?|(key & Hkey & Hh)]; [by left|right].
    assert (∀ key', OCall k ∈ queue (lk_mutexes s) key' ↔ key' = key) as Hin.
    { intros key'. rewrite (fits_seat _ _ _ Hf). simpl. rewrite Hk. simpl. rewrite Hkey. naive_solver. }
    pose proof (proj2 (Hin key) eq_refl) as Hk'. destruct (queue (lk_mutexes s) key) as [|o q] eqn:Hq.
    { by apply elem_of_nil in Hk'. }
    exists key, o. rewrite Hq. split_and!; [done|intros ->; done|done].
Qed.

(** ** The deadlock *)

Lemma head_enqueue m key o key' o' :
  head (queue m key') = Some o' → head (queue (enqueue m key o) key') = Some o'.
Proof.
  intros H. rewrite queue_enqueue. case_decide; [subst|done]. by destruct (queue m key).
Qed.

Lemma head_release m key o key' o' :
  head (queue m key) = Some o → o' ≠ o → head (queue m key') = Some o' →
  head (queue (release m key) key') = Some o'.
Proof. intros Hk Ho H. rewrite queue_release. case_decide; [subst; congruence|done]. Qed.

Lemma head_passed m key o queued key' o' :
  attempt m key o queued = Acquired → o' ≠ o → head (queue m key') = Some o' →
  head (queue (passed m key queued) key') = Some o'.
Proof.
  intros Ha Ho H. pose proof (attempt_cases m key o queued) as Hc. rewrite Ha in Hc.
  unfold passed. destruct queued; [by eapply head_release|done].
Qed.

(** A call passes by nobody. *)
Lemma call_turn_head (w w' : World) m m' k pc pc' h key o :
  (∀ key, call_holds pc = Some key → head (queue m key) = Some (OCall k)) →
  o ≠ OCall k → head (queue m key) = Some o →
  call_turn w m k pc = Some (w', m', pc', h) → head (queue m' key) = Some o.
Proof.
  intros Hh Ho Hq.
  assert (∀ key' (queued : bool),
            head (queue (if queued then m else enqueue m key' (OCall k)) key) = Some o) as Hent.
  { intros key' []; [done|by apply head_enqueue]. }
  assert (∀ key', call_holds pc = Some key' → head (queue (release m key') key) = Some o) as Hrel.
  { intros key' Hk. by eapply head_release; [apply Hh| |]. }
  destruct pc as [p queued|p|p queued|i queued work|i work|[|e work] report|i queued report|o'];
    simpl in *; repeat case_match; intros; simplify_eq;
    first [done|by apply Hent|by apply Hrel|by apply head_enqueue|by eapply head_passed].
Qed.

Lemma call_waits (w : World) m k pc key o :
  call_key pc = Some key → call_holds pc = None → in_range w pc →
  head (queue m key) = Some o → o ≠ OCall k → call_turn w m k pc = None.
Proof.
  intros Hk Hh Hr Hq Ho. unfold in_range in Hr. rewrite Hk in Hr.
  assert (attempt m key (OCall k) true = Blocked) as Ha.
  { unfold attempt. destruct (queue m key); [done|]. simplify_eq/=. by rewrite decide_False. }
  destruct pc as [p []|p|p []|i [] work|i work|work report|i [] report|o']; simplify_eq/=;
    rewrite ?Ha; rewrite ?decide_True; done.
Qed.

Definition deadlocked (s : Locks) (key : Key) : Prop :=
  (∃ sp keys returns, lk_loop s = LStreaming sp (Some (key :: keys, true, returns))) ∧
  head (queue (lk_mutexes s) key) = Some OStream.

Lemma deadlocked_next (s s' : Locks) l h key :
  seated s → deadlocked s key → lock_next s l = Some (s', h) →
  lk_loop s' = lk_loop s ∧ head (queue (lk_mutexes s') key) = Some OStream ∧
  ∀ k pc, lk_calls s !! k = Some pc → call_key pc = Some key →
    lk_calls s' !! k = Some pc ∨ lk_calls s' !! k = Some (Over Dropped).
Proof.
  intros [Hf Hr] [(sp & keys & returns & Hloop) Hq].
  assert (∀ k pc, lk_calls s !! k = Some pc → ∀ key, call_holds pc = Some key →
            head (queue (lk_mutexes s) key) = Some (OCall k)) as Hhold.
  { intros k pc Hk key' Hh. apply (fits_hold _ _ _ Hf). simpl. by rewrite Hk. }
  destruct l as [| | | | | |c|k|k n]; simpl; rewrite ?Hloop; try done.
  - unfold loop_turn. rewrite Hloop. simpl. unfold attempt.
    destruct (queue (lk_mutexes s) key) as [|o q]; [done|]. by simplify_eq/=.
  - by case_match.
  - intros; simplify_eq/=. by split_and!; [| |left].
  - intros; simplify_eq/=. split_and!; [done..|]. intros k pc Hk _. left.
    by apply lookup_app_l_Some.
  - destruct (lk_calls s !! k) as [pc|] eqn:Hk; [|done]. simpl.
    destruct (call_turn _ _ k pc) as [[[[w1 m1] pc1] h1]|] eqn:Hct; [|done]. intros; simplify_eq/=.
    pose proof (Hhold k pc Hk) as Hhk. split_and!; [done|by eapply call_turn_head|].
    intros k' pc' Hk' Hkey. destruct (decide (k' = k)) as [->|Hne].
    2:{ left. by rewrite list_lookup_insert_ne. }
    exfalso. simplify_eq. destruct (call_holds pc) as [key'|] eqn:Hh.
    { pose proof (Hhk key' eq_refl). apply call_holds_key in Hh. by simplify_eq. }
    by rewrite (call_waits _ _ _ _ _ OStream Hkey Hh (Hr _ _ Hk) Hq) in Hct.
  - destruct (lk_calls s !! k) as [pc|] eqn:Hk; [|done]. simpl. intros Hd.
    assert (lk_loop s' = lk_loop s ∧ lk_mutexes s' = forget (OCall k) (lk_mutexes s) ∧
            lk_calls s' = <[k := Over Dropped]> (lk_calls s)) as (-> & -> & ->)
      by (by destruct pc; simplify_eq/=).
    pose proof (lookup_lt_Some _ _ _ Hk). split_and!; [done| |].
    + rewrite queue_forget. destruct (queue (lk_mutexes s) key) as [|o q]; [done|].
      injection Hq as ->. by rewrite filter_cons_True.
    + intros k' pc' Hk' _. destruct (decide (k' = k)) as [->|Hne].
      * right. by rewrite list_lookup_insert_eq.
      * left. by rewrite list_lookup_insert_ne.
Qed.

Lemma over_stays (s s' : Locks) l h k o :
  lk_calls s !! k = Some (Over o) → lock_next s l = Some (s', h) →
  lk_calls s' !! k = Some (Over o).
Proof.
  intros Hk. destruct l as [| | | | | |c|k'|k' n]; simpl.
  - destruct (lk_loop s) as [| | | |sp []| | |]; try done.
    destruct (stream_turn _ _ _ sp) as [[[[[??]?]?]?]|]; [|done]. by intros; simplify_eq/=.
  - unfold loop_turn. repeat case_match; intros; simplify_eq/=; try done; by destruct next.
  - by case_match; try done; case_match; intros; simplify_eq.
  - by repeat case_match; intros; simplify_eq.
  - unfold delay_elapsed. by repeat case_match; intros; simplify_eq.
  - by intros; simplify_eq.
  - intros; simplify_eq/=. by apply lookup_app_l_Some.
  - destruct (decide (k' = k)) as [->|Hne]; [by rewrite Hk|].
    destruct (lk_calls s !! k') as [pc|]; [|done]. simpl.
    destruct (call_turn _ _ k' pc) as [[[[??]?]?]|]; [|done]. intros; simplify_eq/=.
    by rewrite list_lookup_insert_ne.
  - destruct (decide (k' = k)) as [->|Hne]; [by rewrite Hk|].
    destruct (lk_calls s !! k') as [pc|]; [|done]. simpl.
    destruct pc; intros; simplify_eq/=; by rewrite list_lookup_insert_ne.
Qed.

Lemma deadlocked_trace R (s s' : Locks) h key :
  seated s → deadlocked s key → lock_trace R s h s' →
  seated s' ∧ lk_loop s' = lk_loop s ∧ head (queue (lk_mutexes s') key) = Some OStream ∧
  ∀ k pc, lk_calls s !! k = Some pc → call_key pc = Some key →
    lk_calls s' !! k = Some pc ∨ lk_calls s' !! k = Some (Over Dropped).
Proof.
  intros Hs Hd. induction 1 as [|h s1 l s2 h' _ (Hs1 & Hl1 & Hq1 & Hc1) Hn|h s1 c _ (Hs1 & IH)].
  - destruct Hd as [_ Hq]. by split_and!; [| | |left].
  - assert (deadlocked s1 key) as Hd1 by (split; [rewrite Hl1; by destruct Hd|done]).
    destruct (deadlocked_next _ _ _ _ _ Hs1 Hd1 Hn) as (Hl2 & Hq2 & Hc2).
    split_and!; [by eapply lock_next_seated|congruence|done|].
    intros k pc Hk Hkey. destruct (Hc1 k pc Hk Hkey) as [Hk1|Hk1]; [by apply Hc2|].
    right. exact (over_stays _ _ _ _ _ _ Hk1 Hn).
  - split; [|exact IH]. destruct Hs1 as [? ?]. by split.
Qed.

Lemma lock_run_trace R (s0 s s' : Locks) ls h0 h :
  lock_trace R s0 h0 s → lock_run s ls = Some (h, s') → lock_trace R s0 (h0 ++ h) s'.
Proof.
  revert s h0 h. induction ls as [|l ls IH]; simpl; intros s h0 h Ht.
  { intros [= <- <-]. by rewrite app_nil_r. }
  destruct (lock_next s l) as [[s1 h1]|] eqn:Hn; simpl; [|done].
  destruct (lock_run s1 ls) as [[h2 s2]|] eqn:Hr; simpl; [|done]. intros [= <- <-].
  rewrite app_assoc. eapply IH, Hr. by econstructor.
Qed.

(** C10: the live loop and its callers can wait for each other for ever.  Once
    the future that reads the stream waits for a runner's mutex and the
    checkpoint or shutdown branch of the [select!] waits behind it for the same
    runner, then, whatever anybody does (calls, dropped calls, the shutdown
    signal, other writers), the loop stays where it is and never finishes, no
    owner but the stream can lock the runner, and every call that waits for
    it waits until it is dropped. *)
Theorem live_loop_deadlocks (R : Store → Store → Prop) w cells b h (s : Locks) key keys sp returns
    (Hreach : lock_trace R (lock_start w cells b) h s)
    (Hbranch : lk_loop s = LStreaming sp (Some (key :: keys, true, returns)))
    (Hfirst : head (queue (lk_mutexes s) key) = Some OStream)
    h' s' (Hlater : lock_trace R s h' s') :
  lk_loop s' = lk_loop s ∧
  (∀ o queued, o ≠ OStream → attempt (lk_mutexes s') key o queued ≠ Acquired) ∧
  (∀ k pc, lk_calls s !! k = Some pc → OCall k ∈ queue (lk_mutexes s) key →
     lk_calls s' !! k = Some pc ∨ lk_calls s' !! k = Some (Over Dropped)).
Proof.
  assert (seated s) as Hs by (eapply lock_trace_seated, Hreach; apply lock_start_seated).
  assert (deadlocked s key) as Hd by (split; [by do 3 eexists|done]).
  destruct (deadlocked_trace _ _ _ _ _ Hs Hd Hlater) as (_ & Hl & Hq & Hc).
  split_and!; [done| |].
  - intros o queued Ho Ha. pose proof (attempt_cases (lk_mutexes s') key o queued) as Hcs.
    rewrite Ha in Hcs. destruct queued; [congruence|by rewrite Hcs in Hq].
  - intros k pc Hk Hin%(fits_seat _ _ _ (se_fits _ Hs)). simpl in Hin. rewrite Hk in Hin.
    by apply Hc.
Qed.
End locks_facts.

#[local] Abbreviation DemoLocks := (Locks (Store := DemoClient) (F := MemFs) (TypeId := DemoAgg)
  (Agg := DemoState) (ProjId := ()) (Proj := DemoProj) (PmId := ()) (Pm := DemoPm)).

(** The live loop reads an event and wants the projection a call is catching
    up; the checkpoint timer ticks; another call comes; the first one ends; the
    shutdown signal is sent. *)
Definition demo_deadlock : list (LockLabel (ProjId := ())) :=
  replicate 5 LoopTurn ++
  [NewCall (AskProjection ()); CallTurn 0; PollStream; PollStream; TimerTick; LoopTurn;
   NewCall (AskProjection ()); CallTurn 1; CallTurn 0; SendSignal].

Definition demo_locks : DemoLocks := lock_start (demo_world (two_events [])) LiveHandle_new 1.

Lemma live_loop_deadlocks_witness :
  match lock_run demo_locks demo_deadlock with
  | Some (_, s) =>
      shutdown_signal (lk_cells s) = true ∧
      ∀ h' s', lock_trace (λ _ _, True) s h' s' →
        lk_loop s' = lk_loop s ∧
        (∀ pc, lk_calls s !! 1%nat = Some pc →
           lk_calls s' !! 1%nat = Some pc ∨ lk_calls s' !! 1%nat = Some (Over Dropped))
  | None => False
  end.
Proof.
  set (key := KProj "event-counter").
  assert (match lock_run demo_locks demo_deadlock with
          | Some (_, s) =>
              match lk_loop s with
              | LStreaming _ (Some (key' :: _, true, _)) => bool_decide (key' = key)
              | _ => false
              end && shutdown_signal (lk_cells s) &&
              bool_decide (queue (lk_mutexes s) key = [OStream; OLoop; OCall 1])
          | None => false
          end = true) as Hb by (vm_compute; reflexivity).
  destruct (lock_run demo_locks demo_deadlock) as [[h s]|] eqn:Hrun; [|discriminate Hb].
  apply andb_true_iff in Hb as [Hb Hq%bool_decide_eq_true].
  apply andb_true_iff in Hb as [Hb Hsig]. split; [exact Hsig|].
  destruct (lk_loop s) as [| | | |sp [[[[|key' keys] [|]] returns]|]| | |] eqn:Hloop;
    try discriminate Hb.
  apply bool_decide_eq_true in Hb as ->. intros h' s' Hlater.
  destruct (live_loop_deadlocks (λ _ _, True) (demo_world (two_events [])) LiveHandle_new 1
              ([] ++ h) s key keys sp returns) with h' s' as (H1 & _ & H3).
  - eapply lock_run_trace; [apply lock_trace_start|exact Hrun].
  - exact Hloop.
  - by rewrite Hq.
  - exact Hlater.
  - split; [by rewrite H1|]. intros pc Hpc. apply H3; [exact Hpc|].
    rewrite Hq. right; right; left.
Defined.

(** The same run, before the timer ticks: the stream waits for the call. *)
Definition demo_waiting : list (LockLabel (ProjId := ())) := take 9 demo_deadlock.

Lemma lock_queue_drains_witness :
  match lock_run demo_locks demo_waiting with
  | Some (_, s) =>
      let key := KProj "event-counter" in
      queue (lk_mutexes s) key = [OCall 0; OStream] ∧
      ∃ ls h' s', lock_run s ls = Some (h', s') ∧ queue (lk_mutexes s') key = [] ∧
        (length ls ≤ 4)%nat
  | None => False
  end.
Proof.
  set (key := KProj "event-counter").
  assert (match lock_run demo_locks demo_waiting with
          | Some (_, s) =>
              negb (branch_runs (lk_loop s)) &&
              bool_decide (queue (lk_mutexes s) key = [OCall 0; OStream])
          | None => false
          end = true) as Hb by (vm_compute; reflexivity).
  destruct (lock_run demo_locks demo_waiting) as [[h s]|] eqn:Hrun; [|discriminate Hb].
  apply andb_true_iff in Hb as [Hb%negb_true_iff Hq%bool_decide_eq_true].
  split; [exact Hq|].
  destruct (lock_queue_drains (λ _ _, True) (demo_world (two_events [])) LiveHandle_new 1
              ([] ++ h) s key) as (ls & h' & s' & H1 & H2 & H3 & _).
  - eapply lock_run_trace; [apply lock_trace_start|exact Hrun].
  - by right.
  - exists ls, h', s'. split_and!; [exact H1|exact H3|]. by rewrite Hq in H2.
Defined.

Lemma runner_locks_exclude_witness :
  match lock_run demo_locks demo_waiting with
  | Some (_, s) =>
      lk_calls s = [ProjectionHolding ()] ∧
      ∀ o queued, o ≠ OCall 0 →
        attempt (lk_mutexes s) (KProj "event-counter") o queued ≠ Acquired
  | None => False
  end.
Proof.
  assert (match lock_run demo_locks demo_waiting with
          | Some (_, s) => match lk_calls s with [ProjectionHolding tt] => true | _ => false end
          | None => false
          end = true) as Hb by (vm_compute; reflexivity).
  destruct (lock_run demo_locks demo_waiting) as [[h s]|] eqn:Hrun; [|discriminate Hb].
  assert (lk_calls s = [ProjectionHolding ()]) as Hc by (by repeat case_match).
  split; [exact Hc|].
  destruct (runner_locks_exclude (λ _ _, True) (demo_world (two_events [])) LiveHandle_new 1
              ([] ++ h) s 0 (ProjectionHolding ())) as [H1 _].
  - eapply lock_run_trace; [apply lock_trace_start|exact Hrun].
  - by rewrite Hc.
  - exact (proj2 (H1 (KProj "event-counter") eq_refl)).
Defined.
