(* ===== verification/LocksEnvelopes.v ===== *)
(** Theorems about [Locks]: what becomes of the envelopes and the cursors when
    the pull functions of several tasks and the live loop share the runners and
    interleave at every lock: nothing a process manager emits is handled twice,
    nothing is dropped silently, and what concurrent saves can still lose. *)
From S2P Require Import Prelude Std Deps Command Errors Aggregate Proto Event EventStore.
From S2P Require Import Client Snapshot Actor Cursor Projection ProcessManager LiveTypes Store.
From S2P Require Import Live Locks Codec Demo DemoApp EventFacts ClientFacts DiskFacts ActorFacts.
From S2P Require Import ProjectionFacts ProcessManagerFacts StoreFacts LiveFacts LocksFacts.
Open Scope N_scope.

#[local] Arguments save_one : simpl never.
#[local] Arguments fan_out_one : simpl never.

Section locks_envelopes.
Context {J : SerdeJson} {U : UuidOps} {T : Tonic}.
Context {Store : Type} {ES : EventStoreOps Store} {EL : EventLogOps Store}.
Context {F : Type} {FS : FileSystem F} {FL : FileSystemLaws F} {SD : Serde DeadLetterEntry}.
Context {TypeId : Type} `{!EqDecision TypeId, !Countable TypeId}.
Context {Agg : TypeId → Type} {AG : ∀ t, Aggregate (Agg t)}.
Context {CD : ∀ t, CommandDe (Agg t)} {SA : ∀ t, Serde (Snapshot (Agg t))}.
Context {ProjId : Type} `{!EqDecision ProjId}.
Context {Proj : ProjId → Type} {PJ : ∀ p, Projection (Proj p)}.
Context {SP : ∀ p, Serde (ProjectionCheckpoint (Proj p))}.
Context {PmId : Type} {Pm : PmId → Type} {PMC : ∀ q, ProcessManager (Pm q)}.
Context {SM : ∀ q, Serde (ProcessManagerCheckpoint (Pm q))}.
Context {LS : EventLogSpec Store} {SLS : EventStoreLogSpec Store}.

Abbreviation World := (AggregateStore (Store := Store) (F := F) (TypeId := TypeId)
  (Agg := Agg) (ProjId := ProjId) (Proj := Proj) (PmId := PmId) (Pm := Pm)).
Abbreviation Locks := (Locks (Store := Store) (F := F) (TypeId := TypeId)
  (Agg := Agg) (ProjId := ProjId) (Proj := Proj) (PmId := PmId) (Pm := Pm)).
Abbreviation CallPc := (CallPc (Proj := Proj)).
Abbreviation AnyProjection := (sigT (λ p : ProjId, ProjectionRunner (Proj p))).
Abbreviation AnyPm := (sigT (λ q : PmId, ProcessManagerRunner (Pm q))).
Abbreviation Items := (list (result SubscribeResponse Status)).

(** ** The account of a store *)

Lemma stream_events_take n (stream : list (result SubscribeResponse Status)) :
  stream_events (take n stream) `prefix_of` stream_events stream.
Proof.
  rewrite <-(take_drop n stream) at 2. generalize (take n stream), (drop n stream). clear.
  intros l k. induction l as [|x l IH]; simpl; [apply prefix_nil|].
  repeat case_match; try done; by apply prefix_cons.
Qed.

(** Every runner is at a right checkpoint, and the process managers have
    emitted [total] in all, in whatever order. *)
Definition accounts (w : World) (total : list CommandEnvelope) : Prop :=
  projections_ok w ∧
  ∃ outs, pms_at (log_of (client w)) (process_managers w) outs ∧ mjoin outs ≡ₚ total.

(** The log has grown and no cursor has moved back. *)
Definition later (w w' : World) : Prop :=
  log_of (client w) `prefix_of` log_of (client w') ∧
  ∀ key, option_Forall2 N.le (position_of w key) (position_of w' key).

(** A step in which the process managers emit [new]. *)
Definition emit_step (w w' : World) (total new : list CommandEnvelope) : Prop :=
  later w w' ∧ accounts w' (total ++ new).

#[local] Instance option_le_preorder : PreOrder (option_Forall2 N.le).
Proof.
  split; [intros [n|]; constructor; reflexivity|].
  intros a b c [x y Hxy|] Hbc; inversion Hbc; constructor; lia.
Qed.

#[local] Instance later_preorder : PreOrder later.
Proof.
  split.
  - intros w. by split.
  - intros w1 w2 w3 [H1 H2] [H3 H4]. split; [by etrans|]. intros key. etrans; [apply H2|apply H4].
Qed.

#[local] Instance accounts_proper w : Proper ((≡ₚ) ==> iff) (accounts w).
Proof.
  intros l1 l2 Hl. unfold accounts.
  split; intros (H & outs & H1 & H2); (split; [done|]); exists outs; (split; [done|]).
  - by rewrite H2.
  - by rewrite H2.
Qed.

Lemma frame_later (w w' : World) :
  frame w w' → log_of (client w) `prefix_of` log_of (client w') → later w w'.
Proof.
  intros (Hp & Hq & _) Hg. split; [done|]. intros [name|i]; simpl; rewrite ?Hp, ?Hq; reflexivity.
Qed.

Lemma frame_emits (w w' : World) total :
  frame w w' → log_of (client w) `prefix_of` log_of (client w') →
  accounts w total → emit_step w w' total [].
Proof.
  intros Hf Hg (H1 & outs & H2 & H3). split; [by apply frame_later|]. rewrite app_nil_r.
  destruct Hf as (Hp & Hq & _). split.
  - intros name x. rewrite Hq. intros Hx%H1. unfold any_projection_ok in *.
    eapply checkpoint_ok_grow; [apply log_of_ok|exact Hg|exact Hx].
  - exists outs. rewrite Hp. split; [|done]. by eapply pms_at_grow; [apply log_of_ok|exact Hg|].
Qed.

(** A projection is replaced by one that is further on. *)
Lemma projection_emits (w w' : World) name (x y : AnyProjection) total :
  accounts w total → log_of (client w) `prefix_of` log_of (client w') →
  process_managers w' = process_managers w → projections w' = <[name := y]> (projections w) →
  projections w !! name = Some x → any_projection_ok (log_of (client w')) y →
  any_projection_position x ≤ any_projection_position y →
  emit_step w w' total [].
Proof.
  intros (H1 & outs & H2 & H3) Hg Hpm Hpr Hx Hy Hle.
  split; [split; [done|]|rewrite app_nil_r; split].
  - intros [name'|i]; simpl; rewrite ?Hpm, ?Hpr; [|reflexivity].
    destruct (decide (name' = name)) as [->|Hne].
    + rewrite Hx, lookup_insert_eq. by constructor.
    + by rewrite lookup_insert_ne.
  - intros name' z. rewrite Hpr, lookup_insert_Some. intros [[_ <-]|[_ Hz%H1]]; [done|].
    unfold any_projection_ok in *. eapply checkpoint_ok_grow; [apply log_of_ok|exact Hg|exact Hz].
  - exists outs. split; [|done]. rewrite Hpm. by eapply pms_at_grow; [apply log_of_ok|exact Hg|].
Qed.

Lemma mjoin_insert_app (outs : list (list CommandEnvelope)) i out new :
  outs !! i = Some out → mjoin (<[i := out ++ new]> outs) ≡ₚ mjoin outs ++ new.
Proof.
  revert i; induction outs as [|o outs IH]; intros [|i]; simpl; intros; simplify_eq.
  - solve_Permutation.
  - rewrite IH by done. solve_Permutation.
Qed.

(** A process manager is replaced by one that has emitted [new] more. *)
Lemma pm_emits (w w' : World) i {q} (pm pm1 : ProcessManagerRunner (Pm q)) total :
  accounts w total → log_of (client w) `prefix_of` log_of (client w') →
  projections w' = projections w →
  process_managers w' = <[i := existT q pm1]> (process_managers w) →
  process_managers w !! i = Some (existT q pm) →
  (∀ out, pm_at (log_of (client w)) (pm_checkpoint pm) out →
     ∃ new, pm_at (log_of (client w')) (pm_checkpoint pm1) (out ++ new) ∧
            pm_position pm ≤ pm_position pm1) →
  ∃ new, emit_step w w' total new ∧
    ∃ out, pm_at (log_of (client w)) (pm_checkpoint pm) out ∧
           pm_at (log_of (client w')) (pm_checkpoint pm1) (out ++ new).
Proof.
  intros (H1 & outs & H2 & H3) Hg Hpr Hpms Hi Hpm.
  destruct (Forall2_lookup_l _ _ _ _ _ H2 Hi) as (out & Hout & Hat). simpl in Hat.
  destruct (Hpm out Hat) as (new & Hat' & Hle). exists new. split; [|by exists out].
  split; [split; [done|]|split].
  - intros [name|j]; simpl; rewrite ?Hpr, ?Hpms; [reflexivity|].
    destruct (decide (j = i)) as [->|Hne].
    + rewrite Hi, list_lookup_insert_eq by (by eapply lookup_lt_Some). by constructor.
    + by rewrite list_lookup_insert_ne.
  - intros name z. rewrite Hpr. intros Hz%H1. unfold any_projection_ok in *.
    eapply checkpoint_ok_grow; [apply log_of_ok|exact Hg|exact Hz].
  - exists (<[i := out ++ new]> outs). rewrite Hpms. split.
    + apply Forall2_insert; [|done]. by eapply pms_at_grow; [apply log_of_ok|exact Hg|].
    + rewrite mjoin_insert_app by done. by rewrite H3.
Qed.

(** ** The critical sections *)

Lemma catch_up_one_emits (w w' : World) i r total :
  accounts w total → catch_up_one w i = (w', r) →
  ∃ new, emit_step w w' total new ∧ ∀ work, r = Ok work → work.1 = new.
Proof.
  intros Ha. unfold catch_up_one. destruct (process_managers w !! i) as [[q pm]|] eqn:Hi.
  2:{ intros [= <- <-]. exists []. split; [|done]. split; [reflexivity|by rewrite app_nil_r]. }
  destruct (pm_catch_up (client w) pm) as [[s pm1] pr] eqn:Hup. intros [= <- <-].
  assert (log_of (client w) `prefix_of` log_of s) as Hg.
  { apply pm_catch_up_cases in Hup as [_ [(_ & _ & x & Hs)|(x & Hs & _)]];
      by eapply subscribe_grows. }
  destruct (pm_emits w (set_pm (set_client w s) i (existT q pm1)) i pm pm1 total Ha Hg eq_refl eq_refl Hi) as (new & Hstep & out & Hat & Hat').
  { intros out Hat. destruct (pm_catch_up_at _ _ _ _ _ _ Hat Hup) as (new & H1 & H2 & _).
    by exists new. }
  exists new. split; [exact Hstep|]. intros work Hw.
  destruct (pm_catch_up_at _ _ _ _ _ _ Hat Hup) as (new' & H1 & _ & _ & H2).
  pose proof (pm_at_unique _ _ _ _ Hat' H1) as Heq%app_inv_head. subst new'.
  destruct pr as [envs|e|]; simplify_eq/=. by apply H2.
Qed.

Lemma save_one_emits (w w' : World) key r total :
  accounts w total → save_one w key = (w', r) → emit_step w w' total [].
Proof.
  intros Ha [Hf Hc]%save_one_frame. apply frame_emits; [done| |done]. by rewrite Hc.
Qed.

Lemma set_client_emits (w : World) s total :
  accounts w total → log_of (client w) `prefix_of` log_of s → emit_step w (set_client w s) total [].
Proof. intros Ha Hg. by apply frame_emits. Qed.

Lemma call_projection_emits (w w' : World) p r total :
  accounts w total → projection w p = (w', r) → emit_step w w' total [].
Proof.
  intros Ha. unfold projection. destruct (projections w !! _) as [[p' x]|] eqn:Hx.
  2:{ intros [= <- <-]. by apply frame_emits. }
  destruct (catch_up (client w) (fs w) x) as [[[s f] x'] res] eqn:Hup.
  pose proof (proj1 Ha _ _ Hx) as Hok. unfold any_projection_ok in Hok. simpl in Hok.
  destruct (catch_up_checkpoint_ok _ _ _ _ _ _ _ Hok Hup) as (H1 & Hg & H2).
  destruct res as [[]|e|]; [destruct (downcast _ p)|..]; intros [= <- <-];
    by eapply projection_emits.
Qed.

Lemma all_positions_iff P (w : World) :
  all_positions P w ↔ ∀ key p, position_of w key = Some p → P p.
Proof.
  split.
  - intros [H1 H2] [name|i] p; simpl; intros (x & Hx & ->)%fmap_Some; [by eapply H1|].
    apply H2. by apply list_elem_of_lookup_2 in Hx.
  - intros H. split.
    + intros name x Hx. apply (H (KProj name)). simpl. by rewrite Hx.
    + intros x [i Hx]%list_elem_of_lookup. apply (H (KPm i)). simpl. by rewrite Hx.
Qed.

Lemma all_keys_complete (w : World) key p : position_of w key = Some p → key ∈ all_keys w.
Proof.
  unfold all_keys. rewrite elem_of_app. destruct key as [name|i]; simpl;
    intros (x & Hx & ->)%fmap_Some; [left|right].
  - apply list_elem_of_fmap. exists (name, x). split; [done|]. by apply elem_of_map_to_list.
  - apply list_elem_of_fmap. exists i. split; [done|]. apply elem_of_seq.
    apply lookup_lt_Some in Hx. lia.
Qed.

Lemma later_position (w w' : World) key p' :
  later w w' → position_of w' key = Some p' → ∃ p, position_of w key = Some p ∧ p ≤ p'.
Proof.
  intros [_ H] Hp. specialize (H key). rewrite Hp in H. inversion H; subst. by eexists.
Qed.

Lemma all_positions_later (P : N → Prop) (w w' : World) :
  (∀ p p', P p → p ≤ p' → P p') → later w w' → all_positions P w → all_positions P w'.
Proof.
  intros HP Hl. rewrite !all_positions_iff. intros H key p' Hp'.
  destruct (later_position _ _ _ _ Hl Hp') as (p & Hp & Hle). by eapply HP, Hle; eapply H.
Qed.

Lemma stream_ok_later (w w' : World) (stream : Items) :
  later w w' → stream_ok w stream → stream_ok w' stream.
Proof.
  intros Hl (from & del & H1 & H2 & H3). exists from, del. split_and!.
  - etrans; [exact H1|apply events_from_grow, Hl].
  - eapply all_positions_later; [|exact Hl|exact H2]. lia.
  - intros d Hd. eapply all_positions_later; [|exact Hl|by apply H3]. simpl. lia.
Qed.

(** The live loop's event on one runner. *)
Lemma fan_out_one_emits (w w' : World) key r stream new total :
  accounts w total → stream_ok w (event_item r :: stream) → fan_out_one w key r = (w', new) →
  emit_step w w' total (mjoin new.*1) ∧
  ∀ p, position_of w' key = Some p → re_global_position r < p.
Proof.
  intros Ha (from & delivered & Hpre & Hfrom & Hdel).
  rewrite all_positions_iff in Hfrom. setoid_rewrite all_positions_iff in Hdel.
  pose proof (log_of_ok (client w)) as Hok.
  assert ((delivered ++ [r]) `prefix_of` events_from from (log_of (client w))) as Hpre1.
  { simpl in Hpre. rewrite cons_middle, (assoc_L (++)) in Hpre. by eapply prefix_app_l. }
  unfold fan_out_one. destruct key as [name|i].
  - intros [= <- <-]. destruct (projections w !! name) as [x|] eqn:Hx.
    + assert (position_of w (KProj name) = Some (any_projection_position x)) as Hp
        by (simpl; by rewrite Hx).
      destruct (apply_event_ok _ from delivered r x Hok Hpre1 (Hfrom _ _ Hp)
                  (λ d Hd, Hdel d Hd _ _ Hp) (proj1 Ha _ _ Hx)) as (H1 & H2 & H3).
      split; [eapply projection_emits; [done|reflexivity|reflexivity| |exact Hx|exact H1|exact H3]|].
      * simpl. by rewrite <-(insert_id _ _ _ Hx) at 1; rewrite alter_insert_eq.
      * simpl. rewrite lookup_alter_eq, Hx. intros p Hq. by injection Hq as <-.
    + split; [|intros p; simpl; by rewrite lookup_alter_eq, Hx]. apply frame_emits; [|done|done].
      split_and!; try done. simpl. apply map_eq. intros name'.
      destruct (decide (name' = name)) as [->|Hne]; [by rewrite lookup_alter_eq, Hx|].
      by rewrite lookup_alter_ne.
  - destruct (process_managers w !! i) as [[q pm]|] eqn:Hi.
    2:{ intros [= <- <-]. split; [by apply frame_emits|]. intros p; simpl; by rewrite Hi. }
    assert (position_of w (KPm i) = Some (pm_position pm)) as Hp by (simpl; by rewrite Hi).
    pose proof (λ out Hat, react_event_ok _ from delivered r pm out Hok Hpre1 (Hfrom _ _ Hp)
                  (λ d Hd, Hdel d Hd _ _ Hp) Hat) as Hre.
    destruct (react_event pm r) as [pm1 envelopes]. simpl in Hre. intros [= <- <-].
    destruct (pm_emits w (set_pm w i (existT q pm1)) i pm pm1 total Ha
                ltac:(reflexivity) eq_refl eq_refl Hi) as (new & Hst & out & Hat & Hat').
    { intros out Hat. destruct (Hre out Hat) as (H1 & _ & H3). by exists envelopes. }
    destruct (Hre out Hat) as (H1 & H2 & _).
    pose proof (pm_at_unique _ _ _ _ Hat' H1) as Heq%app_inv_head. subst new.
    split; [by destruct envelopes; simpl; rewrite ?app_nil_r|]. intros p. simpl.
    rewrite list_lookup_insert_eq by (by eapply lookup_lt_Some). intros Hq. by injection Hq as <-.
Qed.

(** A call whose future is dropped: what its catch-up had consumed is emitted
    and lost, if it was a process manager's. *)
Lemma drop_in_catch_up_emits (w : World) pc n total :
  accounts w total →
  ∃ new, emit_step w (drop_in_catch_up w pc n) total new ∧
    (new = [] ∨ ∃ i work, pc = CatchUpHolding i work).
Proof.
  intros Ha.
  assert (emit_step w w total []) as Hsame by (by apply frame_emits).
  destruct pc as [p queued|p|p queued|i queued work|i work|work report|i queued report|o]; simpl;
    try (exists []; split; [exact Hsame|by left]).
  - exists []. split; [|by left]. destruct (projections w !! _) as [[p' x]|] eqn:Hx; [|done].
    destruct (subscribe_all_from (client w) _) as [s [str|e|]] eqn:Hs;
      pose proof (subscribe_grows _ _ _ _ Hs) as Hg; [|by apply set_client_emits..].
    pose proof (proj1 Ha _ _ Hx) as Hok. unfold any_projection_ok in Hok. simpl in Hok.
    destruct (process_stream (pr_checkpoint x) (take n str)) as [c res] eqn:Hp.
    eapply process_stream_ok in Hp as (H1 & H2 & _);
      [|by eapply checkpoint_ok_grow; [apply log_of_ok|exact Hg|]|reflexivity|].
    + by eapply projection_emits.
    + etrans; [apply stream_events_take|by eapply subscribe_ok].
  - destruct (process_managers w !! i) as [[q pm]|] eqn:Hi; [|by exists []; split; [|left]].
    destruct (subscribe_all_from (client w) _) as [s [str|e|]] eqn:Hs;
      pose proof (subscribe_grows _ _ _ _ Hs) as Hg;
      [|by exists []; split; [apply set_client_emits|left]..].
    destruct (pm_process_stream (pm_checkpoint pm) [] (take n str)) as [c res] eqn:Hp. simpl.
    edestruct (pm_emits w) as (new & Hst & _);
      [exact Ha| | | |exact Hi| |by exists new; split; [exact Hst|right; by do 2 eexists]];
      [exact Hg|reflexivity|reflexivity|].
    intros out Hat. apply pm_process_stream_cursor in Hp as (o & Hrun & _). exists o.
    eapply pm_at_grow in Hat; [|apply log_of_ok|exact Hg].
    eapply cursor_run_inv in Hrun as (H1 & H2 & _);
      [|apply (log_of_ok s)|exact Hat|reflexivity|]; [done|].
    etrans; [apply batch_events_prefix|]. etrans; [apply stream_events_take|by eapply subscribe_ok].
Qed.

(** ** Where every envelope is *)

Definition handled (h : list LockEvent) : list CommandEnvelope :=
  h ≫= λ e, match e with Handled x => [x] | _ => [] end.
Definition lost (h : list LockEvent) : list CommandEnvelope :=
  h ≫= λ e, match e with Lost l => l | _ => [] end.
Definition pending_in (s : Locks) : list CommandEnvelope :=
  mjoin (call_pending <$> lk_calls s) ++ loop_pending (lk_loop s).

(** What was in hand and what is new has been routed, is lost, or is in hand. *)
Definition moved (before new : list CommandEnvelope) (h : list LockEvent)
    (after : list CommandEnvelope) : Prop :=
  before ++ new ≡ₚ handled h ++ lost h ++ after.

Lemma flatten_work_snoc (all_work : list (list CommandEnvelope * path)) work :
  (flatten_work (all_work ++ [work])).*1 = (flatten_work all_work).*1 ++ work.1.
Proof.
  rewrite !flatten_work_envelopes, fmap_app, join_app. simpl. by rewrite app_nil_r.
Qed.

#[local] Instance prefix_of_log : PreOrder (λ s s' : Store, log_of s `prefix_of` log_of s').
Proof. split; [intros s; reflexivity|intros s1 s2 s3 H1 H2; by etrans]. Qed.

Lemma dispatch_one_emits (w w' : World) e report r total :
  accounts w total → dispatch_one w e report = (w', r) → emit_step w w' total [].
Proof.
  intros Ha Hd. apply (dispatch_one_frame_of (λ s s', log_of s `prefix_of` log_of s'))
    in Hd as [Hf Hg]; [by apply frame_emits| |].
  - intros; by eapply append_log_grows.
  - intros; by eapply read_log_grows.
Qed.

Lemma live_dispatch_emits (w w' : World) e r total :
  accounts w total → live_dispatch w e = (w', r) → emit_step w w' total [].
Proof. intros Ha [Hf Hg]%live_dispatch_frame. by apply frame_emits. Qed.

Lemma begin_call_pending (w : World) c : call_pending (begin_call w c) = [].
Proof. destruct c; simpl; repeat case_match; done. Qed.

Lemma call_turn_account (w w' : World) m m' k pc pc' h total :
  accounts w total → call_turn w m k pc = Some (w', m', pc', h) →
  ∃ new unknown, emit_step w w' total (new ++ unknown) ∧
    moved (call_pending pc) new h (call_pending pc') ∧ (CatchUpFailed ∉ h → unknown = []).
Proof.
  intros Ha.
  assert (∀ w1, emit_step w w1 total [] → moved (call_pending pc) [] h (call_pending pc') →
    ∃ new unknown, emit_step w w1 total (new ++ unknown) ∧
      moved (call_pending pc) new h (call_pending pc') ∧ (CatchUpFailed ∉ h → unknown = []))
    as Hquiet by (intros w1 Hst Hm; by exists [], []).
  assert (emit_step w w total []) as Hsame by (by apply frame_emits).
  unfold moved in *.
  destruct pc as [p queued|p|p queued|i queued work|i work|[|e work] report|i queued report|o];
    simpl in *; try done.
  - case_match; intros; simplify_eq; by apply Hquiet.
  - destruct (projection w p) as [w1 r] eqn:Hp. intros; simplify_eq.
    apply Hquiet; [by eapply call_projection_emits|by destruct r].
  - case_match; intros; simplify_eq; by apply Hquiet.
  - repeat case_match; intros; simplify_eq; (apply Hquiet; [done|]); simpl; by rewrite app_nil_r.
  - destruct (catch_up_one w i) as [w1 r] eqn:Hc.
    destruct (catch_up_one_emits _ _ _ _ _ Ha Hc) as (new & Hst & Hnew).
    destruct r as [x|e|]; intros; simplify_eq.
    + exists new, []. rewrite app_nil_r. split_and!; [done| |done]. simpl.
      by rewrite flatten_work_snoc, (Hnew _ eq_refl).
    + exists [], new. split_and!; [done| |set_solver]. simpl. by rewrite !app_nil_r.
    + exists [], new. split_and!; [done| |set_solver]. simpl. by rewrite !app_nil_r.
  - intros; simplify_eq. by apply Hquiet.
  - destruct (dispatch_one w e report) as [w1 r] eqn:Hd.
    apply (dispatch_one_emits _ _ _ _ _ _ Ha) in Hd.
    destruct r; intros; simplify_eq; (apply Hquiet; [done|]); simpl; by rewrite ?app_nil_r.
  - destruct (decide _) as [Hi|]; [|intros; simplify_eq; by apply Hquiet].
    case_match; [|intros; simplify_eq; by apply Hquiet|done].
    destruct (save_one w (KPm i)) as [w1 r] eqn:Hsv.
    apply (save_one_emits _ _ _ _ _ Ha) in Hsv. intros; simplify_eq.
    apply Hquiet; [done|by destruct r].
Qed.

(** ** Where the loop is *)

(** In a fan-out, the runners that are left may still miss the event, the
    others are past it. *)
Definition stream_inv (w : World) (sp : StreamPc) : Prop :=
  match sp with
  | SReading stream | SDispatching _ _ stream => stream_ok w stream
  | SFanOut r keys _ _ stream =>
      stream_ok w (event_item r :: stream) ∧
      ∀ key p, position_of w key = Some p → key ∈ keys ∨ re_global_position r < p
  end.

(** While the minimum is computed, the runners that are left may be below it. *)
Definition loop_inv (w : World) (pc : LoopPc) : Prop :=
  match pc with
  | LMinimum keys _ acc => ∀ key p, position_of w key = Some p → key ∈ keys ∨ acc ≤ p
  | LSubscribing from => all_positions (λ p, from ≤ p) w
  | LStreaming sp _ => stream_inv w sp
  | _ => True
  end.

Lemma stream_inv_later (w w' : World) sp : later w w' → stream_inv w sp → stream_inv w' sp.
Proof.
  intros Hl. destruct sp as [stream|r keys queued work stream|r work stream]; simpl;
    try by apply stream_ok_later.
  intros [H1 H2]. split; [by eapply stream_ok_later|]. intros key p' Hp'.
  destruct (later_position _ _ _ _ Hl Hp') as (p & Hp & Hle). destruct (H2 _ _ Hp); [by left|].
  right. lia.
Qed.

Lemma loop_inv_later (w w' : World) pc : later w w' → loop_inv w pc → loop_inv w' pc.
Proof.
  intros Hl. destruct pc; simpl; try done.
  - intros H key p' Hp'. destruct (later_position _ _ _ _ Hl Hp') as (p & Hp & Hle).
    destruct (H _ _ Hp); [by left|]. right. lia.
  - apply all_positions_later; [lia|done].
  - by apply stream_inv_later.
Qed.

(** When every runner is past an event, it is delivered. *)
Lemma stream_ok_delivered (w : World) r stream :
  stream_ok w (event_item r :: stream) →
  (∀ key p, position_of w key = Some p → re_global_position r < p) → stream_ok w stream.
Proof.
  intros (from & del & H1 & H2 & H3) Hr. exists from, (del ++ [r]). split_and!; [|done|].
  - simpl in H1. by rewrite <-(assoc_L (++)).
  - intros d [Hd|Hd%list_elem_of_singleton]%elem_of_app; [by apply H3|]. subst d.
    by apply all_positions_iff.
Qed.

Lemma stream_turn_account (w w' : World) cells cells' m m' sp polled h total :
  accounts w total → stream_inv w sp →
  stream_turn w cells m sp = Some (w', cells', m', polled, h) →
  ∃ new, emit_step w w' total new ∧ (CatchUpFailed ∉ h) ∧
    moved (stream_pending sp) new h
      (match polled with StillIn sp' => stream_pending sp' | _ => [] end) ∧
    match polled with StillIn sp' => stream_inv w' sp' | _ => True end.
Proof.
  intros Ha Hinv.
  assert (emit_step w w total []) as Hsame by (by apply frame_emits).
  unfold moved.
  destruct sp as [[|[[[[r|]|]]|e|] str]|r [|key keys] queued work str|r [|e work] str];
    simpl in *; try (intros; simplify_eq; exists []; split_and!; [done|set_solver|done|done]).
  - intros; simplify_eq. exists []. split_and!; [done|set_solver|done|]. split; [done|].
    intros key p Hp. left. by eapply all_keys_complete.
  - intros; simplify_eq. exists []. split_and!; [done|set_solver|simpl; by rewrite app_nil_r|].
    simpl. destruct Hinv as [H1 H2]. eapply stream_ok_delivered; [exact H1|].
    intros key p Hp. destruct (H2 _ _ Hp) as [Hin|]; [by apply elem_of_nil in Hin|done].
  - destruct Hinv as [H1 H2]. destruct (attempt m key OStream queued); [| |done].
    + destruct (fan_out_one w key r) as [w1 new] eqn:Hfan. intros; simplify_eq.
      destruct (fan_out_one_emits _ _ _ _ _ _ _ Ha H1 Hfan) as [Hst Hp].
      exists (mjoin new.*1). split_and!; [done|set_solver| |].
      * simpl. by rewrite !flatten_work_envelopes, fmap_app, join_app.
      * split; [by eapply stream_ok_later; [apply Hst|]|]. intros key' p' Hp'.
        destruct (decide (key' = key)) as [->|Hne]; [right; by apply Hp|].
        destruct (later_position _ _ _ _ (proj1 Hst) Hp') as (p & Hp0 & Hle).
        destruct (H2 _ _ Hp0) as [[?|?]%elem_of_cons|]; [done|by left|right; lia].
    + intros; simplify_eq. exists []. simpl. rewrite app_nil_r. split_and!; [done|set_solver|done|done..].
  - destruct (live_dispatch w e) as [w1 r1] eqn:Hd.
    apply (live_dispatch_emits _ _ _ _ _ Ha) in Hd.
    destruct r1; intros; simplify_eq; exists []; simpl; rewrite !app_nil_r;
      (split_and!; [done|set_solver|done|]); try done.
    by eapply stream_ok_later; [apply Hd|].
Qed.

Lemma save_turn_emits (w w' : World) m m' keys queued out total :
  accounts w total → save_turn w m keys queued = Some (w', m', out) → emit_step w w' total [].
Proof.
  intros Ha. assert (emit_step w w total []) as Hsame by (by apply frame_emits).
  destruct keys as [|key keys]; simpl; [by intros; simplify_eq|].
  destruct (attempt m key OLoop queued); [|by intros; simplify_eq|done].
  destruct (save_one w key) as [w1 r] eqn:Hsv. intros; simplify_eq/=.
  by eapply save_one_emits.
Qed.

Lemma loop_turn_account (s s' : Locks) h total :
  accounts (lk_store s) total → loop_inv (lk_store s) (lk_loop s) → loop_turn s = Some (s', h) →
  emit_step (lk_store s) (lk_store s') total [] ∧ (CatchUpFailed ∉ h) ∧
  moved (loop_pending (lk_loop s)) [] h (loop_pending (lk_loop s')) ∧
  loop_inv (lk_store s') (lk_loop s') ∧ lk_calls s' = lk_calls s.
Proof.
  intros Ha Hinv. assert (emit_step (lk_store s) (lk_store s) total []) as Hsame by (by apply frame_emits).
  unfold loop_turn, moved.
  destruct (lk_loop s) as [|[|key keys] queued acc|from| |sp [[[keys queued] returns]|]
                           |keys queued next| |r] eqn:Hpc; simpl in *; try done.
  - destruct (shutdown_signal (lk_cells s)); intros; simplify_eq;
      (split_and!; [done|set_solver|done| |done]); [done|].
    intros key p Hp. left. by eapply all_keys_complete.
  - intros; simplify_eq. split_and!; [done|set_solver|done| |done]. simpl.
    apply all_positions_iff. intros key p Hp. destruct (Hinv _ _ Hp) as [Hin|Hle].
    + by apply elem_of_nil in Hin.
    + destruct (acc =? u64_MAX); [lia|done].
  - destruct (attempt _ key OLoop queued); [| |done]; intros; simplify_eq;
      (split_and!; [done|set_solver|done| |done]); [|done].
    intros key' p Hp. simpl in *. destruct (Hinv _ _ Hp) as [[->|Hin]%elem_of_cons|Hle].
    + right. rewrite Hp. simpl. lia.
    + by left.
    + right. lia.
  - destruct (subscribe_all_from (client (lk_store s)) from) as [c r] eqn:Hsub.
    pose proof (set_client_emits _ c _ Ha (subscribe_grows _ _ _ _ Hsub)) as Hst.
    destruct r as [stream|e|]; intros; simplify_eq; (split_and!; [done|set_solver|done| |done]);
      [|done|done].
    simpl. exists from, []. split_and!; [by eapply subscribe_ok|exact Hinv|set_solver].
  - destruct (save_turn _ _ keys queued) as [[[w1 m1] [[keys1 queued1]|]]|] eqn:Hsv; [| |done];
      apply (save_turn_emits _ _ _ _ _ _ _ _ Ha) in Hsv as Hst;
      pose proof (stream_inv_later _ _ sp (proj1 Hst) Hinv) as Hsp.
    + intros; simplify_eq. simpl. rewrite app_nil_r. by split_and!; [|set_solver| | |].
    + destruct returns; intros; simplify_eq; simpl; rewrite ?app_nil_r;
        by split_and!; [|set_solver| | |].
  - destruct (save_turn _ _ keys queued) as [[[w1 m1] [[keys1 queued1]|]]|] eqn:Hsv; [| |done];
      apply (save_turn_emits _ _ _ _ _ _ _ _ Ha) in Hsv as Hst;
      intros; simplify_eq; [by split_and!; [|set_solver| | |]|].
    destruct next; by split_and!; [|set_solver| | |].
Qed.

(** ** The invariant *)

Definition accounted (base : list CommandEnvelope) (h : list LockEvent) (s : Locks) : Prop :=
  loop_inv (lk_store s) (lk_loop s) ∧
  ∃ unknown, accounts (lk_store s) (base ++ handled h ++ lost h ++ pending_in s ++ unknown) ∧
    (CatchUpFailed ∉ h → unknown = []).

Lemma handled_app h h' : handled (h ++ h') = handled h ++ handled h'.
Proof. apply bind_app. Qed.
Lemma lost_app h h' : lost (h ++ h') = lost h ++ lost h'.
Proof. apply bind_app. Qed.

Lemma accounted_step base h h' (s s' : Locks) :
  (∀ total, accounts (lk_store s) total →
     ∃ new unknown', emit_step (lk_store s) (lk_store s') total (new ++ unknown') ∧
       moved (pending_in s) new h' (pending_in s') ∧ (CatchUpFailed ∉ h' → unknown' = [])) →
  (later (lk_store s) (lk_store s') → loop_inv (lk_store s') (lk_loop s')) →
  accounted base h s → accounted base (h ++ h') s'.
Proof.
  intros Hstep Hinv [_ (unknown & Ha & Hu)].
  destruct (Hstep _ Ha) as (new & unknown' & [Hl Ha'] & Hm & Hu').
  split; [by apply Hinv|]. exists (unknown ++ unknown'). split.
  - revert Ha'. apply accounts_proper. rewrite handled_app, lost_app. unfold moved in Hm.
    trans (base ++ handled h ++ lost h ++ (pending_in s ++ new) ++ unknown ++ unknown');
      [|solve_Permutation]. rewrite Hm. solve_Permutation.
  - rewrite not_elem_of_app. intros [H1 H2]. by rewrite Hu, Hu'.
Qed.

Lemma mjoin_insert (ls : list (list CommandEnvelope)) i x y :
  ls !! i = Some x → ∃ rest, mjoin ls ≡ₚ x ++ rest ∧ mjoin (<[i := y]> ls) ≡ₚ y ++ rest.
Proof.
  revert i; induction ls as [|l ls IH]; intros [|i]; simpl; intros; simplify_eq; [by eexists|].
  destruct (IH i) as (rest & H1 & H2); [done|]. exists (l ++ rest). rewrite H1, H2.
  split; solve_Permutation.
Qed.

Lemma pending_insert (calls : list CallPc) k pc pc' before new h :
  calls !! k = Some pc → moved (call_pending pc) new h (call_pending pc') →
  moved (mjoin (call_pending <$> calls) ++ before) new h
    (mjoin (call_pending <$> <[k := pc']> calls) ++ before).
Proof.
  intros Hk Hm. unfold moved in *. rewrite list_fmap_insert.
  destruct (mjoin_insert (call_pending <$> calls) k (call_pending pc) (call_pending pc'))
    as (rest & -> & ->); [by rewrite list_lookup_fmap, Hk|].
  trans ((call_pending pc ++ new) ++ rest ++ before); [solve_Permutation|]. rewrite Hm.
  solve_Permutation.
Qed.

(** A step at which nothing is emitted and nothing changes hands. *)
Lemma accounted_quiet base h (s s' : Locks) :
  frame (lk_store s) (lk_store s') →
  log_of (client (lk_store s)) `prefix_of` log_of (client (lk_store s')) →
  pending_in s' = pending_in s →
  (later (lk_store s) (lk_store s') → loop_inv (lk_store s') (lk_loop s')) →
  accounted base h s → accounted base h s'.
Proof.
  intros Hf Hg Hp Hi Ha. rewrite <-(app_nil_r h). eapply accounted_step; [|exact Hi|exact Ha].
  intros total Htot. exists [], []. split_and!; [by apply frame_emits| |done].
  unfold moved. simpl. by rewrite Hp, app_nil_r.
Qed.

Lemma drop_call_accounted base h (s s' : Locks) k n h' :
  lock_next s (DropCall k n) = Some (s', h') → accounted base h s → accounted base (h ++ h') s'.
Proof.
  simpl. destruct (lk_calls s !! k) as [pc|] eqn:Hk; [|done]. simpl. intros Hd Ha.
  assert (s' = mk_Locks (drop_in_catch_up (lk_store s) pc n) (lk_cells s) (lk_backoff s)
            (forget (OCall k) (lk_mutexes s)) (lk_loop s) (<[k := Over Dropped]> (lk_calls s)) ∧
          handled h' = [] ∧ lost h' = call_pending pc ∧
          (CatchUpFailed ∉ h' → ∀ i work, pc ≠ CatchUpHolding i work)) as (-> & Hh & Hl & Hf).
  { destruct pc; simplify_eq/=; unfold lost; simpl; rewrite ?app_nil_r;
      (split_and!; [done..|]); try done. intros Hn. by destruct Hn; left. }
  eapply accounted_step; [|by intros Hl'; eapply loop_inv_later, Ha|exact Ha].
  intros total Htot. destruct (drop_in_catch_up_emits (lk_store s) pc n total Htot)
    as (unknown & Hst & Hu).
  exists [], unknown. split_and!; [done| |].
  - unfold pending_in. simpl. eapply pending_insert; [exact Hk|].
    unfold moved. rewrite Hh, Hl. simpl. by rewrite !app_nil_r.
  - intros Hf'. destruct Hu as [|(i & work & ->)]; [done|]. by destruct (Hf Hf' i work).
Qed.

Lemma lock_next_accounted base h (s s' : Locks) l h' :
  lock_next s l = Some (s', h') → accounted base h s → accounted base (h ++ h') s'.
Proof.
  intros Hn Ha. pose proof Ha as [Hinv (total0 & Hacc & _)].
  assert (∀ s1, frame (lk_store s) (lk_store s1) → client (lk_store s1) = client (lk_store s) →
            pending_in s1 = pending_in s →
            (later (lk_store s) (lk_store s1) → loop_inv (lk_store s1) (lk_loop s1)) →
            accounted base (h ++ []) s1) as Hquiet.
  { intros s1 Hf Hc Hp Hi. rewrite app_nil_r.
    eapply accounted_quiet; [done| |done|done|exact Ha]. by rewrite Hc. }
  destruct l as [| | | | | |c|k|k n]; [..|by eapply drop_call_accounted]; simpl in Hn.
  - destruct (lk_loop s) as [| | | |sp []| | |] eqn:Hpc; try done.
    destruct (stream_turn _ _ _ sp) as [[[[[w1 cells] m1] polled] h1]|] eqn:Hst; [|done].
    simplify_eq/=.
    destruct (stream_turn_account _ _ _ _ _ _ _ _ _ _ Hacc Hinv Hst) as (_ & _ & _ & _ & Hsp).
    eapply accounted_step; [|intros _; simpl; by destruct polled|exact Ha].
    intros total Htot.
    destruct (stream_turn_account _ _ _ _ _ _ _ _ _ _ Htot Hinv Hst) as (new & Hs & Hf & Hm & _).
    exists new, []. rewrite app_nil_r. split_and!; [done| |done].
    unfold pending_in. rewrite Hpc. simpl. unfold moved in *. rewrite <-(assoc_L (++)), Hm.
    destruct polled; simpl; solve_Permutation.
  - destruct (loop_turn_account _ _ _ _ Hacc Hinv Hn) as (_ & _ & _ & Hi & Hc).
    eapply accounted_step; [|done|exact Ha]. intros total Htot.
    destruct (loop_turn_account _ _ _ _ Htot Hinv Hn) as (Hs & Hf & Hm & _).
    exists [], []. split_and!; [done| |done]. unfold pending_in, moved in *. rewrite Hc.
    rewrite app_nil_r in *. rewrite Hm. solve_Permutation.
  - destruct (lk_loop s) as [| | | |sp []| | |] eqn:Hpc; try done. simplify_eq.
    apply Hquiet; [done|done| |done]. unfold pending_in. by rewrite Hpc.
  - destruct (shutdown_signal _); [|done].
    destruct (lk_loop s) as [| | | |sp []| | |] eqn:Hpc; simplify_eq;
      (apply Hquiet; [done|done| |done]); unfold pending_in; by rewrite Hpc.
  - destruct (lk_loop s) eqn:Hpc; simplify_eq; unfold delay_elapsed; case_match;
      (apply Hquiet; [done|done| |done]); unfold pending_in; by rewrite Hpc.
  - simplify_eq. by apply Hquiet.
  - simplify_eq. apply Hquiet; [done|done| |done]. unfold pending_in. simpl.
    rewrite fmap_app, join_app. simpl. by rewrite begin_call_pending, !app_nil_r.
  - destruct (lk_calls s !! k) as [pc|] eqn:Hk; [|done]. simpl in Hn.
    destruct (call_turn _ _ k pc) as [[[[w1 m1] pc1] h1]|] eqn:Hct; [|done]. simplify_eq/=.
    eapply accounted_step; [|by intros Hl; eapply loop_inv_later, Ha|exact Ha].
    intros total Htot.
    destruct (call_turn_account _ _ _ _ _ _ _ _ _ Htot Hct) as (new & unknown & Hs & Hm & Hu).
    exists new, unknown. split_and!; [done| |done]. by eapply pending_insert.
Qed.

(** C7: exactly once, whoever reads.  From a store whose runners are at right
    checkpoints, in every state that pulling tasks, the live loop and other
    writers can reach, suspended and interleaved at every lock and between any
    two critical sections: every projection is the fold of the log below its
    cursor; and of all that the process managers' workflows emit for the log below
    their cursors, on top of [outs], each envelope has been routed exactly once,
    or was lost with the task that had it (a call that failed, panicked or was
    dropped, or the loop at its end), or is in the hands of one task; unless a
    catch-up of a process manager has failed or was dropped in the middle, which
    loses the envelopes it had. *)
Theorem envelopes_handled_once (R : Store → Store → Prop) (w : World) cells b h (s : Locks) outs
    (Hgrow : ∀ s s', R s s' → log_of s `prefix_of` log_of s')
    (Hproj : projections_ok w) (Hpms : pms_at (log_of (client w)) (process_managers w) outs)
    (Hreach : lock_trace R (lock_start w cells b) h s) :
  projections_ok (lk_store s) ∧
  ∃ outs' unknown, pms_at (log_of (client (lk_store s))) (process_managers (lk_store s)) outs' ∧
    mjoin outs' ≡ₚ mjoin outs ++ handled h ++ lost h ++ pending_in s ++ unknown ∧
    (CatchUpFailed ∉ h → unknown = []).
Proof.
  assert (accounted (mjoin outs) h s) as [_ (unknown & (H1 & outs' & H2 & H3) & H4)].
  { induction Hreach as [|h s l s' h' _ IH Hn|h s c _ IH Hc].
    - split; [done|]. exists []. split; [|done]. split; [done|]. exists outs.
      split; [done|]. simpl. by rewrite app_nil_r.
    - by eapply lock_next_accounted.
    - apply Hgrow in Hc. apply (accounted_quiet _ _ s); [done|done|done| |exact IH].
      intros Hl. eapply loop_inv_later, IH. exact Hl. }
  split; [done|]. by exists outs', unknown.
Qed.
End locks_envelopes.

(** ** Witnesses, and a save that is too early *)

(** The live loop emits for the first event; a call catches up on the second one
    before the loop comes to it; both dispatch. *)
Definition demo_shared : list (LockLabel (ProjId := ())) :=
  replicate 5 LoopTurn ++ replicate 4 PollStream ++
  [NewCall AskProcessManagers; CallTurn 0; CallTurn 0; CallTurn 0; CallTurn 0; PollStream; PollStream] ++
  replicate 4 PollStream.

Lemma demo_log_grows (s s' : DemoClient) : s' = s → log_of s `prefix_of` log_of s'.
Proof. by intros ->. Qed.

Lemma envelopes_handled_once_witness :
  match lock_run demo_locks demo_shared with
  | Some (h, s) => length (handled h) = 2%nat ∧
      ∃ outs', pms_at (log_of (client (lk_store s))) (process_managers (lk_store s)) outs' ∧
        mjoin outs' ≡ₚ handled h
  | None => False
  end.
Proof.
  assert (match lock_run demo_locks demo_shared with
          | Some (h, s) => (length (handled h) =? 2)%nat && (length (lost h) =? 0)%nat &&
              (length (pending_in s) =? 0)%nat &&
              forallb (λ e, match e with CatchUpFailed => false | _ => true end) h
          | None => false
          end = true) as Hb by (vm_compute; reflexivity).
  destruct (lock_run demo_locks demo_shared) as [[h s]|] eqn:Hrun; [|discriminate Hb].
  apply andb_true_iff in Hb as [Hb Hh]. apply andb_true_iff in Hb as [Hb Hp%Nat.eqb_eq].
  apply andb_true_iff in Hb as [Hl%Nat.eqb_eq Hlost%Nat.eqb_eq].
  split; [exact Hl|].
  destruct (envelopes_handled_once (λ s s', s' = s) (demo_world (two_events [])) LiveHandle_new 1
              ([] ++ h) s [[]] demo_log_grows (proj1 (demo_world_runners _)) (demo_world_pms _ _))
    as (_ & outs' & unknown & H1 & H2 & H3).
  - eapply lock_run_trace; [apply lock_trace_start|exact Hrun].
  - exists outs'. split; [exact H1|]. simpl in H2.
    apply length_zero_iff_nil in Hlost. apply length_zero_iff_nil in Hp.
    rewrite Hlost, Hp, H3, !app_nil_r in H2; [exact H2|].
    intros Hin. rewrite forallb_forall in Hh. apply list_elem_of_In in Hin.
    apply Hh in Hin. discriminate Hin.
Defined.

(** Two tasks run the process managers at once. *)
Definition demo_two_runs : list (LockLabel (ProjId := ())) :=
  [NewCall AskProcessManagers; CallTurn 0; CallTurn 0; CallTurn 0;
   NewCall AskProcessManagers] ++ replicate 6 (CallTurn 1).

(** C34: checkpoints are not saved after all envelopes are handled.  One task
    has caught the process managers up and has its two envelopes in hand; a
    second one runs from beginning to end, finds nothing new, reports success
    and saves the cursors behind the two events.  A process that stops there
    and starts again never dispatches them, where without the second task
    it would have: the run after the restart dispatches nothing instead of
    two commands. *)
Theorem concurrent_save_loses_envelopes :
  (∃ h s work, lock_run demo_locks demo_two_runs = Some (h, s) ∧
     lk_calls s = [CallDispatching work (mk_ProcessManagerReport 0 0);
                   Over (ReportOutcome (Ok (mk_ProcessManagerReport 0 0)))] ∧
     length work = 2%nat ∧ handled h = [] ∧
     (run_process_managers (demo_store (client (lk_store s)) (fs (lk_store s)) [TCounter; TTarget])).2
       = Ok (mk_ProcessManagerReport 0 0)) ∧
  (run_process_managers (demo_store (two_events []) empty_fs [TCounter; TTarget])).2
    = Ok (mk_ProcessManagerReport 2 0).
Proof.
  split; [|vm_compute; reflexivity].
  assert (match lock_run demo_locks demo_two_runs with
          | Some (h, s) =>
              match lk_calls s with
              | [CallDispatching work (mk_ProcessManagerReport 0 0);
                 Over (ReportOutcome (Ok (mk_ProcessManagerReport 0 0)))] =>
                  length work = 2%nat ∧ handled h = [] ∧
                  (run_process_managers (demo_store (client (lk_store s)) (fs (lk_store s))
                     [TCounter; TTarget])).2 = Ok (mk_ProcessManagerReport 0 0)
              | _ => False
              end
          | None => False end) as Hrun by (vm_compute; split; [|split]; reflexivity).
  destruct (lock_run _ _) as [[h s]|]; [|done].
  repeat case_match; try done. subst. exists h, s, work. split_and!; [done|done|apply Hrun..].
Qed.
