(* ===== verification/LiveModes.v ===== *)
(** Theorems that compare and bound the ways a store consumes the log: a
    subscription's stream keeps the live loop busy for a bounded number of its
    own turns, and what the loop does with the events of a stream is what the
    pull functions ([process_stream] of projections and process managers) and a
    dispatch of their envelopes do. *)
From Stdlib Require Import Sorting.Permutation.
From S2P Require Import Prelude Std Deps Command Errors Aggregate Proto Event EventStore.
From S2P Require Import Client Snapshot Actor Cursor Projection ProcessManager LiveTypes Store.
From S2P Require Import Live Codec Demo DemoApp EventFacts ClientFacts ProjectionFacts.
From S2P Require Import ProcessManagerFacts StoreFacts LiveFacts.
Open Scope N_scope.

Section live_modes.
Context {J : SerdeJson} {U : UuidOps} {T : Tonic}.
Context {Store : Type} {ES : EventStoreOps Store} {EL : EventLogOps Store}.
Context {F : Type} {FS : FileSystem F} {FL : FileSystemLaws F} {SD : Serde DeadLetterEntry}.
Context {TypeId : Type} `{!EqDecision TypeId, !Countable TypeId}.
Context {Agg : TypeId → Type} {AG : ∀ t, Aggregate (Agg t)}.
Context {CD : ∀ t, CommandDe (Agg t)} {SA : ∀ t, Serde (Snapshot (Agg t))}.
Context {ProjId : Type} `{!EqDecision ProjId}.
Context {Proj : ProjId → Type} {PJ : ∀ p, Projection (Proj p)}.
Context {SP : ∀ p, Serde (ProjectionCheckpoint (Proj p))}.
Context {PmId : Type} {Pm : PmId → Type} {PMC : ∀ q, ProcessManager (Pm q)}.
Context {SM : ∀ q, Serde (ProcessManagerCheckpoint (Pm q))}.

Abbreviation World := (AggregateStore (Store := Store) (F := F) (TypeId := TypeId)
  (Agg := Agg) (ProjId := ProjId) (Proj := Proj) (PmId := PmId) (Pm := Pm)).
Abbreviation AnyProjection := (sigT (λ p : ProjId, ProjectionRunner (Proj p))).
Abbreviation AnyPm := (sigT (λ q : PmId, ProcessManagerRunner (Pm q))).
Abbreviation Live := (Live (Store := Store) (F := F) (TypeId := TypeId)
  (Agg := Agg) (ProjId := ProjId) (Proj := Proj) (PmId := PmId) (Pm := Pm)).
Abbreviation Items := (list (result SubscribeResponse Status)).

(** ** A stream is consumed in a bounded number of turns *)

(** The turns of the stream's future a stream takes, until it is left: one per
    item, one per envelope its events make the process managers emit, one per
    position that is published. *)
Fixpoint turns (pms : list AnyPm) (stream : Items) : nat :=
  match stream with
  | Ok response :: stream' =>
      match sr_content response with
      | Some (Event recorded) =>
          let '(pms', work) := fan_out_pms pms recorded in
          S (S (length (flatten_work work) + turns pms' stream'))
      | _ => S (turns pms stream')
      end
  | _ => 1
  end.

Definition remaining (s : Live) : nat :=
  match lv_pc s with
  | Reading stream => turns (process_managers (lv_store s)) stream
  | Dispatching _ work stream =>
      S (length work + turns (process_managers (lv_store s)) stream)
  | _ => 0
  end.

Definition in_stream (s : Live) : bool :=
  match lv_pc s with Reading _ | Dispatching _ _ _ => true | _ => false end.

(** The turns of the loop's own future in a run. *)
Fixpoint own_turns (ls : list Label) : nat :=
  match ls with [] => 0 | LRun :: ls' => S (own_turns ls') | _ :: ls' => own_turns ls' end.

#[local] Instance any_preorder : PreOrder (λ _ _ : Store, True).
Proof. by split. Qed.

Lemma live_dispatch_pms (w w' : World) work r :
  live_dispatch w work = (w', r) → process_managers w' = process_managers w.
Proof.
  unfold live_dispatch. destruct (route w work.1) as [w1 rr] eqn:Hr.
  apply (route_frame (λ _ _, True)) in Hr as ((Hp & _) & _); [|done..].
  destruct rr as [[error|]|e|]; [|by intros [= <- <-]..].
  unfold dead_letter. destruct (append_dead_letter _ _ _ _ _) as [f dr].
  destruct dr; by intros [= <- <-].
Qed.

Lemma live_run_turn (s : Live) :
  in_stream s = true →
  ∃ s', live_next s LRun = Some s' ∧ (in_stream s' = true → remaining s = S (remaining s')).
Proof.
  unfold in_stream, remaining, live_next. destruct (lv_pc s) as [| |stream|r work stream| |res]; try done; intros _.
  - eexists; split; [done|]. unfold step_reading.
    destruct stream as [|[[[[r|]|]]|e|] stream]; try done; cbn [sr_content turns].
    unfold fan_out, fan_out_projections; cbn [process_managers set_projections].
    destruct (fan_out_pms _ r) as [pms work]. simpl. lia.
  - eexists; split; [done|]. unfold step_dispatching.
    destruct work as [|e work]; [done|].
    destruct (live_dispatch (lv_store s) e) as [w res] eqn:Hd.
    apply live_dispatch_pms in Hd. destruct res; simpl; [by rewrite Hd|done..].
Qed.

Lemma remaining_pos (s : Live) : in_stream s = true → (0 < remaining s)%nat.
Proof.
  unfold remaining, in_stream. destruct (lv_pc s) as [| |stream|r work stream| |res];
    try done; intros _; [|lia].
  destruct stream as [|[[[[r|]|]]|e|] stream]; simpl; try lia. destruct (fan_out_pms _ r). lia.
Qed.

(** Nothing else brings the loop further in a stream, or back. *)
Lemma live_other_turn (s s' : Live) l :
  live_next s l = Some s' → l ≠ LRun → in_stream s = true → in_stream s' = true →
  remaining s' = remaining s.
Proof.
  unfold live_next, in_stream, remaining. intros Hn Hl Hin.
  destruct l; try done; destruct (lv_pc s) as [| |stream|r work stream| |res] eqn:Hpc; try done;
    try (by destruct (shutdown_signal _); simplify_eq);
    unfold signal_shutdown in *; rewrite ?Hpc in *; simplify_eq; simpl; by rewrite Hpc.
Qed.


(** ** Live mode does what the pull functions do *)

(** A store with other projections and process managers. *)
Definition with_runners (w : World) (ps : gmap string AnyProjection) (pms : list AnyPm) : World :=
  set_pms (set_projections w ps) pms.

(** Dispatching neither reads nor changes them. *)
Lemma get_with_runners (w : World) ps pms t id :
  get (with_runners w ps pms) t id =
  let '(w', r) := get w t id in (with_runners w' ps pms, r).
Proof.
  unfold get. change (get_cached (with_runners w ps pms) t id) with (get_cached w t id).
  destruct (get_cached w t id); [done|]. unfold get_spawn.
  change (env_of (set_cache (with_runners w ps pms) (delete (t, id) (cache (with_runners w ps pms)))))
    with (env_of (set_cache w (delete (t, id) (cache w)))).
  destruct (spawn_actor_with_store _ _ _ _) as [e [[c a]|st|]]; done.
Qed.

Lemma store_execute_with_runners (w : World) ps pms t h cmd ctx :
  store_execute (with_runners w ps pms) t h cmd ctx =
  let '(w', r) := store_execute w t h cmd ctx in (with_runners w' ps pms, r).
Proof.
  unfold store_execute. change (task_of (with_runners w ps pms) t h) with (task_of w t h).
  change (env_of (with_runners w ps pms)) with (env_of w).
  by destruct (handle_execute _ _ _ _ _) as [[e task] r].
Qed.

Lemma route_with_runners (w : World) ps pms envelope :
  route (with_runners w ps pms) envelope =
  let '(w', r) := route w envelope in (with_runners w' ps pms, r).
Proof.
  unfold route. change (dispatchers (with_runners w ps pms)) with (dispatchers w).
  destruct (dispatchers w !! _) as [t|]; [|done]. unfold dispatch.
  destruct (command_from_value _) as [cmd|e|]; [|done..].
  rewrite get_with_runners. destruct (get w t _) as [w1 [h|e|]]; [|done..].
  rewrite store_execute_with_runners. by destruct (store_execute w1 t h _ _) as [w2 [es|e|]].
Qed.

Lemma live_dispatch_with_runners (w : World) ps pms work :
  live_dispatch (with_runners w ps pms) work =
  let '(w', r) := live_dispatch w work in (with_runners w' ps pms, r).
Proof.
  unfold live_dispatch. rewrite route_with_runners.
  destruct (route w work.1) as [w1 [[error|]|e|]]; [|done..].
  unfold dead_letter. change (fs (with_runners w1 ps pms)) with (fs w1).
  change (clock (with_runners w1 ps pms)) with (clock w1).
  by destruct (append_dead_letter _ _ _ _ _) as [f [[]|e|]].
Qed.

Lemma live_dispatch_all_with_runners (w : World) ps pms work :
  live_dispatch_all (with_runners w ps pms) work =
  let '(w', r) := live_dispatch_all w work in (with_runners w' ps pms, r).
Proof.
  revert w; induction work as [|e work IH]; intros w; simpl; [done|].
  rewrite live_dispatch_with_runners. destruct (live_dispatch w e) as [w1 [[]|x|]]; [|done..].
  apply IH.
Qed.

Lemma live_dispatch_all_app (w : World) l1 l2 :
  live_dispatch_all w (l1 ++ l2) =
  match live_dispatch_all w l1 with
  | (w1, Ok _) => live_dispatch_all w1 l2
  | r => r
  end.
Proof.
  revert w; induction l1 as [|e l1 IH]; intros w; simpl; [by destruct (live_dispatch_all w l2) as [? [[]| |]]|].
  by destruct (live_dispatch w e) as [w1 [[]|x|]].
Qed.

(** A stream of events that ends in [CaughtUp], and what the pull functions make
    of it: the runner behind it, and the envelopes it returns. *)
Definition batch (evs : list RecordedEvent) : Items :=
  (event_item <$> evs) ++ [Ok (mk_SubscribeResponse (Some CaughtUp))].

Definition pull_projection (evs : list RecordedEvent) (x : AnyProjection) : AnyProjection :=
  existT (P := λ p : ProjId, ProjectionRunner (Proj p)) (projT1 x)
    (mk_ProjectionRunner (process_stream (pr_checkpoint (projT2 x)) (batch evs)).1
       (pr_checkpoint_dir (projT2 x))).

Definition pull_pm (evs : list RecordedEvent) (x : AnyPm) : AnyPm :=
  existT (P := λ q : PmId, ProcessManagerRunner (Pm q)) (projT1 x)
    (mk_ProcessManagerRunner (pm_process_stream (pm_checkpoint (projT2 x)) [] (batch evs)).1
       (pm_checkpoint_dir (projT2 x))).
Definition pull_envelopes (evs : list RecordedEvent) (x : AnyPm) : list CommandEnvelope :=
  default [] (result_ok (pm_process_stream (pm_checkpoint (projT2 x)) [] (batch evs)).2).

(** What the loop's process managers emit over a list of events, in the order
    in which the loop dispatches it. *)
Fixpoint emitted (pms : list AnyPm) (evs : list RecordedEvent) : list (CommandEnvelope * path) :=
  match evs with
  | [] => []
  | r :: evs' =>
      let '(pms', work) := fan_out_pms pms r in flatten_work work ++ emitted pms' evs'
  end.

(** One event, through one process manager. *)
Definition any_react (r : RecordedEvent) (x : AnyPm) : AnyPm :=
  existT (P := λ q : PmId, ProcessManagerRunner (Pm q)) (projT1 x) (react_event (projT2 x) r).1.
Definition any_envelopes (r : RecordedEvent) (x : AnyPm) : list CommandEnvelope :=
  (react_event (projT2 x) r).2.

Lemma fan_out_pms_map pms r :
  (fan_out_pms pms r).1 = any_react r <$> pms ∧
  (flatten_work (fan_out_pms pms r).2).*1 = mjoin (any_envelopes r <$> pms).
Proof.
  rewrite flatten_work_envelopes. induction pms as [|[q pm] pms [IH1 IH2]]; [done|]. simpl.
  unfold any_react at 1, any_envelopes at 1. simpl.
  destruct (react_event pm r) as [pm1 envelopes]. destruct (fan_out_pms pms r) as [pms1 work].
  simpl in *. rewrite IH1. split; [done|].
  destruct envelopes; [exact IH2|]. by apply (f_equal (app (c :: envelopes))).
Qed.

Lemma pm_process_stream_batch {q} (c : ProcessManagerCheckpoint (Pm q)) acc r evs :
  pm_process_stream c acc (batch (r :: evs)) =
  let '(c1, o1) := react_to_checkpoint c r in pm_process_stream c1 (acc ++ o1) (batch evs).
Proof. done. Qed.

Lemma pm_process_stream_acc {q} (c : ProcessManagerCheckpoint (Pm q)) acc evs :
  ∃ c' o, ∀ acc', pm_process_stream c (acc ++ acc') (batch evs) = (c', Ok (acc ++ acc' ++ o)).
Proof.
  revert c acc; induction evs as [|r evs IH]; intros c acc.
  { exists c, []. intros acc'. by rewrite app_nil_r. }
  destruct (react_to_checkpoint c r) as [c1 o1] eqn:Hr.
  destruct (IH c1 acc) as (c' & o & H). exists c', (o1 ++ o). intros acc'.
  rewrite pm_process_stream_batch, Hr, <- (app_assoc acc), H. by rewrite <- !app_assoc.
Qed.

Lemma pull_pm_cons r evs x :
  pull_pm (r :: evs) x = pull_pm evs (any_react r x) ∧
  pull_envelopes (r :: evs) x = any_envelopes r x ++ pull_envelopes evs (any_react r x).
Proof.
  destruct x as [q [c dir]].
  unfold pull_pm, pull_envelopes, any_react, any_envelopes, react_event.
  cbn [projT1 projT2 pm_checkpoint pm_checkpoint_dir]. rewrite pm_process_stream_batch.
  destruct (react_to_checkpoint c r) as [c1 o1].
  destruct (pm_process_stream_acc c1 [] evs) as (c' & o & H).
  pose proof (H []) as H0. pose proof (H o1) as H1. simpl in H0, H1. simpl. by rewrite H0, H1.
Qed.

Lemma mjoin_app_perm {X Y} (f g : X → list Y) l :
  mjoin (f <$> l) ++ mjoin (g <$> l) ≡ₚ mjoin ((λ x, f x ++ g x) <$> l).
Proof.
  induction l as [|x l IH]; [done|]. simpl. rewrite <- IH, <- !app_assoc.
  apply Permutation_app_head. rewrite !app_assoc. apply Permutation_app_tail, Permutation_app_comm.
Qed.

Lemma elem_sublist_mjoin {X Y} (f : X → list Y) x l : x ∈ l → f x `sublist_of` mjoin (f <$> l).
Proof.
  intros (l1 & l2 & ->)%list_elem_of_split. rewrite fmap_app, join_app. simpl.
  apply sublist_inserts_l, sublist_inserts_r. done.
Qed.

Lemma emitted_pulled pms evs :
  (emitted pms evs).*1 ≡ₚ mjoin (pull_envelopes evs <$> pms) ∧
  ∀ x, x ∈ pms → pull_envelopes evs x `sublist_of` (emitted pms evs).*1.
Proof.
  revert pms; induction evs as [|r evs IH]; intros pms; simpl.
  { assert (∀ x, pull_envelopes [] x = []) as Hnil by done. split.
    - by induction pms.
    - intros x _. rewrite Hnil. apply sublist_nil_l. }
  destruct (fan_out_pms_map pms r) as [H1 H2]. destruct (fan_out_pms pms r) as [pms' work].
  simpl in H1, H2. subst pms'. rewrite fmap_app, H2.
  destruct (IH (any_react r <$> pms)) as [IH1 IH2]. split.
  - rewrite IH1, <- list_fmap_compose, mjoin_app_perm.
    erewrite list_fmap_ext; [done|]. intros _ x _. symmetry. apply pull_pm_cons.
  - intros x Hx. rewrite (proj2 (pull_pm_cons r evs x)). apply sublist_app.
    + by apply elem_sublist_mjoin.
    + apply IH2. by apply list_elem_of_fmap_2.
Qed.

Lemma fan_out_with_runners (w : World) r :
  fan_out w r =
  (with_runners w (any_apply_event r <$> projections w) (any_react r <$> process_managers w),
   (fan_out_pms (process_managers w) r).2).
Proof.
  unfold fan_out. cbn [process_managers fan_out_projections set_projections].
  destruct (fan_out_pms_map (process_managers w) r) as [H _].
  destruct (fan_out_pms (process_managers w) r) as [pms work]. simpl in *. by subst.
Qed.

Lemma live_stream_decomposes evs (w : World) cells w' cells' :
  process_stream_with_dispatch w cells (event_item <$> evs) = (w', cells', Ok Ended) →
  ∃ w1, live_dispatch_all w (emitted (process_managers w) evs) = (w1, Ok ()) ∧
    w' = with_runners w1 (pull_projection evs <$> projections w)
                         (pull_pm evs <$> process_managers w).
Proof.
  revert w cells; induction evs as [|r evs IH]; intros w cells.
  { intros [= <- <-]. exists w. split; [done|].
    assert (∀ x : AnyProjection, pull_projection [] x = x) as H1 by by intros [p [c dir]].
    assert (∀ x : AnyPm, pull_pm [] x = x) as H2 by by intros [q [c dir]].
    rewrite (map_fmap_ext (M := gmap string) _ id), map_fmap_id by done.
    rewrite (list_fmap_ext _ id), list_fmap_id by done. by destruct w. }
  change (event_item <$> r :: evs) with (event_item r :: (event_item <$> evs)).
  cbn [process_stream_with_dispatch event_item sr_content]. rewrite fan_out_with_runners.
  rewrite live_dispatch_all_with_runners. simpl emitted.
  pose proof (fan_out_pms_map (process_managers w) r) as [Hpms _].
  destruct (fan_out_pms (process_managers w) r) as [pms' work]. simpl in Hpms. subst pms'. simpl snd.
  rewrite live_dispatch_all_app.
  destruct (live_dispatch_all w (flatten_work work)) as [w1 [[]|x|]]; [|done..].
  intros Hrun. apply IH in Hrun as (w2 & Hd & ->).
  rewrite live_dispatch_all_with_runners in Hd.
  change (process_managers (with_runners w1 _ ?pms)) with pms in Hd.
  cbn [with_runners process_managers set_pms set_projections] in Hd.
  destruct (live_dispatch_all w1 _) as [w3 r3]. simplify_eq. exists w3. split; [done|].
  cbn [with_runners process_managers projections set_pms set_projections].
  rewrite <- (map_fmap_compose (M := gmap string)), <- list_fmap_compose.
  unfold with_runners, set_pms, set_projections; cbn. f_equal.
  apply list_fmap_ext. intros _ x _. exact (eq_sym (proj1 (pull_pm_cons r evs x))).
Qed.

(** C15: live mode and pull mode agree.  When the loop has processed the events
    of a stream, every projection and every process manager is where its own
    pull function, run over the same events, would have left it; for the rest
    (event store, actors, cache, files) the store is as after dispatching, one
    by one, what the process managers emitted; and those envelopes are exactly
    the ones the pull functions return, each process manager's in its own
    order, interleaved event by event. *)
Theorem live_agrees_with_pull (w w' : World) cells cells' evs
    (Hlive : process_stream_with_dispatch w cells (event_item <$> evs) = (w', cells', Ok Ended)) :
  let envelopes := emitted (process_managers w) evs in
  (∃ w1, live_dispatch_all w envelopes = (w1, Ok ()) ∧
     w' = with_runners w1 (pull_projection evs <$> projections w)
                          (pull_pm evs <$> process_managers w)) ∧
  envelopes.*1 ≡ₚ mjoin (pull_envelopes evs <$> process_managers w) ∧
  ∀ x, x ∈ process_managers w → pull_envelopes evs x `sublist_of` envelopes.*1.
Proof.
  split; [by eapply live_stream_decomposes|]. apply emitted_pulled.
Qed.
End live_modes.

(** ** Witnesses *)

(** A loop that has just subscribed, with two events in the log. *)
Definition demo_live := mk_Live (demo_world (two_events [])) LiveHandle_new 1 (Reading demo_stream).
Definition demo_turns : list Label :=
  [LRun; LTick; LRun; LSubscribe; LRun; LRun; LRun; LTick; LRun; LRun; LRun].


Lemma live_agrees_with_pull_witness :
  match process_stream_with_dispatch (demo_world (two_events [])) LiveHandle_new
          (event_item <$> stream_events demo_stream) with
  | (_, _, Ok Ended) =>
      length (emitted (process_managers (demo_world (two_events []))) (stream_events demo_stream))
        = 2%nat ∧
      (emitted (process_managers (demo_world (two_events []))) (stream_events demo_stream)).*1 ≡ₚ
        mjoin (pull_envelopes (stream_events demo_stream) <$>
                 process_managers (demo_world (two_events [])))
  | _ => False
  end.
Proof.
  assert (match process_stream_with_dispatch (demo_world (two_events [])) LiveHandle_new
                  (event_item <$> stream_events demo_stream) with
          | (_, _, Ok Ended) =>
              length (emitted (process_managers (demo_world (two_events [])))
                        (stream_events demo_stream)) = 2%nat
          | _ => False end) as Hrun by (vm_compute; reflexivity).
  destruct (process_stream_with_dispatch _ _ _) as [[w' cells'] [[|e]|e|]] eqn:H;
    [|destruct Hrun..].
  split; [exact Hrun|].
  exact (proj1 (proj2 (live_agrees_with_pull (demo_world (two_events [])) w' LiveHandle_new cells'
           (stream_events demo_stream) H))).
Defined.
