(* ===== verification/ShutdownFacts.v ===== *)
(** Theorems about [Shutdown]: how calls of [LiveHandle::shutdown] end. *)
From S2P Require Import Prelude Std Deps Command Errors Aggregate Proto Event EventStore.
From S2P Require Import Client Snapshot Actor Cursor Projection ProcessManager LiveTypes Store Live.
From S2P Require Import Shutdown Codec Demo DemoApp EventFacts ClientFacts StoreFacts.
Open Scope N_scope.

Section shutdown_facts.
Context {J : SerdeJson} {U : UuidOps} {T : Tonic}.
Context {Store : Type} {ES : EventStoreOps Store} {EL : EventLogOps Store}.
Context {F : Type} {FS : FileSystem F} {SD : Serde DeadLetterEntry}.
Context {TypeId : Type} `{!EqDecision TypeId, !Countable TypeId}.
Context {Agg : TypeId → Type} {AG : ∀ t, Aggregate (Agg t)}.
Context {CD : ∀ t, CommandDe (Agg t)} {SA : ∀ t, Serde (Snapshot (Agg t))}.
Context {ProjId : Type} `{!EqDecision ProjId}.
Context {Proj : ProjId → Type} {PJ : ∀ p, Projection (Proj p)}.
Context {SP : ∀ p, Serde (ProjectionCheckpoint (Proj p))}.
Context {PmId : Type} {Pm : PmId → Type} {PMC : ∀ q, ProcessManager (Pm q)}.
Context {SM : ∀ q, Serde (ProcessManagerCheckpoint (Pm q))}.

Abbreviation World := (AggregateStore (Store := Store) (F := F) (TypeId := TypeId)
  (Agg := Agg) (ProjId := ProjId) (Proj := Proj) (PmId := PmId) (Pm := Pm)).
Abbreviation Live := (Live (Store := Store) (F := F) (TypeId := TypeId)
  (Agg := Agg) (ProjId := ProjId) (Proj := Proj) (PmId := PmId) (Pm := Pm)).
Abbreviation Handle := (Handle (Store := Store) (F := F) (TypeId := TypeId)
  (Agg := Agg) (ProjId := ProjId) (Proj := Proj) (PmId := PmId) (Pm := Pm)).
Context (join_error : string).
Abbreviation join_task := (join_task join_error).
Abbreviation handle_next := (handle_next join_error).
Abbreviation handle_run := (handle_run join_error).

Definition finished (s : Live) : Prop := ∃ r, lv_pc s = Finished r.

(** A signal sent stays sent, and a loop that has ended has ended. *)
Lemma live_next_signal (s s' : Live) l :
  live_next s l = Some s' → shutdown_signal (lv_cells s) = true →
  shutdown_signal (lv_cells s') = true.
Proof.
  intros Hn Hs.
  assert (shutdown_signal (lv_cells (step_top s)) = true) as Htop.
  { unfold step_top. by rewrite Hs. }
  assert (shutdown_signal (lv_cells (after_sleep s)) = true) as Hsleep
    by (unfold after_sleep; by destruct (next_backoff _ _)).
  assert (∀ stream, shutdown_signal (lv_cells (step_reading s stream)) = true) as Hread.
  { intros [|[[[[r|]|]]|e|] stream]; unfold step_reading; cbn [sr_content]; try done.
    by destruct (fan_out _ r). }
  assert (∀ r work stream, shutdown_signal (lv_cells (step_dispatching s r work stream)) = true)
    as Hdisp.
  { intros r [|e work] stream; unfold step_dispatching.
    - simpl. unfold send_position. by destruct (receivers _ =? 0).
    - by destruct (live_dispatch (lv_store s) e) as [w []]. }
  unfold live_next, signal_shutdown in Hn. destruct l, (lv_pc s); simplify_eq; try done;
    case_match; by simplify_eq.
Qed.

Lemma live_next_finished (s s' : Live) l r :
  live_next s l = Some s' → lv_pc s = Finished r → lv_pc s' = Finished r.
Proof.
  intros Hn Hr. unfold live_next, signal_shutdown in Hn. rewrite Hr in Hn.
  destruct l; by simplify_eq.
Qed.

(** ** The invariant of a handle *)

(** The call that holds the task, or returned its failure. *)
Definition holds_task (call : ShutdownCall) : Prop :=
  match call with Joining => True | Returned r => r ≠ Ok () | _ => False end.
Definition has_signalled (call : ShutdownCall) : Prop :=
  match call with Signalling | Dropped => False | _ => True end.

Record handle_inv (h : Handle) : Prop := {
  hi_one i j ci cj :
    hd_calls h !! i = Some ci → hd_calls h !! j = Some cj →
    holds_task ci → holds_task cj → i = j;
  hi_task k c : hd_calls h !! k = Some c → hd_task h = true → ¬ holds_task c;
  hi_taken k r : hd_calls h !! k = Some (Returned r) → hd_task h = false;
  hi_result k r :
    hd_calls h !! k = Some (Returned r) → r = Ok () ∨ join_task (lv_pc (hd_loop h)) = Some r;
  hi_signal k c :
    hd_calls h !! k = Some c → has_signalled c →
    shutdown_signal (lv_cells (hd_loop h)) = true ∨ finished (hd_loop h);
  hi_gone :
    hd_task h = false →
    finished (hd_loop h) ∨ ∃ k, hd_calls h !! k = Some Joining ∨ hd_calls h !! k = Some Dropped;
}.

(** The loop makes a step, or is signalled. *)
Lemma handle_inv_loop (h : Handle) (s : Live) :
  (∀ r, lv_pc (hd_loop h) = Finished r → lv_pc s = Finished r) →
  (shutdown_signal (lv_cells (hd_loop h)) = true → shutdown_signal (lv_cells s) = true) →
  handle_inv h → handle_inv (mk_Handle s (hd_task h) (hd_calls h)).
Proof.
  intros Hf Hs [H1 H2 H3 H4 H5 H6]. split; simpl; [done..| | |].
  - intros k r Hk. destruct (H4 _ _ Hk) as [->|Hj]; [by left|right].
    unfold Shutdown.join_task in *. destruct (lv_pc (hd_loop h)) as [| | | | |r'] eqn:Hpc; try done.
    by rewrite (Hf r').
  - intros k c Hk Hc. destruct (H5 _ _ Hk Hc) as [?|[r Hr]]; [left; by apply Hs|right].
    exists r. by apply Hf.
  - intros Ht. destruct (H6 Ht) as [[r Hr]|?]; [left; exists r; by apply Hf|by right].
Qed.

(** A call goes from one place to another. *)
Lemma handle_inv_call (h : Handle) k c c' task :
  handle_inv h → hd_calls h !! k = Some c →
  (task = true → hd_task h = true) →
  (holds_task c' → task = false ∧ (hd_task h = true ∨ holds_task c)) →
  (∀ r, c' = Returned r → task = false ∧ (r = Ok () ∨ join_task (lv_pc (hd_loop h)) = Some r)) →
  (has_signalled c' → shutdown_signal (lv_cells (hd_loop h)) = true ∨ finished (hd_loop h)) →
  (c = Joining ∨ c = Dropped ∨ hd_task h = true ∧ task = false →
     c' = Joining ∨ c' = Dropped ∨ finished (hd_loop h)) →
  handle_inv (mk_Handle (hd_loop h) task (<[k := c']> (hd_calls h))).
Proof.
  intros [H1 H2 H3 H4 H5 H6] Hc Ht Hh Hr Hs Hg.
  assert (∀ j cj, <[k := c']> (hd_calls h) !! j = Some cj →
                  (j = k ∧ cj = c') ∨ hd_calls h !! j = Some cj ∧ j ≠ k) as Hl.
  { intros j cj. rewrite list_lookup_insert_Some. intros [(-> & -> & _)|[? ?]]; [by left|right].
    split; [done|congruence]. }
  split; cbn [hd_loop hd_task hd_calls].
  - intros i j ci cj [[-> ->]|[Hi Hik]]%Hl [[-> ->]|[Hj Hjk]]%Hl Hi' Hj'; [done| | |by eapply H1].
    + destruct (Hh Hi') as [_ [Htr|Hold]]; [by destruct (H2 _ _ Hj Htr)|by eapply H1].
    + destruct (Hh Hj') as [_ [Htr|Hold]]; [by destruct (H2 _ _ Hi Htr)|by eapply H1].
  - intros j cj [[-> ->]|[Hj _]]%Hl Htr; [intros Hh'; destruct (Hh Hh') as [? _]; congruence|].
    by eapply H2, Ht.
  - intros j r [[-> <-]|[Hj _]]%Hl; [by apply (Hr r)|]. apply H3 in Hj.
    destruct task; [|done]. by rewrite Ht in Hj.
  - intros j r [[-> <-]|[Hj _]]%Hl; [by apply (Hr r)|by eapply H4].
  - intros j cj [[-> ->]|[Hj _]]%Hl; [done|by eapply H5].
  - intros ->. pose proof (list_lookup_insert_eq (hd_calls h) k c' (lookup_lt_Some _ _ _ Hc)) as Hk.
    assert (c = Joining ∨ c = Dropped ∨ hd_task h = true →
            finished (hd_loop h) ∨ ∃ j, <[k := c']> (hd_calls h) !! j = Some Joining ∨
                                      <[k := c']> (hd_calls h) !! j = Some Dropped) as Hnew.
    { intros Hor. destruct Hg as [->|[->| ?]]; [tauto|right; exists k; auto..|by left]. }
    destruct (hd_task h) eqn:Htask; [apply Hnew; auto|].
    destruct (H6 eq_refl) as [?|(j & Hj)]; [by left|].
    destruct (decide (j = k)) as [->|Hne]; [|right; exists j; by rewrite list_lookup_insert_ne].
    rewrite Hc in Hj. apply Hnew. destruct Hj; simplify_eq; auto.
Qed.

(** Somebody calls. *)
Lemma handle_inv_new (h : Handle) :
  handle_inv h → handle_inv (mk_Handle (hd_loop h) (hd_task h) (hd_calls h ++ [Signalling])).
Proof.
  intros [H1 H2 H3 H4 H5 H6].
  assert (∀ k c, (hd_calls h ++ [Signalling]) !! k = Some c →
                 hd_calls h !! k = Some c ∨ c = Signalling) as Hl.
  { intros k c [Hk|[_ Hk]]%lookup_app_Some; [by left|right].
    by apply list_lookup_singleton_Some in Hk as [_ <-]. }
  split; simpl.
  - intros i j ci cj [Hci| ->]%Hl [Hcj| ->]%Hl; [by eapply H1|done..].
  - intros k c [Hc| ->]%Hl; [by eapply H2|auto].
  - intros k r [Hc|?]%Hl; [by eapply H3|done].
  - intros k r [Hc|?]%Hl; [by eapply H4|done].
  - intros k c [Hc| ->]%Hl; [by eapply H5|done].
  - intros Ht. destruct (H6 Ht) as [?|(k & Hk)]; [by left|right]. exists k.
    destruct Hk; [left|right]; by apply lookup_app_l_Some.
Qed.

(** A call goes on. *)
Lemma handle_inv_turn (h : Handle) k c s task c' :
  handle_inv h → hd_calls h !! k = Some c → shutdown join_error h c = Some (s, task, c') →
  handle_inv (mk_Handle s task (<[k := c']> (hd_calls h))).
Proof.
  intros Hi Hc Hs. pose proof Hi as [H1 H2 H3 H4 H5 H6].
  destruct c as [| | |r|]; simplify_eq/=.
  - set (s := signal_shutdown (hd_loop h)).
    assert (handle_inv (mk_Handle s (hd_task h) (hd_calls h))) as Hi'.
    { apply handle_inv_loop; [| |done]; unfold s, signal_shutdown; [intros r Hr; by rewrite Hr|].
      by destruct (lv_pc (hd_loop h)). }
    refine (handle_inv_call (mk_Handle s (hd_task h) (hd_calls h)) k Signalling Locking _
              Hi' Hc _ _ _ _ _); simpl; try done; [|intros [?|[?|[? ?]]]; congruence].
    intros _. unfold s, signal_shutdown, finished.
    destruct (lv_pc (hd_loop h)) eqn:Hpc; [by left..|right; by rewrite Hpc; eauto].
  - refine (handle_inv_call h k Locking _ false Hi Hc _ _ _ _ _); try done.
    + destruct (hd_task h); [by auto|by intros []].
    + intros r. destruct (hd_task h); [done|]. intros [= <-]. auto.
    + intros _. by eapply (H5 _ _ Hc).
    + intros [?|[?|[-> _]]]; [done..|by left].
  - apply bind_Some in Hs as (r & Hr & [= <- <- <-]).
    assert (hd_task h = false) as Ht
      by (destruct (hd_task h); [by destruct (H2 _ _ Hc eq_refl)|done]).
    assert (finished (hd_loop h)) as Hf
      by (unfold Shutdown.join_task in Hr; unfold finished; destruct (lv_pc _); eauto; done).
    refine (handle_inv_call h k Joining _ _ Hi Hc _ _ _ _ _); auto.
    + simpl. auto.
    + intros r' [= <-]. auto.
Qed.

Lemma handle_next_inv (h h' : Handle) l : handle_next h l = Some h' → handle_inv h → handle_inv h'.
Proof.
  intros Hn Hi. pose proof Hi as [H1 H2 H3 H4 H5 H6]. destruct l as [l| |k|k].
  - assert (∃ s, live_next (hd_loop h) l = Some s ∧ h' = mk_Handle s (hd_task h) (hd_calls h))
      as (s & Hs & ->).
    { destruct l; lazy beta iota delta [Shutdown.handle_next] in Hn; try done;
        apply bind_Some in Hn as (s & Hs & [= <-]); eauto. }
    apply handle_inv_loop; [|by eapply live_next_signal|done].
    intros r. by eapply live_next_finished.
  - injection Hn as <-. by apply handle_inv_new.
  - simpl in Hn. apply bind_Some in Hn as (c & Hc & Hn).
    destruct (shutdown join_error h c) as [[[s task] c']|] eqn:Hs; simplify_eq/=.
    by eapply handle_inv_turn.
  - simpl in Hn. apply bind_Some in Hn as (c & Hc & Hn).
    assert (h' = mk_Handle (hd_loop h) (hd_task h) (<[k := Dropped]> (hd_calls h))) as ->
      by (by destruct c; simplify_eq).
    by refine (handle_inv_call h k c Dropped _ Hi Hc _ _ _ _ _); auto.
Qed.

Lemma handle_run_inv (w : World) ls (h : Handle) :
  handle_run (handle_init w) ls = Some h → handle_inv h.
Proof.
  assert (handle_inv (handle_init w)) as Hi.
  { split; simpl; [by intros i j ci cj; rewrite lookup_nil..| | | | |done];
      intros k c; by rewrite lookup_nil. }
  revert Hi. generalize (handle_init w). induction ls as [|l ls IH]; intros h0 Hi; simpl.
  { by intros [= <-]. }
  intros (h1 & Hn & Hrun)%bind_Some. by eapply IH, Hrun; eapply handle_next_inv.
Qed.

(** ** How calls end *)

Lemma handle_run_app (h h1 h2 : Handle) ls1 ls2 :
  handle_run h ls1 = Some h1 → handle_run h1 ls2 = Some h2 → handle_run h (ls1 ++ ls2) = Some h2.
Proof.
  revert h; induction ls1 as [|l ls1 IH]; intros h; simpl; [by intros [= ->]|].
  intros (h0 & -> & H)%bind_Some H2. simpl. by eapply IH.
Qed.

(** One more step of the loop ends it, once the signal is sent. *)
Lemma signalled_finishes (s : Live) :
  shutdown_signal (lv_cells s) = true ∨ finished s →
  finished s ∨ ∃ l s', l ≠ LSignal ∧ live_next s l = Some s' ∧ finished s'.
Proof.
  intros [Hs|?]; [|by left]. destruct (lv_pc s) as [| |str|r work str| |r] eqn:Hpc;
    [right; exists LRun|right; exists LStop..|left; by exists r];
    eexists; (split; [done|]); unfold live_next; rewrite Hpc, ?Hs; (split; [done|]);
    [unfold step_top; rewrite Hs|..]; eexists; done.
Qed.

Lemma turn_call (h : Handle) k c s task c' :
  hd_calls h !! k = Some c → shutdown join_error h c = Some (s, task, c') →
  ∃ h', handle_next h (HTurn k) = Some h' ∧ hd_calls h' !! k = Some c' ∧ hd_loop h' = s.
Proof.
  intros Hc Hs. eexists. split; [simpl; rewrite Hc; simpl; by rewrite Hs|].
  split; [|done]. apply list_lookup_insert_eq, (lookup_lt_Some _ _ _ Hc).
Qed.

Definition returns_from (h : Handle) (k n : nat) : Prop :=
  ∃ ls h' r, (length ls ≤ n)%nat ∧ handle_run h ls = Some h' ∧ hd_calls h' !! k = Some (Returned r).

Lemma returns_step (h h' : Handle) l k n :
  handle_next h l = Some h' → returns_from h' k n → returns_from h k (S n).
Proof.
  intros Hn (ls & h2 & r & Hl & Hrun & Hk). exists (l :: ls), h2, r.
  split; [simpl; lia|]. split; [|done]. cbn [Shutdown.handle_run]. by rewrite Hn.
Qed.

Lemma joining_returns (h : Handle) k :
  handle_inv h → hd_calls h !! k = Some Joining → returns_from h k 2.
Proof.
  intros Hi Hk.
  assert (∀ h, hd_calls h !! k = Some Joining → finished (hd_loop h) → returns_from h k 1) as Hend.
  { intros h1 Hk1 [r Hr].
    assert (∃ r', join_task (lv_pc (hd_loop h1)) = Some r') as [r' Hj]
      by (rewrite Hr; destruct r as [[]|e|]; eauto).
    destruct (turn_call h1 k Joining (hd_loop h1) (hd_task h1) (Returned r') Hk1) as (h2 & H1 & H2 & _);
      [simpl; by rewrite Hj|].
    eapply returns_step; [exact H1|]. exists [], h2, r'. by split_and!. }
  destruct (signalled_finishes (hd_loop h)) as [Hf|(l & s & Hl & Hs & Hf)].
  - by eapply hi_signal.
  - destruct (Hend h Hk Hf) as (ls & h' & r & H1 & H2). exists ls, h', r. split; [lia|done].
  - apply (returns_step h (mk_Handle s (hd_task h) (hd_calls h)) (HLoop l));
      [|exact (Hend (mk_Handle s (hd_task h) (hd_calls h)) Hk Hf)].
    destruct l; try done; lazy beta iota delta [Shutdown.handle_next]; by rewrite Hs.
Qed.

End shutdown_facts.

(** ** Witness *)

(** A loop that panics at once, and two calls: one gets the panic, the other
    [Ok]. *)
Definition demo_panicked : option (Handle (Store := DemoClient) (F := MemFs) (TypeId := DemoAgg)
    (Agg := DemoState) (ProjId := ()) (Proj := DemoProj) (PmId := ()) (Pm := DemoPm)) :=
  let w := demo_world (demo_client [] []) in
  handle_run "task 7 panicked"
    (handle_init (mk_AggregateStore (client w) (fs w) (rng w) (clock w) (store_base_dir w)
       (cache w) (tasks w) (next_task w) (projections w) (process_managers w) (dispatchers w)
       (store_idle_timeout w) (mk_LiveConfig 0 1 1) None))
    [HCall; HCall; HTurn 0; HTurn 1; HTurn 1; HTurn 0; HTurn 1].

