(* ===== verification/SystemFacts.v ===== *)
(** Theorems about [System]: one invariant, of the actors, the projections, the
    process managers and the files on disk, that every call, every step of the
    live loop, every other writer and every restart preserves. *)
From stdpp Require Import relations.
From S2P Require Import Prelude Std Deps Command Errors Aggregate Proto Event EventStore Auth.
From S2P Require Import Client Snapshot Actor Cursor Projection ProcessManager LiveTypes Store.
From S2P Require Import Live Builder System Codec Demo DemoApp EventFacts ClientFacts DiskFacts.
From S2P Require Import ActorFacts ProjectionFacts ProcessManagerFacts StoreFacts BuilderFacts.
From S2P Require Import LiveFacts.
Open Scope N_scope.

Section system_facts.
Context {J : SerdeJson} {U : UuidOps} {T : Tonic}.
Context {Store : Type} {ES : EventStoreOps Store} {EL : EventLogOps Store}.
Context {F : Type} {FS : FileSystem F} {FL : FileSystemLaws F} {SD : Serde DeadLetterEntry}.
Context {TypeId : Type} `{!EqDecision TypeId, !Countable TypeId}.
Context {Agg : TypeId → Type} {AG : ∀ t, Aggregate (Agg t)}.
Context {CD : ∀ t, CommandDe (Agg t)} {SA : ∀ t, Serde (Snapshot (Agg t))}.
Context {ProjId : Type} `{!EqDecision ProjId}.
Context {Proj : ProjId → Type} {PJ : ∀ p, Projection (Proj p)}.
Context {SP : ∀ p, Serde (ProjectionCheckpoint (Proj p))}.
Context {PmId : Type} {Pm : PmId → Type} {PMC : ∀ q, ProcessManager (Pm q)}.
Context {SM : ∀ q, Serde (ProcessManagerCheckpoint (Pm q))}.
Context {JL : SerdeJsonLaws} {AT : ∀ t, AdjacentlyTagged (Agg t)}.
Context {SLA : ∀ t, SerdeLaws (Snapshot (Agg t))}.
Context {SPL : ∀ p, SerdeLaws (ProjectionCheckpoint (Proj p))}.
Context {SML : ∀ q, SerdeLaws (ProcessManagerCheckpoint (Pm q))}.
Context {SS : EventStoreSpec to_proto_event Store} {LS : EventLogSpec Store}.
Context {SLS : EventStoreLogSpec Store} {STL : EventStreamLogSpec to_proto_event Store}.
Context {IN : InUse TypeId}.

Abbreviation World := (AggregateStore (Store := Store) (F := F) (TypeId := TypeId)
  (Agg := Agg) (ProjId := ProjId) (Proj := Proj) (PmId := PmId) (Pm := Pm)).
Abbreviation AnyProjection := (sigT (λ p : ProjId, ProjectionRunner (Proj p))).
Abbreviation AnyPm := (sigT (λ q : PmId, ProcessManagerRunner (Pm q))).
Abbreviation Live := (Live (Store := Store) (F := F) (TypeId := TypeId)
  (Agg := Agg) (ProjId := ProjId) (Proj := Proj) (PmId := PmId) (Pm := Pm)).
Abbreviation stream := (stream_of to_proto_event).
Abbreviation checkpoint_file dir := (join dir "checkpoint.json").

(** ** What grows *)

(** What is behind a client later: more events, none gone. *)
Definition extends (s s' : Store) : Prop :=
  log_of s `prefix_of` log_of s' ∧ ∀ sid, stream s sid `prefix_of` stream s' sid.

#[export] Instance extends_preorder : PreOrder extends.
Proof.
  split; [by intros s; split|].
  intros s1 s2 s3 [H1 H2] [H3 H4]. split; [by etrans|]. intros sid. etrans; [apply H2|apply H4].
Qed.

Lemma extends_append s sid e evs s' r : append s sid e evs = (s', r) → extends s s'.
Proof. intros H. split; [by eapply append_log_grows|]. intros. by eapply append_grows. Qed.
Lemma extends_read s sid from max s' r : read_stream s sid from max = (s', r) → extends s s'.
Proof. intros H. split; [by eapply read_log_grows|]. intros. by eapply read_grows. Qed.
Lemma extends_subscribe s p s' r : subscribe_all_from s p = (s', r) → extends s s'.
Proof.
  intros H. split; [by eapply subscribe_grows|]. intros. by eapply subscribe_stream_grows.
Qed.
Hint Resolve extends_append extends_read extends_subscribe : core.

(** From one store to a later one: no event is gone, no cursor has moved back,
    the files are where they were. *)
Definition progress (w w' : World) : Prop :=
  extends (client w) (client w') ∧
  (∀ P : N → Prop, (∀ p p', P p → p ≤ p' → P p') → all_positions P w → all_positions P w') ∧
  store_base_dir w' = store_base_dir w.

#[local] Instance progress_preorder : PreOrder progress.
Proof.
  split; [by intros w; split_and!|].
  intros w1 w2 w3 (H1&H2&H3) (H4&H5&H6). split_and!; [by etrans|by auto|congruence].
Qed.

(** ** The invariant *)

(** No two runners share a checkpoint file. *)
Record files_apart (base : path) : Prop := {
  apart_projections p p' :
    checkpoint_file (projection_dir (PJ := PJ) base p) =
    checkpoint_file (projection_dir (PJ := PJ) base p') → p = p';
  apart_process_managers q q' :
    checkpoint_file (process_manager_dir (PMC := PMC) base q) =
    checkpoint_file (process_manager_dir (PMC := PMC) base q') → q = q';
  apart_kinds p q :
    checkpoint_file (projection_dir (PJ := PJ) base p) ≠
    checkpoint_file (process_manager_dir (PMC := PMC) base q);
}.

(** The actors and the files. *)
Record parts_ok (w : World) : Prop := {
  po_store : store_ok w;
  po_files : files_ok (log_of (client w)) (fs w) (store_base_dir w);
  po_placed : placed w;
}.

Definition world_ok (w : World) : Prop := parts_ok w ∧ runners_ok w.

Lemma files_ok_grow log log' f base :
  log_ok log' → log `prefix_of` log' →
  files_ok (Proj := Proj) (Pm := Pm) log f base → files_ok (Proj := Proj) (Pm := Pm) log' f base.
Proof.
  intros Hok Hg [H1 H2]. split.
  - intros p. by eapply checkpoint_file_ok_grow.
  - intros q b c Hb Hc. destruct (H2 q b c Hb Hc) as [out Hout].
    exists out. by eapply pm_at_grow.
Qed.

(** Nothing but dead letters, and perhaps files beside checkpoints, written. *)
Definition same_snapshots (f f' : F) : Prop :=
  ∀ base ty id, content f' (snapshot_path base ty id) = content f (snapshot_path base ty id).
Definition same_checkpoints (f f' : F) : Prop :=
  ∀ d, content f' (checkpoint_file d) = content f (checkpoint_file d).
Definition same_files (f f' : F) : Prop := same_checkpoints f f' ∧ same_snapshots f f'.

Lemma files_ok_same log f f' base :
  same_checkpoints f f' → files_ok (Proj := Proj) (Pm := Pm) log f base →
  files_ok (Proj := Proj) (Pm := Pm) log f' base.
Proof.
  intros Hc [H1 H2]. split.
  - intros p b c. rewrite Hc. apply H1.
  - intros q b c. rewrite Hc. apply H2.
Qed.

Lemma parts_ok_env (w w' : World) :
  frame w w' → store_ok w' → extends (client w) (client w') →
  same_checkpoints (fs w) (fs w') → parts_ok w → parts_ok w'.
Proof.
  intros (Hp & Hq & _ & Hb & _) Hs [Hg _] Hf [_ H2 [H3 H4]]. split; [done|..].
  - rewrite Hb. eapply files_ok_same; [done|]. eapply files_ok_grow; [apply log_of_ok|done..].
  - split; [intros name x; rewrite Hq, Hb; apply H3|intros x; rewrite Hp, Hb; apply H4].
Qed.

Lemma world_ok_env (w w' : World) :
  frame w w' → store_ok w' → extends (client w) (client w') →
  same_checkpoints (fs w) (fs w') → world_ok w → world_ok w' ∧ progress w w'.
Proof.
  intros Hfr Hs Hg Hf [H1 H2]. pose proof Hfr as (Hp & Hq & _ & Hb & _).
  split; [split; [by eapply parts_ok_env|by eapply runners_ok_frame; [..|apply Hg|]]|].
  split_and!; [done| |done]. intros P _. by apply all_positions_frame.
Qed.

(** ** Saving checkpoints *)

(** A file that is the target of a save keeps its promise, any other file that
    is no temporary one is left alone. *)
Lemma saved_elsewhere {X} `{!Serde X} d (x : X) f f' r q :
  saved_atomically (join d "checkpoint.json.tmp") (checkpoint_file d) x f f' r →
  q ≠ join d "checkpoint.json.tmp" → q ≠ checkpoint_file d → content f' q = content f q.
Proof. intros (_ & _ & _ & H). apply H. Qed.

Lemma saved_snapshots {X} `{!Serde X} d (x : X) f f' r :
  saved_atomically (join d "checkpoint.json.tmp") (checkpoint_file d) x f f' r →
  same_snapshots f f'.
Proof.
  intros H base ty id. destruct (snapshot_path_not_checkpoint base ty id d).
  by eapply saved_elsewhere.
Qed.

Lemma runner_save_files log f base p (r : ProjectionRunner (Proj p)) f' res :
  files_apart base → pr_checkpoint_dir r = projection_dir base p →
  checkpoint_ok log (pr_checkpoint r) → runner_save f r = (f', res) →
  files_ok (Proj := Proj) (Pm := Pm) log f base →
  files_ok (Proj := Proj) (Pm := Pm) log f' base ∧ same_snapshots f f'.
Proof.
  intros Hap Hd Hok Hs [H1 H2]. pose proof (runner_save_atomic _ _ _ _ Hs) as Hat.
  split; [|exact (saved_snapshots _ _ _ _ _ Hat)].
  assert (∀ d, checkpoint_file d ≠ checkpoint_file (pr_checkpoint_dir r) →
               content f' (checkpoint_file d) = content f (checkpoint_file d)) as Helse.
  { intros d Hne. exact (saved_elsewhere _ _ _ _ _ _ Hat (pm_file_not_tmp _ _) Hne). }
  rewrite Hd in Helse. split.
  - intros p'. destruct (decide (p' = p)) as [->|Hne].
    + rewrite <- Hd. eapply runner_save_file_ok; [exact Hok| |exact Hs]. rewrite Hd. apply H1.
    + intros b c. rewrite Helse; [apply H1|]. intros Heq. by apply (apart_projections _ Hap) in Heq.
  - intros q b c. rewrite Helse; [apply H2|]. exact (not_eq_sym (apart_kinds _ Hap p q)).
Qed.

Lemma pm_save_files log f base q (r : ProcessManagerRunner (Pm q)) out f' res :
  files_apart base → pm_checkpoint_dir r = process_manager_dir base q →
  pm_at log (pm_checkpoint r) out → pm_save f r = (f', res) →
  files_ok (Proj := Proj) (Pm := Pm) log f base →
  files_ok (Proj := Proj) (Pm := Pm) log f' base ∧ same_snapshots f f'.
Proof.
  intros Hap Hd Hok Hs [H1 H2]. pose proof (pm_save_atomic _ _ _ _ Hs) as Hat.
  split; [|exact (saved_snapshots _ _ _ _ _ Hat)].
  assert (∀ d, checkpoint_file d ≠ checkpoint_file (pm_checkpoint_dir r) →
               content f' (checkpoint_file d) = content f (checkpoint_file d)) as Helse.
  { intros d Hne. exact (saved_elsewhere _ _ _ _ _ _ Hat (pm_file_not_tmp _ _) Hne). }
  rewrite Hd in Helse. split.
  - intros p b c. rewrite Helse; [apply H1|]. apply (apart_kinds _ Hap p q).
  - intros q' b c Hb Hc.
    destruct (decide (checkpoint_file (process_manager_dir (PMC := PMC) base q')
                    = checkpoint_file (process_manager_dir (PMC := PMC) base q))) as [Heq|Hne];
      [|rewrite Helse in Hb by done; by eapply H2].
    apply (apart_process_managers _ Hap) in Heq as ->.
    destruct Hat as (_ & Hnew & [Hold|Hres] & _); rewrite Hd in *.
    + rewrite Hold in Hb. by eapply H2.
    + destruct (Hnew Hres) as (json & Hj & Hcon). rewrite Hcon in Hb. simplify_eq.
      apply serde_roundtrip in Hj. rewrite Hc in Hj. simplify_eq. by exists out.
Qed.

(** The three loops that save. *)
Lemma save_projections_files log base (l : list (string * AnyProjection)) f :
  files_apart base →
  (∀ name x, (name, x) ∈ l → any_projection_ok log x ∧
     pr_checkpoint_dir (projT2 x) = projection_dir base (projT1 x)) →
  files_ok (Proj := Proj) (Pm := Pm) log f base →
  files_ok (Proj := Proj) (Pm := Pm) log (save_projections f l) base ∧
  same_snapshots f (save_projections f l).
Proof.
  intros Hap. revert f; induction l as [|[name [p r]] l IH]; intros f Hl Hf; simpl; [done|].
  destruct (runner_save f r) as [f1 res] eqn:Hs.
  destruct (Hl name (existT p r)) as [Hok Hd]; [set_solver|].
  destruct (runner_save_files _ _ _ _ _ _ _ Hap Hd Hok Hs Hf) as [Hf1 Hs1].
  destruct (IH f1) as [Hf2 Hs2]; [intros name' x Hx; apply (Hl name' x); set_solver|done|].
  split; [done|]. intros b ty id. simpl. by rewrite Hs2.
Qed.

Lemma save_process_managers_files log base pms outs f :
  files_apart base → pms_at log pms outs →
  (∀ x : AnyPm, x ∈ pms → pm_checkpoint_dir (projT2 x) = process_manager_dir base (projT1 x)) →
  files_ok (Proj := Proj) (Pm := Pm) log f base →
  files_ok (Proj := Proj) (Pm := Pm) log (save_process_managers f pms) base ∧
  same_snapshots f (save_process_managers f pms).
Proof.
  intros Hap Hat. revert f; induction Hat as [|[q r] out pms outs Hok _ IH]; intros f Hl Hf;
    simpl; [done|].
  destruct (pm_save f r) as [f1 res] eqn:Hs.
  destruct (pm_save_files _ _ _ _ _ _ _ _ Hap (Hl (existT q r) (list_elem_of_here _ _))
              Hok Hs Hf) as [Hf1 Hs1].
  destruct (IH f1) as [Hf2 Hs2]; [intros; apply Hl; set_solver|done|].
  split; [done|]. intros b ty id. simpl. by rewrite Hs2.
Qed.

Lemma save_pms_files log base pms outs f f' r :
  files_apart base → pms_at log pms outs →
  (∀ x : AnyPm, x ∈ pms → pm_checkpoint_dir (projT2 x) = process_manager_dir base (projT1 x)) →
  save_pms f pms = (f', r) → files_ok (Proj := Proj) (Pm := Pm) log f base →
  files_ok (Proj := Proj) (Pm := Pm) log f' base ∧ same_snapshots f f'.
Proof.
  intros Hap Hat. revert f; induction Hat as [|[q x] out pms outs Hok _ IH]; intros f Hl;
    simpl; [by intros [= <- <-]|].
  destruct (pm_save f x) as [f1 res] eqn:Hs. intros Hrest Hf.
  destruct (pm_save_files _ _ _ _ _ _ _ _ Hap (Hl (existT q x) (list_elem_of_here _ _))
              Hok Hs Hf) as [Hf1 Hs1].
  destruct res as [[]|e|]; [|by simplify_eq..].
  destruct (IH f1) as [Hf2 Hs2]; [intros; apply Hl; set_solver|done..|].
  split; [done|]. intros b ty id. by rewrite Hs2.
Qed.

(** ** Calls that leave the runners alone *)

Lemma same_files_eq (f f' : F) : f' = f → same_files f f'.
Proof. by intros ->. Qed.

Lemma get_world_ok (w w' : World) t id r :
  world_ok w → get w t id = (w', r) → world_ok w' ∧ progress w w'.
Proof.
  intros Hw Hget. destruct (get_ok _ _ _ _ _ (po_store _ (proj1 Hw)) Hget) as (Hs & _).
  apply (get_frame extends) in Hget as (Hfr & Hf & Hg); [|by eauto..].
  eapply world_ok_env; [done..| |done]. by apply same_files_eq.
Qed.

Lemma execute_world_ok (w w' : World) t id h cmd ctx r :
  world_ok w → cache w !! (t, id) = Some (existT t h) →
  store_execute w t h cmd ctx = (w', r) → world_ok w' ∧ progress w w'.
Proof.
  intros Hw Hc Hex.
  destruct (store_execute_ok _ _ _ _ _ _ _ _ (po_store _ (proj1 Hw)) Hc Hex) as (Hs & _).
  apply (store_execute_frame extends) in Hex as (Hfr & Hf & Hg); [|by eauto..].
  eapply world_ok_env; [done..| |done]. by apply same_files_eq.
Qed.

(** Dispatching, stated for the parts only: in the live loop the runners are
    accounted for elsewhere. *)
Lemma route_parts (w w' : World) envelope r :
  store_ok w → route w envelope = (w', r) →
  store_ok w' ∧ frame w w' ∧ fs w' = fs w ∧ extends (client w) (client w').
Proof.
  intros Hw Hr. pose proof Hr as Hr'. apply (route_frame extends) in Hr'; [|by eauto..].
  split; [|done]. unfold route in Hr.
  destruct (dispatchers w !! _) as [t|]; [|by simplify_eq].
  destruct (dispatch w t envelope) as [w1 dr] eqn:Hd.
  apply dispatch_ok in Hd as [Hw1 _]; [|done]. destruct dr; by simplify_eq.
Qed.

Lemma dead_letter_parts (w w' : World) d envelope error r :
  store_ok w → dead_letter w (join d "dead_letters.jsonl") envelope error = (w', r) →
  store_ok w' ∧ frame w w' ∧ same_files (fs w) (fs w') ∧ client w' = client w.
Proof.
  intros Hw. unfold dead_letter. destruct (append_dead_letter _ _ _ _ _) as [f dr] eqn:Hdl.
  intros [= <- <-].
  assert (same_files (fs w) f) as [Hf1 Hf2].
  { split; [intros d'|intros base ty id]; (eapply append_dead_letter_frame; [exact Hdl|]);
      [apply pm_file_not_dead_letters|apply snapshot_path_not_dead_letters]. }
  split; [|by split]. eapply store_ok_env, Hw; try done. intros t id p ->. apply Hf2.
Qed.

Definition is_dead_letters (p : path) : Prop := ∃ d, p = join d "dead_letters.jsonl".

#[local] Instance same_files_preorder : PreOrder same_files.
Proof.
  split; [done|]. intros f1 f2 f3 [H1 H2] [H3 H4].
  split; [intros d; by rewrite H3|]. intros b ty id. by rewrite H4.
Qed.

(** What a sequence of dispatches may change. *)
Definition dispatched_from (w w' : World) : Prop :=
  frame w w' ∧ same_files (fs w) (fs w') ∧ extends (client w) (client w').

#[local] Instance dispatched_preorder : PreOrder dispatched_from.
Proof.
  split; [by intros w|]. intros w1 w2 w3 ((?&?&?&?&?&?)&?&?) ((?&?&?&?&?&?)&?&?).
  split; [unfold frame; split_and!; congruence|]. split; by etrans.
Qed.

Lemma dispatch_envelopes_parts (w w' : World) p envelopes report r :
  is_dead_letters p → store_ok w → dispatch_envelopes w p envelopes report = (w', r) →
  store_ok w' ∧ dispatched_from w w'.
Proof.
  intros [d ->]. revert w report; induction envelopes as [|envelope envelopes IH];
    intros w report Hw; simpl; [by intros [= <- <-]|].
  destruct (route w envelope) as [w1 rr] eqn:Hr.
  apply route_parts in Hr as (Hw1 & Hfr1 & Hf1%same_files_eq & Hg1); [|done].
  assert (dispatched_from w w1) as H1 by done.
  destruct rr as [[error|]|e|]; [| |by intros [= <- <-]..].
  - destruct (dead_letter w1 _ envelope error) as [w2 dr] eqn:Hdl.
    apply dead_letter_parts in Hdl as (Hw2 & Hfr2 & Hf2 & Hg2); [|done].
    assert (dispatched_from w w2) as H2.
    { etrans; [exact H1|]. split_and!; [done..|by rewrite Hg2]. }
    destruct dr as [[]|e|]; [|by intros [= <- <-]..].
    intros [Hw' Hd']%IH; [|done]. split; [done|by etrans].
  - intros [Hw' Hd']%IH; [|done]. split; [done|by etrans].
Qed.

Lemma dispatch_work_parts (w w' : World) work report r :
  Forall is_dead_letters work.*2 → store_ok w → dispatch_work w work report = (w', r) →
  store_ok w' ∧ dispatched_from w w'.
Proof.
  revert w report; induction work as [|[envelopes p] work IH]; intros w report Hp Hw; simpl;
    [by intros [= <- <-]|].
  apply Forall_cons in Hp as [Hp Hps].
  destruct (dispatch_envelopes w p envelopes report) as [w1 dr] eqn:Hd.
  apply dispatch_envelopes_parts in Hd as [Hw1 Hd1]; [|done..].
  destruct dr as [report1|e|]; [|by intros [= <- <-]..].
  intros [Hw' Hd']%IH; [|done..]. split; [done|by etrans].
Qed.

(** ** Calls that move the runners *)

Lemma set_fs_world_ok (w : World) f :
  files_ok (log_of (client w)) f (store_base_dir w) → same_snapshots (fs w) f →
  world_ok w → world_ok (set_fs w f) ∧ progress w (set_fs w f).
Proof.
  intros Hf Hs [[H1 H2 H3] H4]. split; [|done]. split; [|done]. split; [|done|done].
  eapply store_ok_env, H1; try done. intros t id p ->. apply Hs.
Qed.

(** A process manager later: the same one, further on. *)
Definition same_runner (x y : AnyPm) : Prop :=
  projT1 y = projT1 x ∧ pm_checkpoint_dir (projT2 y) = pm_checkpoint_dir (projT2 x) ∧
  any_pm_position x ≤ any_pm_position y.

#[local] Instance same_runner_refl : Reflexive same_runner.
Proof. by intros x. Qed.

Lemma catch_up_all_runners s pms outs s' pms' r :
  pms_at (log_of s) pms outs → catch_up_all s pms = (s', pms', r) →
  Forall2 same_runner pms pms'.
Proof.
  intros Hat. revert s Hat s' pms' r. revert outs.
  induction pms as [|[q pm] pms IH]; intros outs s Hat s' pms' r; simpl;
    [by intros [= <- <- <-]|].
  apply Forall2_cons_inv_l in Hat as (out & outs' & Hpm & Hpms & ->). simpl in Hpm.
  destruct (pm_catch_up s pm) as [[s1 pm1] pr] eqn:Hup.
  assert (same_runner (existT q pm) (existT q pm1)) as H1.
  { split_and!; [done|by eapply pm_catch_up_cases|]. by eapply pm_catch_up_at in Hup as (? & _ & ? & _). }
  assert (log_of s `prefix_of` log_of s1) as Hg1
    by (by eapply pm_catch_up_at in Hup as (? & _ & _ & ? & _)).
  destruct pr; [|by intros [= <- <- <-]; constructor..].
  destruct (catch_up_all s1 pms) as [[s2 pms2] r2] eqn:Hall. intros [= <- <- <-].
  constructor; [done|]. eapply IH, Hall. by eapply pms_at_grow; [apply log_of_ok|exact Hg1|].
Qed.

Lemma catch_up_all_world_ok (w : World) s pms r :
  world_ok w → catch_up_all (client w) (process_managers w) = (s, pms, r) →
  world_ok (set_pms (set_client w s) pms) ∧ progress w (set_pms (set_client w s) pms).
Proof.
  intros [[H1 H2 [H3 H4]] [H5 (outs & H6)]] Hup.
  pose proof (catch_up_all_rel extends _ _ _ _ _ extends_subscribe Hup) as Hg.
  pose proof (catch_up_all_runners _ _ _ _ _ _ H6 Hup) as Hrun.
  destruct (catch_up_all_at _ _ _ _ _ _ H6 Hup) as (_ & _ & _ & news & _ & Hat & _).
  assert (∀ y, y ∈ pms → ∃ x, x ∈ process_managers w ∧ same_runner x y) as Hback.
  { intros y (i & Hi)%list_elem_of_lookup.
    destruct (Forall2_lookup_r _ _ _ _ _ Hrun Hi) as (x & Hx & Hxy).
    exists x. split; [by eapply list_elem_of_lookup_2|done]. }
  split; [split; [split|split]|].
  - eapply store_ok_env, H1; try done. apply Hg.
  - eapply files_ok_grow; [apply log_of_ok|apply Hg|done].
  - split; [done|]. intros y Hy. destruct (Hback y Hy) as (x & Hx & Hq & Hd & _).
    change (store_base_dir (set_pms (set_client w s) pms)) with (store_base_dir w).
    by rewrite Hd, Hq, (H4 x Hx).
  - intros name x Hx. eapply checkpoint_ok_grow; [apply log_of_ok|apply Hg|by eapply H5].
  - by exists (zip_with app outs news).
  - split_and!; [done| |done]. intros P HP [Hp1 Hp2]. split; [done|].
    intros y Hy. destruct (Hback y Hy) as (x & Hx & _ & _ & Hle). eapply HP, Hle. by apply Hp2.
Qed.

Lemma run_process_managers_world_ok (w w' : World) r :
  files_apart (store_base_dir w) → world_ok w → run_process_managers w = (w', r) →
  world_ok w' ∧ progress w w'.
Proof.
  intros Hap Hw. unfold run_process_managers.
  destruct (catch_up_all _ _) as [[s pms] cr] eqn:Hup.
  destruct (catch_up_all_world_ok _ _ _ _ Hw Hup) as [Hw1 Hp1].
  set (w1 := set_pms (set_client w s) pms) in *.
  destruct Hw as [_ [_ (outs & Hat)]].
  destruct (catch_up_all_at _ _ _ _ _ _ Hat Hup) as (_ & _ & _ & news & _ & _ & Hwork).
  destruct cr as [work|e|]; [|by intros [= <- <-]..].
  destruct (dispatch_work w1 work _) as [w2 dr] eqn:Hd.
  apply dispatch_work_parts in Hd as [Hs2 (Hfr & Hsf & Hg)]; [| |apply Hw1].
  2: { destruct (Hwork work eq_refl) as [_ ->]. apply Forall_fmap, Forall_true.
       intros x. eexists. done. }
  destruct (world_ok_env _ _ Hfr Hs2 Hg (proj1 Hsf) Hw1) as [Hw2 Hp2].
  assert (progress w w2) as Hp by (by etrans).
  destruct dr as [report|e|]; [|by intros [= <- <-]..].
  destruct (save_pms _ _) as [f sr] eqn:Hsave.
  assert (world_ok (set_fs w2 f) ∧ progress w (set_fs w2 f)) as Hend.
  { pose proof Hw2 as [[_ Hfiles [_ Hpl]] [_ (outs2 & Hat2)]].
    assert (files_apart (store_base_dir w2)) as Hap2 by (by destruct Hp as (_ & _ & ->)).
    destruct (save_pms_files _ _ _ _ _ _ _ Hap2 Hat2 Hpl Hsave Hfiles) as [Hf1 Hf2].
    destruct (set_fs_world_ok _ _ Hf1 Hf2 Hw2) as [? ?]. split; [done|by etrans]. }
  destruct sr; by intros [= <- <-].
Qed.

Lemma catch_up_files base p s f (r : ProjectionRunner (Proj p)) s' f' r' res :
  files_apart base → pr_checkpoint_dir r = projection_dir base p →
  checkpoint_ok (log_of s) (pr_checkpoint r) →
  files_ok (Proj := Proj) (Pm := Pm) (log_of s) f base →
  catch_up s f r = (s', f', r', res) →
  extends s s' ∧ files_ok (Proj := Proj) (Pm := Pm) (log_of s') f' base ∧ same_snapshots f f'.
Proof.
  intros Hap Hd Hok Hf Hup. destruct (catch_up_checkpoint_ok _ _ _ _ _ _ _ Hok Hup) as (Hok' & _).
  apply catch_up_cases in Hup as
    [Hd' [(-> & -> & _ & x & Hs)|(str & c & pres & Hs & Hp & -> & Hor)]];
    apply extends_subscribe in Hs; (split; [done|]);
    apply (files_ok_grow _ _ _ _ (log_of_ok s') (proj1 Hs)) in Hf; [done|].
  destruct Hor as [[-> _]|[_ Hsave]]; [done|].
  exact (runner_save_files _ _ _ p _ _ _ Hap (eq_trans Hd' Hd) Hok' Hsave Hf).
Qed.

Lemma projection_world_ok (w w' : World) p res :
  files_apart (store_base_dir w) → world_ok w → projection w p = (w', res) →
  world_ok w' ∧ progress w w'.
Proof.
  intros Hap [[H1 H2 [H3 H4]] [H5 (outs & H6)]]. unfold projection.
  destruct (projections w !! _) as [[p' r]|] eqn:Hr; [|intros [= <- <-]].
  2: { split; [|reflexivity]. split; [by split|]. split; [done|by exists outs]. }
  destruct (catch_up _ _ r) as [[[s f] r'] cr] eqn:Hup.
  destruct (catch_up_files _ p' _ _ _ _ _ _ _ Hap (H3 _ _ Hr) (H5 _ _ Hr) H2 Hup)
    as (Hg & Hf & Hsn).
  destruct (catch_up_checkpoint_ok _ _ _ _ _ _ _ (H5 _ _ Hr) Hup) as (Hok & _ & Hle).
  assert (pr_checkpoint_dir r' = pr_checkpoint_dir r) as Hd by (by eapply catch_up_cases).
  set (w1 := set_projections _ _).
  assert (world_ok w1 ∧ progress w w1) as Hend; [|destruct cr; [destruct (downcast _ p)|..];
                                                  by intros [= <- <-]].
  split; [split; [split|split]|].
  - eapply store_ok_env, H1; try done; [apply Hg|]. intros t id q ->. apply Hsn.
  - done.
  - split; [|done]. intros name x. simpl. intros [[_ <-]|[_ Hx]]%lookup_insert_Some.
    + simpl. rewrite Hd. by apply (H3 _ _ Hr).
    + by eapply H3.
  - intros name x. simpl. intros [[_ <-]|[_ Hx]]%lookup_insert_Some; [exact Hok|].
    eapply checkpoint_ok_grow; [apply log_of_ok|apply Hg|by eapply H5].
  - exists outs. eapply pms_at_grow; [apply log_of_ok|apply Hg|done].
  - split_and!; [done| |done]. intros P HP [Hp1 Hp2]. split; [|done].
    intros name x. simpl. intros [[_ <-]|[_ Hx]]%lookup_insert_Some; [|by eapply Hp1].
    eapply HP, Hle. apply (Hp1 _ _ Hr).
Qed.

(** An idle actor saves its snapshot and stops.  The file is its own, and its
    stream is not empty. *)
Lemma evict_files (w : World) t id h :
  store_ok w → cache w !! (t, id) = Some (existT t h) →
  let w' := evict_idle w t h in
  frame w w' ∧ client w' = client w ∧
  ∀ q, q ≠ snapshot_path (store_base_dir w) (AGGREGATE_TYPE (Agg t)) id →
    (∀ d, q ≠ join d "snapshot.json.tmp") → content (fs w') q = content (fs w) q.
Proof.
  intros Hw Hc. destruct (so_cache _ Hw _ _ _ Hc) as (h' & <-%existT_inj & ([config Hctx] & _)).
  unfold evict_idle. destruct (task_of w t h) as [a| |]; [|done..].
  simpl. unfold shut_down, save_snapshot_quietly. rewrite Hctx. simpl.
  destruct (save_snapshot _ _ _ _) as [f res] eqn:Hs.
  apply save_snapshot_atomic in Hs as (_ & _ & _ & Hf).
  destruct res; simpl; (split_and!; [done..|]; intros q Hq Ht; apply Hf; [|done]);
    rewrite snapshot_tmp_path; apply Ht.
Qed.

Lemma evict_store_ok (w : World) t id h :
  store_ok w → cache w !! (t, id) = Some (existT t h) → alone (store_base_dir w) t id →
  (∀ a, task_of w t h = Running a → is_Some (st_version a)) →
  store_ok (evict_idle w t h).
Proof.
  intros Hw Hc Hal Hver. destruct (evict_files w t id h Hw Hc) as (_ & _ & Hf). revert Hf.
  destruct (so_cache _ Hw _ _ _ Hc) as (h' & <-%existT_inj & ([config Hctx] & _ & Hrun)).
  unfold evict_idle. destruct (task_of w t h) as [a| |] eqn:Ht; [|done..].
  change (actor_step (h_ctx t h) (env_of w) a IdleElapsed)
    with (shut_down (h_ctx t h) (env_of w) a).
  destruct (shut_down _ _ a) as [[e task] r] eqn:Hd. cbn zeta. simpl. intros Hf.
  assert (ae_store e = client w ∧ ∀ a', task ≠ Running a') as [He Hstop].
  { unfold shut_down in Hd. destruct (save_snapshot_quietly _ _ _ _ _) as [f []]; by simplify_eq. }
  eapply store_ok_task; [done..| | |].
  - by rewrite He.
  - intros a' _ Hr. by destruct (Hstop a').
  - intros t' id' Hu.
    destruct (decide (snapshot_path (store_base_dir w) (AGGREGATE_TYPE (Agg t')) id' =
                      snapshot_path (store_base_dir w) (AGGREGATE_TYPE (Agg t)) id)) as [Heq|Hne].
    + destruct (Hal _ _ Hu Heq) as [-> ->]. rewrite Hctx in Hd.
      apply (shut_down_snapshot_ok (mk_ActorContext (instance_sid t id) id (store_base_dir w) config))
        in Hd; [exact Hd|done|by apply Hrun|by apply Hver|by apply (so_snapshots _ Hw)].
    + intros b snap. rewrite He, Hf; [by apply (so_snapshots _ Hw)|done|].
      intros d H%join_file_inj; done.
Qed.

Lemma evict_world_ok (w : World) t id h :
  world_ok w → cache w !! (t, id) = Some (existT t h) → alone (store_base_dir w) t id →
  (∀ a, task_of w t h = Running a → is_Some (st_version a)) →
  world_ok (evict_idle w t h) ∧ progress w (evict_idle w t h).
Proof.
  intros Hw Hc Hal Hver.
  destruct (evict_files w t id h (po_store _ (proj1 Hw)) Hc) as (Hfr & Hcl & Hf).
  apply world_ok_env; [done|by eapply evict_store_ok, Hver; [apply Hw|..]|by rewrite Hcl| |done].
  intros d. apply Hf; [|intros d' H%join_file_inj; done].
  intros H. by destruct (snapshot_path_not_checkpoint (store_base_dir w) (AGGREGATE_TYPE (Agg t)) id d).
Qed.

Lemma set_client_world_ok (w : World) s :
  extends (client w) s → world_ok w → world_ok (set_client w s) ∧ progress w (set_client w s).
Proof.
  intros Hg Hw. apply world_ok_env; [done| |done|done|done].
  eapply store_ok_env, (po_store _ (proj1 Hw)); try done. apply Hg.
Qed.

(** Every call of the application keeps the invariant. *)
Lemma perform_world_ok (w : World) c :
  files_apart (store_base_dir w) → world_ok w → world_ok (perform w c) ∧ progress w (perform w c).
Proof.
  intros Hap Hw. destruct c as [t id cmd ctx|t id|t id proposed opts|p|p|]; simpl.
  - destruct (get w t id) as [w1 gr] eqn:Hget.
    destruct (get_world_ok _ _ _ _ _ Hw Hget) as [Hw1 Hp1].
    destruct gr as [h|e|]; [|done..].
    destruct (store_execute w1 t h cmd ctx) as [w2 er] eqn:Hex. simpl.
    destruct (execute_world_ok _ _ _ _ _ _ _ _ Hw1 (get_in_cache _ _ _ _ _ Hget) Hex).
    split; [done|by etrans].
  - destruct (get w t id) as [w1 gr] eqn:Hget. by eapply get_world_ok.
  - unfold inject_event. destruct (append _ _ _ _) as [s ar] eqn:Happ.
    apply extends_append in Happ.
    destruct (set_client_world_ok _ _ Happ Hw) as [Hw1 Hp1].
    destruct ar as [resp|e|]; [|done..].
    destruct (opt_run_process_managers opts); [|done].
    destruct (run_process_managers _) as [w2 rr] eqn:Hrun.
    destruct (run_process_managers_world_ok (set_client w s) _ _ Hap Hw1 Hrun) as [Hw2 Hp2].
    assert (progress w w2) by (by etrans). destruct rr; done.
  - destruct (projection w p) as [w1 r] eqn:Hp. by eapply projection_world_ok.
  - unfold live_projection. destruct (live_handle w).
    + destruct (projections w !! _) as [[p' r]|]; [destruct (downcast _ p)|];
        (split; [exact Hw|reflexivity]).
    + destruct (projection w p) as [w1 r] eqn:Hp. by eapply projection_world_ok.
  - destruct (run_process_managers w) as [w1 r] eqn:Hrun.
    by eapply run_process_managers_world_ok.
Qed.

(** ** The live loop *)

Lemma saved_parts (w : World) :
  files_apart (store_base_dir w) → world_ok w → parts_ok (save_all_checkpoints w).
Proof.
  intros Hap Hw. pose proof Hw as [[H1 H2 [H3 H4]] [H5 (outs & H6)]].
  unfold save_all_checkpoints.
  destruct (save_projections_files (log_of (client w)) (store_base_dir w)
              (map_to_list (projections w)) (fs w) Hap) as [Hf1 Hs1]; [|done|].
  { intros name x Hx%elem_of_map_to_list. split; [by eapply H5|by eapply H3]. }
  destruct (save_process_managers_files _ (store_base_dir w) _ _ _ Hap H6 H4 Hf1) as [Hf2 Hs2].
  eapply set_fs_world_ok; [exact Hf2| |exact Hw].
  intros base ty id. by rewrite Hs2.
Qed.

Lemma fan_out_pms_parts (base : path) pms r pms' work :
  (∀ x : AnyPm, x ∈ pms → pm_checkpoint_dir (projT2 x) = process_manager_dir base (projT1 x)) →
  fan_out_pms pms r = (pms', work) →
  (∀ x : AnyPm, x ∈ pms' → pm_checkpoint_dir (projT2 x) = process_manager_dir base (projT1 x)) ∧
  Forall is_dead_letters work.*2.
Proof.
  revert pms' work; induction pms as [|[q pm] pms IH]; intros pms' work Hpl; simpl.
  { intros [= <- <-]. split; [done|constructor]. }
  pose proof (Hpl (existT q pm) (list_elem_of_here _ _)) as Hd. simpl in Hd.
  assert (pm_checkpoint_dir (react_event pm r).1 = pm_checkpoint_dir pm) as Hd1
    by (unfold react_event; by destruct (react_to_checkpoint _ r)).
  destruct (react_event pm r) as [pm1 envelopes]. simpl in Hd1.
  destruct (fan_out_pms pms r) as [pms1 work1].
  destruct (IH _ _ ltac:(set_solver) eq_refl) as [H1 H2]. intros [= <- <-]. split.
  - intros x [->|Hx]%elem_of_cons; [simpl; congruence|by apply H1].
  - destruct envelopes; [done|]. constructor; [by eexists|done].
Qed.

Lemma flatten_work_paths work :
  Forall is_dead_letters work.*2 → Forall is_dead_letters (flatten_work work).*2.
Proof.
  unfold flatten_work. induction work as [|[envelopes p] work IH]; simpl; [done|].
  intros [Hp Hw]%Forall_cons. rewrite fmap_app. apply Forall_app. split; [|by apply IH].
  apply Forall_fmap, Forall_fmap, Forall_true. done.
Qed.

Lemma fan_out_parts (w w' : World) r work :
  parts_ok w → fan_out w r = (w', work) →
  parts_ok w' ∧ Forall is_dead_letters (flatten_work work).*2 ∧ client w' = client w ∧
  store_base_dir w' = store_base_dir w.
Proof.
  intros [H1 H2 [H3 H4]]. unfold fan_out.
  destruct (fan_out_pms _ r) as [pms' work'] eqn:Hpm.
  destruct (fan_out_pms_parts (store_base_dir w) _ _ _ _ H4 Hpm) as [H5 H6].
  intros [= <- <-]. split; [split; [|done|]|].
  - by eapply store_ok_env, H1.
  - split; [|exact H5]. intros name x Hx.
    change (fmap (M := gmap string) (any_apply_event r) (projections w) !! name = Some x) in Hx.
    rewrite lookup_fmap in Hx. apply fmap_Some in Hx as (y & Hy & ->). by apply (H3 _ _ Hy).
  - split; [by apply flatten_work_paths|done].
Qed.

Lemma live_dispatch_parts (w w' : World) e r :
  is_dead_letters e.2 → parts_ok w → live_dispatch w e = (w', r) →
  parts_ok w' ∧ store_base_dir w' = store_base_dir w.
Proof.
  intros [d Hd] Hw. unfold live_dispatch.
  destruct (route w e.1) as [w1 rr] eqn:Hr.
  apply route_parts in Hr as (Hs1 & Hfr1 & Hf1%same_files_eq & Hg1); [|apply Hw].
  assert (parts_ok w1) as Hw1 by (eapply parts_ok_env, Hw; [done..|apply Hf1]).
  assert (store_base_dir w1 = store_base_dir w) as Hb1 by apply Hfr1.
  destruct rr as [[error|]|x|]; [|by intros [= <- <-]..]. rewrite Hd.
  destruct (dead_letter w1 _ e.1 error) as [w2 dr] eqn:Hdl.
  apply dead_letter_parts in Hdl as (Hs2 & Hfr2 & Hf2 & Hc2); [|done].
  assert (parts_ok w2) as Hw2 by (eapply parts_ok_env, Hw1; [done..|by rewrite Hc2|apply Hf2]).
  assert (store_base_dir w2 = store_base_dir w) by (rewrite <- Hb1; apply Hfr2).
  destruct dr; by intros [= <- <-].
Qed.

(** The paths the loop is about to write dead letters to. *)
Definition work_ok (pc : Pc) : Prop :=
  match pc with Dispatching _ work _ => Forall is_dead_letters work.*2 | _ => True end.

(** The invariant of the system; [base] is where the files are. *)
Record system_ok (base : path) (s : Live) : Prop := {
  sy_live : live_ok s;
  sy_parts : parts_ok (lv_store s);
  sy_work : work_ok (lv_pc s);
  sy_base : store_base_dir (lv_store s) = base;
}.

Lemma step_parts base (s s' : Live) l :
  files_apart base → system_ok base s → live_next s l = Some s' →
  parts_ok (lv_store s') ∧ work_ok (lv_pc s') ∧ store_base_dir (lv_store s') = base.
Proof.
  intros Hap [Hl Hp Hwk Hb] Hn.
  assert (parts_ok (lv_store (saved s)) ∧ store_base_dir (lv_store (saved s)) = base) as [Hsv Hsb].
  { split; [|done]. apply saved_parts; [by rewrite Hb|split; [done|apply Hl]]. }
  assert (∀ c, extends (client (lv_store s)) c → parts_ok (set_client (lv_store s) c)) as Hcl.
  { intros c Hg. eapply set_client_world_ok; [exact Hg|split; [done|apply Hl]]. }
  unfold live_next, signal_shutdown in Hn.
  destruct l, (lv_pc s) as [| |str|rec work str| |r] eqn:Hpc; simplify_eq;
    try (by rewrite ?Hpc in *); try (case_match; by simplify_eq);
    try (split; [first [exact Hsv|exact Hp]|]; simpl; by rewrite Hpc);
    try (unfold after_sleep;
         by destruct (next_backoff (live_config (lv_store s)) (lv_backoff s))).
  - unfold step_top. destruct (shutdown_signal _); [done|].
    destruct (subscribe_all_from _ _) as [c [str|e|]] eqn:Hsub;
      apply extends_subscribe, Hcl in Hsub; done.
  - unfold step_reading. destruct str as [|[[[[r|]|]]|e|] str]; cbn [sr_content]; try done.
    destruct (fan_out (lv_store s) r) as [w work] eqn:Hf.
    apply fan_out_parts in Hf as (H1 & H2 & _ & H3); [|done]. done.
  - unfold step_dispatching. destruct work as [|e work]; [done|].
    apply Forall_cons in Hwk as [He Hwork].
    destruct (live_dispatch (lv_store s) e) as [w dr] eqn:Hd.
    apply live_dispatch_parts in Hd as [H1 H2]; [|done..]. by destruct dr.
Qed.

(** ** The system *)

Lemma stream_ok_progress (w w' : World) items :
  progress w w' → stream_ok w items → stream_ok w' items.
Proof.
  intros ([Hg _] & Hpos & _) (from & del & H1 & H2 & H3). exists from, del. split_and!.
  - etrans; [exact H1|by apply events_from_grow].
  - eapply Hpos, H2. intros; simpl in *; lia.
  - intros d Hd. eapply Hpos, H3, Hd. intros; simpl in *; lia.
Qed.

(** Whatever happens to the store besides, the loop's state remains sound. *)
Lemma system_ok_progress base (s : Live) w :
  world_ok w → progress (lv_store s) w → system_ok base s → system_ok base (with_store s w).
Proof.
  intros [Hp Hr] Hpr [[H1 H2 H3] _ H5 H6].
  assert (∀ n, all_positions (λ p, n < p) (lv_store s) → all_positions (λ p, n < p) w) as Hpos.
  { intros n. destruct Hpr as (_ & Hpr & _). apply Hpr. intros; simpl in *; lia. }
  split; [split; [done| |]|done|done|].
  - destruct H2 as [?|H2]; [by left|right]. by apply Hpos.
  - simpl. destruct (lv_pc s) as [| |str|rec work str| |r]; try done.
    + by eapply stream_ok_progress.
    + destruct H3 as [H3 H4]. split; [by eapply stream_ok_progress|by apply Hpos].
  - destruct Hpr as (_ & _ & Hb). simpl. by rewrite Hb.
Qed.

(** A process that starts over the files a previous one left, whatever it was
    doing, on an event store that has not lost anything. *)
Lemma restart_ok {TransportError} connect_to temp_dir g now b (w w' : World) :
  world_ok w →
  open (TransportError := TransportError) connect_to temp_dir (fs w) g now b = Ok w' →
  extends (client w) (client w') → store_base_dir w' = store_base_dir w → world_ok w'.
Proof.
  intros [[H1 H2 _] _] Hopen [Hg Hgs] Hb. pose proof (open_Ok _ _ _ _ _ _ _ Hopen)
    as (_ & Hdir & Hf & _ & _ & Hps & Hpms & _). rewrite <- Hdir, Hb in Hps, Hpms.
  apply (files_ok_grow _ (log_of (client w'))) in H2; [|apply log_of_ok|done].
  split; [split|split].
  - eapply open_store_ok; [exact Hopen|]. intros t id Hu. rewrite <- Hdir, Hb.
    eapply snapshot_ok_grow; [apply Hgs|by apply (so_snapshots _ H1)].
  - by rewrite Hf, Hb.
  - split; rewrite Hb; [|by eapply init_process_managers_placed].
    eapply init_projections_placed, Hps. intros name x. by rewrite lookup_empty.
  - apply (init_projections_ok (log_of (client w'))) in Hps as [Hps' _];
      [exact Hps'|apply H2|]. intros name x. by rewrite lookup_empty.
  - apply (init_process_managers_ok (log_of (client w'))) in Hpms as (outs & Houts & _);
      [by exists outs|apply H2].
Qed.

(** No loop is running: nothing is in flight. *)
Lemma system_ok_idle base (w : World) (s : Live) :
  world_ok w → store_base_dir w = base → lv_store s = w → position (lv_cells s) = 0 →
  (lv_pc s = Top ∨ ∃ r, lv_pc s = Finished r) → system_ok base s.
Proof.
  intros [H1 H2] Hb Hs Hp Hpc. subst w.
  split; [split; [done|by left|]|done| |done]; by destruct Hpc as [->|[r ->]].
Qed.

Lemma sys_step_ok base (s s' : Live) :
  files_apart base → system_ok base s → sys_step extends s s' → system_ok base s'.
Proof.
  intros Hap Hs Hstep. pose proof Hs as [Hl Hp _ Hb].
  assert (world_ok (lv_store s)) as Hw by (split; [done|apply Hl]).
  destruct Hstep as [s c|s l s' Hn|s w handle Hst|s t id h Hc Hal Hver|s c Hg|TE ct td g now b s w _ Hop Hg Hbase].
  - destruct (perform_world_ok (lv_store s) c) as [Hw' Hpr]; [by rewrite Hb|done|].
    by apply system_ok_progress.
  - destruct (step_parts base s s' l Hap Hs Hn) as (H1 & H2 & H3).
    split; [by eapply live_next_ok|done..].
  - assert (world_ok w ∧ store_base_dir w = base) as [Hw' Hb'].
    { unfold start_live in Hst. destruct (live_handle _); simplify_eq. split; [|done].
      destruct Hw as [[H1 H2 H3] H4]. split; [|exact H4]. split; [|done|done].
      by eapply store_ok_env, H1. }
    eapply system_ok_idle; [exact Hw'|exact Hb'|done|done|].
    simpl. destruct (_ =? 0); [right; by eexists|by left].
  - destruct (evict_world_ok _ _ _ _ Hw Hc Hal Hver) as [Hw' Hpr]. by apply system_ok_progress.
  - destruct (set_client_world_ok _ _ Hg Hw) as [Hw' Hpr]. by apply system_ok_progress.
  - pose proof (restart_ok _ _ _ _ _ _ _ Hw Hop Hg Hbase) as Hw'.
    eapply system_ok_idle; [exact Hw'|congruence|done|done|]. right. by eexists.
Qed.

(** A run of the loop is a run of the system. *)
Lemma live_run_steps (s s' : Live) ls :
  live_run s ls = Some s' → rtc (sys_step extends) s s'.
Proof.
  revert s; induction ls as [|l ls IH]; intros s; simpl; [by intros [= <-]|].
  destruct (live_next s l) as [s1|] eqn:Hn; [|done]. intros Hrun.
  eapply rtc_l; [by eapply sys_loop|by apply IH].
Qed.

Lemma start_live_step (w : World) :
  live_handle w = None → sys_step extends (not_live w) (live_init (start_live w).1).
Proof.
  intros Hnone. unfold start_live. rewrite Hnone. eapply sys_start_live.
  unfold start_live. simpl. by rewrite Hnone.
Qed.

(** Every state an open store can reach is in order. *)
Lemma reachable_ok (w : World) (s : Live) :
  world_ok w → files_apart (store_base_dir w) → rtc (sys_step extends) (not_live w) s →
  system_ok (store_base_dir w) s.
Proof.
  intros Hopen Hfiles Hrun.
  assert (system_ok (store_base_dir w) (not_live w)) as H0.
  { eapply system_ok_idle; [exact Hopen|done..|]. right. by eexists. }
  revert H0. induction Hrun as [|s1 s2 s3 H _ IH]; [done|].
  intros Hs1. apply IH. by eapply sys_step_ok.
Qed.

(** C3: the whole system.  Start from an open store in order, and let the
    application make any calls, start the live loop, other writers append, actors
    save their snapshots and stop when they are idle, and
    the process be killed at any step and started again over the same files: at
    every moment every cached actor is at the replay of a prefix of its stream,
    every projection is the fold of the log below its cursor, every process
    manager is in the state its workflow reaches on the log below its own
    cursor, every snapshot and checkpoint on disk is one to start from, and a
    published position is below every cursor.  Actors and snapshots are those of
    the instances in use, of which an actor that stops has its file for itself
    and a stream that is not empty.  Calls interleave with the steps
    of the loop, which shares their runners. *)
Theorem system_invariant (w : World) (s : Live)
    (Hopen : world_ok w) (Hfiles : files_apart (store_base_dir w))
    (Hrun : rtc (sys_step extends) (not_live w) s) :
  world_ok (lv_store s) ∧
  (position (lv_cells s) = 0 ∨
   all_positions (λ p, position (lv_cells s) < p) (lv_store s)).
Proof.
  destruct (reachable_ok w s Hopen Hfiles Hrun) as [[H1 H2 _] H3 _ _]. by split.
Qed.
End system_facts.

(** ** Witness *)

Lemma demo_files_apart : files_apart (PJ := event_counter) (PMC := echo_saga) "/data".
Proof.
  split; [by intros [] []..|]. intros [] []. vm_compute. discriminate.
Qed.

Lemma demo_world_world_ok c : world_ok (demo_world c).
Proof.
  split; [split|apply demo_world_runners].
  - apply demo_world_ok.
  - split; intros x b ck Hb; destruct (empty_fs_content _ _ Hb).
  - split.
    + intros name x H.
      change (projections (demo_world c)) with
        ({[ "event-counter" := existT () (mk_ProjectionRunner (P := DemoProj ())
            (mk_ProjectionCheckpoint (mk_EventCounter 0) 0) "/data/projections/event-counter")
            : sigT (λ p, ProjectionRunner (DemoProj p)) ]}
         : gmap string (sigT (λ p, ProjectionRunner (DemoProj p)))) in H.
      by apply lookup_singleton_Some in H as [_ <-].
    + intros x H.
      change (process_managers (demo_world c)) with
        [existT () (mk_ProcessManagerRunner (PM := DemoPm ())
          (mk_ProcessManagerCheckpoint (mk_EchoSaga 0) 0) "/data/process_managers/echo-saga")
         : sigT (λ q, ProcessManagerRunner (DemoPm q))] in H.
      by apply list_elem_of_singleton in H as ->.
Qed.

Lemma demo_world_not_live c : live_handle (demo_world c) = None.
Proof. reflexivity. Qed.

(** The saga's target stops, when it is there. *)
Definition demo_idle (w : DemoStore) : DemoStore :=
  match cache w !! (TTarget, "c1"%string) with
  | Some x => match downcast x TTarget with Some h => evict_idle w TTarget h | None => w end
  | None => w
  end.

(** It has seen an event of its stream. *)
Definition demo_idle_ready (w : DemoStore) : Prop :=
  match cache w !! (TTarget, "c1"%string) with
  | Some x => match downcast x TTarget with
              | Some h => ∀ a, task_of w TTarget h = Running a → st_version a ≠ None
              | None => True
              end
  | None => True
  end.

Lemma demo_alone : alone (Agg := DemoState) "/data" TTarget "c1".
Proof. by intros [] ? [-> | ->] H. Qed.

Lemma demo_idle_step (s : Live (Store := DemoClient) (F := MemFs) (TypeId := DemoAgg)
    (Agg := DemoState) (ProjId := ()) (Proj := DemoProj) (PmId := ()) (Pm := DemoPm)) :
  store_base_dir (lv_store s) = "/data"%string →
  demo_idle_ready (lv_store s) →
  rtc (sys_step extends) s (with_store s (demo_idle (lv_store s))).
Proof.
  intros Hb. unfold demo_idle, demo_idle_ready.
  assert (with_store s (lv_store s) = s) as Hsame by (by destruct s).
  destruct (cache _ !! _) as [x|] eqn:Hc; [|by rewrite Hsame].
  destruct (downcast x TTarget) as [h|] eqn:Hx; [|by rewrite Hsame].
  apply downcast_Some in Hx as ->. intros Hv. apply rtc_once, (sys_idle _ s TTarget "c1" h Hc).
  - rewrite Hb. exact demo_alone.
  - intros a Ht. by apply not_eq_None_Some, Hv.
Qed.

(** The live loop starts, fans the first event out and saves; the application
    runs the process managers in between, and the actor that spawns stops; then
    the process is killed, with an envelope of the loop still waiting, and starts
    again. *)
Definition demo_called : option (Live (Store := DemoClient) (F := MemFs) (TypeId := DemoAgg)
    (Agg := DemoState) (ProjId := ()) (Proj := DemoProj) (PmId := ()) (Pm := DemoPm)) :=
  match live_run (live_init (start_live (demo_world (two_events []))).1) [LRun; LRun; LTick] with
  | Some s => Some (with_store s (perform (lv_store s) CallRunProcessManagers))
  | None => None
  end.

Lemma demo_called_reached s :
  demo_called = Some s →
  rtc (sys_step extends) (not_live (demo_world (two_events []))) s.
Proof.
  unfold demo_called. destruct (live_run _ _) as [s1|] eqn:Hl; [|done]. intros [= <-].
  eapply rtc_l; [exact (start_live_step _ (demo_world_not_live _))|].
  etrans; [exact (live_run_steps _ _ _ Hl)|].
  apply rtc_once. exact (sys_call _ s1 CallRunProcessManagers).
Qed.

(** The process that starts over what the killed one left. *)
Definition demo_again (s : Live (Store := DemoClient) (F := MemFs) (TypeId := DemoAgg)
    (Agg := DemoState) (ProjId := ()) (Proj := DemoProj) (PmId := ()) (Pm := DemoPm))
    : result DemoStore string :=
  let w := demo_idle (lv_store s) in demo_open (client w) (fs w) [TCounter; TTarget].

Definition target_snapshot : path := "/data/snapshots/target/c1/snapshot.json".

Lemma system_invariant_witness :
  match demo_called with
  | Some s =>
      match demo_again s with
      | Ok w => world_ok w ∧ content (fs w) target_snapshot ≠ None ∧
                any_projection_position <$> projections w !! "event-counter" = Some 1
      | _ => False
      end
  | None => False
  end.
Proof.
  assert (match demo_called with
          | Some s => store_base_dir (lv_store s) = "/data"%string ∧
              demo_idle_ready (lv_store s) ∧
              match demo_again s with
              | Ok w => (content (fs w) target_snapshot ≠ None ∧
                         any_projection_position <$> projections w !! "event-counter" = Some 1) ∧
                        store_base_dir w = store_base_dir (demo_idle (lv_store s))
              | _ => False
              end
          | None => False
          end) as Hrun by (vm_compute; repeat split; first [discriminate|intros ? [= <-]; discriminate]).
  destruct demo_called as [s|] eqn:Hs; [|done]. destruct Hrun as (Hb & Hv & Hrun).
  destruct (demo_again s) as [w|e|] eqn:Hw; [|done..]. destruct Hrun as [Hrest Hbase].
  split; [|exact Hrest].
  assert (client w = client (demo_idle (lv_store s))) as Hc.
  { destruct (open_Ok _ _ _ _ _ _ _ Hw) as [[= Hcl] _]. done. }
  refine (proj1 (system_invariant (demo_world (two_events [])) (not_live w)
                   (demo_world_world_ok _) demo_files_apart _)).
  etrans; [exact (demo_called_reached s Hs)|].
  etrans; [exact (demo_idle_step s Hb Hv)|].
  eapply rtc_once, (sys_restart _ _ _ _ _ _ (with_store s (demo_idle (lv_store s))) _
                      (demo_builder_configured _) Hw); [|exact Hbase].
  simpl. rewrite Hc. apply extends_preorder.
Defined.
