(* ===== verification/AnswersFacts.v ===== *)
(** What an application is told: the answers of [execute], [state],
    [projection] and [live_projection] in any state the system of [System] can
    reach, in terms of the streams and the log of the event store alone. *)
From stdpp Require Import relations.
From S2P Require Import Prelude Std Deps Command Errors Aggregate Proto Event EventStore Auth.
From S2P Require Import Client Snapshot Actor Cursor Projection ProcessManager LiveTypes Store.
From S2P Require Import Live Builder System Codec Demo DemoApp EventFacts ClientFacts DiskFacts.
From S2P Require Import ActorFacts ProjectionFacts ProcessManagerFacts StoreFacts BuilderFacts.
From S2P Require Import LiveFacts SystemFacts.
Open Scope N_scope.

Section answers.
Context {J : SerdeJson} {U : UuidOps} {T : Tonic}.
Context {Store : Type} {ES : EventStoreOps Store} {EL : EventLogOps Store}.
Context {F : Type} {FS : FileSystem F} {FL : FileSystemLaws F} {SD : Serde DeadLetterEntry}.
Context {TypeId : Type} `{!EqDecision TypeId, !Countable TypeId}.
Context {Agg : TypeId → Type} {AG : ∀ t, Aggregate (Agg t)}.
Context {CD : ∀ t, CommandDe (Agg t)} {SA : ∀ t, Serde (Snapshot (Agg t))}.
Context {ProjId : Type} `{!EqDecision ProjId}.
Context {Proj : ProjId → Type} {PJ : ∀ p, Projection (Proj p)}.
Context {SP : ∀ p, Serde (ProjectionCheckpoint (Proj p))}.
Context {PmId : Type} {Pm : PmId → Type} {PMC : ∀ q, ProcessManager (Pm q)}.
Context {SM : ∀ q, Serde (ProcessManagerCheckpoint (Pm q))}.
Context {JL : SerdeJsonLaws} {AT : ∀ t, AdjacentlyTagged (Agg t)}.
Context {SLA : ∀ t, SerdeLaws (Snapshot (Agg t))}.
Context {SPL : ∀ p, SerdeLaws (ProjectionCheckpoint (Proj p))}.
Context {SML : ∀ q, SerdeLaws (ProcessManagerCheckpoint (Pm q))}.
Context {SS : EventStoreSpec to_proto_event Store} {LS : EventLogSpec Store}.
Context {SLS : EventStoreLogSpec Store} {STL : EventStreamLogSpec to_proto_event Store}.
Context {IN : InUse TypeId}.

Abbreviation World := (AggregateStore (Store := Store) (F := F) (TypeId := TypeId)
  (Agg := Agg) (ProjId := ProjId) (Proj := Proj) (PmId := PmId) (Pm := Pm)).
Abbreviation Live := (Live (Store := Store) (F := F) (TypeId := TypeId)
  (Agg := Agg) (ProjId := ProjId) (Proj := Proj) (PmId := PmId) (Pm := Pm)).
Abbreviation stream := (stream_of to_proto_event).

(** ** The specification of the answers *)

(** A command was decided on the events [l] of the stream; the events it
    decided on stand right behind them. *)
Definition executed (s : Store) (t : TypeId) (id : string) (cmd : Command (Agg t))
    (es : list (DomainEvent (Agg t))) : Prop :=
  ∃ l recs, handle (st_state (replay l)) cmd = Ok es ∧ reads_back es recs ∧
    (l ++ recs) `prefix_of` stream s (instance_sid t id).

(** A state the instance has had. *)
Definition has_been (s : Store) (t : TypeId) (id : string) (a : Agg t) : Prop :=
  ∃ l, l `prefix_of` stream s (instance_sid t id) ∧ a = st_state (replay l).

(** A state the read model has, that of a log [seen] so far. *)
Definition projects (log : list RecordedEvent) (p : ProjId) (x : Proj p)
    (seen : list RecordedEvent) : Prop :=
  seen `prefix_of` log ∧ x = project (P := Proj p) seen.

(** ** Lemmas *)

(** [get], then [execute]. *)
Lemma execute_answer (w w1 w2 : World) t id h cmd ctx es :
  store_ok w → in_use t id → get w t id = (w1, Ok h) →
  store_execute w1 t h cmd ctx = (w2, Ok es) → executed (client w2) t id cmd es.
Proof.
  intros Hw Hu Hget Hex. destruct (get_ok _ _ _ _ _ Hw Hget) as (Hw1 & _).
  pose proof (get_in_cache _ _ _ _ _ Hget) as Hc.
  destruct (store_execute_ok _ _ _ _ _ _ _ _ Hw1 Hc Hex) as (_ & _ & _ & _ & H).
  by apply (H es).
Qed.

(** [get], then [state]. *)
Lemma state_answer (w w1 : World) t id h a :
  store_ok w → in_use t id → get w t id = (w1, Ok h) → store_state w1 t h = Ok a →
  has_been (client w1) t id a.
Proof.
  intros Hw Hu Hget. destruct (get_ok _ _ _ _ _ Hw Hget) as (Hw1 & _).
  pose proof (get_in_cache _ _ _ _ _ Hget) as Hc.
  destruct (so_cache _ Hw1 _ _ _ Hc) as (h' & <-%existT_inj & (_ & _ & Ha)).
  unfold store_state, handle_state, send_message.
  destruct (task_of w1 t h) as [a'| |] eqn:Ht; [|done..]. simpl. intros [= <-].
  destruct (Ha a' Hu eq_refl) as (l & Hl & ->). by exists l.
Qed.

(** [live_projection] while the loop is there: the runner as it stands. *)
Lemma live_projection_answer (w w' : World) p x n :
  projections_ok w → live_handle w ≠ None → all_positions (λ q, n < q) w →
  live_projection w p = (w', Ok x) →
  w' = w ∧ ∃ seen, projects (log_of (client w)) p x seen ∧
    ∀ ev, ev ∈ log_of (client w) → re_global_position ev ≤ n → ev ∈ seen.
Proof.
  intros Hok Hlive [Hpos _]. unfold live_projection. destruct (live_handle w) as [lh|]; [|done].
  destruct (projections w !! _) as [[p' runner]|] eqn:Hr; [|done].
  destruct (downcast _ p) as [y|] eqn:Hd; [|done]. intros [= <- <-]. split; [done|].
  apply downcast_Some in Hd. pose proof (Hok _ _ Hr) as [_ Hst]. pose proof (Hpos _ _ Hr) as Hn.
  exists (events_below (runner_position runner) (log_of (client w))). split; [split|].
  - apply events_below_prefix, log_of_ok.
  - refine (eq_ind _ (λ z : sigT Proj, projT2 z = project (PR := PJ (projT1 z)) _) _ _ Hd).
    exact Hst.
  - intros ev Hin Hle. apply list_elem_of_filter. split; [|done].
    unfold any_projection_position in Hn. simpl in Hn. lia.
Qed.

(** ** The theorem *)

(** C4: what an application is told is true, at any moment.  In every state the
    system can reach: a command that is reported as accepted was decided by
    [handle] on an initial part of its instance's stream, and its events stand
    right behind it; [state] answers with a state the instance has had;
    [projection] answers with the read model of an initial part of the log, of
    all of the log at the time of the call when the subscription comes to its
    marker; and while the live loop is there [live_projection] answers from
    memory, with a read model that has applied every event up to the position
    the loop has published, so that who has waited for a position reads the
    events up to it. *)
Theorem answers_correct (w0 : World) (s : Live)
    (Hopen : world_ok w0) (Hfiles : files_apart (store_base_dir w0))
    (Hrun : rtc (sys_step extends) (not_live w0) s) :
  let w := lv_store s in
  (∀ t id cmd ctx w1 h w2 es, in_use t id → get w t id = (w1, Ok h) →
     store_execute w1 t h cmd ctx = (w2, Ok es) → executed (client w2) t id cmd es) ∧
  (∀ t id w1 h a, in_use t id → get w t id = (w1, Ok h) → store_state w1 t h = Ok a →
     has_been (client w1) t id a) ∧
  (∀ p w1 x, projection w p = (w1, Ok x) →
     ∃ (r : sigT (λ p, ProjectionRunner (Proj p))) seen,
       projections w !! PROJ_NAME (Proj p) = Some r ∧ projects (log_of (client w1)) p x seen ∧
       ∀ c items evs, subscribe_all_from (client w) (runner_position (projT2 r)) = (c, Ok items) →
         until_caught_up items = Some evs → log_of (client w) `prefix_of` seen) ∧
  (∀ p w1 x, live_handle w ≠ None → live_projection w p = (w1, Ok x) →
     position (lv_cells s) ≠ 0 →
     w1 = w ∧ ∃ seen, projects (log_of (client w)) p x seen ∧
       ∀ ev, ev ∈ log_of (client w) → re_global_position ev ≤ position (lv_cells s) → ev ∈ seen).
Proof.
  intros w. destruct (reachable_ok w0 s Hopen Hfiles Hrun) as [[[Hproj _] Hpos _] [Hs _ _] _ _].
  split_and!.
  - intros t id cmd ctx w1 h w2 es. by apply execute_answer.
  - intros t id w1 h a. by apply state_answer.
  - intros p w1 x Hp. destruct (projection_reads _ _ _ _ Hproj Hp) as (_ & H & _).
    destruct (H x eq_refl) as (r & seen & H1 & H2 & H3 & H4). by exists r, seen.
  - intros p w1 x Hl Hx Hne. destruct Hpos as [?|Hpos]; [done|].
    by eapply live_projection_answer.
Qed.
End answers.

(** ** Witness *)

(** An application listens to the positions; the loop has read the two events and
    dispatched what the saga made of them. *)
Definition demo_live : option (Live (Store := DemoClient) (F := MemFs) (TypeId := DemoAgg)
    (Agg := DemoState) (ProjId := ()) (Proj := DemoProj) (PmId := ()) (Pm := DemoPm)) :=
  live_run (live_init (start_live (demo_world (two_events []))).1)
    [LSubscribe; LRun; LRun; LRun; LRun; LRun; LRun; LRun].

Lemma demo_live_reached s :
  demo_live = Some s → rtc (sys_step extends) (not_live (demo_world (two_events []))) s.
Proof.
  unfold demo_live. intros Hs%live_run_steps. etrans; [|exact Hs].
  apply rtc_once. exact (start_live_step _ (demo_world_not_live _)).
Qed.

Lemma answers_correct_witness :
  match demo_live with
  | Some s =>
      match live_projection (lv_store s) () with
      | (_, Ok x) =>
          position (lv_cells s) = 1 ∧ x = mk_EventCounter 2 ∧
          ∃ seen, projects (Proj := DemoProj) (log_of (client (lv_store s))) () x seen ∧
            ∀ ev, ev ∈ log_of (client (lv_store s)) → re_global_position ev ≤ 1 → ev ∈ seen
      | _ => False
      end
  | None => False
  end.
Proof.
  assert (match demo_live with
          | Some s => match live_projection (lv_store s) () with
                      | (_, Ok x) => position (lv_cells s) = 1 ∧ x = mk_EventCounter 2
                      | _ => False
                      end ∧ live_handle (lv_store s) ≠ None
          | None => False
          end) as H by (vm_compute; repeat split; discriminate).
  destruct demo_live as [s|] eqn:Hs; [|done]. destruct H as [H Hl].
  destruct (live_projection _ _) as [w [x|e|]] eqn:Hx; [|done..]. destruct H as [Hp Hc].
  split; [exact Hp|]. split; [exact Hc|].
  destruct (answers_correct (demo_world (two_events [])) s (demo_world_world_ok _) demo_files_apart
              (demo_live_reached s Hs)) as (_ & _ & _ & H).
  destruct (H () w x Hl Hx) as (_ & seen & H1 & H2); [by rewrite Hp|].
  rewrite Hp in H2. exists seen. exact (conj H1 H2).
Defined.
