(* ===== verification/TypeFacts.v ===== *)
(** Theorems about the heterogeneous parts of the store: its maps hold values of
    many Rust types behind [dyn Any] and [dyn] traits, looked up by a type
    identifier or by a name, and downcast.  In every reachable state each entry
    is of the type its key stands for. *)
From stdpp Require Import relations.
From S2P Require Import Prelude Std Deps Command Errors Aggregate Proto Event EventStore Auth.
From S2P Require Import Client Snapshot Actor Cursor Projection ProcessManager LiveTypes Store.
From S2P Require Import Live Builder System Codec Demo DemoApp EventFacts ClientFacts DiskFacts.
From S2P Require Import ActorFacts ProjectionFacts ProcessManagerFacts StoreFacts BuilderFacts.
From S2P Require Import LiveFacts SystemFacts.
Open Scope N_scope.

Section type_facts.
Context {J : SerdeJson} {U : UuidOps} {T : Tonic}.
Context {Store : Type} {ES : EventStoreOps Store} {EL : EventLogOps Store}.
Context {F : Type} {FS : FileSystem F} {FL : FileSystemLaws F} {SD : Serde DeadLetterEntry}.
Context {TypeId : Type} `{!EqDecision TypeId, !Countable TypeId}.
Context {Agg : TypeId → Type} {AG : ∀ t, Aggregate (Agg t)}.
Context {CD : ∀ t, CommandDe (Agg t)} {SA : ∀ t, Serde (Snapshot (Agg t))}.
Context {ProjId : Type} `{!EqDecision ProjId}.
Context {Proj : ProjId → Type} {PJ : ∀ p, Projection (Proj p)}.
Context {SP : ∀ p, Serde (ProjectionCheckpoint (Proj p))}.
Context {PmId : Type} {Pm : PmId → Type} {PMC : ∀ q, ProcessManager (Pm q)}.
Context {SM : ∀ q, Serde (ProcessManagerCheckpoint (Pm q))}.
Context {JL : SerdeJsonLaws} {AT : ∀ t, AdjacentlyTagged (Agg t)}.
Context {SLA : ∀ t, SerdeLaws (Snapshot (Agg t))}.
Context {SPL : ∀ p, SerdeLaws (ProjectionCheckpoint (Proj p))}.
Context {SML : ∀ q, SerdeLaws (ProcessManagerCheckpoint (Pm q))}.
Context {SS : EventStoreSpec to_proto_event Store} {LS : EventLogSpec Store}.
Context {SLS : EventStoreLogSpec Store} {STL : EventStreamLogSpec to_proto_event Store}.
Context {IN : InUse TypeId}.

Abbreviation World := (AggregateStore (Store := Store) (F := F) (TypeId := TypeId)
  (Agg := Agg) (ProjId := ProjId) (Proj := Proj) (PmId := PmId) (Pm := Pm)).
Abbreviation AnyProjection := (sigT (λ p : ProjId, ProjectionRunner (Proj p))).
Abbreviation Live := (Live (Store := Store) (F := F) (TypeId := TypeId)
  (Agg := Agg) (ProjId := ProjId) (Proj := Proj) (PmId := PmId) (Pm := Pm)).
Abbreviation Builder := (AggregateStoreBuilder (TypeId := TypeId) (ProjId := ProjId)
  (PmId := PmId)).

(** ** Which types are where *)

(** The type of the projection under each name, and of each dispatcher. *)
Definition projection_types (w : World) : string → option ProjId :=
  λ name, @projT1 _ _ <$> projections w !! name.

(** Every registration is under the name its type declares. *)
Definition slots_typed (w : World) : Prop :=
  (∀ name p, projection_types w name = Some p → name = PROJ_NAME (Proj p)) ∧
  (∀ name t, dispatchers w !! name = Some t → name = AGGREGATE_TYPE (Agg t)).

(** From one state to another, no slot changes its type. *)
Definition same_types (w w' : World) : Prop :=
  (∀ name, projection_types w' name = projection_types w name) ∧
  dispatchers w' = dispatchers w.

#[local] Instance same_types_preorder : PreOrder same_types.
Proof.
  split; [by intros w|]. intros w1 w2 w3 [H1 H2] [H3 H4].
  split; [|congruence]. intros name. by rewrite H3.
Qed.

Lemma same_types_typed (w w' : World) : same_types w w' → slots_typed w → slots_typed w'.
Proof.
  intros [H1 H2] [H3 H4]. split; [intros name p; rewrite H1; apply H3|].
  intros name t. rewrite H2. apply H4.
Qed.

Lemma frame_same_types (w w' : World) : frame w w' → same_types w w'.
Proof.
  intros (_ & Hp & Hd & _). split; [|done]. intros name. unfold projection_types. by rewrite Hp.
Qed.

(** Nothing is asked of the event store here. *)
Abbreviation anything := (λ _ _ : Store, True).
#[local] Instance anything_preorder : PreOrder anything.
Proof. by split. Qed.

(** ** The operations *)

Lemma run_process_managers_types (w w' : World) r :
  run_process_managers w = (w', r) → same_types w w'.
Proof.
  unfold run_process_managers. destruct (catch_up_all _ _) as [[s pms] cr].
  set (w1 := set_pms (set_client w s) pms). assert (same_types w w1) as H1 by done.
  destruct cr as [work|e|]; [|by intros [= <- <-]..].
  destruct (dispatch_work w1 work _) as [w2 dr] eqn:Hd.
  apply (dispatch_work_frame anything) in Hd as [H2%frame_same_types _]; [|done..].
  assert (same_types w w2) as H3 by (by etrans).
  destruct dr; [|by intros [= <- <-]..].
  destruct (save_pms _ _) as [f [|e|]]; by intros [= <- <-].
Qed.

Lemma projection_types_kept (w w' : World) p r : projection w p = (w', r) → same_types w w'.
Proof.
  unfold projection. destruct (projections w !! _) as [[p' x]|] eqn:Hx; [|by intros [= <- <-]].
  destruct (catch_up _ _ x) as [[[s f] x'] cr]. set (w1 := set_projections _ _).
  assert (same_types w w1) as H.
  { split; [|done]. intros name. unfold projection_types. simpl.
    destruct (decide (name = PROJ_NAME (Proj p))) as [->|Hne].
    - by rewrite lookup_insert_eq, Hx.
    - by rewrite lookup_insert_ne by done. }
  destruct cr; [destruct (downcast _ p)|..]; by intros [= <- <-].
Qed.

Lemma perform_types (w : World) c : same_types w (perform w c).
Proof.
  destruct c as [t id cmd ctx|t id|t id proposed opts|p|p|]; simpl.
  - destruct (get w t id) as [w1 gr] eqn:Hget.
    apply (get_frame anything) in Hget as [H1%frame_same_types _]; [|done..].
    destruct gr as [h|e|]; [|done..].
    destruct (store_execute w1 t h cmd ctx) as [w2 er] eqn:Hex.
    apply (store_execute_frame anything) in Hex as [H2%frame_same_types _]; [|done..].
    by etrans.
  - destruct (get w t id) as [w1 gr] eqn:Hget.
    apply (get_frame anything) in Hget as [H1%frame_same_types _]; done.
  - unfold inject_event. destruct (append _ _ _ _) as [s [resp|e|]]; [|done..].
    destruct (opt_run_process_managers opts); [|done].
    destruct (run_process_managers _) as [w2 rr] eqn:Hrun.
    apply run_process_managers_types in Hrun.
    assert (same_types w w2) by (etrans; [|exact Hrun]; done). by destruct rr.
  - destruct (projection w p) as [w1 r] eqn:Hp. by eapply projection_types_kept.
  - unfold live_projection. destruct (live_handle w).
    + destruct (projections w !! _) as [[p' r]|]; [destruct (downcast _ p)|]; reflexivity.
    + destruct (projection w p) as [w1 r] eqn:Hp. by eapply projection_types_kept.
  - destruct (run_process_managers w) as [w1 r] eqn:Hrun. by eapply run_process_managers_types.
Qed.

Lemma fan_out_types (w w' : World) r work : fan_out w r = (w', work) → same_types w w'.
Proof.
  unfold fan_out. destruct (fan_out_pms _ r) as [pms' work']. intros [= <- <-].
  split; [|done]. intros name. unfold projection_types. simpl.
  change (@projT1 _ _ <$> fmap (M := gmap string) (any_apply_event r) (projections w) !! name
          = @projT1 _ _ <$> projections w !! name).
  rewrite lookup_fmap. by destruct (projections w !! name).
Qed.

Lemma live_dispatch_types (w w' : World) e r : live_dispatch w e = (w', r) → same_types w w'.
Proof.
  unfold live_dispatch. destruct (route w e.1) as [w1 rr] eqn:Hr.
  apply (route_frame anything) in Hr as [H1%frame_same_types _]; [|done..].
  destruct rr as [[error|]|x|]; [|by intros [= <- <-]..].
  unfold dead_letter. destruct (append_dead_letter _ _ _ _ _) as [f [|x|]]; by intros [= <- <-].
Qed.

Lemma live_next_types (s s' : Live) l :
  live_next s l = Some s' → same_types (lv_store s) (lv_store s').
Proof.
  assert (same_types (lv_store s) (lv_store (signal_shutdown s))) as Hsignal
    by (unfold signal_shutdown; by destruct (lv_pc s)).
  assert (same_types (lv_store s) (lv_store (after_sleep s))) as Hsleep
    by (unfold after_sleep; by destruct (next_backoff _ _)).
  assert (same_types (lv_store s) (lv_store (step_top s))) as Htop.
  { unfold step_top. destruct (shutdown_signal _); [done|].
    by destruct (subscribe_all_from _ _) as [c' []]. }
  assert (∀ stream, same_types (lv_store s) (lv_store (step_reading s stream))) as Hread.
  { intros [|[[[[r|]|]]|e|] stream]; unfold step_reading; cbn [sr_content]; try done.
    destruct (fan_out _ r) as [w work] eqn:Hf. by eapply fan_out_types. }
  assert (∀ r work stream, same_types (lv_store s) (lv_store (step_dispatching s r work stream)))
    as Hdisp.
  { intros r [|e work] stream; unfold step_dispatching; [done|].
    destruct (live_dispatch _ e) as [w dr] eqn:Hd. apply live_dispatch_types in Hd. by destruct dr. }
  unfold live_next. destruct l, (lv_pc s); intros; simplify_eq; try done;
    case_match; by simplify_eq.
Qed.

(** ** Opening *)

Lemma configured_names (b : Builder) :
  configured (Agg := Agg) (Proj := Proj) (Pm := Pm) b →
  Forall (λ x, x.1 = PROJ_NAME (Proj x.2)) (projection_factories b) ∧
  Forall (λ x, x.1 = AGGREGATE_TYPE (Agg x.2)) (dispatcher_factories b).
Proof.
  induction 1 as [| |b url _ IH|b l _ IH|b p _ IH|b t _ [IH1 IH2]|b p _ [IH1 IH2]|b q _ IH
                  |b d _ IH|b c _ IH]; try done; [by split..| |]; simpl;
    (split; [|first [exact IH2|apply Forall_app; split; [exact IH2|by repeat constructor]]]);
    first [exact IH1|apply Forall_app; split; [exact IH1|by repeat constructor]].
Qed.

Lemma init_projections_typed f base l (acc m : gmap string AnyProjection) :
  Forall (λ x, x.1 = PROJ_NAME (Proj x.2)) l →
  (∀ name x, acc !! name = Some x → name = PROJ_NAME (Proj (projT1 x))) →
  init_projections f base l acc = Some m →
  ∀ name x, m !! name = Some x → name = PROJ_NAME (Proj (projT1 x)).
Proof.
  revert acc; induction l as [|[name p] l IH]; intros acc Hl Hacc; simpl; [by intros [= <-]|].
  apply Forall_cons in Hl as [Hname Hl].
  unfold projection_factory, runner_new.
  destruct (load_checkpoint f _) as [c|e|]; simpl; [|done..].
  apply IH; [done|]. intros name' x [[<- <-]|[_ Hx]]%lookup_insert_Some; [done|by eapply Hacc].
Qed.

Lemma open_typed {TransportError} connect_to temp_dir f g now (b : Builder) (w : World) :
  configured (Agg := Agg) (Proj := Proj) (Pm := Pm) b →
  open (TransportError := TransportError) connect_to temp_dir f g now b = Ok w →
  slots_typed w.
Proof.
  intros [Hp Hd]%configured_names (_ & _ & _ & _ & _ & Hps & _ & Hds)%open_Ok. split.
  - intros name p. unfold projection_types. intros (x & Hx & ->)%fmap_Some.
    eapply init_projections_typed; [exact Hp| |exact Hps|exact Hx].
    intros name' x'. by rewrite lookup_empty.
  - intros name t. rewrite Hds, init_dispatchers_last.
    intros Hin%elem_of_list_to_map_2. rewrite elem_of_reverse in Hin.
    rewrite Forall_forall in Hd. apply (Hd _ Hin).
Qed.

(** ** The system *)

Lemma sys_step_typed (s s' : Live) :
  sys_step extends s s' → slots_typed (lv_store s) → slots_typed (lv_store s').
Proof.
  destruct 1 as [s c|s l s' Hn|s w handle Hst|s t id h _ _ _|s c Hg|TE ct td g now b s w Hb Hop Hg Hbase].
  - apply same_types_typed, perform_types.
  - by eapply same_types_typed, live_next_types.
  - apply same_types_typed. unfold start_live in Hst.
    destruct (live_handle _); by simplify_eq.
  - apply same_types_typed. simpl. unfold evict_idle. destruct (task_of _ _ _); [|done..].
    by destruct (actor_step _ _ _ _) as [[e task] r].
  - by apply same_types_typed.
  - intros _. by eapply open_typed.
Qed.

Lemma reachable_typed (w : World) (s : Live) :
  rtc (sys_step extends) (not_live w) s → slots_typed w → slots_typed (lv_store s).
Proof.
  intros Hrun Ht. change (slots_typed (lv_store (not_live w))) in Ht.
  induction Hrun as [|s1 s2 s3 H _ IH]; [done|]. by eapply IH, sys_step_typed.
Qed.

(** C20: the downcasts of the store never fail.  Take a store opened by a
    builder that went through the builder's methods, and any state it can
    reach.  A handle in the cache is one of the type and the instance it is
    looked up by, a dispatcher is of the aggregate type it is registered under,
    and when no other projection has the same [NAME], the runner found under the
    name of a projection is its own: [projection] returns the runner's state
    after the catch-up, or the error of the catch-up, never
    ["projection type mismatch"], and while the loop is live [live_projection]
    returns the state as it is. *)
Theorem downcasts_succeed {TransportError} connect_to temp_dir f g now (b : Builder)
    (w0 : World) (s : Live)
    (Hb : configured (Agg := Agg) (Proj := Proj) (Pm := Pm) b)
    (Hopen : open (TransportError := TransportError) connect_to temp_dir f g now b = Ok w0)
    (Hok : world_ok w0) (Hfiles : files_apart (store_base_dir w0))
    (Hrun : rtc (sys_step extends) (not_live w0) s) :
  let w := lv_store s in
  (∀ t id x, cache w !! (t, id) = Some x →
     ∃ h, downcast x t = Some h ∧ ac_instance_id (h_ctx t h) = id ∧
          ac_stream_id (h_ctx t h) = stream_uuid (AGGREGATE_TYPE (Agg t)) id) ∧
  (∀ name t, dispatchers w !! name = Some t → name = AGGREGATE_TYPE (Agg t)) ∧
  (∀ p, (∀ p', PROJ_NAME (Proj p') = PROJ_NAME (Proj p) → p' = p) →
     match projections w !! PROJ_NAME (Proj p) with
     | None => projection w p = (w, Err (not_registered p))
     | Some x =>
         ∃ runner, downcast x p = Some runner ∧
           (live_handle w ≠ None → live_projection w p = (w, Ok (runner_state runner))) ∧
           let '(_, _, runner', r) := catch_up (client w) (fs w) runner in
           (projection w p).2 =
             match r with Ok _ => Ok (runner_state runner') | Err e => Err e | Panic => Panic end
     end).
Proof.
  intros w. destruct (reachable_ok w0 s Hok Hfiles Hrun) as [_ [Hs _ _] _ _].
  assert (slots_typed w) as [Hp Hd]
    by exact (reachable_typed _ _ Hrun (open_typed _ _ _ _ _ _ _ Hb Hopen)).
  split_and!; [|done|].
  - intros t id x Hx. destruct (so_cache _ Hs _ _ _ Hx) as (h & -> & [config Hc] & _).
    exists h. by rewrite downcast_self, Hc.
  - intros p Hu. unfold live_projection, projection.
    destruct (projections w !! _) as [[p' runner]|] eqn:Hx; [|done].
    assert (p' = p) as -> by (apply Hu; symmetry; apply Hp; unfold projection_types; by rewrite Hx).
    exists runner. split_and!; [apply (downcast_self (B := λ p, ProjectionRunner (Proj p)))|..].
    + intros Hl. rewrite (downcast_self (B := λ p, Proj p)). by destruct (live_handle w).
    + destruct (catch_up _ _ runner) as [[[s' f'] runner'] [|e|]]; [|done..].
      by rewrite (downcast_self (B := λ p, Proj p)).
Qed.
End type_facts.

(** ** Witness *)

(** The demo store opens, and the application runs the process managers, which
    spawn the saga's target. *)
Lemma downcasts_succeed_witness :
  let w := perform (demo_world (two_events [])) CallRunProcessManagers in
  match cache w !! (TTarget, "c1") with
  | Some x => ∃ h, downcast x TTarget = Some h ∧ ac_instance_id (h_ctx TTarget h) = "c1"
  | None => False
  end.
Proof.
  intros w.
  assert (match cache w !! (TTarget, "c1") with Some _ => True | None => False end) as Hc
    by (vm_compute; exact I).
  destruct (cache w !! (TTarget, "c1")) as [x|] eqn:Hx; [|done].
  assert (demo_open (two_events []) empty_fs [TCounter; TTarget] = Ok (demo_world (two_events [])))
    as Hopen by reflexivity.
  destruct (downcasts_succeed (TransportError := string) _ _ _ _ _ _ _
              (with_store (not_live (demo_world (two_events []))) w)
              (demo_builder_configured _) Hopen (demo_world_world_ok _) demo_files_apart
              (rtc_once _ _ (sys_call _ _ CallRunProcessManagers))) as (H & _).
  destruct (H TTarget "c1" x Hx) as (h & H1 & H2 & _).
  exists h. exact (conj H1 H2).
Defined.
