(* ===== verification/TestFacts.v ===== *)
(** Theorems about the crate's unit tests ([UnitTests]) and about the store the
    actor's tests run on ([MockStore]): every test passes on the model, and what
    the retry loop does on that store, for every aggregate, every command and
    every number of configured conflicts, where the tests try one. *)
From S2P Require Import Prelude Std Deps Command Errors Aggregate Proto Event EventStore.
From S2P Require Import Client Actor MockStore Codec Demo DemoApp UnitTests.
From S2P Require Import EventFacts ActorFacts.
Open Scope N_scope.

(** ** The mock store *)
Section mock.
Context {J : SerdeJson} {JL : SerdeJsonLaws} {U : UuidOps} {T : Tonic}.
Context (failed_precondition : string → Status).
Context {A : Type} {AG : Aggregate A} {AT : AdjacentlyTagged A}.
#[local] Instance mock_store_ops : EventStoreOps MockStore := MockStore_ops failed_precondition.

(** Serialising tagged events for an append never fails. *)
Lemma encode_total ctx ty id g (e : DomainEvent A) :
  ∃ g' p, encode_domain_event ctx ty id g e = (g', Ok p).
Proof.
  unfold encode_domain_event.
  destruct (event_tagged e) as [t [[Hv _]|[d [Hv _]]]]; rewrite Hv;
    (match goal with |- context [as_object (json_obj ?l)] =>
       destruct (as_object_json_obj l) as [o Ho] end);
    rewrite Ho, (map_get_fields _ _ _ Ho) by (repeat constructor; set_solver);
    simpl; rewrite lookup_insert_eq; simpl; rewrite as_str_json_str;
    destruct (new_v4 g); eauto.
Qed.

Lemma encode_all_total ctx ty id (es : list (DomainEvent A)) : ∀ g,
  ∃ g' l, try_map_state (encode_domain_event ctx ty id) g es = (g', Ok l).
Proof.
  induction es as [|e es IH]; intros g; simpl; [by eauto|].
  destruct (encode_total ctx ty id g e) as (g1 & p & ->).
  destruct (IH g1) as (g2 & l & ->). eauto.
Qed.

(** What [append] records of a batch: the events in order, with consecutive
    versions and positions. *)
Lemma mock_record_all sid l : ∀ s,
  ms_next_version s + N.of_nat (length l) ≤ u64_MAX →
  ∃ recs, foldl (mock_record sid) s l =
      mk_MockStore (ms_events s ++ recs) (ms_failures s)
        (ms_next_version s + N.of_nat (length l)) ∧
    Forall2 recorded_as (to_proto_event <$> l) recs ∧
    ∀ i r, recs !! i = Some r →
      re_stream_version r = ms_next_version s + N.of_nat i ∧
      re_global_position r = N.of_nat (length (ms_events s) + i).
Proof.
  induction l as [|p l IH]; intros s Hb; simpl in *.
  - exists []. rewrite app_nil_r, N.add_0_r. by destruct s.
  - edestruct (IH (mock_record sid s p)) as (recs & -> & Hr & Hi).
    { simpl. rewrite u64_add_small; lia. }
    simpl in *. rewrite u64_add_small in * by lia. rewrite <- app_assoc. eexists (_ :: recs).
    split_and!; [f_equal; lia|by constructor|].
    intros [|i] r; simpl.
    + intros [= <-]. simpl. split; [lia|f_equal; lia].
    + intros [-> ->]%Hi. rewrite length_app. simpl. split; [lia|f_equal; lia].
Qed.

(** One conflict is answered by a read that finds nothing new. *)
Lemma mock_attempt_conflicts k n v g (a : ActorState A) sid id cmd ctx e es g' l :
  code_is_failed_precondition (failed_precondition "wrong expected version") = true →
  handle (st_state a) cmd = Ok (e :: es) → 0 < n →
  try_map_state (encode_domain_event ctx (AGGREGATE_TYPE A) id) g (e :: es) = (g', Ok l) →
  execute_attempts (S k) (mk_MockStore [] n v) g a sid id cmd ctx =
  execute_attempts k (mk_MockStore [] (n - 1) v) g' a sid id cmd ctx.
Proof.
  intros Hc Hh Hn Henc. cbn [execute_attempts]. rewrite Hh, Henc.
  cbn [append mock_store_ops MockStore_ops]. unfold mock_append. cbn [ms_failures].
  rewrite (proj2 (N.ltb_lt _ _) Hn), Hc. cbn. by destruct a.
Qed.

(** Once the conflicts are used up, the append is accepted. *)
Lemma mock_attempt_accepted k g (a : ActorState A) sid id cmd ctx e es g' l :
  handle (st_state a) cmd = Ok (e :: es) → N.of_nat (length (e :: es)) ≤ u64_MAX →
  try_map_state (encode_domain_event ctx (AGGREGATE_TYPE A) id) g (e :: es) = (g', Ok l) →
  ∃ recs, execute_attempts (S k) (mk_MockStore [] 0 0) g a sid id cmd ctx =
    (mk_MockStore recs 0 (N.of_nat (length (e :: es))), g',
     mk_ActorState (foldl apply (st_state a) (e :: es)) (Some (N.of_nat (length es))),
     Ok (e :: es)) ∧ reads_back (e :: es) recs.
Proof.
  intros Hh Hb Henc. pose proof (try_map_state_Ok _ _ _ _ _ Henc) as Hlen%Forall2_length.
  destruct (mock_record_all sid l (mk_MockStore [] 0 0)) as (recs & Hf & Hr & _);
    [simpl in *; lia|].
  exists recs. split; [|by eapply encoded_reads_back].
  cbn [execute_attempts]. rewrite Hh, Henc.
  cbn [append mock_store_ops MockStore_ops]. unfold mock_append. cbn [ms_failures].
  rewrite (proj2 (N.ltb_ge _ _) (N.le_refl 0)), Hf. simpl in *. rewrite <- Hlen.
  repeat f_equal. rewrite u64_sub_small by lia. lia.
Qed.

(** The mock is lenient where the server is not: it accepts an append with any
    expected version, so it is no implementation of the contract the client
    has with the server. *)
Lemma mock_is_no_event_store (SS : EventStoreSpec to_proto_event MockStore) : False.
Proof.
  set (sid := stream_uuid "t" "i").
  pose (p := mk_ProposedEventData sid "e" Null (mk_EventMetadata "t" "i" None None None)).
  edestruct (append_ok to_proto_event (mk_MockStore [] 0 0) sid (Exact 7) [p])
    as (mid & recs & _ & Hlen & Hr%Forall2_length & _ & Hv); [reflexivity|done|].
  simpl in *. rewrite length_app in Hv. change (u64_sub _ 1) with 0 in Hv. lia.
Qed.

(** ** Theorems *)

(** The retry loop on a store that first reports [n] version conflicts, and
    has nothing new to read, for any aggregate whose command decides on some
    events.  With three conflicts or more, three of them are used up, nothing is
    recorded, the actor's state is unchanged and the caller gets
    [WrongExpectedVersion]; with fewer, exactly the decided events are recorded,
    once and in order, and the actor's state and version are those behind them. *)
Lemma mock_store_conflicts n g (a : ActorState A) sid id cmd ctx e es
    (Hcode : code_is_failed_precondition (failed_precondition "wrong expected version") = true)
    (Hhandle : handle (st_state a) cmd = Ok (e :: es))
    (Hbound : N.of_nat (length (e :: es)) ≤ u64_MAX) :
  ∃ g', if n <? 3 then
    ∃ recs, execute_with_retry (with_precondition_failures n) g a sid id cmd ctx =
      (mk_MockStore recs 0 (N.of_nat (length (e :: es))), g',
       mk_ActorState (foldl apply (st_state a) (e :: es)) (Some (N.of_nat (length es))),
       Ok (e :: es)) ∧ reads_back (e :: es) recs
  else
    execute_with_retry (with_precondition_failures n) g a sid id cmd ctx =
      (with_precondition_failures (n - 3), g', a, Err WrongExpectedVersion).
Proof.
  unfold execute_with_retry, MAX_RETRIES, with_precondition_failures.
  destruct (encode_all_total ctx (AGGREGATE_TYPE A) id (e :: es) g) as (g1 & l1 & H1).
  destruct (encode_all_total ctx (AGGREGATE_TYPE A) id (e :: es) g1) as (g2 & l2 & H2).
  destruct (encode_all_total ctx (AGGREGATE_TYPE A) id (e :: es) g2) as (g3 & l3 & H3).
  assert (n = 0 ∨ n = 1 ∨ n = 2 ∨ 3 ≤ n) as [->|[->|[->|Hn]]] by lia.
  - exists g1. by eapply mock_attempt_accepted.
  - exists g2. erewrite mock_attempt_conflicts by done. by eapply mock_attempt_accepted.
  - exists g3. do 2 erewrite mock_attempt_conflicts by done. by eapply mock_attempt_accepted.
  - exists g3. rewrite (proj2 (N.ltb_ge _ _) Hn).
    do 3 (erewrite mock_attempt_conflicts by (done || lia)). simpl. do 4 f_equal. lia.
Qed.
End mock.

(** ** The tests *)

